(* ===== verification/_CoqProject ===== *)
-Q . S2P
Prelude.v
GoStd.v
Values.v
Store.v
Engine.v
Channels.v
EventLog.v
EventAdmin.v
Subscription.v
Changes.v
Sweep.v
Kv.v
Reads.v
TtlMap.v
Counters.v
Shared.v
Listing.v
EventAtomic.v
Atomic.v
Lock.v
KvProps.v
Open.v
HashDoc.v
Hash.v
HashSpec.v
HashProps.v
HashAtomic.v
GoBase64.v
GoText.v
Background.v
Listeners.v
UiSafe.v
UiLimit.v
UiSession.v
UiAccounts.v
UiAuth.v
UiDb.v
UiView.v
UiEvents.v
UiPages.v
UiMetrics.v
UiServer.v
CliText.v
Cli.v
CliCmds.v
CliMain.v
CliProps.v
CliUi.v
Service.v
ServiceProps.v
