(* ===== verification/Prelude.v ===== *)
(** * lytecache, verified

    lytecache is a Redis-like cache kept in one SQLite file. Any number of
    processes open the same file; there is no server. This development models
    the Go library ([src/lytecache-go]), the command line and the web
    administration UI ([src/lytecache-cli]) and proves what they promise to
    each other and to their users.

    ** The program and its model

    The library is a [Cache] handle (configuration), some process state, and a
    file with three tables: [cache] (rows with a type code, an expiry and usage
    counts), [meta] and [lytecache_events] (an append-only log with a cursor
    table). Every method reads the clock, executes SQL statements or one
    transaction, and buffers bookkeeping. The tools open handles on one or more
    files and call methods of the library.

    A method is a computation of the monad [Engine.M] on a [World]: the file,
    the process state of one process, a step counter, the monotonic clock. A
    statement is a function on the tables ([Store]); it takes one step, at which
    the [Host] decides whether the driver fails and what other connections
    commit first. A Go error is [Err], a loop that does not end within its fuel
    is [Hang]. Theorems for every [Host] therefore speak of driver failures and
    of concurrent processes; the class [Quiet] (no failure, no other writer) or
    [Alone] (no other writer) is assumed where functional behaviour is stated,
    [MonotoneClock] and [FixedClock] where time matters.

    Goroutines are state machines whose steps interleave: a subscription in
    [Subscription.sys_step], the dispatcher and the sweeper in [Background]. The web
    UI is a function from requests to replies on the files, the manager of open
    handles and the login state; a command is a computation [Cli.C] on the
    files, its handle and its output, ending with an exit code.

    ** Files

    The library, [src/lytecache-go]:
    - [Prelude]: tactics and lemmas on lists, options and integers;
    - [GoStd]: [int64], durations, [strconv] and [strings];
    - [Values]: [serialize.go], the type codes of [schema.go], [errors.go];
    - [Store]: the tables of [schema.go] and [events.go] and the statements;
    - [Engine]: process state of [cache.go], [Host], the monad, its program
      logic ([keeps] for what a method may do to the file, [by_turns] for that
      among the commits of others, [wp] for what it computes);
    - [Channels]: channel names, [channelFilter] and [MatchChannel];
    - [EventLog], [EventAdmin], [Subscription]: [events.go], [events_admin.go];
    - [Changes]: [changes.go]; [Sweep]: [sweep.go] and the LRU buffer;
    - [Kv]: [kv.go], [memoize.go]; [Reads]: [ttl.go], [keys.go], [inspect.go],
      [namespaces.go], [stats.go]; [Counters]: [counters.go]; [Lock]: [lock.go];
    - [TtlMap]: the specification of the key-value interface (a map from keys to
      values with an expiry) and the refinement; [KvProps]: its error paths;
      [Shared]: the timeline of a file that several processes use; [Atomic]:
      the same operations and [Incr] on it, [EventAtomic]: publishing on it,
      [Listing]: paging through [Keys] on it;
    - [Open]: options, [New], [Close] and paths of [cache.go], [schema.go],
      [paths.go];
    - [HashDoc], [Hash]: [hash.go], its two implementations (SQLite's JSON
      functions, and read-modify-write of an ordered object); [HashSpec],
      [HashProps]: their common specification and the theorems; [HashAtomic]:
      hash operations among those of other processes;
    - [Background]: the dispatcher between its critical sections, the ticker of
      the sweeper, and how [Close] ends both;
    - [Listeners]: from a write to the listeners that hear of it; a check of the
      model: the loop of the dispatcher in [Changes] is a run of the machine of
      [Background].

    The web UI, [src/lytecache-cli/cmd/lytecache/ui]:
    - [GoBase64], [GoText]: [encoding/base64], and more of [strings], [unicode],
      [path], [net/url], [time] and binary64 formatting;
    - [UiSafe]: the relations [prunes] and [tidies] between a file before and
      after, and that the library methods the UI calls keep them;
    - [UiLimit]: [ratelimit.go]; [UiSession]: [session.go]; [UiAccounts]:
      [password.go], [config.go], [permissions_unix.go]; [UiAuth]: [auth.go],
      [auth_handlers.go]; [UiDb]: [dbmanager.go];
    - [UiView]: keys and values in [viewmodel.go], [valuecodes.go],
      [masking.go]; [UiEvents]: [events.go] and the rest of [viewmodel.go];
    - [UiPages]: [handlers.go], [pages.go], [mutations.go], [metrics.go];
      [UiMetrics]: what a scrape contains;
    - [UiServer]: [routes.go], [server.go], and what no request can do.

    The command line, [src/lytecache-cli/cmd/lytecache]:
    - [CliText]: [parse.go], [output.go], [exitcode.go], the word splitting of
      [repl.go]; [Cli]: [db.go], [cmd_kv.go], [cmd_ttl.go]; [CliCmds]:
      the other [cmd_*.go]; [CliMain]: [main.go], [root.go], [repl.go];
    - [CliProps]: the theorems on commands;
    - [CliUi]: [cmd_ui.go], [ui_flags.go]; [Service]: [cmd_service.go] and the
      package [service]; [ServiceProps]: its rotated log.

    Definitions keep the names of the source; an underscore is added where Rocq
    reserves one ([Set_], [New_]), and fields carry a prefix of their record.

    ** Theorems

    - Key-value interface: it implements the TTL map for every sequence of
      operations ([TtlMap]); values read back at their type ([Values]);
      [SetMany] is atomic under driver failures; counters add.
    - Many processes ([Atomic], [HashAtomic], [EventAtomic], [Lock]): whatever
      others commit between the statements of a call, and whichever fails, a write
      takes effect at one moment or not at all, a read answers for one moment (a
      hash operation as if it ran alone at that moment), no increment is lost, a
      publication is contiguous, a listing yields each key once and misses none
      that stays alive, a lock excludes every other process until its expiry, and
      waiting for one ends; opening a file writes its version at most.
    - Maintenance: eviction removes rows in the order of the policy and only as
      many as the limits need, a pass restores the invariants of a namespace,
      closing loses no bookkeeping.
    - Events: publishing appends, retention removes the prefix that age and
      count ask for and nothing else, subscribers receive a prefix of what was
      published, gaps are neither invented nor skipped, closing ends the
      goroutine; filters agree with [MatchChannel] where a zero byte does not
      tell them apart; mutations are reported once, a write is heard by every
      listener that asked for its operation, in order and with exactly the
      record of what it changed, the dispatcher drains, and [Close] ends every
      goroutine.
    - Hashes: both implementations meet one specification, are interchangeable,
      and are atomic under driver failures; documents survive the round trip.
    - Web UI: guesses of a password are bounded by the time and the requests a
      client has in flight, only a user who logged in (to this run or an earlier
      one with the same secret) passes the middleware, without a session no
      request changes anything, with one it can only delete (whatever other
      processes do to the files), masked data reaches no page, the browser shows
      each key but the empty one once and in the order asked for, the cursor
      table is truthful; searches are bounded, rescans only add, a scrape
      repeats no series and fits its descriptors.
    - Command line: quoting delivers the words quoted, the type of a stored value
      is determined by its flag and text, [get] prints what [set] stored, reading
      commands never create a file, a UI server only starts guarded, the log of
      the service keeps the newest text within its bound and drops old text only
      for room.

    Each theorem that has hypotheses is followed by a witness that applies it
    to a concrete file, host and input.

    ** Parameters

    Code that is not in the repository is a class whose laws say what its
    documentation says: [GoLib] (floats and [encoding/json]), [ChangeJson],
    [SqlNum] (SQLite's addition on text), [JsonText] and [JsonTextLaws] (Go's
    JSON), [SqliteJson] and [SqliteJsonLaws] (JSON1), [Os], [Cookies] and
    [CookieLaws] (claims as JSON, HMAC), [Argon2] and [Argon2Laws], [ConfigIO]
    and [ConfigLaws] (YAML and file calls), [Prometheus] and [PrometheusLaws]
    (the label values its client accepts), [Net], [FileSystem] and
    [PlainFiles], [ViewLib], [CliLib], [AnyLaws], [Waiting], [NilValue],
    [Platform], [Machine] (the service manager), [DiskFaults] (which calls on the
    files of the log fail). How cobra reads a command line
    is an argument of the definitions of [CliMain]. Witnesses instantiate them
    with concrete functions.

    ** Fuel

    A loop over rows takes one unit per row present when it starts and one more
    ([event_fuel], [cache_fuel]): each iteration but the last removes or passes
    at least one row, and writers in other processes can only make it longer. The
    theorems of termination and the functional theorems exclude [Hang]. The lock
    loop polls at most once per interval of its timeout and at both ends
    ([lock_fuel]); [maxEvictionPasses] and [initMaxAttempts] are constants of
    the source; recursion on texts takes their length. [run_dispatcher] takes
    its fuel as an argument; the theorem says how much drains the queue.

    ** Not modelled

    The sweeper that a command's own handle runs while the command does (its
    passes are among what other connections may do); the five seconds that
    [Close] waits for a listener; pragmas and pools; the texts of log messages, and of
    errors where only their kind is tested; the rendering of templates, HTTP
    plumbing, response headers and static files; modification times of files;
    the registration of flags, line editing; opening a browser; what
    kardianos/service and schtasks do, the liveness probe; the metrics' text
    format; the ports of the library to other languages. *)

From Stdlib Require Export Ascii ZArith Lia.
From stdpp Require Export base gmap strings list fin_maps sorting pretty.

#[export] Set Default Proof Using "Type".

Declare Scope lyte_scope.
Delimit Scope lyte_scope with lyte.

(** ** Tactics *)

(** Case analysis on the innermost [match] or [if] of the goal. *)
Ltac case_goal :=
  match goal with
  | |- context [match ?x with _ => _ end] =>
      lazymatch x with
      | context [match _ with _ => _ end] => fail
      | _ => destruct x eqn:?
      end
  end.

(** The same in a hypothesis. *)
Ltac case_hyp H :=
  match type of H with
  | context [match ?x with _ => _ end] =>
      lazymatch x with
      | context [match _ with _ => _ end] => fail
      | _ => destruct x eqn:?
      end
  end.

(** Turn boolean comparisons on [Z] into propositions. *)
Ltac bool_to_prop :=
  repeat match goal with
  | H : (_ && _) = true |- _ => apply andb_true_iff in H as [? ?]
  | H : (_ && _) = false |- _ => apply andb_false_iff in H
  | H : (_ || _) = false |- _ => apply orb_false_iff in H as [? ?]
  | H : (_ || _) = true |- _ => apply orb_true_iff in H
  | H : negb _ = true |- _ => apply negb_true_iff in H
  | H : negb _ = false |- _ => apply negb_false_iff in H
  | H : (_ <? _)%Z = true |- _ => apply Z.ltb_lt in H
  | H : (_ <? _)%Z = false |- _ => apply Z.ltb_ge in H
  | H : (_ <=? _)%Z = true |- _ => apply Z.leb_le in H
  | H : (_ <=? _)%Z = false |- _ => apply Z.leb_gt in H
  | H : (_ =? _)%Z = true |- _ => apply Z.eqb_eq in H
  | H : (_ =? _)%Z = false |- _ => apply Z.eqb_neq in H
  | H : bool_decide _ = true |- _ => apply bool_decide_eq_true in H
  | H : bool_decide _ = false |- _ => apply bool_decide_eq_false in H
  | H : String.eqb _ _ = true |- _ => apply String.eqb_eq in H
  | H : String.eqb _ _ = false |- _ => apply String.eqb_neq in H
  end.

(** ** Errors and results

    Go functions return a value and an [error]; the library wraps sentinel
    errors with [%w], so the model keeps the sentinel and drops the message.
    [ErrDatabase] stands for an error of the SQLite driver itself. *)

Record gap_error := GapError {
  RequestedSeq : Z;
  OldestSeq : Z;
  ResumeSeq : Z;
  Ahead : bool
}.

#[global] Instance gap_error_eq_dec : EqDecision gap_error.
Proof. solve_decision. Defined.

Inductive error :=
  | ErrCacheFull
  | ErrSerialization
  | ErrSchemaVersion
  | ErrLockTimeout
  | ErrNotNumeric
  | ErrOverflow
  | ErrGap (g : gap_error)
  | ErrSubscriptionClosed
  | ErrInvalidArgument
  | ErrDatabase
  | ErrParse            (* strconv or fmt parse errors *)
  | ErrOther (n : nat). (* an error made by the caller's own code *)

#[global] Instance error_eq_dec : EqDecision error.
Proof. solve_decision. Defined.

(** [Hang] marks a loop whose bound was reached before its exit condition:
    it is not a behaviour of the program, and the termination theorems show
    that it does not occur where they apply. *)
Inductive result (A : Type) :=
  | Ok (a : A)
  | Err (e : error)
  | Hang.
Arguments Ok {_} _.
Arguments Err {_} _.
Arguments Hang {_}.

#[global] Instance result_eq_dec `{EqDecision A} : EqDecision (result A).
Proof. solve_decision. Defined.

#[global] Instance result_ret : MRet result := λ _ a, Ok a.
#[global] Instance result_bind : MBind result := λ _ _ k r,
  match r with Ok a => k a | Err e => Err e | Hang => Hang end.

#[global] Instance result_fmap : FMap result := λ _ _ f r,
  match r with Ok a => Ok (f a) | Err e => Err e | Hang => Hang end.

Definition is_ok {A} (r : result A) : bool :=
  match r with Ok _ => true | _ => false end.

(** ** Generic lemmas on lists *)

Section lists.
Context {A : Type}.

(** The number of elements satisfying a boolean test. *)
Definition count_if (f : A → bool) (l : list A) : nat :=
  length (List.filter f l).

Lemma count_if_app f (l k : list A) :
  count_if f (l ++ k) = count_if f l + count_if f k.
Proof. unfold count_if. by rewrite List.filter_app, length_app. Qed.

Lemma count_if_le f (l : list A) : count_if f l ≤ length l.
Proof. induction l as [|x l IH]; simpl; unfold count_if in *; simpl; [done|].
  destruct (f x); simpl; lia. Qed.

Lemma count_if_mono f g (l : list A) :
  (∀ x, f x = true → g x = true) → count_if f l ≤ count_if g l.
Proof.
  intros Hfg. unfold count_if. induction l as [|x l IH]; simpl; [done|].
  destruct (f x) eqn:E; [rewrite (Hfg x E); simpl; lia|]. destruct (g x); simpl; lia.
Qed.

Lemma count_if_perm f (l k : list A) : l ≡ₚ k → count_if f l = count_if f k.
Proof.
  induction 1; unfold count_if in *; simpl; try congruence;
    repeat case_match; simpl; congruence.
Qed.

End lists.

Lemma length_omap_le {A B} (f : A → option B) (l : list A) :
  (length (omap f l) ≤ length l)%nat.
Proof.
  induction l as [|x l IH]; [done|]. cbn [omap list_omap].
  change (list_omap A B f l) with (omap f l). destruct (f x); simpl; lia.
Qed.

(** ** Boolean filters *)

Section bfilter.
Context {A : Type}.
Implicit Types (l : list A) (f : A → bool).

Lemma elem_of_bfilter f l x : x ∈ List.filter f l ↔ f x = true ∧ x ∈ l.
Proof. rewrite !list_elem_of_In, List.filter_In. tauto. Qed.

Lemma bfilter_sublist f l : List.filter f l `sublist_of` l.
Proof. induction l as [|x l IH]; simpl; [done|]. destruct (f x); by constructor. Qed.

Lemma bfilter_fmap_sublist {B} (g : A → B) f l : g <$> List.filter f l `sublist_of` g <$> l.
Proof. induction l as [|x l IH]; simpl; [done|]. destruct (f x); by constructor. Qed.
Lemma bfilter_all f l : (∀ x, x ∈ l → f x = true) → List.filter f l = l.
Proof.
  induction l as [|x l IH]; simpl; intros Hf; [done|].
  rewrite Hf by left. f_equal. apply IH. intros. apply Hf. by right.
Qed.

Lemma bfilter_none f l : (∀ x, x ∈ l → f x = false) → List.filter f l = [].
Proof.
  induction l as [|x l IH]; simpl; intros Hf; [done|].
  rewrite Hf by left. apply IH. intros. apply Hf. by right.
Qed.
End bfilter.

(** ** Lists sorted by an integer key *)

Section sorted_keys.
Context {A : Type}.
Implicit Types l : list (Z * A).

Abbreviation sorted_keys l := (StronglySorted Z.lt l.*1).

Lemma sorted_keys_app l k : sorted_keys (l ++ k) ↔
  (∀ p q, p ∈ l → q ∈ k → (p.1 < q.1)%Z) ∧ sorted_keys l ∧ sorted_keys k.
Proof.
  rewrite fmap_app, StronglySorted_app. apply and_iff_compat_r. split.
  - intros Hlt p q Hp Hq. apply Hlt; by apply list_elem_of_fmap_2.
  - intros Hlt x y (p & -> & Hp)%list_elem_of_fmap (q & -> & Hq)%list_elem_of_fmap.
    by apply Hlt.
Qed.

(** The rows up to a bound are a prefix. *)
Lemma sorted_keys_split l b : sorted_keys l →
  l = List.filter (λ p, (p.1 <=? b)%Z) l ++ List.filter (λ p, negb (p.1 <=? b)%Z) l.
Proof.
  induction l as [|x l IH]; simpl; intros Hs; [done|].
  apply StronglySorted_cons in Hs as [Hx Hs].
  destruct (Z.leb_spec x.1 b) as [Hle|Hgt]; simpl; [by rewrite <- IH|].
  rewrite Forall_fmap, Forall_forall in Hx.
  assert (∀ y, y ∈ l → (y.1 <=? b)%Z = false) as Hno.
  { intros y Hy. apply Hx in Hy. simpl in Hy. apply Z.leb_gt. lia. }
  rewrite bfilter_none, (bfilter_all (λ p, negb _)); [done|..]; intros y Hy;
    by rewrite Hno.
Qed.

Lemma sorted_keys_filter l f : sorted_keys l → sorted_keys (List.filter f l).
Proof.
  induction l as [|x l IH]; simpl; intros Hs; [done|].
  apply StronglySorted_cons in Hs as [Hx Hs]. destruct (f x); simpl; [|by apply IH].
  apply StronglySorted_cons. split; [|by apply IH].
  rewrite Forall_fmap, Forall_forall in *. intros y [_ Hy]%elem_of_bfilter. by apply Hx.
Qed.
End sorted_keys.

Abbreviation sorted_keys l := (StronglySorted Z.lt l.*1).

(** ** Byte strings

    stdpp never simplifies [+:+], so its two equations are rewrite rules. *)

Lemma str_app_nil (t : string) : "" +:+ t = t.
Proof. done. Qed.
Lemma str_app_cons (a : ascii) (s t : string) :
  String a s +:+ t = String a (s +:+ t).
Proof. done. Qed.

Lemma str_app_assoc (s t u : string) : (s +:+ t) +:+ u = s +:+ (t +:+ u).
Proof. induction s as [|a s IH]; [done|]. rewrite !str_app_cons. by f_equal. Qed.

Lemma str_app_nil_r (s : string) : s +:+ "" = s.
Proof. induction s as [|a s IH]; [done|]. rewrite str_app_cons. by f_equal. Qed.

Lemma str_length_app (s t : string) :
  String.length (s +:+ t) = String.length s + String.length t.
Proof. induction s as [|a s IH]; [done|]. rewrite str_app_cons. simpl. by f_equal. Qed.

Create Rewrite HintDb str.
#[export] Hint Rewrite str_app_nil str_app_cons str_app_nil_r : str.

(** Simplify concatenations and use the equations between strings. *)
Ltac str_simpl := autorewrite with str in *; simplify_eq/=.

Create HintDb lyte discriminated.
#[export] Hint Resolve count_if_le : lyte.
