(* ===== verification/GoStd.v ===== *)
(** The parts of Go's language and standard library that the program uses:
    [int64] arithmetic, [time.Duration], [strconv] on integers and the
    [strings] functions on byte strings. *)

From S2P Require Import Prelude.
Open Scope Z_scope.

(** ** Fixed-width integers *)

Definition MaxInt64 : Z := 9223372036854775807.
Definition MinInt64 : Z := -9223372036854775808.

Definition in_int64 (n : Z) : bool := (MinInt64 <=? n) && (n <=? MaxInt64).

(** Two's complement wrap-around to [w] bits, signed and unsigned. *)
Definition wrap_signed (w : Z) (n : Z) : Z :=
  (n + 2 ^ (w - 1)) mod 2 ^ w - 2 ^ (w - 1).
Definition wrap_unsigned (w : Z) (n : Z) : Z := n mod 2 ^ w.
Definition int64 (n : Z) : Z := wrap_signed 64 n.

Lemma wrap_signed_id w n :
  0 < w → - 2 ^ (w - 1) ≤ n < 2 ^ (w - 1) → wrap_signed w n = n.
Proof.
  intros Hw Hn. unfold wrap_signed.
  assert (2 ^ w = 2 * 2 ^ (w - 1)) as Hp.
  { rewrite <- Z.pow_succ_r by lia. f_equal. lia. }
  rewrite Z.mod_small; lia.
Qed.

Lemma in_int64_spec n : in_int64 n = true ↔ MinInt64 ≤ n ≤ MaxInt64.
Proof. unfold in_int64. rewrite andb_true_iff, !Z.leb_le. done. Qed.

Lemma int64_id n : in_int64 n = true → int64 n = n.
Proof.
  rewrite in_int64_spec. intros [? ?]. apply wrap_signed_id; [lia|].
  change (2 ^ (64 - 1)) with 9223372036854775808.
  unfold MinInt64, MaxInt64 in *. lia.
Qed.

(** ** Durations *)

(** A [time.Duration] is a number of nanoseconds in an [int64]. *)
Definition Nanosecond : Z := 1.
Definition Millisecond : Z := 1000000.
Definition Second : Z := 1000000000.
Definition Minute : Z := 60 * Second.
Definition Hour : Z := 60 * Minute.

(** [Duration.Milliseconds]: integer division truncates toward zero. *)
Definition Milliseconds (d : Z) : Z := Z.quot d 1000000.

Lemma Milliseconds_pos d : 0 < Milliseconds d → 0 < d.
Proof.
  unfold Milliseconds. intros H. destruct (decide (0 < d)) as [|Hn]; [done|].
  assert (0 ≤ Z.quot (- d) 1000000) by (apply Z.quot_pos; lia).
  rewrite Z.quot_opp_l in *; lia.
Qed.

Lemma Milliseconds_nonpos d : d ≤ 0 → Milliseconds d ≤ 0.
Proof.
  intros Hd. destruct (decide (0 < Milliseconds d)) as [H|]; [|lia].
  apply Milliseconds_pos in H. lia.
Qed.

(** ** [strconv] on integers *)

(** [strconv.FormatInt(n, 10)]. *)
Definition FormatInt (n : Z) : string := pretty n.

Definition digit_val (a : ascii) : option Z :=
  let n := Z.of_N (N_of_ascii a) in
  if (48 <=? n) && (n <=? 57) then Some (n - 48) else None.

Fixpoint parse_digits (acc : Z) (s : string) : option Z :=
  match s with
  | EmptyString => Some acc
  | String a s => d ← digit_val a; parse_digits (10 * acc + d) s
  end.

Definition parse_nat (s : string) : option Z :=
  match s with EmptyString => None | _ => parse_digits 0 s end.

(** The integer denoted by an optional sign and digits, at any size. *)
Definition parse_decimal (s : string) : option Z :=
  match s with
  | String a t =>
      if bool_decide (a = "-"%char) then Z.opp <$> parse_nat t
      else if bool_decide (a = "+"%char) then parse_nat t
      else parse_nat s
  | EmptyString => None
  end.

(** [strconv.ParseInt(s, 10, 64)], [None] for a syntax or range error. *)
Definition ParseInt (s : string) : option Z :=
  n ← parse_decimal s; if in_int64 n then Some n else None.

Lemma digit_val_pretty x :
  (x < 10)%N → digit_val (pretty_N_char x) = Some (Z.of_N x).
Proof.
  intros Hx.
  assert (x = 0 ∨ x = 1 ∨ x = 2 ∨ x = 3 ∨ x = 4 ∨ x = 5 ∨ x = 6 ∨ x = 7
          ∨ x = 8 ∨ x = 9)%N as Hc by lia.
  by destruct_or! Hc; subst.
Qed.

Lemma parse_digits_pretty_go (x : N) s acc :
  0 ≤ acc →
  ∃ k, 0 ≤ k ∧ parse_digits acc (pretty_N_go x s)
       = parse_digits (acc * 10 ^ k + Z.of_N x) s.
Proof.
  revert s acc. induction (N.lt_wf_0 x) as [x _ IH]; intros s acc Hacc.
  destruct (decide (x = 0)%N) as [->|Hx].
  { exists 0. split; [lia|]. simpl. f_equal. lia. }
  rewrite pretty_N_go_step by lia.
  destruct (IH (x `div` 10)%N ltac:(apply N.div_lt; lia)
              (String (pretty_N_char (x `mod` 10)) s) acc Hacc) as (k & Hk & ->).
  exists (Z.succ k). split; [lia|]. simpl.
  rewrite digit_val_pretty by (apply N.mod_lt; lia). simpl. f_equal.
  rewrite Z.pow_succ_r by done.
  pose proof (N.div_mod x 10 ltac:(lia)) as Hdm.
  assert (Z.of_N x = 10 * Z.of_N (x / 10) + Z.of_N (x mod 10)) as -> by lia.
  lia.
Qed.

Lemma parse_nat_pretty (x : N) : parse_nat (pretty x) = Some (Z.of_N x).
Proof.
  unfold pretty, pretty_N. case_decide as Hx; [by subst|].
  destruct (parse_digits_pretty_go x "" 0 ltac:(lia)) as (k & _ & He).
  unfold parse_nat. destruct (pretty_N_go x "") eqn:E.
  - exfalso. simpl in He. injection He as He. lia.
  - rewrite He. simpl. done.
Qed.

(** The first character of the digits is never a sign. *)
Lemma pretty_N_not_sign (x : N) a s :
  pretty x = String a s → a ≠ "-"%char ∧ a ≠ "+"%char.
Proof.
  intros E. pose proof (parse_nat_pretty x) as H. rewrite E in H. simpl in H.
  split; intros ->; simpl in H; discriminate.
Qed.

Lemma parse_decimal_FormatInt n : parse_decimal (FormatInt n) = Some n.
Proof.
  unfold FormatInt, pretty, pretty_Z. destruct n as [|p|p]; simpl; [done| |].
  - change (pretty p) with (pretty (Npos p)).
    destruct (pretty (N.pos p)) as [|a s] eqn:E.
    { pose proof (parse_nat_pretty (N.pos p)) as H. by rewrite E in H. }
    destruct (pretty_N_not_sign _ _ _ E).
    unfold parse_decimal. rewrite !bool_decide_false by done.
    rewrite <- E. apply (parse_nat_pretty (N.pos p)).
  - change (Z.opp <$> parse_nat (pretty (N.pos p)) = Some (Z.neg p)).
    by rewrite parse_nat_pretty.
Qed.

Lemma ParseInt_FormatInt n : in_int64 n = true → ParseInt (FormatInt n) = Some n.
Proof. intros H. unfold ParseInt. rewrite parse_decimal_FormatInt. simpl. by rewrite H. Qed.

Lemma ParseInt_range s n : ParseInt s = Some n → in_int64 n = true.
Proof. unfold ParseInt. intros H. destruct (parse_decimal s); simpl in H; [|done].
  by repeat case_match; simplify_eq. Qed.

(** ** [strings] on byte strings *)

(** [strings.HasPrefix]. *)
Fixpoint HasPrefix (s p : string) : bool :=
  match p, s with
  | EmptyString, _ => true
  | String a p, String b s => bool_decide (a = b) && HasPrefix s p
  | String _ _, EmptyString => false
  end.

(** The string without its first [n] bytes, [s[n:]]. *)
Fixpoint drop_str (n : nat) (s : string) : string :=
  match n, s with
  | S n, String _ s => drop_str n s
  | _, _ => s
  end.

(** The first [n] bytes, [s[:n]]. *)
Fixpoint take_str (n : nat) (s : string) : string :=
  match n, s with
  | S n, String a s => String a (take_str n s)
  | _, _ => EmptyString
  end.

(** [strings.CutPrefix] and [strings.TrimPrefix]. *)
Definition CutPrefix (s p : string) : option string :=
  if HasPrefix s p then Some (drop_str (String.length p) s) else None.
Definition TrimPrefix (s p : string) : string := default s (CutPrefix s p).

(** [strings.CutSuffix] for a one-character suffix. *)
Fixpoint cut_last (s : string) (a : ascii) : option string :=
  match s with
  | EmptyString => None
  | String b EmptyString => if bool_decide (a = b) then Some EmptyString else None
  | String b s => String b <$> cut_last s a
  end.

(** [strings.Cut] at the first occurrence of a one-character separator. *)
Fixpoint Cut (s : string) (a : ascii) : option (string * string) :=
  match s with
  | EmptyString => None
  | String b s =>
      if bool_decide (a = b) then Some (EmptyString, s)
      else '(x, y) ← Cut s a; Some (String b x, y)
  end.

(** [strings.Contains] for a one-character substring. *)
Fixpoint ContainsChar (s : string) (a : ascii) : bool :=
  match s with
  | EmptyString => false
  | String b s => bool_decide (a = b) || ContainsChar s a
  end.

Lemma HasPrefix_spec s p : HasPrefix s p = true ↔ ∃ t, s = p +:+ t.
Proof.
  revert s. induction p as [|a p IH]; intros s; simpl.
  { split; [by exists s|]. by destruct s. }
  destruct s as [|b s].
  { split; [done|]. intros [t H]. by str_simpl. }
  simpl.
  rewrite andb_true_iff, bool_decide_eq_true, IH. split.
  - intros [-> [t ->]]. by exists t.
  - intros [t H]. str_simpl. split; [done|]. by exists t.
Qed.

Lemma drop_str_app p t : drop_str (String.length p) (p +:+ t) = t.
Proof. induction p as [|a p IH]; [by destruct t|]. apply IH. Qed.

Lemma CutPrefix_app p t : CutPrefix (p +:+ t) p = Some t.
Proof.
  unfold CutPrefix. rewrite (proj2 (HasPrefix_spec _ _)) by (by exists t).
  by rewrite drop_str_app.
Qed.

Lemma CutPrefix_Some s p t : CutPrefix s p = Some t → s = p +:+ t.
Proof.
  unfold CutPrefix. destruct (HasPrefix s p) eqn:E; [|done].
  apply HasPrefix_spec in E as [u ->]. rewrite drop_str_app. congruence.
Qed.

Lemma Cut_Some s a x y : Cut s a = Some (x, y) → s = x +:+ String a y.
Proof.
  revert x. induction s as [|b s IH]; intros x; simpl; [done|]. case_bool_decide as Hb; [by intros [= <- ->]; subst|].
  destruct (Cut s a) as [[x' y']|]; [|done]. intros [= <- ->]. by rewrite str_app_cons, (IH x').
Qed.

Lemma ContainsChar_app (s t : string) (a : ascii) :
  ContainsChar (s +:+ t) a = ContainsChar s a || ContainsChar t a.
Proof. induction s as [|b s IH]; [done|]. rewrite str_app_cons. simpl. by rewrite IH, orb_assoc. Qed.
Lemma Cut_app s t a : ContainsChar s a = false → Cut (s +:+ String a t) a = Some (s, t).
Proof.
  induction s as [|b s IH]; simpl.
  - by rewrite bool_decide_true.
  - rewrite orb_false_iff, bool_decide_eq_false. intros [Hne H].
    by rewrite bool_decide_false, (IH H).
Qed.

Lemma cut_last_app t a : cut_last (t +:+ String a "") a = Some t.
Proof.
  induction t as [|b t IH]; simpl.
  - by rewrite bool_decide_true.
  - destruct (t +:+ String a "") eqn:E.
    { destruct t; by str_simpl. }
    simpl in *. by rewrite IH.
Qed.

Lemma cut_last_Some s a t : cut_last s a = Some t ↔ s = t +:+ String a "".
Proof.
  split; [|intros ->; apply cut_last_app].
  revert t. induction s as [|b s IH]; intros t; simpl; [done|].
  destruct s as [|c s].
  - case_bool_decide; intros; by simplify_eq.
  - intros (u & Hu & ->)%fmap_Some. apply IH in Hu. by rewrite Hu.
Qed.

Lemma cut_last_None s a : cut_last s a = None ↔ ∀ t, s ≠ t +:+ String a "".
Proof.
  rewrite eq_None_not_Some. split.
  - intros H t Ht. apply H. exists t. by apply cut_last_Some.
  - intros H [t Ht]. apply (H t). by apply cut_last_Some.
Qed.

(** ** String order and sorting

    Go compares strings byte by byte, as SQLite does under BINARY collation. *)

Definition str_le (a b : string) : Prop := String.leb a b = true.
#[global] Instance str_le_dec : RelDecision str_le.
Proof. intros a b. unfold str_le. apply _. Defined.

Lemma str_le_cons a b s t :
  str_le (String a s) (String b t) ↔
  (N_of_ascii a < N_of_ascii b)%N ∨ a = b ∧ str_le s t.
Proof.
  unfold str_le, String.leb. simpl. unfold Ascii.compare.
  destruct (N.compare_spec (N_of_ascii a) (N_of_ascii b)) as [He|Hl|Hg].
  - assert (a = b) as ->
      by (rewrite <- (ascii_N_embedding a), <- (ascii_N_embedding b); congruence).
    split; [by right|]. intros [?|[]]; [lia|done].
  - split; [by left|done].
  - split; [done|]. intros [?|[-> _]]; lia.
Qed.

#[global] Instance str_le_total : Total str_le.
Proof. intros a b. apply String.leb_total. Qed.
#[global] Instance str_le_refl : Reflexive str_le.
Proof. intros a. by destruct (total str_le a a). Qed.
#[global] Instance str_le_antisymm : AntiSymm (=) str_le.
Proof. intros a b. apply String.leb_antisym. Qed.
#[global] Instance str_le_trans : Transitive str_le.
Proof.
  intros a. induction a as [|x a IH]; intros [|y b] [|z c]; try done.
  rewrite !str_le_cons. intros [?|[-> ?]] [?|[-> ?]]; [left; lia|by left|by left|].
  right. split; [done|by eapply IH].
Qed.

(** [sort.Strings]. *)
Definition sort_strings : list string → list string := merge_sort str_le.

(** [sort.Slice] with a comparison on a key of the elements. *)
Definition by_key {A K} (R : relation K) (f : A → K) : relation A := λ x y, R (f x) (f y).
#[global] Instance by_key_dec {A K} (R : relation K) `{!RelDecision R} (f : A → K) :
  RelDecision (by_key R f).
Proof. intros x y. unfold by_key. apply _. Defined.
#[global] Instance by_key_total {A K} (R : relation K) `{!Total R} (f : A → K) : Total (by_key R f).
Proof. intros x y. unfold by_key. apply (total R). Qed.
#[global] Instance by_key_trans {A K} (R : relation K) `{!Transitive R} (f : A → K) :
  Transitive (by_key R f).
Proof. intros x y z. unfold by_key. etrans; eauto. Qed.

#[global] Instance Zle_total : Total Z.le.
Proof. intros a b. lia. Qed.

(** ** Trimming

    The white space of [strings.TrimSpace] and [bytes.TrimSpace] among the
    ASCII characters. *)

Definition is_space (a : ascii) : bool :=
  let n := N_of_ascii a in ((9 <=? n) && (n <=? 13) || (n =? 32))%N.

Fixpoint trim_left (p : ascii → bool) (s : string) : string :=
  match s with
  | EmptyString => EmptyString
  | String a t => if p a then trim_left p t else s
  end.

Fixpoint trim_right (p : ascii → bool) (s : string) : string :=
  match s with
  | EmptyString => EmptyString
  | String a s =>
      match trim_right p s with
      | EmptyString => if p a then EmptyString else String a EmptyString
      | t => String a t
      end
  end.

Definition TrimSpace (s : string) : string := trim_right is_space (trim_left is_space s).

(** [strings.TrimRight(s, "\n")]. *)
Definition newline : ascii := "010"%char.
Definition TrimRightNewline : string → string := trim_right (λ a, bool_decide (a = newline)).

(** [strings.ContainsAny]. *)
Definition ContainsAny (s chars : string) : bool :=
  existsb (ContainsChar chars) (String.list_ascii_of_string s).

Lemma trim_left_none p s : forallb (λ a, negb (p a)) (String.list_ascii_of_string s) = true → trim_left p s = s.
Proof.
  destruct s as [|a s]; simpl; [done|]. intros H. bool_to_prop.
  match goal with H : p a = false |- _ => by rewrite H end.
Qed.

Lemma trim_right_none p s : forallb (λ a, negb (p a)) (String.list_ascii_of_string s) = true → trim_right p s = s.
Proof.
  induction s as [|a s IH]; simpl; [done|]. intros H. bool_to_prop. rewrite IH by done.
  destruct s; [|done]. match goal with H : p a = false |- _ => by rewrite H end.
Qed.

Lemma trim_right_app p s a : p a = true → trim_right p (s +:+ String a "") = trim_right p s.
Proof.
  intros Ha. induction s as [|b s IH].
  - rewrite str_app_nil. simpl. by rewrite Ha.
  - rewrite str_app_cons. simpl. by rewrite IH.
Qed.
