(* ===== verification/Values.v ===== *)
(** Encoding of Go values for storage and decoding into Go destinations:
    [lytecache-go/serialize.go] and the type codes of [schema.go].

    Floating-point numbers and [encoding/json] are not defined here: the class
    [GoLib] holds the functions of [strconv], [math] and [encoding/json] that the
    code calls, with the documented facts the proofs use. *)

From S2P Require Import Prelude GoStd.
Open Scope Z_scope.

(** ** Type codes (schema.go) *)

Definition typeBytes : Z := 0.
Definition typeString : Z := 1.
Definition typeInt : Z := 2.
Definition typeFloat : Z := 3.
Definition typeJSON : Z := 4.

(** ** Go values and destinations *)

Inductive int_kind := KInt | KInt8 | KInt16 | KInt32 | KInt64.
Inductive uint_kind := KUint | KUint8 | KUint16 | KUint32 | KUint64.

#[global] Instance int_kind_eq_dec : EqDecision int_kind.
Proof. solve_decision. Defined.
#[global] Instance uint_kind_eq_dec : EqDecision uint_kind.
Proof. solve_decision. Defined.

(** [int] and [uint] are 64 bits wide on every platform the library ships for. *)
Definition int_bits (k : int_kind) : Z :=
  match k with KInt => 64 | KInt8 => 8 | KInt16 => 16 | KInt32 => 32 | KInt64 => 64 end.
Definition uint_bits (k : uint_kind) : Z :=
  match k with KUint => 64 | KUint8 => 8 | KUint16 => 16 | KUint32 => 32 | KUint64 => 64 end.

(** [reflect.Value.OverflowInt] and [OverflowUint], negated. *)
Definition fits_int (k : int_kind) (n : Z) : bool :=
  (- 2 ^ (int_bits k - 1) <=? n) && (n <? 2 ^ (int_bits k - 1)).
Definition fits_uint (k : uint_kind) (n : Z) : bool :=
  (0 <=? n) && (n <? 2 ^ uint_bits k).

(** A Go value of type [any] as the type switch of [encodeValue] sees it.
    [GOther] is every other dynamic type: [bool], maps, structs, [nil], ... *)
Inductive any_of (F J : Type) :=
  | GBytes (b : string)
  | GString (s : string)
  | GInt (k : int_kind) (n : Z)
  | GUint (k : uint_kind) (n : Z)
  | GFloat32 (f : F)
  | GFloat64 (f : F)
  | GOther (v : J).
Arguments GBytes {_ _} _.
Arguments GString {_ _} _.
Arguments GInt {_ _} _ _.
Arguments GUint {_ _} _ _.
Arguments GFloat32 {_ _} _.
Arguments GFloat64 {_ _} _.
Arguments GOther {_ _} _.

#[global] Instance any_of_eq_dec `{EqDecision F} `{EqDecision J} : EqDecision (any_of F J).
Proof. solve_decision. Defined.

(** A destination argument: what kind of pointer [dest] is. [DOther] is a
    non-nil pointer to any other type, [DInvalid] a non-pointer or nil. *)
Inductive dest_of (T : Type) :=
  | DBytes | DString | DAny
  | DInt (k : int_kind) | DUint (k : uint_kind)
  | DFloat32 | DFloat64
  | DOther (t : T)
  | DInvalid.
Arguments DBytes {_}.
Arguments DString {_}.
Arguments DAny {_}.
Arguments DInt {_} _.
Arguments DUint {_} _.
Arguments DFloat32 {_}.
Arguments DFloat64 {_}.
Arguments DOther {_} _.
Arguments DInvalid {_}.

(** [strings.ToLower] on ASCII letters. *)
Definition lower_char (a : ascii) : ascii :=
  let n := N_of_ascii a in
  if ((65 <=? n) && (n <=? 90))%N then ascii_of_N (n + 32) else a.
Fixpoint ToLower (s : string) : string :=
  match s with EmptyString => EmptyString | String a s => String (lower_char a) (ToLower s) end.

(** The spellings of non-finite floats that the stored text may have. *)
Definition special_float (s : string) : bool :=
  bool_decide (ToLower s ∈ ["nan"; "inf"; "infinity"; "-inf"; "-infinity"]).

(** Functions of the Go standard library on floats and JSON, with the laws
    its documentation states. [to_float32] is the conversion made by
    [reflect.Value.SetFloat] on a [*float32]. *)
Class GoLib := {
  float : Type;
  jval : Type;                                   (* dynamic values of other types *)
  jtype : Type;                                  (* their types *)
  NaN : float;
  Inf : Z → float;
  IsNaN : float → bool;
  IsInf : float → bool;
  FormatFloat : float → string;                  (* 'g', -1, 64 *)
  ParseFloat : string → option float;
  float_of_int64 : Z → float;
  to_float32 : float → float;
  Marshal : jval → option string;                (* json.Marshal *)
  Unmarshal : string → dest_of jtype → option (any_of float jval);
  Sscan : string → option Z;                     (* fmt.Sscan into an int64 *)
  ParseFloat_FormatFloat f :
    IsNaN f = false → IsInf f = false → ParseFloat (FormatFloat f) = Some f;
  FormatFloat_not_special f :
    IsNaN f = false → IsInf f = false → special_float (FormatFloat f) = false;
  to_float32_idemp f : to_float32 (to_float32 f) = to_float32 f;
  Sscan_FormatInt n : in_int64 n = true → Sscan (FormatInt n) = Some n
}.

Section values.
Context {GL : GoLib}.

Abbreviation any := (any_of float jval).
Abbreviation dest := (dest_of jtype).

Definition encodeIntBytes (v : Z) : string := FormatInt v.

Definition encodeUintBytes (v : Z) : result (string * Z) :=
  if MaxInt64 <? v then Err ErrSerialization
  else Ok (encodeIntBytes v, typeInt).

Definition encodeFloatBytes (v : float) : result (string * Z) :=
  if IsNaN v || IsInf v then Err ErrSerialization
  else Ok (FormatFloat v, typeFloat).

Definition encodeValue (value : any) : result (string * Z) :=
  match value with
  | GBytes v => Ok (v, typeBytes)
  | GString v => Ok (v, typeString)
  | GInt _ v => Ok (encodeIntBytes v, typeInt)
  | GUint KUint v => encodeUintBytes v
  | GUint KUint64 v => encodeUintBytes v
  | GUint _ v => Ok (encodeIntBytes v, typeInt)
  | GFloat32 v => encodeFloatBytes v
  | GFloat64 v => encodeFloatBytes v
  | GOther v =>
      match Marshal v with
      | None => Err ErrSerialization
      | Some buf => Ok (buf, typeJSON)
      end
  end.

Definition decodeFloatText (s : string) : result float :=
  let l := ToLower s in
  if bool_decide (l = "nan") then Ok NaN
  else if bool_decide (l = "inf") || bool_decide (l = "infinity") then Ok (Inf 1)
  else if bool_decide (l = "-inf") || bool_decide (l = "-infinity") then Ok (Inf (-1))
  else match ParseFloat s with
       | None => Err ErrSerialization
       | Some v => Ok v
       end.

(** The [assign] functions return the value stored through the pointer. *)
Definition assignBytes (d : dest) (data : string) : result any :=
  match d with
  | DBytes => Ok (GBytes data)
  | DString => Ok (GString data)
  | DAny => Ok (GBytes data)
  | _ => Err ErrSerialization
  end.

Definition assignString (d : dest) (s : string) : result any :=
  match d with
  | DString => Ok (GString s)
  | DBytes => Ok (GBytes s)
  | DAny => Ok (GString s)
  | _ => Err ErrSerialization
  end.

Definition assignInt64 (d : dest) (n : Z) : result any :=
  match d with
  | DInvalid => Err ErrSerialization
  | DInt k => if negb (fits_int k n) then Err ErrSerialization else Ok (GInt k n)
  | DUint k =>
      if (n <? 0) || negb (fits_uint k (wrap_unsigned 64 n)) then Err ErrSerialization
      else Ok (GUint k (wrap_unsigned 64 n))
  | DFloat32 => Ok (GFloat32 (to_float32 (float_of_int64 n)))
  | DFloat64 => Ok (GFloat64 (float_of_int64 n))
  | DAny => Ok (GInt KInt64 n)
  | _ => Err ErrSerialization
  end.

Definition assignFloat64 (d : dest) (f : float) : result any :=
  match d with
  | DFloat32 => Ok (GFloat32 (to_float32 f))
  | DFloat64 => Ok (GFloat64 f)
  | DAny => Ok (GFloat64 f)
  | _ => Err ErrSerialization
  end.

Definition decodeInto (data : string) (typeCode : Z) (d : dest) : result any :=
  if typeCode =? typeBytes then assignBytes d data
  else if typeCode =? typeString then assignString d data
  else if typeCode =? typeInt then
    match ParseInt data with
    | None => Err ErrSerialization
    | Some n => assignInt64 d n
    end
  else if typeCode =? typeFloat then
    f ← decodeFloatText data; assignFloat64 d f
  else if typeCode =? typeJSON then
    match Unmarshal data d with
    | None => Err ErrSerialization
    | Some v => Ok v
    end
  else Err ErrSerialization.   (* 5: pickle, 6: Java, anything else: unknown *)

(** ** Properties *)

(** A value whose number fits its Go type. A [float32] holds a rounded float. *)
Definition any_wf (v : any) : bool :=
  match v with
  | GInt k n => fits_int k n
  | GUint k n => fits_uint k n
  | _ => true
  end.
Definition float32_wf (v : any) : Prop :=
  match v with GFloat32 f => to_float32 f = f | _ => True end.

(** The destination of the value's own type. *)
Definition own_dest (v : any) : option dest :=
  match v with
  | GBytes _ => Some DBytes
  | GString _ => Some DString
  | GInt k _ => Some (DInt k)
  | GUint k _ => Some (DUint k)
  | GFloat32 _ => Some DFloat32
  | GFloat64 _ => Some DFloat64
  | GOther _ => None
  end.

Lemma fits_int_int64 k n : fits_int k n = true → in_int64 n = true.
Proof.
  unfold fits_int. rewrite in_int64_spec. unfold MinInt64, MaxInt64.
  destruct k; simpl; intros; bool_to_prop; lia.
Qed.

Lemma fits_uint_int64 k n :
  fits_uint k n = true → n ≤ MaxInt64 → in_int64 n = true ∧ wrap_unsigned 64 n = n.
Proof.
  unfold fits_uint, wrap_unsigned. rewrite in_int64_spec. unfold MinInt64, MaxInt64.
  intros ? ?. bool_to_prop. split; [lia|]. apply Z.mod_small. lia.
Qed.

Lemma fits_uint_small k n :
  fits_uint k n = true → k ≠ KUint → k ≠ KUint64 → n ≤ MaxInt64.
Proof.
  unfold fits_uint, MaxInt64. destruct k; simpl; intros; bool_to_prop; try done; lia.
Qed.

Lemma decodeFloatText_FormatFloat f :
  IsNaN f = false → IsInf f = false → decodeFloatText (FormatFloat f) = Ok f.
Proof.
  intros Hn Hi. pose proof (FormatFloat_not_special f Hn Hi) as Hs.
  unfold special_float in Hs. bool_to_prop.
  unfold decodeFloatText. rewrite ParseFloat_FormatFloat by done.
  rewrite !not_elem_of_cons in Hs. destruct Hs as (? & ? & ? & ? & ? & _).
  by rewrite !bool_decide_false by done.
Qed.

Lemma decode_int k n :
  fits_int k n = true → decodeInto (FormatInt n) typeInt (DInt k) = Ok (GInt k n).
Proof.
  intros Hf. unfold decodeInto; simpl.
  rewrite ParseInt_FormatInt by (by eapply fits_int_int64). simpl. by rewrite Hf.
Qed.

Lemma decode_uint k n :
  fits_uint k n = true → n ≤ MaxInt64 →
  decodeInto (FormatInt n) typeInt (DUint k) = Ok (GUint k n).
Proof.
  intros Hf Hm. destruct (fits_uint_int64 _ _ Hf Hm) as [Hi Hw].
  unfold decodeInto; simpl. rewrite ParseInt_FormatInt by done. simpl.
  rewrite Hw, Hf. unfold fits_uint in Hf. bool_to_prop.
  rewrite (proj2 (Z.ltb_ge _ _)) by lia. done.
Qed.

Lemma encodeUintBytes_Ok n p :
  encodeUintBytes n = Ok p → p = (FormatInt n, typeInt) ∧ n ≤ MaxInt64.
Proof. unfold encodeUintBytes. case_match; intros; bool_to_prop; by simplify_eq. Qed.

Lemma encodeFloatBytes_Ok f p :
  encodeFloatBytes f = Ok p →
  p = (FormatFloat f, typeFloat) ∧ IsNaN f = false ∧ IsInf f = false.
Proof.
  unfold encodeFloatBytes. case_match; intros; bool_to_prop; by simplify_eq.
Qed.

Lemma encodeValue_code v data tc :
  encodeValue v = Ok (data, tc) → 0 ≤ tc ≤ 4.
Proof.
  unfold encodeValue, typeBytes, typeString, typeInt, typeJSON.
  intros H. repeat case_match; simplify_eq; try lia;
    first [apply encodeUintBytes_Ok in H as [? _]
          |apply encodeFloatBytes_Ok in H as [? _]]; simplify_eq;
    unfold typeInt, typeFloat; lia.
Qed.
End values.

Abbreviation any := (any_of float jval).
Abbreviation dest := (dest_of jtype).
#[export] Hint Resolve fits_int_int64 encodeValue_code : lyte.


(** An instance for concrete runs: integral floats written as [f42], JSON
    values that are their own text. *)
Definition toy_ParseFloat (s : string) : option Z :=
  match s with String "f" t => parse_decimal t | _ => None end.

Lemma toy_float_law f :
  false = false → false = false → toy_ParseFloat (String "f" (FormatInt f)) = Some f.
Proof. intros _ _. apply parse_decimal_FormatInt. Qed.
Lemma toy_special_law f :
  false = false → false = false → special_float (String "f" (FormatInt f)) = false.
Proof. intros _ _. apply bool_decide_false. simpl. set_solver. Qed.
Lemma toy_float32_law (f : Z) : id (id f) = id f.
Proof. done. Qed.

Definition toy_lib : GoLib :=
  {| float := Z; jval := string; jtype := (); NaN := 0; Inf := id;
     IsNaN := λ _, false; IsInf := λ _, false;
     FormatFloat := λ f, String "f" (FormatInt f);
     ParseFloat := toy_ParseFloat;
     float_of_int64 := id; to_float32 := id;
     Marshal := Some;
     Unmarshal := λ s d, match d with DAny => Some (GOther s) | _ => None end;
     Sscan := ParseInt;
     ParseFloat_FormatFloat := toy_float_law;
     FormatFloat_not_special := toy_special_law;
     to_float32_idemp := toy_float32_law;
     Sscan_FormatInt := ParseInt_FormatInt |}.

(** C19: every native Go value read back through a destination of its own
    type is the value that was written. *)
Theorem native_roundtrip `{GoLib} (v : any) (d : dest) (data : string) (tc : Z) :
  any_wf v = true → float32_wf v → own_dest v = Some d →
  encodeValue v = Ok (data, tc) → decodeInto data tc d = Ok v.
Proof.
  intros Hwf H32 Hd Henc. destruct v as [b|s|k n|k n|f|f|j]; simplify_eq/=; try done.
  - by apply decode_int.
  - assert (n ≤ MaxInt64 ∧ (data, tc) = (FormatInt n, typeInt)) as [Hm Hp].
    { destruct k; simplify_eq/=; try (by split; [eapply fits_uint_small|]);
        by apply encodeUintBytes_Ok in Henc as []. }
    injection Hp as -> ->. by apply decode_uint.
  - apply encodeFloatBytes_Ok in Henc as (? & ? & ?). simplify_eq.
    unfold decodeInto; simpl. rewrite decodeFloatText_FormatFloat by done. simpl.
    by rewrite H32.
  - apply encodeFloatBytes_Ok in Henc as (? & ? & ?). simplify_eq.
    unfold decodeInto; simpl. by rewrite decodeFloatText_FormatFloat.
Qed.

Lemma native_roundtrip_witness :
  let _ := toy_lib in
  decodeInto "18446744073709551" typeInt (DUint KUint64)
  = Ok (GUint KUint64 18446744073709551).
Proof.
  intros lib.
  apply (@native_roundtrip toy_lib (GUint KUint64 18446744073709551)); vm_compute; reflexivity.
Defined.

(** An integer read into a destination of a fixed width is exact or an
    error, never wrapped: the destination holds the stored number and it fits. *)
Theorem decode_int_exact `{GoLib} (data : string) (k : int_kind + uint_kind) (v : any) :
  decodeInto data typeInt (match k with inl k => DInt k | inr k => DUint k end) = Ok v →
  ∃ n, ParseInt data = Some n ∧
       match k with
       | inl k => v = GInt k n ∧ fits_int k n = true
       | inr k => v = GUint k n ∧ fits_uint k n = true
       end.
Proof.
  unfold decodeInto; simpl. destruct (ParseInt data) as [n|] eqn:E; [|done].
  apply ParseInt_range, in_int64_spec in E as Hr. unfold MinInt64, MaxInt64 in Hr.
  intros Hd. exists n. split; [done|]. destruct k as [k|k]; simpl in Hd.
  - destruct (fits_int k n) eqn:Hf; simplify_eq/=. done.
  - destruct (n <? 0) eqn:Hn; simpl in Hd; [done|]. bool_to_prop.
    assert (wrap_unsigned 64 n = n) as Hw by (apply Z.mod_small; lia).
    rewrite Hw in Hd. destruct (fits_uint k n) eqn:Hf; simplify_eq/=. done.
Qed.

Lemma decode_int_exact_witness :
  let _ := toy_lib in
  decodeInto "-128" typeInt (DInt KInt8) = Ok (GInt KInt8 (-128)) ∧
  ∃ n, ParseInt "-128" = Some n ∧ GInt KInt8 (-128) = GInt (F:=Z) (J:=string) KInt8 n ∧
       fits_int KInt8 n = true.
Proof.
  intros lib. split; [vm_compute; reflexivity|].
  apply (@decode_int_exact toy_lib "-128" (inl KInt8) (GInt KInt8 (-128))). vm_compute. reflexivity.
Defined.
