(* ===== verification/Store.v ===== *)
(** The database file: the tables of [lytecache-go/schema.go] and of
    [eventsDDL] in [events.go], and the forms of SQL statement the library
    executes, as functions on the tables.

    A statement returns what the driver reports (a row, the number of rows
    affected) and the table after it. SQLite executes one statement, and one
    transaction, atomically. *)

From S2P Require Import Prelude GoStd.
Open Scope Z_scope.

(** ** Tables *)

(** A row of [cache] without its primary key [(namespace, key)]. *)
Record row := Row {
  value : string;
  value_type : Z;
  created_at : Z;
  expires_at : option Z;
  last_accessed : Z;
  access_count : Z;
  size_bytes : Z
}.

#[global] Instance row_eq_dec : EqDecision row.
Proof. solve_decision. Defined.

(** The cache table, by primary key. *)
Abbreviation cache_table := (gmap (string * string) row).

(** A row of [events] without its primary key [seq]. A SQL [NULL] payload is
    [None]. *)
Record event_row := EventRow {
  ev_channel : string;
  ev_namespace : string;
  ev_payload : option string;
  ev_value_type : Z;
  ev_created_at : Z
}.

#[global] Instance event_row_eq_dec : EqDecision event_row.
Proof. solve_decision. Defined.

(** The events table: its rows in the order of the integer primary key [seq],
    and the [sqlite_sequence] entry that AUTOINCREMENT keeps for it (no entry
    before the first insert). *)
Record event_table := EventTable {
  et_rows : list (Z * event_row);
  et_seq : option Z
}.

#[global] Instance event_table_eq_dec : EqDecision event_table.
Proof. solve_decision. Defined.

(** The file. The events table is created lazily. *)
Record Database := Db {
  db_cache : cache_table;
  db_meta : gmap string string;
  db_events : option event_table
}.

Definition set_cache (t : cache_table) (d : Database) : Database :=
  Db t (db_meta d) (db_events d).
Definition set_meta (m : gmap string string) (d : Database) : Database :=
  Db (db_cache d) m (db_events d).
Definition set_events (e : option event_table) (d : Database) : Database :=
  Db (db_cache d) (db_meta d) e.

(** ** Expiry predicates of the SQL text *)

(** [expires_at IS NOT NULL AND expires_at <= now] *)
Definition expired (now : Z) (r : row) : bool :=
  match expires_at r with Some e => e <=? now | None => false end.
(** [expires_at IS NULL OR expires_at > now] *)
Definition live (now : Z) (r : row) : bool :=
  match expires_at r with Some e => now <? e | None => true end.

Lemma live_expired now r : live now r = negb (expired now r).
Proof. unfold live, expired. destruct (expires_at r); [|done]. by rewrite Z.leb_antisym, negb_involutive. Qed.

Lemma expired_mono now now' r : now ≤ now' → expired now r = true → expired now' r = true.
Proof. unfold expired. destruct (expires_at r); intros; bool_to_prop; [|done]. apply Z.leb_le. lia. Qed.

Lemma live_anti now now' r : now ≤ now' → live now' r = true → live now r = true.
Proof.
  rewrite !live_expired, !negb_true_iff. intros Hle Hl.
  destruct (expired now r) eqn:E; [|done]. by rewrite (expired_mono _ _ _ Hle E) in Hl.
Qed.

(** ** Statement forms on the cache table *)

(** [INSERT ... ON CONFLICT(namespace, key) DO UPDATE SET ... WHERE ...]:
    [conflict] is the update of an existing row, [None] where its [WHERE]
    clause fails. The first component is the number of rows affected. *)
Definition upsert (k : string * string) (new : row) (conflict : row → option row)
    (t : cache_table) : Z * cache_table :=
  match t !! k with
  | None => (1, <[k := new]> t)
  | Some r =>
      match conflict r with
      | Some r' => (1, <[k := r']> t)
      | None => (0, t)
      end
  end.

(** [UPDATE ... WHERE namespace = ? AND key = ? AND cond]. *)
Definition update_at (k : string * string) (cond : row → bool) (f : row → row)
    (t : cache_table) : Z * cache_table :=
  match t !! k with
  | Some r => if cond r then (1, <[k := f r]> t) else (0, t)
  | None => (0, t)
  end.

(** [DELETE FROM cache WHERE cond]. *)
Definition delete_where (cond : string * string → row → bool)
    (t : cache_table) : Z * cache_table :=
  (Z.of_nat (size (filter (λ p, cond p.1 p.2 = true) t)),
   filter (λ p, cond p.1 p.2 = false) t).

(** The rows of one namespace, as pairs of key and row. *)
Definition ns_rows (ns : string) (t : cache_table) : list (string * row) :=
  omap (λ p : (string * string) * row,
          if bool_decide (p.1.1 = ns) then Some (p.1.2, p.2) else None)
       (map_to_list t).

(** [SELECT COUNT] over the rows and [SUM(size_bytes)], which is NULL over no row. *)
Definition sum_sizes (l : list (string * row)) : Z :=
  foldr (λ p a, size_bytes p.2 + a) 0 l.
Definition count_sum (ns : string) (t : cache_table) : Z * option Z :=
  let l := ns_rows ns t in
  (Z.of_nat (length l), match l with [] => None | _ => Some (sum_sizes l) end).

(** ** Lemmas on the statement forms *)

Lemma elem_of_ns_rows ns t k r : (k, r) ∈ ns_rows ns t ↔ t !! (ns, k) = Some r.
Proof.
  unfold ns_rows. rewrite list_elem_of_omap. split.
  - intros ([[n k'] r'] & Hin & Heq). simpl in Heq.
    case_bool_decide; simplify_eq/=. by apply elem_of_map_to_list.
  - intros H. exists ((ns, k), r). simpl. rewrite bool_decide_true by done.
    split; [by apply elem_of_map_to_list|done].
Qed.

Lemma NoDup_ns_rows ns t : NoDup (ns_rows ns t).*1.
Proof.
  unfold ns_rows. pose proof (NoDup_fst_map_to_list t) as Hnd.
  induction (map_to_list t) as [|[[n k] r] l IH]; simpl; [constructor|].
  inversion Hnd as [|? ? Hni Hnd']; subst. case_bool_decide; [|by apply IH].
  simpl. constructor; [|by apply IH]. subst. intros Hin. apply Hni.
  apply list_elem_of_fmap in Hin as ([k' r'] & ? & Hin). simplify_eq/=.
  apply list_elem_of_omap in Hin as ([[n'' k''] r''] & Hin & Heq). simpl in Heq.
  case_bool_decide; simplify_eq/=. apply list_elem_of_fmap. by eexists ((ns, k'), _).
Qed.

Lemma upsert_lookup k new conflict t k' :
  (upsert k new conflict t).2 !! k' =
  if decide (k = k') then
    match t !! k with
    | None => Some new
    | Some r => Some (default r (conflict r))
    end
  else t !! k'.
Proof.
  unfold upsert. case_decide as Hk; [subst k'|].
  - destruct (t !! k) as [r|] eqn:E; simpl; [|by rewrite lookup_insert_eq].
    destruct (conflict r); simpl; [by rewrite lookup_insert_eq|done].
  - destruct (t !! k) as [r|]; simpl; [|by rewrite lookup_insert_ne].
    destruct (conflict r); simpl; [by rewrite lookup_insert_ne|done].
Qed.

Lemma update_at_lookup k cond f t k' :
  (update_at k cond f t).2 !! k' =
  if decide (k = k') then (λ r, if cond r then f r else r) <$> t !! k else t !! k'.
Proof.
  unfold update_at. case_decide as Hk; [subst k'|].
  - destruct (t !! k) as [r|] eqn:E; simpl; [|by rewrite E].
    destruct (cond r); simpl; [by rewrite lookup_insert_eq|done].
  - destruct (t !! k) as [r|]; simpl; [|done].
    destruct (cond r); simpl; [by rewrite lookup_insert_ne|done].
Qed.

Lemma delete_where_lookup cond t k :
  (delete_where cond t).2 !! k =
  r ← t !! k; if cond k r then None else Some r.
Proof.
  simpl. rewrite map_lookup_filter. destruct (t !! k) as [r|]; simpl; [|done].
  destruct (cond k r) eqn:E; by case_guard.
Qed.

Lemma delete_where_count cond t :
  (delete_where cond t).1 = Z.of_nat (size t) - Z.of_nat (size (delete_where cond t).2).
Proof.
  simpl.
  assert (size t = size (filter (λ p : string * string * row, cond p.1 p.2 = true) t) +
                   size (filter (λ p : string * string * row, cond p.1 p.2 = false) t))%nat as ->;
    [|lia].
  rewrite <- map_size_disj_union.
  - f_equal. apply map_eq. intros k. rewrite lookup_union, !map_lookup_filter.
    destruct (t !! k) as [r|]; [|done]. simpl. destruct (cond k r); by repeat case_guard.
  - apply map_disjoint_spec. intros k r r'. rewrite !map_lookup_filter_Some. simpl.
    intros [? ?] [? ?]. simplify_eq. congruence.
Qed.

Create Rewrite HintDb lyte_lookup.
#[export] Hint Rewrite upsert_lookup update_at_lookup delete_where_lookup : lyte_lookup.
