(* ===== verification/Engine.v ===== *)
(** How a [Cache] method executes: the process state next to the database
    file, the environment it runs in, and the monad of its steps.

    One process is modelled in detail. Everything else it depends on is the
    [Host]: the wall clock, statements that the driver fails, and what other
    connections committed before each statement. *)

From S2P Require Import Prelude GoStd Store.
Open Scope Z_scope.

(** ** The state of a Cache (cache.go) *)

Inductive Eviction := LRU | TTLPolicy | Random | NoEviction.
#[global] Instance Eviction_eq_dec : EqDecision Eviction.
Proof. solve_decision. Defined.

(** The fields of [Cache] that never change after [New]. *)
Record Cache := MkCache {
  path : string;
  namespace : string;
  schemaVersion : Z;
  maxKeys : option Z;
  maxBytes : option Z;
  eviction : Eviction;
  strict : bool;
  sweepInterval : Z;
  json1 : bool;
  publishOps : list string;
  eventRetention : Z;
  eventMaxCount : Z;
  changeKeyCap : Z
}.

(** [changes.go]: one change record, and the dispatcher's state. The listener
    functions themselves are code of the caller and are named by their id. *)
Record ChangeRecord := MkChangeRecord {
  Op : string;
  Namespace : string;
  Keys : option (list string);
  Count : Z;
  Truncated : bool
}.
#[global] Instance ChangeRecord_eq_dec : EqDecision ChangeRecord.
Proof. solve_decision. Defined.

Record dispatcher := MkDispatcher {
  listeners : gmap nat (list string);   (* id -> the operations it wants *)
  nextID : nat;
  queue : list (ChangeRecord * Z);      (* a record and its depth *)
  closed : bool;
  depth : Z                             (* of the record being dispatched *)
}.

(** The fields of [Cache] that its methods change. [p_in_dispatch] tells
    whether the running goroutine is the dispatcher's; [p_wake] is the [wake]
    channel (capacity 1) of each open subscription. *)
Record Proc := MkProc {
  p_lruBuffer : gmap string (Z * Z);    (* key -> lastAccessed, accessCount *)
  p_hits : Z;
  p_misses : Z;
  p_evictions : Z;
  p_expiredRemoved : Z;
  p_opsSinceSweep : Z;
  p_eventsReady : bool;
  p_dispatcher : option dispatcher;
  p_in_dispatch : bool;
  p_wake : gmap nat bool
}.

Definition init_proc : Proc := MkProc ∅ 0 0 0 0 0 false None false ∅.

Definition set_lru x p := MkProc x (p_hits p) (p_misses p) (p_evictions p)
  (p_expiredRemoved p) (p_opsSinceSweep p) (p_eventsReady p) (p_dispatcher p) (p_in_dispatch p) (p_wake p).
Definition set_hits x p := MkProc (p_lruBuffer p) x (p_misses p) (p_evictions p)
  (p_expiredRemoved p) (p_opsSinceSweep p) (p_eventsReady p) (p_dispatcher p) (p_in_dispatch p) (p_wake p).
Definition set_misses x p := MkProc (p_lruBuffer p) (p_hits p) x (p_evictions p)
  (p_expiredRemoved p) (p_opsSinceSweep p) (p_eventsReady p) (p_dispatcher p) (p_in_dispatch p) (p_wake p).
Definition set_evictions x p := MkProc (p_lruBuffer p) (p_hits p) (p_misses p) x
  (p_expiredRemoved p) (p_opsSinceSweep p) (p_eventsReady p) (p_dispatcher p) (p_in_dispatch p) (p_wake p).
Definition set_expiredRemoved x p := MkProc (p_lruBuffer p) (p_hits p) (p_misses p) (p_evictions p)
  x (p_opsSinceSweep p) (p_eventsReady p) (p_dispatcher p) (p_in_dispatch p) (p_wake p).
Definition set_opsSinceSweep x p := MkProc (p_lruBuffer p) (p_hits p) (p_misses p) (p_evictions p)
  (p_expiredRemoved p) x (p_eventsReady p) (p_dispatcher p) (p_in_dispatch p) (p_wake p).
Definition set_eventsReady x p := MkProc (p_lruBuffer p) (p_hits p) (p_misses p) (p_evictions p)
  (p_expiredRemoved p) (p_opsSinceSweep p) x (p_dispatcher p) (p_in_dispatch p) (p_wake p).
Definition set_dispatcher x p := MkProc (p_lruBuffer p) (p_hits p) (p_misses p) (p_evictions p)
  (p_expiredRemoved p) (p_opsSinceSweep p) (p_eventsReady p) x (p_in_dispatch p) (p_wake p).
Definition set_in_dispatch x p := MkProc (p_lruBuffer p) (p_hits p) (p_misses p) (p_evictions p)
  (p_expiredRemoved p) (p_opsSinceSweep p) (p_eventsReady p) (p_dispatcher p) x (p_wake p).
Definition set_wake x p := MkProc (p_lruBuffer p) (p_hits p) (p_misses p) (p_evictions p)
  (p_expiredRemoved p) (p_opsSinceSweep p) (p_eventsReady p) (p_dispatcher p) (p_in_dispatch p) x.

(** ** The environment *)

(** Steps are numbered: every statement, clock reading and sleep takes one.
    - [clock n]: [time.Now().UnixMilli()] read at step [n]; no monotonicity is
      assumed, the wall clock may be set back;
    - [elapse n]: monotonic nanoseconds spent in step [n];
    - [fault n]: the driver returns an error for the statement of step [n],
      which then changes nothing;
    - [interfere n]: what the other connections to the file commit just before
      the statement of step [n];
    - [scan], [shuffle]: the order in which SQLite visits rows when the query
      fixes none, and under [ORDER BY RANDOM()];
    - [glob]: SQLite's GLOB operator. *)
Class Host := {
  clock : nat → Z;
  elapse : nat → N;
  fault : nat → bool;
  interfere : nat → Database → Database;
  scan : list (string * row) → list (string * row);
  shuffle : list (string * row) → list (string * row);
  glob : string → string → bool;
  scan_perm l : scan l ≡ₚ l;
  shuffle_perm l : shuffle l ≡ₚ l
}.

(** No other connection writes to the file; and, in addition, no faults. *)
Class Alone (H : Host) := alone_interfere n d : interfere n d = d.
Class Quiet (H : Host) := {
  quiet_fault n : fault n = false;
  quiet_interfere n d : interfere n d = d
}.
#[global] Instance quiet_alone H : Quiet H → Alone H.
Proof. intros HQ n d. apply quiet_interfere. Qed.

Record World := MkWorld {
  w_db : Database;
  w_proc : Proc;
  w_step : nat;
  w_mono : Z;         (* the monotonic clock, nanoseconds *)
  w_intx : bool       (* inside a transaction: the write lock is held *)
}.

Definition with_db (d : Database) (w : World) : World :=
  MkWorld d (w_proc w) (w_step w) (w_mono w) (w_intx w).
Definition with_proc (p : Proc) (w : World) : World :=
  MkWorld (w_db w) p (w_step w) (w_mono w) (w_intx w).
Definition with_intx (b : bool) (w : World) : World :=
  MkWorld (w_db w) (w_proc w) (w_step w) (w_mono w) b.

(** ** The monad *)

Definition M (A : Type) : Type := World → result A * World.

#[global] Instance M_ret : MRet M := λ _ a w, (Ok a, w).
#[global] Instance M_bind : MBind M := λ _ _ k m w,
  match m w with
  | (Ok a, w') => k a w'
  | (Err e, w') => (Err e, w')
  | (Hang, w') => (Hang, w')
  end.

Definition fail {A} (e : error) : M A := λ w, (Err e, w).
Definition hang {A} : M A := λ w, (Hang, w).
Definition lift {A} (r : result A) : M A := λ w, (r, w).

(** The error of a call as a value, for callers that inspect or ignore it. *)
Definition attempt {A} (m : M A) : M (error + A) := λ w,
  match m w with
  | (Ok a, w') => (Ok (inr a), w')
  | (Err e, w') => (Ok (inl e), w')
  | (Hang, w') => (Hang, w')
  end.

Definition get_proc : M Proc := λ w, (Ok (w_proc w), w).
Definition mod_proc (f : Proc → Proc) : M () := λ w, (Ok tt, with_proc (f (w_proc w)) w).

Definition when (b : bool) (m : M ()) : M () := if b then m else mret tt.

Section engine.
Context {H : Host}.

Definition advance (dt : Z) (w : World) : World :=
  MkWorld (w_db w) (w_proc w) (S (w_step w))
    (w_mono w + dt + Z.of_N (elapse (w_step w))) (w_intx w).

(** [nowMillis()] of cache.go. *)
Definition nowMillis : M Z := λ w, (Ok (clock (w_step w)), advance 0 w).

(** [time.Now()] used against a deadline, and [time.Sleep]. *)
Definition monoNow : M Z := λ w, (Ok (w_mono w), advance 0 w).
Definition Sleep (d : Z) : M () := λ w, (Ok tt, advance (Z.max 0 d) w).

(** What the other connections did before this step. *)
Definition refresh (w : World) : Database :=
  if w_intx w then w_db w else interfere (w_step w) (w_db w).

(** Execute one SQL statement. *)
Definition exec {A} (stmt : Database → A * Database) : M A := λ w,
  let d := refresh w in
  if fault (w_step w) then (Err ErrDatabase, advance 0 (with_db d w))
  else (Ok (stmt d).1, advance 0 (with_db (stmt d).2 w)).

(** A statement that only reads. *)
Definition query {A} (f : Database → A) : M A := exec (λ d, (f d, d)).

(** [Cache.inTx] of hash.go, and every other transaction of the library:
    BEGIN takes the write lock, an error rolls every statement back. A
    commit that fails also leaves the file as it was at BEGIN. *)
Definition inTx {A} (body : M A) : M A := λ w,
  let d0 := refresh w in
  if fault (w_step w) then (Err ErrDatabase, advance 0 (with_db d0 w))
  else
    match body (with_intx true (advance 0 (with_db d0 w))) with
    | (Ok a, w') =>
        if fault (w_step w')
        then (Err ErrDatabase, advance 0 (with_intx false (with_db d0 w')))
        else (Ok a, advance 0 (with_intx false w'))
    | (r, w') => (r, advance 0 (with_intx false (with_db d0 w')))
    end.
End engine.

(** ** Reasoning about what a method may do to the file

    [keeps R m]: whatever the outcome of [m], the file before and after it are
    related by [R]. For a preorder [R] that contains the interference this is
    compositional, and it holds of a method as soon as it holds of the
    statements the method executes. *)

Definition keeps {A} (R : Database → Database → Prop) (m : M A) : Prop :=
  ∀ w, R (w_db w) (w_db (m w).2).

Class Tolerates {H : Host} (R : Database → Database → Prop) : Prop := {
  tol_pre : PreOrder R;
  tol_interfere n d : R d (interfere n d)
}.

(** When no other connection writes, every preorder is tolerated. *)
#[global] Instance alone_tolerates {H : Host} `{!Alone H} R : PreOrder R → Tolerates R.
Proof. intros HR. split; [done|]. intros n d. rewrite alone_interfere. reflexivity. Qed.

Section keeps.
Context {H : Host} (R : Database → Database → Prop) `{HT : !Tolerates R}.

#[local] Instance R_preorder : PreOrder R := tol_pre.

Lemma keeps_ret {A} (a : A) : keeps R (mret a).
Proof using HT. intros w. simpl. reflexivity. Qed.
Lemma keeps_fail {A} e : keeps R (fail (A:=A) e).
Proof using HT. intros w. simpl. reflexivity. Qed.
Lemma keeps_hang {A} : keeps R (hang (A:=A)).
Proof using HT. intros w. simpl. reflexivity. Qed.
Lemma keeps_lift {A} (r : result A) : keeps R (lift r).
Proof using HT. intros w. simpl. reflexivity. Qed.
Lemma keeps_get_proc : keeps R get_proc.
Proof using HT. intros w. simpl. reflexivity. Qed.
Lemma keeps_mod_proc f : keeps R (mod_proc f).
Proof using HT. intros w. simpl. reflexivity. Qed.
Lemma keeps_nowMillis : keeps R nowMillis.
Proof using HT. intros w. simpl. reflexivity. Qed.
Lemma keeps_monoNow : keeps R monoNow.
Proof using HT. intros w. simpl. reflexivity. Qed.
Lemma keeps_Sleep d : keeps R (Sleep d).
Proof using HT. intros w. simpl. reflexivity. Qed.

Lemma keeps_bind {A B} (m : M A) (k : A → M B) :
  keeps R m → (∀ a, keeps R (k a)) → keeps R (m ≫= k).
Proof using HT.
  intros Hm Hk w. unfold mbind, M_bind. specialize (Hm w).
  destruct (m w) as [[a|e|] w'] eqn:E; simpl in *; [|done..].
  etrans; [exact Hm|]. apply Hk.
Qed.

Lemma keeps_attempt {A} (m : M A) : keeps R m → keeps R (attempt m).
Proof using Type. intros Hm w. unfold attempt. specialize (Hm w). by destruct (m w) as [[]]. Qed.

Lemma keeps_when b m : keeps R m → keeps R (when b m).
Proof using HT. intros Hm. unfold when. destruct b; [done|apply keeps_ret]. Qed.

Lemma keeps_refresh w : R (w_db w) (refresh w).
Proof using HT. unfold refresh. destruct (w_intx w); [reflexivity|apply tol_interfere]. Qed.

Lemma keeps_exec {A} (stmt : Database → A * Database) :
  (∀ d, R d (stmt d).2) → keeps R (exec stmt).
Proof using HT.
  intros Hs w. unfold exec. case_match; simpl; [apply keeps_refresh|].
  etrans; [apply keeps_refresh|apply Hs].
Qed.

Lemma keeps_query {A} (f : Database → A) : keeps R (query f).
Proof using HT. apply keeps_exec. simpl. reflexivity. Qed.

Lemma keeps_inTx {A} (m : M A) : keeps R m → keeps R (inTx m).
Proof using HT.
  intros Hm w. unfold inTx. case_match; simpl; [apply keeps_refresh|].
  set (w1 := with_intx true _). specialize (Hm w1).
  assert (w_db w1 = refresh w) as Hw1 by done. rewrite Hw1 in Hm.
  pose proof (keeps_refresh w) as Hr.
  destruct (m w1) as [[a|e|] w']; simpl in *; [|done..].
  case_match; simpl; [done|]. by etrans.
Qed.
End keeps.

(** The file as it passes from hand to hand: the effects of [P], in turns with
    what other connections commit. *)
Definition by_turns `{Host} (P : relation Database) : relation Database :=
  rtc (λ d d', (∃ n, d' = interfere n d) ∨ P d d').

Section by_turns.
Context {H : Host} (P : relation Database).

#[global] Instance by_turns_tolerates : Tolerates (by_turns P).
Proof using Type.
  split; [unfold by_turns; typeclasses eauto|].
  intros n d. apply rtc_once. left. by exists n.
Qed.

Lemma by_turns_own d d' : P d d' → by_turns P d d'.
Proof using Type. intros Hp. apply rtc_once. by right. Qed.

Lemma by_turns_mono (P' : relation Database) d d' :
  (∀ d d', P d d' → P' d d') → by_turns P d d' → by_turns P' d d'.
Proof using Type. intros HP. apply rtc_subrel. intros x y [Hn|Hp]; [by left|right; by apply HP]. Qed.

(** With nobody else they are one after the other. *)
Lemma by_turns_alone `{!Alone H} `{!PreOrder P} d d' : by_turns P d d' → P d d'.
Proof using Type.
  induction 1 as [d|d1 d2 d3 Hs _ IH]; [reflexivity|]. etrans; [|exact IH].
  destruct Hs as [[n ->]|Hp]; [|exact Hp]. rewrite alone_interfere. reflexivity.
Qed.
End by_turns.

(** Lemmas [keeps R m] of the methods built on these. *)
Create HintDb keeps discriminated.

(** Decompose a method into its statements: what is left are the [keeps_exec]
    side conditions, one per statement that writes. *)
Ltac keeps_step :=
  lazymatch goal with
  | |- forall _, _ => intros
  | |- Tolerates _ => typeclasses eauto
  | |- keeps _ (mret _) => apply keeps_ret
  | |- keeps _ (fail _) => apply keeps_fail
  | |- keeps _ hang => apply keeps_hang
  | |- keeps _ (lift _) => apply keeps_lift
  | |- keeps _ get_proc => apply keeps_get_proc
  | |- keeps _ (mod_proc _) => apply keeps_mod_proc
  | |- keeps _ nowMillis => apply keeps_nowMillis
  | |- keeps _ monoNow => apply keeps_monoNow
  | |- keeps _ (Sleep _) => apply keeps_Sleep
  | |- keeps _ (query _) => apply keeps_query
  | |- keeps _ (exec _) => apply keeps_exec
  | |- keeps _ (_ ≫= _) => apply keeps_bind
  | |- keeps _ (attempt _) => apply keeps_attempt
  | |- keeps _ (inTx _) => apply keeps_inTx
  | |- keeps _ (when _ _) => apply keeps_when
  | |- keeps _ (match ?x with _ => _ end) => destruct x eqn:?
  | |- keeps _ (let '(_, _) := ?x in _) => destruct x eqn:?
  | |- keeps _ _ => solve [eauto with keeps typeclass_instances]
  end.
Ltac keeps_solve := repeat keeps_step.

(** ** What a method returns when it succeeds, in any host *)

Definition yields {A} (m : M A) (P : A → Prop) : Prop := ∀ w a, (m w).1 = Ok a → P a.

Section yields.
Context {H : Host}.

Lemma yields_bind_with {A B} (m : M A) (P : A → Prop) (k : A → M B) (Q : B → Prop) :
  yields m P → (∀ a, P a → yields (k a) Q) → yields (m ≫= k) Q.
Proof.
  intros Hm Hk w b. unfold mbind, M_bind. specialize (Hm w). destruct (m w) as [[a|e|] w']; [|done..].
  by apply Hk, Hm.
Qed.
Lemma yields_bind {A B} (m : M A) (k : A → M B) P : (∀ a, yields (k a) P) → yields (m ≫= k) P.
Proof. intros Hk. apply (yields_bind_with m (λ _, True)); [done|auto]. Qed.
Lemma yields_mono {A} (m : M A) (P Q : A → Prop) : (∀ a, P a → Q a) → yields m P → yields m Q.
Proof. intros HPQ Hm w a Ha. by eapply HPQ, Hm. Qed.
Lemma yields_ret {A} (a : A) (P : A → Prop) : P a → yields (mret a) P.
Proof. by intros HP w ? [= <-]. Qed.
Lemma yields_fail {A} e (P : A → Prop) : yields (fail e) P.
Proof. by intros w a. Qed.
Lemma yields_lift {A B} (r : result A) (k : A → M B) P :
  (∀ a, r = Ok a → yields (k a) P) → yields (lift r ≫= k) P.
Proof. intros Hk w b. unfold mbind, M_bind, lift. destruct r; [by apply Hk|done..]. Qed.
Lemma yields_query {A} (f : Database → A) (P : A → Prop) : (∀ d, P (f d)) → yields (query f) P.
Proof. intros Hf w a. unfold query, exec. destruct (fault _); [done|]. intros [= <-]. apply Hf. Qed.
Lemma yields_inTx {A} (m : M A) P : yields m P → yields (inTx m) P.
Proof.
  intros Hm w a. unfold inTx. destruct (fault _); [done|]. specialize (Hm (with_intx true (advance 0 (with_db (refresh w) w))) a).
  destruct (m _) as [[a'|e|] w']; [|done..]. destruct (fault _); [done|]. intros [= ->]. by apply Hm.
Qed.
End yields.

(** ** Running methods when no other connection writes *)

Section alone.
Context {H : Host} `{HA : !Alone H}.

Lemma refresh_alone w : refresh w = w_db w.
Proof using HA. unfold refresh. destruct (w_intx w); [done|apply alone_interfere]. Qed.

(** A transaction that does not succeed leaves the file as it was. *)
Lemma inTx_rollback {A} (m : M A) w :
  is_ok (inTx m w).1 = false → w_db (inTx m w).2 = w_db w.
Proof using HA.
  unfold inTx. rewrite refresh_alone. case_match; [done|].
  destruct (m _) as [[a|e|] w'] eqn:E; [|done..]. by case_match.
Qed.

Lemma exec_rollback {A} (s : Database → A * Database) w :
  is_ok (exec s w).1 = false → w_db (exec s w).2 = w_db w.
Proof using HA. unfold exec. rewrite refresh_alone. by case_match. Qed.
End alone.

(** ** Running methods in a quiet host *)

Section quiet.
Context {H : Host} `{HQ : !Quiet H}.

Lemma refresh_quiet w : refresh w = w_db w.
Proof using HQ. unfold refresh. destruct (w_intx w); [done|apply quiet_interfere]. Qed.

Lemma exec_quiet {A} (stmt : Database → A * Database) w :
  exec stmt w = (Ok (stmt (w_db w)).1, advance 0 (with_db (stmt (w_db w)).2 w)).
Proof using HQ. unfold exec. by rewrite quiet_fault, refresh_quiet. Qed.

Lemma query_quiet {A} (f : Database → A) w : query f w = (Ok (f (w_db w)), advance 0 w).
Proof using HQ. unfold query. rewrite exec_quiet. by destruct w. Qed.

Lemma inTx_quiet {A} (m : M A) w :
  inTx m w =
  match m (with_intx true (advance 0 w)) with
  | (Ok a, w') => (Ok a, advance 0 (with_intx false w'))
  | (r, w') => (r, advance 0 (with_intx false (with_db (w_db w) w')))
  end.
Proof using HQ.
  unfold inTx. rewrite quiet_fault, refresh_quiet.
  replace (with_db (w_db w) w) with w by by destruct w.
  destruct (m _) as [[]]; [by rewrite quiet_fault|done..].
Qed.
End quiet.

(** ** Methods that always return

    [returns m]: [m] never fails and never hangs, whatever the host does. *)

Definition returns {A} (m : M A) : Prop := ∀ w, ∃ a, (m w).1 = Ok a.
Definition no_hang {A} (m : M A) : Prop := ∀ w, (m w).1 ≠ Hang.

Section returns.
Context {H : Host}.

Lemma returns_ret {A} (a : A) : returns (mret a).
Proof. intros w. by eexists. Qed.
Lemma returns_mod_proc f : returns (mod_proc f).
Proof. intros w. by eexists. Qed.
Lemma returns_get_proc : returns get_proc.
Proof. intros w. by eexists. Qed.
Lemma returns_nowMillis : returns nowMillis.
Proof. intros w. by eexists. Qed.
Lemma returns_bind {A B} (m : M A) (k : A → M B) :
  returns m → (∀ a, returns (k a)) → returns (m ≫= k).
Proof.
  intros Hm Hk w. unfold mbind, M_bind. destruct (Hm w) as [a Ha].
  destruct (m w) as [r w']; simpl in *; subst. apply Hk.
Qed.
Lemma returns_when b m : returns m → returns (when b m).
Proof. intros Hm. unfold when. destruct b; [done|apply returns_ret]. Qed.
Lemma returns_attempt {A} (m : M A) : no_hang m → returns (attempt m).
Proof. intros Hm w. specialize (Hm w). unfold attempt. destruct (m w) as [[]]; [by eexists..|done]. Qed.

Lemma no_hang_returns {A} (m : M A) : returns m → no_hang m.
Proof. intros Hm w. destruct (Hm w) as [a ->]. done. Qed.
Lemma no_hang_fail {A} e : no_hang (fail (A:=A) e).
Proof. done. Qed.
Lemma no_hang_exec {A} (s : Database → A * Database) : no_hang (exec s).
Proof. intros w. unfold exec. by destruct (fault _). Qed.
Lemma no_hang_bind {A B} (m : M A) (k : A → M B) :
  no_hang m → (∀ a, no_hang (k a)) → no_hang (m ≫= k).
Proof.
  intros Hm Hk w. unfold mbind, M_bind. specialize (Hm w).
  destruct (m w) as [[]]; [apply Hk|done..].
Qed.
Lemma no_hang_inTx {A} (m : M A) : no_hang m → no_hang (inTx m).
Proof.
  intros Hm w. unfold inTx. destruct (fault _); [done|].
  specialize (Hm (with_intx true (advance 0 (with_db (refresh w) w)))).
  destruct (m _) as [[]]; simpl in *; [by destruct (fault _)|done..].
Qed.
End returns.

(** Decompose; [returns] facts of called methods come from HintDb [keeps]. *)
Ltac returns_step :=
  lazymatch goal with
  | |- forall _, _ => intros
  | |- returns (mret _) => apply returns_ret
  | |- returns (mod_proc _) => apply returns_mod_proc
  | |- returns get_proc => apply returns_get_proc
  | |- returns nowMillis => apply returns_nowMillis
  | |- returns (_ ≫= _) => apply returns_bind
  | |- returns (when _ _) => apply returns_when
  | |- returns (attempt _) => apply returns_attempt
  | |- returns (match ?x with _ => _ end) => destruct x eqn:?
  | |- returns _ => solve [eauto with keeps]
  | |- no_hang (mret _) => apply no_hang_returns, returns_ret
  | |- no_hang (mod_proc _) => apply no_hang_returns, returns_mod_proc
  | |- no_hang get_proc => apply no_hang_returns, returns_get_proc
  | |- no_hang nowMillis => apply no_hang_returns, returns_nowMillis
  | |- no_hang (fail _) => apply no_hang_fail
  | |- no_hang (exec _) => apply no_hang_exec
  | |- no_hang (query _) => apply no_hang_exec
  | |- no_hang (inTx _) => apply no_hang_inTx
  | |- no_hang (_ ≫= _) => apply no_hang_bind
  | |- no_hang (when _ _) => apply no_hang_returns, returns_when
  | |- no_hang (attempt _) => apply no_hang_returns, returns_attempt
  | |- no_hang (match ?x with _ => _ end) => destruct x eqn:?
  | |- no_hang _ => solve [eauto using no_hang_returns with keeps]
  end.
Ltac returns_solve := repeat returns_step.

(** ** What a method leaves alone in the process state *)

Definition frames {A B} (f : Proc → B) (m : M A) : Prop :=
  ∀ w, f (w_proc (m w).2) = f (w_proc w).

Section frames.
Context {H : Host} {B : Type} (f : Proc → B).

Lemma frames_pure {A} (r : World → result A) : frames f (λ w, (r w, w)).
Proof. by intros w. Qed.
Lemma frames_advance {A} (r : World → result A) dt : frames f (λ w, (r w, advance dt w)).
Proof. by intros w. Qed.
Lemma frames_mod_proc g : (∀ p, f (g p) = f p) → frames f (mod_proc g).
Proof. intros Hg w. apply Hg. Qed.
Lemma frames_bind {A A'} (m : M A) (k : A → M A') :
  frames f m → (∀ a, frames f (k a)) → frames f (m ≫= k).
Proof.
  intros Hm Hk w. unfold mbind, M_bind. rewrite <- (Hm w).
  destruct (m w) as [[a|e|] w']; simpl; [apply Hk|done..].
Qed.
Lemma frames_attempt {A} (m : M A) : frames f m → frames f (attempt m).
Proof. intros Hm w. unfold attempt. rewrite <- (Hm w). by destruct (m w) as [[]]. Qed.
Lemma frames_exec {A} (s : Database → A * Database) : frames f (exec s).
Proof. intros w. unfold exec. by destruct (fault _). Qed.
Lemma frames_inTx {A} (m : M A) : frames f m → frames f (inTx m).
Proof.
  intros Hm w. unfold inTx. destruct (fault _); [done|].
  specialize (Hm (with_intx true (advance 0 (with_db (refresh w) w)))). simpl in Hm.
  destruct (m _) as [[]]; simpl in *; [|done..]. by destruct (fault _).
Qed.
End frames.

Ltac frames_step :=
  lazymatch goal with
  | |- forall _, _ => intros
  | |- frames _ (mret _) => apply frames_pure
  | |- frames _ (fail _) => apply frames_pure
  | |- frames _ hang => apply frames_pure
  | |- frames _ (lift _) => apply frames_pure
  | |- frames _ get_proc => apply frames_pure
  | |- frames _ nowMillis => apply frames_advance
  | |- frames _ monoNow => apply frames_advance
  | |- frames _ (Sleep _) => apply frames_advance
  | |- frames _ (mod_proc _) => apply frames_mod_proc
  | |- frames _ (_ ≫= _) => apply frames_bind
  | |- frames _ (attempt _) => apply frames_attempt
  | |- frames _ (exec _) => apply frames_exec
  | |- frames _ (query _) => apply frames_exec
  | |- frames _ (inTx _) => apply frames_inTx
  | |- frames _ (when ?b _) => destruct b; unfold when
  | |- frames _ (match ?x with _ => _ end) => destruct x eqn:?
  | |- frames _ _ => solve [eauto with keeps]
  end.
Ltac frames_solve := repeat frames_step.

(** ** Steps only go forward *)

Definition grows {A} (m : M A) : Prop := ∀ w, (w_step w ≤ w_step (m w).2)%nat.

Section grows.
Context {H : Host}.

Lemma grows_pure {A} (r : World → result A) (p : World → Proc) :
  grows (λ w, (r w, with_proc (p w) w)).
Proof. intros w. simpl. lia. Qed.
Lemma grows_id {A} (r : World → result A) : grows (λ w, (r w, w)).
Proof. intros w. simpl. lia. Qed.
Lemma grows_advance {A} (r : World → result A) dt : grows (λ w, (r w, advance dt w)).
Proof. intros w. simpl. lia. Qed.
Lemma grows_bind {A B} (m : M A) (k : A → M B) :
  grows m → (∀ a, grows (k a)) → grows (m ≫= k).
Proof.
  intros Hm Hk w. unfold mbind, M_bind. specialize (Hm w).
  destruct (m w) as [[a|e|] w']; simpl in *; [|done..]. specialize (Hk a w'). lia.
Qed.
Lemma grows_attempt {A} (m : M A) : grows m → grows (attempt m).
Proof. intros Hm w. unfold attempt. specialize (Hm w). by destruct (m w) as [[]]. Qed.
Lemma grows_exec {A} (s : Database → A * Database) : grows (exec s).
Proof. intros w. unfold exec. destruct (fault _); simpl; lia. Qed.
Lemma grows_inTx {A} (m : M A) : grows m → grows (inTx m).
Proof.
  intros Hm w. unfold inTx. destruct (fault _); simpl; [lia|].
  specialize (Hm (with_intx true (advance 0 (with_db (refresh w) w)))). simpl in Hm.
  destruct (m _) as [[]]; simpl in *; [|lia..]. destruct (fault _); simpl; lia.
Qed.
End grows.

Ltac grows_step :=
  lazymatch goal with
  | |- forall _, _ => intros
  | |- grows (mret _) => apply grows_id
  | |- grows (fail _) => apply grows_id
  | |- grows hang => apply grows_id
  | |- grows (lift _) => apply grows_id
  | |- grows get_proc => apply grows_id
  | |- grows nowMillis => apply grows_advance
  | |- grows monoNow => apply grows_advance
  | |- grows (Sleep _) => apply grows_advance
  | |- grows (mod_proc _) => apply grows_pure
  | |- grows (_ ≫= _) => apply grows_bind
  | |- grows (attempt _) => apply grows_attempt
  | |- grows (exec _) => apply grows_exec
  | |- grows (query _) => apply grows_exec
  | |- grows (inTx _) => apply grows_inTx
  | |- grows (when ?b _) => destruct b; unfold when
  | |- grows (match ?x with _ => _ end) => destruct x eqn:?
  | |- grows _ => solve [eauto with keeps]
  end.
Ltac grows_solve := repeat grows_step.

(** ** Weakest preconditions

    [wp m w Q]: running [m] from [w] ends with an outcome and a world that
    satisfy [Q]. Since a run is a function, [wp] is both what the method
    guarantees and how it is executed symbolically. *)

Definition wp {A} (m : M A) (w : World) (Q : result A → World → Prop) : Prop :=
  Q (m w).1 (m w).2.

Section wp.
Context {H : Host}.

Lemma wp_mono {A} (m : M A) w (P Q : result A → World → Prop) :
  wp m w P → (∀ r w', P r w' → Q r w') → wp m w Q.
Proof. unfold wp. auto. Qed.

Lemma wp_grows {A} (m : M A) w (Q : result A → World → Prop) :
  grows m → wp m w (λ r w', (w_step w ≤ w_step w')%nat → Q r w') → wp m w Q.
Proof. unfold wp. intros Hg HQ. by apply HQ. Qed.

Lemma wp_frames {A B} (f : Proc → B) (m : M A) w (Q : result A → World → Prop) :
  frames f m → wp m w (λ r w', f (w_proc w') = f (w_proc w) → Q r w') → wp m w Q.
Proof. unfold wp. intros Hf HQ. by apply HQ. Qed.

Lemma wp_and {A} (m : M A) w (P Q : result A → World → Prop) :
  wp m w P → wp m w Q → wp m w (λ r w', P r w' ∧ Q r w').
Proof. done. Qed.

Lemma wp_ret {A} (a : A) w (Q : result A → World → Prop) : Q (Ok a) w → wp (mret a) w Q.
Proof. done. Qed.
Lemma wp_fail {A} e w (Q : result A → World → Prop) : Q (Err e) w → wp (fail e) w Q.
Proof. done. Qed.
Lemma wp_lift {A} r w (Q : result A → World → Prop) : Q r w → wp (lift r) w Q.
Proof. done. Qed.
Lemma wp_get_proc w (Q : result Proc → World → Prop) : Q (Ok (w_proc w)) w → wp get_proc w Q.
Proof. done. Qed.
Lemma wp_mod_proc f w (Q : result () → World → Prop) :
  Q (Ok tt) (with_proc (f (w_proc w)) w) → wp (mod_proc f) w Q.
Proof. done. Qed.
Lemma wp_nowMillis w (Q : result Z → World → Prop) :
  Q (Ok (clock (w_step w))) (advance 0 w) → wp nowMillis w Q.
Proof. done. Qed.
Lemma wp_monoNow w (Q : result Z → World → Prop) :
  Q (Ok (w_mono w)) (advance 0 w) → wp monoNow w Q.
Proof. done. Qed.
Lemma wp_Sleep d w (Q : result () → World → Prop) :
  Q (Ok tt) (advance (Z.max 0 d) w) → wp (Sleep d) w Q.
Proof. done. Qed.

Lemma wp_bind {A B} (m : M A) (k : A → M B) w (Q : result B → World → Prop) :
  wp m w (λ r w', match r with
                  | Ok a => wp (k a) w' Q
                  | Err e => Q (Err e) w'
                  | Hang => Q Hang w'
                  end) →
  wp (m ≫= k) w Q.
Proof. unfold wp, mbind, M_bind. destruct (m w) as [[]]; done. Qed.

Lemma wp_attempt {A} (m : M A) w (Q : result (error + A) → World → Prop) :
  wp m w (λ r w', match r with
                  | Ok a => Q (Ok (inr a)) w'
                  | Err e => Q (Ok (inl e)) w'
                  | Hang => Q Hang w'
                  end) →
  wp (attempt m) w Q.
Proof. unfold wp, attempt. destruct (m w) as [[]]; done. Qed.

Lemma wp_when (b : bool) m w (Q : result () → World → Prop) :
  (b = true → wp m w Q) → (b = false → Q (Ok tt) w) → wp (when b m) w Q.
Proof. intros Ht Hf. destruct b; [by apply Ht|by apply Hf]. Qed.

(** In any host: the statement fails, or runs on the refreshed file. *)
Lemma wp_exec_any {A} (stmt : Database → A * Database) w (Q : result A → World → Prop) :
  Q (Err ErrDatabase) (advance 0 (with_db (refresh w) w)) →
  Q (Ok (stmt (refresh w)).1) (advance 0 (with_db (stmt (refresh w)).2 w)) →
  wp (exec stmt) w Q.
Proof. intros He Ho. unfold wp, exec. by destruct (fault _). Qed.

Lemma wp_exec `{!Quiet H} {A} (stmt : Database → A * Database) w (Q : result A → World → Prop) :
  Q (Ok (stmt (w_db w)).1) (advance 0 (with_db (stmt (w_db w)).2 w)) → wp (exec stmt) w Q.
Proof. unfold wp. by rewrite exec_quiet. Qed.
Lemma wp_query `{!Quiet H} {A} (f : Database → A) w (Q : result A → World → Prop) :
  Q (Ok (f (w_db w))) (advance 0 w) → wp (query f) w Q.
Proof. unfold wp. by rewrite query_quiet. Qed.
Lemma wp_inTx `{!Quiet H} {A} (m : M A) w (Q : result A → World → Prop) :
  wp m (with_intx true (advance 0 w)) (λ r w',
    match r with
    | Ok a => Q (Ok a) (advance 0 (with_intx false w'))
    | _ => Q r (advance 0 (with_intx false (with_db (w_db w) w')))
    end) →
  wp (inTx m) w Q.
Proof. unfold wp. rewrite inTx_quiet. by destruct (m _) as [[]]. Qed.
End wp.

(** Symbolic execution of one step, and of all steps that need no decision. *)
Ltac wp_step :=
  lazymatch goal with
  | |- wp (mret _) _ _ => apply wp_ret
  | |- wp (fail _) _ _ => apply wp_fail
  | |- wp (lift _) _ _ => apply wp_lift
  | |- wp get_proc _ _ => apply wp_get_proc
  | |- wp (mod_proc _) _ _ => apply wp_mod_proc
  | |- wp nowMillis _ _ => apply wp_nowMillis
  | |- wp monoNow _ _ => apply wp_monoNow
  | |- wp (Sleep _) _ _ => apply wp_Sleep
  | |- wp (_ ≫= _) _ _ => apply wp_bind
  | |- wp (attempt _) _ _ => apply wp_attempt
  | |- wp (exec _) _ _ => apply wp_exec
  | |- wp (query _) _ _ => apply wp_query
  | |- wp (inTx _) _ _ => apply wp_inTx
  end; cbn beta iota.
Ltac wp_go := repeat wp_step.

(** A host for concrete runs: a clock that never moves, no faults, no other
    process, rows visited in the order given, GLOB patterns matched exactly
    except for [*]. *)
Definition still_host (now : Z) : Host.
Proof.
  refine {| clock := λ _, now; elapse := λ _, 0%N; fault := λ _, false;
            interfere := λ _ d, d; scan := id; shuffle := id;
            glob := λ p s, String.eqb p "*" || String.eqb p s |};
    intros l; reflexivity.
Defined.
#[global] Instance still_quiet now : Quiet (still_host now).
Proof. split; done. Qed.

(** A host whose clock moves by one millisecond at every step. *)
Definition tick_host : Host.
Proof.
  refine {| clock := Z.of_nat; elapse := λ _, 1000000%N; fault := λ _, false;
            interfere := λ _ d, d; scan := id; shuffle := id;
            glob := λ p s, String.eqb p "*" || String.eqb p s |};
    intros l; reflexivity.
Defined.
Lemma tick_quiet : Quiet tick_host.
Proof. split; done. Qed.

(** The same host with a driver that fails the chosen statements. *)
Definition faulty_host (now : Z) (bad : nat → bool) : Host.
Proof.
  refine {| clock := λ _, now; elapse := λ _, 0%N; fault := bad;
            interfere := λ _ d, d; scan := id; shuffle := id;
            glob := λ p s, String.eqb p "*" || String.eqb p s |};
    intros l; reflexivity.
Defined.
Lemma faulty_alone now bad : Alone (faulty_host now bad).
Proof. by intros n d. Qed.

(** A host where another connection commits [f] just before step [n]. *)
Definition race_host (now : Z) (n : nat) (f : Database → Database) : Host.
Proof.
  refine {| clock := λ _, now; elapse := λ _, 0%N; fault := λ _, false;
            interfere := λ m d, if Nat.eqb m n then f d else d; scan := id; shuffle := id;
            glob := λ p s, String.eqb p "*" || String.eqb p s |};
    intros l; reflexivity.
Defined.

Definition init_world (d : Database) : World := MkWorld d init_proc 0 0 false.
Definition empty_db : Database := Db ∅ {["schema_version" := "1"]} None.
(** The configuration that [New()] builds with no options, in namespace [ns]. *)
Definition demo_cache (ns : string) : Cache :=
  MkCache "/tmp/cache.db" ns 1 None None LRU false (60 * Second) true [] Hour 0 100.
