(* ===== verification/Channels.v ===== *)
(** Channel names and watch patterns: [validateChannel] and [channelFilter] of
    [lytecache-go/events.go], [MatchChannel] of [events_admin.go].

    [channelFilter] compiles patterns to a SQL condition that counts UTF-8
    characters of a C string, [MatchChannel] compares bytes; they agree on valid
    UTF-8 for patterns without zero bytes. *)

From S2P Require Import Prelude GoStd.
Open Scope Z_scope.

(** ** UTF-8 *)

Definition byte_of (a : ascii) : Z := Z.of_N (N_of_ascii a).
Definition in_range (lo hi : Z) (a : ascii) : bool :=
  (lo <=? byte_of a) && (byte_of a <=? hi).
(** A continuation byte, [10xxxxxx]. *)
Definition is_cont (a : ascii) : bool := in_range 128 191 a.

(** For a byte that can start a character: how many continuation bytes follow,
    and the range of the first one ([unicode/utf8]'s table). *)
Definition utf8_lead (a : ascii) : option (nat * Z * Z) :=
  if in_range 0 127 a then Some (0%nat, 0, 0)
  else if in_range 194 223 a then Some (1%nat, 128, 191)
  else if in_range 224 224 a then Some (2%nat, 160, 191)
  else if in_range 225 236 a then Some (2%nat, 128, 191)
  else if in_range 237 237 a then Some (2%nat, 128, 159)
  else if in_range 238 239 a then Some (2%nat, 128, 191)
  else if in_range 240 240 a then Some (3%nat, 144, 191)
  else if in_range 241 243 a then Some (3%nat, 128, 191)
  else if in_range 244 244 a then Some (3%nat, 128, 143)
  else None.

(** The rest of [s] after [n] continuation bytes. *)
Fixpoint strip_conts (n : nat) (lo hi : Z) (s : string) : option string :=
  match n, s with
  | O, _ => Some s
  | S n, String a s => if in_range lo hi a then strip_conts n 128 191 s else None
  | S _, EmptyString => None
  end.

(** The rest of [s] after its first character, [None] if it is not valid. *)
Definition next_rune (s : string) : option string :=
  match s with
  | EmptyString => None
  | String a s =>
      '(n, lo, hi) ← utf8_lead a; strip_conts n lo hi s
  end.

(** [utf8.ValidString] and the length of [[]rune(s)]; an invalid byte is one
    rune. The bound [n] is the number of bytes. *)
Fixpoint valid_utf8_upto (n : nat) (s : string) : bool :=
  match s, n with
  | EmptyString, _ => true
  | _, O => false
  | _, S n => match next_rune s with Some t => valid_utf8_upto n t | None => false end
  end.
Definition valid_utf8 (s : string) : bool := valid_utf8_upto (String.length s) s.

Fixpoint rune_count_upto (n : nat) (s : string) : nat :=
  match s, n with
  | EmptyString, _ => 0
  | _, O => 0
  | String _ u, S n => S (rune_count_upto n (default u (next_rune s)))
  end%nat.
Definition rune_count (s : string) : nat := rune_count_upto (String.length s) s.

(** SQL [substr(s, 1, n)] on a text: the first [n] characters, where the bytes
    that continue a multi-byte character belong to it. SQLite reads the text as
    a C string, which ends at its first zero byte. *)
Fixpoint utf8_take (n : nat) (multi : bool) (s : string) : string :=
  match s with
  | EmptyString => EmptyString
  | String a s =>
      if multi && is_cont a then String a (utf8_take n multi s)
      else if byte_of a =? 0 then EmptyString
      else match n with
           | O => EmptyString
           | S n => String a (utf8_take n (192 <=? byte_of a) s)
           end
  end.
Definition substr1 (s : string) (n : nat) : string := utf8_take n false s.

(** Text that a C string can hold. *)
Definition zero : ascii := "000"%char.
Definition plain_text (s : string) : bool := valid_utf8 s && negb (ContainsChar s zero).

(** ** The code *)

Definition star : ascii := "*"%char.

Definition validateChannel (channel : string) : result () :=
  if String.eqb channel "" then Err ErrInvalidArgument
  else if ContainsChar channel star then Err ErrInvalidArgument
  else if HasPrefix channel "__" then Err ErrInvalidArgument
  else Ok tt.

(** The SQL condition that [channelFilter] returns. *)
Inductive clause :=
  | SubstrIs (n : nat) (prefix : string)    (* substr(channel, 1, ?) = ? *)
  | ChannelIs (p : string).                 (* channel = ? *)
Inductive filter_cond :=
  | One                                     (* 1 *)
  | AnyOf (clauses : list clause).          (* (c1 OR c2 ...) *)

Definition eval_clause (channel : string) (cl : clause) : bool :=
  match cl with
  | SubstrIs n prefix => String.eqb (substr1 channel n) prefix
  | ChannelIs p => String.eqb channel p
  end.
Definition eval_filter (f : filter_cond) (channel : string) : bool :=
  match f with
  | One => true
  | AnyOf cls => existsb (eval_clause channel) cls
  end.

(** The loop of [channelFilter], with the clauses collected so far. *)
Fixpoint channelFilter_go (clauses : list clause) (patterns : list string) : result filter_cond :=
  match patterns with
  | [] => Ok (AnyOf clauses)
  | p :: ps =>
      if String.eqb p "" then Err ErrInvalidArgument
      else match cut_last p star with
           | Some prefix =>
               if String.eqb prefix "" then Ok One
               else channelFilter_go (clauses ++ [SubstrIs (rune_count prefix) prefix]) ps
           | None => channelFilter_go (clauses ++ [ChannelIs p]) ps
           end
  end.
Definition channelFilter (patterns : list string) : result filter_cond :=
  channelFilter_go [] patterns.

Definition MatchChannel (pattern channel : string) : bool :=
  if String.eqb pattern "" then false
  else match cut_last pattern star with
       | Some prefix => HasPrefix channel prefix
       | None => String.eqb channel pattern
       end.

(** ** Lemmas *)

Lemma in_range_spec lo hi a : in_range lo hi a = true ↔ lo ≤ byte_of a ≤ hi.
Proof. unfold in_range. rewrite andb_true_iff, !Z.leb_le. done. Qed.

(** What the table says: a leading byte is not a continuation byte, it is at
    least 0xC0 exactly when continuation bytes follow, and those are
    continuation bytes. *)
Lemma utf8_lead_spec a n lo hi :
  utf8_lead a = Some (n, lo, hi) →
  is_cont a = false ∧ ((192 <=? byte_of a) = negb (Nat.eqb n 0)) ∧
  (n ≠ 0%nat → 128 ≤ lo ∧ hi ≤ 191).
Proof.
  unfold utf8_lead, is_cont. intros H.
  assert (∀ b : bool, b = false ↔ b ≠ true) as Hb by (by intros []).
  repeat case_match; simplify_eq/=;
    repeat match goal with
      | E : in_range _ _ _ = true |- _ => apply in_range_spec in E
      | E : in_range _ _ _ = false |- _ => clear E end;
    (split_and!; [rewrite Hb, in_range_spec; lia
                 |first [apply Z.leb_le; lia|apply Z.leb_gt; lia]|lia]).
Qed.

Lemma utf8_take_prefix n multi s : ∃ t, s = utf8_take n multi s +:+ t.
Proof.
  revert n multi. induction s as [|a s IH]; intros n multi; simpl; [by exists ""|].
  case_match.
  - destruct (IH n multi) as [t Ht]. exists t. rewrite str_app_cons. by f_equal.
  - case_match; [by eexists|]. destruct n as [|n]; [by eexists|].
    destruct (IH n (192 <=? byte_of a)) as [t Ht]. exists t. rewrite str_app_cons. by f_equal.
Qed.

Lemma byte_of_zero a : byte_of a = 0 ↔ a = zero.
Proof.
  split; [|by intros ->]. unfold byte_of. intros Ha. rewrite <- (ascii_N_embedding a).
  by replace (N_of_ascii a) with 0%N by lia.
Qed.
Lemma byte_of_zero_false a : a ≠ zero → (byte_of a =? 0) = false.
Proof. intros Ha. apply Z.eqb_neq. by rewrite byte_of_zero. Qed.

(** What [substr] returns has no zero byte. *)
Lemma utf8_take_plain n multi s : ContainsChar (utf8_take n multi s) zero = false.
Proof.
  revert n multi. induction s as [|a s IH]; intros n multi; simpl; [done|].
  case_match eqn:Hc; [|case_match eqn:Hz; [done|]; destruct n as [|n]; [done|]]; simpl; rewrite IH, orb_false_r;
    apply bool_decide_eq_false; intros <-.
  - by destruct multi.
  - by vm_compute in Hz.
Qed.

(** A prefix of single-byte characters. *)
Lemma utf8_take_ascii n p t :
  String.length p = n → forallb (in_range 1 127) (String.list_ascii_of_string p) = true →
  utf8_take n false (p +:+ t) = p.
Proof.
  revert n. induction p as [|a p IH]; intros n <- Hp.
  { rewrite str_app_nil. destruct t; [done|]. simpl. by case_match. }
  simpl in Hp. apply andb_true_iff in Hp as [Ha%in_range_spec Hp]. rewrite str_app_cons. simpl.
  rewrite (proj2 (Z.eqb_neq _ _)), (proj2 (Z.leb_gt _ _)) by lia. f_equal. by apply IH.
Qed.

Lemma utf8_take_conts n k lo hi s u t :
  (n ≠ 0%nat → 128 ≤ lo ∧ hi ≤ 191) →
  strip_conts n lo hi s = Some u →
  ∃ c, s = c +:+ u ∧ utf8_take k true (s +:+ t) = c +:+ utf8_take k true (u +:+ t).
Proof.
  revert lo hi s. induction n as [|n IH]; intros lo hi s Hr Hs; simpl in Hs.
  { simplify_eq. by exists "". }
  destruct s as [|a s]; [done|]. case_match eqn:Ha; [|done].
  destruct (IH 128 191 s ltac:(lia) Hs) as (c & -> & Ht).
  exists (String a c). split; [by rewrite str_app_cons|].
  assert (is_cont a = true) as Hc.
  { apply in_range_spec in Ha. apply in_range_spec. lia. }
  rewrite !str_app_cons. simpl. rewrite Hc. simpl. by f_equal.
Qed.

(** Where the next byte does not continue a character the flag is irrelevant. *)
Lemma utf8_take_flag n m1 m2 s :
  (∀ a u, s = String a u → is_cont a = false) → utf8_take n m1 s = utf8_take n m2 s.
Proof.
  intros Hs. destruct s as [|a s]; simpl; [done|].
  rewrite (Hs a s eq_refl). by rewrite !andb_false_r.
Qed.

Lemma strip_conts_app n lo hi s u t :
  strip_conts n lo hi s = Some u → strip_conts n lo hi (s +:+ t) = Some (u +:+ t).
Proof.
  revert lo hi s. induction n as [|n IH]; intros lo hi s Hs; simpl in *; [by simplify_eq|].
  destruct s as [|a s]; [done|]. rewrite str_app_cons. case_match; [|done]. by apply IH.
Qed.

Lemma next_rune_app s u t : next_rune s = Some u → next_rune (s +:+ t) = Some (u +:+ t).
Proof.
  destruct s as [|a s]; [done|]. rewrite str_app_cons. simpl.
  destruct (utf8_lead a) as [[[n lo] hi]|]; [|done]. simpl. apply strip_conts_app.
Qed.

Lemma strip_conts_length n lo hi s u :
  strip_conts n lo hi s = Some u → (String.length u + n = String.length s)%nat.
Proof.
  revert lo hi s. induction n as [|n IH]; intros lo hi s Hs; simpl in *; [simplify_eq; lia|].
  destruct s as [|a s]; [done|]. case_match; [|done]. apply IH in Hs. simpl. lia.
Qed.

Lemma next_rune_length s u : next_rune s = Some u → (String.length u < String.length s)%nat.
Proof.
  destruct s as [|a s]; simpl; [done|].
  destruct (utf8_lead a) as [[[n lo] hi]|]; [|done]. simpl.
  intros H%strip_conts_length. lia.
Qed.

Lemma valid_utf8_mono n m s :
  (n ≤ m)%nat → valid_utf8_upto n s = true → valid_utf8_upto m s = true.
Proof.
  revert m s. induction n as [|n IH]; intros m s Hle Hv; [by destruct s, m|].
  destruct m as [|m]; [lia|]. destruct s as [|a s]; [done|].
  cbn -[next_rune] in *. destruct (next_rune _); [|done]. apply IH; [lia|done].
Qed.

Lemma valid_utf8_enough n s :
  valid_utf8_upto n s = true → valid_utf8_upto (String.length s) s = true.
Proof.
  revert s. induction n as [|n IH]; intros s Hv; [by destruct s|].
  destruct s as [|a s]; [done|]. cbn -[next_rune] in *.
  destruct (next_rune (String a s)) as [u|] eqn:E; [|done].
  apply next_rune_length in E as Hl. simpl in Hl.
  eapply valid_utf8_mono; [|by apply IH]. lia.
Qed.

(** A valid string starts with no continuation byte. *)
Lemma valid_utf8_head n s a u :
  valid_utf8_upto n s = true → s = String a u → is_cont a = false.
Proof.
  intros Hv ->. destruct n as [|n]; [done|]. cbn -[next_rune] in Hv.
  unfold next_rune in Hv. destruct (utf8_lead a) as [[[k lo] hi]|] eqn:E; [|done].
  by apply utf8_lead_spec in E as [].
Qed.

(** The rest of a valid string after a valid prefix is valid. *)
Lemma valid_utf8_rest n p t m :
  valid_utf8_upto n p = true → valid_utf8_upto m (p +:+ t) = true →
  valid_utf8_upto m t = true.
Proof.
  revert p m. induction n as [|n IH]; intros p m Hp Ht; [by destruct p|].
  destruct p as [|a p]; [done|]. cbn -[next_rune] in Hp.
  destruct (next_rune (String a p)) as [u|] eqn:E; [|done].
  apply (next_rune_app _ _ t) in E.
  destruct m as [|m]; [done|]. rewrite str_app_cons in Ht, E. cbn -[next_rune] in Ht.
  rewrite E in Ht. eapply valid_utf8_mono; [|by eapply IH]. lia.
Qed.

(** Taking as many characters as a valid prefix has gives that prefix. *)
Lemma utf8_take_runes n p t m :
  valid_utf8_upto n p = true → (n ≤ m)%nat → ContainsChar p zero = false →
  (∀ a u, t = String a u → is_cont a = false) →
  utf8_take (rune_count_upto m p) false (p +:+ t) = p.
Proof.
  assert (utf8_take 0 false t = "") as H0 by (destruct t; [done|]; simpl; by case_match).
  revert p m. induction n as [|n IH]; intros p m Hp Hm Hz Ht.
  { destruct p; [|done]. by destruct m. }
  destruct p as [|a p]; [by destruct m|].
  simpl in Hz. apply orb_false_iff in Hz as [Ha%bool_decide_eq_false Hz]. destruct m as [|m]; [lia|]. cbn -[next_rune] in Hp |- *.
  destruct (next_rune (String a p)) as [u|] eqn:E; [|done]. simpl in E.
  destruct (utf8_lead a) as [[[k lo] hi]|] eqn:El; [|done]. simpl in E.
  apply utf8_lead_spec in El as (Hc & Hb & Hr).
  assert (Hzu : ContainsChar u zero = false).
  { destruct (utf8_take_conts _ 0 lo hi p u "" Hr E) as (c & -> & _). rewrite ContainsChar_app in Hz.
    by apply orb_false_iff in Hz as [_ Hz]. }
  specialize (IH u m Hp ltac:(lia) Hzu Ht). rewrite str_app_cons. simpl.
  rewrite (byte_of_zero_false a) by done. rewrite Hb. f_equal.
  assert (∀ b v, u +:+ t = String b v → is_cont b = false) as Hu.
  { intros b v. destruct u as [|c u]; [by apply Ht|].
    rewrite str_app_cons. intros. simplify_eq. by eapply valid_utf8_head. }
  destruct k as [|k]; simpl in Hb |- *.
  { simpl in E. by simplify_eq. }
  destruct (utf8_take_conts (S k) (rune_count_upto m u) lo hi p u t Hr E) as (c & -> & ->).
  rewrite (utf8_take_flag _ true false) by done. by rewrite IH.
Qed.

Lemma substr_prefix prefix channel :
  valid_utf8 prefix = true → valid_utf8 channel = true →
  String.eqb (substr1 channel (rune_count prefix)) prefix =
    negb (ContainsChar prefix zero) && HasPrefix channel prefix.
Proof.
  intros Hp Hc. apply eq_true_iff_eq. rewrite String.eqb_eq, andb_true_iff, negb_true_iff, HasPrefix_spec. split.
  - intros <-. split; [apply utf8_take_plain|apply utf8_take_prefix].
  - intros [Hz [t ->]]. unfold substr1, rune_count.
    eapply utf8_take_runes; [exact Hp|done|done|].
    intros a u ->. unfold valid_utf8 in *.
    eapply (valid_utf8_head _ (String a u)); [|done].
    eapply valid_utf8_rest; [exact Hp|exact Hc].
Qed.

(** The final [*] of a pattern is not part of a character of the prefix. *)
Lemma strip_conts_snoc n lo hi s v :
  (n ≠ 0%nat → 128 ≤ lo ∧ hi ≤ 191) →
  strip_conts n lo hi (s +:+ String star "") = Some v →
  ∃ u, strip_conts n lo hi s = Some u ∧ v = u +:+ String star "".
Proof.
  revert lo hi s. induction n as [|n IH]; intros lo hi s Hr Hs.
  { exists s. by destruct s; simplify_eq/=. }
  destruct s as [|a s]; rewrite ?str_app_nil, ?str_app_cons in Hs; simpl in Hs.
  - case_match eqn:E; [|done]. apply in_range_spec in E.
    assert (byte_of star = 42) as Hst by done. lia.
  - simpl. case_match; [|done]. apply IH; [lia|done].
Qed.

Lemma valid_utf8_snoc n p :
  valid_utf8_upto n (p +:+ String star "") = true → valid_utf8_upto n p = true.
Proof.
  revert p. induction n as [|n IH]; intros p Hp; [by destruct p|].
  destruct p as [|a p]; [done|]. rewrite str_app_cons in Hp. simpl in Hp |- *.
  destruct (utf8_lead a) as [[[k lo] hi]|] eqn:El; [|done]. simpl in *.
  apply utf8_lead_spec in El as (_ & _ & Hr).
  destruct (strip_conts k lo hi (p +:+ _)) as [v|] eqn:E; [|done].
  apply strip_conts_snoc in E as (u & -> & ->); [|done]. by apply IH.
Qed.

Lemma valid_utf8_prefix p : valid_utf8 (p +:+ String star "") = true → valid_utf8 p = true.
Proof. unfold valid_utf8. intros Hp%valid_utf8_snoc. by eapply valid_utf8_enough. Qed.

(** SQL cannot compare a prefix that has a zero byte. *)
Definition comparable (p : string) : bool :=
  match cut_last p star with Some prefix => negb (ContainsChar prefix zero) | None => true end.

Lemma channelFilter_go_exact ps cls f channel :
  Forall (λ p, valid_utf8 p = true) ps → valid_utf8 channel = true →
  channelFilter_go cls ps = Ok f →
  eval_filter f channel =
  existsb (eval_clause channel) cls || existsb (λ p, comparable p && MatchChannel p channel) ps.
Proof.
  intros Hps Hc. revert cls. induction Hps as [|p ps Hp _ IH]; intros cls; simpl.
  { intros. simplify_eq. simpl. by rewrite orb_false_r. }
  unfold MatchChannel at 1, comparable at 1. destruct (String.eqb p ""); [done|].
  destruct (cut_last p star) as [prefix|] eqn:E.
  - destruct (String.eqb prefix "") eqn:Ep.
    + intros. simplify_eq. simpl. apply String.eqb_eq in Ep as ->.
      destruct channel; simpl; by rewrite orb_true_r.
    + intros H. rewrite (IH _ H), existsb_app. simpl. rewrite orb_false_r, <- orb_assoc.
      f_equal. f_equal. apply substr_prefix; [|done].
      apply cut_last_Some in E as ->. by apply valid_utf8_prefix.
  - intros H. rewrite (IH _ H), existsb_app. simpl. by rewrite orb_false_r, <- orb_assoc.
Qed.

Lemma plain_text_spec p : plain_text p = true ↔ valid_utf8 p = true ∧ ContainsChar p zero = false.
Proof. unfold plain_text. by rewrite andb_true_iff, negb_true_iff. Qed.

Lemma plain_comparable p : plain_text p = true → comparable p = true.
Proof.
  intros [_ Hz]%plain_text_spec. unfold comparable. destruct (cut_last p star) as [q|] eqn:E; [|done].
  apply cut_last_Some in E as ->. rewrite ContainsChar_app in Hz. apply orb_false_iff in Hz as [-> _]. done.
Qed.

Lemma channelFilter_go_spec ps cls f channel :
  Forall (λ p, plain_text p = true) ps → valid_utf8 channel = true →
  channelFilter_go cls ps = Ok f →
  eval_filter f channel =
  existsb (eval_clause channel) cls || existsb (λ p, MatchChannel p channel) ps.
Proof.
  intros Hps Hc Hf. rewrite (channelFilter_go_exact ps cls); [|by eapply Forall_impl; [exact Hps|intros p []%plain_text_spec]|done..].
  f_equal. clear Hf. induction Hps as [|p ps Hp _ IH]; simpl; [done|]. by rewrite (plain_comparable p Hp), IH.
Qed.

(** C25: on valid UTF-8, the SQL condition compiled by [channelFilter] selects
    exactly the channels that [MatchChannel] accepts for one of the patterns that
    SQL can compare: those that are exact, or whose prefix has no zero byte. A
    prefix pattern with a zero byte, which [MatchChannel] applies like any other,
    selects nothing in SQL; when no pattern has a zero byte the two agree on
    every channel. *)
Theorem channelFilter_MatchChannel (patterns : list string) (f : filter_cond) (channel : string) :
  Forall (λ p, valid_utf8 p = true) patterns → valid_utf8 channel = true →
  channelFilter patterns = Ok f →
  eval_filter f channel = existsb (λ p, comparable p && MatchChannel p channel) patterns ∧
  (Forall (λ p, ContainsChar p zero = false) patterns →
   eval_filter f channel = existsb (λ p, MatchChannel p channel) patterns).
Proof.
  intros Hp Hc H. split; [by rewrite (channelFilter_go_exact _ _ _ _ Hp Hc H)|]. intros Hz.
  rewrite (channelFilter_go_spec patterns [] f channel); [done| |done..].
  apply Forall_forall. intros p Hin. rewrite Forall_forall in Hp, Hz. apply plain_text_spec. auto.
Qed.

(** A watch on a prefix with a two-byte character. *)
Lemma channelFilter_MatchChannel_witness :
  channelFilter ["café:*"; "jobs"] =
    Ok (AnyOf [SubstrIs 5 "café:"; ChannelIs "jobs"])
  ∧ eval_filter (AnyOf [SubstrIs 5 "café:"; ChannelIs "jobs"]) "café:x"
    = existsb (λ p, MatchChannel p "café:x") ["café:*"; "jobs"].
Proof.
  split; [vm_compute; reflexivity|].
  refine (proj2 (channelFilter_MatchChannel ["café:*"; "jobs"] _ "café:x" _ _ _) _);
    [repeat constructor|vm_compute; reflexivity..|repeat constructor].
Defined.

(** A channel that [validateChannel] accepts and a pattern on which the two
    matchers differ. *)
Example zero_byte_differs :
  let channel := String "a" (String zero "b") in
  let pattern := String "a" (String zero "*") in
  validateChannel channel = Ok tt ∧ valid_utf8 channel = true ∧ valid_utf8 pattern = true ∧
  MatchChannel pattern channel = true ∧
  ∃ f, channelFilter [pattern] = Ok f ∧ eval_filter f channel = false.
Proof. split_and!; [vm_compute; reflexivity..|]. eexists. split; vm_compute; reflexivity. Qed.
