(* ===== verification/EventLog.v ===== *)
(** The events table: publishing, gap rule, cursors, retention and the admin
    reads and purges ([lytecache-go/events.go], [events_admin.go]). *)

From S2P Require Import Prelude GoStd Values Store Engine Channels.
Open Scope Z_scope.

(** ** Constants (events.go, sweep.go) *)

Definition eventsBatch : nat := 500.
Definition maxIdleInterval : Z := Second.
Definition defaultPoll : Z := 50 * Millisecond.
Definition defaultRetention : Z := Hour.
Definition defaultKeyCap : Z := 100.
Definition cacheChannel : string := "__cache__".
Definition maxDispatchDepth : Z := 8.
Definition subscriptionQueue : nat := 256.
Definition sweepBatchSize : nat := 500.
#[global] Arguments sweepBatchSize : simpl never.
#[global] Arguments eventsBatch : simpl never.

Lemma sweepBatchSize_pos : (0 < sweepBatchSize)%nat.
Proof. unfold sweepBatchSize. lia. Qed.

(** ** Statements on the events table *)

Definition seqs_of (t : event_table) : list Z := (et_rows t).*1.

(** [SELECT min(seq)], [SELECT max(seq)]. *)
Definition min_seq (t : event_table) : option Z := head (seqs_of t).
Definition max_of (l : list Z) : option Z := last l.

(** The [seq] AUTOINCREMENT assigns: one more than any ever assigned. *)
Definition next_seq (t : event_table) : Z :=
  1 + Z.max (default 0 (et_seq t)) (default 0 (max_of (seqs_of t))).

(** [INSERT INTO events]; it fails when the seq space is used up. *)
Definition insert_event (r : event_row) (t : event_table) : option Z * event_table :=
  let s := next_seq t in
  if MaxInt64 <? s then (None, t)
  else (Some s, EventTable (et_rows t ++ [(s, r)]) (Some s)).

(** [DELETE FROM events WHERE seq IN (SELECT seq FROM events WHERE cond
    ORDER BY seq LIMIT n)]: [seq] is the key, so this removes the first [n]
    rows that satisfy the condition. *)
Fixpoint remove_first (n : nat) (cond : Z * event_row → bool)
    (l : list (Z * event_row)) : nat * list (Z * event_row) :=
  match l with
  | [] => (0%nat, [])
  | x :: l =>
      if cond x then
        match n with
        | O => (0%nat, x :: l)
        | S n => let '(k, l') := remove_first n cond l in (S k, l')
        end
      else let '(k, l') := remove_first n cond l in (k, x :: l')
  end.
Definition delete_batch (cond : Z * event_row → bool) (t : event_table) : Z * event_table :=
  let '(k, l) := remove_first sweepBatchSize cond (et_rows t) in
  (Z.of_nat k, EventTable l (et_seq t)).

(** [CREATE TABLE IF NOT EXISTS events; ...; INSERT OR IGNORE INTO meta]. *)
Definition create_events (d : Database) : Database :=
  Db (db_cache d)
     (match db_meta d !! "events_version" with
      | Some _ => db_meta d
      | None => <["events_version" := "1"]> (db_meta d)
      end)
     (Some (default (EventTable [] None) (db_events d))).

(** A statement that needs the table; without it the driver reports an error. *)
Definition on_events {A} (f : event_table → A * event_table) (d : Database)
    : option A * Database :=
  match db_events d with
  | None => (None, d)
  | Some t => let '(a, t') := f t in (Some a, set_events (Some t') d)
  end.
Definition read_events {A} (f : event_table → A) (d : Database) : option A :=
  f <$> db_events d.

Lemma on_events_cache {A} (f : event_table → A * event_table) d :
  db_cache (on_events f d).2 = db_cache d.
Proof. unfold on_events. destruct (db_events d); [|done]. by destruct (f _). Qed.

(** [lastAssignedSeq]: the [sqlite_sequence] entry, 0 if there is none. *)
Definition lastAssignedSeq (t : event_table) : Z := default 0 (et_seq t).

Definition newGap (requested oldest : Z) (ahead : bool) : gap_error :=
  GapError requested oldest (oldest - 1) ahead.

(** [gapCheck], in the read transaction that also fetches the batch. *)
Definition gapCheck (t : event_table) (cursor : Z) : option gap_error :=
  let last := lastAssignedSeq t in
  if last <? cursor then Some (newGap cursor (last + 1) true)
  else
    let o := default (last + 1) (min_seq t) in
    if cursor <? o - 1 then Some (newGap cursor o false) else None.

(** ** Events and publishing *)

Record Event := MkEvent {
  Seq : Z;
  Channel : string;
  EvNamespace : string;
  CreatedAt : Z;
  Payload : string;
  PayloadType : Z;
  Null : bool
}.
#[global] Instance Event_eq_dec : EqDecision Event.
Proof. solve_decision. Defined.

(** [scanEvent]: a NULL payload and a JSON [null] both read as null. *)
Definition scanEvent (p : Z * event_row) : Event :=
  let '(s, r) := p in
  let null := match ev_payload r with
              | None => true
              | Some b => (ev_value_type r =? typeJSON) && String.eqb b "null"
              end in
  MkEvent s (ev_channel r) (ev_namespace r) (ev_created_at r)
    (default "" (ev_payload r)) (ev_value_type r) null.

Section eventlog.
Context {H : Host} {GL : GoLib}.

(** Fuel for a loop over the rows present when it starts. *)
Definition event_fuel : M nat := λ w,
  (Ok (S (match db_events (w_db w) with Some t => length (et_rows t) | None => 0%nat end)), w).

Definition or_db_error {A} (o : option A) : M A :=
  match o with Some a => mret a | None => fail ErrDatabase end.

Definition Decode (e : Event) (d : dest) : result (option any) :=
  if Null e then Ok None
  else Some <$> decodeInto (Payload e) (PayloadType e) d.

Definition ensureEvents : M () :=
  p ← get_proc;
  if p_eventsReady p then mret tt
  else exec (λ d, (tt, create_events d)) ;; mod_proc (set_eventsReady true).

Definition eventsExist : M bool :=
  p ← get_proc;
  if p_eventsReady p then mret true
  else
    r ← attempt (query (λ d, bool_decide (is_Some (db_events d))));
    match r with
    | inr true => mod_proc (set_eventsReady true) ;; mret true
    | _ => mret false
    end.

(** [Notification]: a channel and a payload. *)
Abbreviation Notification := (string * any)%type.

Fixpoint encode_all (events : list Notification) : result (list (string * string * Z)) :=
  match events with
  | [] => Ok []
  | (ch, payload) :: es =>
      '(data, vt) ← encodeValue payload;
      rows ← encode_all es;
      Ok ((ch, data, vt) :: rows)
  end.

(** The [insert] closure: one INSERT per row, the assigned seqs in order. *)
Fixpoint insert_rows (ns : string) (now : Z) (rows : list (string * string * Z)) : M (list Z) :=
  match rows with
  | [] => mret []
  | (ch, data, vt) :: rows =>
      o ← exec (on_events (insert_event (EventRow ch ns (Some data) vt now)));
      s ← or_db_error (mjoin o);
      ss ← insert_rows ns now rows;
      mret (s :: ss)
  end.

(** [poke] every subscription: the wake channel holds at most one signal. *)
Definition poke_all (p : Proc) : Proc := set_wake ((λ _, true) <$> p_wake p) p.

Definition insertEvents (c : Cache) (events : list Notification) : M (list Z) :=
  rows ← lift (encode_all events);
  ensureEvents ;;
  now ← nowMillis;
  seqs ← (if bool_decide (length rows = 1%nat)
          then insert_rows (namespace c) now rows
          else inTx (insert_rows (namespace c) now rows));
  mod_proc poke_all ;;
  mret seqs.

Definition Notify (c : Cache) (channel : string) (payload : any) : M Z :=
  lift (validateChannel channel) ;;
  seqs ← insertEvents c [(channel, payload)];
  match seqs with s :: _ => mret s | [] => hang end.

Fixpoint validate_all (events : list Notification) : result () :=
  match events with
  | [] => Ok tt
  | (ch, _) :: es => validateChannel ch ;; validate_all es
  end.

Definition NotifyMany (c : Cache) (events : list Notification) : M (list Z) :=
  lift (validate_all events) ;;
  match events with
  | [] => mret []
  | _ => insertEvents c events
  end.

(** ** Cursors *)

Definition cursor_key (ns name : string) : string := "cursor:" +:+ ns +:+ ":" +:+ name.

Definition SaveCursor (c : Cache) (name : string) (seq : Z) : M () :=
  exec (λ d, (tt, set_meta (<[cursor_key (namespace c) name := FormatInt seq]> (db_meta d)) d)).

Definition LoadCursor (c : Cache) (name : string) : M (option Z) :=
  v ← query (λ d, db_meta d !! cursor_key (namespace c) name);
  match v with
  | None => mret None
  | Some v => match Sscan v with Some n => mret (Some n) | None => fail ErrParse end
  end.

(** ** Retention *)

(** [SELECT max(seq) FROM events WHERE created_at <= ?] *)
Definition max_seq_where (f : event_row → bool) (t : event_table) : option Z :=
  max_of (List.filter (λ p, f p.2) (et_rows t)).*1.

(** [SELECT seq FROM events ORDER BY seq DESC LIMIT 1 OFFSET ?] *)
Definition seq_at_offset (n : Z) (t : event_table) : option Z :=
  reverse (seqs_of t) !! Z.to_nat n.

(** [deleteEventsBatched]: on an error the count so far is returned with it. *)
Fixpoint delete_loop (fuel : nat) (cond : Z * event_row → bool) (total : Z)
    : M (Z * option error) :=
  match fuel with
  | O => hang
  | S fuel =>
      r ← attempt (o ← exec (on_events (delete_batch cond)); or_db_error o);
      match r with
      | inl e => mret (total, Some e)
      | inr n =>
          if n <? Z.of_nat sweepBatchSize then mret (total + n, None)
          else delete_loop fuel cond (total + n)
      end
  end.

(** The cap bound replaces the age bound when it is higher. *)
Definition cap_bound (bound : option Z) (capBound : option Z) : option Z :=
  match capBound with
  | None => bound
  | Some cb => match bound with
               | None => Some cb
               | Some b => if b <? cb then Some cb else Some b
               end
  end.

(** The newest seq to delete: by age, raised by the row cap. *)
Definition retention_bound (c : Cache) : M (option Z) :=
  now ← nowMillis;
  o ← query (read_events (max_seq_where
        (λ r, ev_created_at r <=? now - Milliseconds (eventRetention c))));
  bound ← or_db_error o;
  if 0 <? eventMaxCount c then
    r ← attempt (o ← query (read_events (seq_at_offset (eventMaxCount c)));
                 or_db_error o);
    match r with
    | inr cb => mret (cap_bound bound cb)
    | inl _ => mret bound
    end
  else mret bound.

Definition delete_to (bound : option Z) : M () :=
  match bound with
  | None => mret tt
  | Some b =>
      fuel ← event_fuel;
      _ ← delete_loop fuel (λ p, p.1 <=? b) 0;
      mret tt
  end.

(** Errors are logged by the code and end the pass. *)
Definition sweepEvents (c : Cache) : M () :=
  exists_ ← eventsExist;
  if negb exists_ then mret tt
  else
    _ ← attempt (bound ← retention_bound c; delete_to bound);
    mret tt.
End eventlog.

(** ** Lemmas: deletion in batches *)

Abbreviation not_cond cond := (λ p : Z * event_row, negb (cond p)).

Lemma remove_first_spec n cond l :
  (remove_first n cond l).1 = Nat.min n (count_if cond l) ∧
  count_if cond (remove_first n cond l).2 = (count_if cond l - (remove_first n cond l).1)%nat ∧
  List.filter (not_cond cond) (remove_first n cond l).2 = List.filter (not_cond cond) l.
Proof.
  revert n. unfold count_if. induction l as [|x l IH]; intros n; simpl; [auto with lia|].
  destruct (cond x) eqn:E; simpl.
  - destruct n as [|n]; simpl; [rewrite E; simpl; auto with lia|].
    specialize (IH n). destruct (remove_first n cond l) as [k l']; simpl in *.
    destruct IH as (-> & -> & ->). auto with lia.
  - specialize (IH n). destruct (remove_first n cond l) as [k l']; simpl in *.
    rewrite E. simpl. destruct IH as (-> & -> & ->). auto.
Qed.

Lemma filter_not_all cond (l : list (Z * event_row)) :
  count_if cond l = 0%nat → List.filter (not_cond cond) l = l.
Proof.
  unfold count_if. induction l as [|x l IH]; simpl; [done|].
  destruct (cond x); simpl; [done|]. intros. by rewrite IH.
Qed.

Definition keep_events (cond : Z * event_row → bool) (t : event_table) : event_table :=
  EventTable (List.filter (not_cond cond) (et_rows t)) (et_seq t).

Section delete_loop.
Context {H : Host} `{HQ : !Quiet H}.

(** The batched deletion removes every row of the condition, whatever their
    number, and counts them. *)
Lemma delete_loop_spec fuel cond total w t (Q : result (Z * option error) → World → Prop) :
  db_events (w_db w) = Some t →
  (count_if cond (et_rows t) < fuel)%nat →
  (∀ w', w_db w' = set_events (Some (keep_events cond t)) (w_db w) →
         w_proc w' = w_proc w → w_intx w' = w_intx w →
         Q (Ok (total + Z.of_nat (count_if cond (et_rows t)), None)) w') →
  wp (delete_loop fuel cond total) w Q.
Proof using HQ.
  revert total w t. pose proof sweepBatchSize_pos as Hpos.
  induction fuel as [|fuel IH]; intros total w t Ht Hf HQ'; [lia|].
  cbn [delete_loop]. wp_go. unfold on_events. rewrite !Ht. unfold delete_batch.
  pose proof (remove_first_spec sweepBatchSize cond (et_rows t)) as (Hk & Hc & Hr).
  destruct (remove_first sweepBatchSize cond (et_rows t)) as [k l] eqn:E.
  cbn [fst snd or_db_error] in *. wp_go.
  destruct (Z.ltb_spec (Z.of_nat k) (Z.of_nat sweepBatchSize)) as [Hlt|Hge].
  - rewrite Nat.min_r in Hk by lia. subst k. wp_go.
    apply HQ'; [|done..]. simpl. unfold keep_events.
    rewrite <- Hr, filter_not_all by lia. done.
  - assert (sweepBatchSize ≤ count_if cond (et_rows t))%nat as Hle by lia.
    rewrite Nat.min_l in Hk by lia. subst k. eapply IH; [done|simpl; lia|].
    simpl. intros w' Hd Hp Hx.
    replace (total + Z.of_nat sweepBatchSize + Z.of_nat (count_if cond l))
      with (total + Z.of_nat (count_if cond (et_rows t))) by lia.
    apply HQ'; [|done..]. rewrite Hd. unfold keep_events. simpl. by rewrite Hr.
Qed.
End delete_loop.

(** ** The log invariant

    Seqs are positive, strictly increasing in table order and never exceed the
    last one assigned. *)
Definition log_wf (t : event_table) : Prop :=
  sorted_keys (et_rows t) ∧
  Forall (λ p : Z * event_row, 0 < p.1 ≤ lastAssignedSeq t) (et_rows t) ∧
  0 ≤ lastAssignedSeq t.

Lemma log_wf_empty : log_wf (EventTable [] None).
Proof. split_and!; [constructor|constructor|done]. Qed.

Lemma last_fmap_fst {A} (l : list (Z * A)) : last l.*1 = fst <$> last l.
Proof. apply fmap_last. Qed.

Lemma next_seq_wf t : log_wf t → next_seq t = lastAssignedSeq t + 1.
Proof.
  intros (_ & Hf & Hl). unfold next_seq, max_of, seqs_of. fold (lastAssignedSeq t).
  rewrite last_fmap_fst. destruct (last (et_rows t)) as [p|] eqn:E; simpl; [|lia].
  apply last_Some_elem_of in E. rewrite Forall_forall in Hf. apply Hf in E. lia.
Qed.

Definition append_event (r : event_row) (t : event_table) : event_table :=
  EventTable (et_rows t ++ [(lastAssignedSeq t + 1, r)]) (Some (lastAssignedSeq t + 1)).

Lemma insert_event_wf r t : log_wf t → lastAssignedSeq t < MaxInt64 →
  insert_event r t = (Some (lastAssignedSeq t + 1), append_event r t).
Proof.
  intros Hwf Hm. unfold insert_event. rewrite next_seq_wf by done.
  rewrite (proj2 (Z.ltb_ge _ _)) by lia. done.
Qed.

Lemma lastAssignedSeq_append r t :
  lastAssignedSeq (append_event r t) = lastAssignedSeq t + 1.
Proof. done. Qed.

Lemma append_event_wf r t : log_wf t → log_wf (append_event r t).
Proof.
  intros (Hs & Hf & Hl). unfold log_wf, append_event, lastAssignedSeq in *; simpl. split_and!; [| |lia].
  - apply sorted_keys_app. split_and!; [|done|repeat constructor].
    intros p q Hp ->%list_elem_of_singleton. rewrite Forall_forall in Hf.
    apply Hf in Hp. simpl. lia.
  - apply Forall_app. split;
      [|apply Forall_singleton; unfold lastAssignedSeq in *; simpl; lia].
    eapply Forall_impl; [exact Hf|]. intros p Hp.
    unfold lastAssignedSeq in *. simpl in *. lia.
Qed.

Lemma keep_events_wf cond t : log_wf t → log_wf (keep_events cond t).
Proof.
  intros (Hs & Hf & Hl). split_and!; simpl; [by apply sorted_keys_filter| |done].
  rewrite Forall_forall in *. intros p [_ Hp]%elem_of_bfilter. by apply Hf.
Qed.

(** The events appended by publishing [rows] at time [now]. *)
Fixpoint append_events (ns : string) (now : Z) (rows : list (string * string * Z))
    (t : event_table) : event_table :=
  match rows with
  | [] => t
  | (ch, data, vt) :: rows =>
      append_events ns now rows (append_event (EventRow ch ns (Some data) vt now) t)
  end.

Lemma seqZ_S m n : seqZ m (Z.of_nat (S n)) = m :: seqZ (m + 1) (Z.of_nat n).
Proof. rewrite seqZ_cons by lia. do 2 f_equal; lia. Qed.

Lemma append_events_rows ns now rows t :
  et_rows (append_events ns now rows t) =
  et_rows t ++ zip (seqZ (lastAssignedSeq t + 1) (Z.of_nat (length rows)))
                   ((λ r, EventRow r.1.1 ns (Some r.1.2) r.2 now) <$> rows) ∧
  lastAssignedSeq (append_events ns now rows t) = lastAssignedSeq t + Z.of_nat (length rows).
Proof.
  revert t. induction rows as [|[[ch data] vt] rows IH]; intros t.
  { simpl. rewrite app_nil_r. split; [done|lia]. }
  cbn [append_events length].
  destruct (IH (append_event (EventRow ch ns (Some data) vt now) t)) as [-> ->].
  rewrite lastAssignedSeq_append. split; [|lia].
  rewrite seqZ_S. cbn [append_event et_rows zip zip_with fmap list_fmap].
  by rewrite <- app_assoc.
Qed.
Lemma append_events_wf ns now rows t : log_wf t → log_wf (append_events ns now rows t).
Proof.
  revert t. induction rows as [|[[ch data] vt] rows IH]; intros t Ht; simpl; [done|].
  by apply IH, append_event_wf.
Qed.

Section publish.
Context {H : Host} `{HQ : !Quiet H}.

Lemma insert_rows_spec ns now rows w t (Q : result (list Z) → World → Prop) :
  db_events (w_db w) = Some t → log_wf t →
  lastAssignedSeq t + Z.of_nat (length rows) ≤ MaxInt64 →
  (∀ w', w_db w' = set_events (Some (append_events ns now rows t)) (w_db w) →
         w_proc w' = w_proc w → w_intx w' = w_intx w →
         Q (Ok (seqZ (lastAssignedSeq t + 1) (Z.of_nat (length rows)))) w') →
  wp (insert_rows ns now rows) w Q.
Proof using HQ.
  revert w t Q. induction rows as [|[[ch data] vt] rows IH];
    intros w t Q Ht Hwf Hm HQ'; cbn [insert_rows].
  { wp_go. apply HQ'; [|done..]. destruct (w_db w); simpl in *. by subst. }
  simpl in Hm. wp_go. unfold on_events. rewrite !Ht.
  rewrite insert_event_wf by (done || lia). cbn [fst snd mjoin option_join or_db_error].
  wp_go. eapply IH; [done|by apply append_event_wf| |].
  { rewrite lastAssignedSeq_append. lia. }
  intros w' Hd Hp Hx. wp_go. rewrite lastAssignedSeq_append.
  cbn [length] in HQ'. rewrite seqZ_S in HQ'.
  apply HQ'; [by rewrite Hd|done..].
Qed.
End publish.

(** ** Publishing *)

(** The table a method will see: a missing one is created empty on first use. *)
Definition events_of (d : Database) : event_table :=
  default (EventTable [] None) (db_events d).
(** The [eventsReady] flag is set only once the table exists. *)
Definition ready_ok (w : World) : Prop :=
  p_eventsReady (w_proc w) = true → is_Some (db_events (w_db w)).

Section publishing.
Context {H : Host} {GL : GoLib}.

Lemma ensureEvents_spec `{!Quiet H} w (Q : result () → World → Prop) :
  ready_ok w →
  (∀ w', db_events (w_db w') = Some (events_of (w_db w)) →
         db_cache (w_db w') = db_cache (w_db w) →
         w_proc w' = set_eventsReady true (w_proc w) → w_intx w' = w_intx w →
         Q (Ok tt) w') →
  wp ensureEvents w Q.
Proof.
  intros Hr HQ'. unfold ensureEvents. wp_go.
  destruct (p_eventsReady (w_proc w)) eqn:E.
  - wp_go. destruct (Hr E) as [t Ht]. apply HQ'; [|done| |done].
    + unfold events_of. by rewrite Ht.
    + by destruct w as [d []]; simpl in *; subst.
  - wp_go. by apply HQ'.
Qed.

Lemma encode_all_length events rows :
  encode_all events = Ok rows → length rows = length events.
Proof.
  revert rows. induction events as [|[ch v] events IH]; intros rows; simpl.
  { by intros [= <-]. }
  destruct (encodeValue v) as [[data vt]| |]; simpl; [|done..].
  destruct (encode_all events); simpl; [|done..].
  intros [= <-]. simpl. f_equal. by apply IH.
Qed.

Lemma insertEvents_spec `{!Quiet H} c events rows w (Q : result (list Z) → World → Prop) :
  ready_ok w → log_wf (events_of (w_db w)) → w_intx w = false →
  encode_all events = Ok rows →
  lastAssignedSeq (events_of (w_db w)) + Z.of_nat (length events) ≤ MaxInt64 →
  (∀ w' n, db_events (w_db w') =
             Some (append_events (namespace c) (clock n) rows (events_of (w_db w))) →
         db_cache (w_db w') = db_cache (w_db w) →
         w_proc w' = poke_all (set_eventsReady true (w_proc w)) → w_intx w' = false →
         Q (Ok (seqZ (lastAssignedSeq (events_of (w_db w)) + 1)
                     (Z.of_nat (length events)))) w') →
  wp (insertEvents c events) w Q.
Proof.
  intros Hr Hwf Hx He Hm HQ'. unfold insertEvents. wp_go. rewrite He.
  pose proof (encode_all_length _ _ He) as Hl. rewrite <- Hl in Hm, HQ'.
  wp_go. apply ensureEvents_spec; [done|]. intros w1 Hd1 Hc1 Hp1 Hx1. wp_go.
  assert (∀ w2, w_db w2 = w_db w1 → w_proc w2 = w_proc w1 →
    wp (insert_rows (namespace c) (clock (w_step w1)) rows) w2 (λ r w3,
      r = Ok (seqZ (lastAssignedSeq (events_of (w_db w)) + 1) (Z.of_nat (length rows))) ∧
      w_db w3 = set_events (Some (append_events (namespace c) (clock (w_step w1)) rows
                                    (events_of (w_db w)))) (w_db w1) ∧
      w_proc w3 = w_proc w1 ∧ w_intx w3 = w_intx w2)) as Hins.
  { intros w2 Hd2 Hp2. eapply insert_rows_spec; [by rewrite Hd2|done|lia|].
    intros w3 -> -> ->. by rewrite Hd2, Hp2. }
  assert (∀ w3, w_db w3 = set_events (Some (append_events (namespace c) (clock (w_step w1))
                   rows (events_of (w_db w)))) (w_db w1) →
    w_proc w3 = w_proc w1 → w_intx w3 = false →
    Q (Ok (seqZ (lastAssignedSeq (events_of (w_db w)) + 1) (Z.of_nat (length rows))))
      (with_proc (poke_all (w_proc w3)) w3)) as HQ2.
  { intros w3 Hd Hp Hx3. apply (HQ' _ (w_step w1)); simpl;
      [by rewrite Hd|by rewrite Hd|by rewrite Hp, Hp1|done]. }
  case_bool_decide.
  - eapply wp_mono; [apply (Hins (advance 0 w1)); done|].
    intros r w3 (-> & Hd & Hp & Hx3). wp_go. apply HQ2; [done..|]. simpl in Hx3. congruence.
  - wp_go. eapply wp_mono; [apply Hins; done|].
    intros r w3 (-> & Hd & Hp & Hx3). wp_go. by apply HQ2.
Qed.
End publishing.

(** With a valid channel and an encodable payload, [Notify] appends exactly one
    event, with the next seq, the cache's namespace and the encoded payload;
    it returns that seq, wakes every subscription and leaves the cache table
    alone. *)
Theorem Notify_appends `{H : Host} `{GoLib} `{!Quiet H} (c : Cache) (channel : string)
    (payload : any) (data : string) (vt : Z) (w : World) :
  ready_ok w → log_wf (events_of (w_db w)) → w_intx w = false →
  lastAssignedSeq (events_of (w_db w)) < MaxInt64 →
  validateChannel channel = Ok tt → encodeValue payload = Ok (data, vt) →
  ∃ n w', Notify c channel payload w = (Ok (lastAssignedSeq (events_of (w_db w)) + 1), w') ∧
    db_events (w_db w') =
      Some (append_event (EventRow channel (namespace c) (Some data) vt (clock n))
              (events_of (w_db w))) ∧
    log_wf (events_of (w_db w')) ∧
    db_cache (w_db w') = db_cache (w_db w) ∧
    p_wake (w_proc w') = (λ _, true) <$> p_wake (w_proc w).
Proof.
  intros Hr Hwf Hx Hm Hv He.
  assert (wp (Notify c channel payload) w (λ r w', ∃ n,
    r = Ok (lastAssignedSeq (events_of (w_db w)) + 1) ∧
    db_events (w_db w') =
      Some (append_event (EventRow channel (namespace c) (Some data) vt (clock n))
              (events_of (w_db w))) ∧
    log_wf (events_of (w_db w')) ∧
    db_cache (w_db w') = db_cache (w_db w) ∧
    p_wake (w_proc w') = (λ _, true) <$> p_wake (w_proc w))) as Hwp.
  { unfold Notify. wp_go. rewrite Hv. wp_go.
    eapply insertEvents_spec with (rows := [(channel, data, vt)]); try done.
    - simpl. by rewrite He.
    - simpl. lia.
    - intros w' n Hd Hc Hp Hx'. simpl. wp_go. exists n. split_and!; [done|done| |done|].
      + unfold events_of at 1. rewrite Hd. simpl. by apply append_event_wf.
      + by rewrite Hp. }
  unfold wp in Hwp. destruct Hwp as (n & Hr' & Hrest).
  exists n, (Notify c channel payload w).2. split; [|done].
  rewrite <- Hr'. by destruct (Notify _ _ _ w).
Qed.

Lemma Notify_appends_witness :
  let _ := toy_lib in let _ := still_host 1000 in
  ∃ n w', Notify (demo_cache "default") "jobs" (GInt KInt 7) (init_world empty_db) = (Ok 1, w') ∧
    db_events (w_db w') =
      Some (append_event (EventRow "jobs" "default" (Some "7") typeInt (clock n))
              (events_of empty_db)) ∧
    log_wf (events_of (w_db w')) ∧
    db_cache (w_db w') = db_cache empty_db ∧
    p_wake (w_proc w') = (λ _, true) <$> p_wake init_proc.
Proof.
  intros lib host.
  apply (@Notify_appends host lib (still_quiet 1000) (demo_cache "default") "jobs" (GInt KInt 7));
    [done|apply log_wf_empty|done|done|vm_compute; reflexivity..].
Defined.

Lemma ensureEvents_events `{H : Host} `{!Alone H} w :
  events_of (w_db (ensureEvents w).2) = events_of (w_db w).
Proof.
  unfold ensureEvents, mbind, M_bind. simpl. destruct (p_eventsReady (w_proc w)); simpl; [done|].
  unfold exec. rewrite refresh_alone. destruct (fault _); simpl; [done|].
  unfold events_of. simpl. done.
Qed.

(** One INSERT that fails leaves the table alone. *)
Lemma insert_rows_single_error `{H : Host} `{!Alone H} ns now rows w :
  length rows = 1%nat → is_ok (insert_rows ns now rows w).1 = false →
  events_of (w_db (insert_rows ns now rows w).2) = events_of (w_db w).
Proof.
  destruct rows as [|[[ch data] vt] [|]]; try done. intros _. cbn [insert_rows].
  unfold mbind, M_bind, exec. rewrite refresh_alone. destruct (fault _); [done|].
  unfold on_events, insert_event. destruct (db_events (w_db w)) as [t|] eqn:E; simpl; [|done].
  destruct (MaxInt64 <? next_seq t); simpl; [|done].
  intros _. unfold events_of. simpl. by rewrite E.
Qed.

(** [NotifyMany] is all or nothing: whichever statement the driver fails, when
    it returns an error no event has been added. *)
Theorem NotifyMany_atomic `{H : Host} `{GoLib} `{!Alone H} (c : Cache)
    (events : list (string * any)) (w : World) (e : error) :
  (NotifyMany c events w).1 = Err e →
  events_of (w_db (NotifyMany c events w).2) = events_of (w_db w).
Proof.
  unfold NotifyMany, insertEvents, lift, mbind, M_bind.
  destruct (validate_all events) as [[]| |]; [|done..].
  destruct events as [|ev events]; [done|].
  destruct (encode_all (ev :: events)) as [rows| |]; [|done..].
  pose proof (ensureEvents_events w) as He.
  destruct (ensureEvents w) as [[[]| |] w1]; simpl in *; [|done..].
  case_bool_decide as Hl.
  - pose proof (insert_rows_single_error (namespace c) (clock (w_step w1)) rows (advance 0 w1) Hl) as Hi.
    destruct (insert_rows _ _ _ _) as [[]]; simpl in *; [done|intros _; by rewrite Hi..].
  - pose proof (inTx_rollback (insert_rows (namespace c) (clock (w_step w1)) rows) (advance 0 w1)) as Hi.
    destruct (inTx _ _) as [[]]; simpl in *; [done|intros _; by rewrite Hi..].
Qed.

Lemma NotifyMany_atomic_witness :
  let _ := toy_lib in let _ := faulty_host 0 (λ n, Nat.eqb n 4) in
  let w := init_world (set_events (Some (EventTable [] None)) empty_db) in
  (NotifyMany (demo_cache "default") [("a", GString "x"); ("b", GString "y")] w).1
    = Err ErrDatabase ∧
  events_of (w_db (NotifyMany (demo_cache "default") [("a", GString "x"); ("b", GString "y")] w).2)
  = EventTable [] None.
Proof.
  intros lib host w.
  assert ((NotifyMany (demo_cache "default") [("a", GString "x"); ("b", GString "y")] w).1
    = Err ErrDatabase) as He by (vm_compute; reflexivity).
  split; [exact He|].
  exact (@NotifyMany_atomic host lib (faulty_alone 0 _) _ _ w _ He).
Defined.

(** ** Retention *)

Lemma reverse_lookup_split {A} (l : list A) n x :
  reverse l !! n = Some x → ∃ l1 l2, l = l1 ++ x :: l2 ∧ length l2 = n.
Proof.
  intros (k1 & k2 & Hl & Hn)%list_elem_of_split_length.
  exists (reverse k2), (reverse k1). rewrite length_reverse. split; [|done].
  rewrite <- (reverse_involutive l), Hl, reverse_app, reverse_cons, <- app_assoc. done.
Qed.

(** The rows after a bound. *)
Definition after_bound (b : option Z) (t : event_table) : event_table :=
  match b with Some b => keep_events (λ p, p.1 <=? b) t | None => t end.

Lemma after_bound_prefix b t : log_wf t →
  ∃ dropped, et_rows t = dropped ++ et_rows (after_bound b t) ∧
    ∀ p, p ∈ dropped → ∃ b', b = Some b' ∧ p.1 ≤ b'.
Proof.
  intros (Hs & _ & _). destruct b as [b|]; simpl; [|by exists []; split; [|intros p ?%elem_of_nil]].
  exists (List.filter (λ p, p.1 <=? b) (et_rows t)).
  split; [by apply sorted_keys_split|].
  intros p [Hp _]%elem_of_bfilter. bool_to_prop. eauto.
Qed.

Lemma elem_of_after_bound b t p :
  p ∈ et_rows (after_bound b t) → p ∈ et_rows t ∧ ∀ b', b = Some b' → b' < p.1.
Proof.
  destruct b as [b|]; simpl; [|done].
  intros [Hb Hp]%elem_of_bfilter. bool_to_prop. split; [done|]. by intros ? [= <-].
Qed.

Lemma last_sorted_max (l : list Z) x b :
  StronglySorted Z.lt l → last l = Some b → x ∈ l → x ≤ b.
Proof.
  intros Hs (k & ->)%last_Some. apply StronglySorted_app in Hs as (Hs & _ & _).
  rewrite elem_of_app, list_elem_of_singleton. intros [Hx| ->]; [|lia].
  apply Z.lt_le_incl, Hs; [done|by left].
Qed.

Lemma max_seq_where_spec f t p b : log_wf t →
  max_seq_where f t = b → p ∈ et_rows t → f p.2 = true → ∃ b', b = Some b' ∧ p.1 ≤ b'.
Proof.
  intros (Hs & _ & _) <- Hp Hf. unfold max_seq_where, max_of.
  assert (p.1 ∈ (List.filter (λ p, f p.2) (et_rows t)).*1) as Hin.
  { apply list_elem_of_fmap_2, elem_of_bfilter. done. }
  destruct (last _) as [b'|] eqn:E.
  - exists b'. split; [done|]. eapply last_sorted_max; [|done|done].
    by apply sorted_keys_filter.
  - apply last_None in E. rewrite E in Hin. by apply elem_of_nil in Hin.
Qed.

Lemma max_seq_where_elem f t b : max_seq_where f t = Some b →
  ∃ r, (b, r) ∈ et_rows t ∧ f r = true.
Proof.
  unfold max_seq_where, max_of. intros Hl%last_Some_elem_of.
  apply list_elem_of_fmap in Hl as ([s r] & -> & [Hf Hin]%elem_of_bfilter). eauto.
Qed.

(** What the row [n] places from the end bounds. *)
Lemma seq_at_offset_keeps n t b : log_wf t → 0 ≤ n →
  (∀ cb, seq_at_offset n t = Some cb → ∃ b', b = Some b' ∧ cb ≤ b') →
  Z.of_nat (length (et_rows (after_bound b t))) ≤ n.
Proof.
  intros Hwf Hn Hb. destruct (after_bound_prefix b t Hwf) as (dr & Heq & _).
  destruct (seq_at_offset n t) as [cb|] eqn:E.
  - destruct (Hb cb eq_refl) as (b' & -> & Hle). unfold seq_at_offset, seqs_of in E.
    apply reverse_lookup_split in E as (l1 & l2 & Hl & Hlen).
    symmetry in Hl. rename Hl into Hl'.
    assert (∃ r1 x r2, et_rows t = r1 ++ x :: r2 ∧ x.1 = cb ∧ length r2 = length l2) as
      (r1 & x & r2 & Hr & Hx & Hr2).
    { clear -Hl'. symmetry in Hl'. apply fmap_app_inv in Hl' as (r1 & r & -> & Hr & ->).
      destruct r as [|x r2]; [done|]. simplify_eq/=. exists r1, x, r2.
      by rewrite length_fmap. }
    simpl. rewrite Hr, List.filter_app. destruct Hwf as (Hs & _ & _).
    rewrite Hr in Hs. apply sorted_keys_app in Hs as (Hlt & _ & _).
    rewrite bfilter_none.
    2:{ intros y Hy. specialize (Hlt y x Hy ltac:(left)). rewrite negb_false_iff.
        apply Z.leb_le. lia. }
    simpl. rewrite (proj2 (Z.leb_le _ _)) by lia. simpl.
    pose proof (List.filter_length_le (λ p : Z * event_row, negb (p.1 <=? b')) r2). lia.
  - unfold seq_at_offset, seqs_of in E. apply lookup_ge_None in E.
    rewrite length_reverse, length_fmap, Heq, length_app in E. lia.
Qed.

(** The rows that an age bound and a cap leave in the table. *)
Definition retained (retention cap now : Z) (t : event_table) : event_table :=
  let b := max_seq_where (λ r, ev_created_at r <=? now - Milliseconds retention) t in
  after_bound (if 0 <? cap then cap_bound b (seq_at_offset cap t) else b) t.

Lemma after_bound_seq b t : et_seq (after_bound b t) = et_seq t.
Proof. by destruct b. Qed.

Lemma retained_old retention cap now t p : log_wf t →
  p ∈ et_rows (retained retention cap now t) →
  p ∈ et_rows t ∧ now - Milliseconds retention < ev_created_at p.2.
Proof.
  intros Hwf [Hp Hb]%elem_of_after_bound. split; [done|].
  destruct (decide (ev_created_at p.2 ≤ now - Milliseconds retention)) as [Hle|]; [|lia].
  destruct (max_seq_where_spec (λ r, ev_created_at r <=? now - Milliseconds retention) t p _ Hwf
    eq_refl Hp ltac:(by apply Z.leb_le)) as (b' & Hb' & Hpb).
  rewrite Hb' in Hb. unfold cap_bound in Hb.
  assert (∃ b'', (if 0 <? cap then match seq_at_offset cap t with
     None => Some b' | Some cb => if b' <? cb then Some cb else Some b' end else Some b')
     = Some b'' ∧ b' ≤ b'') as (b'' & Hb'' & Hle').
  { destruct (0 <? cap); [|eauto with lia]. destruct (seq_at_offset cap t) as [cb|]; [|eauto with lia].
    destruct (Z.ltb_spec b' cb); eauto with lia. }
  specialize (Hb b'' Hb''). lia.
Qed.

Lemma retained_cap retention cap now t : log_wf t → 0 < cap →
  Z.of_nat (length (et_rows (retained retention cap now t))) ≤ cap.
Proof.
  intros Hwf Hc. unfold retained. rewrite (proj2 (Z.ltb_lt _ _)) by done.
  apply seq_at_offset_keeps; [done|lia|]. intros cb ->. unfold cap_bound.
  destruct (max_seq_where _ t) as [b|]; [|eauto with lia].
  destruct (Z.ltb_spec b cb); eauto with lia.
Qed.

(** The row [n] places from the end has [n] rows after it. *)
Lemma seq_at_offset_rows n t cb : log_wf t → 0 ≤ n → seq_at_offset n t = Some cb →
  cb ∈ seqs_of t ∧ n ≤ Z.of_nat (length (et_rows (after_bound (Some cb) t))).
Proof.
  intros (Hs & _ & _) Hn E. unfold seq_at_offset, seqs_of in *.
  apply reverse_lookup_split in E as (l1 & l2 & Hl & Hlen).
  apply fmap_app_inv in Hl as (r1 & r & -> & Hr & Heq). destruct r as [|x r2]; [done|]. simplify_eq/=.
  rewrite Heq in Hs |- *. split; [rewrite fmap_app; apply elem_of_app; right; by left|].
  apply sorted_keys_app in Hs as (_ & _ & Hs). apply StronglySorted_cons in Hs as [Hall _].
  rewrite List.filter_app, length_app. simpl. rewrite (proj2 (Z.leb_le _ _)) by lia. simpl.
  rewrite (bfilter_all _ r2); [rewrite length_fmap in Hlen; lia|].
  intros y Hy. apply negb_true_iff, Z.leb_gt. rewrite Forall_forall in Hall.
  apply Hall. by apply list_elem_of_fmap_2.
Qed.

(** Nothing is removed without need: the newest event that is gone was too old,
    or the events after it fill the cap. *)
Lemma retained_needed retention cap now t front p : log_wf t →
  et_rows t = front ++ p :: et_rows (retained retention cap now t) →
  ev_created_at p.2 ≤ now - Milliseconds retention ∨
  0 < cap ∧ cap ≤ Z.of_nat (length (et_rows (retained retention cap now t))).
Proof.
  intros Hwf Heq. set (b := max_seq_where (λ r, ev_created_at r <=? now - Milliseconds retention) t) in *.
  pose proof Hwf as (Hs & _ & _). rewrite Heq in Hs.
  apply sorted_keys_app in Hs as (Hfront & _ & Hs). apply StronglySorted_cons in Hs as [Hall _].
  rewrite Forall_forall in Hall.
  assert (∀ q, q ∈ et_rows t → q ∉ et_rows (retained retention cap now t) → q.1 ≤ p.1 ∧ (p.1 ≤ q.1 → q = p)) as Hgone.
  { intros q Hq Hni. rewrite Heq in Hq. apply elem_of_app in Hq as [Hq|[->|Hq]%elem_of_cons]; [|split; [lia|done]|done].
    pose proof (Hfront q p Hq ltac:(left)). split; [lia|lia]. }
  assert (p ∉ et_rows (retained retention cap now t)) as Hp.
  { intros Hp. assert (p.1 < p.1); [|lia]. apply Hall. by apply list_elem_of_fmap_2. }
  assert (Hin : p ∈ et_rows t) by (rewrite Heq; apply elem_of_app; right; by left).
  assert (∀ b' r, (b', r) ∈ et_rows t → retained retention cap now t = after_bound (Some b') t → (b', r) = p) as Hlast.
  { intros b' r Hb Hr. destruct (Hgone (b', r) Hb) as [_ Hsame].
    - rewrite Hr. intros [_ Hlt]%elem_of_after_bound. specialize (Hlt b' eq_refl). simpl in Hlt. lia.
    - apply Hsame. simpl. destruct (Z.le_gt_cases p.1 b') as [|Hgt]; [done|]. exfalso. apply Hp. rewrite Hr. simpl.
      apply elem_of_bfilter. split; [|done]. apply negb_true_iff, Z.leb_gt. lia. }
  assert (∀ b', b = Some b' → retained retention cap now t = after_bound (Some b') t →
    ev_created_at p.2 ≤ now - Milliseconds retention) as Hage.
  { intros b' Hb Hr. apply max_seq_where_elem in Hb as (r & Hb & Hold%Z.leb_le).
    by rewrite <- (Hlast b' r Hb Hr). }
  revert Hlast Hage Hp. unfold retained. fold b.
  destruct (0 <? cap) eqn:Hc; [apply Z.ltb_lt in Hc; destruct (seq_at_offset cap t) as [cb|] eqn:Hcb|].
  - destruct (seq_at_offset_rows cap t cb Hwf ltac:(lia) Hcb) as [_ Hlen].
    simpl. destruct b as [b'|]; simpl; [destruct (Z.ltb_spec b' cb)|]; intros _ Hage _;
      [by right|left; by eapply Hage|by right].
  - simpl. destruct b as [b'|]; intros _ Hage Hp; [left; by eapply Hage|done].
  - destruct b as [b'|]; intros _ Hage Hp; [left; by eapply Hage|done].
Qed.

Lemma grows_delete_to `{H : Host} b : grows (delete_to b).
Proof.
  assert (∀ fuel cond total, grows (delete_loop fuel cond total)) as Hloop.
  { intros fuel cond. induction fuel as [|fuel IH]; intros total; simpl; unfold or_db_error;
      grows_solve; apply IH. }
  unfold delete_to, event_fuel. grows_solve; auto. apply grows_id.
Qed.
Lemma grows_eventsExist `{H : Host} : grows eventsExist.
Proof. unfold eventsExist. grows_solve. Qed.
Section sweep_events.
Context {H : Host} `{HQ : !Quiet H}.

Lemma retention_bound_spec c w t (Q : result (option Z) → World → Prop) :
  db_events (w_db w) = Some t →
  (∀ b w' n, w_db w' = w_db w → w_proc w' = w_proc w → w_intx w' = w_intx w →
     (w_step w ≤ n < w_step w')%nat →
     after_bound b t = retained (eventRetention c) (eventMaxCount c) (clock n) t →
     Q (Ok b) w') →
  wp (retention_bound c) w Q.
Proof using HQ.
  intros Ht HQ'. unfold retention_bound. wp_go. unfold read_events. simpl. rewrite !Ht.
  cbn [fmap option_fmap option_map or_db_error]. wp_go.
  destruct (0 <? eventMaxCount c) eqn:Hcap; wp_go.
  - simpl. rewrite !Ht. cbn [fmap option_fmap option_map or_db_error].
    wp_go. apply (HQ' _ _ (w_step w)); [done..|simpl; lia|]. unfold retained. by rewrite Hcap.
  - apply (HQ' _ _ (w_step w)); [done..|simpl; lia|]. unfold retained. by rewrite Hcap.
Qed.

Lemma delete_to_spec b w t (Q : result () → World → Prop) :
  db_events (w_db w) = Some t →
  (∀ w', db_events (w_db w') = Some (after_bound b t) →
     db_cache (w_db w') = db_cache (w_db w) → w_proc w' = w_proc w →
     w_intx w' = w_intx w → Q (Ok tt) w') →
  wp (delete_to b) w Q.
Proof using HQ.
  intros Ht HQ'. destruct b as [b|]; cbn [delete_to]; [|wp_go; by apply HQ'].
  apply wp_bind. unfold wp at 1, event_fuel. cbn [fst snd]. rewrite Ht. wp_go.
  eapply delete_loop_spec; [done| |].
  { pose proof (count_if_le (λ p, p.1 <=? b) (et_rows t)). lia. }
  intros w' Hd Hp Hx. wp_go. apply HQ'; [by rewrite Hd|by rewrite Hd|done..].
Qed.

Lemma eventsExist_spec w (Q : result bool → World → Prop) :
  ready_ok w →
  (∀ w', w_db w' = w_db w → w_intx w' = w_intx w →
     w_proc w' = (if bool_decide (is_Some (db_events (w_db w)))
                  then set_eventsReady true (w_proc w) else w_proc w) →
     Q (Ok (bool_decide (is_Some (db_events (w_db w))))) w') →
  wp eventsExist w Q.
Proof using HQ.
  intros Hr HQ'. unfold eventsExist. wp_go.
  destruct (p_eventsReady (w_proc w)) eqn:E; wp_go.
  - rewrite !bool_decide_true in HQ' by auto. apply HQ'; [done..|].
    by destruct (w_proc w); simpl in *; subst.
  - case_bool_decide; wp_go; by apply HQ'.
Qed.

Lemma sweepEvents_spec c w (Q : result () → World → Prop) :
  ready_ok w →
  (∀ w' n, (∀ t, db_events (w_db w) = Some t → (w_step w ≤ n < w_step w')%nat) →
           db_events (w_db w') =
             retained (eventRetention c) (eventMaxCount c) (clock n) <$> db_events (w_db w) →
           db_cache (w_db w') = db_cache (w_db w) → w_intx w' = w_intx w →
           ready_ok w' → Q (Ok tt) w') →
  wp (sweepEvents c) w Q.
Proof using HQ.
  intros Hr HQ'. unfold sweepEvents. apply wp_bind, wp_grows; [apply grows_eventsExist|]. apply eventsExist_spec; [done|].
  intros w1 Hd Hx Hp Hg1. destruct (db_events (w_db w)) as [t|] eqn:Ht.
  2:{ rewrite bool_decide_false in * by (intros []; done). wp_go. cbn [negb].
      wp_go. apply (HQ' _ 0%nat); rewrite ?Hd; try done.
      intros Hre. rewrite Hd. apply Hr. by rewrite Hp in Hre. }
  rewrite bool_decide_true by eauto. wp_go. cbn [negb]. wp_go.
  eapply retention_bound_spec; [by rewrite Hd|].
  intros b w2 n Hd2 _ Hx2 Hn Hb. cbn beta iota. eapply wp_grows; [apply grows_delete_to|].
  eapply delete_to_spec; [by rewrite Hd2, Hd|].
  intros w3 Hd3 Hc3 _ Hx3 Hg3. wp_go. apply (HQ' _ n); [intros _ _; simpl in *; lia|by rewrite Hd3, Hb|congruence..|].
  intros _. rewrite Hd3. by eexists.
Qed.
End sweep_events.

(** What [sweepEvents] leaves alone. *)
Lemma frames_sweepEvents `{H : Host} {B} (f : Proc → B) c :
  (∀ p, f (set_eventsReady true p) = f p) → frames f (sweepEvents c).
Proof.
  intros Hf.
  assert (∀ fuel cond total, frames f (delete_loop fuel cond total)) as Hloop.
  { intros fuel cond. induction fuel as [|fuel IH]; intros total; simpl; unfold or_db_error;
      frames_solve; apply IH. }
  unfold sweepEvents, eventsExist, retention_bound, delete_to, event_fuel, or_db_error.
  frames_solve; auto. apply frames_pure.
Qed.

Lemma grows_sweepEvents `{H : Host} c : grows (sweepEvents c).
Proof.
  unfold sweepEvents, retention_bound, or_db_error.
  grows_solve; auto using grows_eventsExist, grows_delete_to.
Qed.

(** In a quiet host it always returns, and the cache table is not touched. *)
Lemma sweepEvents_quiet `{H : Host} `{!Quiet H} c w (Q : result () → World → Prop) :
  (∀ w', db_cache (w_db w') = db_cache (w_db w) → Q (Ok tt) w') → wp (sweepEvents c) w Q.
Proof.
  intros HQ. destruct (decide (is_Some (db_events (w_db w)))) as [Hs|Hn].
  { apply sweepEvents_spec; [by intros _|]. intros. by apply HQ. }
  assert (db_events (w_db w) = None) as Hnone by (by apply eq_None_not_Some).
  unfold sweepEvents, eventsExist. wp_go. destruct (p_eventsReady (w_proc w)); wp_go.
  - cbn [negb]. unfold retention_bound. wp_go. unfold read_events. simpl. rewrite Hnone. simpl.
    wp_go. by apply HQ.
  - simpl. rewrite Hnone. rewrite bool_decide_false by (by intros []). wp_go. cbn [negb].
    wp_go. by apply HQ.
Qed.

(** C14: [sweepEvents] applies the retention policy and nothing else. On any log it ends;
    for one moment of the clock read during the call, it removes a prefix of the
    events (never a hole) and the shortest one that will do: every event that is
    left is younger than the retention, at most [eventMaxCount] events are left
    when a cap is set, and the newest event that is gone was past the retention
    or, with a cap, had as many events after it as the cap allows. The seq
    counter keeps its value so seqs are not reused, the log stays well formed and
    the cache is not touched. No driver failures and no other processes. *)
Theorem sweepEvents_retention `{H : Host} `{!Quiet H} (c : Cache) (w : World) (t : event_table) :
  ready_ok w → db_events (w_db w) = Some t → log_wf t →
  ∃ w' t' dropped n, sweepEvents c w = (Ok tt, w') ∧
    db_events (w_db w') = Some t' ∧ (w_step w ≤ n < w_step w')%nat ∧
    et_rows t = dropped ++ et_rows t' ∧
    (∀ p, p ∈ et_rows t' →
       clock n - Milliseconds (eventRetention c) < ev_created_at p.2) ∧
    (0 < eventMaxCount c → Z.of_nat (length (et_rows t')) ≤ eventMaxCount c) ∧
    (∀ older p, dropped = older ++ [p] →
       ev_created_at p.2 ≤ clock n - Milliseconds (eventRetention c) ∨
       0 < eventMaxCount c ≤ Z.of_nat (length (et_rows t'))) ∧
    et_seq t' = et_seq t ∧ log_wf t' ∧ db_cache (w_db w') = db_cache (w_db w).
Proof.
  intros Hr Ht Hwf.
  pose proof (sweepEvents_spec c w (λ r w', r = Ok tt ∧ ∃ n, (w_step w ≤ n < w_step w')%nat ∧
    db_events (w_db w') = Some (retained (eventRetention c) (eventMaxCount c) (clock n) t) ∧
    db_cache (w_db w') = db_cache (w_db w)) Hr) as Hwp.
  destruct Hwp as (Hok & n & Hn & He & Hc).
  { intros w' n Hn Hd Hc _ _. split; [done|]. exists n. rewrite Hd, Ht. split; [by eapply Hn|done]. }
  set (t' := retained _ _ _ _) in He.
  assert (∃ b, t' = after_bound b t) as [b Hb] by by eexists.
  destruct (after_bound_prefix b t Hwf) as (dr & Hdr & _).
  exists (sweepEvents c w).2, t', dr, n. split_and!; try done.
  - destruct (sweepEvents c w); simpl in *; by subst.
  - lia.
  - lia.
  - by rewrite Hb.
  - intros p Hp. by eapply retained_old.
  - by apply retained_cap.
  - intros older p ->. apply (retained_needed _ _ _ t older p Hwf). fold t'. by rewrite Hb, Hdr at 1; rewrite <- app_assoc.
  - by rewrite Hb, after_bound_seq.
  - rewrite Hb. destruct b; [by apply keep_events_wf|done].
Qed.

(** A log of three events, the first older than an hour. *)
Definition demo_log : event_table :=
  EventTable [(1, EventRow "a" "default" None 0 1000); (2, EventRow "a" "default" None 0 5000000);
              (4, EventRow "b" "default" (Some "x") 1 5000000)] (Some 4).

Lemma demo_log_wf : log_wf demo_log.
Proof. split_and!; [repeat constructor|repeat constructor|]; done. Qed.

Lemma sweepEvents_retention_witness :
  let _ := still_host 5000000 in
  ∃ w' t' dropped n, sweepEvents (demo_cache "default")
      (init_world (set_events (Some demo_log) empty_db)) = (Ok tt, w') ∧
    db_events (w_db w') = Some t' ∧ (0 ≤ n < w_step w')%nat ∧
    et_rows demo_log = dropped ++ et_rows t' ∧
    (∀ p, p ∈ et_rows t' →
       clock n - Milliseconds (eventRetention (demo_cache "default")) < ev_created_at p.2) ∧
    (0 < eventMaxCount (demo_cache "default") →
       Z.of_nat (length (et_rows t')) ≤ eventMaxCount (demo_cache "default")) ∧
    (∀ older p, dropped = older ++ [p] →
       ev_created_at p.2 ≤ clock n - Milliseconds (eventRetention (demo_cache "default")) ∨
       0 < eventMaxCount (demo_cache "default") ≤ Z.of_nat (length (et_rows t'))) ∧
    et_seq t' = et_seq demo_log ∧ log_wf t' ∧ db_cache (w_db w') = ∅.
Proof.
  intros host. apply (@sweepEvents_retention host (still_quiet 5000000) (demo_cache "default")
    (init_world (set_events (Some demo_log) empty_db)) demo_log); [done|done|apply demo_log_wf].
Defined.
