(* ===== verification/EventAdmin.v ===== *)
(** Reads and purges of the events table for admin tooling: [EventStats] and
    [RecentEvents] of [lytecache-go/events.go], and [events_admin.go]. *)

From S2P Require Import Prelude GoStd Values Store Engine Channels EventLog.
Open Scope Z_scope.

(** ** Aggregates of the SQL text *)

Definition list_min (l : list Z) : option Z :=
  match l with [] => None | x :: l => Some (foldr Z.min x l) end.
Definition list_max (l : list Z) : option Z :=
  match l with [] => None | x :: l => Some (foldr Z.max x l) end.
Definition payload_bytes (l : list (Z * event_row)) : Z :=
  foldr (λ p a, match ev_payload p.2 with
                | Some b => Z.of_nat (String.length b) + a
                | None => a
                end) 0 l.

(** A zero [time.Time] is [None]. *)
Record EventInfo := MkEventInfo {
  EI_Enabled : bool;
  EI_Count : Z;
  EI_OldestSeq : Z;
  EI_NewestSeq : Z;
  EI_OldestAt : option Z;
  EI_NewestAt : option Z;
  EI_PayloadBytes : Z
}.

Record ChannelInfo := MkChannelInfo {
  CI_Channel : string;
  CI_Count : Z;
  CI_OldestSeq : option Z;
  CI_NewestSeq : option Z;
  CI_OldestAt : option Z;
  CI_NewestAt : option Z;
  CI_PayloadBytes : Z
}.

Record CursorInfo := MkCursorInfo { CU_Namespace : string; CU_Name : string; CU_Seq : Z }.
#[global] Instance CursorInfo_eq_dec : EqDecision CursorInfo.
Proof. solve_decision. Defined.

(** Longest first, as [sort.SliceStable] orders sorted strings. *)
Definition longer_first : relation string :=
  by_key (flip Z.le) (λ s, Z.of_nat (String.length s)).
#[global] Instance longer_first_dec : RelDecision longer_first.
Proof. intros x y. unfold longer_first, by_key, flip. apply _. Defined.
#[global] Instance longer_first_total : Total longer_first.
Proof. intros x y. unfold longer_first, by_key, flip. lia. Qed.
#[global] Instance longer_first_trans : Transitive longer_first.
Proof. intros x y z. unfold longer_first, by_key, flip. lia. Qed.

(** By namespace, then by name. *)
Definition cursor_le (a b : CursorInfo) : Prop :=
  if bool_decide (CU_Namespace a = CU_Namespace b) then str_le (CU_Name a) (CU_Name b)
  else str_le (CU_Namespace a) (CU_Namespace b).
#[global] Instance cursor_le_dec : RelDecision cursor_le.
Proof. intros x y. unfold cursor_le. destruct (bool_decide _); apply _. Defined.

(** The first [n] rows from the newest end, oldest first. *)
Definition newest {A} (n : nat) (l : list A) : list A := reverse (take n (reverse l)).

Section admin.
Context {H : Host} {GL : GoLib}.

Definition EventStats : M EventInfo :=
  exists_ ← eventsExist;
  if negb exists_ then mret (MkEventInfo false 0 0 0 None None 0)
  else
    o ← query (read_events (λ t,
          (Z.of_nat (length (et_rows t)), list_min (seqs_of t),
           list_min ((λ p, ev_created_at p.2) <$> et_rows t),
           list_max ((λ p, ev_created_at p.2) <$> et_rows t),
           payload_bytes (et_rows t))));
    '(count, oldest, oldestAt, newestAt, bytes) ← or_db_error o;
    o ← query (read_events lastAssignedSeq);
    newest ← or_db_error o;
    mret (MkEventInfo true count (default 0 oldest) newest oldestAt newestAt bytes).

Definition RecentEvents (limit : Z) (afterSeq : Z) (patterns : list string) : M (list Event) :=
  exists_ ← eventsExist;
  if negb exists_ || (limit <=? 0) then mret []
  else
    f ← lift (match patterns with [] => Ok One | _ => channelFilter patterns end);
    o ← query (read_events (λ t,
          let hit := List.filter (λ p, eval_filter f (ev_channel p.2)) (et_rows t) in
          if afterSeq <? 0 then newest (Z.to_nat limit) hit
          else take (Z.to_nat limit) (List.filter (λ p, afterSeq <? p.1) hit)));
    rows ← or_db_error o;
    mret (scanEvent <$> rows).

Definition channel_info (t : event_table) (ch : string) : ChannelInfo :=
  let l := List.filter (λ p, String.eqb (ev_channel p.2) ch) (et_rows t) in
  MkChannelInfo ch (Z.of_nat (length l)) (list_min l.*1) (list_max l.*1)
    (list_min ((λ p, ev_created_at p.2) <$> l)) (list_max ((λ p, ev_created_at p.2) <$> l))
    (payload_bytes l).

Definition EventChannelStats : M (list ChannelInfo) :=
  exists_ ← eventsExist;
  if negb exists_ then mret []
  else
    o ← query (read_events (λ t,
          channel_info t <$>
            sort_strings (remove_dups ((λ p, ev_channel p.2) <$> et_rows t))));
    or_db_error o.

Definition EventCountSince (t0 : Z) : M Z :=
  exists_ ← eventsExist;
  if negb exists_ then mret 0
  else
    o ← query (read_events (λ t,
          Z.of_nat (count_if (λ p, t0 <=? ev_created_at p.2) (et_rows t))));
    or_db_error o.

Definition cursorRows : M (list (string * string)) :=
  query (λ d, merge_sort (by_key str_le fst)
                (List.filter (λ p, String.eqb (substr1 p.1 7) "cursor:")
                   (map_to_list (db_meta d)))).

Definition knownNamespaces (c : Cache) : M (list string) :=
  exists_ ← eventsExist;
  rows ← query (λ d,
    ((λ p, p.1.1) <$> map_to_list (db_cache d)) ++
    (if exists_ : bool then (λ p, ev_namespace p.2) <$> et_rows (events_of d) else []));
  mret (merge_sort longer_first (sort_strings (remove_dups (namespace c :: rows)))).

(** The namespace that a cursor's meta key resolves to. *)
Fixpoint resolve (known : list string) (rest : string) : option (string * string) :=
  match known with
  | [] => None
  | ns :: known =>
      match CutPrefix rest (ns +:+ ":") with
      | Some name => Some (ns, name)
      | None => resolve known rest
      end
  end.

Definition cursor_of (known : list string) (e : string * string) : option CursorInfo :=
  seq ← ParseInt e.2;
  let rest := TrimPrefix e.1 "cursor:" in
  let '(ns, name) := default ("", "") (resolve known rest) in
  if String.eqb ns "" then
    let '(ns, name) := default (rest, "") (Cut rest ":") in
    Some (MkCursorInfo ns name seq)
  else Some (MkCursorInfo ns name seq).

Definition Cursors (c : Cache) : M (list CursorInfo) :=
  raw ← cursorRows;
  match raw with
  | [] => mret []
  | _ =>
      known ← knownNamespaces c;
      mret (merge_sort cursor_le (omap (cursor_of known) raw))
  end.

Definition DeleteEvent (seq : Z) : M bool :=
  exists_ ← eventsExist;
  if negb exists_ then mret false
  else
    o ← exec (on_events (λ t,
          (Z.of_nat (count_if (λ p, p.1 =? seq) (et_rows t)),
           EventTable (List.filter (λ p, negb (p.1 =? seq)) (et_rows t)) (et_seq t))));
    n ← or_db_error o;
    mret (0 <? n).

Definition deleteEventsBatched (cond : Z * event_row → bool) : M (Z * option error) :=
  fuel ← event_fuel; delete_loop fuel cond 0.

Definition DeleteEventsBefore (t0 : Z) : M (Z * option error) :=
  exists_ ← eventsExist;
  if negb exists_ then mret (0, None)
  else
    o ← query (read_events (max_seq_where (λ r, ev_created_at r <? t0)));
    bound ← or_db_error o;
    match bound with
    | None => mret (0, None)
    | Some b => deleteEventsBatched (λ p, p.1 <=? b)
    end.

Definition DeleteChannelEvents (channel : string) : M (Z * option error) :=
  if String.eqb channel "" then fail ErrInvalidArgument
  else
    exists_ ← eventsExist;
    if negb exists_ then mret (0, None)
    else deleteEventsBatched (λ p, String.eqb (ev_channel p.2) channel).
End admin.

(** ** Lemmas *)

Lemma substr1_cursor rest : substr1 ("cursor:" +:+ rest) 7 = "cursor:".
Proof.
  unfold substr1. apply (utf8_take_ascii 7 "cursor:" rest); vm_compute; reflexivity.
Qed.

Lemma resolve_Some known rest ns name : resolve known rest = Some (ns, name) → rest = ns +:+ ":" +:+ name.
Proof.
  induction known as [|ns' known IH]; [done|]. cbn [resolve].
  destruct (CutPrefix rest (ns' +:+ ":")) as [n|] eqn:Hc; [|done]. intros [= -> ->].
  apply CutPrefix_Some in Hc. by rewrite Hc, str_app_assoc.
Qed.

(** A cursor with a name was read from the meta key that it is saved under. *)
Lemma cursor_of_key known e ci :
  substr1 e.1 7 = "cursor:" → cursor_of known e = Some ci → CU_Name ci ≠ "" →
  e.1 = cursor_key (CU_Namespace ci) (CU_Name ci).
Proof.
  intros Hp. unfold cursor_of. destruct (ParseInt e.2) as [seq|]; [|done]. cbn [mbind option_bind].
  assert (e.1 = "cursor:" +:+ TrimPrefix e.1 "cursor:") as He.
  { destruct (utf8_take_prefix 7 false e.1) as [t Ht]. unfold substr1 in Hp. rewrite Hp in Ht.
    unfold TrimPrefix. by rewrite Ht, CutPrefix_app. }
  revert He. generalize (TrimPrefix e.1 "cursor:"). intros rest He. rewrite He. unfold cursor_key.
  assert (∀ x y, Cut rest ":" = Some (x, y) → rest = x +:+ ":" +:+ y) as Hcut.
  { intros x y Hc. apply Cut_Some in Hc as ->. by rewrite str_app_cons, str_app_nil. }
  destruct (resolve known rest) as [[ns name]|] eqn:Hr; simpl.
  - destruct (String.eqb_spec ns "") as [->|]; [|intros [= <-] _; simpl; by rewrite (resolve_Some _ _ _ _ Hr)].
    destruct (Cut rest ":") as [[x y]|] eqn:Hc; intros [= <-] Hne; simpl in *; [by rewrite (Hcut _ _ eq_refl)|done].
  - destruct (Cut rest ":") as [[x y]|] eqn:Hc; intros [= <-] Hne; simpl in *; [by rewrite (Hcut _ _ eq_refl)|done].
Qed.

(** No two cursors that have a name are listed with the same namespace and name. *)
Definition named_cursor (ci : CursorInfo) : bool := negb (String.eqb (CU_Name ci) "").

Lemma cursors_distinct known raw :
  NoDup raw.*1 → Forall (λ e, substr1 e.1 7 = "cursor:") raw →
  NoDup ((λ ci, (CU_Namespace ci, CU_Name ci)) <$> List.filter named_cursor (omap (cursor_of known) raw)).
Proof.
  intros Hnd Hp. apply (NoDup_fmap_1 (λ p, cursor_key p.1 p.2)). rewrite <- list_fmap_compose.
  apply (sublist_NoDup _ raw.*1); [done|]. clear Hnd.
  induction Hp as [|e raw He _ IH]; [constructor|]. cbn [omap list_omap].
  change (list_omap _ _ (cursor_of known) raw) with (omap (cursor_of known) raw).
  destruct (cursor_of known e) as [ci|] eqn:Hci; cbn [fmap list_fmap]; [|by apply sublist_cons].
  cbn [List.filter]. destruct (named_cursor ci) eqn:Hn; [|by apply sublist_cons].
  cbn [fmap list_fmap compose fst snd]. rewrite (cursor_of_key known e ci He Hci); [by apply sublist_skip|].
  unfold named_cursor in Hn. apply negb_true_iff, String.eqb_neq in Hn. done.
Qed.

Lemma resolve_longest known ns name :
  ns ∈ known → StronglySorted longer_first known →
  (∀ ns', ns' ∈ known → ns' ≠ ns → HasPrefix (ns +:+ ":" +:+ name) (ns' +:+ ":") = true →
          (String.length ns' < String.length ns)%nat) →
  resolve known (ns +:+ ":" +:+ name) = Some (ns, name).
Proof.
  intros Hin Hs Hno. induction known as [|ns' known IH]; [by apply elem_of_nil in Hin|].
  apply StronglySorted_cons in Hs as [Hh Hs]. simpl.
  destruct (decide (ns' = ns)) as [->|Hne].
  { by rewrite <- str_app_assoc, CutPrefix_app. }
  apply elem_of_cons in Hin as [?|Hin]; [congruence|].
  unfold CutPrefix. destruct (HasPrefix _ (ns' +:+ ":")) eqn:Hp.
  - specialize (Hno ns' ltac:(left) Hne Hp). rewrite Forall_forall in Hh.
    specialize (Hh ns Hin). unfold longer_first, by_key, flip in Hh. lia.
  - apply IH; [done|done|]. intros ns'' Hns''. apply Hno. by right.
Qed.

Lemma count_filter_length {A} (f : A → bool) (l : list A) :
  (length (List.filter (λ x, negb (f x)) l) + count_if f l)%nat = length l.
Proof.
  unfold count_if. induction l as [|x l IH]; simpl; [done|].
  destruct (f x); simpl; lia.
Qed.

Section admin_specs.
Context {H : Host} `{HQ : !Quiet H}.

Lemma deleteEventsBatched_spec cond w t (Q : result (Z * option error) → World → Prop) :
  db_events (w_db w) = Some t →
  (∀ w', w_db w' = set_events (Some (keep_events cond t)) (w_db w) →
         w_proc w' = w_proc w → w_intx w' = w_intx w →
         Q (Ok (Z.of_nat (count_if cond (et_rows t)), None)) w') →
  wp (deleteEventsBatched cond) w Q.
Proof using HQ.
  intros Ht HQ'. unfold deleteEventsBatched. apply wp_bind. unfold wp at 1, event_fuel.
  cbn [fst snd]. rewrite Ht. eapply delete_loop_spec; [done| |done].
  pose proof (count_if_le cond (et_rows t)). lia.
Qed.

(** What a purge by time leaves. *)
Lemma DeleteEventsBefore_spec t0 w t (Q : result (Z * option error) → World → Prop) :
  ready_ok w → db_events (w_db w) = Some t →
  (∀ w' b, b = max_seq_where (λ r, ev_created_at r <? t0) t →
     db_events (w_db w') = Some (after_bound b t) →
     db_cache (w_db w') = db_cache (w_db w) →
     Q (Ok (Z.of_nat (length (et_rows t)) - Z.of_nat (length (et_rows (after_bound b t))),
            None)) w') →
  wp (DeleteEventsBefore t0) w Q.
Proof using HQ.
  intros Hr Ht HQ'. unfold DeleteEventsBefore. wp_go. apply eventsExist_spec; [done|].
  intros w1 Hd1 _ _. rewrite bool_decide_true by (rewrite Ht; by eexists). cbn [negb].
  wp_go. unfold read_events. rewrite !Hd1, !Ht.
  cbn [fmap option_fmap option_map or_db_error]. wp_go.
  destruct (max_seq_where _ t) as [b|] eqn:Hb.
  - eapply deleteEventsBatched_spec; [simpl; by rewrite Hd1|].
    intros w2 Hd2 _ _. specialize (HQ' w2 (Some b) eq_refl).
    cbn [after_bound] in HQ'. rewrite Hd2 in HQ'. simpl in *. rewrite Hd1 in HQ'.
    specialize (HQ' eq_refl eq_refl).
    replace (Z.of_nat (count_if _ _)) with
      (Z.of_nat (length (et_rows t)) -
       Z.of_nat (length (List.filter (not_cond (λ p, p.1 <=? b)) (et_rows t)))); [done|].
    pose proof (count_filter_length (λ p : Z * event_row, p.1 <=? b) (et_rows t)). lia.
  - wp_go. specialize (HQ' (advance 0 w1) None eq_refl). cbn [after_bound] in HQ'.
    rewrite Z.sub_diag in HQ'. apply HQ'; simpl; by rewrite Hd1.
Qed.
End admin_specs.

(** [DeleteEventsBefore] removes a prefix of the log and reports exactly how many
    events it removed; no event published before the given time is left, the
    seq counter and the cache table are untouched. *)
Theorem DeleteEventsBefore_prefix `{H : Host} `{!Quiet H} (t0 : Z) (w : World) (t : event_table) :
  ready_ok w → db_events (w_db w) = Some t → log_wf t →
  ∃ w' t' dropped, DeleteEventsBefore t0 w = (Ok (Z.of_nat (length dropped), None), w') ∧
    db_events (w_db w') = Some t' ∧ et_rows t = dropped ++ et_rows t' ∧
    (∀ p, p ∈ et_rows t' → t0 ≤ ev_created_at p.2) ∧
    et_seq t' = et_seq t ∧ log_wf t' ∧ db_cache (w_db w') = db_cache (w_db w).
Proof.
  intros Hr Ht Hwf.
  destruct (DeleteEventsBefore_spec t0 w t (λ r w', ∃ b,
    b = max_seq_where (λ r, ev_created_at r <? t0) t ∧
    r = Ok (Z.of_nat (length (et_rows t)) - Z.of_nat (length (et_rows (after_bound b t))), None) ∧
    db_events (w_db w') = Some (after_bound b t) ∧
    db_cache (w_db w') = db_cache (w_db w)) Hr Ht) as (b & Hb & Hok & He & Hc).
  { intros w' b -> Hd Hc. by eexists. }
  destruct (after_bound_prefix b t Hwf) as (dr & Hdr & _).
  exists (DeleteEventsBefore t0 w).2, (after_bound b t), dr. split_and!; try done.
  - destruct (DeleteEventsBefore t0 w) as [r w']; simpl in *. subst r. do 3 f_equal.
    rewrite Hdr at 1. rewrite length_app. lia.
  - intros p [Hp Hlt]%elem_of_after_bound.
    destruct (decide (t0 ≤ ev_created_at p.2)) as [|Hn]; [done|].
    destruct (max_seq_where_spec (λ r, ev_created_at r <? t0) t p b Hwf (eq_sym Hb) Hp)
      as (b' & -> & Hle); [by apply Z.ltb_lt; lia|]. specialize (Hlt b' eq_refl). lia.
  - apply after_bound_seq.
  - destruct b; [by apply keep_events_wf|done].
Qed.

Lemma DeleteEventsBefore_prefix_witness :
  let _ := still_host 0 in
  ∃ w' t' dropped, DeleteEventsBefore 2000
      (init_world (set_events (Some demo_log) empty_db)) = (Ok (Z.of_nat (length dropped), None), w') ∧
    db_events (w_db w') = Some t' ∧ et_rows demo_log = dropped ++ et_rows t' ∧
    (∀ p, p ∈ et_rows t' → 2000 ≤ ev_created_at p.2) ∧
    et_seq t' = et_seq demo_log ∧ log_wf t' ∧ db_cache (w_db w') = ∅.
Proof.
  intros host. apply (@DeleteEventsBefore_prefix host (still_quiet 0) 2000
    (init_world (set_events (Some demo_log) empty_db)) demo_log); [done|done|apply demo_log_wf].
Defined.

(** ** Cursors *)

(** The namespaces of the handle, of the cache table and of the events. *)
Definition namespaces_in_use (c : Cache) (d : Database) : list string :=
  namespace c :: ((λ p, p.1.1) <$> map_to_list (db_cache d)) ++
  ((λ p, ev_namespace p.2) <$> et_rows (events_of d)).

(** No other namespace in use claims the cursor's key for itself. *)
Definition unambiguous (c : Cache) (name : string) (d : Database) : Prop :=
  ∀ ns', ns' ∈ namespaces_in_use c d → ns' ≠ namespace c →
    HasPrefix (namespace c +:+ ":" +:+ name) (ns' +:+ ":") = true →
    (String.length ns' < String.length (namespace c))%nat.

Section cursors.
Context {H : Host} {GL : GoLib} `{HQ : !Quiet H}.

Lemma SaveCursor_spec c name seq w (Q : result () → World → Prop) :
  Q (Ok tt) (advance 0 (with_db (set_meta
       (<[cursor_key (namespace c) name := FormatInt seq]> (db_meta (w_db w))) (w_db w)) w)) →
  wp (SaveCursor c name seq) w Q.
Proof using HQ. intros HQ'. unfold SaveCursor. by wp_go. Qed.

Lemma LoadCursor_spec c name w seq (Q : result (option Z) → World → Prop) :
  db_meta (w_db w) !! cursor_key (namespace c) name = Some (FormatInt seq) →
  in_int64 seq = true → Q (Ok (Some seq)) (advance 0 w) → wp (LoadCursor c name) w Q.
Proof using HQ.
  intros Hm Hs HQ'. unfold LoadCursor. wp_go. rewrite Hm. rewrite Sscan_FormatInt by done.
  by wp_go.
Qed.

Lemma knownNamespaces_spec c w (Q : result (list string) → World → Prop) :
  ready_ok w →
  (∀ w' l, w_db w' = w_db w → StronglySorted longer_first l →
     (∀ ns, ns ∈ l ↔ ns ∈ namespaces_in_use c (w_db w)) → Q (Ok l) w') →
  wp (knownNamespaces c) w Q.
Proof using HQ.
  intros Hr HQ'. unfold knownNamespaces. wp_go. apply eventsExist_spec; [done|].
  intros w1 Hd _ _. wp_go. apply HQ'; [done|apply StronglySorted_merge_sort; apply _|].
  intros ns. unfold sort_strings. rewrite !merge_sort_Permutation, elem_of_remove_dups.
  rewrite Hd. unfold namespaces_in_use. rewrite !elem_of_cons, !elem_of_app.
  case_bool_decide as He; [done|].
  assert (events_of (w_db w) = EventTable [] None) as ->; [|done].
  unfold events_of. destruct (db_events (w_db w)); [|done]. destruct He. by eexists.
Qed.

Lemma cursor_of_saved known c name seq :
  namespace c ≠ "" → in_int64 seq = true →
  resolve known (namespace c +:+ ":" +:+ name) = Some (namespace c, name) →
  cursor_of known (cursor_key (namespace c) name, FormatInt seq) =
    Some (MkCursorInfo (namespace c) name seq).
Proof using Type.
  intros Hns Hs Hr. unfold cursor_of, TrimPrefix, cursor_key. cbn [fst snd].
  rewrite ParseInt_FormatInt by done. rewrite CutPrefix_app. cbn [mbind option_bind default].
  cbn [default from_option id]. rewrite Hr. cbn [default from_option id]. by destruct (String.eqb_spec (namespace c) "").
Qed.

Lemma Cursors_spec c name seq w (Q : result (list CursorInfo) → World → Prop) :
  ready_ok w → namespace c ≠ "" → in_int64 seq = true →
  db_meta (w_db w) !! cursor_key (namespace c) name = Some (FormatInt seq) →
  unambiguous c name (w_db w) →
  (∀ w' l, w_db w' = w_db w → MkCursorInfo (namespace c) name seq ∈ l → Q (Ok l) w') →
  wp (Cursors c) w Q.
Proof using HQ.
  intros Hr Hns Hs Hm Hu HQ'. unfold Cursors, cursorRows. wp_go.
  set (raw := merge_sort _ _).
  assert ((cursor_key (namespace c) name, FormatInt seq) ∈ raw) as Hin.
  { unfold raw. rewrite merge_sort_Permutation. apply elem_of_bfilter. split.
    - unfold cursor_key. cbn [fst]. by rewrite substr1_cursor.
    - by apply elem_of_map_to_list. }
  destruct raw as [|x raw]; [by apply elem_of_nil in Hin|].
  wp_go. apply knownNamespaces_spec; [done|]. intros w1 l Hd Hsort Hl. wp_go.
  apply HQ'; [done|]. rewrite merge_sort_Permutation.
  apply list_elem_of_omap. eexists. split; [exact Hin|].
  apply cursor_of_saved; [done..|]. apply resolve_longest; [by apply Hl; left|done|].
  intros ns' Hns'. apply Hu. by apply Hl.
Qed.
End cursors.

(** A saved cursor reads back: [SaveCursor] then [LoadCursor] returns the seq, the
    admin listing [Cursors] reports it under its namespace and name, and no
    cached row or event changes. *)
Theorem SaveCursor_roundtrip `{H : Host} `{GoLib} `{!Quiet H} (c : Cache) (name : string)
    (seq : Z) (w : World) :
  ready_ok w → in_int64 seq = true → namespace c ≠ "" → unambiguous c name (w_db w) →
  ∃ w', SaveCursor c name seq w = (Ok tt, w') ∧
    (LoadCursor c name w').1 = Ok (Some seq) ∧
    (∃ l, (Cursors c w').1 = Ok l ∧ MkCursorInfo (namespace c) name seq ∈ l) ∧
    db_cache (w_db w') = db_cache (w_db w) ∧ db_events (w_db w') = db_events (w_db w).
Proof.
  intros Hr Hs Hns Hu. eexists. split.
  { unfold SaveCursor. rewrite exec_quiet. simpl. reflexivity. }
  set (w' := advance 0 _).
  assert (db_meta (w_db w') !! cursor_key (namespace c) name = Some (FormatInt seq)) as Hm
    by apply lookup_insert_eq.
  split_and!; [| |done..].
  - exact (LoadCursor_spec c name w' seq (λ r _, r = Ok (Some seq)) Hm Hs eq_refl).
  - refine (Cursors_spec c name seq w' (λ r _, ∃ l, r = Ok l ∧ _ ∈ l) Hr Hns Hs Hm Hu _).
    eauto.
Qed.

Lemma SaveCursor_roundtrip_witness :
  let _ := toy_lib in let _ := still_host 0 in
  ∃ w', SaveCursor (demo_cache "default") "jobs:a" (-7) (init_world empty_db) = (Ok tt, w') ∧
    (LoadCursor (demo_cache "default") "jobs:a" w').1 = Ok (Some (-7)) ∧
    (∃ l, (Cursors (demo_cache "default") w').1 = Ok l ∧
          MkCursorInfo "default" "jobs:a" (-7) ∈ l) ∧
    db_cache (w_db w') = ∅ ∧ db_events (w_db w') = None.
Proof.
  intros lib host.
  apply (@SaveCursor_roundtrip host lib (still_quiet 0) (demo_cache "default") "jobs:a" (-7));
    [done|done|done|].
  intros ns' Hin Hne. cbn in Hin. apply list_elem_of_singleton in Hin. congruence.
Defined.

(** Two cursors of different namespaces can share one meta key: saving the
    first overwrites the second. *)
Lemma cursor_key_collision : cursor_key "a" "b:c" = cursor_key "a:b" "c".
Proof. vm_compute. reflexivity. Qed.
