(* ===== verification/Subscription.v ===== *)
(** Subscriptions: [Watch], the polling goroutine of [run], and the receiving
    side ([lytecache-go/events.go]).

    The goroutine is a state machine: [run_step] is one iteration of its
    [select]s, and the other goroutines (publishers, the sweeper, the receiver,
    [poke], [Close]) interleave with it in [sys_step]. *)

From S2P Require Import Prelude GoStd Values Store Engine Channels EventLog.
Open Scope Z_scope.

(** ** State *)

(** Where [run] is: before the poll; in the delivery loop with the rest of the
    batch (its length, and whether the poll succeeded), about to send, or with
    [e] just sent, or also the cursor moved; in the final [select]; returning,
    before [close(s.events)] and before [close(s.done)]; or gone. *)
Inductive pc :=
  | PTop
  | PSend (pending : list Event) (len : nat) (ok : bool)
  | PSent (e : Event) (pending : list Event) (len : nat) (ok : bool)
  | PMoved (e : Event) (pending : list Event) (len : nat) (ok : bool)
  | PSleep
  | PReturn
  | PClosing
  | PDone.

Record Subscription := MkSubscription {
  s_namespace : string;
  s_patterns : list string;
  s_filter : filter_cond;
  s_cursor : Z;
  s_pollInterval : Z;
  s_events : list Event;          (* the channel's buffer, at most subscriptionQueue *)
  s_open : bool;                  (* the events channel is not closed *)
  s_wake : bool;                  (* the wake channel, capacity 1 *)
  s_stop : bool;                  (* the stop channel is closed *)
  s_lastSeq : Z;
  s_err : option gap_error;
  s_interval : Z;                 (* local variable of run *)
  s_pc : pc
}.

Section setters.
Implicit Types s : Subscription.
Definition with_pc p s := MkSubscription (s_namespace s) (s_patterns s) (s_filter s) (s_cursor s)
  (s_pollInterval s) (s_events s) (s_open s) (s_wake s) (s_stop s) (s_lastSeq s) (s_err s) (s_interval s) p.
Definition with_interval i s := MkSubscription (s_namespace s) (s_patterns s) (s_filter s) (s_cursor s)
  (s_pollInterval s) (s_events s) (s_open s) (s_wake s) (s_stop s) (s_lastSeq s) (s_err s) i (s_pc s).
Definition with_wake b s := MkSubscription (s_namespace s) (s_patterns s) (s_filter s) (s_cursor s)
  (s_pollInterval s) (s_events s) (s_open s) b (s_stop s) (s_lastSeq s) (s_err s) (s_interval s) (s_pc s).
Definition with_stop s := MkSubscription (s_namespace s) (s_patterns s) (s_filter s) (s_cursor s)
  (s_pollInterval s) (s_events s) (s_open s) (s_wake s) true (s_lastSeq s) (s_err s) (s_interval s) (s_pc s).
Definition with_events es s := MkSubscription (s_namespace s) (s_patterns s) (s_filter s) (s_cursor s)
  (s_pollInterval s) es (s_open s) (s_wake s) (s_stop s) (s_lastSeq s) (s_err s) (s_interval s) (s_pc s).
(** [s.cursor = n]. *)
Definition with_cursor n s := MkSubscription (s_namespace s) (s_patterns s) (s_filter s) n
  (s_pollInterval s) (s_events s) (s_open s) (s_wake s) (s_stop s) (s_lastSeq s) (s_err s) (s_interval s) (s_pc s).
(** [s.lastSeq.Store(n)]. *)
Definition with_lastSeq n s := MkSubscription (s_namespace s) (s_patterns s) (s_filter s) (s_cursor s)
  (s_pollInterval s) (s_events s) (s_open s) (s_wake s) (s_stop s) n (s_err s) (s_interval s) (s_pc s).
(** The deferred [close(s.events)]. *)
Definition close_events s := MkSubscription (s_namespace s) (s_patterns s) (s_filter s) (s_cursor s)
  (s_pollInterval s) (s_events s) false (s_wake s) (s_stop s) (s_lastSeq s) (s_err s) (s_interval s) (s_pc s).
Definition setErr g s := MkSubscription (s_namespace s) (s_patterns s) (s_filter s) (s_cursor s)
  (s_pollInterval s) (s_events s) (s_open s) (s_wake s) (s_stop s) (s_lastSeq s) (Some g) (s_interval s) (s_pc s).
End setters.

(** ** Watch *)

Inductive watch_option := FromSeq (n : Z) | PollInterval (d : Z).
Record watchOptions := MkWatchOptions { fromSeq : option Z; pollInterval : Z }.
Definition apply_watch (o : watchOptions) (opt : watch_option) : watchOptions :=
  match opt with
  | FromSeq n => MkWatchOptions (Some n) (pollInterval o)
  | PollInterval d => MkWatchOptions (fromSeq o) d
  end.

(** The starting cursor, and the gap that ends the subscription at once. *)
Definition watch_start (from : option Z) (t : event_table) : Z * option gap_error :=
  match from with
  | None => (lastAssignedSeq t, None)
  | Some n =>
      if n =? 0 then (match min_seq t with Some o => o - 1 | None => lastAssignedSeq t end, None)
      else (n, gapCheck t n)
  end.

Definition new_subscription (ns : string) (patterns : list string) (f : filter_cond) (poll start : Z)
    (gap : option gap_error) : Subscription :=
  let s := MkSubscription ns patterns f start poll [] true false false start None poll PTop in
  match gap with
  | None => s
  | Some g => with_pc PDone (close_events (setErr g s))
  end.

Section watch.
Context {H : Host} {GL : GoLib}.

(** The new subscription and its key in [c.subs]. *)
Definition Watch (c : Cache) (patterns : list string) (opts : list watch_option) : M (nat * Subscription) :=
  match patterns with
  | [] => fail ErrInvalidArgument
  | _ =>
      f ← lift (channelFilter patterns);
      let o := foldl apply_watch (MkWatchOptions None defaultPoll) opts in
      if pollInterval o <=? 0 then fail ErrInvalidArgument
      else if match fromSeq o with Some n => n <? 0 | None => false end then fail ErrInvalidArgument
      else
        ensureEvents ;;
        r ← query (read_events (watch_start (fromSeq o)));
        '(start, gap) ← or_db_error r;
        p ← get_proc;
        let id := fresh (dom (p_wake p)) in
        mod_proc (λ p, set_wake (<[id := false]> (p_wake p)) p) ;;
        mret (id, new_subscription (namespace c) patterns f (pollInterval o) start gap)
  end.
End watch.

(** ** The polling goroutine *)

(** The rows of [fetch]: [WHERE seq > ? AND namespace = ? AND filter]. *)
Definition wanted (s : Subscription) (p : Z * event_row) : bool :=
  bool_decide (ev_namespace p.2 = s_namespace s) && eval_filter (s_filter s) (ev_channel p.2).

(** [fetch] on the snapshot [t]: the rows, the gap, and whether there was an
    error. [fail = Some k]: the driver fails, before the gap check if [k] is 0
    and otherwise after [k - 1] rows, which are returned with the error. *)
Definition fetch (s : Subscription) (fail : option nat) (t : event_table) : list Event * option gap_error * bool :=
  match fail with
  | Some O => ([], None, true)
  | _ =>
      match gapCheck t (s_cursor s) with
      | Some g => ([], Some g, false)
      | None =>
          let rows := scanEvent <$> take eventsBatch
                        (List.filter (λ p, (s_cursor s <? p.1) && wanted s p) (et_rows t)) in
          match fail with
          | None => (rows, None, false)
          | Some k => (take (k - 1) rows, None, true)
          end
      end
  end.

(** After the delivery loop: the next interval, and on to the poll or to sleep. *)
Definition after_batch (len : nat) (ok : bool) (s : Subscription) : Subscription :=
  if Nat.ltb 0 len then
    with_pc (if Nat.eqb len eventsBatch then PTop else PSleep) (with_interval (s_pollInterval s) s)
  else if ok then
    with_pc PSleep (with_interval (Z.min (s_interval s * 2) (Z.max maxIdleInterval (s_pollInterval s))) s)
  else with_pc PSleep s.

(** What a [select] takes when several cases are ready. *)
Inductive choice := CStop | CSend | CWake | CTimer.

(** One step of [run]; [None] where the chosen case is not ready. [t] is the
    snapshot a poll reads, [fail] how the driver fails it. *)
Definition run_step (ch : choice) (fail : option nat) (t : event_table) (s : Subscription) : option Subscription :=
  match s_pc s with
  | PTop =>
      if s_stop s then Some (with_pc PReturn s)
      else
        match fetch s fail t with
        | (batch, _, true) => Some (with_pc (PSend batch (length batch) false) s)
        | (_, Some g, false) => Some (with_pc PReturn (setErr g s))
        | (batch, None, false) => Some (with_pc (PSend batch (length batch) true) s)
        end
  | PSend [] len ok => Some (after_batch len ok s)
  | PSend (e :: pending) len ok =>
      match ch with
      | CStop => if s_stop s then Some (with_pc PReturn s) else None
      | CSend => if bool_decide (length (s_events s) < subscriptionQueue)%nat
                 then Some (with_pc (PSent e pending len ok) (with_events (s_events s ++ [e]) s)) else None
      | _ => None
      end
  | PSent e pending len ok => Some (with_pc (PMoved e pending len ok) (with_cursor (Seq e) s))
  | PMoved e pending len ok => Some (with_pc (PSend pending len ok) (with_lastSeq (Seq e) s))
  | PSleep =>
      match ch with
      | CStop => if s_stop s then Some (with_pc PReturn s) else None
      | CWake => if s_wake s then Some (with_pc PTop (with_wake false s)) else None
      | CTimer => Some (with_pc PTop s)
      | CSend => None
      end
  | PReturn => Some (with_pc PClosing (close_events s))
  | PClosing => Some (with_pc PDone s)
  | PDone => None
  end.

(** ** The receiving side *)

Definition Err_ (s : Subscription) : option gap_error := s_err s.
Definition LastSeq (s : Subscription) : Z := s_lastSeq s.
Definition Patterns (s : Subscription) : list string := s_patterns s.
Definition endErr (s : Subscription) : error :=
  match s_err s with Some g => ErrGap g | None => ErrSubscriptionClosed end.

(** Receive from the channel: an event, the end, or nothing yet. *)
Inductive received := RecvEvent (e : Event) | RecvEnd (err : error) | RecvNone.
Definition receive (s : Subscription) : received * Subscription :=
  match s_events s with
  | e :: es => (RecvEvent e, with_events es s)
  | [] => if s_open s then (RecvNone, s) else (RecvEnd (endErr s), s)
  end.

(** [Next]: [cancelled] is [ctx.Err()] once the context is done. [None]: it
    still blocks. With both ready Go picks either; [prefer_ctx] picks. *)
Definition Next (cancelled : option error) (prefer_ctx : bool) (s : Subscription)
    : option (result Event * Subscription) :=
  match cancelled, receive s with
  | Some e, (RecvNone, s) => Some (Err e, s)
  | Some e, (r, s') => if prefer_ctx then Some (Err e, s)
                       else match r with RecvEvent ev => Some (Ok ev, s') | RecvEnd er => Some (Err er, s') | RecvNone => None end
  | None, (RecvEvent ev, s') => Some (Ok ev, s')
  | None, (RecvEnd er, s') => Some (Err er, s')
  | None, (RecvNone, _) => None
  end.

Definition TryNext (s : Subscription) : result (option Event) * Subscription :=
  match receive s with
  | (RecvEvent e, s) => (Ok (Some e), s)
  | (RecvEnd er, s) => (Err er, s)
  | (RecvNone, s) => (Ok None, s)
  end.

(** [poke]: a send on a full channel is dropped. *)
Definition poke (s : Subscription) : Subscription := with_wake true s.

(** [Close] closes [stop] once, waits for [PDone], closes the connection and takes
    the subscription out of [c.subs]; called again it does nothing. *)
Definition Close_begin (s : Subscription) : Subscription := with_stop s.
Definition Close_end (id : nat) : M () := mod_proc (λ p, set_wake (delete id (p_wake p)) p).

(** ** The system *)

(** [sy_history] is every event published so far, [sy_got] the events received:
    neither is part of the program. *)
Record Sys := MkSys {
  sy_table : event_table;
  sy_history : list (Z * event_row);
  sy_sub : Subscription;
  sy_got : list Event
}.

Inductive sys_step : Sys → Sys → Prop :=
  | step_publish t h s got r n t' :
      insert_event r t = (Some n, t') →
      sys_step (MkSys t h s got) (MkSys t' (h ++ [(n, r)]) s got)
  | step_sweep t h s got b :          (* retention removes a prefix *)
      sys_step (MkSys t h s got) (MkSys (keep_events (λ p, p.1 <=? b) t) h s got)
  | step_run t h s got ch fail s' :
      run_step ch fail t s = Some s' →
      sys_step (MkSys t h s got) (MkSys t h s' got)
  | step_receive t h s got e s' :
      receive s = (RecvEvent e, s') →
      sys_step (MkSys t h s got) (MkSys t h s' (got ++ [e]))
  | step_poke t h s got : sys_step (MkSys t h s got) (MkSys t h (poke s) got)
  | step_close t h s got : sys_step (MkSys t h s got) (MkSys t h (Close_begin s) got).

(** The subscription was opened on [t], which then held [h] of the history. *)
Definition sys_init (t : event_table) (s : Subscription) : Sys := MkSys t (et_rows t) s [].

(** The events a subscription that started after [start] should see. *)
Definition due (s : Subscription) (start : Z) (h : list (Z * event_row)) : list Event :=
  scanEvent <$> List.filter (λ p, (start <? p.1) && wanted s p) h.

(** The same, said without the compiled filter: the events of the namespace on
    a channel that [MatchChannel] accepts for one of the patterns. *)
Definition subscribed (ns : string) (patterns : list string) (p : Z * event_row) : bool :=
  String.eqb (ev_namespace p.2) ns && existsb (λ q, MatchChannel q (ev_channel p.2)) patterns.
Definition asked_for (ns : string) (patterns : list string) (start : Z) (h : list (Z * event_row))
    : list Event :=
  scanEvent <$> List.filter (λ p, (start <? p.1) && subscribed ns patterns p) h.

(** Channels in UTF-8 (SQLite's TEXT). *)
Definition text_channels (h : list (Z * event_row)) : Prop :=
  Forall (λ p, valid_utf8 (ev_channel p.2) = true) h.

Definition pending_of (s : Subscription) : list Event :=
  match s_pc s with PSend pending _ _ | PSent _ pending _ _ | PMoved _ pending _ _ => pending | _ => [] end.

(** ** The log and its history *)

Definition log_ok (t : event_table) (h : list (Z * event_row)) : Prop :=
  log_wf t ∧ sorted_keys h ∧ Forall (λ p : Z * event_row, p.1 ≤ lastAssignedSeq t) h ∧
  ∃ b, et_rows t = List.filter (λ p, b <? p.1) h.

Lemma bfilter_filter {A} (f g : A → bool) l :
  List.filter f (List.filter g l) = List.filter (λ x, g x && f x) l.
Proof.
  induction l as [|x l IH]; [done|]. simpl. destruct (g x); simpl; [|done].
  by destruct (f x); simpl; rewrite IH.
Qed.

Lemma bfilter_ext {A} (f g : A → bool) l : (∀ x, x ∈ l → f x = g x) → List.filter f l = List.filter g l.
Proof.
  induction l as [|x l IH]; intros Hfg; [done|]. simpl. rewrite Hfg by left.
  rewrite IH; [done|]. intros y Hy. apply Hfg. by right.
Qed.

Lemma log_ok_init t : log_wf t → log_ok t (et_rows t).
Proof.
  intros Hwf. pose proof Hwf as (Hs & Hf & Hl). split_and!; [done|done| |].
  - eapply Forall_impl; [exact Hf|]. simpl. lia.
  - exists 0. symmetry. apply bfilter_all. intros p Hp. rewrite Forall_forall in Hf.
    apply Hf in Hp. apply Z.ltb_lt. lia.
Qed.

Lemma insert_event_some r t n t' : log_wf t → insert_event r t = (Some n, t') →
  n = lastAssignedSeq t + 1 ∧ t' = append_event r t.
Proof.
  intros Hwf. unfold insert_event. rewrite next_seq_wf by done. case_match; [done|].
  intros [= <- <-]. split; lia || done.
Qed.

Lemma log_ok_publish t h r n t' :
  log_ok t h → insert_event r t = (Some n, t') → log_ok t' (h ++ [(n, r)]).
Proof.
  intros (Hwf & Hs & Hf & b & Hb) Hi. destruct (insert_event_some r t n t' Hwf Hi) as [-> ->].
  rewrite Forall_forall in Hf. split_and!.
  - by apply append_event_wf.
  - apply sorted_keys_app. split_and!; [|done|repeat constructor].
    intros p q Hp ->%list_elem_of_singleton. apply Hf in Hp. simpl. lia.
  - apply Forall_app. rewrite lastAssignedSeq_append. split; [|by apply Forall_singleton].
    apply Forall_forall. intros p Hp. apply Hf in Hp. lia.
  - exists (Z.min b (lastAssignedSeq t)). rewrite List.filter_app. simpl.
    rewrite (proj2 (Z.ltb_lt _ _)) by lia. rewrite Hb. f_equal.
    apply bfilter_ext. intros p Hp. apply Hf in Hp.
    destruct (Z.ltb_spec b p.1), (Z.ltb_spec (Z.min b (lastAssignedSeq t)) p.1); lia || done.
Qed.

Lemma log_ok_sweep t h b : log_ok t h → log_ok (keep_events (λ p, p.1 <=? b) t) h.
Proof.
  intros (Hwf & Hs & Hf & b' & Hb). split_and!; [by apply keep_events_wf|done|done|].
  exists (Z.max b' b). simpl. rewrite Hb, bfilter_filter. apply bfilter_ext. intros p _.
  destruct (Z.ltb_spec b' p.1), (Z.leb_spec p.1 b), (Z.ltb_spec (Z.max b' b) p.1); simpl; lia || done.
Qed.

(** Without a gap, everything after the cursor is still in the table. *)
Lemma no_gap_complete t h cursor f : log_ok t h → gapCheck t cursor = None →
  List.filter (λ p, (cursor <? p.1) && f p) (et_rows t) = List.filter (λ p, (cursor <? p.1) && f p) h.
Proof.
  intros (Hwf & Hs & Hf & b & Hb) Hg. unfold gapCheck in Hg.
  destruct (Z.ltb_spec (lastAssignedSeq t) cursor) as [|Hc]; [done|].
  rewrite Hb at 1. rewrite bfilter_filter. apply bfilter_ext. intros p Hp.
  destruct (Z.ltb_spec cursor p.1) as [Hlt|]; simpl; [|by rewrite andb_false_r].
  enough ((b <? p.1) = true) as -> by done. apply Z.ltb_lt.
  rewrite Forall_forall in Hf. pose proof (Hf p Hp) as Hle. simpl in Hle.
  destruct (Z.ltb_spec b p.1) as [|Hbp]; [done|]. exfalso.
  unfold min_seq, seqs_of in Hg. destruct (et_rows t) as [|[o r] l] eqn:Hr; simpl in Hg.
  - destruct (Z.ltb_spec cursor (lastAssignedSeq t + 1 - 1)); [done|]. lia.
  - destruct (Z.ltb_spec cursor (o - 1)); [done|].
    assert ((o, r) ∈ List.filter (λ p, b <? p.1) h) as [Ho _]%elem_of_bfilter by (rewrite <- Hb; left).
    apply Z.ltb_lt in Ho. simpl in Ho. lia.
Qed.

(** ** The delivery invariant *)

Definition delivered_to (start : Z) (l : list Event) : Z :=
  match last l with Some e => Seq e | None => start end.

(** An event has been sent whose seq [lastSeq] does not hold yet. *)
Definition storing (s : Subscription) : bool :=
  match s_pc s with PSent _ _ _ _ | PMoved _ _ _ _ => true | _ => false end.

(** The cursor and [LastSeq] after [l] was handed over: they follow the last
    event in two steps of their own. *)
Definition marks_inv (start : Z) (l : list Event) (s : Subscription) : Prop :=
  match s_pc s with
  | PSent e _ _ _ => ∃ k, l = k ++ [e] ∧ s_cursor s = delivered_to start k ∧ s_lastSeq s = delivered_to start k
  | PMoved e _ _ _ => ∃ k, l = k ++ [e] ∧ s_cursor s = Seq e ∧ s_lastSeq s = delivered_to start k
  | _ => s_cursor s = delivered_to start l ∧ s_lastSeq s = delivered_to start l
  end.

Definition sub_inv (start : Z) (h : list (Z * event_row)) (got : list Event) (s : Subscription) : Prop :=
  (∃ rest, due s start h = got ++ s_events s ++ pending_of s ++ rest) ∧
  marks_inv start (got ++ s_events s) s ∧
  (length (s_events s) ≤ subscriptionQueue)%nat.

Lemma Seq_scanEvent p : Seq (scanEvent p) = p.1.
Proof. by destruct p. Qed.

Lemma due_app s start h k : due s start (h ++ k) = due s start h ++ due s start k.
Proof. unfold due. by rewrite List.filter_app, fmap_app. Qed.

(** What is due after the cursor is what has not been taken from the list yet. *)
Lemma due_after s start h l rest : sorted_keys h → due s start h = l ++ rest →
  due s (delivered_to start l) h = rest ∧ start ≤ delivered_to start l.
Proof.
  unfold due. intros Hs Hd. apply fmap_app_inv in Hd as (l1 & l2 & Hl1 & Hl2 & Hf).
  assert (sorted_keys (l1 ++ l2)) as Hs12 by (rewrite <- Hf; by apply sorted_keys_filter).
  apply sorted_keys_app in Hs12 as (Hlt & Hs1 & Hs2).
  assert (∀ p, p ∈ l1 ++ l2 → start < p.1 ∧ wanted s p = true) as Hin.
  { intros p Hp. rewrite <- Hf in Hp. apply elem_of_bfilter in Hp as [Hp _].
    apply andb_true_iff in Hp as [Hp ?]. by apply Z.ltb_lt in Hp. }
  assert (delivered_to start l = match last l1 with Some p => p.1 | None => start end) as ->.
  { unfold delivered_to. rewrite Hl1, fmap_last. destruct (last l1) as [p|]; simpl; [apply Seq_scanEvent|done]. }
  assert (∀ p, p ∈ l1 → p.1 ≤ match last l1 with Some p => p.1 | None => start end) as Hle.
  { intros p Hp. destruct (last l1) as [q|] eqn:Hq; [|by apply last_None in Hq; subst; apply not_elem_of_nil in Hp].
    apply last_Some in Hq as [l1' ->]. apply elem_of_app in Hp as [Hp| ->%list_elem_of_singleton]; [|done].
    apply sorted_keys_app in Hs1 as (Hq & _). specialize (Hq p q Hp ltac:(left)). lia. }
  set (cur := match last l1 with Some p => p.1 | None => start end) in *.
  assert (start ≤ cur) as Hst.
  { unfold cur. destruct (last l1) as [q|] eqn:Hq; [|lia].
    assert (q ∈ l1 ++ l2) as Hq' by (apply elem_of_app; left; by apply last_Some_elem_of).
    apply Hin in Hq'. lia. }
  split; [|done]. rewrite Hl2. f_equal.
  transitivity (List.filter (λ p, cur <? p.1) (l1 ++ l2)).
  - rewrite <- Hf, bfilter_filter. apply bfilter_ext. intros p _.
    destruct (Z.ltb_spec cur p.1), (Z.ltb_spec start p.1); simpl; rewrite ?andb_true_r, ?andb_false_r; lia || done.
  - rewrite List.filter_app, (bfilter_none _ l1), (bfilter_all _ l2); [done|..].
    + intros p Hp. apply Z.ltb_lt. unfold cur. destruct (last l1) as [q|] eqn:Hq.
      * apply Hlt; [by apply last_Some_elem_of|done].
      * apply Hin. apply elem_of_app. by right.
    + intros p Hp. apply Z.ltb_ge. by apply Hle.
Qed.

Lemma delivered_to_snoc start l e : delivered_to start (l ++ [e]) = Seq e.
Proof. unfold delivered_to. by rewrite last_snoc. Qed.

Lemma wanted_ext s s' : s_namespace s = s_namespace s' → s_filter s = s_filter s' → ∀ p, wanted s p = wanted s' p.
Proof. intros Hn Hf p. unfold wanted. by rewrite Hn, Hf. Qed.

Lemma run_step_filter ch fail t s s' : run_step ch fail t s = Some s' →
  s_namespace s' = s_namespace s ∧ s_filter s' = s_filter s ∧ s_pollInterval s' = s_pollInterval s.
Proof.
  unfold run_step, after_batch. intros Hr. repeat (case_hyp Hr; try discriminate);
    by injection Hr as <-.
Qed.

Lemma due_ext s s' start h : s_namespace s = s_namespace s' → s_filter s = s_filter s' →
  due s start h = due s' start h.
Proof.
  intros Hn Hf. unfold due. f_equal. apply bfilter_ext. intros p _. by rewrite (wanted_ext s s').
Qed.

Lemma fetch_batch s fail t h batch err : log_ok t h → fetch s fail t = (batch, None, err) →
  ∃ rest, due s (s_cursor s) h = batch ++ rest.
Proof.
  intros Hlog Hf.
  assert (batch = [] ∨ gapCheck t (s_cursor s) = None ∧ ∃ n, batch = take n (scanEvent <$> take eventsBatch
    (List.filter (λ p, (s_cursor s <? p.1) && wanted s p) (et_rows t)))) as [->|(Hg & n & ->)]; [|by eexists|].
  { unfold fetch in Hf. destruct fail as [[|k]|]; [left; congruence|right..];
      (destruct (gapCheck t (s_cursor s)); [done|]; split; [done|]); simplify_eq/=; [by eexists|].
    exists eventsBatch. symmetry. apply take_ge. rewrite length_fmap, length_take. lia. }
  rewrite (no_gap_complete t h _ _ Hlog Hg). unfold due. rewrite <- fmap_take, take_take.
  exists (scanEvent <$> drop (n `min` eventsBatch) (List.filter (λ p, (s_cursor s <? p.1) && wanted s p) h)).
  by rewrite <- fmap_app, take_drop.
Qed.

Lemma sub_inv_run start t h got ch fail s s' :
  log_ok t h → sub_inv start h got s → run_step ch fail t s = Some s' →
  sub_inv start h got s'.
Proof.
  intros Hlog ((rest & Hdue) & Hm & Hq) Hr.
  destruct (run_step_filter _ _ _ _ _ Hr) as (Hns & Hfl & _).
  unfold sub_inv. rewrite (due_ext s' s) by done. unfold run_step in Hr. unfold pending_of, marks_inv in *.
  destruct (s_pc s) as [|[|e pending] len ok|e pending len ok|e pending len ok| | | |] eqn:Hpc; [| | | | | | | |done].
  - destruct (s_stop s); [by injection Hr as <-; split_and!; [exists rest|..]|].
    destruct (fetch s fail t) as [[batch gap] err] eqn:Hfe.
    assert (gap = None ∧ (∃ ok, s' = with_pc (PSend batch (length batch) ok) s) ∨
      ∃ g, s' = with_pc PReturn (setErr g s)) as [[-> [ok ->]]|[g ->]]; [|split_and!; [|done..]|by split_and!; [exists rest|..]].
    { destruct err, gap as [g|]; simplify_eq; [|by left; eauto|by right; eauto|by left; eauto].
      unfold fetch in Hfe. by repeat case_match. }
    simpl. rewrite app_nil_l, app_assoc in Hdue.
    destruct (fetch_batch s fail t h batch err Hlog Hfe) as [rest' Hb].
    destruct Hlog as (_ & Hsort & _). destruct (due_after s start h _ rest Hsort Hdue) as [Hafter _].
    destruct Hm as [Hcur _]. rewrite <- Hcur, Hb in Hafter. exists rest'. rewrite Hdue, <- Hafter. by rewrite <- app_assoc.
  - injection Hr as <-. unfold after_batch. repeat case_match; (split; [by exists rest|by split]).
  - destruct ch; try done.
    + destruct (s_stop s); [|done]. injection Hr as <-. split; [|by split].
      exists ((e :: pending) ++ rest). done.
    + case_bool_decide as Hlen; [|done]. injection Hr as <-. simpl. split_and!.
      * exists rest. rewrite Hdue. simpl. by rewrite <- !app_assoc.
      * exists (got ++ s_events s). by rewrite app_assoc.
      * rewrite length_app. simpl. lia.
  - injection Hr as <-. simpl. destruct Hm as (k & ? & ? & ?). split_and!; [by exists rest|by exists k|done].
  - injection Hr as <-. simpl. destruct Hm as (k & -> & ? & ?). rewrite delivered_to_snoc.
    split_and!; [by exists rest|done..].
  - destruct ch; try done; [destruct (s_stop s)|destruct (s_wake s)|]; try done; injection Hr as <-;
      (split; [by exists rest|by split]).
  - injection Hr as <-. (split; [by exists rest|by split]).
  - injection Hr as <-. (split; [by exists rest|by split]).
Qed.

Lemma sub_inv_step start x y :
  sys_step x y → log_ok (sy_table x) (sy_history x) →
  sub_inv start (sy_history x) (sy_got x) (sy_sub x) →
  log_ok (sy_table y) (sy_history y) ∧ sub_inv start (sy_history y) (sy_got y) (sy_sub y).
Proof.
  intros Hst Hlog Hinv. destruct Hst; simpl in *.
  - split; [by eapply log_ok_publish|]. destruct Hinv as ((rest & Hdue) & Hrest). split; [|done].
    exists (rest ++ due s start [(n, r)]). by rewrite due_app, Hdue, !app_assoc.
  - split; [by apply log_ok_sweep|done].
  - split; [done|]. by eapply sub_inv_run.
  - split; [done|]. unfold receive in *. destruct (s_events s) as [|e' es] eqn:He; [by case_match|].
    simplify_eq/=. destruct Hinv as ((rest & Hdue) & Hm & Hq). unfold sub_inv in *. rewrite He in *.
    simpl. split_and!; [|unfold marks_inv in *; simpl; by rewrite <- app_assoc|simpl in *; lia].
    exists rest. rewrite (due_ext _ s) by done. rewrite Hdue. unfold pending_of. simpl.
    by rewrite <- !app_assoc.
  - by split.
  - by split.
Qed.

Lemma sub_inv_reach start x y :
  rtc sys_step x y → log_ok (sy_table x) (sy_history x) →
  sub_inv start (sy_history x) (sy_got x) (sy_sub x) →
  log_ok (sy_table y) (sy_history y) ∧ sub_inv start (sy_history y) (sy_got y) (sy_sub y).
Proof.
  intros Hr. induction Hr as [|x y z Hs _ IH]; intros Hlog Hinv; [done|].
  destruct (sub_inv_step start x y Hs Hlog Hinv). by apply IH.
Qed.

Lemma sub_inv_init ns patterns f poll start gap h :
  sub_inv start h [] (new_subscription ns patterns f poll start gap).
Proof.
  unfold sub_inv, new_subscription. destruct gap; simpl; (split_and!; [by eexists|done|lia]).
Qed.

(** ** Delivery *)

Lemma due_sorted s start h : sorted_keys h → StronglySorted Z.lt (Seq <$> due s start h).
Proof.
  intros Hs. unfold due. rewrite <- list_fmap_compose.
  rewrite (list_fmap_ext (Seq ∘ scanEvent) fst); [by apply sorted_keys_filter|].
  intros _ p _. apply Seq_scanEvent.
Qed.

Lemma sys_filter x y : rtc sys_step x y →
  s_namespace (sy_sub y) = s_namespace (sy_sub x) ∧ s_filter (sy_sub y) = s_filter (sy_sub x).
Proof.
  induction 1 as [|x1 x2 x3 Hs _ [-> ->]]; [done|]. destruct Hs; simpl; try done.
  - by destruct (run_step_filter _ _ _ _ _ H) as (-> & -> & _).
  - unfold receive in H. destruct (s_events s); [by case_match|]. by simplify_eq/=.
Qed.

(** The compiled filter selects what the patterns say. *)
Lemma wanted_subscribed s ns patterns p :
  s_namespace s = ns → channelFilter patterns = Ok (s_filter s) →
  Forall (λ q, plain_text q = true) patterns → valid_utf8 (ev_channel p.2) = true →
  wanted s p = subscribed ns patterns p.
Proof.
  intros <- Hf Hp Hc. unfold wanted, subscribed.
  rewrite (channelFilter_go_spec _ _ _ _ Hp Hc Hf). simpl. f_equal.
  destruct (String.eqb_spec (ev_namespace p.2) (s_namespace s)); [by rewrite bool_decide_true|by rewrite bool_decide_false].
Qed.

Lemma due_asked_for s ns patterns start h :
  s_namespace s = ns → channelFilter patterns = Ok (s_filter s) →
  Forall (λ q, plain_text q = true) patterns → text_channels h →
  due s start h = asked_for ns patterns start h.
Proof.
  intros Hns Hf Hp Hh. unfold due, asked_for. f_equal. apply bfilter_ext. intros p Hin.
  rewrite (wanted_subscribed s ns patterns p) by (done || by eapply Forall_forall in Hh).
  done.
Qed.

Lemma marks_LastSeq start l s : marks_inv start l s →
  LastSeq s = delivered_to start (if storing s then removelast l else l).
Proof.
  unfold marks_inv, LastSeq, storing.
  destruct (s_pc s) as [| |e ? ? ?|e ? ? ?| | | |]; try by intros [_ ->].
  all: intros (k & -> & _ & ->); by rewrite removelast_last.
Qed.

(** C6: what a subscriber receives is, whatever publishers, retention, wake-ups and
    its own receiving speed do in between, a prefix of the events published
    after its starting point in its namespace and on its channels: in seq order,
    each exactly once, with none left out. [LastSeq] is the seq of the last one
    handed over, or, while the goroutine is between sending an event and storing
    its seq, that of the one before it: a cursor saved from it never passes an
    event that was not handed over. Patterns are valid UTF-8 without zero bytes,
    channels valid UTF-8. *)
Theorem subscription_delivers (t0 : event_table) (ns : string) (patterns : list string) (f : filter_cond)
    (poll start : Z) (y : Sys) :
  channelFilter patterns = Ok f → Forall (λ q, plain_text q = true) patterns →
  log_wf t0 → rtc sys_step (sys_init t0 (new_subscription ns patterns f poll start None)) y →
  text_channels (sy_history y) →
  let handed := sy_got y ++ s_events (sy_sub y) in
  (∃ rest, asked_for ns patterns start (sy_history y) = handed ++ rest) ∧
  StronglySorted Z.lt (Seq <$> handed) ∧
  LastSeq (sy_sub y) = delivered_to start (if storing (sy_sub y) then removelast handed else handed).
Proof.
  intros Hf Hp Hwf Hr Htext handed.
  destruct (sub_inv_reach start _ _ Hr (log_ok_init t0 Hwf) (sub_inv_init ns patterns f poll start None _))
    as [(_ & Hsort & _) ((rest & Hdue) & Hm & _)].
  destruct (sys_filter _ _ Hr) as [Hns Hfl]. simpl in Hns, Hfl.
  rewrite app_assoc in Hdue. pose proof (due_sorted (sy_sub y) start _ Hsort) as Hd.
  rewrite (due_asked_for _ ns patterns) in Hdue, Hd by (done || by rewrite Hfl). split_and!.
  - exists (pending_of (sy_sub y) ++ rest). rewrite Hdue. unfold handed. by rewrite <- !app_assoc.
  - rewrite Hdue, fmap_app in Hd. by apply StronglySorted_app in Hd as (_ & Hd & _).
  - by apply marks_LastSeq.
Qed.

(** A watcher of channel "a" that receives the second of two events. *)
Definition sub_row (ch : string) : event_row := EventRow ch "default" (Some "1") typeInt 7.
Definition demo_sub : Subscription :=
  new_subscription "default" ["a"] (AnyOf [ChannelIs "a"]) defaultPoll 0 None.
Definition demo_sys : Sys :=
  MkSys (EventTable [(1, sub_row "b"); (2, sub_row "a")] (Some 2)) [(1, sub_row "b"); (2, sub_row "a")]
    (MkSubscription "default" ["a"] (AnyOf [ChannelIs "a"]) 2 defaultPoll [] true false false 2 None
       defaultPoll (PSend [] 1 true))
    [scanEvent (2, sub_row "a")].
(** The receiver is faster than the [Store]. *)
Definition racing_sys : Sys :=
  MkSys (sy_table demo_sys) (sy_history demo_sys)
    (with_pc (PSent (scanEvent (2, sub_row "a")) [] 1 true) (new_subscription "default" ["a"] (AnyOf [ChannelIs "a"]) defaultPoll 0 None))
    (sy_got demo_sys).

Lemma racing_sys_reach : rtc sys_step (sys_init (EventTable [] None) demo_sub) racing_sys.
Proof.
  eapply rtc_l; [apply (step_publish _ _ _ _ (sub_row "b")); vm_compute; reflexivity|].
  eapply rtc_l; [apply (step_publish _ _ _ _ (sub_row "a")); vm_compute; reflexivity|].
  eapply rtc_l; [apply (step_run _ _ _ _ CTimer None); vm_compute; reflexivity|].
  eapply rtc_l; [apply (step_run _ _ _ _ CSend None); vm_compute; reflexivity|].
  eapply rtc_l; [apply step_receive; vm_compute; reflexivity|].
  apply rtc_refl.
Qed.

Lemma demo_sys_reach : rtc sys_step (sys_init (EventTable [] None) demo_sub) demo_sys.
Proof.
  etrans; [apply racing_sys_reach|].
  do 2 (eapply rtc_l; [apply (step_run _ _ _ _ CTimer None); vm_compute; reflexivity|]).
  apply rtc_refl.
Qed.

(** The event has been received while [LastSeq] is still that of the start. *)
Example LastSeq_lags :
  sy_got racing_sys = [scanEvent (2, sub_row "a")] ∧ LastSeq (sy_sub racing_sys) = 0.
Proof. done. Qed.

Lemma subscription_delivers_witness :
  (∃ rest, asked_for "default" ["a"] 0 (sy_history demo_sys) = [scanEvent (2, sub_row "a")] ++ rest) ∧
  StronglySorted Z.lt (Seq <$> [scanEvent (2, sub_row "a")]) ∧
  LastSeq (sy_sub demo_sys) = delivered_to 0 [scanEvent (2, sub_row "a")].
Proof.
  apply (subscription_delivers (EventTable [] None) "default" ["a"] (AnyOf [ChannelIs "a"]) defaultPoll 0 demo_sys).
  - reflexivity.
  - by repeat constructor.
  - apply log_wf_empty.
  - apply demo_sys_reach.
  - by repeat constructor.
Defined.

(** Nothing is left behind: when a poll finds no event and no gap, everything
    published so far that the subscriber asked for has been received or waits in
    its buffer. *)
Theorem empty_poll_complete (t0 : event_table) (ns : string) (patterns : list string) (f : filter_cond)
    (poll start : Z) (y : Sys) :
  channelFilter patterns = Ok f → Forall (λ q, plain_text q = true) patterns →
  log_wf t0 → rtc sys_step (sys_init t0 (new_subscription ns patterns f poll start None)) y →
  text_channels (sy_history y) →
  s_pc (sy_sub y) = PTop → fetch (sy_sub y) None (sy_table y) = ([], None, false) →
  asked_for ns patterns start (sy_history y) = sy_got y ++ s_events (sy_sub y).
Proof.
  intros Hflt Hpat Hwf Hr Htext Hpc Hf. destruct (sys_filter _ _ Hr) as [Hns Hfl]. simpl in Hns, Hfl.
  rewrite <- (due_asked_for (sy_sub y) ns patterns) by (done || by rewrite Hfl).
  destruct (sub_inv_reach start _ _ Hr (log_ok_init t0 Hwf) (sub_inv_init ns patterns f poll start None _))
    as [Hlog ((rest & Hdue) & Hm & _)].
  unfold marks_inv in Hm. rewrite Hpc in Hm. destruct Hm as [Hcur _].
  unfold pending_of in Hdue. rewrite Hpc, app_nil_l, app_assoc in Hdue.
  pose proof Hlog as (_ & Hsort & _). destruct (due_after _ start _ _ rest Hsort Hdue) as [Hafter _].
  rewrite <- Hcur in Hafter. unfold fetch in Hf.
  destruct (gapCheck _ _) eqn:Hg; [done|].
  rewrite (no_gap_complete _ _ _ _ Hlog Hg) in Hf. unfold due in Hafter.
  assert (List.filter (λ p, (s_cursor (sy_sub y) <? p.1) && wanted (sy_sub y) p) (sy_history y) = []) as Hnil.
  { destruct (List.filter _ _) as [|p l]; [done|]. by injection Hf. }
  rewrite Hnil in Hafter. simpl in Hafter. subst rest. by rewrite app_nil_r in Hdue.
Qed.

Definition idle_sys : Sys :=
  MkSys (sy_table demo_sys) (sy_history demo_sys) (with_pc PTop (sy_sub demo_sys)) (sy_got demo_sys).

Lemma idle_sys_reach : rtc sys_step (sys_init (EventTable [] None) demo_sub) idle_sys.
Proof.
  etrans; [apply demo_sys_reach|].
  eapply rtc_l; [apply (step_run _ _ _ _ CTimer None); vm_compute; reflexivity|].
  eapply rtc_l; [apply (step_run _ _ _ _ CTimer None); vm_compute; reflexivity|].
  apply rtc_refl.
Qed.

Lemma empty_poll_complete_witness :
  asked_for "default" ["a"] 0 (sy_history idle_sys) = [scanEvent (2, sub_row "a")].
Proof.
  apply (empty_poll_complete (EventTable [] None) "default" ["a"] (AnyOf [ChannelIs "a"]) defaultPoll 0 idle_sys).
  - reflexivity.
  - by repeat constructor.
  - apply log_wf_empty.
  - apply idle_sys_reach.
  - by repeat constructor.
  - reflexivity.
  - reflexivity.
Defined.

(** ** Gaps *)

(** Every seq after [start] belongs to an event of the history. *)
Definition covered (start : Z) (t : event_table) (h : list (Z * event_row)) : Prop :=
  start ≤ lastAssignedSeq t ∧ ∀ q, start < q ≤ lastAssignedSeq t → ∃ r, (q, r) ∈ h.

(** [run] has left its loop. *)
Definition ended (p : pc) : bool := match p with PReturn | PClosing | PDone => true | _ => false end.

Definition gap_inv (start : Z) (x : Sys) : Prop :=
  covered start (sy_table x) (sy_history x) ∧
  match s_err (sy_sub x) with
  | None => True
  | Some g =>
      ended (s_pc (sy_sub x)) = true ∧ Ahead g = false ∧ RequestedSeq g = s_cursor (sy_sub x) ∧
      ResumeSeq g = OldestSeq g - 1 ∧ RequestedSeq g + 1 < OldestSeq g ∧
      ∀ q, RequestedSeq g < q < OldestSeq g →
        (∃ r, (q, r) ∈ sy_history x) ∧ q ∉ seqs_of (sy_table x) ∧ q ≤ lastAssignedSeq (sy_table x)
  end.

Lemma covered_publish start t h r n t' : log_wf t → insert_event r t = (Some n, t') →
  covered start t h → covered start t' (h ++ [(n, r)]).
Proof.
  intros Hwf Hi [Hle Hc]. destruct (insert_event_some r t n t' Hwf Hi) as [-> ->].
  unfold covered. rewrite lastAssignedSeq_append. split; [lia|]. intros q Hq.
  destruct (decide (q = lastAssignedSeq t + 1)) as [->|].
  - exists r. apply elem_of_app. right. by left.
  - destruct (Hc q ltac:(lia)) as [r' Hr']. exists r'. apply elem_of_app. by left.
Qed.

(** The gap that [gapCheck] reports, for a cursor that was once valid. *)
Lemma gapCheck_lost t h cursor g start : log_ok t h → covered start t h →
  start ≤ cursor ≤ lastAssignedSeq t → gapCheck t cursor = Some g →
  Ahead g = false ∧ RequestedSeq g = cursor ∧ ResumeSeq g = OldestSeq g - 1 ∧ cursor + 1 < OldestSeq g ∧
  ∀ q, cursor < q < OldestSeq g →
    (∃ r, (q, r) ∈ h) ∧ q ∉ seqs_of t ∧ q ≤ lastAssignedSeq t.
Proof.
  intros (Hwf & Hs & Hf & b & Hb) [_ Hcov] Hcur. unfold gapCheck.
  rewrite (proj2 (Z.ltb_ge _ _)) by lia.
  set (o := default (lastAssignedSeq t + 1) (min_seq t)).
  destruct (Z.ltb_spec cursor (o - 1)) as [Hlt|]; [|done]. intros [= <-]. simpl.
  split_and!; [done..|lia|]. intros q Hq.
  assert (o ≤ lastAssignedSeq t + 1 ∧ ∀ q, q ∈ seqs_of t → o ≤ q) as [Ho Hmin].
  { destruct Hwf as (Hsort & Hrows & _). unfold o, min_seq, seqs_of.
    destruct (et_rows t) as [|[m r] l]; simpl; [split; [lia|by intros ? ?%not_elem_of_nil]|].
    apply Forall_cons in Hrows as [Hm _]. simpl in Hm. split; [lia|].
    apply StronglySorted_cons in Hsort as [Hall _]. rewrite Forall_forall in Hall.
    intros q' [->|Hq']%elem_of_cons; [lia|]. apply Hall in Hq'. simpl in Hq'. lia. }
  split_and!; [apply Hcov; lia|intros Hin; apply Hmin in Hin; lia|lia].
Qed.

(** What was handed over was published. *)
Lemma delivered_last s start t h l rest :
  covered start t h → Forall (λ p : Z * event_row, p.1 ≤ lastAssignedSeq t) h → due s start h = l ++ rest →
  delivered_to start l ≤ lastAssignedSeq t.
Proof.
  intros Hcov Hf Hdue. unfold delivered_to. destruct (last l) as [e|] eqn:Hl; [|by destruct Hcov].
  assert (e ∈ due s start h) as Hin.
  { rewrite Hdue. apply elem_of_app. left. by apply last_Some_elem_of. }
  unfold due in Hin. apply list_elem_of_fmap in Hin as (p & -> & [_ Hp]%elem_of_bfilter).
  rewrite Seq_scanEvent. rewrite Forall_forall in Hf. by apply Hf.
Qed.

(** A step of [run] leaves [err] alone but where a poll finds a gap. *)
Lemma run_step_err ch fail t s s' : s_err s = None → run_step ch fail t s = Some s' →
  s_err s' = None ∨ ∃ g, s_pc s = PTop ∧ s' = with_pc PReturn (setErr g s) ∧ gapCheck t (s_cursor s) = Some g.
Proof.
  intros He Hr. unfold run_step in Hr.
  destruct (s_pc s) as [|[|e pending] len ok|e pending len ok|e pending len ok| | | |] eqn:Hpc; [| | | | | | | |done].
  - destruct (s_stop s); [injection Hr as <-; by left|].
    destruct (fetch s fail t) as [[batch gap] err] eqn:Hfe.
    destruct gap as [g|], err; try (injection Hr as <-; by left).
    injection Hr as <-. right. exists g. split_and!; [done..|]. unfold fetch in Hfe. repeat case_match; congruence.
  - injection Hr as <-. unfold after_batch. left. by repeat case_match.
  - left. destruct ch; try done; [destruct (s_stop s); [|done]|case_bool_decide; [|done]]; by injection Hr as <-.
  - injection Hr as <-. by left.
  - injection Hr as <-. by left.
  - left. destruct ch; try done; [destruct (s_stop s); [|done]|destruct (s_wake s); [|done]|]; by injection Hr as <-.
  - injection Hr as <-. by left.
  - injection Hr as <-. by left.
Qed.

(** The gap rule sees every published event after the cursor that is gone. *)
Lemma lost_gapCheck t h cursor q r : log_ok t h → (q, r) ∈ h → cursor < q → q ∉ seqs_of t →
  is_Some (gapCheck t cursor).
Proof.
  intros (Hwf & Hs & Hf & b & Hb) Hin Hlt Hni. unfold gapCheck.
  rewrite Forall_forall in Hf. pose proof (Hf _ Hin) as Hle. simpl in Hle.
  destruct (Z.ltb_spec (lastAssignedSeq t) cursor); [by eexists|].
  assert (q ≤ b) as Hqb.
  { destruct (Z.le_gt_cases q b); [done|]. exfalso. apply Hni. unfold seqs_of. rewrite Hb.
    apply (list_elem_of_fmap_2 fst _ (q, r)). apply elem_of_bfilter. split; [by apply Z.ltb_lt|done]. }
  unfold min_seq, seqs_of. destruct (et_rows t) as [|[o r'] l] eqn:Hr; simpl.
  - rewrite (proj2 (Z.ltb_lt _ _)) by lia. by eexists.
  - assert ((o, r') ∈ List.filter (λ p, b <? p.1) h) as [Ho _]%elem_of_bfilter by (rewrite <- Hb; left).
    apply Z.ltb_lt in Ho. simpl in Ho. rewrite (proj2 (Z.ltb_lt _ _)) by lia. by eexists.
Qed.

Lemma gap_inv_step start x y : sys_step x y → log_ok (sy_table x) (sy_history x) →
  sub_inv start (sy_history x) (sy_got x) (sy_sub x) → gap_inv start x → gap_inv start y.
Proof.
  intros Hst Hlog Hsub [Hcov Hg]. pose proof Hlog as (Hwf & Hsort & Hf & _).
  destruct Hst; unfold gap_inv in *; simpl in *.
  - split; [by eapply covered_publish|]. destruct (s_err s) as [g|]; [|done].
    destruct Hg as (? & ? & ? & ? & ? & Hq). split_and!; try done. intros q Hlt.
    destruct (Hq q Hlt) as ([r' Hr'] & Hni & Hle).
    destruct (insert_event_some r t n t' Hwf H) as [-> ->]. rewrite lastAssignedSeq_append.
    split_and!; [exists r'; apply elem_of_app; by left| |lia].
    unfold seqs_of, append_event. simpl. rewrite fmap_app. intros [?|Hq']%elem_of_app; [done|].
    apply list_elem_of_singleton in Hq'. simpl in Hq'. lia.
  - split; [done|]. destruct (s_err s) as [g|]; [|done].
    destruct Hg as (? & ? & ? & ? & ? & Hq). split_and!; try done. intros q Hlt.
    destruct (Hq q Hlt) as (Hr' & Hni & Hle). split_and!; [done| |done].
    intros (p & -> & Hp)%list_elem_of_fmap. simpl in Hp. apply elem_of_bfilter in Hp as [_ Hp].
    apply Hni. by apply list_elem_of_fmap_2.
  - split; [done|]. destruct (s_err s) as [g|] eqn:He.
    { destruct Hg as (Hpc & Hg). unfold run_step in H.
      destruct (s_pc s); try done; injection H as <-; simpl; rewrite He; by split. }
    destruct (run_step_err _ _ _ _ _ He H) as [->|(g & Hpc & -> & Hgc)]; [done|]. simpl.
    destruct Hsub as ((rest & Hdue) & Hm & _). unfold marks_inv in Hm. rewrite Hpc in Hm. destruct Hm as [Hcur _].
    rewrite app_assoc in Hdue. destruct (due_after s start h _ _ Hsort Hdue) as [_ Hle].
    pose proof (delivered_last s start t h _ _ Hcov Hf Hdue) as Hlast. rewrite <- Hcur in Hlast, Hle.
    destruct (gapCheck_lost t h (s_cursor s) g start Hlog Hcov ltac:(lia) Hgc) as (? & Hreq & ? & ? & Hq).
    rewrite Hreq. by split_and!.
  - split; [done|]. unfold receive in H. destruct (s_events s); [by destruct (s_open s)|]. by simplify_eq/=.
  - by split.
  - by split.
Qed.

(** C12: a gap is never invented and never skipped over, in a log from which retention
    alone removes events. A subscription whose starting point was valid ends
    with a gap error only if at least one event after its last delivered seq was
    published and is no longer stored; the lost range
    [RequestedSeq+1 .. OldestSeq-1] of the error consists exactly of such
    events, and the error is not the "ahead of the file" one. Conversely, when
    an event after the last delivered seq is no longer stored, whatever its
    channel, the next poll that reaches the file ends the subscription with a
    gap error and delivers nothing; one that the driver fails before delivers
    nothing either. *)
Theorem gap_reports_loss (t0 : event_table) (ns : string) (patterns : list string) (f : filter_cond)
    (poll start : Z) (y : Sys) :
  log_wf t0 → covered start t0 (et_rows t0) →
  rtc sys_step (sys_init t0 (new_subscription ns patterns f poll start None)) y →
  let s := sy_sub y in
  let delivered := delivered_to start (sy_got y ++ s_events s) in
  (∀ g, Err_ s = Some g →
    Ahead g = false ∧ RequestedSeq g = delivered ∧
    RequestedSeq g + 1 < OldestSeq g ∧ ResumeSeq g = OldestSeq g - 1 ∧
    ∀ q, RequestedSeq g < q < OldestSeq g →
      (∃ r, (q, r) ∈ sy_history y) ∧ q ∉ seqs_of (sy_table y)) ∧
  (s_pc s = PTop → s_stop s = false →
   ∀ q r, (q, r) ∈ sy_history y → delivered < q → q ∉ seqs_of (sy_table y) →
   ∀ ch fail, ∃ s', run_step ch fail (sy_table y) s = Some s' ∧
     s_events s' = s_events s ∧ pending_of s' = [] ∧
     (fail ≠ Some 0%nat → ended (s_pc s') = true ∧ ∃ g, Err_ s' = Some g)).
Proof.
  intros Hwf Hcov Hr s delivered.
  assert (∀ x, rtc sys_step x y → log_ok (sy_table x) (sy_history x) →
    sub_inv start (sy_history x) (sy_got x) (sy_sub x) → gap_inv start x →
    gap_inv start y ∧ log_ok (sy_table y) (sy_history y) ∧ sub_inv start (sy_history y) (sy_got y) (sy_sub y)) as Hreach.
  { clear. induction 1 as [x|x1 x2 x3 Hs _ IH]; intros Hlog Hsub Hg; [done|].
    pose proof (gap_inv_step start x1 x2 Hs Hlog Hsub Hg).
    destruct (sub_inv_step start x1 x2 Hs Hlog Hsub). by apply IH. }
  destruct (Hreach _ Hr (log_ok_init t0 Hwf) (sub_inv_init ns patterns f poll start None _))
    as ([_ Hg] & Hlog & (_ & Hm & _)); [by split|]. fold s in Hg, Hm. split.
  - intros g Herr. unfold Err_ in Herr. rewrite Herr in Hg. destruct Hg as (Hend & Ha & Hreq & Hres & Hlt & Hq).
    unfold marks_inv in Hm. assert (s_cursor s = delivered) as Hcur by (by destruct (s_pc s); try done; destruct Hm).
    split_and!; [done|by rewrite Hreq|done|done|]. intros q Hrange. by destruct (Hq q Hrange) as (? & ? & _).
  - intros Hpc Hstop q r Hin Hlt Hni ch fail. unfold marks_inv in Hm. rewrite Hpc in Hm. destruct Hm as [Hcur _].
    fold delivered in Hcur. rewrite <- Hcur in Hlt.
    destruct (lost_gapCheck _ _ _ _ _ Hlog Hin Hlt Hni) as [g Hgc].
    unfold run_step, fetch. rewrite Hpc, Hstop, Hgc.
    destruct fail as [[|k]|]; (eexists; split_and!; [reflexivity|done|done|]); [done|..];
      (split; [done|by exists g]).
Qed.

(** The watcher of "a" sleeps while events 1 and 2 are published and swept. *)
Definition gap_sys : Sys :=
  MkSys (EventTable [] (Some 2)) [(1, sub_row "a"); (2, sub_row "b")]
    (with_pc PReturn (setErr (GapError 0 3 2 false) demo_sub)) [].
Definition lost_sys : Sys := MkSys (sy_table gap_sys) (sy_history gap_sys) demo_sub [].

Lemma lost_sys_reach : rtc sys_step (sys_init (EventTable [] None) demo_sub) lost_sys.
Proof.
  eapply rtc_l; [apply (step_publish _ _ _ _ (sub_row "a")); vm_compute; reflexivity|].
  eapply rtc_l; [apply (step_publish _ _ _ _ (sub_row "b")); vm_compute; reflexivity|].
  eapply rtc_l; [apply (step_sweep _ _ _ _ 2)|].
  apply rtc_refl.
Qed.
Lemma gap_sys_reach : rtc sys_step (sys_init (EventTable [] None) demo_sub) gap_sys.
Proof.
  etrans; [apply lost_sys_reach|].
  eapply rtc_l; [apply (step_run _ _ _ _ CTimer None); vm_compute; reflexivity|].
  apply rtc_refl.
Qed.
Lemma covered_empty : covered 0 (EventTable [] None) [].
Proof. split; [done|]. intros q Hq. exfalso. unfold lastAssignedSeq in Hq. simpl in Hq. lia. Qed.

Lemma gap_reports_loss_witness :
  ((∃ r, (1, r) ∈ sy_history gap_sys) ∧ 1 ∉ seqs_of (sy_table gap_sys)) ∧
  ∃ s' g, run_step CTimer None (sy_table lost_sys) (sy_sub lost_sys) = Some s' ∧ Err_ s' = Some g.
Proof.
  split.
  - destruct (proj1 (gap_reports_loss (EventTable [] None) "default" ["a"] (AnyOf [ChannelIs "a"]) defaultPoll 0 gap_sys
      log_wf_empty covered_empty gap_sys_reach) (GapError 0 3 2 false) eq_refl) as (_ & _ & _ & _ & Hq).
    apply Hq. simpl. lia.
  - destruct (proj2 (gap_reports_loss (EventTable [] None) "default" ["a"] (AnyOf [ChannelIs "a"]) defaultPoll 0 lost_sys
      log_wf_empty covered_empty lost_sys_reach) eq_refl eq_refl 1 (sub_row "a") ltac:(left) ltac:(reflexivity)
      ltac:(apply not_elem_of_nil) CTimer None) as (s' & Hs & _ & _ & Hg).
    destruct (Hg ltac:(discriminate)) as [_ [g Hg']]. by exists s', g.
Defined.

(** A gap need not concern the subscriber: the cursor moves only on events it
    receives, so a watcher of a silent channel is ended by the retention of
    another channel's events, though it missed nothing. *)
Example idle_watcher_gap :
  let t := keep_events (λ p, p.1 <=? 2) (EventTable [(1, sub_row "b"); (2, sub_row "b"); (3, sub_row "b")] (Some 3)) in
  due demo_sub 0 [(1, sub_row "b"); (2, sub_row "b"); (3, sub_row "b")] = [] ∧
  fetch demo_sub None t = ([], Some (GapError 0 3 2 false), false).
Proof. vm_compute. done. Qed.

(** An event deleted from the middle of the log by [DeleteEvent] is not
    noticed: the gap rule only looks at the oldest row. *)
Example interior_deletion_unnoticed :
  let t := keep_events (λ p, p.1 =? 2) (EventTable [(1, sub_row "a"); (2, sub_row "a"); (3, sub_row "a")] (Some 3)) in
  fetch demo_sub None t = ([scanEvent (1, sub_row "a"); scanEvent (3, sub_row "a")], None, false).
Proof. vm_compute. done. Qed.

(** ** Close and the polling interval *)

(** How many steps [run] can still make once [stop] is closed: three for each
    event it could still send, and the way out. *)
Definition close_measure (s : Subscription) : nat :=
  match s_pc s with
  | PTop => 3
  | PSend pending _ _ => 3 * length pending + 5
  | PSent _ pending _ _ => 3 * length pending + 7
  | PMoved _ pending _ _ => 3 * length pending + 6
  | PSleep => 4
  | PReturn => 2
  | PClosing => 1
  | PDone => 0
  end.

(** Run the goroutine on a schedule (what each [select] takes, and the snapshot
    and failure of a poll) until a step is not enabled. *)
Fixpoint run_schedule (chs : list (choice * option nat * event_table)) (s : Subscription) : nat * Subscription :=
  match chs with
  | [] => (0%nat, s)
  | (ch, fail, t) :: chs =>
      match run_step ch fail t s with
      | Some s' => let '(n, s2) := run_schedule chs s' in (S n, s2)
      | None => (0%nat, s)
      end
  end.

Lemma run_step_stopped ch fail t s s' : s_stop s = true → run_step ch fail t s = Some s' →
  s_stop s' = true ∧ (close_measure s' < close_measure s)%nat.
Proof.
  intros Hs Hr. unfold run_step, close_measure in *.
  destruct (s_pc s) as [|[|e p] len ok|e p len ok|e p len ok| | | |] eqn:Hpc; [| | | | | | | |done].
  - rewrite Hs in Hr. injection Hr as <-. simpl. split; [done|lia].
  - injection Hr as <-. unfold after_batch. repeat case_match; simpl in *; simplify_eq/=; (split; [done|lia]).
  - destruct ch; try done; [rewrite Hs in Hr|case_bool_decide; [|done]]; injection Hr as <-; simpl; split; done || lia.
  - injection Hr as <-. simpl. split; [done|lia].
  - injection Hr as <-. simpl. split; [done|lia].
  - destruct ch; try done; [rewrite Hs in Hr|destruct (s_wake s); [|done]|]; injection Hr as <-; simpl; split; done || lia.
  - injection Hr as <-. simpl. split; [done|lia].
  - injection Hr as <-. simpl. split; [done|lia].
Qed.

(** C27: [Close] returns: once [stop] is closed the goroutine ends after at most three
    steps for each event of its unsent batch and seven more, however Go's [select]
    chooses among ready cases, and it is never stuck, not even on a full buffer that nobody
    reads. *)
Theorem Close_returns (s : Subscription) (chs : list (choice * option nat * event_table)) :
  s_stop s = true →
  ((run_schedule chs s).1 ≤ close_measure s ≤ 3 * length (pending_of s) + 7)%nat ∧
  (∀ fail t, s_pc s ≠ PDone → is_Some (run_step CStop fail t s)) ∧
  (close_measure s = 0%nat → s_pc s = PDone).
Proof.
  intros Hs. split_and!; [|unfold close_measure, pending_of; destruct (s_pc s); simpl; lia|..].
  - revert s Hs. induction chs as [|[[ch fail] t] chs IH]; intros s Hs; simpl; [lia|].
    destruct (run_step ch fail t s) as [s'|] eqn:Hr; simpl; [|lia].
    destruct (run_step_stopped _ _ _ _ _ Hs Hr) as [Hs' Hm]. specialize (IH s' Hs').
    destruct (run_schedule chs s'). simpl in *. lia.
  - intros fail t. unfold run_step. destruct (s_pc s) as [|[|e p] len ok|e p len ok|e p len ok| | | |]; rewrite ?Hs; eauto; done.
  - unfold close_measure. destruct (s_pc s); done || lia.
Qed.

Lemma Close_returns_witness :
  let s := Close_begin (sy_sub idle_sys) in
  let chs := [(CStop, None, EventTable [] None); (CStop, Some 0%nat, EventTable [] None)] in
  ((run_schedule chs s).1 ≤ 3 ≤ 3 * 0 + 7)%nat ∧ (∀ fail t, s_pc s ≠ PDone → is_Some (run_step CStop fail t s)) ∧
  (close_measure s = 0%nat → s_pc s = PDone).
Proof. intros s chs. apply (Close_returns s chs). reflexivity. Defined.

(** Between the configured interval and one second, or the interval if longer. *)
Definition interval_ok (s : Subscription) : Prop :=
  0 < s_pollInterval s ∧ s_pollInterval s ≤ s_interval s ≤ Z.max maxIdleInterval (s_pollInterval s).

(** The polling interval stays between the configured one and the idle cap of one
    second (or the configured one, if that is longer) through every step, and an
    idle poll at most doubles it. *)
Theorem interval_bounds (ch : choice) (fail : option nat) (t : event_table) (s s' : Subscription) :
  interval_ok s → run_step ch fail t s = Some s' → interval_ok s' ∧ s_interval s' ≤ 2 * s_interval s.
Proof.
  intros (Hp & Hlo & Hhi) Hr. unfold interval_ok.
  destruct (run_step_filter _ _ _ _ _ Hr) as (_ & _ & ->).
  assert (s_interval s' = s_interval s ∨ s_interval s' = s_pollInterval s ∨
    s_interval s' = Z.min (s_interval s * 2) (Z.max maxIdleInterval (s_pollInterval s))) as Hi.
  { unfold run_step, after_batch in Hr. repeat (case_hyp Hr; try discriminate);
      injection Hr as <-; simpl; auto. }
  unfold maxIdleInterval, Second in *. lia.
Qed.

Lemma interval_bounds_witness :
  interval_ok (after_batch 0 true demo_sub) ∧ s_interval (after_batch 0 true demo_sub) ≤ 2 * s_interval demo_sub.
Proof.
  apply (interval_bounds CStop None (EventTable [] None) (with_pc (PSend [] 0 true) demo_sub)); [|reflexivity].
  unfold interval_ok. vm_compute. split; [reflexivity|]. split; intros H; discriminate H.
Defined.

(** [Watch] starts where it says: with no option at the last event ever published, so
    only later ones are seen; with [FromSeq 0] just before the oldest event
    still stored; with [FromSeq n] at [n], and then it has ended with a gap
    error exactly if events after [n] are gone or [n] is ahead of the file. *)
Theorem Watch_start `{H : Host} `{!Quiet H} (c : Cache) (patterns : list string) (f : filter_cond)
    (opts : list watch_option) (w : World) (t : event_table) :
  db_events (w_db w) = Some t → patterns ≠ [] → channelFilter patterns = Ok f →
  let o := foldl apply_watch (MkWatchOptions None defaultPoll) opts in
  0 < pollInterval o → (∀ n, fromSeq o = Some n → 0 ≤ n) →
  ∃ id w', Watch c patterns opts w =
      (Ok (id, new_subscription (namespace c) patterns f (pollInterval o)
                 (watch_start (fromSeq o) t).1 (watch_start (fromSeq o) t).2), w') ∧
    p_wake (w_proc w) !! id = None ∧ p_wake (w_proc w') !! id = Some false ∧
    db_events (w_db w') = Some t ∧ db_cache (w_db w') = db_cache (w_db w).
Proof.
  intros Ht Hne Hf o Hp Hn.
  assert (wp (Watch c patterns opts) w (λ r w', ∃ id, r = Ok (id, new_subscription (namespace c) patterns f
      (pollInterval o) (watch_start (fromSeq o) t).1 (watch_start (fromSeq o) t).2) ∧
    p_wake (w_proc w) !! id = None ∧ p_wake (w_proc w') !! id = Some false ∧
    db_events (w_db w') = Some t ∧ db_cache (w_db w') = db_cache (w_db w))) as Hwp.
  { unfold Watch. destruct patterns as [|p ps]; [done|]. wp_go. rewrite Hf. fold o.
    rewrite (proj2 (Z.leb_gt _ _)) by done.
    assert (match fromSeq o with Some n => n <? 0 | None => false end = false) as ->.
    { destruct (fromSeq o) as [n|]; [|done]. apply Z.ltb_ge. by apply Hn. }
    unfold ensureEvents. apply wp_bind, wp_bind, wp_get_proc.
    assert (∀ w1 : World, db_events (w_db w1) = Some t → db_cache (w_db w1) = db_cache (w_db w) →
      p_wake (w_proc w1) = p_wake (w_proc w) →
      wp (r ← query (read_events (watch_start (fromSeq o)));
          '(start, gap) ← or_db_error r;
          p0 ← get_proc;
          let id := fresh (dom (p_wake p0)) in
          mod_proc (λ p, set_wake (<[id := false]> (p_wake p)) p) ;;
          mret (id, new_subscription (namespace c) (p :: ps) f (pollInterval o) start gap)) w1
        (λ r w', ∃ id, r = Ok (id, new_subscription (namespace c) (p :: ps) f (pollInterval o)
            (watch_start (fromSeq o) t).1 (watch_start (fromSeq o) t).2) ∧
          p_wake (w_proc w) !! id = None ∧ p_wake (w_proc w') !! id = Some false ∧
          db_events (w_db w') = Some t ∧ db_cache (w_db w') = db_cache (w_db w))) as Hrest.
    { intros w1 He Hc Hw. wp_go. unfold read_events. rewrite He. cbn [fmap option_fmap option_map or_db_error].
      wp_go. destruct (watch_start (fromSeq o) t) as [start gap]. wp_go. simpl.
      eexists. split_and!; [reflexivity| |by rewrite lookup_insert_eq|done|done].
      rewrite <- Hw. apply not_elem_of_dom. apply is_fresh. }
    destruct (p_eventsReady (w_proc w)); [apply wp_ret; by apply Hrest|].
    apply wp_bind, wp_exec, wp_mod_proc, Hrest; simpl; [|done|done]. unfold create_events. by rewrite Ht. }
  destruct Hwp as (id & Hok & Hrest). exists id, (Watch c patterns opts w).2.
  split; [|done]. rewrite <- Hok. by destruct (Watch c patterns opts w).
Qed.

Lemma Watch_start_witness :
  let _ := still_host 5000000 in
  ∃ id w', Watch (demo_cache "default") ["a"] [FromSeq 0]
      (init_world (set_events (Some demo_log) empty_db)) =
      (Ok (id, new_subscription "default" ["a"] (AnyOf [ChannelIs "a"]) defaultPoll 0 None), w') ∧
    (∅ : gmap nat bool) !! id = None ∧ p_wake (w_proc w') !! id = Some false ∧
    db_events (w_db w') = Some demo_log ∧ db_cache (w_db w') = ∅.
Proof.
  intros host.
  apply (@Watch_start host (still_quiet 5000000) (demo_cache "default") ["a"] (AnyOf [ChannelIs "a"])
    [FromSeq 0] (init_world (set_events (Some demo_log) empty_db)) demo_log); try done.
  intros n [= <-]. done.
Defined.
