(* ===== verification/Changes.v ===== *)
(** Change records: [lytecache-go/changes.go].

    A committed mutation is reported once, to the in-process listeners through
    the dispatcher's queue and, with [WithPublishChanges], as an event. The
    dispatch goroutine is [dispatch_step], one iteration of its loop; waiting
    on the condition variable is an iteration that finds nothing to do.
    [Background] lets other goroutines run between its critical sections. *)

From S2P Require Import Prelude GoStd Values Store Engine Channels EventLog.
Open Scope Z_scope.

Definition OpSet : string := "set".
Definition OpDelete : string := "delete".
Definition OpFlush : string := "flush".
Definition allOps : list string := [OpSet; OpDelete; OpFlush].

Definition validOps (ops : list string) : result (list string) :=
  if forallb (λ op, String.eqb op OpSet || String.eqb op OpDelete || String.eqb op OpFlush) ops
  then Ok (remove_dups ops) else Err ErrInvalidArgument.

(** The record as a Go value whose type is [ChangeRecord]; [json.Marshal]
    never fails on it. *)
Class ChangeJson (GL : GoLib) := {
  record_value : ChangeRecord → jval;
  record_marshals r : is_Some (Marshal (record_value r))
}.

Definition newRecord (c : Cache) (op : string) (keys : option (list string)) (count : Z)
    : ChangeRecord :=
  match keys with
  | None => MkChangeRecord op (namespace c) None count true
  | Some ks =>
      if changeKeyCap c <? Z.of_nat (length ks)
      then MkChangeRecord op (namespace c) None count true
      else MkChangeRecord op (namespace c) (Some ks) count false
  end.

(** ** The dispatcher *)

Definition newDispatcher : dispatcher := MkDispatcher ∅ 0 [] false 0.

Definition add_listener (ops : list string) (d : dispatcher) : nat * dispatcher :=
  (nextID d, MkDispatcher (<[nextID d := ops]> (listeners d)) (S (nextID d)) (queue d)
               (closed d) (depth d)).
Definition remove_listener (id : nat) (d : dispatcher) : dispatcher :=
  MkDispatcher (delete id (listeners d)) (nextID d) (queue d) (closed d) (depth d).

Definition wants (op : string) (d : dispatcher) : bool :=
  existsb (λ p : nat * list string, bool_decide (op ∈ p.2)) (map_to_list (listeners d)).

Definition enqueue (rec : ChangeRecord) (dep : Z) (d : dispatcher) : dispatcher :=
  MkDispatcher (listeners d) (nextID d) (queue d ++ [(rec, dep)]) (closed d) (depth d).

Definition submit (in_dispatch : bool) (rec : ChangeRecord) (d : dispatcher) : dispatcher :=
  let dep := if in_dispatch then depth d + 1 else 1 in
  if maxDispatchDepth <? dep then d            (* dropped with a warning *)
  else if closed d then d
  else enqueue rec dep d.

Definition close_dispatcher (d : dispatcher) : dispatcher :=
  MkDispatcher ∅ (nextID d) (queue d) true (depth d).

(** The listeners an item goes to, in registration order. *)
Definition targets (rec : ChangeRecord) (d : dispatcher) : list nat :=
  merge_sort le
    ((List.filter (λ p : nat * list string, bool_decide (Op rec ∈ p.2)) (map_to_list (listeners d))).*1).

Definition set_depth (dep : Z) (d : dispatcher) : dispatcher :=
  MkDispatcher (listeners d) (nextID d) (queue d) (closed d) dep.
Definition set_queue (q : list (ChangeRecord * Z)) (d : dispatcher) : dispatcher :=
  MkDispatcher (listeners d) (nextID d) q (closed d) (depth d).

(** The registration of an id, if it has not been removed. *)
Definition listener_of (id : nat) (p : Proc) : option (list string) :=
  p_dispatcher p ≫= λ d, listeners d !! id.

Definition mod_dispatcher (f : dispatcher → dispatcher) (p : Proc) : Proc :=
  set_dispatcher (f <$> p_dispatcher p) p.

Section changes.
Context {H : Host} {GL : GoLib} {CJ : ChangeJson GL}.

Definition changed (c : Cache) (op : string) (keys : option (list string)) (count : Z) : M () :=
  p ← get_proc;
  let toListeners := match p_dispatcher p with Some d => wants op d | None => false end in
  let publish := bool_decide (op ∈ publishOps c) in
  if negb toListeners && negb publish then mret tt
  else
    let rec := newRecord c op keys count in
    when toListeners (mod_proc (λ p, mod_dispatcher (submit (p_in_dispatch p) rec) p)) ;;
    when publish
      (_ ← attempt (insertEvents c [(cacheChannel, GOther (record_value rec))]); mret tt).

(** [OnChange] returns the id that the unsubscribe closure removes. *)
Definition OnChange (ops : list string) : M nat :=
  set ← lift (validOps (match ops with [] => allOps | _ => ops end));
  p ← get_proc;
  let '(id, d) := add_listener set (default newDispatcher (p_dispatcher p)) in
  mod_proc (set_dispatcher (Some d)) ;;
  mret id.

Definition unsubscribe (id : nat) : M () := mod_proc (mod_dispatcher (remove_listener id)).

(** The caller's listener functions; a panic is an error here. *)
Context (listener : nat → ChangeRecord → M ()).

(** [call]: the listener is looked up again, and a panic is recovered. *)
Definition call (id : nat) (rec : ChangeRecord) : M () :=
  p ← get_proc;
  match listener_of id p with
  | Some _ => _ ← attempt (listener id rec); mret tt
  | None => mret tt
  end.

Fixpoint call_all (ids : list nat) (rec : ChangeRecord) : M () :=
  match ids with
  | [] => mret tt
  | id :: ids => call id rec ;; call_all ids rec
  end.

(** One iteration of [run]; the result tells whether it dispatched a record. *)
Definition dispatch_step : M bool :=
  p ← get_proc;
  match p_dispatcher p with
  | None => mret false
  | Some d =>
      if closed d then mret false
      else match queue d with
      | [] => mret false
      | (rec, dep) :: q =>
          mod_proc (λ p, set_in_dispatch true
                           (set_dispatcher (Some (set_depth dep (set_queue q d))) p)) ;;
          call_all (targets rec d) rec ;;
          mod_proc (λ p, set_in_dispatch false (mod_dispatcher (set_depth 0) p)) ;;
          mret true
      end
  end.

(** The loop until the queue is empty. *)
Fixpoint run_dispatcher (fuel : nat) : M () :=
  match fuel with
  | O => hang
  | S fuel =>
      more ← dispatch_step;
      if more : bool then run_dispatcher fuel else mret tt
  end.
End changes.

(** [Close] of the dispatcher, without the wait for its goroutine. *)
Definition close_listeners : M () := mod_proc (mod_dispatcher close_dispatcher).

(** A toy instance for concrete runs. *)
Definition toy_json : ChangeJson toy_lib :=
  @Build_ChangeJson toy_lib
    (λ r, Op r +:+ ":" +:+ Namespace r +:+ ":" +:+ FormatInt (Count r))
    (λ r, ltac:(by eexists)).

(** ** Lemmas *)

Section changes_specs.
Context {H : Host} {GL : GoLib} {CJ : ChangeJson GL}.

Lemma keeps_insert_rows R ns now rows `{!Tolerates R} :
  (∀ r d, R d (on_events (insert_event r) d).2) → keeps R (insert_rows ns now rows).
Proof.
  intros HR. induction rows as [|[[ch data] vt] rows IH]; simpl; unfold or_db_error;
    keeps_solve; eauto.
Qed.

(** A record changes the events and the process only, never the cache. *)
Lemma changed_cache `{!Alone H} c op keys count w :
  db_cache (w_db (changed c op keys count w).2) = db_cache (w_db w).
Proof.
  assert (keeps (λ d d', db_cache d' = db_cache d) (changed c op keys count)) as Hk; [|apply Hk].
  assert (PreOrder (λ d d' : Database, db_cache d' = db_cache d)).
  { split; [by intros ?|intros ???; congruence]. }
  unfold changed, insertEvents, ensureEvents. keeps_solve; try done.
  all: apply keeps_insert_rows; first [typeclasses eauto|intros; apply on_events_cache].
Qed.

Lemma changed_silent c op keys count w :
  p_dispatcher (w_proc w) = None → op ∉ publishOps c →
  changed c op keys count w = (Ok tt, w).
Proof.
  intros Hd Hp. unfold changed, mbind, M_bind. simpl. rewrite Hd.
  by rewrite bool_decide_false by done.
Qed.

Lemma insert_rows_no_hang ns now rows : no_hang (insert_rows ns now rows).
Proof.
  induction rows as [|[[ch data] vt] rows IH]; simpl; unfold or_db_error; returns_solve; done.
Qed.

Lemma encode_all_no_hang events : encode_all events ≠ Hang.
Proof.
  induction events as [|[ch v] events IH]; simpl; [done|].
  assert (encodeValue v ≠ Hang).
  { unfold encodeValue, encodeUintBytes, encodeFloatBytes. by repeat case_match. }
  destruct (encodeValue v) as [[]| |]; simpl; [|done..].
  by destruct (encode_all events).
Qed.

Lemma insertEvents_no_hang c events : no_hang (insertEvents c events).
Proof.
  pose proof insert_rows_no_hang. unfold insertEvents, ensureEvents.
  apply no_hang_bind; [intros w; apply encode_all_no_hang|].
  returns_solve; done.
Qed.

(** Reporting a change always returns: a failed publish is only logged. *)
Lemma changed_returns c op keys count : returns (changed c op keys count).
Proof. pose proof insertEvents_no_hang. unfold changed. returns_solve; done. Qed.
Lemma wp_changed `{!Alone H} c op keys count w (Q : result () → World → Prop) :
  (∀ w', db_cache (w_db w') = db_cache (w_db w) → Q (Ok tt) w') → wp (changed c op keys count) w Q.
Proof.
  intros HQ. unfold wp. destruct (changed_returns c op keys count w) as [[] ->].
  apply HQ, changed_cache.
Qed.

Lemma grows_changed c op keys count : grows (changed c op keys count).
Proof.
  assert (∀ ns now rows, grows (insert_rows ns now rows)) as Hins.
  { intros ns now rows. induction rows as [|[[ch data] vt] rows IH]; simpl; unfold or_db_error;
      grows_solve; done. }
  unfold changed, insertEvents, ensureEvents. grows_solve; done.
Qed.
End changes_specs.
#[export] Hint Resolve changed_returns grows_changed : keeps.

(** ** Feedback through listeners

    A listener that writes to the cache submits new records one level deeper.
    Each record is given the number of dispatches it can still cause when a
    dispatch submits at most [b] records. *)

Fixpoint cascade (b : nat) (levels : nat) : nat :=
  match levels with O => 1 | S n => 1 + b * cascade b n end.
Definition item_weight (b : nat) (q : ChangeRecord * Z) : nat :=
  cascade b (Z.to_nat (maxDispatchDepth - q.2)).
Definition queue_weight (b : nat) (l : list (ChangeRecord * Z)) : nat :=
  foldr (λ q a, item_weight b q + a)%nat 0%nat l.

Definition depth_ok (q : ChangeRecord * Z) : Prop := 1 ≤ q.2 ≤ maxDispatchDepth.

(** What a listener may do to the dispatcher: [submit] at most [b] records from
    the dispatch goroutine. *)
Definition submits (b : nat) (w w' : World) : Prop :=
  p_in_dispatch (w_proc w') = p_in_dispatch (w_proc w) ∧
  ∀ d, p_dispatcher (w_proc w) = Some d →
    ∃ recs, (length recs ≤ b)%nat ∧
      p_dispatcher (w_proc w') = Some (foldl (λ d rec, submit true rec d) d recs).

(** What comes of it: at most [b] items in the queue, each one level below the
    record being dispatched, and none below the last level. *)
Definition feeds (b : nat) (w w' : World) : Prop :=
  p_in_dispatch (w_proc w') = p_in_dispatch (w_proc w) ∧
  ∀ d, p_dispatcher (w_proc w) = Some d →
    ∃ new, p_dispatcher (w_proc w') = Some (set_queue (queue d ++ new) d) ∧
      (length new ≤ b)%nat ∧
      Forall (λ q, q.2 = depth d + 1 ∧ q.2 ≤ maxDispatchDepth) new.

Lemma submit_queue (b : bool) rec d :
  let dep := if b then depth d + 1 else 1 in
  ∃ new : list (ChangeRecord * Z), submit b rec d = set_queue (queue d ++ new) d ∧ (length new ≤ 1)%nat ∧
    Forall (λ q : ChangeRecord * Z, q.2 = dep ∧ q.2 ≤ maxDispatchDepth) new.
Proof.
  intros dep. assert (set_queue (queue d ++ []) d = d) as Hd by (rewrite app_nil_r; by destruct d).
  unfold submit. fold dep. destruct (Z.ltb_spec maxDispatchDepth dep); [by exists []; auto using Forall_nil|].
  destruct (closed d); [by exists []; auto using Forall_nil|].
  exists [(rec, dep)]. split_and!; [done|done|]. by apply Forall_singleton.
Qed.

Lemma submits_feeds b w w' : submits b w w' → feeds b w w'.
Proof.
  intros [Hi Hs]. split; [done|]. intros d Hd. destruct (Hs d Hd) as (recs & Hlen & ->).
  assert (∃ new, foldl (λ d rec, submit true rec d) d recs = set_queue (queue d ++ new) d ∧
    (length new ≤ length recs)%nat ∧ Forall (λ q, q.2 = depth d + 1 ∧ q.2 ≤ maxDispatchDepth) new) as (new & -> & ? & ?).
  { clear. revert d. induction recs as [|rec recs IH]; intros d.
    { exists []. rewrite app_nil_r. split_and!; [by destruct d|done|constructor]. }
    destruct (submit_queue true rec d) as (n1 & Heq & Hl1 & Hf1). cbn [foldl]. rewrite Heq.
    destruct (IH (set_queue (queue d ++ n1) d)) as (n2 & -> & Hl2 & Hf2). exists (n1 ++ n2). simpl in *.
    split_and!; [unfold set_queue; simpl; by rewrite app_assoc|rewrite length_app; lia|by apply Forall_app]. }
  exists new. split_and!; [done|lia|done].
Qed.

Lemma feeds_trans b b' w w' w'' : feeds b w w' → feeds b' w' w'' → feeds (b + b') w w''.
Proof.
  intros [Hi1 H1] [Hi2 H2]. split; [congruence|]. intros d Hd.
  destruct (H1 d Hd) as (n1 & Hd1 & Hl1 & Hf1).
  destruct (H2 _ Hd1) as (n2 & Hd2 & Hl2 & Hf2).
  exists (n1 ++ n2). rewrite Hd2. split_and!.
  - simpl. unfold set_queue. simpl. by rewrite app_assoc.
  - rewrite length_app. lia.
  - by apply Forall_app.
Qed.

Lemma feeds_refl w : feeds 0 w w.
Proof.
  split; [done|]. intros d Hd. exists []. split_and!; [|done|constructor].
  rewrite Hd, app_nil_r. by destruct d.
Qed.

Lemma feeds_le b b' w w' : (b ≤ b')%nat → feeds b w w' → feeds b' w w'.
Proof.
  intros Hb [Hi Hf]. split; [done|]. intros d Hd.
  destruct (Hf d Hd) as (new & ? & ? & ?). exists new. auto with lia.
Qed.

Lemma queue_weight_app b l k : queue_weight b (l ++ k) = (queue_weight b l + queue_weight b k)%nat.
Proof. unfold queue_weight. induction l as [|q l IH]; simpl; lia. Qed.

Lemma queue_weight_new b dep new :
  1 ≤ dep ≤ maxDispatchDepth → (length new ≤ b)%nat →
  Forall (λ q, q.2 = dep + 1 ∧ q.2 ≤ maxDispatchDepth) new →
  ∀ rec, (queue_weight b new < item_weight b (rec, dep))%nat.
Proof.
  intros Hdep Hl Hf rec. unfold item_weight. simpl.
  assert (queue_weight b new ≤ length new * cascade b (Z.to_nat (maxDispatchDepth - (dep + 1))))%nat as Hq.
  { clear Hl. induction Hf as [|q new [Hq _] Hf IH]; [done|]. simpl. unfold item_weight. rewrite Hq. lia. }
  destruct new as [|q new].
  { clear Hq. simpl. destruct (Z.to_nat _); apply Nat.lt_0_succ. }
  apply Forall_cons in Hf as [[Hq1 Hq2] _].
  replace (Z.to_nat (maxDispatchDepth - dep)) with (S (Z.to_nat (maxDispatchDepth - (dep + 1)))) by lia.
  cbn [cascade]. nia.
Qed.

Section feedback.
Context {H : Host} {GL : GoLib} {CJ : ChangeJson GL}.

Lemma frames_insert_rows {B} (f : Proc → B) ns now rows : frames f (insert_rows ns now rows).
Proof.
  induction rows as [|[[ch data] vt] rows IH]; simpl; unfold or_db_error; frames_solve; done.
Qed.

Lemma frames_insertEvents {B} (f : Proc → B) c events :
  (∀ p, f (set_eventsReady true p) = f p) → (∀ p, f (poke_all p) = f p) →
  frames f (insertEvents c events).
Proof.
  intros Hr Hp. pose proof (frames_insert_rows f). unfold insertEvents, ensureEvents.
  frames_solve; auto.
Qed.

(** [changed] submits at most one record. *)
Lemma changed_submits c op keys count w :
  p_in_dispatch (w_proc w) = true → submits 1 w (changed c op keys count w).2.
Proof.
  intros Hin. unfold changed. unfold mbind at 1, M_bind at 1. cbn [get_proc].
  assert (∀ w', w_proc w' = w_proc w → submits 1 w w') as Hsame.
  { intros w' Hp. split; [by rewrite Hp|]. intros d Hd. exists []. split; [simpl; lia|by rewrite Hp]. }
  destruct (negb _ && _); [by apply Hsame|].
  set (rec := newRecord c op keys count). set (pub := when (bool_decide _) _).
  assert (frames p_dispatcher pub ∧ frames p_in_dispatch pub) as [Hd Hi].
  { split; unfold pub; frames_solve; by apply frames_insertEvents. }
  unfold mbind, M_bind, when at 1. destruct (match p_dispatcher _ with Some _ => _ | None => _ end); cbn [mod_proc].
  - split; [by rewrite Hi|]. intros d Hd0. exists [rec]. split; [done|]. rewrite Hd. simpl. by rewrite Hd0, Hin.
  - cbn [mret M_ret]. split; [by rewrite Hi|]. intros d Hd0. exists []. split; [simpl; lia|]. by rewrite Hd.
Qed.

Context (listener : nat → ChangeRecord → M ()) (b : nat).
Hypothesis listener_no_hang : ∀ id rec, no_hang (listener id rec).
Hypothesis listener_submits : ∀ id rec w,
  p_in_dispatch (w_proc w) = true → submits b w (listener id rec w).2.

Lemma call_feeds id rec w : p_in_dispatch (w_proc w) = true →
  (call listener id rec w).1 = Ok tt ∧ feeds b w (call listener id rec w).2.
Proof using listener_no_hang listener_submits.
  intros Hin. unfold call, mbind, M_bind. cbn [get_proc].
  case_match.
  - unfold attempt. pose proof (listener_no_hang id rec w). pose proof (submits_feeds _ _ _ (listener_submits id rec w Hin)).
    by destruct (listener id rec w) as [[]].
  - split; [done|]. apply (feeds_le 0); [lia|apply feeds_refl].
Qed.

Lemma call_all_feeds ids rec w : p_in_dispatch (w_proc w) = true →
  (call_all listener ids rec w).1 = Ok tt ∧ feeds (length ids * b) w (call_all listener ids rec w).2.
Proof using listener_no_hang listener_submits.
  revert w. induction ids as [|id ids IH]; intros w Hin; simpl; [split; [done|apply feeds_refl]|].
  unfold mbind, M_bind. destruct (call_feeds id rec w Hin) as [Hok Hf].
  destruct (call listener id rec w) as [r w']; simpl in *. subst r.
  destruct (IH w') as [Hok' Hf']; [destruct Hf as [-> _]; done|].
  split; [done|]. by eapply feeds_trans.
Qed.

Lemma targets_length rec d : (length (targets rec d) ≤ size (listeners d))%nat.
Proof.
  unfold targets. rewrite (merge_sort_Permutation le), length_fmap.
  etrans; [apply List.filter_length_le|]. by rewrite length_map_to_list.
Qed.

Lemma dispatch_step_spec w d : p_dispatcher (w_proc w) = Some d → closed d = false →
  Forall depth_ok (queue d) →
  match queue d with
  | [] => dispatch_step listener w = (Ok false, w)
  | q :: rest => ∃ w' new, dispatch_step listener w = (Ok true, w') ∧
      p_dispatcher (w_proc w') = Some (set_depth 0 (set_queue (rest ++ new) d)) ∧
      Forall depth_ok new ∧
      (queue_weight (size (listeners d) * b) new < item_weight (size (listeners d) * b) q)%nat
  end.
Proof using listener_no_hang listener_submits.
  intros Hd Hc Hq. unfold dispatch_step. unfold mbind, M_bind. cbn [get_proc].
  rewrite Hd, Hc. destruct (queue d) as [|[rec dep] rest]; [done|].
  apply Forall_cons in Hq as [Hdep _]. unfold mod_proc at 1. simpl.
  set (d1 := set_depth dep (set_queue rest d)).
  set (w1 := with_proc _ w).
  destruct (call_all_feeds (targets rec d) rec w1 eq_refl) as [Hok [_ Hf]].
  destruct (Hf d1 eq_refl) as (new & Hd' & Hl & Hnew).
  destruct (call_all _ _ _ w1) as [r w2]. simpl in *. subst r.
  assert (length new ≤ size (listeners d) * b)%nat as Hl2.
  { pose proof (targets_length rec d). nia. }
  eexists _, new. split_and!; [done|simpl; by rewrite Hd'| |by apply (queue_weight_new _ dep)].
  eapply Forall_impl; [exact Hnew|]. intros q Hq'. unfold depth_ok in *. simpl in *. lia.
Qed.

(** The loop empties the queue: each iteration takes an item off and adds less
    than its weight. *)
Lemma run_dispatcher_empties w d :
  p_dispatcher (w_proc w) = Some d → closed d = false → Forall depth_ok (queue d) →
  ∃ w' d', run_dispatcher listener (S (queue_weight (size (listeners d) * b) (queue d))) w
             = (Ok tt, w') ∧
    p_dispatcher (w_proc w') = Some d' ∧ queue d' = [] ∧ listeners d' = listeners d.
Proof using listener_no_hang listener_submits.
  remember (queue_weight (size (listeners d) * b) (queue d)) as n eqn:Hn.
  assert (queue_weight (size (listeners d) * b) (queue d) ≤ n)%nat as Hle by lia. clear Hn.
  revert w d Hle. induction n as [|n IH]; intros w d Hle Hd Hc Hq;
    pose proof (dispatch_step_spec w d Hd Hc Hq) as Hs;
    cbn [run_dispatcher]; unfold mbind, M_bind.
  - destruct (queue d) as [|q rest] eqn:Eq.
    { rewrite Hs. eauto 10. }
    destruct Hs as (_ & new & _ & _ & _ & Hw). simpl in Hle. lia.
  - destruct (queue d) as [|q rest] eqn:Eq.
    { rewrite Hs. eauto 10. }
    destruct Hs as (w' & new & -> & Hd' & Hnew & Hw).
    apply Forall_cons in Hq as [_ Hrest].
    edestruct (IH w') as (w'' & d'' & ? & ? & ? & ?); [|exact Hd'|done| |].
    + simpl. rewrite queue_weight_app. simpl in Hle. lia.
    + simpl. by apply Forall_app.
    + eauto 10.
Qed.
End feedback.

(** C21: listeners that write to the cache cannot keep the dispatcher busy for ever:
    when each listener call returns and does nothing to the dispatcher but call
    [submit] at most [b] times, the dispatch loop empties the queue, in a number
    of iterations bounded by the queue's weight, because [submit] drops records
    past eight levels. The records queued at the start are within those levels,
    and no other goroutine writes meanwhile. *)
Theorem run_dispatcher_drains `{H : Host} (listener : nat → ChangeRecord → M ()) (b : nat)
    (w : World) (d : dispatcher) :
  (∀ id rec, no_hang (listener id rec)) →
  (∀ id rec w, p_in_dispatch (w_proc w) = true → submits b w (listener id rec w).2) →
  p_dispatcher (w_proc w) = Some d → closed d = false → Forall depth_ok (queue d) →
  ∃ w' d', run_dispatcher listener (S (queue_weight (size (listeners d) * b) (queue d))) w
             = (Ok tt, w') ∧
    p_dispatcher (w_proc w') = Some d' ∧ queue d' = [] ∧ listeners d' = listeners d.
Proof. intros Hnh Hsub. by apply run_dispatcher_empties. Qed.

(** A listener that writes whenever it is called, with one record queued. *)
Definition echo_listener `{Host} `{ChangeJson} (_ : nat) (_ : ChangeRecord) : M () :=
  changed (demo_cache "default") OpSet (Some ["k"]) 1.
Definition echo_dispatcher : dispatcher :=
  MkDispatcher {[0%nat := [OpSet]]} 1 [(MkChangeRecord OpSet "default" (Some ["k"]) 1 false, 1)]
    false 0.

Lemma run_dispatcher_drains_witness :
  let _ := still_host 0 in let _ := toy_lib in let _ := toy_json in
  ∃ w' d', run_dispatcher echo_listener
             (S (queue_weight (size (listeners echo_dispatcher) * 1) (queue echo_dispatcher)))
             (with_proc (set_dispatcher (Some echo_dispatcher) init_proc) (init_world empty_db))
           = (Ok tt, w') ∧
    p_dispatcher (w_proc w') = Some d' ∧ queue d' = [] ∧
    listeners d' = listeners echo_dispatcher.
Proof.
  intros host lib json.
  apply (@run_dispatcher_drains host (@echo_listener host lib json) 1
    (with_proc (set_dispatcher (Some echo_dispatcher) init_proc) (init_world empty_db))
    echo_dispatcher).
  - intros id rec. apply no_hang_returns, (@changed_returns host lib json).
  - intros id rec w. apply (@changed_submits host lib json).
  - done.
  - done.
  - by apply Forall_singleton.
Defined.

(** C16: a committed mutation whose operation is published and listened to is reported
    exactly once on each path: one record is queued for the listeners, and one
    event with the record as its JSON payload is appended to the internal
    channel; the cache table is not touched. *)
Theorem changed_reports_once `{H : Host} `{GL : GoLib} `{!ChangeJson GL} `{!Quiet H} (c : Cache)
    (op : string) (keys : option (list string)) (count : Z) (w : World) (d : dispatcher) :
  op ∈ publishOps c → p_dispatcher (w_proc w) = Some d → wants op d = true →
  closed d = false → p_in_dispatch (w_proc w) = false →
  ready_ok w → log_wf (events_of (w_db w)) → w_intx w = false →
  lastAssignedSeq (events_of (w_db w)) < MaxInt64 →
  ∃ n w' data, changed c op keys count w = (Ok tt, w') ∧
    p_dispatcher (w_proc w') = Some (enqueue (newRecord c op keys count) 1 d) ∧
    Marshal (record_value (newRecord c op keys count)) = Some data ∧
    db_events (w_db w') = Some (append_event
      (EventRow cacheChannel (namespace c) (Some data) typeJSON (clock n)) (events_of (w_db w))) ∧
    db_cache (w_db w') = db_cache (w_db w).
Proof.
  intros Hop Hd Hw Hc Hin Hr Hwf Hx Hm.
  destruct (record_marshals (newRecord c op keys count)) as [data Hdata].
  assert (wp (changed c op keys count) w (λ r w', r = Ok tt ∧ ∃ n,
    p_dispatcher (w_proc w') = Some (enqueue (newRecord c op keys count) 1 d) ∧
    db_events (w_db w') = Some (append_event
      (EventRow cacheChannel (namespace c) (Some data) typeJSON (clock n)) (events_of (w_db w))) ∧
    db_cache (w_db w') = db_cache (w_db w))) as Hwp.
  { unfold changed. wp_go. rewrite Hd, Hw, bool_decide_true by done. cbn [negb andb when].
    wp_go. apply (insertEvents_spec c _ [(cacheChannel, data, typeJSON)]); try done.
    - simpl. by rewrite Hdata.
    - simpl. lia.
    - intros w' n He Hc' Hp Hx'. wp_go. split; [done|]. exists n. split_and!; [|done|done].
      rewrite Hp. simpl. rewrite Hd. simpl. unfold submit. rewrite Hin, Hc. done. }
  destruct Hwp as (Hok & n & Hrest). exists n, (changed c op keys count w).2, data.
  destruct (changed c op keys count w); simpl in *. subst. naive_solver.
Qed.

Definition publishing_cache : Cache :=
  MkCache "/tmp/cache.db" "default" 1 None None LRU false (60 * Second) true [OpDelete] Hour 0 100.

Lemma changed_reports_once_witness :
  let _ := still_host 7 in let _ := toy_lib in let _ := toy_json in
  let d := MkDispatcher {[0%nat := [OpDelete]]} 1 [] false 0 in
  let w := with_proc (set_dispatcher (Some d) init_proc) (init_world empty_db) in
  ∃ n w' data, changed publishing_cache OpDelete (Some ["k"]) 1 w = (Ok tt, w') ∧
    p_dispatcher (w_proc w') =
      Some (enqueue (newRecord publishing_cache OpDelete (Some ["k"]) 1) 1 d) ∧
    Marshal (record_value (newRecord publishing_cache OpDelete (Some ["k"]) 1)) = Some data ∧
    db_events (w_db w') = Some (append_event
      (EventRow cacheChannel "default" (Some data) typeJSON (clock n)) (events_of empty_db)) ∧
    db_cache (w_db w') = ∅.
Proof.
  intros host lib json d w.
  apply (@changed_reports_once host lib json (still_quiet 7) publishing_cache OpDelete (Some ["k"]) 1 w d);
    [by left|done|vm_compute; reflexivity|done|done|done|apply log_wf_empty|done|done].
Defined.

(** No record that is dispatched after [unsubscribe] calls the listener: the step runs the
    same whatever the unsubscribed function is, so long as no listener
    registers its id (ids are not reused). *)
Theorem unsubscribed_not_called `{H : Host} (id : nat) (L L' : nat → ChangeRecord → M ()) (w : World) :
  (∀ i rec, i ≠ id → L i rec = L' i rec) →
  (∀ i rec w, listener_of id (w_proc w) = None →
     listener_of id (w_proc (L i rec w).2) = None) →
  dispatch_step L (unsubscribe id w).2 = dispatch_step L' (unsubscribe id w).2.
Proof.
  intros Hne Hkeep.
  assert (∀ w, listener_of id (w_proc w) = None →
    ∀ i rec, call L i rec w = call L' i rec w ∧
    listener_of id (w_proc (call L i rec w).2) = None) as Hcall.
  { intros w' Hn i rec. unfold call, mbind, M_bind. cbn [get_proc].
    destruct (decide (i = id)) as [->|Hi]; [by rewrite Hn|]. rewrite <- Hne by done.
    split; [done|]. case_match; [|done]. unfold attempt.
    specialize (Hkeep i rec w' Hn). by destruct (L i rec w') as [[]]. }
  assert (∀ ids rec w, listener_of id (w_proc w) = None →
    call_all L ids rec w = call_all L' ids rec w) as Hall.
  { intros ids rec. induction ids as [|i ids IH]; intros w' Hn; [done|].
    simpl. unfold mbind, M_bind. destruct (Hcall w' Hn i rec) as [<- Hn'].
    destruct (call L i rec w') as [[]]; [by apply IH|done..]. }
  unfold dispatch_step, unsubscribe, mod_proc, mod_dispatcher, mbind, M_bind. simpl.
  destruct (p_dispatcher (w_proc w)) as [d|]; [|done]. simpl.
  destruct (closed d); [done|]. destruct (queue d) as [|[rec dep] q]; [done|].
  rewrite Hall; [done|]. unfold listener_of. simpl. apply lookup_delete_eq.
Qed.

Lemma unsubscribed_not_called_witness :
  let _ := still_host 0 in
  let w := with_proc (set_dispatcher (Some echo_dispatcher) init_proc) (init_world empty_db) in
  dispatch_step (λ i _, if bool_decide (i = 0%nat) then fail (ErrOther 0) else mret tt)
      (unsubscribe 0 w).2
  = dispatch_step (λ _ _, mret tt) (unsubscribe 0 w).2.
Proof.
  intros host w. apply (@unsubscribed_not_called host 0).
  - intros i rec Hi. by rewrite bool_decide_false.
  - intros i rec w' Hn. by case_bool_decide.
Defined.
