(* ===== verification/Sweep.v ===== *)
(** Maintenance: [lytecache-go/sweep.go], the LRU buffer and the opportunistic
    sweep of [cache.go].

    The LRU bookkeeping of reads is buffered in the process, expired rows are
    deleted in batches, and rows are evicted one at a time while the namespace
    is over its limits. *)

From S2P Require Import Prelude GoStd Values Store Engine Channels EventLog.
Open Scope Z_scope.

Definition opportunisticSweepEvery : Z := 100.
Definition lruFlushEvery : nat := 200.
#[global] Arguments lruFlushEvery : simpl never.
Definition maxEvictionPasses : nat := N.to_nat 1000000.
#[global] Arguments maxEvictionPasses : simpl never.

(** ** Statements *)

(** [DELETE FROM cache WHERE namespace = ? AND key IN (...)]. *)
Definition delete_keys (ns : string) (ks : list string) (t : cache_table) : Z * cache_table :=
  delete_where (λ k _, bool_decide (k.1 = ns) && bool_decide (k.2 ∈ ks)) t.
#[global] Arguments delete_keys : simpl never.

Definition on_cache {A} (f : cache_table → A * cache_table) (d : Database) : A * Database :=
  ((f (db_cache d)).1, set_cache (f (db_cache d)).2 d).

(** The row order of [ORDER BY last_accessed ASC]. *)
Definition lru_le : relation (string * row) := by_key Z.le (λ p, last_accessed p.2).

(** [ORDER BY expires_at IS NULL, expires_at ASC]. *)
Definition ttl_key_le (a b : option Z) : Prop :=
  match a, b with
  | Some x, Some y => x ≤ y
  | Some _, None => True
  | None, Some _ => False
  | None, None => True
  end.
#[global] Instance ttl_key_le_dec : RelDecision ttl_key_le.
Proof. intros [x|] [y|]; simpl; apply _. Defined.
#[global] Instance ttl_key_le_total : Total ttl_key_le.
Proof. intros [x|] [y|]; simpl; [lia|tauto..]. Qed.
#[global] Instance ttl_key_le_trans : Transitive ttl_key_le.
Proof. intros [x|] [y|] [z|]; simpl; [lia|tauto..]. Qed.
Definition ttl_le : relation (string * row) := by_key ttl_key_le (λ p, expires_at p.2).
#[global] Instance lru_le_dec : RelDecision lru_le.
Proof. unfold lru_le. apply _. Defined.
#[global] Instance ttl_le_dec : RelDecision ttl_le.
Proof. unfold ttl_le. apply _. Defined.

Record MaintainResult := MkMaintainResult { ExpiredRemoved : Z; Evicted : Z }.

Section sweep.
Context {H : Host}.

(** The [UPDATE] of [flushLRUBuffer] for one key. *)
Definition flush_row (ns key : string) (u : Z * Z) (t : cache_table) : Z * cache_table :=
  update_at (ns, key) (λ _, true)
    (λ r, Row (value r) (value_type r) (created_at r) (expires_at r) u.1
              (access_count r + u.2) (size_bytes r)) t.

Fixpoint flush_all (ns : string) (pending : list (string * (Z * Z))) : M () :=
  match pending with
  | [] => mret tt
  | (key, u) :: rest =>
      _ ← attempt (exec (on_cache (flush_row ns key u)));   (* errors are logged *)
      flush_all ns rest
  end.

(** [tx.Prepare]. *)
Definition Prepare : M () := query (λ _, tt).

Definition flushLRUBuffer (c : Cache) : M () :=
  p ← get_proc;
  if bool_decide (p_lruBuffer p = ∅) then mret tt
  else
    mod_proc (set_lru ∅) ;;
    _ ← attempt (inTx (Prepare ;; flush_all (namespace c) (map_to_list (p_lruBuffer p))));
    mret tt.

Definition bufferLRU (c : Cache) (key : string) (now : Z) : M () :=
  p ← get_proc;
  let u := default (0, 0) (p_lruBuffer p !! key) in
  let buf := <[key := (now, u.2 + 1)]> (p_lruBuffer p) in
  mod_proc (set_lru buf) ;;
  when (Nat.leb lruFlushEvery (size buf)) (flushLRUBuffer c).

(** Expired rows in the order the scan finds them. *)
Definition expired_batch (ns : string) (now : Z) (t : cache_table) : list string :=
  take sweepBatchSize
    ((List.filter (λ p, expired now p.2) (scan (ns_rows ns t))).*1).

Definition cache_fuel : M nat := λ w, (Ok (S (size (db_cache (w_db w)))), w).

Fixpoint removeExpired_loop (fuel : nat) (c : Cache) (now : Z) : M () :=
  match fuel with
  | O => hang
  | S fuel =>
      n ← exec (on_cache (λ t, delete_keys (namespace c) (expired_batch (namespace c) now t) t));
      mod_proc (λ p, set_expiredRemoved (p_expiredRemoved p + n) p) ;;
      if n <? Z.of_nat sweepBatchSize then mret tt
      else removeExpired_loop fuel c now
  end.

Definition removeExpiredBatch (c : Cache) : M () :=
  now ← nowMillis;
  fuel ← cache_fuel;
  _ ← attempt (removeExpired_loop fuel c now);
  mret tt.

(** The rows in the order in which they are evicted. *)
Definition evictionOrderBy (e : Eviction) (l : list (string * row)) : list (string * row) :=
  match e with
  | TTLPolicy => merge_sort ttl_le (scan l)
  | Random => shuffle l
  | _ => merge_sort lru_le (scan l)
  end.

Definition over_limits (c : Cache) (cs : Z * option Z) : bool :=
  (match maxKeys c with Some n => n <? cs.1 | None => false end) ||
  (match maxBytes c, cs.2 with Some n, Some s => n <? s | _, _ => false end).

Fixpoint enforce_loop (passes : nat) (c : Cache) : M () :=
  match passes with
  | O => mret tt
  | S passes =>
      cs ← query (λ d, count_sum (namespace c) (db_cache d));
      if negb (over_limits c cs) then mret tt
      else
        n ← exec (on_cache (λ t, delete_keys (namespace c)
               (take 1 (evictionOrderBy (eviction c) (ns_rows (namespace c) t)).*1) t));
        if n =? 0 then mret tt
        else
          mod_proc (λ p, set_evictions (p_evictions p + n) p) ;;
          enforce_loop passes c
  end.

Definition unlimited (c : Cache) : bool :=
  match maxKeys c, maxBytes c with None, None => true | _, _ => false end.

(** Errors are logged and end the pass. *)
Definition enforceCapacity (c : Cache) : M () :=
  if bool_decide (eviction c = NoEviction) || unlimited c then mret tt
  else _ ← attempt (enforce_loop maxEvictionPasses c); mret tt.

Definition maybeEvict (c : Cache) : M () :=
  if bool_decide (eviction c = NoEviction) then mret tt
  else if unlimited c then mret tt
  else
    when (bool_decide (eviction c = LRU)) (flushLRUBuffer c) ;;
    enforceCapacity c.

Definition sweepOnce (c : Cache) : M () :=
  flushLRUBuffer c ;;
  removeExpiredBatch c ;;
  enforceCapacity c ;;
  sweepEvents c.

Definition Maintain (c : Cache) : M MaintainResult :=
  p ← get_proc;
  sweepOnce c ;;
  p' ← get_proc;
  mret (MkMaintainResult (p_expiredRemoved p' - p_expiredRemoved p)
                         (p_evictions p' - p_evictions p)).

Definition maybeOpportunisticSweep (c : Cache) : M () :=
  if 0 <? sweepInterval c then mret tt
  else
    mod_proc (λ p, set_opsSinceSweep (p_opsSinceSweep p + 1) p) ;;
    p ← get_proc;
    when (p_opsSinceSweep p mod opportunisticSweepEvery =? 0) (sweepOnce c).
End sweep.

Lemma maybeOpportunisticSweep_off `{Host} c :
  0 < sweepInterval c → maybeOpportunisticSweep c = mret tt.
Proof. intros Hs. unfold maybeOpportunisticSweep. by rewrite (proj2 (Z.ltb_lt _ _)). Qed.

(** ** Lemmas on the statements *)

Lemma delete_keys_lookup ns ks t n k :
  (delete_keys ns ks t).2 !! (n, k) =
  if decide (n = ns ∧ k ∈ ks) then None else t !! (n, k).
Proof.
  unfold delete_keys. rewrite delete_where_lookup. cbn [fst snd].
  case_decide as Hd.
  - destruct Hd as [-> Hk]. rewrite !bool_decide_true by done. by destruct (t !! _).
  - destruct (t !! (n, k)) as [r|]; simpl; [|done].
    destruct (decide (n = ns)) as [->|]; [|by rewrite bool_decide_false].
    rewrite (bool_decide_false (k ∈ ks)) by tauto. by rewrite andb_false_r.
Qed.

Lemma delete_keys_nil ns t : delete_keys ns [] t = (0, t).
Proof.
  assert ((delete_keys ns [] t).2 = t) as Ht.
  { apply map_eq. intros [n k]. rewrite delete_keys_lookup. case_decide as Hd; [|done].
    by destruct Hd as [_ ?%elem_of_nil]. }
  pose proof (delete_where_count (λ k _, bool_decide (k.1 = ns) && bool_decide (k.2 ∈ [])) t) as Hc.
  fold (delete_keys ns [] t) in Hc. rewrite Ht in Hc.
  destruct (delete_keys ns [] t); simpl in *. subst. f_equal. lia.
Qed.

Lemma delete_keys_one ns k t r :
  t !! (ns, k) = Some r → delete_keys ns [k] t = (1, delete (ns, k) t).
Proof.
  intros Hr. assert ((delete_keys ns [k] t).2 = delete (ns, k) t) as Ht.
  { apply map_eq. intros [n k']. rewrite delete_keys_lookup. case_decide as Hd.
    - destruct Hd as [-> ->%list_elem_of_singleton]. by rewrite lookup_delete_eq.
    - rewrite lookup_delete_ne; [done|]. intros [= -> ->]. destruct Hd. split; [done|by left]. }
  pose proof (delete_where_count (λ x _, bool_decide (x.1 = ns) && bool_decide (x.2 ∈ [k])) t) as Hc.
  fold (delete_keys ns [k] t) in Hc. rewrite Ht in Hc.
  destruct (delete_keys ns [k] t); simpl in *. subst. f_equal.
  rewrite map_size_delete, Hr.
  assert (size t ≠ 0%nat) by (rewrite map_size_ne_0_lookup; eauto). lia.
Qed.

Lemma ns_rows_delete ns k t r :
  t !! (ns, k) = Some r → ns_rows ns t ≡ₚ (k, r) :: ns_rows ns (delete (ns, k) t).
Proof.
  intros Hr. apply NoDup_Permutation.
  - eapply NoDup_fmap_1, NoDup_ns_rows.
  - apply NoDup_cons. split; [|eapply NoDup_fmap_1, NoDup_ns_rows].
    rewrite elem_of_ns_rows. by rewrite lookup_delete_eq.
  - intros [k' r']. rewrite elem_of_cons, !elem_of_ns_rows.
    destruct (decide (k' = k)) as [->|Hne].
    + rewrite lookup_delete_eq, Hr. naive_solver.
    + rewrite lookup_delete_ne by congruence. naive_solver.
Qed.

Lemma on_cache_db {A} (f : cache_table → A * cache_table) d :
  on_cache f d = ((f (db_cache d)).1, set_cache (f (db_cache d)).2 d).
Proof. done. Qed.

Lemma size_ns_rows ns t : (length (ns_rows ns t) ≤ size t)%nat.
Proof.
  unfold ns_rows. rewrite <- length_map_to_list. apply length_omap_le.
Qed.

(** ** Eviction *)

(** What the policy promises: an evicted row comes before the rows kept. *)
Definition evicts_before (e : Eviction) (r r' : row) : Prop :=
  match e with
  | TTLPolicy => ttl_key_le (expires_at r) (expires_at r')
  | Random => True
  | _ => last_accessed r ≤ last_accessed r'
  end.

#[global] Instance evicts_before_trans e : Transitive (evicts_before e).
Proof.
  intros x y z. destruct e; simpl; intros; try done; try lia. by etrans.
Qed.

Section eviction.
Context {H : Host}.

Lemma evictionOrderBy_perm e l : evictionOrderBy e l ≡ₚ l.
Proof.
  unfold evictionOrderBy. destruct e; rewrite ?merge_sort_Permutation;
    [apply scan_perm|apply scan_perm|apply shuffle_perm|apply scan_perm].
Qed.

Lemma evictionOrderBy_head e l p rest :
  evictionOrderBy e l = p :: rest → ∀ q, q ∈ l → evicts_before e p.2 q.2.
Proof.
  intros Hl q Hq. rewrite <- (evictionOrderBy_perm e) in Hq. rewrite Hl in Hq.
  assert (∀ R, StronglySorted R (evictionOrderBy e l) → (∀ x : string * row, R x x) → R p q) as Hs.
  { intros R Hs Hrefl. rewrite Hl in Hs. apply StronglySorted_cons in Hs as [Hh _].
    apply elem_of_cons in Hq as [->|Hq]; [done|]. rewrite Forall_forall in Hh. by apply Hh. }
  destruct e; simpl; try done.
  - apply (Hs lru_le); [apply StronglySorted_merge_sort; unfold lru_le; apply _|].
    intros x. unfold lru_le, by_key. lia.
  - apply (Hs ttl_le); [apply StronglySorted_merge_sort; unfold ttl_le; apply _|].
    intros x. unfold ttl_le, by_key. destruct (expires_at x.2); simpl; done || lia.
  - apply (Hs lru_le); [apply StronglySorted_merge_sort; unfold lru_le; apply _|].
    intros x. unfold lru_le, by_key. lia.
Qed.

(** The state after some keys of the namespace have been evicted. *)
Definition evicted (c : Cache) (ev : list string) (t t' : cache_table) : Prop :=
  (∀ n k, t' !! (n, k) = if decide (n = namespace c ∧ k ∈ ev) then None else t !! (n, k)) ∧
  (∀ k, k ∈ ev → ∃ r, t !! (namespace c, k) = Some r ∧
     ∀ k' r', t' !! (namespace c, k') = Some r' → evicts_before (eviction c) r r').

Lemma evicted_nil c t : evicted c [] t t.
Proof.
  split; [|by intros ? ?%elem_of_nil]. intros n k. case_decide as Hd; [|done].
  by destruct Hd as [_ ?%elem_of_nil].
Qed.

Lemma evicted_cons c v r rest ev t t' :
  evictionOrderBy (eviction c) (ns_rows (namespace c) t) = (v, r) :: rest →
  evicted c ev (delete (namespace c, v) t) t' → evicted c (v :: ev) t t'.
Proof.
  intros Ho [Hl Hev].
  assert (t !! (namespace c, v) = Some r) as Hv.
  { apply elem_of_ns_rows. rewrite <- (evictionOrderBy_perm (eviction c)), Ho. by left. }
  assert (∀ k' r', t' !! (namespace c, k') = Some r' → t !! (namespace c, k') = Some r') as Hsub.
  { intros k' r'. rewrite Hl. case_decide; [done|]. by intros [_ ?]%lookup_delete_Some. }
  split.
  - intros n k. rewrite Hl. destruct (decide (n = namespace c ∧ k = v)) as [[-> ->]|Hne].
    + assert (v ∈ v :: ev) by left. rewrite lookup_delete_eq. repeat case_decide; tauto.
    + rewrite lookup_delete_ne by (intros [= <- <-]; tauto).
      apply decide_ext. rewrite elem_of_cons. tauto.
  - intros k [->|Hk]%elem_of_cons.
    + exists r. split; [done|]. intros k' r' Hr'%Hsub%elem_of_ns_rows.
      by apply (evictionOrderBy_head _ _ _ _ Ho (k', r')).
    + destruct (Hev k Hk) as (r' & Hr' & Hb). exists r'. split; [|done].
      by apply lookup_delete_Some in Hr' as [_ ?].
Qed.

(** What the options promise of a namespace that has rows: no more keys than
    [WithMaxKeys], no more bytes than [WithMaxBytes]. *)
Definition bytes_of (l : list (string * row)) : Z := foldr (λ p n, size_bytes p.2 + n) 0 l.
Definition within_limits (c : Cache) (t : cache_table) : Prop :=
  let l := ns_rows (namespace c) t in
  l = [] ∨ (∀ n, maxKeys c = Some n → Z.of_nat (length l) ≤ n) ∧ (∀ n, maxBytes c = Some n → bytes_of l ≤ n).

(** The limits are tested as promised. *)
Lemma over_limits_spec c t : ns_rows (namespace c) t ≠ [] →
  over_limits c (count_sum (namespace c) t) = false ↔ within_limits c t.
Proof using Type.
  unfold within_limits, over_limits, count_sum. set (l := ns_rows _ _). intros Hne.
  change (sum_sizes l) with (bytes_of l).
  assert (match l with [] => None | _ => Some (bytes_of l) end = Some (bytes_of l)) as -> by by destruct l.
  cbn [fst snd]. rewrite orb_false_iff. split.
  - intros [Hk Hb]. right. split; intros n Hn; rewrite Hn in *; by apply Z.ltb_ge.
  - intros [|[Hk Hb]]; [done|]. destruct (maxKeys c) as [k|], (maxBytes c) as [b|]; split; try done;
      apply Z.ltb_ge; auto.
Qed.

(** Eviction stops as soon as it can: before each of the rows evicted, in their
    order, the namespace was over its limits. *)
Definition needed (c : Cache) (t : cache_table) (ev : list string) : Prop :=
  ∀ first v rest, ev = first ++ v :: rest →
    ¬ within_limits c (foldl (λ t k, delete (namespace c, k) t) t first).

(** All that eviction promises. *)
Definition evicts_to (c : Cache) (ev : list string) (t t' : cache_table) : Prop :=
  NoDup ev ∧ evicted c ev t t' ∧ within_limits c t' ∧ needed c t ev.

Lemma evicts_to_nil c t : within_limits c t → evicts_to c [] t t.
Proof using Type. intros Hin. unfold evicts_to. split_and!; [constructor|apply evicted_nil|done|]. intros first v rest Hn. by destruct first. Qed.

Lemma evicts_to_cons c v r rest ev t t' :
  ¬ within_limits c t → evictionOrderBy (eviction c) (ns_rows (namespace c) t) = (v, r) :: rest →
  evicts_to c ev (delete (namespace c, v) t) t' → evicts_to c (v :: ev) t t'.
Proof using Type.
  intros Hover Ho (Hnd & Hev & Hin & Hneed). unfold evicts_to. split_and!; [|by eapply evicted_cons|done|].
  - constructor; [|done]. intros Hv'. destruct Hev as [_ Hev]. destruct (Hev v Hv') as (r' & Hr' & _).
    by rewrite lookup_delete_eq in Hr'.
  - intros [|k first] v' rest'; simpl; [by intros [= <- <-]|]. intros [= <- Hrest]. by eapply Hneed.
Qed.

Lemma enforce_loop_spec `{!Quiet H} c passes w (Q : result () → World → Prop) :
  (length (ns_rows (namespace c) (db_cache (w_db w))) < passes)%nat →
  (∀ w' ev, evicts_to c ev (db_cache (w_db w)) (db_cache (w_db w')) →
     db_events (w_db w') = db_events (w_db w) → db_meta (w_db w') = db_meta (w_db w) →
     w_proc w' = set_evictions (p_evictions (w_proc w) + Z.of_nat (length ev)) (w_proc w) →
     w_intx w' = w_intx w → Q (Ok tt) w') →
  wp (enforce_loop passes c) w Q.
Proof.
  intros Hlen. revert w Hlen. induction passes as [|passes IH]; intros w Hlen HQ; [lia|].
  assert (∀ w' : World, within_limits c (db_cache (w_db w)) → w_db w' = w_db w → w_proc w' = w_proc w →
    w_intx w' = w_intx w → Q (Ok tt) w') as Hstop.
  { intros w' Hin Hd Hp Hx. apply (HQ _ []); rewrite ?Hd; try done; [by apply evicts_to_nil|].
    rewrite Hp. simpl. rewrite Z.add_0_r. by destruct (w_proc w). }
  pose proof (evictionOrderBy_perm (eviction c) (ns_rows (namespace c) (db_cache (w_db w)))) as Hp.
  pose proof (over_limits_spec c (db_cache (w_db w))) as Hspec.
  cbn [enforce_loop]. wp_go. destruct (over_limits _ _) eqn:Hover; cbn [negb].
  2:{ wp_go. apply Hstop; try done. destruct (decide (ns_rows (namespace c) (db_cache (w_db w)) = [])) as [Hn|Hn];
        [by left|by apply Hspec]. }
  wp_go. rewrite on_cache_db. cbn [fst snd advance with_db with_proc w_db w_proc].
  destruct (evictionOrderBy (eviction c) _) as [|[v r] rest] eqn:Ho.
  { (* nothing is left to evict *)
    cbn [take fmap list_fmap]. rewrite delete_keys_nil. cbn [fst snd Z.eqb]. wp_go.
    apply Hstop; simpl; try done; [|by destruct (w_db w)]. left. by apply Permutation_nil_l in Hp. }
  assert (db_cache (w_db w) !! (namespace c, v) = Some r) as Hv.
  { apply elem_of_ns_rows. rewrite <- Hp. by left. }
  assert (ns_rows (namespace c) (db_cache (w_db w)) ≠ []) as Hne.
  { intros Hn. rewrite Hn in Hp. by apply Permutation_nil_r in Hp. }
  cbn [take fmap list_fmap fst]. rewrite !take_0. rewrite (delete_keys_one _ _ _ _ Hv). cbn [fst snd Z.eqb].
  wp_go. apply IH.
  - simpl. pose proof (ns_rows_delete _ _ _ _ Hv) as Hd. apply Permutation_length in Hd.
    simpl in Hd. lia.
  - intros w' ev Hev He Hm Hpr Hx. simpl in *. apply (HQ w' (v :: ev)); try done.
    + eapply evicts_to_cons; [|exact Ho|done]. rewrite <- (Hspec Hne). done.
    + rewrite Hpr. unfold set_evictions. simpl. f_equal. lia.
Qed.

Lemma unlimited_within c t : unlimited c = true → within_limits c t.
Proof using Type. unfold unlimited, within_limits. intros Hu. right. by destruct (maxKeys c), (maxBytes c). Qed.

Lemma enforceCapacity_spec `{!Quiet H} c w (Q : result () → World → Prop) :
  eviction c ≠ NoEviction →
  (length (ns_rows (namespace c) (db_cache (w_db w))) < maxEvictionPasses)%nat →
  (∀ w' ev, evicts_to c ev (db_cache (w_db w)) (db_cache (w_db w')) →
     db_events (w_db w') = db_events (w_db w) → db_meta (w_db w') = db_meta (w_db w) →
     w_proc w' = set_evictions (p_evictions (w_proc w) + Z.of_nat (length ev)) (w_proc w) →
     w_intx w' = w_intx w → Q (Ok tt) w') →
  wp (enforceCapacity c) w Q.
Proof.
  intros He Hlen HQ. unfold enforceCapacity. rewrite bool_decide_false by done.
  destruct (unlimited c) eqn:Hu; cbn [orb]; wp_go.
  - apply (HQ _ []); simpl; try done; [by apply evicts_to_nil, unlimited_within|].
    rewrite Z.add_0_r. by destruct w as [? []].
  - apply enforce_loop_spec; [done..|]. intros. wp_go. eauto.
Qed.
End eviction.

(** C9: [enforceCapacity] brings the namespace back within [maxKeys] and [maxBytes]
    by evicting rows in the order of the policy, and no more than it must: only
    rows of this namespace go, every row evicted comes before every row kept
    (least recently used, or soonest to expire with rows without expiry last;
    any row for Random), before each eviction the namespace was over a limit,
    afterwards it is empty or has at most [maxKeys] keys and [maxBytes] bytes,
    the rows kept are unchanged, and the eviction counter counts exactly the
    rows evicted. For a policy other than NoEviction, fewer rows than the million
    passes of the loop, no driver failures and no other processes. *)
Theorem enforceCapacity_evicts `{H : Host} `{!Quiet H} (c : Cache) (w : World) :
  eviction c ≠ NoEviction →
  (length (ns_rows (namespace c) (db_cache (w_db w))) < maxEvictionPasses)%nat →
  ∃ w' ev, enforceCapacity c w = (Ok tt, w') ∧ NoDup ev ∧
    evicted c ev (db_cache (w_db w)) (db_cache (w_db w')) ∧
    within_limits c (db_cache (w_db w')) ∧
    needed c (db_cache (w_db w)) ev ∧
    p_evictions (w_proc w') = p_evictions (w_proc w) + Z.of_nat (length ev).
Proof.
  intros He Hlen.
  destruct (enforceCapacity_spec c w (λ r w', r = Ok tt ∧ ∃ ev,
    evicts_to c ev (db_cache (w_db w)) (db_cache (w_db w')) ∧
    p_evictions (w_proc w') = p_evictions (w_proc w) + Z.of_nat (length ev)) He Hlen)
    as (Hok & ev & (? & ? & ? & ?) & Hrest).
  { intros w' ev ? ? ? Hp ?. split; [done|]. exists ev. by rewrite Hp. }
  exists (enforceCapacity c w).2, ev. split_and!; [|done..].
  rewrite <- Hok. by destruct (enforceCapacity c w).
Qed.

(** Three keys where two are allowed; ["b"] is the least recently used. *)
Definition small_cache : Cache :=
  MkCache "/tmp/cache.db" "default" 1 (Some 2) None LRU false (60 * Second) true [] Hour 0 100.
Definition three_rows : cache_table :=
  <[("default", "a") := Row "1" 2 0 None 30 0 1]>
  (<[("default", "b") := Row "2" 2 0 (Some 90) 10 0 1]>
  (<[("default", "c") := Row "3" 2 0 None 20 0 1]> ∅)).

Lemma enforceCapacity_evicts_witness :
  let _ := still_host 50 in
  ∃ w' ev, enforceCapacity small_cache (init_world (set_cache three_rows empty_db)) = (Ok tt, w') ∧
    NoDup ev ∧
    evicted small_cache ev three_rows (db_cache (w_db w')) ∧
    within_limits small_cache (db_cache (w_db w')) ∧
    needed small_cache three_rows ev ∧
    p_evictions (w_proc w') = 0 + Z.of_nat (length ev).
Proof.
  intros host. apply (@enforceCapacity_evicts host (still_quiet 50) small_cache
    (init_world (set_cache three_rows empty_db))).
  - done.
  - apply (Nat.lt_le_trans _ 4); [vm_compute; lia|]. unfold maxEvictionPasses. lia.
Defined.

(** ** Removing expired rows *)

(** The table without the expired rows of one namespace. *)
Definition without_expired (ns : string) (now : Z) (t t' : cache_table) : Prop :=
  ∀ k, t' !! k = r ← t !! k; if bool_decide (k.1 = ns) && expired now r then None else Some r.

Lemma delete_keys_count ns ks t : NoDup ks → (∀ k, k ∈ ks → is_Some (t !! (ns, k))) →
  (delete_keys ns ks t).1 = Z.of_nat (length ks).
Proof.
  revert t. induction ks as [|k ks IH]; intros t Hnd Hin; [by rewrite delete_keys_nil|].
  apply NoDup_cons in Hnd as [Hk Hnd].
  assert ((delete_keys ns (k :: ks) t).2 = (delete_keys ns ks (delete (ns, k) t)).2) as Ht.
  { apply map_eq. intros [n k']. rewrite !delete_keys_lookup.
    destruct (decide ((n, k') = (ns, k))) as [[= -> ->]|Hne].
    - rewrite lookup_delete_eq. assert (k ∈ k :: ks) by left. repeat case_decide; tauto.
    - rewrite lookup_delete_ne by congruence. apply decide_ext. rewrite elem_of_cons.
      split; [|tauto]. intros [-> [->|?]]; [congruence|done]. }
  unfold delete_keys in *. rewrite delete_where_count, Ht.
  assert (size t ≠ 0%nat) as Hs.
  { rewrite map_size_ne_0_lookup. destruct (Hin k ltac:(left)) as [r Hr]. eauto. }
  specialize (IH (delete (ns, k) t) Hnd). rewrite delete_where_count in IH.
  rewrite map_size_delete in IH. destruct (Hin k ltac:(left)) as [r Hr]. rewrite Hr in IH.
  rewrite length_cons. rewrite Nat2Z.inj_succ, <- IH; [lia|].
  intros k' Hk'. rewrite lookup_delete_ne by congruence. apply Hin. by right.
Qed.

Section expiry.
Context {H : Host}.

Lemma elem_of_expired_batch ns now t k :
  k ∈ expired_batch ns now t → ∃ r, t !! (ns, k) = Some r ∧ expired now r = true.
Proof.
  unfold expired_batch. intros (i & Hk & _)%elem_of_take.
  apply list_elem_of_lookup_2, list_elem_of_fmap in Hk
    as ([k' r] & -> & [He Hin]%elem_of_bfilter).
  exists r. split; [|done]. apply elem_of_ns_rows. by rewrite <- scan_perm.
Qed.

Lemma expired_batch_all ns now t k r :
  (length (expired_batch ns now t) < sweepBatchSize)%nat →
  t !! (ns, k) = Some r → expired now r = true → k ∈ expired_batch ns now t.
Proof.
  unfold expired_batch. rewrite length_take. intros Hl Hr He.
  rewrite take_ge by lia. apply list_elem_of_fmap. exists (k, r). split; [done|].
  apply elem_of_bfilter. split; [done|]. rewrite scan_perm. by apply elem_of_ns_rows.
Qed.

Lemma NoDup_expired_batch ns now t : NoDup (expired_batch ns now t).
Proof.
  unfold expired_batch. apply (sublist_NoDup _ (scan (ns_rows ns t)).*1).
  - rewrite scan_perm. apply NoDup_ns_rows.
  - etrans; [apply sublist_take|].
    induction (scan (ns_rows ns t)) as [|[k r] l IH]; simpl; [done|].
    destruct (expired now r); simpl; by constructor.
Qed.

Lemma removeExpired_loop_spec `{!Quiet H} fuel c now w (Q : result () → World → Prop) :
  (size (db_cache (w_db w)) < fuel)%nat →
  (∀ w', without_expired (namespace c) now (db_cache (w_db w)) (db_cache (w_db w')) →
     db_events (w_db w') = db_events (w_db w) → db_meta (w_db w') = db_meta (w_db w) →
     w_proc w' = set_expiredRemoved (p_expiredRemoved (w_proc w) +
       (Z.of_nat (size (db_cache (w_db w))) - Z.of_nat (size (db_cache (w_db w'))))) (w_proc w) →
     w_intx w' = w_intx w → (w_step w ≤ w_step w')%nat → Q (Ok tt) w') →
  wp (removeExpired_loop fuel c now) w Q.
Proof.
  revert w. pose proof sweepBatchSize_pos as Hpos.
  induction fuel as [|fuel IH]; intros w Hsz HQ; [lia|].
  cbn [removeExpired_loop]. wp_go. rewrite !on_cache_db. cbn [fst snd].
  set (t := db_cache (w_db w)) in *. set (ks := expired_batch (namespace c) now t).
  assert ((delete_keys (namespace c) ks t).1 = Z.of_nat (length ks)) as Hn.
  { apply delete_keys_count; [apply NoDup_expired_batch|].
    intros k (r & Hr & _)%elem_of_expired_batch. eauto. }
  assert (Z.of_nat (size (delete_keys (namespace c) ks t).2) =
          Z.of_nat (size t) - Z.of_nat (length ks)) as Hsize.
  { rewrite <- Hn. unfold delete_keys. rewrite delete_where_count. lia. }
  assert (∀ k, (delete_keys (namespace c) ks t).2 !! k = r ← t !! k;
    if bool_decide (k.1 = namespace c) && bool_decide (k.2 ∈ ks) then None else Some r) as Hlk.
  { intros k. unfold delete_keys. by rewrite delete_where_lookup. }
  destruct (delete_keys (namespace c) ks t) as [n1 t1]. cbn [fst snd] in *. subst n1.
  wp_go. destruct (Z.ltb_spec (Z.of_nat (length ks)) (Z.of_nat sweepBatchSize)) as [Hlt|Hge].
  - wp_go. apply HQ; simpl; try done.
    + intros k. rewrite Hlk. destruct (t !! k) as [r|] eqn:Hr; simpl; [|done].
      destruct k as [n k]. simpl. case_bool_decide as Hns; [subst n|done]. simpl.
      case_bool_decide as Hk.
      * apply elem_of_expired_batch in Hk as (r' & Hr' & He).
        assert (r' = r) as -> by congruence. by rewrite He.
      * destruct (expired now r) eqn:He; [|done]. destruct Hk.
        apply (expired_batch_all _ _ _ _ r); [fold ks; lia|done|done].
    + f_equal. fold t. lia.
    + lia.
  - wp_go. apply IH; simpl.
    + pose proof (Nat2Z.is_nonneg (size t1)). lia.
    + intros w' Hwo He Hm Hp Hx Hst. simpl in *. apply HQ; try done; [| |lia].
      * intros k. rewrite Hwo, Hlk. destruct (t !! k) as [r|] eqn:Hr; simpl; [|done].
        destruct k as [n k]. simpl. case_bool_decide as Hns; [subst n|done]. simpl.
        case_bool_decide as Hk; [|done].
        apply elem_of_expired_batch in Hk as (r' & Hr' & He'). simpl.
        assert (r' = r) as -> by congruence. by rewrite He'.
      * rewrite Hp. unfold set_expiredRemoved. simpl. f_equal. fold t. lia.
Qed.

Lemma removeExpiredBatch_spec `{!Quiet H} c w (Q : result () → World → Prop) :
  (∀ w', without_expired (namespace c) (clock (w_step w)) (db_cache (w_db w)) (db_cache (w_db w')) →
     db_events (w_db w') = db_events (w_db w) → db_meta (w_db w') = db_meta (w_db w) →
     w_proc w' = set_expiredRemoved (p_expiredRemoved (w_proc w) +
       (Z.of_nat (size (db_cache (w_db w))) - Z.of_nat (size (db_cache (w_db w'))))) (w_proc w) →
     w_intx w' = w_intx w → (w_step w < w_step w')%nat → Q (Ok tt) w') →
  wp (removeExpiredBatch c) w Q.
Proof.
  intros HQ. unfold removeExpiredBatch. wp_go. unfold wp at 1, cache_fuel.
  cbn [fst snd]. wp_go. apply removeExpired_loop_spec; [simpl; lia|].
  intros w' ? ? ? ? ? Hst. wp_go. simpl in *. apply HQ; try done.
Qed.

(** ** Flushing the LRU buffer *)

(** Everything of a row but its LRU bookkeeping. *)
Definition row_data (r : row) : string * Z * Z * option Z * Z :=
  (value r, value_type r, created_at r, expires_at r, size_bytes r).
Definition same_data (t t' : cache_table) : Prop := row_data <$> t = row_data <$> t'.

Lemma flush_row_data ns k u t : same_data t (flush_row ns k u t).2.
Proof using Type.
  apply map_eq. intros k'. rewrite !lookup_fmap. unfold flush_row. rewrite update_at_lookup.
  case_decide; [subst k'|done]. by destruct (t !! (ns, k)).
Qed.

Lemma flush_all_spec `{!Quiet H} ns pending w (Q : result () → World → Prop) :
  (∀ w', same_data (db_cache (w_db w)) (db_cache (w_db w')) →
     db_events (w_db w') = db_events (w_db w) → db_meta (w_db w') = db_meta (w_db w) →
     w_proc w' = w_proc w → w_intx w' = w_intx w → (w_step w ≤ w_step w')%nat →
     Q (Ok tt) w') →
  wp (flush_all ns pending) w Q.
Proof.
  revert w. induction pending as [|[k u] pending IH]; intros w HQ; cbn [flush_all].
  { wp_go. by apply HQ. }
  wp_go. rewrite !on_cache_db. apply IH. simpl. intros w' Hd ? ? ? ? ?.
  apply HQ; try done; [|lia]. pose proof (flush_row_data ns k u (db_cache (w_db w))) as Hf.
  unfold same_data in *. congruence.
Qed.

Lemma flushLRUBuffer_spec `{!Quiet H} c w (Q : result () → World → Prop) :
  (∀ w', same_data (db_cache (w_db w)) (db_cache (w_db w')) →
     db_events (w_db w') = db_events (w_db w) → db_meta (w_db w') = db_meta (w_db w) →
     w_proc w' = set_lru ∅ (w_proc w) → (w_intx w = false → w_intx w' = false) →
     (w_step w ≤ w_step w')%nat → Q (Ok tt) w') →
  wp (flushLRUBuffer c) w Q.
Proof.
  intros HQ. unfold flushLRUBuffer. wp_go. case_bool_decide as He; wp_go.
  - apply HQ; try done. destruct (w_proc w); simpl in *; by subst.
  - apply wp_query. wp_go. apply flush_all_spec. intros w' ? ? ? Hp ? ?. wp_go.
    simpl in *. apply HQ; simpl; first [done|lia|by rewrite Hp].
Qed.
End expiry.

(** ** A whole maintenance pass *)

(** What one pass does to the cache table: bookkeeping is flushed, rows of the
    namespace expired at [now] are removed, then rows are evicted. *)
Definition swept (c : Cache) (now : Z) (ev : list string) (t t' : cache_table) : Prop :=
  ∃ t1 t2, same_data t t1 ∧ without_expired (namespace c) now t1 t2 ∧ evicts_to c ev t2 t'.

Lemma same_data_lookup t t' k : same_data t t' →
  match t !! k, t' !! k with
  | Some r, Some r' => row_data r = row_data r'
  | None, None => True
  | _, _ => False
  end.
Proof.
  intros Hs. assert ((row_data <$> t) !! k = (row_data <$> t') !! k) as Hk by (by rewrite Hs).
  rewrite !lookup_fmap in Hk. destruct (t !! k), (t' !! k); try done. simpl in Hk. congruence.
Qed.

Lemma row_data_expired now r r' : row_data r = row_data r' → expired now r = expired now r'.
Proof. unfold row_data, expired. intros [=]. by replace (expires_at r') with (expires_at r). Qed.

Lemma same_data_size ns t t' : same_data t t' → length (ns_rows ns t) = length (ns_rows ns t').
Proof.
  intros Hs.
  assert (∀ t t', same_data t t' → (ns_rows ns t).*1 ⊆+ (ns_rows ns t').*1) as Hsub.
  { clear. intros t t' Hs. apply NoDup_submseteq; [apply NoDup_ns_rows|].
    intros k ([k' r] & -> & Hr%elem_of_ns_rows)%list_elem_of_fmap.
    pose proof (same_data_lookup _ _ (ns, k') Hs) as Hk. rewrite Hr in Hk.
    destruct (t' !! (ns, k')) as [r'|] eqn:Hr'; [|done].
    apply list_elem_of_fmap. exists (k', r'). by rewrite elem_of_ns_rows. }
  pose proof (submseteq_length _ _ (Hsub _ _ Hs)).
  pose proof (submseteq_length _ _ (Hsub _ _ (eq_sym Hs : same_data t' t))).
  rewrite !length_fmap in *. lia.
Qed.

Lemma same_data_total t t' : same_data t t' → size t = size t'.
Proof.
  intros Hs. rewrite <- (map_size_fmap row_data t), <- (map_size_fmap row_data t').
  by rewrite Hs.
Qed.

Lemma evicted_size c ev t t' : NoDup ev → evicted c ev t t' →
  Z.of_nat (size t') = Z.of_nat (size t) - Z.of_nat (length ev).
Proof.
  intros Hnd [Hl Hin].
  assert (t' = (delete_keys (namespace c) ev t).2) as ->.
  { apply map_eq. intros [n k]. by rewrite Hl, delete_keys_lookup. }
  rewrite <- (delete_keys_count (namespace c) ev t Hnd).
  - unfold delete_keys. rewrite delete_where_count. lia.
  - intros k Hk. destruct (Hin k Hk) as (r & ? & _). eauto.
Qed.

Lemma without_expired_size ns now t t' : without_expired ns now t t' →
  (length (ns_rows ns t') ≤ length (ns_rows ns t))%nat.
Proof.
  intros Hw. apply submseteq_length, NoDup_submseteq; [eapply NoDup_fmap_1, NoDup_ns_rows|].
  intros [k r]. rewrite !elem_of_ns_rows, Hw. destruct (t !! (ns, k)); simpl; [|done].
  by case_match; intros; simplify_eq.
Qed.

Definition can_evict (c : Cache) (t : cache_table) : Prop :=
  eviction c ≠ NoEviction ∧ (length (ns_rows (namespace c) t) < maxEvictionPasses)%nat.

Section pass.
Context {H : Host} `{HQ : !Quiet H}.

Lemma grows_flushLRUBuffer c : grows (flushLRUBuffer c).
Proof using Type.
  assert (∀ l, grows (flush_all (namespace c) l)) as Hloop.
  { intros l. induction l as [|[k u] l IH]; simpl; grows_solve; done. }
  unfold flushLRUBuffer, Prepare. grows_solve; apply Hloop.
Qed.

Lemma grows_enforceCapacity c : grows (enforceCapacity c).
Proof using Type.
  assert (∀ n, grows (enforce_loop n c)) as Hloop.
  { intros n. induction n as [|n IH]; simpl; grows_solve; done. }
  unfold enforceCapacity. grows_solve; apply Hloop.
Qed.

Lemma sweepOnce_spec c w (Q : result () → World → Prop) :
  ready_ok w → w_intx w = false → can_evict c (db_cache (w_db w)) ∨ unlimited c = true →
  (∀ w' n m ev, swept c (clock n) ev (db_cache (w_db w)) (db_cache (w_db w')) →
     (w_step w ≤ n < w_step w')%nat →
     (unlimited c = true → ev = []) →
     db_events (w_db w') =
       retained (eventRetention c) (eventMaxCount c) (clock m) <$> db_events (w_db w) →
     p_evictions (w_proc w') = p_evictions (w_proc w) + Z.of_nat (length ev) →
     p_expiredRemoved (w_proc w') + Z.of_nat (length ev) = p_expiredRemoved (w_proc w) +
       Z.of_nat (size (db_cache (w_db w))) - Z.of_nat (size (db_cache (w_db w'))) →
     p_dispatcher (w_proc w') = p_dispatcher (w_proc w) → w_intx w' = false → ready_ok w' →
     Q (Ok tt) w') →
  wp (sweepOnce c) w Q.
Proof using HQ.
  intros Hr Hx Hlim HQ'. unfold sweepOnce. wp_go. apply flushLRUBuffer_spec.
  intros w1 Hd1 He1 _ Hp1 Hx1 Hs1. wp_go. apply removeExpiredBatch_spec.
  intros w2 Hd2 He2 _ Hp2 Hx2 Hs2. wp_go.
  apply (wp_mono _ _ (λ r w', r = Ok tt ∧ ∃ ev, evicts_to c ev (db_cache (w_db w2)) (db_cache (w_db w')) ∧ (unlimited c = true → ev = []) ∧
     db_events (w_db w') = db_events (w_db w2) ∧ w_intx w' = w_intx w2 ∧ (w_step w2 ≤ w_step w')%nat ∧
     w_proc w' = set_evictions (p_evictions (w_proc w2) + Z.of_nat (length ev)) (w_proc w2))).
  { destruct (unlimited c) eqn:Hu.
    - unfold enforceCapacity. rewrite Hu, orb_true_r. wp_go. split; [done|]. exists [].
      split_and!; try done; [by apply evicts_to_nil, unlimited_within|].
      rewrite Z.add_0_r. by destruct (w_proc w2).
    - destruct Hlim as [(Hne & Hlen)|]; [|done].
      apply wp_grows; [apply grows_enforceCapacity|].
      apply enforceCapacity_spec; [done| |].
      { rewrite (same_data_size _ _ _ Hd1) in Hlen. apply without_expired_size in Hd2. lia. }
      intros w3 ev ? ? ? ? ? ?. split; [done|]. by exists ev. }
  intros r w3 (-> & ev & Hev & Hnil & He3 & Hx3 & Hs3 & Hp3).
  apply wp_grows; [apply grows_sweepEvents|].
  apply (wp_frames p_evictions); [by apply frames_sweepEvents|].
  apply (wp_frames p_expiredRemoved); [by apply frames_sweepEvents|].
  apply (wp_frames p_dispatcher); [by apply frames_sweepEvents|].
  apply sweepEvents_spec.
  { intros Hre. rewrite He3, He2, He1. apply Hr.
    by rewrite Hp3, Hp2, Hp1 in Hre. }
  intros w4 m _ He4 Hc4 Hx4 Hr4 Hdis Hexp Hevi Hs4. apply (HQ' w4 (w_step w1) m ev).
  - exists (db_cache (w_db w1)), (db_cache (w_db w2)). by rewrite Hc4.
  - lia.
  - done.
  - by rewrite He4, He3, He2, He1.
  - by rewrite Hevi, Hp3, Hp2, Hp1.
  - rewrite Hexp, Hp3, Hp2, Hp1, Hc4. simpl.
    destruct Hev as (Hnd & Hev & _). rewrite (evicted_size _ _ _ _ Hnd Hev), (same_data_total _ _ Hd1). lia.
  - by rewrite Hdis, Hp3, Hp2, Hp1.
  - rewrite Hx4, Hx3, Hx2. by apply Hx1.
  - done.
Qed.
End pass.

Lemma swept_row c now ev t t' k r' : swept c now ev t t' → t' !! k = Some r' →
  ∃ r, t !! k = Some r ∧ row_data r = row_data r' ∧
       (k.1 = namespace c → expired now r' = false).
Proof.
  intros (t1 & t2 & Hs & Hw & (_ & [Hl _] & _)) Hr'. destruct k as [n k]. rewrite Hl in Hr'.
  case_decide; [done|]. rewrite Hw in Hr'. pose proof (same_data_lookup _ _ (n, k) Hs) as Hd.
  destruct (t1 !! (n, k)) as [r1|]; [|done]. simpl in Hr'.
  destruct (bool_decide (n = namespace c) && expired now r1) eqn:Hb; simplify_eq/=.
  destruct (t !! (n, k)) as [r|]; [|done]. exists r. split_and!; [done|done|].
  intros ->. by rewrite bool_decide_true in Hb.
Qed.

(** A row survives a pass unless it has expired or the limits force it out. *)
Lemma swept_kept c now ev t t' k r : swept c now ev t t' → t !! k = Some r →
  k.1 ≠ namespace c ∨ (ev = [] ∧ expired now r = false) →
  ∃ r', t' !! k = Some r' ∧ row_data r = row_data r'.
Proof.
  intros (t1 & t2 & Hs & Hw & (_ & [Hl _] & _)) Hr Hk. destruct k as [n k].
  pose proof (same_data_lookup _ _ (n, k) Hs) as Hd. rewrite Hr in Hd.
  destruct (t1 !! (n, k)) as [r1|] eqn:Hr1; [|done]. exists r1. split; [|done].
  rewrite Hl, Hw, Hr1. simpl in *. destruct Hk as [Hk|[-> Hk]].
  - rewrite decide_False by tauto. by rewrite bool_decide_false.
  - rewrite decide_False by (intros [_ ?%elem_of_nil]; done).
    rewrite <- (row_data_expired _ _ _ Hd), Hk. by rewrite andb_false_r.
Qed.

(** The rows that expiry leaves, whatever their bookkeeping. *)
Lemma without_expired_data ns now t t1 t2 k : same_data t t1 → without_expired ns now t1 t2 →
  row_data <$> t2 !! k =
  (r ← t !! k; if bool_decide (k.1 = ns) && expired now r then None else Some (row_data r)).
Proof.
  intros Hs Hw. rewrite Hw. pose proof (same_data_lookup _ _ k Hs) as Hk.
  destruct (t !! k) as [r|], (t1 !! k) as [r1|]; try done. simpl.
  rewrite (row_data_expired now r r1 Hk). case_match; [done|]. simpl. by rewrite Hk.
Qed.


