(* ===== verification/Kv.v ===== *)
(** Reading and writing values: [lytecache-go/kv.go] and [memoize.go]. *)

From S2P Require Import Prelude GoStd Values Store Engine Channels EventLog Changes Sweep.
Open Scope Z_scope.

(** ** Options and rows *)

(** The options of a write: [TTL d] sets [ttl]; the last one wins. *)
Definition applySetOptions (opts : list Z) : option Z := last opts.

(** Milliseconds of a [time.Duration] are below 2^44, so the sum with a clock
    reading stays within [int64]. *)
Definition expiresAtArg (ttl : option Z) (now : Z) : option Z :=
  match ttl with None => None | Some d => Some (now + Milliseconds d) end.

(** The row [upsertSQL] writes, over no row or over an existing one. *)
Definition fresh_row (data : string) (tc now : Z) (exp : option Z) : row :=
  Row data tc now exp now 0 (Z.of_nat (String.length data)).

Definition upsertSQL (ns key data : string) (tc now : Z) (exp : option Z) : cache_table → Z * cache_table :=
  upsert (ns, key) (fresh_row data tc now exp) (λ _, Some (fresh_row data tc now exp)).

(** [upsertSQL ... WHERE cache.expires_at IS NOT NULL AND cache.expires_at <= ?] *)
Definition addSQL (ns key data : string) (tc now : Z) (exp : option Z) : cache_table → Z * cache_table :=
  upsert (ns, key) (fresh_row data tc now exp)
    (λ r, if expired now r then Some (fresh_row data tc now exp) else None).

Definition replaceSQL (ns key data : string) (tc now : Z) (exp : option Z) : cache_table → Z * cache_table :=
  update_at (ns, key) (live now)
    (λ r, Row data tc (created_at r) exp now 0 (Z.of_nat (String.length data))).

(** [dedupe] of hash.go: the first occurrence of each string. *)
Fixpoint dedupe_go (seen : list string) (items : list string) : list string :=
  match items with
  | [] => []
  | s :: items =>
      if bool_decide (s ∈ seen) then dedupe_go seen items
      else s :: dedupe_go (s :: seen) items
  end.
Definition dedupe (items : list string) : list string := dedupe_go [] items.

Definition sortedKeys {V} (m : gmap string V) : list string := sort_strings (map_to_list m).*1.

Record RawValue := MkRawValue { Data : string; typeCode : Z }.
#[global] Instance RawValue_eq_dec : EqDecision RawValue.
Proof. solve_decision. Defined.

Section kv.
Context {H : Host} {GL : GoLib} {CJ : ChangeJson GL}.

Definition RawValue_Decode (rv : RawValue) (d : dest) : result any :=
  decodeInto (Data rv) (typeCode rv) d.

(** Strict mode returns the error, otherwise the read is a miss. *)
Definition degradeReadError {A} (c : Cache) (e : error) (miss : A) : M A :=
  if strict c then fail e else mret miss.

Definition deleteRaw (c : Cache) (key : string) : M () :=
  _ ← attempt (exec (on_cache (delete_keys (namespace c) [key]))); mret tt.

Definition checkCapacity (c : Cache) (key : string) : M () :=
  exists_ ← query (λ d, bool_decide (is_Some (db_cache d !! (namespace c, key))));
  if exists_ : bool then mret tt
  else
    (match maxKeys c with
     | None => mret tt
     | Some n =>
         count ← query (λ d, (count_sum (namespace c) (db_cache d)).1);
         if n <=? count then fail ErrCacheFull else mret tt
     end) ;;
    (match maxBytes c with
     | None => mret tt
     | Some n =>
         total ← query (λ d, (count_sum (namespace c) (db_cache d)).2);
         match total with
         | Some s => if n <=? s then fail ErrCacheFull else mret tt
         | None => mret tt
         end
     end).

Definition precheck (c : Cache) (key : string) : M () :=
  when (bool_decide (eviction c = NoEviction) && negb (unlimited c)) (checkCapacity c key).

Definition Set_ (c : Cache) (key : string) (v : any) (opts : list Z) : M () :=
  let ttl := applySetOptions opts in
  '(data, tc) ← lift (encodeValue v);
  precheck c key ;;
  now ← nowMillis;
  _ ← exec (on_cache (upsertSQL (namespace c) key data tc now (expiresAtArg ttl now)));
  changed c OpSet (Some [key]) 1 ;;
  maybeEvict c ;;
  maybeOpportunisticSweep c.

Definition getRaw (c : Cache) (key : string) : M (option (string * Z)) :=
  r ← attempt (query (λ d, db_cache d !! (namespace c, key)));
  maybeOpportunisticSweep c ;;
  match r with
  | inl e => degradeReadError c e None
  | inr None => mod_proc (λ p, set_misses (p_misses p + 1) p) ;; mret None
  | inr (Some row) =>
      now ← nowMillis;
      if expired now row then
        mod_proc (λ p, set_misses (p_misses p + 1) p) ;;
        deleteRaw c key ;;
        mret None
      else
        mod_proc (λ p, set_hits (p_hits p + 1) p) ;;
        bufferLRU c key now ;;
        mret (Some (value row, value_type row))
  end.

(** The end of [Get] and [GetSet]: [None] is [found = false]; otherwise what
    is stored through [dest]. *)
Definition decodeFound (c : Cache) (r : option (string * Z)) (d : dest) : M (option any) :=
  match r with
  | None => mret None
  | Some (data, tc) =>
      match decodeInto data tc d with
      | Ok v => mret (Some v)
      | Err e => degradeReadError c e None
      | Hang => hang
      end
  end.

Definition Get (c : Cache) (key : string) (d : dest) : M (option any) :=
  r ← getRaw c key;
  decodeFound c r d.

Definition GetBytes c key := Get c key DBytes.
Definition GetString c key := Get c key DString.
Definition GetInt64 c key := Get c key (DInt KInt64).
Definition GetFloat64 c key := Get c key DFloat64.

Definition Delete (c : Cache) (keys : list string) : M Z :=
  match keys with
  | [] => mret 0
  | _ =>
      n ← exec (on_cache (delete_keys (namespace c) keys));
      when (0 <? n) (changed c OpDelete (Some (dedupe keys)) n) ;;
      mret n
  end.

Definition Exists_ (c : Cache) (key : string) : M bool :=
  r ← attempt (query (λ d, expires_at <$> db_cache d !! (namespace c, key)));
  match r with
  | inl e => degradeReadError c e false
  | inr None => mret false
  | inr (Some None) => mret true
  | inr (Some (Some e)) =>
      now ← nowMillis;
      if e <=? now then deleteRaw c key ;; mret false else mret true
  end.

Definition add_ (c : Cache) (key : string) (v : any) (emit : bool) (opts : list Z) : M bool :=
  let ttl := applySetOptions opts in
  '(data, tc) ← lift (encodeValue v);
  precheck c key ;;
  now ← nowMillis;
  n ← exec (on_cache (addSQL (namespace c) key data tc now (expiresAtArg ttl now)));
  when (0 <? n)
    (when emit (changed c OpSet (Some [key]) 1) ;; maybeEvict c) ;;
  maybeOpportunisticSweep c ;;
  mret (0 <? n).

Definition Add (c : Cache) (key : string) (v : any) (opts : list Z) : M bool :=
  add_ c key v true opts.

Definition Replace (c : Cache) (key : string) (v : any) (opts : list Z) : M bool :=
  let ttl := applySetOptions opts in
  '(data, tc) ← lift (encodeValue v);
  now ← nowMillis;
  n ← exec (on_cache (replaceSQL (namespace c) key data tc now (expiresAtArg ttl now)));
  when (0 <? n) (changed c OpSet (Some [key]) 1) ;;
  maybeOpportunisticSweep c ;;
  mret (0 <? n).

Definition GetSet (c : Cache) (key : string) (v : any) (d : dest) : M (option any) :=
  '(data, tc) ← lift (encodeValue v);
  old ← inTx (
    r ← query (λ d, db_cache d !! (namespace c, key));
    previous ← (match r with
                | None => mret None
                | Some row =>
                    match expires_at row with
                    | None => mret (Some row)
                    | Some e => now ← nowMillis;
                                mret (if e <=? now then None else Some row)
                    end
                end);
    now ← nowMillis;
    _ ← exec (on_cache (upsertSQL (namespace c) key data tc now None));
    mret previous);
  changed c OpSet (Some [key]) 1 ;;
  maybeOpportunisticSweep c ;;
  decodeFound c ((λ row, (value row, value_type row)) <$> old) d.

Fixpoint set_all (c : Cache) (now : Z) (exp : option Z) (entries : list (string * any)) : M () :=
  match entries with
  | [] => mret tt
  | (key, v) :: entries =>
      '(data, tc) ← lift (encodeValue v);
      _ ← exec (on_cache (upsertSQL (namespace c) key data tc now exp));
      set_all c now exp entries
  end.

Definition SetMany (c : Cache) (entries : gmap string any) (opts : list Z) : M () :=
  if bool_decide (entries = ∅) then mret tt
  else
    let ttl := applySetOptions opts in
    inTx (Prepare ;;
          now ← nowMillis;
          set_all c now (expiresAtArg ttl now) (map_to_list entries)) ;;
    changed c OpSet (Some (sortedKeys entries)) (Z.of_nat (size entries)) ;;
    maybeEvict c ;;
    maybeOpportunisticSweep c.

(** The rows of [GetMany] one by one: the live ones and the expired keys. *)
Fixpoint collect (c : Cache) (now : Z) (rows : list (string * row))
    (acc : gmap string RawValue) (dead : list string) : M (gmap string RawValue * list string) :=
  match rows with
  | [] => mret (acc, dead)
  | (key, r) :: rows =>
      if expired now r then collect c now rows acc (dead ++ [key])
      else
        bufferLRU c key now ;;
        collect c now rows (<[key := MkRawValue (value r) (value_type r)]> acc) dead
  end.

Definition GetMany (c : Cache) (keys : list string) : M (gmap string RawValue) :=
  match keys with
  | [] => mret ∅
  | _ =>
      rows ← query (λ d, List.filter (λ p, bool_decide (p.1 ∈ keys))
                           (scan (ns_rows (namespace c) (db_cache d))));
      now ← nowMillis;
      '(result, dead) ← collect c now rows ∅ [];
      maybeOpportunisticSweep c ;;
      when (negb (bool_decide (dead = []))) (_ ← attempt (Delete c dead); mret tt) ;;
      mod_proc (λ p, set_hits (p_hits p + Z.of_nat (size result)) p) ;;
      mod_proc (λ p, set_misses (p_misses p +
         (Z.of_nat (length keys) - Z.of_nat (size result) - Z.of_nat (length dead))) p) ;;
      mod_proc (λ p, set_misses (p_misses p + Z.of_nat (length dead)) p) ;;
      mret result
  end.

(** [Memoize]: [loader] is the caller's function, [d] the destination of its
    result type. *)
Definition Memoize (c : Cache) (key : string) (ttl : Z) (d : dest) (loader : M any) : M any :=
  found ← Get c key d;
  match found with
  | Some v => mret v
  | None =>
      v ← loader;
      Set_ c key v (if 0 <? ttl then [ttl] else []) ;;
      mret v
  end.
End kv.
