(* ===== verification/Reads.v ===== *)
(** Expiry, listing and statistics: [ttl.go], [keys.go], [inspect.go],
    [namespaces.go], [stats.go] of [lytecache-go], and [Limits] of [cache.go]. *)

From S2P Require Import Prelude GoStd Values Store Engine Channels EventLog Changes Sweep Kv.
Open Scope Z_scope.

Definition keysBatchSize : nat := 500.
#[global] Arguments keysBatchSize : simpl never.

(** ** Statements *)

Definition expireSQL (ns key : string) (now exp : Z) : cache_table → Z * cache_table :=
  update_at (ns, key) (live now)
    (λ r, Row (value r) (value_type r) (created_at r) (Some exp) (last_accessed r)
              (access_count r) (size_bytes r)).

Definition persistSQL (ns key : string) (now : Z) : cache_table → Z * cache_table :=
  update_at (ns, key) (live now)
    (λ r, Row (value r) (value_type r) (created_at r) None (last_accessed r)
              (access_count r) (size_bytes r)).

(** [ORDER BY key] over the live keys of the namespace. *)
Definition live_keys (ns : string) (now : Z) (t : cache_table) : list string :=
  sort_strings (List.filter (λ p, live now p.2) (ns_rows ns t)).*1.

Definition str_lt (a b : string) : bool := String.ltb a b.

Definition flushSQL (ns : string) : cache_table → Z * cache_table :=
  delete_where (λ k _, bool_decide (k.1 = ns)).

(** [SUM(CASE WHEN expires_at IS NOT NULL AND expires_at <= ? THEN 1 ELSE 0 END)] *)
Definition count_expired (now : Z) (l : list (string * row)) : Z :=
  Z.of_nat (count_if (λ p, expired now p.2) l).

(** ** Results *)

Record RowInfo := MkRowInfo {
  RI_ValueType : Z;
  RI_SizeBytes : Z;
  RI_CreatedAt : Z;
  RI_ExpiresAt : option Z;
  RI_LastAccessed : Z;
  RI_AccessCount : Z
}.
Record NamespaceInfo := MkNamespaceInfo {
  NI_Namespace : string;
  NI_KeyCount : Z;
  NI_SizeBytes : Z;
  NI_ExpiredPresent : Z
}.
(** [HitRate] is kept as the fraction it is computed from. *)
Record Stats_ := MkStats {
  S_Hits : Z;
  S_Misses : Z;
  S_HitRate : option (Z * Z);
  S_KeyCount : Z;
  S_SizeBytes : Z;
  S_Evictions : Z;
  S_ExpiredRemoved : Z;
  S_ExpiredPresent : Z;
  S_Path : string;
  S_HashMode : string
}.

Definition HashMode (c : Cache) : string := if json1 c then "json1" else "fallback".

Section reads.
Context {H : Host} {GL : GoLib} {CJ : ChangeJson GL}.

Definition Expire (c : Cache) (key : string) (ttl : Z) : M bool :=
  now ← nowMillis;
  n ← exec (on_cache (expireSQL (namespace c) key now (now + Milliseconds ttl)));
  mret (0 <? n).

Definition Persist (c : Cache) (key : string) : M bool :=
  now ← nowMillis;
  n ← exec (on_cache (persistSQL (namespace c) key now));
  mret (0 <? n).

Definition Touch (c : Cache) (key : string) (ttl : Z) : M bool := Expire c key ttl.

(** [None]: not found; [Some None]: no expiry; [Some (Some d)]: [d] left. *)
Definition TTLOf (c : Cache) (key : string) : M (option (option Z)) :=
  r ← attempt (query (λ d, expires_at <$> db_cache d !! (namespace c, key)));
  match r with
  | inl e => degradeReadError c e None
  | inr None => mret None
  | inr (Some None) => mret (Some None)
  | inr (Some (Some e)) =>
      now ← nowMillis;
      if e <=? now then deleteRaw c key ;; mret None
      else mret (Some (Some (int64 ((e - now) * Millisecond))))
  end.

Definition Inspect (c : Cache) (key : string) : M (option RowInfo) :=
  r ← query (λ d, db_cache d !! (namespace c, key));
  match r with
  | None => mret None
  | Some row =>
      now ← (match expires_at row with Some _ => nowMillis | None => mret 0 end);
      if expired now row then deleteRaw c key ;; mret None
      else mret (Some (MkRowInfo (value_type row) (size_bytes row) (created_at row)
                         (expires_at row) (last_accessed row) (access_count row)))
  end.

Definition keysPage (c : Cache) (pattern lastKey : string) : M (list string) :=
  now ← nowMillis;
  query (λ d, take keysBatchSize
    (List.filter (λ k, glob pattern k && str_lt lastKey k)
       (live_keys (namespace c) now (db_cache d)))).

(** [Keys] run to the end: the keys yielded, and the error if a page fails. *)
Fixpoint keys_loop (fuel : nat) (c : Cache) (pattern lastKey : string) (acc : list string)
    : M (list string * option error) :=
  match fuel with
  | O => hang
  | S fuel =>
      r ← attempt (keysPage c pattern lastKey);
      match r with
      | inl e => mret (acc, Some e)
      | inr batch =>
          match last batch with
          | None => mret (acc, None)
          | Some k =>
              if Nat.ltb (length batch) keysBatchSize then mret (acc ++ batch, None)
              else keys_loop fuel c pattern k (acc ++ batch)
          end
      end
  end.

Definition Keys_ (c : Cache) (pattern : string) : M (list string * option error) :=
  let pattern := if String.eqb pattern "" then "*" else pattern in
  fuel ← cache_fuel;
  keys_loop fuel c pattern "" [].

Definition Flush (c : Cache) : M () :=
  n ← exec (on_cache (flushSQL (namespace c)));
  mod_proc (set_lru ∅) ;;
  when (0 <? n) (changed c OpFlush None n).

Definition namespace_info (now : Z) (t : cache_table) (ns : string) : NamespaceInfo :=
  let l := ns_rows ns t in
  MkNamespaceInfo ns (Z.of_nat (length l)) (sum_sizes l) (count_expired now l).

Definition Namespaces : M (list NamespaceInfo) :=
  now ← nowMillis;
  query (λ d, namespace_info now (db_cache d) <$>
              sort_strings (remove_dups ((λ p, p.1.1) <$> map_to_list (db_cache d)))).

Definition Stats (c : Cache) : M Stats_ :=
  flushLRUBuffer c ;;
  now ← nowMillis;
  '(cs, ex) ← query (λ d, (count_sum (namespace c) (db_cache d),
                           count_expired now (ns_rows (namespace c) (db_cache d))));
  p ← get_proc;
  let total := p_hits p + p_misses p in
  mret (MkStats (p_hits p) (p_misses p)
          (if 0 <? total then Some (p_hits p, total) else None)
          cs.1 (default 0 cs.2) (p_evictions p) (p_expiredRemoved p) ex (path c) (HashMode c)).

(** [Vacuum] rewrites the file without changing its contents. *)
Definition Vacuum : M () := exec (λ d, (tt, d)).

Definition Limits (c : Cache) : option Z * option Z := (maxKeys c, maxBytes c).
End reads.

(** ** Listing keys *)

Lemma str_lt_spec a b : str_lt a b = true ↔ str_le a b ∧ a ≠ b.
Proof.
  unfold str_lt, str_le, String.ltb, String.leb.
  destruct (String.compare a b) eqn:E.
  - apply String.compare_eq_iff in E. naive_solver.
  - split; [|done]. intros _. split; [done|]. intros ->.
    pose proof (String.compare_antisym b b) as Ha. by rewrite E in Ha.
  - naive_solver.
Qed.

Lemma str_lt_nil k : str_lt "" k = true ↔ k ≠ "".
Proof. by destruct k. Qed.

Lemma str_lt_trans a b c : str_lt a b = true → str_lt b c = true → str_lt a c = true.
Proof.
  rewrite !str_lt_spec. intros [? Hne] [? ?]. split; [by etrans|]. intros ->.
  by apply Hne, (anti_symm str_le).
Qed.

Lemma str_lt_le_trans a b c : str_lt a b = true → str_le b c → str_lt a c = true.
Proof.
  rewrite !str_lt_spec. intros [? Hne] ?. split; [by etrans|]. intros ->.
  by apply Hne, (anti_symm str_le).
Qed.

Lemma NoDup_live_keys ns now t : NoDup (live_keys ns now t).
Proof.
  unfold live_keys, sort_strings. rewrite merge_sort_Permutation.
  apply (sublist_NoDup _ (ns_rows ns t).*1); [apply NoDup_ns_rows|].
  induction (ns_rows ns t) as [|[k r] l IH]; simpl; [done|].
  destruct (live now r); simpl; by constructor.
Qed.

Lemma elem_of_live_keys ns now t k :
  k ∈ live_keys ns now t ↔ ∃ r, t !! (ns, k) = Some r ∧ live now r = true.
Proof.
  unfold live_keys, sort_strings. rewrite merge_sort_Permutation, list_elem_of_fmap. split.
  - intros ([k' r] & -> & [Hl Hin]%elem_of_bfilter). exists r. by rewrite <- elem_of_ns_rows.
  - intros (r & Hr & Hl). exists (k, r). split; [done|]. apply elem_of_bfilter.
    by rewrite elem_of_ns_rows.
Qed.

(** Strictly increasing lists of keys. *)
Abbreviation increasing l := (StronglySorted (λ a b, str_lt a b = true) l).

Lemma increasing_filter f (l : list string) : increasing l → increasing (List.filter f l).
Proof.
  induction 1 as [|x l Hs IH Hx]; simpl; [constructor|]. destruct (f x); [|done].
  constructor; [done|]. rewrite Forall_forall in *. intros y [_ Hy]%elem_of_bfilter. by apply Hx.
Qed.

Lemma increasing_of_sorted l : StronglySorted str_le l → NoDup l → increasing l.
Proof.
  induction 1 as [|x l Hs IH Hx]; intros Hnd; [constructor|].
  apply NoDup_cons in Hnd as [Hni Hnd]. constructor; [by apply IH|].
  rewrite Forall_forall in *. intros y Hy. apply str_lt_spec. split; [by apply Hx|congruence].
Qed.

Lemma increasing_live_keys ns now t : increasing (live_keys ns now t).
Proof.
  apply increasing_of_sorted; [|apply NoDup_live_keys].
  apply StronglySorted_merge_sort; apply _.
Qed.

Lemma increasing_app l k : increasing (l ++ k) ↔
  (∀ x y, x ∈ l → y ∈ k → str_lt x y = true) ∧ increasing l ∧ increasing k.
Proof. apply StronglySorted_app. Qed.

(** An element of an increasing list is in its first [n] or after all of them. *)
Lemma increasing_take n l x : increasing l → x ∈ l →
  x ∈ take n l ∨ ∀ y, y ∈ take n l → str_lt y x = true.
Proof.
  rewrite <- (take_drop n l) at 1 2. intros (Hlt & _ & _)%increasing_app [Hx|Hx]%elem_of_app;
    [by left|right]. intros y Hy. by apply Hlt.
Qed.

Section listing.
Context {H : Host}.

(** The page after [lastKey] at time [now]. *)
Definition page (ns pattern lastKey : string) (now : Z) (t : cache_table) : list string :=
  List.filter (λ k, glob pattern k && str_lt lastKey k) (live_keys ns now t).

Lemma elem_of_page ns pattern lastKey now t k :
  k ∈ page ns pattern lastKey now t ↔
  glob pattern k = true ∧ str_lt lastKey k = true ∧
  ∃ r, t !! (ns, k) = Some r ∧ live now r = true.
Proof. unfold page. rewrite elem_of_bfilter, andb_true_iff, elem_of_live_keys. tauto. Qed.

Lemma increasing_page ns pattern lastKey now t : increasing (page ns pattern lastKey now t).
Proof. apply increasing_filter, increasing_live_keys. Qed.

(** Rows of the namespace whose key comes after [k]. *)
Definition rows_after (ns k : string) (t : cache_table) : nat :=
  count_if (str_lt k) (ns_rows ns t).*1.

Lemma rows_after_lt ns k k' t : str_lt k k' = true → is_Some (t !! (ns, k')) →
  (rows_after ns k' t < rows_after ns k t)%nat.
Proof.
  intros Hlt [r Hr]. unfold rows_after, count_if.
  assert (k' ∈ (ns_rows ns t).*1) as Hin.
  { apply list_elem_of_fmap. exists (k', r). by rewrite elem_of_ns_rows. }
  pose proof (NoDup_ns_rows ns t) as Hnd. induction (ns_rows ns t).*1 as [|x l IH]; simpl.
  { by apply elem_of_nil in Hin. }
  apply NoDup_cons in Hnd as [Hx Hnd].
  assert ((length (List.filter (str_lt k') l) ≤ length (List.filter (str_lt k) l))%nat) as Hle.
  { clear -Hlt. induction l as [|y l IH]; simpl; [done|].
    destruct (str_lt k' y) eqn:E; [rewrite (str_lt_trans _ _ _ Hlt E); simpl; lia|].
    destruct (str_lt k y); simpl; lia. }
  apply elem_of_cons in Hin as [<-|Hin].
  - rewrite Hlt. assert (str_lt k' k' = false) as ->; [|simpl; lia].
    apply not_true_iff_false. rewrite str_lt_spec. tauto.
  - specialize (IH Hin Hnd). destruct (str_lt k' x) eqn:E;
      [rewrite (str_lt_trans _ _ _ Hlt E)|destruct (str_lt k x)]; simpl; lia.
Qed.

Lemma live_le now T r : now ≤ T → live T r = true → live now r = true.
Proof using Type. intros. by eapply live_anti. Qed.

Lemma increasing_last (l : list string) x y : increasing l → last l = Some x → y ∈ l → str_le y x.
Proof using Type.
  intros Hs (k & ->)%last_Some Hy. apply elem_of_app in Hy as [Hy| ->%list_elem_of_singleton]; [|reflexivity].
  apply increasing_app in Hs as (Hlt & _). apply str_lt_spec, Hlt; [done|by left].
Qed.

(** The last key of a full page excludes nothing up to itself. *)
Lemma page_upto ns pattern lastKey now t x k :
  let P := page ns pattern lastKey now t in
  x ∈ take keysBatchSize P → k ∈ P → str_le k x → k ∈ take keysBatchSize P.
Proof.
  intros P Hx Hk Hkx. destruct (increasing_take keysBatchSize P k) as [?|Hgt]; [apply increasing_page|done..|].
  specialize (Hgt x Hx). apply str_lt_spec in Hgt as [? Hne']. destruct Hne'. by apply (anti_symm str_le).
Qed.

End listing.

(** Two keys, one of which expires. *)
Definition two_keys : cache_table :=
  <[("default", "a") := Row "1" 2 0 None 0 0 1]> (<[("default", "b") := Row "2" 2 0 (Some 90) 0 0 1]> ∅).
