(* ===== verification/TtlMap.v ===== *)
(** The specification of the key-value interface: a map from keys to values
    with an expiry time, and the refinement from [Kv] and [Reads] to it.

    The specification knows no rows left over after expiry, no LRU buffer, no
    sweeps and no events. *)

From S2P Require Import Prelude GoStd Values Store Engine Channels EventLog Changes Sweep Kv Reads.
Open Scope Z_scope.

(** ** The abstract state *)

Record entry := Entry { e_data : string; e_type : Z; e_exp : option Z }.
#[global] Instance entry_eq_dec : EqDecision entry.
Proof. solve_decision. Defined.

Abbreviation TtlMap := (gmap string entry).

Definition alive (now : Z) (e : entry) : bool :=
  match e_exp e with Some x => now <? x | None => true end.
Definition lookup_at (now : Z) (A : TtlMap) (k : string) : option entry :=
  e ← A !! k; if alive now e then Some e else None.

(** What the table shows of one namespace at a time. *)
Definition entry_of (r : row) : entry := Entry (value r) (value_type r) (expires_at r).
Definition view (now : Z) (ns : string) (t : cache_table) (k : string) : option entry :=
  r ← t !! (ns, k); if live now r then Some (entry_of r) else None.

(** [T] is no earlier than any clock reading made so far. *)
Definition stamp `{Host} (w : World) (T : Z) : Prop :=
  ∀ m, (m < w_step w)%nat → clock m ≤ T.

Class MonotoneClock (H : Host) := clock_mono n m : (n ≤ m)%nat → clock n ≤ clock m.

(** The refinement relation. *)
Definition represents `{Host} (c : Cache) (w : World) (A : TtlMap) : Prop :=
  ∀ T, stamp w T → ∀ k, view T (namespace c) (db_cache (w_db w)) k = lookup_at T A k.

(** ** Upkeep

    A step that may change the table but not what it shows from now on. *)
Definition upkeep `{Host} (ns : string) (w w' : World) : Prop :=
  (w_step w ≤ w_step w')%nat ∧
  ∀ T, stamp w' T → ∀ k, view T ns (db_cache (w_db w')) k = view T ns (db_cache (w_db w)) k.

Definition calm `{Host} {A} (ns : string) (m : M A) : Prop :=
  ∀ w, (∃ a, (m w).1 = Ok a) ∧ upkeep ns w (m w).2.

Section upkeep.
Context {H : Host}.

Lemma stamp_le w w' T : (w_step w ≤ w_step w')%nat → stamp w' T → stamp w T.
Proof. intros Hs HT m Hm. apply HT. lia. Qed.

Lemma upkeep_refl ns w : upkeep ns w w.
Proof. by split. Qed.

Lemma upkeep_trans ns w w' w'' : upkeep ns w w' → upkeep ns w' w'' → upkeep ns w w''.
Proof.
  intros [Hs1 H1] [Hs2 H2]. split; [lia|]. intros T HT k.
  rewrite H2, H1; [done|by eapply stamp_le|done].
Qed.

Lemma upkeep_cache ns w w' :
  (w_step w ≤ w_step w')%nat → db_cache (w_db w') = db_cache (w_db w) → upkeep ns w w'.
Proof. intros Hs Hc. split; [done|]. by rewrite Hc. Qed.

Lemma upkeep_same_data ns w w' :
  (w_step w ≤ w_step w')%nat → same_data (db_cache (w_db w)) (db_cache (w_db w')) →
  upkeep ns w w'.
Proof.
  intros Hs Hd. split; [done|]. intros T _ k. unfold view.
  pose proof (same_data_lookup _ _ (ns, k) Hd) as Hk.
  destruct (db_cache (w_db w) !! _) as [r|], (db_cache (w_db w') !! _) as [r'|]; try done. simpl.
  rewrite !live_expired, (row_data_expired T r r') by done.
  unfold row_data in Hk. injection Hk as Hv Ht _ He _. unfold entry_of.
  by rewrite Hv, Ht, He.
Qed.

Lemma calm_wp {A} ns (m : M A) w (Q : result A → World → Prop) :
  calm ns m → (∀ a w', upkeep ns w w' → Q (Ok a) w') → wp m w Q.
Proof. intros Hm HQ. destruct (Hm w) as [[a Ha] Hu]. unfold wp. rewrite Ha. by apply HQ. Qed.

Lemma calm_of_wp {A} ns (m : M A) :
  (∀ w, wp m w (λ r w', (∃ a, r = Ok a) ∧ upkeep ns w w')) → calm ns m.
Proof. intros Hw w. apply (Hw w). Qed.

Lemma calm_ret {A} ns (a : A) : calm ns (mret a).
Proof. intros w. split; [by eexists|apply upkeep_refl]. Qed.
Lemma calm_mod_proc ns f : calm ns (mod_proc f).
Proof. intros w. split; [by eexists|by apply upkeep_cache]. Qed.
Lemma calm_get_proc ns : calm ns get_proc.
Proof. intros w. split; [by eexists|apply upkeep_refl]. Qed.
Lemma calm_bind {A B} ns (m : M A) (k : A → M B) :
  calm ns m → (∀ a, calm ns (k a)) → calm ns (m ≫= k).
Proof.
  intros Hm Hk w. destruct (Hm w) as [[a Ha] Hu]. unfold mbind, M_bind.
  destruct (m w) as [r w']. simpl in *. subst r. destruct (Hk a w') as [Hr Hu'].
  split; [done|]. by eapply upkeep_trans.
Qed.
Lemma calm_when ns b m : calm ns m → calm ns (when b m).
Proof. intros Hm. unfold when. destruct b; [done|apply calm_ret]. Qed.

Context `{HQ : !Quiet H}.

Lemma calm_sweepEvents ns c : calm ns (sweepEvents c).
Proof using HQ.
  apply calm_of_wp. intros w. apply wp_grows; [apply grows_sweepEvents|].
  apply sweepEvents_quiet. intros w' Hc Hs. split; [by eexists|]. by apply upkeep_cache.
Qed.

Lemma calm_flushLRUBuffer ns c : calm ns (flushLRUBuffer c).
Proof using HQ.
  apply calm_of_wp. intros w. apply flushLRUBuffer_spec. intros w' Hd _ _ _ _ Hs.
  split; [by eexists|]. by apply upkeep_same_data.
Qed.

Lemma calm_bufferLRU ns c key now : calm ns (bufferLRU c key now).
Proof using HQ.
  unfold bufferLRU. apply calm_bind; [apply calm_get_proc|]. intros p.
  apply calm_bind; [apply calm_mod_proc|]. intros _. apply calm_when, calm_flushLRUBuffer.
Qed.

Lemma calm_removeExpiredBatch ns c : calm ns (removeExpiredBatch c).
Proof using HQ.
  apply calm_of_wp. intros w. apply removeExpiredBatch_spec. intros w' Hwo _ _ _ _ Hs.
  split; [by eexists|]. split; [lia|]. intros T HT k. unfold view. rewrite Hwo.
  destruct (db_cache (w_db w) !! (ns, k)) as [r|]; simpl; [|done].
  case_match eqn:Hb; simpl; [|done]. apply andb_true_iff in Hb as [_ He].
  rewrite live_expired, (expired_mono (clock (w_step w)) T); [done|by apply HT|done].
Qed.

Context (c : Cache) (Hu : unlimited c = true).

Lemma calm_sweepOnce ns : calm ns (sweepOnce c).
Proof using HQ Hu.
  unfold sweepOnce. apply calm_bind; [apply calm_flushLRUBuffer|]. intros _.
  apply calm_bind; [apply calm_removeExpiredBatch|]. intros _.
  apply calm_bind; [|intros; apply calm_sweepEvents].
  unfold enforceCapacity. rewrite Hu, orb_true_r. apply calm_ret.
Qed.

Lemma calm_maybeOpportunisticSweep ns : calm ns (maybeOpportunisticSweep c).
Proof using HQ Hu.
  unfold maybeOpportunisticSweep. case_match; [apply calm_ret|].
  apply calm_bind; [apply calm_mod_proc|]. intros _. apply calm_bind; [apply calm_get_proc|].
  intros p. apply calm_when, calm_sweepOnce.
Qed.

Lemma calm_maybeEvict ns : calm ns (maybeEvict c).
Proof using Hu.
  unfold maybeEvict. rewrite Hu. case_bool_decide; apply calm_ret.
Qed.

Context {GL : GoLib} {CJ : ChangeJson GL}.

Lemma calm_changed ns op keys count : calm ns (changed c op keys count).
Proof using HQ.
  intros w. destruct (changed_returns c op keys count w) as [a Ha]. split; [by exists a|].
  apply upkeep_cache; [apply grows_changed|apply changed_cache].
Qed.

Lemma precheck_unlimited key : precheck c key = mret tt.
Proof using Hu. unfold precheck. rewrite Hu, andb_false_r. done. Qed.
End upkeep.

(** ** Operations of the specification *)

Section spec.
Context {GL : GoLib}.

Inductive kv_op :=
  | KSet (key : string) (v : any) (opts : list Z)
  | KAdd (key : string) (v : any) (opts : list Z)
  | KReplace (key : string) (v : any) (opts : list Z)
  | KGetSet (key : string) (v : any) (d : dest)
  | KSetMany (entries : gmap string any) (opts : list Z)
  | KGet (key : string) (d : dest)
  | KGetMany (keys : list string)
  | KDelete (keys : list string)
  | KExists (key : string)
  | KExpire (key : string) (ttl : Z)
  | KPersist (key : string)
  | KTTLOf (key : string)
  | KFlush
  | KMaintain.

Inductive reply :=
  | RUnit
  | RBool (b : bool)
  | RNum (n : Z)
  | RVal (o : option any)
  | RMap (m : gmap string RawValue)
  | RTtl (o : option (option Z)).

#[global] Instance reply_eq_dec `{!EqDecision float} `{!EqDecision jval} : EqDecision reply.
Proof using Type. solve_decision. Defined.

Definition put (k data : string) (tc : Z) (exp : option Z) (A : TtlMap) : TtlMap :=
  <[k := Entry data tc exp]> A.

(** Store an encodable value, or fail and change nothing. *)
Definition put_value (now : Z) (k : string) (v : any) (exp : option Z) (ok : reply) (A : TtlMap)
    : result reply * TtlMap :=
  match encodeValue v with
  | Ok (data, tc) => (Ok ok, put k data tc exp A)
  | Err e => (Err e, A)
  | Hang => (Hang, A)
  end.

Fixpoint put_all (exp : option Z) (l : list (string * any)) (A : TtlMap) : result TtlMap :=
  match l with
  | [] => Ok A
  | (k, v) :: l => '(data, tc) ← encodeValue v; put_all exp l (put k data tc exp A)
  end.

(** A value read back; an undecodable one is an error in strict mode only. *)
Definition read_back (strict : bool) (o : option entry) (d : dest) : result reply :=
  match o with
  | None => Ok (RVal None)
  | Some e =>
      match decodeInto (e_data e) (e_type e) d with
      | Ok v => Ok (RVal (Some v))
      | Err er => if strict then Err er else Ok (RVal None)
      | Hang => Hang
      end
  end.

Definition get_many (now : Z) (A : TtlMap) (keys : list string) : gmap string RawValue :=
  list_to_map (omap (λ k, e ← lookup_at now A k; Some (k, MkRawValue (e_data e) (e_type e))) keys).

Definition set_expiry (k : string) (exp : option Z) (e : entry) (A : TtlMap) : TtlMap :=
  <[k := Entry (e_data e) (e_type e) exp]> A.

(** The reply and the next state of an operation that takes place at [now].
    Only [KDelete]'s reply is not determined: expired rows that have not been
    removed yet are counted too. *)
Definition spec_op (strict : bool) (op : kv_op) (now : Z) (A : TtlMap)
    : (result reply → Prop) * TtlMap :=
  let det (p : result reply * TtlMap) := ((λ r, r = p.1), p.2) in
  match op with
  | KSet k v opts => det (put_value now k v (expiresAtArg (applySetOptions opts) now) RUnit A)
  | KAdd k v opts =>
      match encodeValue v, lookup_at now A k with
      | Ok _, Some _ => det (Ok (RBool false), A)
      | _, _ => det (put_value now k v (expiresAtArg (applySetOptions opts) now) (RBool true) A)
      end
  | KReplace k v opts =>
      match encodeValue v, lookup_at now A k with
      | Ok _, None => det (Ok (RBool false), A)
      | _, _ => det (put_value now k v (expiresAtArg (applySetOptions opts) now) (RBool true) A)
      end
  | KGetSet k v d =>
      match encodeValue v with
      | Ok (data, tc) => det (read_back strict (lookup_at now A k) d, put k data tc None A)
      | Err e => det (Err e, A)
      | Hang => det (Hang, A)
      end
  | KSetMany entries opts =>
      match put_all (expiresAtArg (applySetOptions opts) now) (map_to_list entries) A with
      | Ok A' => det (Ok RUnit, A')
      | Err e => det (Err e, A)
      | Hang => det (Hang, A)
      end
  | KGet k d => det (read_back strict (lookup_at now A k) d, A)
  | KGetMany keys => det (Ok (RMap (get_many now A keys)), A)
  | KDelete keys =>
      ((λ r, ∃ n, r = Ok (RNum n) ∧
         Z.of_nat (count_if (λ k, bool_decide (is_Some (lookup_at now A k))) (remove_dups keys)) ≤ n
         ≤ Z.of_nat (length (remove_dups keys))),
       filter (λ p, p.1 ∉ keys) A)
  | KExists k => det (Ok (RBool (bool_decide (is_Some (lookup_at now A k)))), A)
  | KExpire k ttl =>
      match lookup_at now A k with
      | Some e => det (Ok (RBool true), set_expiry k (Some (now + Milliseconds ttl)) e A)
      | None => det (Ok (RBool false), A)
      end
  | KPersist k =>
      match lookup_at now A k with
      | Some e => det (Ok (RBool true), set_expiry k None e A)
      | None => det (Ok (RBool false), A)
      end
  | KTTLOf k =>
      det (Ok (RTtl ((λ e, (λ x, int64 ((x - now) * Millisecond)) <$> e_exp e) <$> lookup_at now A k)), A)
  | KFlush => det (Ok RUnit, ∅)
  | KMaintain => det (Ok RUnit, A)
  end.
End spec.

Section run.
Context {H : Host} {GL : GoLib} {CJ : ChangeJson GL}.

(** The program's operation for each operation of the specification. *)
Definition run_op (c : Cache) (op : kv_op) : M reply :=
  match op with
  | KSet k v opts => Set_ c k v opts ;; mret RUnit
  | KAdd k v opts => x ← Add c k v opts; mret (RBool x)
  | KReplace k v opts => x ← Replace c k v opts; mret (RBool x)
  | KGetSet k v d => x ← GetSet c k v d; mret (RVal x)
  | KSetMany entries opts => SetMany c entries opts ;; mret RUnit
  | KGet k d => x ← Get c k d; mret (RVal x)
  | KGetMany keys => x ← GetMany c keys; mret (RMap x)
  | KDelete keys => x ← Delete c keys; mret (RNum x)
  | KExists k => x ← Exists_ c k; mret (RBool x)
  | KExpire k ttl => x ← Expire c k ttl; mret (RBool x)
  | KPersist k => x ← Persist c k; mret (RBool x)
  | KTTLOf k => x ← TTLOf c k; mret (RTtl x)
  | KFlush => Flush c ;; mret RUnit
  | KMaintain => sweepOnce c ;; mret RUnit
  end.
End run.

(** ** The refinement, operation by operation *)

Lemma upsertSQL_table ns k data tc now exp t :
  (upsertSQL ns k data tc now exp t).2 = <[(ns, k) := fresh_row data tc now exp]> t.
Proof. unfold upsertSQL, upsert. by destruct (t !! (ns, k)). Qed.

Section refine.
Context {H : Host} {GL : GoLib} {CJ : ChangeJson GL}.
Context `{HQ : !Quiet H} `{HM : !MonotoneClock H}.
Context (c : Cache) (Hu : unlimited c = true).

Lemma stamp_clock w n : (w_step w ≤ n)%nat → stamp w (clock n).
Proof using HM. intros Hn m Hm. apply clock_mono. lia. Qed.

Lemma represents_upkeep w w' A :
  represents c w A → upkeep (namespace c) w w' → represents c w' A.
Proof using Type.
  intros HR [Hs Hv] T HT k. rewrite Hv by done. apply HR. by eapply stamp_le.
Qed.

Lemma view_insert T ns t k r k' :
  view T ns (<[(ns, k) := r]> t) k' =
  if decide (k = k') then (if live T r then Some (entry_of r) else None) else view T ns t k'.
Proof using Type.
  unfold view. case_decide as Hk; [subst|].
  - by rewrite lookup_insert_eq.
  - by rewrite lookup_insert_ne by congruence.
Qed.

Lemma lookup_at_insert T A k e k' :
  lookup_at T (<[k := e]> A) k' =
  if decide (k = k') then (if alive T e then Some e else None) else lookup_at T A k'.
Proof using Type.
  unfold lookup_at. case_decide as Hk; [subst|].
  - by rewrite lookup_insert_eq.
  - by rewrite lookup_insert_ne by congruence.
Qed.

Lemma represents_insert w w' A k r :
  represents c w A → (w_step w ≤ w_step w')%nat →
  db_cache (w_db w') = <[(namespace c, k) := r]> (db_cache (w_db w)) →
  represents c w' (<[k := entry_of r]> A).
Proof using Type.
  intros HR Hs Hc T HT k'. rewrite Hc, view_insert, lookup_at_insert.
  case_decide; [done|]. apply HR. by eapply stamp_le.
Qed.

(** What the row of a key says about the specification. *)
Lemma represents_row w A now k : represents c w A → stamp w now →
  lookup_at now A k = r ← db_cache (w_db w) !! (namespace c, k);
                      if live now r then Some (entry_of r) else None.
Proof using Type. intros HR Hst. by rewrite <- (HR now Hst k). Qed.

Definition refines (op : kv_op) : Prop := ∀ w A, represents c w A →
  wp (run_op c op) w (λ r w', ∃ n, (w_step w ≤ n ≤ w_step w')%nat ∧
    (spec_op (strict c) op (clock n) A).1 r ∧
    represents c w' (spec_op (strict c) op (clock n) A).2).

(** Discharge a call that is mere upkeep. *)
Ltac calm_step tac :=
  apply calm_wp with (ns := namespace c); [tac|];
  let a := fresh "a" in let w := fresh "w" in let Hup := fresh "Hup" in
  intros a w Hup.

Ltac upkeep_calls :=
  repeat first
    [ wp_step
    | rewrite (precheck_unlimited c Hu)
    | lazymatch goal with
      | |- wp (changed _ _ _ _) _ _ => calm_step ltac:(apply (calm_changed c))
      | |- wp (maybeEvict _) _ _ => calm_step ltac:(apply (calm_maybeEvict c Hu))
      | |- wp (maybeOpportunisticSweep _) _ _ =>
          calm_step ltac:(apply (calm_maybeOpportunisticSweep c Hu))
      | |- wp (sweepOnce _) _ _ => calm_step ltac:(apply (calm_sweepOnce c Hu))
      | |- wp (bufferLRU _ _ _) _ _ => calm_step ltac:(apply calm_bufferLRU)
      end ].

(** Chain the upkeep steps into one. *)
Ltac merge_upkeep :=
  repeat match goal with
  | H1 : upkeep ?ns ?w1 ?w2, H2 : upkeep ?ns ?w2 ?w3 |- _ =>
      pose proof (upkeep_trans ns w1 w2 w3 H1 H2); clear H1 H2
  end.

Ltac upkeep_auto :=
  first
    [ apply upkeep_cache; [simpl; lia|done]
    | match goal with
      | Hup : upkeep ?ns ?w1 ?w2 |- upkeep ?ns ?w ?w' =>
          apply (upkeep_trans ns w w1 w'); [clear Hup; upkeep_auto|];
          apply (upkeep_trans ns w1 w2 w'); [exact Hup|clear Hup; upkeep_auto]
      end ].

(** The step counter only grows. *)
Ltac step_le :=
  repeat match goal with H : upkeep _ _ _ |- _ => destruct H as [H _] end;
  simpl in *; lia.

Lemma encodeValue_no_hang v : encodeValue v ≠ Hang.
Proof using Type.
  unfold encodeValue, encodeUintBytes, encodeFloatBytes. by repeat case_match.
Qed.

Lemma refines_KSet k v opts : refines (KSet k v opts).
Proof using HQ Hu.
  intros w A HR. unfold run_op, Set_, spec_op, put_value. wp_go.
  pose proof (encodeValue_no_hang v) as Hnh.
  destruct (encodeValue v) as [[data tc]|e|]; [|by exists (w_step w)|done].
  upkeep_calls. merge_upkeep. exists (w_step w). split; [step_le|]. split; [done|].
  eapply represents_upkeep; [|eassumption].
  eapply (represents_insert w _ A k (fresh_row data tc _ _) HR); [simpl; lia|].
  by rewrite <- upsertSQL_table.
Qed.

Lemma represents_delete w w' A ks :
  represents c w A → (w_step w ≤ w_step w')%nat →
  db_cache (w_db w') = (delete_keys (namespace c) ks (db_cache (w_db w))).2 →
  represents c w' (filter (λ p, p.1 ∉ ks) A).
Proof using Type.
  intros HR Hs Hc T HT k. rewrite Hc. unfold view. rewrite delete_keys_lookup.
  unfold lookup_at. rewrite map_lookup_filter.
  specialize (HR T (stamp_le _ _ _ Hs HT) k). unfold view, lookup_at in HR.
  case_decide as Hk.
  - destruct Hk as [_ Hk]. simpl. destruct (A !! k); simpl; [|done]. case_guard as Hg; [by destruct Hg|done].
  - rewrite HR. destruct (A !! k); simpl; [|done]. case_guard as Hg; [done|].
    by destruct Hk.
Qed.

(** Removing rows that show nothing any more changes nothing. *)
Lemma represents_delete_dead w w' A ks :
  represents c w A → (w_step w ≤ w_step w')%nat →
  db_cache (w_db w') = (delete_keys (namespace c) ks (db_cache (w_db w))).2 →
  (∀ T k, stamp w' T → k ∈ ks → lookup_at T A k = None) →
  represents c w' A.
Proof using Type.
  intros HR Hs Hc Hdead T HT k. rewrite Hc. unfold view. rewrite delete_keys_lookup.
  case_decide as Hk; [|by apply HR; eapply stamp_le].
  destruct Hk as [_ Hk]. simpl. symmetry. by apply Hdead.
Qed.

(** A row of [w] that had expired at reading [n] shows nothing afterwards. *)
Lemma expired_dead w w' A k r n T :
  represents c w A → db_cache (w_db w) !! (namespace c, k) = Some r →
  expired (clock n) r = true → (w_step w ≤ w_step w')%nat → (n < w_step w')%nat →
  stamp w' T → lookup_at T A k = None.
Proof using Type.
  intros HR Hr He Hs Hn HT. rewrite (represents_row w A T k HR (stamp_le _ _ _ Hs HT)), Hr. simpl.
  by rewrite live_expired, (expired_mono (clock n) T) by (done || by apply HT).
Qed.

(** The reply of a read whose row is [o]. *)
Lemma wp_decodeFound (o : option row) d w (Q : result (option any) → World → Prop) :
  (∀ x, read_back (strict c) (entry_of <$> o) d = RVal <$> x → Q x w) →
  wp (decodeFound c ((λ r, (value r, value_type r)) <$> o) d) w Q.
Proof using Type.
  unfold decodeFound, read_back, degradeReadError, wp. intros HQ'.
  destruct o as [r|]; simpl in *; [|by apply HQ'].
  repeat (case_match; simplify_eq/=); by apply HQ'.
Qed.

Lemma refines_KGet k d : refines (KGet k d).
Proof using HQ HM Hu.
  intros w A HR. unfold run_op, Get, getRaw. wp_go. upkeep_calls. simpl.
  destruct (db_cache (w_db w) !! (namespace c, k)) as [r|] eqn:Hr.
  2:{ wp_go. exists (w_step w). split; [step_le|]. split.
      - cbn [spec_op fst]. rewrite (represents_row w A _ k HR) by (apply stamp_clock; lia).
        by rewrite Hr.
      - eapply represents_upkeep; [exact HR|upkeep_auto]. }
  upkeep_calls.
  assert (represents c w0 A) as HR0.
  { eapply represents_upkeep; [exact HR|upkeep_auto]. }
  assert (w_step w ≤ w_step w0)%nat as Hs0 by step_le.
  assert (lookup_at (clock (w_step w0)) A k = if live (clock (w_step w0)) r then Some (entry_of r) else None) as Hl.
  { rewrite (represents_row w A _ k HR) by (apply stamp_clock; lia). by rewrite Hr. }
  destruct (expired (clock (w_step w0)) r) eqn:He.
  - unfold deleteRaw. upkeep_calls. exists (w_step w0). split; [simpl; lia|]. split.
    + simpl. by rewrite Hl, live_expired, He.
    + eapply (represents_delete_dead w0 _ A [k]); [done|simpl; lia| |].
      * done.
      * intros T k' HT ->%list_elem_of_singleton.
        eapply (expired_dead w _ A k r (w_step w0) T HR Hr He); [| |exact HT]; simpl; lia.
  - upkeep_calls.
    match goal with |- wp _ ?w' _ => set (w2 := w') in * end.
    apply (wp_decodeFound (Some r) d w2). intros x Hx.
    assert (∃ n, (w_step w ≤ n ≤ w_step w2)%nat ∧
      (spec_op (strict c) (KGet k d) (clock n) A).1 (RVal <$> x) ∧ represents c w2 A) as Hend.
    { exists (w_step w0). split; [step_le|]. split.
      - simpl. by rewrite Hl, live_expired, He.
      - eapply represents_upkeep; [exact HR|upkeep_auto]. }
    destruct x; exact Hend.
Qed.

(** Insertion where the key showed nothing or something: the row written. *)
Lemma addSQL_table ns k data tc now exp t :
  addSQL ns k data tc now exp t =
  match t !! (ns, k) with
  | Some r => if expired now r then (1, <[(ns, k) := fresh_row data tc now exp]> t) else (0, t)
  | None => (1, <[(ns, k) := fresh_row data tc now exp]> t)
  end.
Proof using Type.
  unfold addSQL, upsert. destruct (t !! (ns, k)) as [r|]; [|done]. by destruct (expired now r).
Qed.

Lemma refines_KAdd k v opts : refines (KAdd k v opts).
Proof using HQ HM Hu.
  intros w A HR. unfold run_op, Add, add_, spec_op, put_value. wp_go.
  pose proof (encodeValue_no_hang v) as Hnh.
  destruct (encodeValue v) as [[data tc]|e|]; [|by exists (w_step w)|done].
  upkeep_calls. simpl. rewrite addSQL_table.
  pose proof (represents_row w A (clock (w_step w)) k HR ltac:(apply stamp_clock; lia)) as Hl.
  set (now := clock (w_step w)) in *.
  destruct (db_cache (w_db w) !! (namespace c, k)) as [r|] eqn:Hr; simpl in Hl;
    [destruct (expired now r) eqn:He; rewrite live_expired, He in Hl; simpl in Hl|].
  2:{ cbn [fst snd Z.ltb Z.compare when]. upkeep_calls. exists (w_step w). fold now. rewrite Hl.
      split; [step_le|]. split; [done|]. eapply represents_upkeep; [exact HR|upkeep_auto]. }
  all: cbn [fst snd Z.ltb Z.compare when]; upkeep_calls; merge_upkeep;
    exists (w_step w); fold now; rewrite Hl; split; [step_le|]; split; [done|];
    eapply represents_upkeep; [|eassumption];
    by eapply (represents_insert w _ A k (fresh_row data tc now _) HR); [simpl; lia|].
Qed.

Lemma replaceSQL_table ns k data tc now exp t :
  replaceSQL ns k data tc now exp t =
  match t !! (ns, k) with
  | Some r => if live now r
              then (1, <[(ns, k) := Row data tc (created_at r) exp now 0 (Z.of_nat (String.length data))]> t)
              else (0, t)
  | None => (0, t)
  end.
Proof using Type. unfold replaceSQL, update_at. by destruct (t !! (ns, k)). Qed.

Lemma refines_KReplace k v opts : refines (KReplace k v opts).
Proof using HQ HM Hu.
  intros w A HR. unfold run_op, Replace, spec_op, put_value. wp_go.
  pose proof (encodeValue_no_hang v) as Hnh.
  destruct (encodeValue v) as [[data tc]|e|]; [|by exists (w_step w)|done].
  upkeep_calls. simpl. rewrite replaceSQL_table.
  pose proof (represents_row w A (clock (w_step w)) k HR ltac:(apply stamp_clock; lia)) as Hl.
  set (now := clock (w_step w)) in *.
  destruct (db_cache (w_db w) !! (namespace c, k)) as [r|] eqn:Hr; simpl in Hl;
    [destruct (live now r) eqn:He|].
  - cbn [fst snd Z.ltb Z.compare when]. upkeep_calls. merge_upkeep.
    exists (w_step w). fold now. rewrite Hl. split; [step_le|]. split; [done|].
    eapply represents_upkeep; [|eassumption].
    by eapply (represents_insert w _ A k (Row data tc (created_at r) _ now 0 _) HR); [simpl; lia|].
  - cbn [fst snd Z.ltb Z.compare when]. upkeep_calls. exists (w_step w). fold now. rewrite Hl.
    split; [step_le|]. split; [done|]. eapply represents_upkeep; [exact HR|upkeep_auto].
  - cbn [fst snd Z.ltb Z.compare when]. upkeep_calls. exists (w_step w). fold now. rewrite Hl.
    split; [step_le|]. split; [done|]. eapply represents_upkeep; [exact HR|upkeep_auto].
Qed.

Lemma refines_KExists k : refines (KExists k).
Proof using HQ HM Hu.
  intros w A HR. unfold run_op, Exists_. wp_go. simpl.
  pose proof (represents_row w A (clock (w_step w)) k HR ltac:(apply stamp_clock; lia)) as Hl.
  pose proof (represents_row w A (clock (S (w_step w))) k HR ltac:(apply stamp_clock; lia)) as Hl1.
  destruct (db_cache (w_db w) !! (namespace c, k)) as [r|] eqn:Hr; simpl in *.
  2:{ wp_go. exists (w_step w). cbn [spec_op fst snd]. rewrite Hl. split; [simpl; lia|].
      split; [done|]. eapply represents_upkeep; [exact HR|upkeep_auto]. }
  destruct (expires_at r) as [e|] eqn:Hexp; wp_go.
  - simpl. unfold live in Hl1. rewrite Hexp in Hl1. destruct (Z.leb_spec e (clock (S (w_step w)))).
    + unfold deleteRaw. wp_go. exists (S (w_step w)). cbn [spec_op fst snd]. rewrite Hl1.
      rewrite (proj2 (Z.ltb_ge _ _)) by lia. split; [simpl; lia|]. split; [done|].
      eapply (represents_delete_dead w _ A [k]); [done|simpl; lia|done|].
      intros T k' HT ->%list_elem_of_singleton.
      eapply (expired_dead w _ A k r (S (w_step w)) T HR Hr); [| | |exact HT]; simpl; [|lia..].
      unfold expired. rewrite Hexp. by apply Z.leb_le.
    + wp_go. exists (S (w_step w)). cbn [spec_op fst snd]. rewrite Hl1.
      rewrite (proj2 (Z.ltb_lt _ _)) by lia. split; [simpl; lia|]. split; [done|].
      eapply represents_upkeep; [exact HR|upkeep_auto].
  - exists (w_step w). cbn [spec_op fst snd]. rewrite Hl. unfold live. rewrite Hexp.
    split; [simpl; lia|]. split; [done|]. eapply represents_upkeep; [exact HR|upkeep_auto].
Qed.

Lemma refines_KTTLOf k : refines (KTTLOf k).
Proof using HQ HM Hu.
  intros w A HR. unfold run_op, TTLOf. wp_go. simpl.
  pose proof (represents_row w A (clock (w_step w)) k HR ltac:(apply stamp_clock; lia)) as Hl.
  pose proof (represents_row w A (clock (S (w_step w))) k HR ltac:(apply stamp_clock; lia)) as Hl1.
  destruct (db_cache (w_db w) !! (namespace c, k)) as [r|] eqn:Hr; simpl in *.
  2:{ wp_go. exists (w_step w). cbn [spec_op fst snd]. rewrite Hl. split; [simpl; lia|].
      split; [done|]. eapply represents_upkeep; [exact HR|upkeep_auto]. }
  destruct (expires_at r) as [e|] eqn:Hexp; wp_go.
  - simpl. unfold live in Hl1. rewrite Hexp in Hl1. destruct (Z.leb_spec e (clock (S (w_step w)))).
    + unfold deleteRaw. wp_go. exists (S (w_step w)). cbn [spec_op fst snd]. rewrite Hl1.
      rewrite (proj2 (Z.ltb_ge _ _)) by lia. split; [simpl; lia|]. split; [done|].
      eapply (represents_delete_dead w _ A [k]); [done|simpl; lia|done|].
      intros T k' HT ->%list_elem_of_singleton.
      eapply (expired_dead w _ A k r (S (w_step w)) T HR Hr); [| | |exact HT]; simpl; [|lia..].
      unfold expired. rewrite Hexp. by apply Z.leb_le.
    + wp_go. exists (S (w_step w)). cbn [spec_op fst snd]. rewrite Hl1.
      rewrite (proj2 (Z.ltb_lt _ _)) by lia. split; [simpl; lia|].
      split; [simpl; by rewrite Hexp|]. eapply represents_upkeep; [exact HR|upkeep_auto].
  - exists (w_step w). cbn [spec_op fst snd]. rewrite Hl. unfold live. rewrite Hexp.
    split; [simpl; lia|]. split; [simpl; by rewrite Hexp|].
    eapply represents_upkeep; [exact HR|upkeep_auto].
Qed.

(** An update of a live row's expiry, and nothing else. *)
Lemma represents_expiry w w' A k r exp now :
  represents c w A → stamp w now → (w_step w ≤ w_step w')%nat →
  db_cache (w_db w) !! (namespace c, k) = Some r → lookup_at now A k = Some (entry_of r) →
  ∀ r', entry_of r' = Entry (value r) (value_type r) exp →
  db_cache (w_db w') = <[(namespace c, k) := r']> (db_cache (w_db w)) →
  represents c w' (set_expiry k exp (entry_of r) A).
Proof using Type.
  intros HR _ Hs _ _ r' Hr' Hc. unfold set_expiry.
  pose proof (represents_insert w w' A k r' HR Hs Hc) as Hi. rewrite Hr' in Hi. exact Hi.
Qed.

Lemma refines_KExpire k ttl : refines (KExpire k ttl).
Proof using HQ HM Hu.
  intros w A HR. unfold run_op, Expire, spec_op. wp_go. simpl.
  unfold expireSQL, update_at. simpl.
  pose proof (represents_row w A (clock (w_step w)) k HR ltac:(apply stamp_clock; lia)) as Hl.
  set (now := clock (w_step w)) in *. exists (w_step w). fold now. rewrite Hl. split; [simpl; lia|].
  destruct (db_cache (w_db w) !! (namespace c, k)) as [r|] eqn:Hr; simpl in *;
    [destruct (live now r) eqn:He; simpl|].
  - split; [done|].
    eapply (represents_expiry w _ A k r _ now); try done; [apply stamp_clock; lia|simpl; lia|done].
  - split; [done|]. eapply represents_upkeep; [exact HR|upkeep_auto].
  - split; [done|]. eapply represents_upkeep; [exact HR|upkeep_auto].
Qed.

Lemma refines_KPersist k : refines (KPersist k).
Proof using HQ HM Hu.
  intros w A HR. unfold run_op, Persist, spec_op. wp_go. simpl.
  unfold persistSQL, update_at. simpl.
  pose proof (represents_row w A (clock (w_step w)) k HR ltac:(apply stamp_clock; lia)) as Hl.
  set (now := clock (w_step w)) in *. exists (w_step w). fold now. rewrite Hl. split; [simpl; lia|].
  destruct (db_cache (w_db w) !! (namespace c, k)) as [r|] eqn:Hr; simpl in *;
    [destruct (live now r) eqn:He; simpl|].
  - split; [done|].
    eapply (represents_expiry w _ A k r _ now); try done; [apply stamp_clock; lia|simpl; lia|done].
  - split; [done|]. eapply represents_upkeep; [exact HR|upkeep_auto].
  - split; [done|]. eapply represents_upkeep; [exact HR|upkeep_auto].
Qed.

Lemma refines_KMaintain : refines KMaintain.
Proof using HQ HM Hu.
  intros w A HR. unfold run_op. upkeep_calls. exists (w_step w).
  split; [step_le|]. split; [done|]. eapply represents_upkeep; [exact HR|upkeep_auto].
Qed.

Lemma flushSQL_lookup ns t k : (flushSQL ns t).2 !! (ns, k) = None.
Proof using Type.
  unfold flushSQL. rewrite delete_where_lookup. cbn [fst]. rewrite bool_decide_true by done.
  by destruct (t !! _).
Qed.

Lemma refines_KFlush : refines KFlush.
Proof using HQ HM Hu.
  intros w A HR. unfold run_op, Flush. wp_go.
  assert (∀ w', (w_step w ≤ w_step w')%nat →
    db_cache (w_db w') = (flushSQL (namespace c) (db_cache (w_db w))).2 → represents c w' ∅) as He.
  { intros w' _ Hc T _ k. unfold view. rewrite Hc, flushSQL_lookup. done. }
  destruct (0 <? _); cbn [when]; upkeep_calls; exists (w_step w);
    (split; [step_le|]); (split; [done|]).
  - eapply represents_upkeep; [|eassumption]. by apply He; [simpl; lia|].
  - by apply He; [simpl; lia|].
Qed.

(** The number of rows a [DELETE ... IN] removes. *)
Lemma delete_keys_bounds ns ks t (P : string → bool) :
  (∀ k, P k = true → is_Some (t !! (ns, k))) →
  Z.of_nat (count_if P (remove_dups ks)) ≤ (delete_keys ns ks t).1 ≤
  Z.of_nat (length (remove_dups ks)).
Proof using Type.
  intros HP. set (f := λ k, bool_decide (is_Some (t !! (ns, k)))).
  assert ((delete_keys ns ks t).2 = (delete_keys ns (List.filter f (remove_dups ks)) t).2) as Ht.
  { apply map_eq. intros [n k]. rewrite !delete_keys_lookup.
    destruct (decide (n = ns)) as [->|]; [|by repeat case_decide; tauto].
    destruct (t !! (ns, k)) as [r|] eqn:Hr; [|by repeat case_decide].
    apply decide_ext. rewrite elem_of_bfilter, elem_of_remove_dups. unfold f.
    rewrite bool_decide_eq_true, Hr. split; [|tauto]. intros [? ?]. split_and!; [done|by eexists|done]. }
  assert ((delete_keys ns ks t).1 = Z.of_nat (count_if f (remove_dups ks))) as ->.
  { transitivity ((delete_keys ns (List.filter f (remove_dups ks)) t).1).
    - unfold delete_keys in *. by rewrite !delete_where_count, Ht.
    - unfold count_if. apply delete_keys_count.
      + apply (sublist_NoDup _ (remove_dups ks)); [apply NoDup_remove_dups|].
        clear. induction (remove_dups ks) as [|x l IH]; simpl; [done|].
        destruct (f x); by constructor.
      + intros k [Hk _]%elem_of_bfilter. unfold f in Hk. by apply bool_decide_eq_true in Hk. }
  split; [|pose proof (count_if_le f (remove_dups ks)); lia].
  apply Nat2Z.inj_le, count_if_mono. intros k Hk. unfold f. apply bool_decide_eq_true. auto.
Qed.

Lemma refines_KDelete keys : refines (KDelete keys).
Proof using HQ HM Hu.
  intros w A HR. unfold run_op, Delete.
  destruct keys as [|k0 keys].
  { wp_go. exists (w_step w). split; [lia|]. split.
    2:{ cbn [spec_op snd]. rewrite map_filter_id; [done|]. intros k e _. apply not_elem_of_nil. }
    exists 0. split; [done|]. simpl. unfold count_if. simpl. lia. }
  set (ks := k0 :: keys). wp_go. simpl.
  assert (Z.of_nat (count_if (λ k, bool_decide (is_Some (lookup_at (clock (w_step w)) A k)))
            (remove_dups ks)) ≤ (delete_keys (namespace c) ks (db_cache (w_db w))).1
          ≤ Z.of_nat (length (remove_dups ks))) as Hb.
  { apply delete_keys_bounds. intros k [e He]%bool_decide_eq_true.
    rewrite (represents_row w A _ k HR) in He by (apply stamp_clock; lia).
    destruct (db_cache (w_db w) !! _); [by eexists|done]. }
  destruct (0 <? _); cbn [when]; upkeep_calls; exists (w_step w);
    (split; [step_le|]); (split; [by eexists|]).
  - eapply represents_upkeep; [|eassumption]. by apply (represents_delete w); [|simpl; lia|].
  - by apply (represents_delete w); [|simpl; lia|].
Qed.

Lemma refines_KGetSet k v d : refines (KGetSet k v d).
Proof using HQ HM Hu.
  intros w A HR. unfold run_op, GetSet, spec_op. wp_go.
  pose proof (encodeValue_no_hang v) as Hnh.
  destruct (encodeValue v) as [[data tc]|e|]; [|by exists (w_step w)|done].
  wp_go. simpl.
  apply (wp_mono _ _ (λ r w1, ∃ old n, r = Ok old ∧ w_db w1 = w_db w ∧
    (w_step w ≤ n ≤ w_step w1)%nat ∧ lookup_at (clock n) A k = entry_of <$> old)).
  { assert (∀ n, (w_step w ≤ n)%nat → lookup_at (clock n) A k =
      r ← db_cache (w_db w) !! (namespace c, k); if live (clock n) r then Some (entry_of r) else None) as Hl.
    { intros n Hn. apply represents_row; [done|by apply stamp_clock]. }
    destruct (db_cache (w_db w) !! (namespace c, k)) as [r|] eqn:Hr;
      [destruct (expires_at r) as [x|] eqn:Hexp|]; simpl in Hl; wp_go; eexists.
    - exists (S (S (w_step w))). split_and!; [done|done|simpl; lia|simpl; lia|].
      rewrite Hl by lia. unfold live. rewrite Hexp. simpl.
      rewrite Z.leb_antisym. by destruct (clock _ <? x).
    - exists (w_step w). split_and!; [done|done|simpl; lia|simpl; lia|].
      rewrite Hl by lia. unfold live. by rewrite Hexp.
    - exists (w_step w). split_and!; [done|done|simpl; lia|simpl; lia|].
      rewrite Hl by lia. done. }
  intros r w1 (old & n & -> & Hw1 & Hn & Hl). upkeep_calls. merge_upkeep.
  match goal with Hup : upkeep _ _ ?w' |- _ => set (w3 := w') in * end.
  apply wp_decodeFound. intros x Hx.
  assert (∃ n0 : nat, (w_step w ≤ n0 ≤ w_step w3)%nat ∧
    RVal <$> x = read_back (strict c) (lookup_at (clock n0) A k) d ∧
    represents c w3 (put k data tc None A)) as Hend.
  { exists n. split; [step_le|]. rewrite Hl, Hx. split; [done|].
    eapply represents_upkeep; [|eassumption].
    eapply (represents_insert w _ A k (fresh_row data tc _ None) HR); [simpl; lia|].
    simpl. by rewrite Hw1, upsertSQL_table. }
  destruct x; exact Hend.
Qed.

Lemma put_all_no_hang exp l A : put_all exp l A ≠ Hang.
Proof using Type.
  revert A. induction l as [|[k v] l IH]; intros A; simpl; [done|].
  pose proof (encodeValue_no_hang v). destruct (encodeValue v) as [[data tc]| |]; simpl; [|done..].
  apply IH.
Qed.

Lemma set_all_refines now exp l w A (Q : result () → World → Prop) :
  represents c w A →
  (∀ w', (w_step w ≤ w_step w')%nat →
     match put_all exp l A with
     | Ok A' => represents c w' A' → Q (Ok tt) w'
     | Err e => Q (Err e) w'
     | Hang => False
     end) →
  wp (set_all c now exp l) w Q.
Proof using HQ.
  revert w A. induction l as [|[k v] l IH]; intros w A HR HQ'; cbn [set_all put_all] in *.
  { wp_go. by apply (HQ' w). }
  wp_go. pose proof (encodeValue_no_hang v) as Hnh.
  destruct (encodeValue v) as [[data tc]|e|]; simpl in HQ'; [|by apply (HQ' w)|done].
  wp_go. eapply IH.
  - by eapply (represents_insert w _ A k (fresh_row data tc now exp) HR);
      [simpl; lia|simpl; by rewrite upsertSQL_table].
  - intros w' Hs. apply HQ'. simpl in Hs. lia.
Qed.

Lemma refines_KSetMany entries opts : refines (KSetMany entries opts).
Proof using HQ HM Hu.
  intros w A HR. unfold run_op, SetMany, spec_op. apply wp_bind.
  case_bool_decide as He.
  { subst. wp_go. exists (w_step w). rewrite map_to_list_empty. simpl. split; [lia|done]. }
  unfold Prepare. wp_go. set (n := S (S (w_step w))).
  eapply (set_all_refines _ _ _ _ A).
  { eapply represents_upkeep; [exact HR|upkeep_auto]. }
  intros w1 Hs. change (clock (w_step (advance 0 (with_intx true (advance 0 w))))) with (clock n).
  pose proof (put_all_no_hang (expiresAtArg (applySetOptions opts) (clock n)) (map_to_list entries) A).
  simpl in Hs.
  destruct (put_all _ (map_to_list entries) A) as [A'|e|] eqn:Hp; [| |done].
  - intros HR1. upkeep_calls. merge_upkeep. exists n. rewrite Hp. split; [subst n; step_le|].
    split; [done|]. eapply represents_upkeep; [|eassumption].
    eapply represents_upkeep; [exact HR1|upkeep_auto].
  - exists n. rewrite Hp. split; [simpl; lia|]. split; [done|].
    eapply represents_upkeep; [exact HR|]. apply upkeep_cache; [simpl; lia|done].
Qed.

(** Collecting the rows of [GetMany]: the live ones by key, the dead keys. *)
Lemma collect_spec now rows acc dead w (Q : result (gmap string RawValue * list string) → World → Prop) :
  (∀ w' m ks, upkeep (namespace c) w w' →
     m = foldl (λ m p, if expired now p.2 then m
                       else <[p.1 := MkRawValue (value p.2) (value_type p.2)]> m) acc rows →
     ks = dead ++ (List.filter (λ p, expired now p.2) rows).*1 →
     Q (Ok (m, ks)) w') →
  wp (collect c now rows acc dead) w Q.
Proof using HQ.
  revert w acc dead. induction rows as [|[k r] rows IH]; intros w acc dead HQ'; cbn [collect foldl].
  { wp_go. apply (HQ' w); [apply upkeep_refl|done|by rewrite app_nil_r]. }
  cbn [fst snd List.filter] in HQ'. destruct (expired now r) eqn:He; simpl in *; rewrite He in HQ'.
  - apply IH. intros w' m ks Hup Hm Hks. apply HQ'; [done|done|].
    by rewrite Hks, <- app_assoc.
  - upkeep_calls. apply IH. intros w' m ks Hup' Hm Hks. apply HQ'; [|done|done].
    by eapply upkeep_trans.
Qed.

(** What the collected map contains. *)
Lemma collected_lookup now (rows : list (string * row)) (acc : gmap string RawValue) k :
  NoDup rows.*1 →
  foldl (λ m p, if expired now p.2 then m
                else <[p.1 := MkRawValue (value p.2) (value_type p.2)]> m) acc rows !! k =
  match (list_to_map rows : gmap string row) !! k with
  | Some r => if expired now r then acc !! k else Some (MkRawValue (value r) (value_type r))
  | None => acc !! k
  end.
Proof using Type.
  revert acc. induction rows as [|[k' r] rows IH]; intros acc Hnd; cbn [foldl]; [done|].
  apply NoDup_cons in Hnd as [Hni Hnd]. rewrite IH by done. cbn [list_to_map foldr fst snd uncurry].
  destruct (decide (k' = k)) as [->|Hne].
  - rewrite lookup_insert_eq.
    rewrite (not_elem_of_list_to_map_1 rows k) by done.
    destruct (expired now r); [done|]. by rewrite lookup_insert_eq.
  - rewrite (lookup_insert_ne _ k' k) by done. destruct ((list_to_map rows : gmap string row) !! k) as [r'|];
      destruct (expired now r); try done; rewrite ?lookup_insert_ne by done; done.
Qed.

Lemma get_many_lookup now A keys k :
  get_many now A keys !! k =
  if decide (k ∈ keys) then (λ e, MkRawValue (e_data e) (e_type e)) <$> lookup_at now A k else None.
Proof using Type.
  unfold get_many. induction keys as [|k' keys IH]; cbn [omap list_omap].
  { by rewrite decide_False by apply not_elem_of_nil. }
  change (list_omap _ _ ?f keys) with (omap f keys).
  destruct (decide (k = k')) as [->|Hne].
  - rewrite decide_True by left. destruct (lookup_at now A k') as [e|]; simpl.
    + by rewrite lookup_insert_eq.
    + rewrite IH. by case_decide.
  - rewrite (decide_ext (k ∈ k' :: keys) (k ∈ keys)) by (rewrite elem_of_cons; tauto).
    destruct (lookup_at now A k'); simpl; [|done]. by rewrite lookup_insert_ne by done.
Qed.

(** The rows [GetMany] reads. *)
Lemma NoDup_read_rows (f : string * row → bool) ns t : NoDup (List.filter f (scan (ns_rows ns t))).*1.
Proof using Type.
  apply (sublist_NoDup _ (scan (ns_rows ns t)).*1); [rewrite scan_perm; apply NoDup_ns_rows|].
  induction (scan (ns_rows ns t)) as [|[k r] l IH]; simpl; [done|]. destruct (f (k, r)); by constructor.
Qed.

Lemma read_rows_lookup (keys : list string) ns t k :
  (list_to_map (List.filter (λ p, bool_decide (p.1 ∈ keys)) (scan (ns_rows ns t))) : gmap string row) !! k =
  if decide (k ∈ keys) then t !! (ns, k) else None.
Proof using Type.
  apply option_eq. intros r.
  rewrite <- elem_of_list_to_map by apply NoDup_read_rows.
  rewrite elem_of_bfilter, bool_decide_eq_true, scan_perm, elem_of_ns_rows. cbn [fst].
  case_decide; naive_solver.
Qed.

Lemma refines_KGetMany keys : refines (KGetMany keys).
Proof using HQ HM Hu.
  intros w A HR. unfold run_op, GetMany, spec_op. apply wp_bind.
  destruct keys as [|k0 ks].
  { wp_go. exists (w_step w). split; [lia|]. done. }
  set (keys := k0 :: ks). wp_go. set (n := S (w_step w)).
  change (clock (w_step (advance 0 w))) with (clock n).
  apply collect_spec. intros w1 m dead Hup1 Hm Hdead. wp_go.
  assert (m = get_many (clock n) A keys) as ->.
  { apply map_eq. intros k. rewrite Hm, get_many_lookup.
    rewrite collected_lookup by apply NoDup_read_rows. rewrite read_rows_lookup.
    rewrite (represents_row w A (clock n) k HR) by (apply stamp_clock; subst n; lia).
    case_decide; [|done]. destruct (db_cache (w_db w) !! (namespace c, k)) as [r|]; [|done]. simpl.
    rewrite live_expired. by destruct (expired (clock n) r). }
  assert (∀ w2 T k, (n < w_step w2)%nat → stamp w2 T → k ∈ dead → lookup_at T A k = None) as Hnone.
  { intros w2 T k Hn HT Hk. rewrite Hdead in Hk. simpl in Hk.
    apply list_elem_of_fmap in Hk as ([k' r] & -> & [He Hin]%elem_of_bfilter).
    apply elem_of_bfilter in Hin as [_ Hin]. rewrite scan_perm, elem_of_ns_rows in Hin.
    eapply (expired_dead w w2 A k' r n); try done. subst n. lia. }
  assert (n < w_step w1)%nat as Hs1 by (destruct Hup1 as [Hs1 _]; simpl in Hs1; subst n; lia).
  clear Hm Hdead. upkeep_calls. rename Hup into Hup2.
  assert (represents c w0 A) as HR0 by (eapply represents_upkeep; [exact HR|upkeep_auto]).
  assert (w_step w1 ≤ w_step w0)%nat as Hs0 by (destruct Hup2 as [Hup2 _]; lia). clear Hup1 Hup2.
  case_bool_decide as Hd; cbn [negb when].
  - wp_go. exists n. split; [simpl; lia|]. split; [done|].
    eapply represents_upkeep; [exact HR0|upkeep_auto].
  - unfold Delete. wp_go. destruct dead as [|d0 ds]; [done|]. wp_go.
    assert (∀ w2, (w_step w0 ≤ w_step w2)%nat →
      db_cache (w_db w2) = (delete_keys (namespace c) (d0 :: ds) (db_cache (w_db w0))).2 →
      represents c w2 A) as Hdel.
    { intros w2 Hs Hc. apply (represents_delete_dead w0 w2 A (d0 :: ds)); [done|done|done|].
      intros T k HT Hk. eapply (Hnone w2); [lia|done|done]. }
    destruct (0 <? _); cbn [when]; upkeep_calls; exists n; (split; [simpl; step_le|]); (split; [done|]).
    + match goal with Hup : upkeep _ ?w2 _ |- _ =>
        apply (represents_upkeep w2); [by apply Hdel; [simpl; lia|]|upkeep_auto] end.
    + by apply Hdel; [simpl; lia|].
Qed.

Lemma refines_op op : refines op.
Proof using HQ HM Hu.
  destruct op; auto using refines_KSet, refines_KAdd, refines_KReplace, refines_KGetSet,
    refines_KSetMany, refines_KGet, refines_KGetMany, refines_KDelete, refines_KExists,
    refines_KExpire, refines_KPersist, refines_KTTLOf, refines_KFlush, refines_KMaintain.
Qed.
End refine.

(** ** Sequences of operations *)

(** A run of the specification: each operation takes place at a time no
    earlier than the one before it. *)
Inductive spec_run `{GoLib} (strict : bool) : Z → TtlMap → list kv_op → list (result reply) → TtlMap → Prop :=
  | spec_nil t A : spec_run strict t A [] [] A
  | spec_step t now A op ops r rs A' :
      t ≤ now → (spec_op strict op now A).1 r →
      spec_run strict now (spec_op strict op now A).2 ops rs A' →
      spec_run strict t A (op :: ops) (r :: rs) A'.

(** A run of the program: an error does not end it. *)
Fixpoint run_ops `{Host} `{ChangeJson} (c : Cache) (ops : list kv_op) (w : World)
    : list (result reply) * World :=
  match ops with
  | [] => ([], w)
  | op :: ops =>
      let '(r, w1) := run_op c op w in
      let '(rs, w2) := run_ops c ops w1 in
      (r :: rs, w2)
  end.

(** C1: the key-value interface implements the TTL map: for every sequence of [Set],
    [Add], [Replace], [GetSet], [SetMany], [Get], [GetMany], [Delete],
    [Exists], [Expire], [Persist], [TTLOf], [Flush] and maintenance passes, the
    replies are those of the specification run at clock readings that go
    forward, whatever the LRU buffer, the sweeps, the change records, the scan
    order and lazy expiry do in between. It holds for a process that is alone
    with a monotone clock and no capacity limit. *)
Theorem kv_implements_ttlmap `{H : Host} `{GL : GoLib} `{CJ : !ChangeJson GL} `{!Quiet H}
    `{!MonotoneClock H} (c : Cache) (ops : list kv_op) (w : World) (A : TtlMap) :
  unlimited c = true → represents c w A →
  ∃ A', spec_run (strict c) (clock (w_step w)) A ops (run_ops c ops w).1 A' ∧
        represents c (run_ops c ops w).2 A'.
Proof.
  intros Hu. revert w A. induction ops as [|op ops IH]; intros w A HR; cbn [run_ops].
  { exists A. split; [constructor|done]. }
  destruct (refines_op c Hu op w A HR) as (n & Hn & Hr & HR').
  destruct (run_op c op w) as [r w1]. simpl in *.
  destruct (IH w1 _ HR') as (A' & Hrun & HR''). destruct (run_ops c ops w1) as [rs w2].
  exists A'. split; [|done]. apply (spec_step _ _ (clock n)); [apply clock_mono; lia|done|].
  simpl in *. assert (clock n ≤ clock (w_step w1)) as Hle by (apply clock_mono; lia).
  clear -Hrun Hle. destruct Hrun as [|t0 now A0 op0 ops0 r0 rs0 A0' Ht Hr Hrun]; [constructor|].
  apply (spec_step _ _ now); [lia|done|done].
Qed.

#[global] Instance tick_monotone : MonotoneClock tick_host.
Proof. intros n m Hnm. simpl. lia. Qed.

Lemma represents_empty `{Host} c w : db_cache (w_db w) = ∅ → represents c w ∅.
Proof. intros Hc T _ k. unfold view. by rewrite Hc. Qed.

(** A value that expires between two reads. *)
Definition demo_ops `{GoLib} : list kv_op :=
  [KSet "a" (GString "x") [7 * Millisecond]; KAdd "a" (GString "y") []; KGet "a" DString;
   KTTLOf "a"; KExists "b"; KGet "a" DString].

Lemma kv_implements_ttlmap_witness :
  let _ := tick_host in let lib := toy_lib in let _ := toy_json in
  let c := demo_cache "default" in let w := init_world empty_db in
  (run_ops c demo_ops w).1 =
    [Ok RUnit; Ok (RBool false); Ok (RVal (Some (GString "x"))); Ok (RTtl None);
     Ok (RBool false); Ok (RVal None)] ∧
  ∃ A', spec_run (strict c) (clock (w_step w)) ∅ demo_ops (run_ops c demo_ops w).1 A' ∧
        represents c (run_ops c demo_ops w).2 A'.
Proof.
  intros host lib json c w. split.
  { apply (@bool_decide_eq_true_1 _ (@list_eq_dec _ (@result_eq_dec _ (@reply_eq_dec toy_lib Z.eq_dec String.string_dec)) _ _)).
    vm_compute. reflexivity. }
  apply (@kv_implements_ttlmap host lib json tick_quiet tick_monotone c demo_ops w ∅);
    [done|by apply represents_empty].
Defined.
