(* ===== verification/Counters.v ===== *)
(** Atomic counters: [lytecache-go/counters.go].

    The addition is made by SQLite on decimal text; the class [SqlNum] holds it
    with the documented facts the proofs use. *)

From S2P Require Import Prelude GoStd Values Store Engine Channels EventLog Changes Sweep Kv.
Open Scope Z_scope.

(** [CAST(CAST(x AS TEXT) + @amount AS TEXT)] for texts [x] and [@amount]:
    integers are added in 64 bits, and where that overflows SQLite computes in
    floating point, whose text (a fraction, an exponent or [Inf]) is not that of
    an integer. *)
Class SqlNum := {
  sql_add : string → string → string;
  sql_add_int a b : in_int64 a = true → in_int64 b = true → in_int64 (a + b) = true →
    sql_add (FormatInt a) (FormatInt b) = FormatInt (a + b);
  sql_add_overflow a b : in_int64 a = true → in_int64 b = true → in_int64 (a + b) = false →
    ParseInt (sql_add (FormatInt a) (FormatInt b)) = None
}.

Section counters.
Context {H : Host} {GL : GoLib} {CJ : ChangeJson GL} {SN : SqlNum}.

Definition incr_text (now : Z) (amount : string) (r : row) : string :=
  sql_add (if expired now r then "0" else value r) amount.

(** [atomicIncrSQL]. *)
Definition atomicIncrSQL (ns key amount : string) (rtype now : Z) (allowed : list Z)
    : cache_table → Z * cache_table :=
  upsert (ns, key)
    (Row amount rtype now None now 0 (Z.of_nat (String.length amount)))
    (λ r, if expired now r || bool_decide (value_type r ∈ allowed) then
            let v := incr_text now amount r in
            Some (Row v rtype (created_at r) (if expired now r then None else expires_at r)
                    now (access_count r + 1) (Z.of_nat (String.length v)))
          else None).

Definition atomicIncr (c : Cache) (key amountText : string) (rtype : Z) (allowed : list Z)
    : M string :=
  now ← nowMillis;
  n ← exec (on_cache (atomicIncrSQL (namespace c) key amountText rtype now allowed));
  if n =? 0 then fail ErrNotNumeric
  else
    stored ← query (λ d, value <$> db_cache d !! (namespace c, key));
    match stored with
    | None => fail ErrDatabase
    | Some text =>
        changed c OpSet (Some [key]) 1 ;;
        maybeOpportunisticSweep c ;;
        mret text
    end.

Definition Incr (c : Cache) (key : string) (amount : Z) : M Z :=
  text ← atomicIncr c key (FormatInt amount) typeInt [typeInt];
  match ParseInt text with Some n => mret n | None => fail ErrParse end.

Definition Decr (c : Cache) (key : string) (amount : Z) : M Z := Incr c key (int64 (- amount)).

Definition IncrFloat (c : Cache) (key : string) (amount : float) : M float :=
  text ← atomicIncr c key (FormatFloat amount) typeFloat [typeInt; typeFloat];
  lift (decodeFloatText text).

(** ** Lemmas *)

(** A counter's row: absent, expired, or a decimal integer. *)
Definition counter_value (now : Z) (o : option row) : option Z :=
  match o with
  | None => Some 0
  | Some r => if expired now r then Some 0
              else if value_type r =? typeInt then ParseInt (value r) else None
  end.

(** Rows written by this library hold canonical decimal text. *)
Definition canonical (r : row) : Prop :=
  value_type r = typeInt → ∃ a, in_int64 a = true ∧ value r = FormatInt a.

Lemma atomicIncrSQL_lookup ns key amount rtype now allowed t :
  (atomicIncrSQL ns key amount rtype now allowed t).1 ≠ 0 →
  ∃ r', (atomicIncrSQL ns key amount rtype now allowed t).2 = <[(ns, key) := r']> t ∧
    value_type r' = rtype ∧ size_bytes r' = Z.of_nat (String.length (value r')) ∧
    match t !! (ns, key) with
    | None => value r' = amount ∧ expires_at r' = None
    | Some r => value r' = incr_text now amount r ∧ created_at r' = created_at r ∧
                expires_at r' = if expired now r then None else expires_at r
    end.
Proof using Type.
  unfold atomicIncrSQL, upsert. destruct (t !! (ns, key)) as [r|].
  - destruct (_ || _); [|done]. intros _. simpl. eexists. by split_and!.
  - intros _. simpl. eexists. by split_and!.
Qed.

Lemma in_int64_0 : in_int64 0 = true.
Proof using Type. done. Qed.

(** The addition that the statement performs. *)
Lemma incr_value ns key now amount t a :
  in_int64 amount = true → (∀ r, t !! (ns, key) = Some r → canonical r) →
  counter_value now (t !! (ns, key)) = Some a → in_int64 (a + amount) = true →
  ∃ r', atomicIncrSQL ns key (FormatInt amount) typeInt now [typeInt] t =
          (1, <[(ns, key) := r']> t) ∧
    value r' = FormatInt (a + amount) ∧ value_type r' = typeInt ∧
    size_bytes r' = Z.of_nat (String.length (value r')) ∧
    expires_at r' = r ← t !! (ns, key); if expired now r then None else expires_at r.
Proof using Type.
  intros Ham Hcan Hcv Hsum. unfold atomicIncrSQL, upsert, incr_text.
  destruct (t !! (ns, key)) as [r|] eqn:Hr; simpl in Hcv.
  - specialize (Hcan r eq_refl). destruct (expired now r) eqn:He.
    + injection Hcv as <-. cbn [orb]. eexists. split; [done|]. simpl. rewrite He. split_and!; try done.
      change "0"%string with (FormatInt 0). by rewrite sql_add_int.
    + destruct (Z.eqb_spec (value_type r) typeInt) as [Ht|]; [|done].
      destruct (Hcan Ht) as (a' & Ha' & Hv). rewrite Hv, ParseInt_FormatInt in Hcv by done.
      injection Hcv as ->. rewrite bool_decide_true by (rewrite Ht; by left). cbn [orb].
      eexists. split; [done|]. simpl. rewrite He, Hv. split_and!; try done. by rewrite sql_add_int.
  - injection Hcv as <-. eexists. split; [done|]. by split_and!.
Qed.
End counters.

(** [Incr] adds exactly and in place: on a missing or expired counter it starts
    from zero, on a live one from its value; when the sum fits 64 bits it
    returns the sum, the row holds its decimal text with the right size, a live
    counter keeps its expiry and an expired one loses it, and no other row
    changes. *)
Theorem Incr_adds `{H : Host} `{GL : GoLib} `{!ChangeJson GL} `{SN : SqlNum} `{!Quiet H}
    (c : Cache) (key : string) (amount a : Z) (w : World) :
  let t := db_cache (w_db w) in let k := (namespace c, key) in
  0 < sweepInterval c → in_int64 amount = true →
  (∀ r, t !! k = Some r → canonical r) →
  counter_value (clock (w_step w)) (t !! k) = Some a → in_int64 (a + amount) = true →
  ∃ w' r', Incr c key amount w = (Ok (a + amount), w') ∧
    db_cache (w_db w') = <[k := r']> t ∧
    value r' = FormatInt (a + amount) ∧ value_type r' = typeInt ∧
    size_bytes r' = Z.of_nat (String.length (value r')) ∧
    expires_at r' = r ← t !! k; if expired (clock (w_step w)) r then None else expires_at r.
Proof.
  intros t k Hsw Ham Hcan Hcv Hsum.
  destruct (incr_value (namespace c) key (clock (w_step w)) amount t a Ham Hcan Hcv Hsum)
    as (r' & Hupd & Hv & Hrest).
  assert (wp (Incr c key amount) w (λ r w', r = Ok (a + amount) ∧
    db_cache (w_db w') = <[k := r']> t)) as Hwp.
  { unfold Incr, atomicIncr. wp_go. simpl. fold t. rewrite !Hupd. simpl. wp_go.
    simpl. fold t k. rewrite lookup_insert_eq. simpl. wp_go.
    apply wp_changed. intros w1 Hc. wp_go. rewrite maybeOpportunisticSweep_off by done. wp_go.
    rewrite Hv, ParseInt_FormatInt by done. wp_go. by rewrite Hc. }
  destruct Hwp as [Hok Hc]. exists (Incr c key amount w).2, r'. split; [|done].
  rewrite <- Hok. by destruct (Incr c key amount w).
Qed.

(** A toy instance for concrete runs. *)
Definition toy_add (x y : string) : string :=
  match parse_decimal x, parse_decimal y with
  | Some a, Some b => if in_int64 (a + b) then FormatInt (a + b) else "9.22337203685478e+18"
  | _, _ => "0.0"
  end.
Lemma toy_add_int a b : in_int64 a = true → in_int64 b = true → in_int64 (a + b) = true →
  toy_add (FormatInt a) (FormatInt b) = FormatInt (a + b).
Proof. intros _ _ Hs. unfold toy_add. rewrite !parse_decimal_FormatInt. by rewrite Hs. Qed.
Lemma toy_add_overflow a b : in_int64 a = true → in_int64 b = true → in_int64 (a + b) = false →
  ParseInt (toy_add (FormatInt a) (FormatInt b)) = None.
Proof. intros _ _ Hs. unfold toy_add. rewrite !parse_decimal_FormatInt. by rewrite Hs. Qed.
Definition toy_num : SqlNum :=
  {| sql_add := toy_add; sql_add_int := toy_add_int; sql_add_overflow := toy_add_overflow |}.

(** A live counter at 41, a string and a counter at the largest integer. *)
Definition counter_rows : cache_table :=
  <[("default", "n") := Row "41" typeInt 0 (Some 500) 0 3 2]>
  (<[("default", "s") := Row "x" typeString 0 None 0 0 1]>
  (<[("default", "max") := Row "9223372036854775807" typeInt 0 None 0 0 19]> ∅)).

Lemma Incr_adds_witness :
  let _ := still_host 100 in let _ := toy_lib in let _ := toy_json in let _ := toy_num in
  let w := init_world (set_cache counter_rows empty_db) in
  ∃ w' r', Incr (demo_cache "default") "n" 1 w = (Ok (41 + 1), w') ∧
    db_cache (w_db w') = <[("default", "n") := r']> counter_rows ∧
    value r' = FormatInt (41 + 1) ∧ value_type r' = typeInt ∧
    size_bytes r' = Z.of_nat (String.length (value r')) ∧
    expires_at r' = r ← counter_rows !! ("default", "n"); if expired 100 r then None else expires_at r.
Proof.
  intros host lib json num w.
  apply (@Incr_adds host lib json num (still_quiet 100) (demo_cache "default") "n" 1 41 w);
    [done|done| |vm_compute; reflexivity|done].
  intros r [= <-] _. exists 41. split; [done|vm_compute; reflexivity].
Defined.

(** [Incr] never reinterprets a value that is not an integer: on a live row of any
    other type it fails with [ErrNotNumeric] and the file is unchanged. *)
Theorem Incr_type_guard `{H : Host} `{GL : GoLib} `{!ChangeJson GL} `{SN : SqlNum} `{!Quiet H}
    (c : Cache) (key : string) (amount : Z) (r : row) (w : World) :
  db_cache (w_db w) !! (namespace c, key) = Some r → expired (clock (w_step w)) r = false →
  value_type r ≠ typeInt →
  ∃ w', Incr c key amount w = (Err ErrNotNumeric, w') ∧ w_db w' = w_db w.
Proof.
  intros Hr He Ht.
  assert (wp (Incr c key amount) w (λ r w', r = Err ErrNotNumeric ∧ w_db w' = w_db w)) as [Hok Hd].
  { unfold Incr, atomicIncr. wp_go. simpl. unfold atomicIncrSQL, upsert. rewrite !Hr, He.
    rewrite (bool_decide_false (_ ∈ [typeInt])) by (by intros ?%list_elem_of_singleton). cbn [orb fst snd Z.eqb].
    wp_go. split; [done|]. simpl. by destruct (w_db w). }
  exists (Incr c key amount w).2. split; [|done]. rewrite <- Hok. by destruct (Incr c key amount w).
Qed.

Lemma Incr_type_guard_witness :
  let _ := still_host 100 in let _ := toy_lib in let _ := toy_json in let _ := toy_num in
  let w := init_world (set_cache counter_rows empty_db) in
  ∃ w', Incr (demo_cache "default") "s" 1 w = (Err ErrNotNumeric, w') ∧ w_db w' = w_db w.
Proof.
  intros host lib json num w.
  apply (@Incr_type_guard host lib json num (still_quiet 100) (demo_cache "default") "s" 1
    (Row "x" typeString 0 None 0 0 1) w); done.
Defined.

(** Past the 64-bit range [Incr] reports an error but has already overwritten the
    counter: the row keeps the integer type with text that is not an integer,
    so the counter's value is lost. *)
Theorem Incr_overflow_destroys `{H : Host} `{GL : GoLib} `{!ChangeJson GL} `{SN : SqlNum} `{!Quiet H}
    (c : Cache) (key : string) (amount a : Z) (r : row) (w : World) :
  0 < sweepInterval c → in_int64 amount = true → in_int64 a = true → in_int64 (a + amount) = false →
  db_cache (w_db w) !! (namespace c, key) = Some r → expired (clock (w_step w)) r = false →
  value_type r = typeInt → value r = FormatInt a →
  ∃ w' r', Incr c key amount w = (Err ErrParse, w') ∧
    db_cache (w_db w') !! (namespace c, key) = Some r' ∧
    value_type r' = typeInt ∧ ParseInt (value r') = None.
Proof.
  intros Hsw Ham Ha Hsum Hr He Ht Hv.
  assert (ParseInt (sql_add (value r) (FormatInt amount)) = None) as Hbad
    by (rewrite Hv; by apply sql_add_overflow).
  assert (wp (Incr c key amount) w (λ r w', r = Err ErrParse ∧ ∃ r',
    db_cache (w_db w') !! (namespace c, key) = Some r' ∧
    value_type r' = typeInt ∧ ParseInt (value r') = None)) as (Hok & r' & Hrest).
  { unfold Incr, atomicIncr. wp_go. simpl. unfold atomicIncrSQL, upsert, incr_text. rewrite !Hr, He.
    rewrite (bool_decide_true (_ ∈ [typeInt])) by (rewrite Ht; by left). cbn [orb fst snd Z.eqb].
    wp_go. simpl. rewrite lookup_insert_eq. simpl. wp_go.
    apply wp_changed. intros w1 Hc. wp_go. rewrite maybeOpportunisticSweep_off by done. wp_go.
    rewrite Hbad. wp_go. split; [done|]. eexists. rewrite Hc. simpl. rewrite lookup_insert_eq.
    split; [done|]. simpl. by rewrite ?He. }
  exists (Incr c key amount w).2, r'. split; [|done].
  rewrite <- Hok. by destruct (Incr c key amount w).
Qed.

Lemma Incr_overflow_destroys_witness :
  let _ := still_host 100 in let _ := toy_lib in let _ := toy_json in let _ := toy_num in
  let w := init_world (set_cache counter_rows empty_db) in
  ∃ w' r', Incr (demo_cache "default") "max" 1 w = (Err ErrParse, w') ∧
    db_cache (w_db w') !! ("default", "max") = Some r' ∧
    value_type r' = typeInt ∧ ParseInt (value r') = None.
Proof.
  intros host lib json num w.
  apply (@Incr_overflow_destroys host lib json num (still_quiet 100) (demo_cache "default") "max" 1
    9223372036854775807 (Row "9223372036854775807" typeInt 0 None 0 0 19) w);
    try done; vm_compute; reflexivity.
Defined.

(** Two processes add 1 to a missing counter. The second commits between the
    first one's statement and its read-back, and the first returns 2, which is
    also the second one's result: the value returned need not be the sum of
    the call's own addition. *)
Example Incr_readback_race :
  let other := λ d, (on_cache (@atomicIncrSQL toy_num "default" "n" "1" typeInt 0 [typeInt]) d).2 in
  (@Incr (race_host 0 2 other) toy_lib toy_json toy_num (demo_cache "default") "n" 1
     (init_world empty_db)).1 = Ok 2.
Proof. vm_compute. reflexivity. Qed.
