(* ===== verification/Shared.v ===== *)
(** One file, many processes: how the file passes from hand to hand while a
    call of one process runs.

    The file is followed statement by statement. Before each statement the
    [Host] lets other connections commit what they like, once; the call's own
    statements other than the ones of interest touch no row but its LRU
    bookkeeping. The relation [others] says that nothing else happened between
    two points of that timeline. *)

From S2P Require Import Prelude GoStd Values Store Engine Channels EventLog Changes Sweep.
Open Scope Z_scope.

(** ** The timeline *)

(** The file before the statement of a step. *)
Definition point : Type := nat * Database.
Definition here (w : World) : point := (w_step w, w_db w).

(** One step: others may commit, and then an own statement may keep books. What
    such a statement leaves as it was is [B]. *)
Inductive turn `{Host} (B : relation Database) : point → point → Prop :=
  Turn n d d1 d2 : d1 = d ∨ d1 = interfere n d → B d1 d2 → turn B (n, d) (S n, d2).

Definition others_but `{Host} (B : relation Database) : relation point := rtc (turn B).

(** The rows but for their LRU columns, and the events. *)
Definition rows_kept (d d' : Database) : Prop := same_data (db_cache d) (db_cache d').
Definition log_kept (d d' : Database) : Prop := events_of d = events_of d'.
#[global] Instance rows_kept_preorder : PreOrder rows_kept.
Proof. split; [by intros d|]. intros d1 d2 d3. unfold rows_kept, same_data. by intros -> ->. Qed.
#[global] Instance log_kept_preorder : PreOrder log_kept.
Proof. split; [by intros d|]. intros d1 d2 d3. unfold log_kept. by intros -> ->. Qed.

(** The usual case. *)
Abbreviation others := (others_but rows_kept).

(** A call after which the file is the same but for others and for the books. *)
Definition passes_but `{Host} (B : relation Database) {A} (m : M A) : Prop :=
  ∀ w, others_but B (here w) (here (m w).2).

Section others.
Context {H : Host} {B : relation Database} `{HB : !PreOrder B}.
Abbreviation others := (others_but B).

Lemma others_refl p : others p p.
Proof using HB. apply rtc_refl. Qed.
Lemma others_trans p q r : others p q → others q r → others p r.
Proof using HB. unfold others_but. intros H1 H2. by etrans. Qed.
#[global] Instance others_preorder : PreOrder others.
Proof using HB. split; [intros p; apply others_refl|intros p q r; apply others_trans]. Qed.

(** Steps only go forward. *)
Lemma others_le p q : others p q → (p.1 ≤ q.1)%nat.
Proof using HB. induction 1 as [|p q r [n d d1 d2 _ _] _ IH]; simpl in *; lia. Qed.

Lemma others_books n d d' : B d d' → others (n, d) (S n, d').
Proof using HB. intros Hd. apply rtc_once. apply (Turn B n d d d'); auto. Qed.

Lemma others_skip n m d : (n ≤ m)%nat → others (n, d) (m, d).
Proof using HB. induction 1 as [|m _ IH]; [reflexivity|]. etrans; [exact IH|]. by apply others_books. Qed.

Lemma others_step w d : B (refresh w) d → others (here w) (S (w_step w), d).
Proof using HB.
  intros Hd. apply rtc_once. apply (Turn B _ _ (refresh w)); [|done]. unfold refresh. destruct (w_intx w); auto.
Qed.
Lemma others_refresh w : others (here w) (S (w_step w), refresh w).
Proof using HB. by apply others_step. Qed.

(** What a statement finds that is executed at [x], later than [w]. *)
Lemma others_found w x n :
  others (here w) (here x) → (S (w_step x) ≤ n)%nat → others (here w) (n, refresh x).
Proof using HB.
  intros Hx Hn. etrans; [exact Hx|]. etrans; [apply others_refresh|by apply others_skip].
Qed.

Lemma others_waits w x : w_db x = w_db w → (w_step w ≤ w_step x)%nat → others (here w) (here x).
Proof using HB. intros Hd Hn. unfold here. rewrite Hd. by apply others_skip. Qed.

(** *** Calls that only keep books *)

Abbreviation passes := (passes_but B).

Lemma passes_pure {A} (r : World → result A) : passes (λ w, (r w, w)).
Proof using HB. intros w. reflexivity. Qed.
Lemma passes_mod_proc f : passes (mod_proc f).
Proof using HB. intros w. reflexivity. Qed.
Lemma passes_advance {A} (r : World → result A) dt : passes (λ w, (r w, advance dt w)).
Proof using HB. intros w. by apply others_books. Qed.

Lemma passes_bind {A A'} (m : M A) (k : A → M A') : passes m → (∀ a, passes (k a)) → passes (m ≫= k).
Proof using HB.
  intros Hm Hk w. unfold mbind, M_bind. specialize (Hm w). destruct (m w) as [[a|e|] w1]; [|done..].
  etrans; [exact Hm|apply Hk].
Qed.

Lemma passes_attempt {A} (m : M A) : passes m → passes (attempt m).
Proof using HB. intros Hm w. unfold attempt. specialize (Hm w). by destruct (m w) as [[]]. Qed.
Lemma passes_when b m : passes m → passes (when b m).
Proof using HB. destruct b; [done|]. intros _. exact (passes_pure _). Qed.

Lemma passes_exec {A} (stmt : Database → A * Database) :
  (∀ d, B d (stmt d).2) → passes (exec stmt).
Proof using HB.
  intros Hs w. unfold exec. destruct (fault _); apply others_step; [done|apply Hs].
Qed.
Lemma passes_query {A} (f : Database → A) : passes (query f).
Proof using HB. by apply passes_exec. Qed.

Lemma passes_inTx {A} (m : M A) : passes m → passes (inTx m).
Proof using HB.
  intros Hm w. pose proof (others_refresh w) as Hr. unfold inTx. destruct (fault _); [exact Hr|].
  set (w1 := with_intx true _). specialize (Hm w1). pose proof (others_le _ _ Hm) as Hle.
  assert (others (here w) (here w1)) as Hb by exact Hr. simpl in Hle.
  assert (∀ n, (S (w_step w) ≤ n)%nat → others (here w) (n, refresh w)) as Hback.
  { intros n Hn. etrans; [exact Hr|by apply others_skip]. }
  destruct (m w1) as [[a|e|] w2]; simpl in *; [|apply Hback; simpl; lia..].
  destruct (fault _); [apply Hback; simpl; lia|].
  etrans; [exact Hb|]. etrans; [exact Hm|]. by apply others_books.
Qed.
End others.

(** A call that always returns, and only keeps books. *)
Definition background `{Host} {A} (m : M A) : Prop := returns m ∧ passes_but rows_kept m.

Section background.
Context {H : Host}.

Lemma wp_background {A} (m : M A) w (Q : result A → World → Prop) :
  background m → (∀ a w', others (here w) (here w') → Q (Ok a) w') → wp m w Q.
Proof. intros (Hr & Hp) HQ. unfold wp. destruct (Hr w) as [a ->]. apply HQ, Hp. Qed.

Lemma background_mod_proc f : background (mod_proc f).
Proof. split; [intros w; by exists tt|apply passes_mod_proc]. Qed.
Lemma background_ret {A} (a : A) : background (mret a).
Proof. split; [intros w; by exists a|exact (passes_pure _)]. Qed.
Lemma background_bind {A B} (m : M A) (k : A → M B) :
  background m → (∀ a, background (k a)) → background (m ≫= k).
Proof.
  intros (Hr & Hp) Hk. split; [apply returns_bind; [done|intros a; apply Hk]|apply passes_bind; [done|intros a; apply Hk]].
Qed.
Lemma background_when b m : background m → background (when b m).
Proof. destruct b; [done|]. intros _. apply background_ret. Qed.
End background.

Create HintDb calls discriminated.

Ltac passes_step :=
  lazymatch goal with
  | |- forall _, _ => intros
  | |- passes_but _ (_ ≫= _) => apply passes_bind
  | |- passes_but _ (attempt _) => apply passes_attempt
  | |- passes_but _ (when _ _) => apply passes_when
  | |- passes_but _ (inTx _) => apply passes_inTx
  | |- passes_but _ (query _) => apply passes_query
  | |- passes_but _ (exec _) => apply passes_exec
  | |- passes_but _ (mod_proc _) => apply passes_mod_proc
  | |- passes_but _ nowMillis => exact (passes_advance _ _)
  | |- passes_but _ (mret _) => exact (passes_pure _)
  | |- passes_but _ (fail _) => exact (passes_pure _)
  | |- passes_but _ (lift _) => exact (passes_pure _)
  | |- passes_but _ hang => exact (passes_pure _)
  | |- passes_but _ get_proc => exact (passes_pure _)
  | |- passes_but _ (match ?x with _ => _ end) => destruct x eqn:?
  | |- passes_but _ (let '(_, _) := ?x in _) => destruct x eqn:?
  | |- passes_but _ _ => solve [eauto with calls]
  end.
Ltac passes_solve := repeat passes_step.

Section books.
Context {H : Host} {GL : GoLib} {CJ : ChangeJson GL}.

Lemma passes_insert_rows ns now rows : passes_but rows_kept (insert_rows ns now rows).
Proof using Type.
  induction rows as [|[[ch data] vt] rows IH]; simpl; unfold or_db_error; passes_solve.
  unfold rows_kept. by rewrite on_events_cache.
Qed.

Lemma background_changed c op keys count : background (changed c op keys count).
Proof using Type.
  pose proof passes_insert_rows. split; [apply changed_returns|].
  unfold changed, insertEvents, ensureEvents. passes_solve; done.
Qed.

Lemma background_flushLRUBuffer c : background (flushLRUBuffer c).
Proof using Type.
  assert (∀ ns l, returns (flush_all ns l) ∧ passes_but rows_kept (flush_all ns l)) as Hall.
  { intros ns l. induction l as [|[k u] l [? ?]]; cbn [flush_all]; split;
      [returns_solve|passes_solve|returns_solve; done|passes_solve].
    unfold rows_kept. rewrite on_cache_db. apply flush_row_data. }
  split; unfold flushLRUBuffer, Prepare; [|passes_solve; apply Hall].
  returns_solve; apply no_hang_returns, Hall.
Qed.

Lemma background_bufferLRU c key now : background (bufferLRU c key now).
Proof using Type.
  destruct (background_flushLRUBuffer c) as (? & ?).
  split; unfold bufferLRU; [returns_solve|passes_solve]; done.
Qed.
End books.
#[export] Hint Resolve background_mod_proc background_ret background_bind background_when
  background_changed background_bufferLRU : calls.

(** ** Rules for statements in any host *)

Section rules.
Context {H : Host}.

Lemma refresh_tx w : w_intx w = true → refresh w = w_db w.
Proof using Type. unfold refresh. by intros ->. Qed.

Lemma wp_query_any {A} (f : Database → A) w (Q : result A → World → Prop) :
  Q (Err ErrDatabase) (advance 0 (with_db (refresh w) w)) →
  Q (Ok (f (refresh w))) (advance 0 (with_db (refresh w) w)) →
  wp (query f) w Q.
Proof using Type. apply (wp_exec_any (λ d, (f d, d))). Qed.

(** A transaction: BEGIN may fail, the body may fail and is rolled back, the
    commit may fail and is rolled back too. *)
Lemma wp_inTx_any {A} (m : M A) w (Q : result A → World → Prop) :
  Q (Err ErrDatabase) (advance 0 (with_db (refresh w) w)) →
  wp m (with_intx true (advance 0 (with_db (refresh w) w))) (λ r w',
    Q (match r with Ok _ => Err ErrDatabase | _ => r end) (advance 0 (with_intx false (with_db (refresh w) w'))) ∧
    match r with Ok a => Q (Ok a) (advance 0 (with_intx false w')) | _ => True end) →
  wp (inTx m) w Q.
Proof using Type.
  intros Hb Hm. unfold wp, inTx in *. destruct (fault (w_step w)); [done|].
  destruct (m _) as [[a|e|] w']; simpl in *; destruct Hm as [? ?]; [by destruct (fault _)|done..].
Qed.
End rules.

Ltac any_step :=
  first
    [ lazymatch goal with
      | |- wp (exec _) _ _ => apply wp_exec_any
      | |- wp (query _) _ _ => apply wp_query_any
      | |- wp (inTx _) _ _ => apply wp_inTx_any
      end; cbn beta iota
    | wp_step ].
Ltac any_go := repeat any_step.

(** ** One access

    A call that touches the file once cannot be told from the same call on a
    machine of its own. *)

(** The same machine without failures and other processes. *)

Definition alone (H : Host) : Host := {|
  clock := clock; elapse := elapse; fault := λ _, false; interfere := λ _ d, d;
  scan := scan; shuffle := shuffle; glob := glob; scan_perm := scan_perm; shuffle_perm := shuffle_perm |}.

#[global] Instance alone_quiet (H : Host) : Quiet (alone H).
Proof. by split. Qed.

(** Nobody else changes a row there. *)
Lemma others_alone (H : Host) (B : relation Database) `{!PreOrder B} p q : others_but (H:=alone H) B p q → B p.2 q.2.
Proof.
  induction 1 as [p|p q r [n d d1 d2 Hd HB] _ IH]; [done|]. etrans; [|exact IH].
  simpl in *. by destruct Hd as [->| ->].
Qed.

(** Inside a transaction the two machines agree, up to a failure. *)
Definition tracks `{H : Host} {A} (m mq : M A) : Prop := ∀ w, w_intx w = true →
  (w_step w ≤ w_step (m w).2)%nat ∧
  ((m w = mq w ∧ w_intx (m w).2 = true) ∨ (m w).1 = Err ErrDatabase).

(** One access to the file: a failure without effect, or what the quiet machine
    does on the file as it is found. *)
Definition access `{H : Host} (B : relation Database) {A} (m mq : M A) : Prop := ∀ w,
  (S (w_step w) ≤ w_step (m w).2)%nat ∧
  (((m w).1 = Err ErrDatabase ∧ others_but B (here w) (here (m w).2)) ∨ m w = mq (with_db (refresh w) w)).

Section access.
Context {H : Host} {B : relation Database} `{HB : !PreOrder B}.
Abbreviation HQ := (alone H).

(** *** In a transaction *)

Lemma tracks_refl {A} (m : M A) :
  (∀ w, w_intx w = true → w_intx (m w).2 = true ∧ (w_step w ≤ w_step (m w).2)%nat) → tracks m m.
Proof using Type. intros Hm w Hw. destruct (Hm w Hw). auto. Qed.

Lemma tracks_bind {A A'} (m mq : M A) (k kq : A → M A') :
  tracks m mq → (∀ a, tracks (k a) (kq a)) → tracks (m ≫= k) (mq ≫= kq).
Proof using Type.
  intros Hm Hk w Hw. unfold mbind, M_bind. destruct (Hm w Hw) as [Hn [[<- Hi]|He]].
  - destruct (m w) as [[a|e|] w1]; [|by auto..]. destruct (Hk a w1 Hi) as [Hn1 Hr].
    simpl in Hn. split; [lia|done].
  - destruct (m w) as [[a|e|] w1]; simpl in *; try done. split; [done|right; congruence].
Qed.

Lemma tracks_exec {A} (stmt : Database → A * Database) : tracks (exec stmt) (exec (H:=HQ) stmt).
Proof using Type.
  intros w Hw. unfold exec, refresh. rewrite Hw. simpl.
  destruct (fault _); simpl; (split; [lia|]); [by right|by left].
Qed.

Lemma tracks_when b (m mq : M ()) : tracks m mq → tracks (when b m) (when b mq).
Proof using Type. destruct b; [done|]. intros _. by apply tracks_refl. Qed.

(** *** An access *)

Lemma alone_refresh w : refresh (H:=HQ) (with_db (refresh w) w) = refresh w.
Proof using HB. unfold refresh at 1. simpl. by destruct (w_intx w). Qed.

Lemma access_inTx {A} (m mq : M A) : tracks m mq → access B (inTx m) (inTx (H:=HQ) mq).
Proof using HB.
  intros Hm w. unfold inTx. rewrite alone_refresh. pose proof (others_refresh (B:=B) w) as Ho.
  destruct (fault (w_step w)); [by split; [|left]|]. simpl fault. cbn iota.
  set (w1 := with_intx true _). replace (with_intx true _) with w1 by done.
  destruct (Hm w1 eq_refl) as [Hn Hr]. simpl in Hn.
  assert (∀ w2, (S (w_step w) ≤ w_step w2)%nat →
    others_but B (here w) (here (advance 0 (with_intx false (with_db (refresh w) w2))))) as Hback.
  { intros w2 Hw2. apply (others_found w w); [reflexivity|simpl; lia]. }
  destruct Hr as [[<- _]|He].
  - destruct (m w1) as [[a|e|] w2]; simpl in Hn; [|split; [simpl; lia|by right]..].
    destruct (fault (w_step w2)); (split; [simpl; lia|]); [left; split; [done|apply Hback; lia]|by right].
  - destruct (m w1) as [[a|e|] w2]; simpl in *; try done. split; [lia|left; split; [done|apply Hback; lia]].
Qed.

Lemma access_exec {A} (stmt : Database → A * Database) : access B (exec stmt) (exec (H:=HQ) stmt).
Proof using HB.
  intros w. unfold exec. rewrite alone_refresh. pose proof (others_refresh (B:=B) w) as Ho.
  destruct (fault (w_step w)); (split; [done|]); [by left|by right].
Qed.

Lemma access_query {A} (f : Database → A) : access B (query f) (query (H:=HQ) f).
Proof using HB. apply access_exec. Qed.

(** A computation on values. *)
Lemma access_bind {A A'} (m mq : M A) (k kq : A → M A') (f : A → result A') :
  access B m mq → (∀ a w, k a w = (f a, w)) → (∀ a w, kq a w = (f a, w)) → access B (m ≫= k) (mq ≫= kq).
Proof using HB.
  intros Hm Hk Hkq w. unfold mbind, M_bind. destruct (Hm w) as [Hn [[He Ho]|Hw]].
  - destruct (m w) as [[a|e|] w1]; simpl in *; try done. split; [done|left; split; [congruence|done]].
  - rewrite <- Hw. destruct (m w) as [[a|e|] w1]; [rewrite Hk, Hkq|..]; (split; [done|by right]).
Qed.
End access.
#[export] Hint Resolve access_query : calls.

Ltac tracks_go :=
  repeat lazymatch goal with
  | |- ∀ _, _ => intros
  | |- tracks (_ ≫= _) _ => apply tracks_bind
  | |- tracks (exec _) _ => apply tracks_exec
  | |- tracks (query _) _ => apply tracks_exec
  | |- tracks (when _ _) _ => apply tracks_when
  | |- tracks (match ?x with _ => _ end) _ => destruct x
  | |- tracks (let '(_, _) := ?x in _) _ => destruct x
  | |- tracks _ _ => solve [by apply tracks_refl | eauto with calls]
  end.

(** Facts about step numbers, from the calls in between. *)
Ltac step_le :=
  repeat match goal with Ho : others _ _ |- _ => apply others_le in Ho end;
  cbn [here fst w_step w_db advance with_db with_intx with_proc] in *; lia.

(** What other processes did before a statement. *)
Ltac by_others :=
  simpl;
  lazymatch goal with
  | |- others (here ?w) (here ?x) =>
      lazymatch x with
      | context [with_db (refresh ?y) _] =>
          apply (others_found w y (w_step x)); [apply others_waits; [reflexivity|step_le]|step_le]
      end
  | |- others (here ?w) (_, refresh ?y) =>
      apply (others_found w y); [apply others_waits; [reflexivity|step_le]|step_le]
  end.
