(* ===== verification/Listing.v ===== *)
(** Listing the keys of a namespace page by page ([Keys] of
    [lytecache-go/keys.go]) while other processes write to the file and the
    driver fails statements. *)

From S2P Require Import Prelude GoStd Values Store Engine Channels EventLog Changes Sweep Kv Reads Shared.
Open Scope Z_scope.

(** ** What the other processes do to a key *)

Definition alive_at (T : Z) (k : string * string) (d : Database) : Prop :=
  ∃ r, db_cache d !! k = Some r ∧ live T r = true.

(** They may rewrite the key, but neither remove it nor let it expire before [T]. *)
Definition left_alive `{Host} (T : Z) (k : string * string) : Prop :=
  ∀ n d, alive_at T k d → alive_at T k (interfere n d).

(** They may write and remove keys of the namespace, but add none. *)
Definition add_no_key `{Host} (ns : string) : Prop :=
  ∀ n d k, is_Some (db_cache (interfere n d) !! (ns, k)) → is_Some (db_cache d !! (ns, k)).

Section others.
Context {H : Host}.

(** The call itself writes nothing. *)
Abbreviation others := (others_but eq).

Lemma alive_at_le T T' k d : T ≤ T' → alive_at T' k d → alive_at T k d.
Proof using Type. intros Hle (r & ? & ?). exists r. split; [done|by eapply live_le]. Qed.

Lemma others_alive T k p q : left_alive T k → others p q → alive_at T k p.2 → alive_at T k q.2.
Proof using Type.
  intros Hleft. induction 1 as [p|p q r [n d d1 d2 [->| ->] <-] _ IH]; [done|exact IH|].
  intros Hp. apply IH. simpl in *. by apply Hleft.
Qed.

Lemma others_keys ns k p q :
  add_no_key ns → others p q → is_Some (db_cache q.2 !! (ns, k)) → is_Some (db_cache p.2 !! (ns, k)).
Proof using Type.
  intros Hadd. induction 1 as [p|p q r [n d d1 d2 [->| ->] <-] _ IH]; [done|exact IH|].
  intros Hr%IH. simpl in *. by eapply Hadd.
Qed.

Lemma others_quiet `{!Quiet H} p q : others p q → q.2 = p.2.
Proof using Type.
  induction 1 as [p|p q r [n d d1 d2 [->| ->] <-] _ IH]; [done|exact IH|].
  rewrite IH. simpl. apply quiet_interfere.
Qed.
End others.
Abbreviation unwritten := (others_but eq).

(** ** One page *)
Section listing.
Context {H : Host} {GL : GoLib} {CJ : ChangeJson GL} (c : Cache) (pattern : string).

(** A page is read from one state of the file, after the clock, or fails. *)
Lemma keysPage_run lastKey w :
  ∃ d w', unwritten (here w) (here w') ∧ w_db w' = d ∧ w_step w' = S (S (w_step w)) ∧
    keysPage c pattern lastKey w =
      (if fault (S (w_step w)) then Err ErrDatabase
       else Ok (take keysBatchSize (page (namespace c) pattern lastKey (clock (w_step w)) (db_cache d))), w').
Proof using Type.
  assert (passes_but eq (keysPage c pattern lastKey)) as Hp.
  { unfold keysPage. passes_solve; typeclasses eauto. }
  exists (w_db (keysPage c pattern lastKey w).2), (keysPage c pattern lastKey w).2.
  split; [apply Hp|]. unfold keysPage, nowMillis, query, exec, mbind, M_bind. simpl.
  by destruct (fault _).
Qed.

(** What is listed at a point of the timeline that starts at [p0]: only keys that
    matched and were alive at some point, and all those left alive that [upto]
    does not exclude. *)
Record listed (p0 : point) (upto : string → Prop) (l : list string) (p : point) : Prop := {
  listed_sorted : increasing l;
  listed_seen k : k ∈ l → k ≠ "" ∧ glob pattern k = true ∧
    ∃ m q, unwritten p0 q ∧ unwritten q p ∧ (p0.1 ≤ m < q.1)%nat ∧ alive_at (clock m) (namespace c, k) q.2;
  listed_all k T : alive_at T (namespace c, k) p0.2 → left_alive T (namespace c, k) →
    (∀ m, (p0.1 ≤ m < p.1)%nat → clock m ≤ T) → k ≠ "" → glob pattern k = true → upto k → k ∈ l
}.

(** What a cursor excludes: nothing up to the last key listed. *)
Definition passed (l : list string) (k : string) : Prop := ∃ x, x ∈ l ∧ str_le k x.

Lemma passed_last l k : increasing l → k ≠ "" → str_le k (default "" (last l)) → passed l k.
Proof using Type.
  intros Hs Hne Hk. destruct (last l) as [x|] eqn:Hx; simpl in Hk.
  - exists x. split; [by apply last_Some_elem_of|done].
  - destruct k; [done|]. discriminate Hk.
Qed.

Lemma listed_nil p0 : listed p0 (passed []) [] p0.
Proof using Type. split; [constructor|by intros ? ?%elem_of_nil|]. intros k T _ _ _ _ _ (x & []%elem_of_nil & _). Qed.

Lemma listed_page p0 acc p q m (upto : string → Prop) :
  let P := page (namespace c) pattern (default "" (last acc)) (clock m) (db_cache q.2) in
  listed p0 (passed acc) acc p → unwritten p0 p → unwritten p q → (p.1 ≤ m < q.1)%nat →
  (∀ k, k ∈ P → upto k → k ∈ take keysBatchSize P) →
  listed p0 upto (acc ++ take keysBatchSize P) q.
Proof using Type.
  intros P [Hs Hin Hall] H0 Hq Hm Hupto. pose proof (others_le _ _ H0) as Hle.
  assert (∀ k, k ∈ take keysBatchSize P → k ∈ P) as Hsub.
  { intros k (i & Hk & _)%elem_of_take. by eapply list_elem_of_lookup_2. }
  assert (∀ x, x ∈ acc → str_le x (default "" (last acc))) as Hacc.
  { intros x Hx. destruct (last acc) as [y|] eqn:Hy; [by eapply increasing_last|].
    apply last_None in Hy as ->. by apply elem_of_nil in Hx. }
  split.
  - apply increasing_app. split_and!; [|done|].
    + intros x y Hx (_ & Hy & _)%Hsub%elem_of_page. apply str_lt_spec. apply str_lt_spec in Hy as [Hy Hne].
      specialize (Hacc x Hx). split; [by etrans|]. intros ->. by apply Hne, (anti_symm str_le).
    + pose proof (increasing_page (namespace c) pattern (default "" (last acc)) (clock m) (db_cache q.2)) as HP.
      fold P in HP. rewrite <- (take_drop keysBatchSize P) in HP. by apply increasing_app in HP as (_ & ? & _).
  - intros k [Hk|Hk]%elem_of_app.
    + destruct (Hin k Hk) as (? & ? & m' & q' & ? & ? & ? & ?). split_and!; [done..|].
      exists m', q'. split_and!; [done|by etrans|lia..|done].
    + apply Hsub in Hk. apply elem_of_page in Hk as (Hg & Hk & Hr). split_and!; [|done|].
      { apply str_lt_spec in Hk as [Hk Hne]. intros ->. apply Hne. apply (anti_symm str_le); [done|].
        by destruct (default "" (last acc)). }
      exists m, q. split_and!; [by etrans|done|lia..|done].
  - intros k T Halive Hleft HT Hne Hg Hk. apply elem_of_app.
    destruct (decide (str_le k (default "" (last acc)))) as [Hkl|Hkl].
    + left. eapply Hall; eauto; [|by apply passed_last]. intros m' Hm'. apply HT. lia.
    + right. apply Hupto; [|done]. apply elem_of_page. split_and!; [done| |].
      * apply str_lt_spec. split; [by destruct (total str_le (default "" (last acc)) k)|by intros <-].
      * apply (alive_at_le _ T); [apply HT; lia|]. eapply (others_alive T _ p0); [done|by etrans|done].
Qed.

(** ** The whole listing *)

(** What a run of [keys_loop] guarantees from any state. *)
Definition lists (p0 : point) (r : result (list string * option error)) (p : point) : Prop :=
  unwritten p0 p ∧
  match r with
  | Ok (l, None) => listed p0 (λ _, True) l p
  | Ok (l, Some e) => e = ErrDatabase ∧ (∃ m, (p0.1 ≤ m < p.1)%nat ∧ fault m = true) ∧ listed p0 (passed l) l p
  | Err _ => False
  | Hang => True
  end.

Lemma keys_loop_lists fuel acc w p0 :
  unwritten p0 (here w) → listed p0 (passed acc) acc (here w) →
  let '(r, w') := keys_loop fuel c pattern (default "" (last acc)) acc w in lists p0 r (here w').
Proof using Type.
  pose proof (eq_refl : keysBatchSize = 500%nat) as Hsize.
  revert w acc. induction fuel as [|fuel IH]; intros w acc H0 Hl; cbn [keys_loop]; [by split|].
  destruct (keysPage_run (default "" (last acc)) w) as (d & w' & Hp & Hd & Hstep & Hrun).
  unfold attempt, mbind, M_bind. rewrite Hrun. clear Hrun. pose proof (others_le _ _ H0) as Hle. simpl in Hle.
  set (m := w_step w) in *. assert (unwritten p0 (here w')) as H0' by by etrans.
  pose proof (λ upto, listed_page p0 acc (here w) (here w') m upto Hl H0 Hp ltac:(simpl; lia)) as Hnext.
  cbv zeta in Hnext. cbn [here snd] in Hnext. rewrite Hd in Hnext.
  destruct (fault (S m)) eqn:Hf.
  { split; [done|]. split; [done|]. split; [exists (S m); simpl; split; [lia|done]|].
    destruct Hl as [Hs Hin Hall]. split; [done| |].
    - intros k Hk. destruct (Hin k Hk) as (? & ? & m' & q & ? & ? & ? & ?). split_and!; [done..|].
      exists m', q. split_and!; [done|by etrans|lia..|done].
    - intros k T ? ? HT ? ? ?. eapply Hall; eauto. intros m' Hm'. apply HT. simpl in *. lia. }
  set (P := page _ _ _ _ _) in *. destruct (last (take keysBatchSize P)) as [x|] eqn:Hlast.
  - apply last_Some_elem_of in Hlast as Hx. destruct (Nat.ltb_spec (length (take keysBatchSize P)) keysBatchSize) as [Hlt|Hge].
    + split; [done|]. apply Hnext. rewrite length_take in Hlt. by rewrite take_ge by lia.
    + assert (x = default "" (last (acc ++ take keysBatchSize P))) as Hk by by rewrite last_app, Hlast.
      rewrite Hk. apply IH; [done|]. apply Hnext. intros k HkP (y & Hy & Hky).
      apply (page_upto (namespace c) pattern (default "" (last acc)) (clock m) (db_cache d) x); [done..|].
      assert (y = x ∨ str_le y x) as [->|Hyx]; [|done|by etrans].
      right. apply elem_of_app in Hy as [Hy|Hy].
      * assert (x ∈ P) as (_ & Hlx & _)%elem_of_page by (apply elem_of_take in Hx as (i & ? & _); by eapply list_elem_of_lookup_2).
        apply str_lt_spec in Hlx as [Hlx _]. etrans; [|exact Hlx].
        destruct (last acc) as [z|] eqn:Hz; [by eapply increasing_last; [apply (listed_sorted _ _ _ _ Hl)|..]|].
        apply last_None in Hz as ->. by apply elem_of_nil in Hy.
      * pose proof (increasing_page (namespace c) pattern (default "" (last acc)) (clock m) (db_cache d)) as HP. fold P in HP.
        rewrite <- (take_drop keysBatchSize P) in HP. apply increasing_app in HP as (_ & HP & _).
        by eapply increasing_last.
  - apply last_None in Hlast. rewrite Hlast, app_nil_r in Hnext. split; [done|]. apply Hnext.
    destruct P as [|y P']; [by intros ? ?%elem_of_nil|]. by rewrite Hsize in Hlast.
Qed.

(** *** Termination *)

Lemma rows_after_mono ns k t t' :
  (∀ k', is_Some (t' !! (ns, k')) → is_Some (t !! (ns, k'))) → (rows_after ns k t' ≤ rows_after ns k t)%nat.
Proof using Type.
  intros Hsub. unfold rows_after, count_if. apply submseteq_length, NoDup_submseteq.
  - eapply sublist_NoDup; [apply NoDup_ns_rows|apply bfilter_sublist].
  - intros k' [Hk Hin]%elem_of_bfilter. apply elem_of_bfilter. split; [done|].
    apply list_elem_of_fmap in Hin as ([k1 r] & -> & Hr%elem_of_ns_rows). simpl in *.
    destruct (Hsub k1) as [r' Hr']; [by eexists|]. apply list_elem_of_fmap. exists (k1, r').
    by rewrite elem_of_ns_rows.
Qed.

(** Each page but the last passes at least one key, and others add none. *)
Lemma keys_loop_returns fuel lastKey acc w :
  add_no_key (namespace c) → (rows_after (namespace c) lastKey (db_cache (w_db w)) < fuel)%nat →
  (keys_loop fuel c pattern lastKey acc w).1 ≠ Hang.
Proof using Type.
  intros Hadd. revert w lastKey acc. induction fuel as [|fuel IH]; intros w lastKey acc Hfuel; [lia|].
  cbn [keys_loop]. destruct (keysPage_run lastKey w) as (d & w' & Hp & Hd & _ & Hrun).
  unfold attempt, mbind, M_bind. rewrite Hrun. clear Hrun. destruct (fault _); [done|].
  set (P := page _ _ _ _ _). destruct (last (take keysBatchSize P)) as [x|] eqn:Hlast; [|done].
  destruct (Nat.ltb _ _); [done|]. apply IH. rewrite Hd.
  apply last_Some_elem_of, elem_of_take in Hlast as (i & Hi & _). apply list_elem_of_lookup_2 in Hi.
  apply elem_of_page in Hi as (_ & Hlt & r & Hr & _).
  pose proof (rows_after_lt (namespace c) lastKey x (db_cache d) Hlt ltac:(by eexists)).
  pose proof (rows_after_mono (namespace c) lastKey (db_cache (w_db w)) (db_cache d)
    (λ k' Hk', others_keys _ _ _ _ Hadd Hp ltac:(simpl; by rewrite Hd))). lia.
Qed.

Lemma rows_after_size ns k t : (rows_after ns k t ≤ size t)%nat.
Proof using Type.
  unfold rows_after. pose proof (count_if_le (str_lt k) (ns_rows ns t).*1) as Hl.
  rewrite length_fmap in Hl. pose proof (size_ns_rows ns t). lia.
Qed.

(** With nobody else and a driver that works, all keys of one table. *)
Lemma keys_all_spec `{!Quiet H} w (Q : result (list string * option error) → World → Prop) :
  let t := db_cache (w_db w) in
  (∀ w' l, w_db w' = w_db w → increasing l →
     (∀ k, k ∈ l → k ≠ "" ∧ glob pattern k = true ∧ ∃ r m, t !! (namespace c, k) = Some r ∧ live (clock m) r = true) →
     (∀ k r T, t !! (namespace c, k) = Some r → live T r = true → (∀ m, (w_step w ≤ m < w_step w')%nat → clock m ≤ T) →
        k ≠ "" → glob pattern k = true → k ∈ l) →
     Q (Ok (l, None)) w') →
  wp (keys_loop (S (size t)) c pattern "" []) w Q.
Proof using Type.
  intros t HQ. unfold wp.
  pose proof (keys_loop_lists (S (size t)) [] w (here w) ltac:(reflexivity) (listed_nil _)) as Hl.
  assert ((keys_loop (S (size t)) c pattern "" [] w).1 ≠ Hang) as Hret.
  { apply keys_loop_returns; [intros n d k; by rewrite quiet_interfere|].
    pose proof (rows_after_size (namespace c) "" t). unfold t in *. lia. }
  cbn [last default] in Hl. destruct (keys_loop _ _ _ _ _ w) as [[[l [e|]]|e|] w']; try done.
  - destruct Hl as (_ & _ & (m & _ & Hf) & _). by rewrite quiet_fault in Hf.
  - destruct Hl as [Hd [Hs Hin Hall]]. apply others_quiet in Hd as Hd'. simpl in *. apply HQ; [done|done| |].
    + intros k Hk. destruct (Hin k Hk) as (? & ? & m & q & Hq & _ & _ & r & Hr & Hlive). split_and!; [done..|].
      apply others_quiet in Hq. rewrite Hq in Hr. by exists r, m.
    + intros k r T Hr Hlive HT ? ?. apply (Hall k T); [by exists r| |done..].
      intros n d. by rewrite quiet_interfere.
  - by destruct Hl.
Qed.
End listing.

(** C17: listing is safe while other processes write. Whatever they commit
    between the pages and whichever statement the driver fails, [Keys] writes
    nothing and yields keys of the namespace that match the pattern, in strictly
    increasing order and so once each, each of which was live at some moment of
    the call; it misses no matching non-empty key that was live from the start
    and that others let live, however many pages of 500 it takes. If the driver
    fails a page, the error is reported after the keys of the pages before it,
    and nothing up to the last of them is missing. It returns when others add no
    keys. The empty key is never listed. *)
Theorem Keys_concurrent `{H : Host} (c : Cache) (pattern : string) (w : World) :
  let pat := if String.eqb pattern "" then "*" else pattern in
  let '(r, w') := Keys_ c pattern w in
  unwritten (here w) (here w') ∧ (add_no_key (namespace c) → r ≠ Hang) ∧
  match r with
  | Ok (l, err) =>
      increasing l ∧
      (∀ k, k ∈ l → k ≠ "" ∧ glob pat k = true ∧
         ∃ m q, unwritten (here w) q ∧ unwritten q (here w') ∧ (w_step w ≤ m < q.1)%nat ∧
           alive_at (clock m) (namespace c, k) q.2) ∧
      (∀ k T, alive_at T (namespace c, k) (w_db w) → left_alive T (namespace c, k) →
         (∀ m, (w_step w ≤ m < w_step w')%nat → clock m ≤ T) →
         k ≠ "" → glob pat k = true → err = None ∨ passed l k → k ∈ l) ∧
      (∀ e, err = Some e → e = ErrDatabase ∧ ∃ m, (w_step w ≤ m < w_step w')%nat ∧ fault m = true)
  | Err _ => False
  | Hang => True
  end.
Proof.
  intros pat. unfold Keys_, cache_fuel, mbind, M_bind. fold pat.
  pose proof (keys_loop_lists c pat (S (size (db_cache (w_db w)))) [] w (here w) ltac:(reflexivity) (listed_nil _ _ _)) as Hl.
  pose proof (λ Hadd, keys_loop_returns c pat (S (size (db_cache (w_db w)))) "" [] w Hadd
    ltac:(apply Nat.lt_succ_r, rows_after_size)) as Hret.
  cbn [last default] in Hl. destruct (keys_loop _ _ _ _ _ w) as [r w']. cbn [fst] in Hret.
  destruct Hl as [Hd Hr]. split; [done|]. split; [done|]. destruct r as [[l [e|]]|e|]; [| |done..].
  - destruct Hr as (-> & Hf & [Hs Hin Hall]). split_and!; [done..| |].
    + intros k T ? ? ? ? ? [|?]; [done|]. by eapply Hall.
    + intros e [= <-]. done.
  - destruct Hr as [Hs Hin Hall]. split_and!; [done..| |done]. intros k T ? ? ? ? ? _. by eapply Hall.
Qed.

(** Another process rewrites "a" and removes "b" just before the page is read:
    "a" was left alive and is listed, "b" is not. *)
Definition rewrite_a (d : Database) : Database :=
  set_cache (<[("default", "a") := Row "3" 2 10 None 10 0 1]> (delete ("default", "b") (db_cache d))) d.

Lemma Keys_concurrent_witness :
  let host := race_host 50 1 rewrite_a in
  let w := init_world (set_cache two_keys empty_db) in
  (Keys_ (H := host) (demo_cache "default") "" w).1 = Ok (["a"], None) ∧ left_alive (H := host) 60 ("default", "a") ∧
  ∀ l err, (Keys_ (H := host) (demo_cache "default") "" w).1 = Ok (l, err) → err = None → "a" ∈ l.
Proof.
  intros host w.
  assert (Hleft : left_alive (H := host) 60 ("default", "a")).
  { intros n d Hd. simpl. destruct (Nat.eqb n 1); [|exact Hd]. unfold rewrite_a, alive_at, set_cache. cbn [db_cache].
    rewrite lookup_insert_eq. eexists. split; [reflexivity|]. reflexivity. }
  split; [vm_compute; reflexivity|]. split; [exact Hleft|]. intros l err Hr Herr.
  pose proof (Keys_concurrent (H := host) (demo_cache "default") "" w) as Hk. cbv zeta in Hk.
  destruct (Keys_ (H := host) (demo_cache "default") "" w) as [r w'] eqn:Hrun. simpl in Hr. subst r err.
  destruct Hk as (_ & _ & _ & _ & Hall & _). apply (Hall "a" 60).
  - exists (Row "1" 2 0 None 0 0 1). split; [vm_compute; reflexivity|reflexivity].
  - exact Hleft.
  - intros m _. change (50 ≤ 60). lia.
  - discriminate.
  - reflexivity.
  - left. reflexivity.
Defined.

(** With nobody else and a driver that works, [Keys] terminates without error and
    yields, in strictly increasing order and so once each, keys of the namespace that match the pattern and were live when
    their page was read; it misses no matching non-empty key that is still
    live at the end, however many pages of 500 it takes. The empty key is
    never listed. *)
Theorem Keys_complete `{H : Host} `{!Quiet H} (c : Cache) (pattern : string) (w : World) :
  let pat := if String.eqb pattern "" then "*" else pattern in
  ∃ w' l, Keys_ c pattern w = (Ok (l, None), w') ∧ w_db w' = w_db w ∧ increasing l ∧
    (∀ k, k ∈ l → k ≠ "" ∧ glob pat k = true ∧ ∃ r m,
       db_cache (w_db w) !! (namespace c, k) = Some r ∧ live (clock m) r = true) ∧
    (∀ k r T, db_cache (w_db w) !! (namespace c, k) = Some r → live T r = true →
       (∀ m, (w_step w ≤ m < w_step w')%nat → clock m ≤ T) →
       k ≠ "" → glob pat k = true → k ∈ l).
Proof.
  intros pat. set (t := db_cache (w_db w)).
  assert (wp (Keys_ c pattern) w (λ r w', ∃ l, r = Ok (l, None) ∧ w_db w' = w_db w ∧ increasing l ∧
    (∀ k, k ∈ l → k ≠ "" ∧ glob pat k = true ∧ ∃ r m,
       t !! (namespace c, k) = Some r ∧ live (clock m) r = true) ∧
    (∀ k r T, t !! (namespace c, k) = Some r → live T r = true →
       (∀ m, (w_step w ≤ m < w_step w')%nat → clock m ≤ T) →
       k ≠ "" → glob pat k = true → k ∈ l))) as Hwp.
  { unfold Keys_. fold pat. wp_go. unfold wp at 1, cache_fuel. cbn [fst snd].
    apply (keys_all_spec c pat w). intros w' l Hd Hs H1 H2. by exists l. }
  destruct Hwp as (l & Hok & Hrest). exists (Keys_ c pattern w).2, l. split; [|done].
  rewrite <- Hok. by destruct (Keys_ c pattern w).
Qed.

Lemma Keys_complete_witness :
  let _ := still_host 50 in
  let w := init_world (set_cache two_keys empty_db) in
  ∃ w' l, Keys_ (demo_cache "default") "" w = (Ok (l, None), w') ∧ w_db w' = w_db w ∧ increasing l ∧
    (∀ k, k ∈ l → k ≠ "" ∧ glob "*" k = true ∧ ∃ r m,
       two_keys !! ("default", k) = Some r ∧ live (clock m) r = true) ∧
    (∀ k r T, two_keys !! ("default", k) = Some r → live T r = true →
       (∀ m, (w_step w ≤ m < w_step w')%nat → clock m ≤ T) →
       k ≠ "" → glob "*" k = true → k ∈ l).
Proof.
  intros host w. apply (@Keys_complete host (still_quiet 50) (demo_cache "default") "" w).
Defined.
