(* ===== verification/EventAtomic.v ===== *)
(** Publishing among other processes.

    [NotifyMany] creates the event table when it must, encodes, and inserts in
    one statement or one transaction. Whatever other processes publish, remove
    or sweep before each of its statements, its events take consecutive seqs at
    one moment, or the call fails and publishes nothing. *)

From S2P Require Import Prelude GoStd Values Store Engine Channels EventLog Changes Sweep Shared.
Open Scope Z_scope.

(** ** One publication *)

Section insert.
Context {H : Host} {GL : GoLib}.

(** The way [insertEvents] inserts, on one row and on more. *)
Definition insertion (ns : string) (now : Z) (rows : list (string * string * Z)) : M (list Z) :=
  if bool_decide (length rows = 1%nat) then insert_rows ns now rows else inTx (insert_rows ns now rows).

(** What a publication that succeeds found and left: the log [t], and one with
    [rows] more. *)
Definition published (ns : string) (now : Z) (rows : list (string * string * Z)) (seqs : list Z)
    (d d' : Database) : Prop :=
  ∃ t, db_events d = Some t ∧
    (log_wf t → seqs = seqZ (lastAssignedSeq t + 1) (Z.of_nat (length rows)) ∧
                db_events d' = Some (append_events ns now rows t)).

(** The rows go in one after the other, or one of them does not fit. *)
Lemma insert_rows_cases `{!Quiet H} ns now rows w :
  wp (insert_rows ns now rows) w (λ r w',
    r = Err ErrDatabase ∨
    ∃ seqs, r = Ok seqs ∧ (rows ≠ [] → published ns now rows seqs (w_db w) (w_db w')) ∧
      (rows = [] → seqs = [] ∧ w_db w' = w_db w)).
Proof using Type.
  revert w. induction rows as [|[[ch data] vt] rows IH]; intros w; cbn [insert_rows].
  { wp_go. right. exists []. by split_and!. }
  wp_go. unfold on_events. destruct (db_events (w_db w)) as [t|] eqn:Ht; [|wp_go; by left].
  set (r := EventRow ch ns (Some data) vt now). destruct (insert_event r t) as [[s|] t'] eqn:Hins;
    cbn [fst snd mjoin option_join or_db_error]; [|wp_go; by left].
  wp_go. eapply wp_mono; [apply IH|]. intros r' w' [->|(seqs & -> & Hpub & Hnil)]; [by left|]. wp_go. right.
  eexists. split; [done|]. split; [|done]. intros _. exists t. split; [done|]. intros Hwf.
  assert (s = lastAssignedSeq t + 1 ∧ t' = append_event r t) as [-> ->].
  { unfold insert_event in Hins. rewrite (next_seq_wf t Hwf) in Hins. case_match; [done|]. by simplify_eq. }
  cbn [length append_events]. rewrite seqZ_S.
  destruct rows as [|row rows]; [by destruct Hnil as [-> ->]|].
  destruct Hpub as (t2 & [= <-] & Hrest); [done|].
  destruct Hrest as [-> ->]; [by apply append_event_wf|]. by rewrite lastAssignedSeq_append.
Qed.

Lemma alone_insertion `{!Quiet H} ns now rows w : rows ≠ [] →
  wp (insertion ns now rows) w (λ r w',
    (r = Err ErrDatabase ∧ log_kept (w_db w) (w_db w')) ∨
    ∃ seqs, r = Ok seqs ∧ published ns now rows seqs (w_db w) (w_db w')).
Proof using Type.
  intros Hne. unfold insertion. case_bool_decide as Hl.
  - pose proof (insert_rows_cases ns now rows w) as Hw. unfold wp in *.
    pose proof (insert_rows_single_error ns now rows w Hl) as Hs.
    destruct (insert_rows _ _ _ _) as [r w']. simpl in *. destruct Hw as [->|(seqs & -> & Hpub & _)]; [left|right; eauto].
    split; [done|]. symmetry. exact (Hs eq_refl).
  - wp_go. eapply wp_mono; [apply insert_rows_cases|].
    intros r w' [->|(seqs & -> & Hpub & _)]; wp_go; [by left|right; eauto].
Qed.
End insert.

(** ** Among other processes *)

Section publish.
Context {H : Host} {GL : GoLib}.
Abbreviation others := (others_but log_kept).

Lemma tracks_insert_rows ns now rows : tracks (insert_rows ns now rows) (insert_rows (H:=alone H) ns now rows).
Proof using Type.
  induction rows as [|[[ch data] vt] rows IH]; cbn [insert_rows]; unfold or_db_error; tracks_go.
Qed.

(** Either way is one access. *)
Lemma access_insertion ns now rows :
  access log_kept (insertion ns now rows) (insertion (H:=alone H) ns now rows).
Proof using Type.
  unfold insertion. case_bool_decide as Hl; [|apply access_inTx, tracks_insert_rows].
  destruct rows as [|[[ch data] vt] [|]]; try done. cbn [insert_rows].
  apply (access_bind _ _ _ _ (λ o, match mjoin o with Some s => Ok [s] | None => Err ErrDatabase end)).
  - apply access_exec.
  - intros o w. unfold or_db_error. by destruct (mjoin o).
  - intros o w. unfold or_db_error. by destruct (mjoin o).
Qed.

Lemma passes_ensureEvents : passes_but log_kept ensureEvents.
Proof using Type. unfold ensureEvents. passes_solve. by destruct d as [t me [ev|]]. Qed.

Lemma ensureEvents_result w : (ensureEvents w).1 = Ok tt ∨ (ensureEvents w).1 = Err ErrDatabase.
Proof using Type.
  unfold ensureEvents, mbind, M_bind. simpl. destruct (p_eventsReady (w_proc w)); [by left|].
  unfold exec. destruct (fault _); [by right|by left].
Qed.

Lemma validate_all_no_hang (events : list (string * any)) : validate_all events ≠ Hang.
Proof using Type.
  induction events as [|[ch v] events IH]; [done|]. cbn [validate_all]. unfold mbind, result_bind.
  unfold validateChannel. by repeat case_match.
Qed.

(** A call that publishes: all of [rows] at one moment, or nothing. *)
Definition publishing (ns : string) (rows : list (string * string * Z)) (w : World) (r : result (list Z)) (w' : World) : Prop :=
  ∃ seqs n m d1 d2, r = Ok seqs ∧ (w_step w ≤ n ≤ w_step w')%nat ∧ others (here w) (m, d1) ∧
    published ns (clock n) rows seqs d1 d2 ∧ others (m, d2) (here w').

Lemma insertion_moment ns now rows w : rows ≠ [] →
  wp (insertion ns now rows) w (λ r w',
    (r = Err ErrDatabase ∧ others (here w) (here w')) ∨
    ∃ seqs m d1, r = Ok seqs ∧ others (here w) (m, d1) ∧
      published ns now rows seqs d1 (w_db w') ∧ others (m, w_db w') (here w')).
Proof using Type.
  intros Hne. destruct (access_insertion ns now rows w) as [Hn [[He Ho]|Hw]]; [by left|].
  unfold wp. rewrite Hw in *. pose proof (alone_insertion (H:=alone H) ns now rows (with_db (refresh w) w) Hne) as Hq.
  unfold wp in Hq. destruct (insertion _ _ _ _) as [r w']. simpl in *.
  destruct Hq as [[-> Hk]|(seqs & -> & Hpub)]; [left; split; [done|]|right].
  - etrans; [by apply others_step|]. by apply others_skip.
  - exists seqs, (w_step w'), (refresh w). split; [done|]. split; [by apply (others_found w w)|]. by split.
Qed.

Lemma insertEvents_moment c events w : events ≠ [] →
  wp (insertEvents c events) w (λ r w',
    (r = Err ErrDatabase ∧ others (here w) (here w')) ∨
    match encode_all events with
    | Ok rows => publishing (namespace c) rows w r w'
    | Err e => r = Err e ∧ w' = w
    | Hang => False
    end).
Proof using Type.
  intros Hne. unfold insertEvents. wp_go. pose proof (encode_all_no_hang events) as Hnh.
  destruct (encode_all events) as [rows|e|] eqn:He; [|by right|done].
  assert (rows ≠ []) as Hrows by (intros ->; apply encode_all_length in He; by destruct events).
  wp_go. unfold wp at 1. pose proof (passes_ensureEvents w) as Hens. pose proof (ensureEvents_result w) as Hres.
  destruct (ensureEvents w) as [r1 w1]. simpl in *. destruct Hres as [->| ->]; [|by left]. wp_go.
  fold (insertion (namespace c) (clock (w_step w1)) rows).
  assert (others (here w) (here (advance 0 w1))) as Hw1 by (etrans; [exact Hens|by apply others_books]).
  eapply wp_mono; [by apply insertion_moment|].
  intros r w2 [[-> Ho]|(seqs & m & d1 & -> & Hb & Hpub & Ha)].
  - left. split; [done|]. by etrans.
  - wp_go. right. exists seqs, (w_step w1), m, d1, (w_db w2). split; [done|].
    pose proof (others_le _ _ Hens) as H1. pose proof (others_le _ _ Hb) as H2. pose proof (others_le _ _ Ha) as H3.
    simpl in *. split; [lia|]. split; [by etrans|]. by split.
Qed.
End publish.

(** C13: publishing is atomic on a shared file. Whatever other processes publish,
    delete or sweep before any statement and whichever statement the driver
    fails, [NotifyMany] either publishes nothing (an invalid channel, a payload
    that cannot be encoded, or the driver's error), or there is one moment at
    which it appends all its events, in order and stamped with a clock reading
    of the call, to the log as it is then, under the next consecutive seqs,
    which it returns; only others change the log before and after. *)
Theorem publishing_linearizable `{H : Host} `{GL : GoLib} (c : Cache) (events : list (string * any)) (w w' : World)
    (r : result (list Z)) :
  events ≠ [] → NotifyMany c events w = (r, w') →
  (r = Err ErrDatabase ∧ others_but log_kept (here w) (here w')) ∨
  match (validate_all events ;; encode_all events) with
  | Ok rows => publishing (namespace c) rows w r w'
  | Err e => r = Err e ∧ w' = w
  | Hang => False
  end.
Proof.
  intros Hne Hrun. unfold NotifyMany, lift, mbind at 1, M_bind in Hrun. unfold mbind, result_bind.
  pose proof (validate_all_no_hang events) as Hnh.
  destruct (validate_all events) as [[]|e|]; [|by right; simplify_eq|done].
  destruct events as [|ev events]; [done|].
  pose proof (insertEvents_moment c (ev :: events) w Hne) as Hw. unfold wp in Hw. by rewrite Hrun in Hw.
Qed.

(** Another process publishes just before the transaction. *)
Lemma publishing_linearizable_witness :
  let lib := toy_lib in
  let other := λ d, (on_events (insert_event (EventRow "x" "default" (Some "0") typeInt 0)) d).2 in
  let host := race_host 7 2 other in
  let c := demo_cache "default" in let w := init_world empty_db in
  let events := [("a", GString "1"); ("b", GString "2")] in
  let '(r, w') := NotifyMany c events w in
  r = Ok [2; 3] ∧
  ((r = Err ErrDatabase ∧ others_but log_kept (here w) (here w')) ∨
   publishing "default" [("a", "1", typeString); ("b", "2", typeString)] w r w').
Proof.
  intros lib other host c w events. destruct (NotifyMany c events w) as [r w'] eqn:Hrun. split.
  - assert (match (NotifyMany c events w).1 with Ok [2; 3] => true | _ => false end = true) as Hr
      by (vm_compute; reflexivity).
    rewrite Hrun in Hr. clear Hrun. cbn [fst] in Hr. clear -Hr. by repeat (case_match; try discriminate).
  - exact (@publishing_linearizable host lib c events w w' r ltac:(done) Hrun).
Defined.
