(* ===== verification/Atomic.v ===== *)
(** Operations of many processes on one file: each key-value operation of [Kv]
    and [Reads] takes effect at one moment.

    [TtlMap] shows that a process that is alone sees a TTL map. Here other
    processes commit whatever they like before every statement, the driver may
    fail any statement, and the clock may jump; still every operation replies
    and acts as the specification does at a single moment of its run. *)

From S2P Require Import Prelude GoStd Values Store Engine Channels EventLog Changes Sweep Kv Reads TtlMap Counters Shared.
Open Scope Z_scope.

(** ** What happens at that moment *)

(** The map that a table holds for a namespace. *)
Definition table_map (ns : string) (t : cache_table) : TtlMap :=
  list_to_map ((λ p : string * row, (p.1, entry_of p.2)) <$> ns_rows ns t).

(** The table shows [A] from [now] on. *)
Definition shows (ns : string) (now : Z) (t : cache_table) (A : TtlMap) : Prop :=
  ∀ T, now ≤ T → ∀ k, view T ns t k = lookup_at T A k.

Definition elsewhere (ns : string) (t t' : cache_table) : Prop :=
  ∀ n k, n ≠ ns → t' !! (n, k) = t !! (n, k).

(** The specification's operation takes a table from [t] to [t'] at the clock
    reading [now], and replies [r]. *)
Definition takes_place `{GoLib} (c : Cache) (op : kv_op) (now : Z) (r : result reply) (t t' : cache_table) : Prop :=
  let s := spec_op (strict c) op now (table_map (namespace c) t) in
  s.1 r ∧ shows (namespace c) now t' s.2 ∧ elsewhere (namespace c) t t'.

(** *** Tables and maps *)

Lemma table_map_lookup ns t k : table_map ns t !! k = entry_of <$> t !! (ns, k).
Proof.
  unfold table_map. apply option_eq. intros e.
  rewrite <- elem_of_list_to_map by (rewrite <- list_fmap_compose; apply NoDup_ns_rows).
  rewrite list_elem_of_fmap, fmap_Some. split.
  - intros ([k' r] & [= -> ->] & Hr). apply elem_of_ns_rows in Hr. eauto.
  - intros (r & Hr & ->). exists (k, r). split; [done|]. by apply elem_of_ns_rows.
Qed.

Lemma lookup_at_table T ns t k : lookup_at T (table_map ns t) k = view T ns t k.
Proof. unfold lookup_at, view. rewrite table_map_lookup. by destruct (t !! (ns, k)). Qed.

Lemma shows_table ns now t : shows ns now t (table_map ns t).
Proof. intros T _ k. by rewrite lookup_at_table. Qed.

Lemma shows_insert ns now t A k r e :
  shows ns now t A → entry_of r = e → shows ns now (<[(ns, k) := r]> t) (<[k := e]> A).
Proof. intros HA <- T HT k'. rewrite view_insert, lookup_at_insert. case_decide; [done|]. by apply HA. Qed.

Lemma shows_delete ns now t A ks :
  shows ns now t A → shows ns now (delete_keys ns ks t).2 (filter (λ p, p.1 ∉ ks) A).
Proof.
  intros HA T HT k. specialize (HA T HT k). unfold view, lookup_at in *.
  rewrite delete_keys_lookup, map_lookup_filter. case_decide as Hk.
  - destruct Hk as [_ Hk]. simpl. destruct (A !! k); simpl; [|done]. case_guard as Hg; [by destruct Hg|done].
  - rewrite HA. destruct (A !! k); simpl; [|done]. case_guard as Hg; [done|]. by destruct Hk.
Qed.

Lemma elsewhere_refl ns t : elsewhere ns t t.
Proof. done. Qed.
Lemma elsewhere_insert ns t t' k r : elsewhere ns t t' → elsewhere ns t (<[(ns, k) := r]> t').
Proof. intros Ht n k' Hn. rewrite lookup_insert_ne by congruence. by apply Ht. Qed.
Lemma elsewhere_delete ns t ks : elsewhere ns t (delete_keys ns ks t).2.
Proof. intros n k Hn. rewrite delete_keys_lookup. case_decide; [naive_solver|done]. Qed.

(** ** Writes *)

(** An operation that writes: at one moment, or not at all because the driver
    failed. *)
Definition writes `{GoLib} (op : kv_op) : bool :=
  match op with
  | KSet _ _ _ | KAdd _ _ _ | KReplace _ _ _ | KGetSet _ _ _ | KSetMany _ _ | KDelete _
  | KExpire _ _ | KPersist _ | KFlush => true
  | KGet _ _ | KGetMany _ | KExists _ | KTTLOf _ | KMaintain => false
  end.

Definition at_one_moment `{Host} `{GoLib} (c : Cache) (op : kv_op) (w : World) (r : result reply) (w' : World) : Prop :=
  ∃ n m d1 d2, (w_step w ≤ n ≤ w_step w')%nat ∧ others (here w) (m, d1) ∧
    takes_place c op (clock n) r (db_cache d1) (db_cache d2) ∧ others (m, d2) (here w').

Definition failed `{Host} `{GoLib} (w : World) (r : result reply) (w' : World) : Prop :=
  r = Err ErrDatabase ∧ others (here w) (here w').

Section writes.
Context {H : Host} {GL : GoLib} {CJ : ChangeJson GL}.
Context (c : Cache) (Hu : unlimited c = true) (Hs : 0 < sweepInterval c).

Definition atomic (op : kv_op) : Prop :=
  ∀ w, wp (run_op c op) w (λ r w', at_one_moment c op w r w' ∨ failed w r w').

Lemma maybeEvict_unlimited : maybeEvict c = mret tt.
Proof using Hu. unfold maybeEvict. rewrite Hu. by case_bool_decide. Qed.

(** Run a method up to the next decision: the calls that only step aside are
    taken whole. *)
Ltac aside_go :=
  repeat first
    [ any_step
    | rewrite (precheck_unlimited c Hu)
    | rewrite maybeEvict_unlimited
    | rewrite (maybeOpportunisticSweep_off c Hs)
    | lazymatch goal with
      | |- wp (changed _ _ _ _) _ _ =>
          apply wp_background; [apply background_changed|];
          let w := fresh "w" in let Ho := fresh "Ho" in intros [] w Ho
      end ].

(** The statement that does it, executed at [x]. *)
Lemma moment {A} (op : kv_op) (w x : World) (r : result reply) (w' : World) (n : nat)
    (stmt : cache_table → A * cache_table) :
  (w_step w ≤ n ≤ w_step w')%nat → others (here w) (here x) →
  takes_place c op (clock n) r (db_cache (refresh x)) (stmt (db_cache (refresh x))).2 →
  others (S (w_step x), (on_cache stmt (refresh x)).2) (here w') → at_one_moment c op w r w'.
Proof using Type.
  intros Hn Hx Ht Ha. exists n, (S (w_step x)), (refresh x), (on_cache stmt (refresh x)).2.
  split_and!; [lia..| |done|done]. by apply (others_found w x).
Qed.

Ltac at_moment n :=
  lazymatch goal with
  | Ho : others ?a _ |- at_one_moment _ _ ?w _ ?w' =>
      lazymatch a with context [on_cache ?s (refresh ?x)] =>
        apply (moment _ w x _ w' n s); [step_le|apply others_waits; [reflexivity|step_le]| |exact Ho]
      end
  | |- at_one_moment _ _ ?w _ ?w' =>
      lazymatch w' with context [on_cache ?s (refresh ?x)] =>
        apply (moment _ w x _ w' n s); [step_le|apply others_waits; [reflexivity|step_le]| |reflexivity]
      end
  end.

(** A refused value changes nothing. *)
Lemma refused op w r :
  (∀ now A, (spec_op (strict c) op now A).1 r ∧ (spec_op (strict c) op now A).2 = A) → at_one_moment c op w r w.
Proof using Type.
  intros Hop. exists (w_step w), (w_step w), (w_db w), (w_db w). split; [lia|]. split; [reflexivity|]. split; [|reflexivity].
  destruct (Hop (clock (w_step w)) (table_map (namespace c) (db_cache (w_db w)))) as [Hr HA].
  split; [exact Hr|]. split; [|done]. simpl. rewrite HA. apply shows_table.
Qed.

Lemma atomic_KSet k v opts : atomic (KSet k v opts).
Proof using Hs Hu.
  intros w. unfold run_op, Set_. aside_go. pose proof (encodeValue_no_hang v) as Hnh.
  destruct (encodeValue v) as [[data tc]|e|] eqn:Hv; [|left; apply refused; intros; simpl; unfold put_value; by rewrite Hv|done].
  aside_go; [right; split; [done|by_others]|].
  left. at_moment (w_step w).
  unfold takes_place. cbn [spec_op]. unfold put_value. rewrite Hv, upsertSQL_table.
  split_and!; [done|by apply shows_insert; [apply shows_table|]|by apply elsewhere_insert].
Qed.

Lemma atomic_KAdd k v opts : atomic (KAdd k v opts).
Proof using Hs Hu.
  intros w. unfold run_op, Add, add_. aside_go. pose proof (encodeValue_no_hang v) as Hnh.
  destruct (encodeValue v) as [[data tc]|e|] eqn:Hv; [|left; apply refused; intros; simpl; unfold put_value; by rewrite Hv|done].
  aside_go; [right; split; [done|by_others]|].
  assert (∀ t now, takes_place c (KAdd k v opts) now
    (Ok (RBool (0 <? (addSQL (namespace c) k data tc now (expiresAtArg (applySetOptions opts) now) t).1))) t
    (addSQL (namespace c) k data tc now (expiresAtArg (applySetOptions opts) now) t).2) as Hplace.
  { intros t now. unfold takes_place. cbn [spec_op]. unfold put_value. rewrite Hv, addSQL_table, lookup_at_table.
    unfold view. destruct (t !! (namespace c, k)) as [r|]; simpl; [rewrite live_expired; destruct (expired now r); simpl|];
      (split; [done|]); (split; [first [apply shows_table|by apply shows_insert; [apply shows_table|]]|]);
      first [done|by apply elsewhere_insert]. }
  destruct (0 <? _) eqn:Hn; cbn [when]; aside_go; left;
    at_moment (w_step w); rewrite <- Hn; apply Hplace.
Qed.

Lemma atomic_KReplace k v opts : atomic (KReplace k v opts).
Proof using Hs Hu.
  intros w. unfold run_op, Replace. aside_go. pose proof (encodeValue_no_hang v) as Hnh.
  destruct (encodeValue v) as [[data tc]|e|] eqn:Hv; [|left; apply refused; intros; simpl; unfold put_value; by rewrite Hv|done].
  aside_go; [right; split; [done|by_others]|].
  assert (∀ t now, takes_place c (KReplace k v opts) now
    (Ok (RBool (0 <? (replaceSQL (namespace c) k data tc now (expiresAtArg (applySetOptions opts) now) t).1))) t
    (replaceSQL (namespace c) k data tc now (expiresAtArg (applySetOptions opts) now) t).2) as Hplace.
  { intros t now. unfold takes_place. cbn [spec_op]. unfold put_value. rewrite Hv, replaceSQL_table, lookup_at_table.
    unfold view. destruct (t !! (namespace c, k)) as [r|]; simpl; [destruct (live now r); simpl|];
      (split; [done|]); (split; [first [apply shows_table|by apply shows_insert; [apply shows_table|]]|]);
      first [done|by apply elsewhere_insert]. }
  destruct (0 <? _) eqn:Hn; cbn [when]; aside_go; left; at_moment (w_step w); rewrite <- Hn; apply Hplace.
Qed.

(** The expiry of a live row is replaced by [exp], or nothing is. *)
Lemma takes_place_expiry op k now exp t (b : bool) t' :
  (∀ A, spec_op (strict c) op now A = match lookup_at now A k with
    | Some e => (λ r, r = Ok (RBool true), set_expiry k exp e A)
    | None => (λ r, r = Ok (RBool false), A)
    end) →
  (b, t') = match t !! (namespace c, k) with
            | Some r => if live now r
                        then (true, <[(namespace c, k) := Row (value r) (value_type r) (created_at r) exp
                                        (last_accessed r) (access_count r) (size_bytes r)]> t)
                        else (false, t)
            | None => (false, t)
            end →
  takes_place c op now (Ok (RBool b)) t t'.
Proof using Type.
  intros Hop Ht. unfold takes_place. rewrite Hop, lookup_at_table. unfold view.
  destruct (t !! (namespace c, k)) as [r|]; simpl; [destruct (live now r); simpl|];
    injection Ht as -> ->; (split; [done|]); (split; [|first [done|by apply elsewhere_insert]]);
    [by apply shows_insert; [apply shows_table|]|apply shows_table..].
Qed.

Lemma atomic_KExpire k ttl : atomic (KExpire k ttl).
Proof using Type.
  intros w. unfold run_op, Expire. aside_go; [right; split; [done|by_others]|].
  left. at_moment (w_step w). apply (takes_place_expiry _ k _ (Some (clock (w_step w) + Milliseconds ttl))).
  - intros A. cbn [spec_op]. by destruct (lookup_at _ A k).
  - cbn [on_cache fst]. unfold expireSQL, update_at. destruct (_ !! _) as [r|]; [|done]. by destruct (live _ r).
Qed.

Lemma atomic_KPersist k : atomic (KPersist k).
Proof using Type.
  intros w. unfold run_op, Persist. aside_go; [right; split; [done|by_others]|].
  left. at_moment (w_step w). apply (takes_place_expiry _ k _ None).
  - intros A. cbn [spec_op]. by destruct (lookup_at _ A k).
  - cbn [on_cache fst]. unfold persistSQL, update_at. destruct (_ !! _) as [r|]; [|done]. by destruct (live _ r).
Qed.

Lemma atomic_KFlush : atomic KFlush.
Proof using Type.
  intros w. unfold run_op, Flush. aside_go; [right; split; [done|by_others]|].
  assert (∀ t now, takes_place c KFlush now (Ok RUnit) t (flushSQL (namespace c) t).2) as Hplace.
  { intros t now. split; [done|]. split.
    - intros T _ k. unfold view. by rewrite flushSQL_lookup.
    - intros n k Hn. unfold flushSQL. rewrite delete_where_lookup. destruct (t !! (n, k)); [|done]. simpl.
      by rewrite bool_decide_false. }
  destruct (0 <? _) eqn:Hn; cbn [when]; aside_go; left; at_moment (w_step w); apply Hplace.
Qed.

Lemma atomic_KDelete ks : atomic (KDelete ks).
Proof using Type.
  intros w. unfold run_op, Delete. destruct ks as [|k0 ks].
  { aside_go. left. apply refused. intros now A. cbn [spec_op fst snd]. split.
    - exists 0. split; [done|]. unfold count_if. simpl. lia.
    - apply map_filter_id. intros k e _. apply not_elem_of_nil. }
  aside_go; [right; split; [done|by_others]|].
  assert (∀ t now, takes_place c (KDelete (k0 :: ks)) now
    (Ok (RNum (delete_keys (namespace c) (k0 :: ks) t).1)) t (delete_keys (namespace c) (k0 :: ks) t).2) as Hplace.
  { intros t now. split; [|split; [apply shows_delete, shows_table|apply elsewhere_delete]]. eexists. split; [done|].
    apply delete_keys_bounds. intros k [e He]%bool_decide_eq_true. rewrite lookup_at_table in He. unfold view in He.
    destruct (t !! _); [by eexists|done]. }
  destruct (0 <? _) eqn:Hn; cbn [when]; aside_go; left; at_moment (w_step w); apply Hplace.
Qed.

Lemma atomic_KGetSet k v d : atomic (KGetSet k v d).
Proof using Hs Hu.
  intros w. unfold run_op, GetSet. wp_go. pose proof (encodeValue_no_hang v) as Hnh.
  destruct (encodeValue v) as [[data tc]|e|] eqn:Hv; [|left; apply refused; intros; simpl; by rewrite Hv|done].
  wp_go. apply wp_inTx_any; [right; split; [done|by_others]|].
  set (d0 := refresh w). set (w1 := with_intx true _).
  apply (wp_mono _ _ (λ r w2, (S (w_step w) ≤ w_step w2)%nat ∧ (r = Err ErrDatabase ∨ ∃ old n m,
    r = Ok old ∧ (w_step w ≤ n ≤ w_step w2)%nat ∧
    lookup_at (clock n) (table_map (namespace c) (db_cache d0)) k = entry_of <$> old ∧
    w_db w2 = (on_cache (upsertSQL (namespace c) k data tc (clock m) None) d0).2))).
  { any_go; [split; [simpl; lia|by left]|]. rewrite refresh_tx by done. subst w1. cbn [w_db advance with_db with_intx].
    assert (∀ T, lookup_at T (table_map (namespace c) (db_cache d0)) k =
      r ← db_cache d0 !! (namespace c, k); if live T r then Some (entry_of r) else None) as Hl.
    { intros T. by rewrite lookup_at_table. }
    destruct (db_cache d0 !! (namespace c, k)) as [r|] eqn:Hr; [destruct (expires_at r) as [x|] eqn:Hx|];
      any_go; (split; [simpl; lia|]); first [by left|right]; eexists; rewrite refresh_tx by done;
      cbn [w_step w_db advance with_db with_intx].
    - exists (S (S (w_step w))). eexists. split_and!; [done|lia|lia| |done]. rewrite Hl. simpl. unfold live. rewrite Hx.
      rewrite Z.leb_antisym. by destruct (clock _ <? x).
    - exists (w_step w). eexists. split_and!; [done|lia|lia| |done]. rewrite Hl. simpl. unfold live. by rewrite Hx.
    - exists (w_step w). eexists. split_and!; [done|lia|lia| |done]. by rewrite Hl. }
  intros r w2 [Hw2 Hr].
  assert (failed w (Err ErrDatabase : result reply) (advance 0 (with_intx false (with_db d0 w2)))) as Hfail.
  { split; [done|]. apply (others_found w w); [reflexivity|simpl; lia]. }
  destruct Hr as [->|(old & n & m & -> & Hn & Hl & Hd)]; [by split; [right|]|].
  split; [by right|]. aside_go.
  match goal with |- wp _ ?w' _ => set (w3 := w') in * end.
  apply wp_decodeFound. intros x Hx.
  assert (at_one_moment c (KGetSet k v d) w (RVal <$> x) w3) as Hend.
  { exists n, (w_step w2), d0, (w_db w2). split_and!; [lia|step_le|by apply (others_found w w)| |].
    - unfold takes_place. cbn [spec_op]. rewrite Hv, Hl, Hd, on_cache_db. cbn [snd db_cache set_cache].
      rewrite upsertSQL_table.
      split_and!; [by rewrite Hx|by apply shows_insert; [apply shows_table|]|by apply elsewhere_insert].
    - etrans; [|exact Ho]. apply others_skip. simpl. lia. }
  destruct x; left; exact Hend.
Qed.

Lemma set_all_any now exp l d1 A w (Q : result () → World → Prop) :
  w_intx w = true → shows (namespace c) now (db_cache (w_db w)) A →
  elsewhere (namespace c) d1 (db_cache (w_db w)) →
  (∀ w', (w_step w ≤ w_step w')%nat → Q (Err ErrDatabase) w' ∧
     match put_all exp l A with
     | Ok A' => shows (namespace c) now (db_cache (w_db w')) A' → elsewhere (namespace c) d1 (db_cache (w_db w')) → Q (Ok tt) w'
     | Err e => Q (Err e) w'
     | Hang => False
     end) →
  wp (set_all c now exp l) w Q.
Proof using Type.
  revert w A. induction l as [|[k v] l IH]; intros w A Hx HA He HQ'; cbn [set_all put_all] in *.
  { wp_go. by apply (HQ' w). }
  wp_go. pose proof (encodeValue_no_hang v) as Hnh.
  destruct (encodeValue v) as [[data tc]|e|]; simpl in HQ'; [|by apply (HQ' w)|done].
  any_go; [apply HQ'; simpl; lia|]. rewrite refresh_tx by done. apply (IH _ (put k data tc exp A)); [done| | |].
  - cbn [w_db advance with_db]. rewrite on_cache_db. cbn [snd db_cache set_cache]. rewrite upsertSQL_table.
    by apply shows_insert.
  - cbn [w_db advance with_db]. rewrite on_cache_db. cbn [snd db_cache set_cache]. rewrite upsertSQL_table.
    by apply elsewhere_insert.
  - intros w' Hw. apply HQ'. simpl in Hw. lia.
Qed.

Lemma atomic_KSetMany entries opts : atomic (KSetMany entries opts).
Proof using Hs Hu.
  intros w. unfold run_op, SetMany. apply wp_bind. case_bool_decide as He.
  { subst. wp_go. left. apply refused. intros. cbn [spec_op]. rewrite map_to_list_empty. done. }
  unfold Prepare. wp_go. apply wp_inTx_any; [right; split; [done|by_others]|].
  set (d0 := refresh w).
  assert (∀ w2, (S (w_step w) ≤ w_step w2)%nat → failed w (Err ErrDatabase : result reply)
    (advance 0 (with_intx false (with_db d0 w2)))) as Hfail.
  { intros w2 Hw2. split; [done|]. apply (others_found w w); [reflexivity|simpl; lia]. }
  any_go; [split; [|done]; right; apply Hfail; simpl; lia|].
  rewrite refresh_tx by done. set (w1 := advance 0 (with_db _ _)). set (n := w_step w1).
  apply (set_all_any _ _ _ (db_cache d0) (table_map (namespace c) (db_cache d0))); [done|apply shows_table|done|].
  intros w2 Hw2. assert (S (w_step w) ≤ w_step w2)%nat as Hw2' by (subst w1; simpl in Hw2; lia).
  split; [split; [|done]; right; by apply Hfail|].
  assert (∀ m, (S (w_step w) ≤ m)%nat → others (here w) (m, d0)) as Hd0 by (intros m Hm; by apply (others_found w w)).
  assert (∀ r, (spec_op (strict c) (KSetMany entries opts) (clock n) (table_map (namespace c) (db_cache d0))).1 r →
    (spec_op (strict c) (KSetMany entries opts) (clock n) (table_map (namespace c) (db_cache d0))).2 = table_map (namespace c) (db_cache d0) →
    ∀ w', (w_step w1 ≤ w_step w')%nat → w_db w' = d0 → at_one_moment c (KSetMany entries opts) w r w') as Hrefuse.
  { intros r Hr Hsame w' Hw' Hd. exists n, (w_step w'), d0, d0. subst n w1.
    split_and!; [simpl; lia|simpl in *; lia|apply Hd0; simpl in *; lia| |unfold here; by rewrite Hd].
    split; [done|]. split; [rewrite Hsame; apply shows_table|done]. }
  pose proof (put_all_no_hang (expiresAtArg (applySetOptions opts) (clock n)) (map_to_list entries)
    (table_map (namespace c) (db_cache d0))) as Hnh.
  cbn [spec_op] in Hrefuse. destruct (put_all _ _ _) as [A'|e|] eqn:Hp; [| |done].
  - intros HA' He'. split; [right; by apply Hfail|]. aside_go. left.
    exists n, (w_step w2), d0, (w_db w2). subst n w1. split_and!; [simpl; lia|step_le|by apply Hd0| |].
    + unfold takes_place. cbn [spec_op]. rewrite Hp. done.
    + etrans; [|exact Ho]. apply others_skip. simpl. lia.
  - split; [|done]. left. apply Hrefuse; [done|done|simpl in *; lia|done].
Qed.

Lemma atomic_writes op : writes op = true → atomic op.
Proof using Hs Hu.
  destruct op; try done; intros _; auto using atomic_KSet, atomic_KAdd, atomic_KReplace, atomic_KGetSet,
    atomic_KSetMany, atomic_KDelete, atomic_KExpire, atomic_KPersist, atomic_KFlush.
Qed.
End writes.

(** ** Reads

    A read sees one moment. It may later remove keys whose rows it found
    expired, by name and whatever they hold by then. *)
Definition reads `{GoLib} (op : kv_op) : bool :=
  match op with KGet _ _ | KGetMany _ | KExists _ | KTTLOf _ => true | _ => false end.

Definition read_moment `{Host} `{GoLib} (c : Cache) (op : kv_op) (w : World) (r : result reply) (w' : World) : Prop :=
  ∃ n m d1 m' d2 ks, (w_step w ≤ n ≤ w_step w')%nat ∧ others (here w) (m, d1) ∧
    (spec_op (strict c) op (clock n) (table_map (namespace c) (db_cache d1))).1 r ∧
    Forall (λ k, ∃ r, db_cache d1 !! (namespace c, k) = Some r ∧ expired (clock n) r = true) ks ∧
    others (m, d1) (m', d2) ∧ others (m', (on_cache (delete_keys (namespace c) ks) d2).2) (here w').

(** A driver error; outside strict mode most reads report it as a miss. *)
Definition read_failed `{Host} `{GoLib} (c : Cache) (op : kv_op) (w : World) (r : result reply) (w' : World) : Prop :=
  others (here w) (here w') ∧
  (r = Err ErrDatabase ∨ strict c = false ∧
   r = match op with KExists _ => Ok (RBool false) | KTTLOf _ => Ok (RTtl None) | _ => Ok (RVal None) end).

Section reads.
Context {H : Host} {GL : GoLib} {CJ : ChangeJson GL}.
Context (c : Cache) (Hs : 0 < sweepInterval c).

Definition atomic_read (op : kv_op) : Prop :=
  ∀ w, wp (run_op c op) w (λ r w', read_moment c op w r w' ∨ read_failed c op w r w').

Lemma delete_none d : (on_cache (delete_keys (namespace c) []) d).2 = d.
Proof using Type.
  rewrite on_cache_db. cbn [snd]. destruct d as [t me ev]. unfold set_cache. cbn [db_cache]. f_equal.
  apply map_eq. intros [n k]. rewrite delete_keys_lookup.
  case_decide as Hk; [|done]. by destruct Hk as [_ Hk%not_elem_of_nil].
Qed.

(** A read that removes nothing. *)
Lemma read_only op w r w' n m d1 :
  (w_step w ≤ n ≤ w_step w')%nat → others (here w) (m, d1) → others (m, d1) (here w') →
  (spec_op (strict c) op (clock n) (table_map (namespace c) (db_cache d1))).1 r → read_moment c op w r w'.
Proof using Type.
  intros Hn Hb Ha Hr. exists n, m, d1, (w_step w'), (w_db w'), []. do 5 (split; [done|]). by rewrite delete_none.
Qed.

Lemma table_row T d k : lookup_at T (table_map (namespace c) (db_cache d)) k =
  r ← db_cache d !! (namespace c, k); if live T r then Some (entry_of r) else None.
Proof using Type. by rewrite lookup_at_table. Qed.

(** [deleteRaw]: removes the row of the moment, or fails silently. *)
Lemma wp_deleteRaw k w (Q : result () → World → Prop) :
  (∀ m d w', others (here w) (m, d) →
     here w' = (m, d) ∨ here w' = (m, (on_cache (delete_keys (namespace c) [k]) d).2) → Q (Ok tt) w') →
  wp (deleteRaw c k) w Q.
Proof using Type.
  intros HQ. unfold deleteRaw. any_go; apply (HQ (S (w_step w)) (refresh w)); try apply others_refresh; [by left|by right].
Qed.

(** A read that found the row of [k] expired, and then removes it. *)
Lemma read_expired op w r n m d1 k row w1 :
  (w_step w ≤ n ≤ w_step w1)%nat → others (here w) (m, d1) → others (m, d1) (here w1) →
  db_cache d1 !! (namespace c, k) = Some row → expired (clock n) row = true →
  (spec_op (strict c) op (clock n) (table_map (namespace c) (db_cache d1))).1 r →
  ∀ m' d w', others (here w1) (m', d) →
  here w' = (m', d) ∨ here w' = (m', (on_cache (delete_keys (namespace c) [k]) d).2) → read_moment c op w r w'.
Proof using Type.
  intros Hn Hb Hm Hk He Hr m' d w' Hd Hc. pose proof (others_le _ _ Hd) as Hle. cbn [here fst] in Hle.
  assert (w_step w ≤ n ≤ w_step w')%nat as Hn' by (destruct Hc as [[= -> _]|[= -> _]]; lia).
  destruct Hc as [Hc|Hc].
  - apply (read_only op w r w' n m d1); [done|done|rewrite Hc; by etrans|done].
  - exists n, m, d1, m', d, [k]. do 3 (split; [done|]). split; [apply Forall_singleton; by exists row|].
    split; [by etrans|by rewrite Hc].
Qed.

(** [Exists_] and [TTLOf]: the row's expiry decides, read back later with the
    clock. *)
Lemma reads_expiry {A} op k (miss : A) (found : option (Z * Z) → A) (f : A → reply) w :
  match op with KExists _ => f miss = RBool false | KTTLOf _ => f miss = RTtl None | _ => f miss = RVal None end →
  (∀ now m, lookup_at now m k = None → (spec_op (strict c) op now m).1 (Ok (f miss))) →
  (∀ now m e, lookup_at now m k = Some e →
     (spec_op (strict c) op now m).1 (Ok (f (found ((λ x, (x, now)) <$> e_exp e))))) →
  wp (x ← (r ← attempt (query (λ d, expires_at <$> db_cache d !! (namespace c, k)));
           match r with
           | inl e => degradeReadError c e miss
           | inr None => mret miss
           | inr (Some None) => mret (found None)
           | inr (Some (Some e)) =>
               now ← nowMillis;
               if e <=? now then deleteRaw c k ;; mret miss else mret (found (Some (e, now)))
           end); mret (f x)) w (λ r w', read_moment c op w r w' ∨ read_failed c op w r w').
Proof using Type.
  intros Hmiss Hnone Hsome. any_go.
  { unfold degradeReadError. destruct (strict c) eqn:Hst; any_go; right; (split; [by_others|]); [by left|].
    right. split; [done|]. by destruct op; rewrite Hmiss. }
  set (d := refresh w). pose proof (others_refresh (B:=rows_kept) w) as Hd. fold d in Hd.
  assert (∀ n, (S (w_step w) ≤ n)%nat → others (S (w_step w), d) (n, d)) as Hw by (intros; by apply others_skip).
  destruct (db_cache d !! (namespace c, k)) as [row|] eqn:Hr; [destruct (expires_at row) as [x|] eqn:Hx|];
    cbn [fmap option_fmap option_map]; rewrite ?Hx.
  - any_go. destruct (Z.leb_spec x (clock (S (w_step w)))) as [Hle|Hle]; cbn [w_step advance with_db];
      [rewrite (proj2 (Z.leb_le _ _)) by done|rewrite (proj2 (Z.leb_gt _ _)) by done]; any_go.
    + apply wp_deleteRaw. intros m' d' w' Hd' Hc. any_go. left.
      eapply (read_expired _ w _ (S (w_step w)) _ d k row); [|exact Hd| |done| | |exact Hd'|exact Hc];
        [simpl; lia|apply Hw; simpl; lia|unfold expired; rewrite Hx; by apply Z.leb_le|].
      apply Hnone. rewrite table_row, Hr. simpl. unfold live. rewrite Hx. by rewrite (proj2 (Z.ltb_ge _ _)) by lia.
    + left. apply (read_only _ _ _ _ (S (w_step w)) (S (w_step w)) d); [simpl; lia|exact Hd|apply Hw; simpl; lia|].
      pose proof (Hsome (clock (S (w_step w))) (table_map (namespace c) (db_cache d)) (entry_of row)) as Hf.
      simpl in Hf. rewrite Hx in Hf. apply Hf. rewrite table_row, Hr. simpl. unfold live. rewrite Hx.
      by rewrite (proj2 (Z.ltb_lt _ _)) by lia.
  - any_go. left. apply (read_only _ _ _ _ (w_step w) (S (w_step w)) d); [simpl; lia|exact Hd|apply Hw; simpl; lia|].
    pose proof (Hsome (clock (w_step w)) (table_map (namespace c) (db_cache d)) (entry_of row)) as Hf.
    simpl in Hf. rewrite Hx in Hf. apply Hf. rewrite table_row, Hr. simpl. unfold live. by rewrite Hx.
  - any_go. left. apply (read_only _ _ _ _ (w_step w) (S (w_step w)) d); [simpl; lia|exact Hd|apply Hw; simpl; lia|].
    apply Hnone. by rewrite table_row, Hr.
Qed.

Lemma reads_KExists k : atomic_read (KExists k).
Proof using Type.
  intros w. apply (reads_expiry (KExists k) k false (λ _, true) RBool); [done|..]; intros now m; cbn [spec_op fst].
  - by intros ->.
  - by intros e ->.
Qed.

Lemma reads_KTTLOf k : atomic_read (KTTLOf k).
Proof using Type.
  intros w. refine (reads_expiry (KTTLOf k) k None
    (λ o, Some (match o with Some (x, now) => Some (int64 ((x - now) * Millisecond)) | None => None end)) RTtl w _ _ _);
    [done|..]; intros now m; cbn [spec_op fst].
  - by intros ->.
  - intros e ->. simpl. by destruct (e_exp e).
Qed.

Lemma reads_KGet k d : atomic_read (KGet k d).
Proof using Hs.
  intros w. unfold run_op, Get, getRaw. any_go; rewrite (maybeOpportunisticSweep_off c Hs); any_go.
  { unfold degradeReadError. destruct (strict c) eqn:Hst; any_go; right; (split; [by_others|]); [by left|by right]. }
  set (d1 := refresh w). pose proof (others_refresh (B:=rows_kept) w) as Hd. fold d1 in Hd.
  assert (∀ n, (S (w_step w) ≤ n)%nat → others (S (w_step w), d1) (n, d1)) as Hw by (intros; by apply others_skip).
  destruct (db_cache d1 !! (namespace c, k)) as [row|] eqn:Hr; any_go.
  2:{ left. apply (read_only _ _ _ _ (w_step w) (S (w_step w)) d1); [simpl; lia|exact Hd|apply Hw; simpl; lia|].
      cbn [spec_op fst]. by rewrite table_row, Hr. }
  assert (∀ T, lookup_at T (table_map (namespace c) (db_cache d1)) k = if live T row then Some (entry_of row) else None) as Hl.
  { intros T. by rewrite table_row, Hr. }
  destruct (expired (clock (S (w_step w))) row) eqn:He; cbn [w_step advance with_db]; rewrite He; any_go.
  - apply wp_deleteRaw. intros m' d' w' Hd' Hc. any_go. left.
    eapply (read_expired _ w _ (S (w_step w)) _ d1 k row); [|exact Hd| |done|done| |exact Hd'|exact Hc];
      [simpl; lia|apply Hw; simpl; lia|].
    cbn [spec_op fst]. by rewrite Hl, live_expired, He.
  - apply wp_background; [apply background_bufferLRU|]. intros [] w1 Ho. any_go.
    apply (wp_decodeFound c (Some row) d w1). intros x Hx.
    assert (read_moment c (KGet k d) w (RVal <$> x) w1) as Hend.
    { apply (read_only _ _ _ _ (S (w_step w)) (S (w_step w)) d1); [step_le|exact Hd| |].
      - etrans; [|exact Ho]. apply Hw. simpl. lia.
      - cbn [spec_op fst]. by rewrite Hl, live_expired, He. }
    destruct x; left; exact Hend.
Qed.

Lemma collect_any now rows acc dead w (Q : result (gmap string RawValue * list string) → World → Prop) :
  (∀ w', others (here w) (here w') →
     Q (Ok (foldl (λ m p, if expired now p.2 then m
                          else <[p.1 := MkRawValue (value p.2) (value_type p.2)]> m) acc rows,
            dead ++ (List.filter (λ p, expired now p.2) rows).*1)) w') →
  wp (collect c now rows acc dead) w Q.
Proof using Type.
  revert w acc dead. induction rows as [|[k r] rows IH]; intros w acc dead HQ'; cbn [collect foldl].
  { wp_go. rewrite <- (app_nil_r dead). by apply (HQ' w). }
  cbn [fst snd List.filter foldl] in HQ'. destruct (expired now r) eqn:He; cbn [fst snd fmap list_fmap] in HQ'.
  - apply IH. intros w' Ho. rewrite <- app_assoc. by apply HQ'.
  - wp_go. apply wp_background; [apply background_bufferLRU|]. intros [] w1 Ho1. apply IH.
    intros w' Ho. apply HQ'. by etrans.
Qed.

(** [Delete] whose error is ignored. *)
Lemma wp_attempt_Delete ks w (Q : result () → World → Prop) : ks ≠ [] →
  (∀ m d w', others (here w) (m, d) →
     others (m, d) (here w') ∨ others (m, (on_cache (delete_keys (namespace c) ks) d).2) (here w') → Q (Ok tt) w') →
  wp (_ ← attempt (Delete c ks); mret tt) w Q.
Proof using Type.
  intros Hks HQ. unfold Delete. destruct ks as [|k0 ks]; [done|]. any_go.
  - apply (HQ (S (w_step w)) (refresh w)); [apply others_refresh|by left].
  - destruct (0 <? _); cbn [when]; any_go.
    + apply wp_background; [apply background_changed|]. intros [] w1 Ho. any_go.
      apply (HQ (S (w_step w)) (refresh w)); [apply others_refresh|by right].
    + apply (HQ (S (w_step w)) (refresh w)); [apply others_refresh|by right].
Qed.

(** What [GetMany] collects from the rows of a table. *)
Lemma collected_map now (keys : list string) t :
  foldl (λ m p, if expired now p.2 then m else <[p.1 := MkRawValue (value p.2) (value_type p.2)]> m) ∅
    (List.filter (λ p, bool_decide (p.1 ∈ keys)) (scan (ns_rows (namespace c) t))) =
  get_many now (table_map (namespace c) t) keys.
Proof using Type.
  apply map_eq. intros k. rewrite get_many_lookup, collected_lookup by apply NoDup_read_rows.
  rewrite read_rows_lookup, lookup_at_table. unfold view. case_decide; [|done].
  destruct (t !! (namespace c, k)) as [r|]; [|done]. simpl. rewrite live_expired. by destruct (expired now r).
Qed.

Lemma collected_dead now (keys : list string) t :
  Forall (λ k, ∃ r, t !! (namespace c, k) = Some r ∧ expired now r = true)
    (List.filter (λ p, expired now p.2)
       (List.filter (λ p, bool_decide (p.1 ∈ keys)) (scan (ns_rows (namespace c) t)))).*1.
Proof using Type.
  apply Forall_fmap, Forall_forall. intros [k r] [He Hin]%elem_of_bfilter.
  apply elem_of_bfilter in Hin as [_ Hin]. rewrite scan_perm, elem_of_ns_rows in Hin. by exists r.
Qed.

Lemma reads_KGetMany keys : atomic_read (KGetMany keys).
Proof using Hs.
  intros w. unfold run_op, GetMany. apply wp_bind. destruct keys as [|k0 ks].
  { wp_go. left. by apply (read_only _ w _ w (w_step w) (w_step w) (w_db w)). }
  set (keys := k0 :: ks). any_go; [right; split; [by_others|by left]|].
  set (d1 := refresh w). pose proof (others_refresh (B:=rows_kept) w) as Hd. fold d1 in Hd.
  apply collect_any. intros w1 Ho1. rewrite (maybeOpportunisticSweep_off c Hs). any_go.
  assert (others (S (w_step w), d1) (here w1)) as Ho.
  { etrans; [|exact Ho1]. apply others_skip. simpl. lia. }
  rewrite collected_map, app_nil_l. set (dead := (List.filter _ _).*1).
  assert (Forall (λ k, ∃ r, db_cache d1 !! (namespace c, k) = Some r ∧ expired (clock (S (w_step w))) r = true) dead) as Hdead
    by apply collected_dead.
  case_bool_decide as Hnil; cbn [negb when].
  - any_go. left. by apply (read_only _ _ _ _ (S (w_step w)) (S (w_step w)) d1); [step_le|..].
  - apply wp_attempt_Delete; [done|]. intros m d2 w2 Hd2 Hw2. any_go. left.
    assert (S (w_step w) ≤ w_step w2)%nat.
    { apply others_le in Ho, Hd2. destruct Hw2 as [Hw2|Hw2]; apply others_le in Hw2; simpl in *; lia. }
    destruct Hw2 as [Hw2|Hw2].
    + apply (read_only _ _ _ _ (S (w_step w)) (S (w_step w)) d1); [simpl; lia|done| |done].
      etrans; [exact Ho|]. by etrans.
    + exists (S (w_step w)), (S (w_step w)), d1, m, d2, dead. split; [simpl; lia|]. do 3 (split; [done|]).
      split; [by etrans|done].
Qed.

Lemma atomic_reads op : reads op = true → atomic_read op.
Proof using Hs.
  destruct op; try done; intros _; auto using reads_KExists, reads_KTTLOf, reads_KGet, reads_KGetMany.
Qed.
End reads.

(** C3: writes are atomic on a shared file. On a cache without limits that
    leaves sweeps to the sweeper, as by default: whatever other processes commit
    before any statement, whatever statement the driver fails, and however the
    clock is set, [Set], [Add], [Replace], [GetSet], [SetMany], [Delete],
    [Expire], [Persist] and [Flush] reply and act exactly as the TTL map does at
    one moment of the call, on what the file shows then and at a clock reading
    of the call, and touch no other namespace; before and after it only others
    change rows. Or the driver failed: then the call says so and has changed
    nothing. *)
Theorem writes_linearizable `{H : Host} `{GL : GoLib} `{CJ : !ChangeJson GL} (c : Cache) (op : kv_op) (w w' : World)
    (r : result reply) :
  unlimited c = true → 0 < sweepInterval c → writes op = true → run_op c op w = (r, w') →
  at_one_moment c op w r w' ∨ failed w r w'.
Proof. intros Hu Hs Hop Hrun. pose proof (atomic_writes c Hu Hs op Hop w) as Hw. unfold wp in Hw. by rewrite Hrun in Hw. Qed.

(** Another process sets the key just before the statement of [Add]. *)
Definition rival_set (d : Database) : Database :=
  (on_cache (upsertSQL "default" "k" "theirs" typeString 0 None) d).2.

Lemma writes_linearizable_witness :
  let host := race_host 0 1 rival_set in let lib := toy_lib in let json := toy_json in
  let c := demo_cache "default" in let op := KAdd "k" (GString "ours") [] in let w := init_world empty_db in
  let '(r, w') := run_op c op w in
  r = Ok (RBool false) ∧ (at_one_moment c op w r w' ∨ failed w r w').
Proof.
  intros host lib json c op w. destruct (run_op c op w) as [r w'] eqn:Hrun. split.
  - assert (match (run_op c op w).1 with Ok (RBool false) => true | _ => false end = true) as Hr by (vm_compute; reflexivity).
    rewrite Hrun in Hr. simpl in Hr. by repeat (case_match; try discriminate).
  - apply (@writes_linearizable host lib json c op w w' r); [reflexivity..|exact Hrun].
Defined.

(** C4: reads are consistent on a shared file. Under the same conditions [Get],
    [GetMany], [Exists] and [TTLOf] reply what the TTL map replies at one
    moment of the call, at a clock reading of the call; they change no row
    themselves, except that keys whose rows they saw expired may be removed
    later in the call; a driver error is reported, or is a miss outside strict
    mode. *)
Theorem reads_consistent `{H : Host} `{GL : GoLib} `{CJ : !ChangeJson GL} (c : Cache) (op : kv_op) (w w' : World)
    (r : result reply) :
  0 < sweepInterval c → reads op = true → run_op c op w = (r, w') →
  read_moment c op w r w' ∨ read_failed c op w r w'.
Proof. intros Hs Hop Hrun. pose proof (atomic_reads c Hs op Hop w) as Hw. unfold wp in Hw. by rewrite Hrun in Hw. Qed.

(** A key that expires and is set again by another process between the two
    statements of [Get]. *)
Definition expired_key : Database :=
  set_cache {[("default", "k") := Row "old" typeString 0 (Some 5) 0 0 3]} empty_db.

Lemma reads_consistent_witness :
  let host := race_host 9 2 rival_set in let lib := toy_lib in let json := toy_json in
  let c := demo_cache "default" in let op := KGet "k" DString in let w := init_world expired_key in
  let '(r, w') := run_op c op w in
  r = Ok (RVal None) ∧ (read_moment c op w r w' ∨ read_failed c op w r w').
Proof.
  intros host lib json c op w. destruct (run_op c op w) as [r w'] eqn:Hrun. split.
  - assert (match (run_op c op w).1 with Ok (RVal None) => true | _ => false end = true) as Hr by (vm_compute; reflexivity).
    rewrite Hrun in Hr. simpl in Hr. by repeat (case_match; try discriminate).
  - apply (@reads_consistent host lib json c op w w' r); [reflexivity..|exact Hrun].
Defined.

(** ** Counters *)

(** An addition to a counter between two tables: a live value of another type
    is refused, a counter gets the sum. *)
Definition adds_to {A} (ns key : string) (amount now : Z) (r : result A) (t t' : cache_table) : Prop :=
  let o := t !! (ns, key) in
  (∀ row, o = Some row → expired now row = false → value_type row ≠ typeInt → r = Err ErrNotNumeric ∧ t' = t) ∧
  (∀ a, (∀ row, o = Some row → canonical row) → counter_value now o = Some a → in_int64 (a + amount) = true →
     r ≠ Err ErrNotNumeric ∧
     ∃ row', t' = <[(ns, key) := row']> t ∧ value row' = FormatInt (a + amount) ∧ value_type row' = typeInt ∧
       expires_at row' = row ← o; if expired now row then None else expires_at row).

Section counter.
Context {H : Host} {GL : GoLib} {CJ : ChangeJson GL} {SN : SqlNum}.

Lemma adds_to_sql {A} ns key amount now (r : result A) t : in_int64 amount = true →
  (r = Err ErrNotNumeric ↔ (atomicIncrSQL ns key (FormatInt amount) typeInt now [typeInt] t).1 = 0) →
  adds_to ns key amount now r t (atomicIncrSQL ns key (FormatInt amount) typeInt now [typeInt] t).2.
Proof using Type.
  intros Ha Hr. split.
  - intros row Ho He Ht. rewrite Hr. unfold atomicIncrSQL, upsert. rewrite Ho, He.
    by rewrite (bool_decide_false (_ ∈ [typeInt])) by (by intros ?%list_elem_of_singleton).
  - intros a Hcan Hcv Hsum. destruct (incr_value ns key now amount t a Ha Hcan Hcv Hsum) as (row' & Hupd & ? & ? & _ & ?).
    rewrite Hr, Hupd. split; [done|]. by exists row'.
Qed.

Lemma Incr_moment c key amount w : 0 < sweepInterval c → in_int64 amount = true →
  wp (Incr c key amount) w (λ r w',
    (∃ n m d1 d2, (w_step w ≤ n ≤ w_step w')%nat ∧ others (here w) (m, d1) ∧
       adds_to (namespace c) key amount (clock n) r (db_cache d1) (db_cache d2) ∧ others (m, d2) (here w')) ∨
    (r = Err ErrDatabase ∧ others (here w) (here w'))).
Proof using Type.
  intros Hs Ham. unfold Incr, atomicIncr. any_go; [right; split; [done|by_others]|].
  set (x := advance 0 w). set (d1 := refresh x).
  assert (others (here w) (S (S (w_step w)), d1)) as Hd1
    by (apply (others_found w x); [apply others_waits; [done|simpl; lia]|done]).
  set (stmt := atomicIncrSQL (namespace c) key (FormatInt amount) typeInt (clock (w_step w)) [typeInt]).
  set (p := (S (S (w_step w)), (on_cache stmt d1).2) : point).
  assert (∀ (r : result Z) w', (r = Err ErrNotNumeric ↔ (stmt (db_cache d1)).1 = 0) → others p (here w') →
    ∃ n m d1 d2, (w_step w ≤ n ≤ w_step w')%nat ∧ others (here w) (m, d1) ∧
      adds_to (namespace c) key amount (clock n) r (db_cache d1) (db_cache d2) ∧ others (m, d2) (here w')) as Hend.
  { intros r w' Hr Ho. exists (w_step w), (S (S (w_step w))), d1, (on_cache stmt d1).2.
    pose proof (others_le _ _ Ho) as Hle. simpl in Hle. split; [lia|]. split; [done|].
    split; [by apply adds_to_sql|done]. }
  change (on_cache stmt d1).1 with (stmt (db_cache d1)).1.
  destruct (Z.eqb_spec (stmt (db_cache d1)).1 0) as [H0|H0]; any_go.
  { left. apply Hend; [done|reflexivity]. }
  all: set (w1 := advance 0 (with_db (on_cache stmt d1).2 x)); pose proof (others_refresh (B:=rows_kept) w1) as Hw1.
  { left. apply Hend; [split; [done|intros ?; done]|exact Hw1]. }
  destruct (value <$> _) as [text|]; any_go.
  2:{ left. apply Hend; [split; [done|intros ?; done]|exact Hw1]. }
  apply wp_background; [apply background_changed|]. intros [] w2 Ho.
  rewrite (maybeOpportunisticSweep_off c Hs). any_go. left.
  destruct (ParseInt text); any_go; (apply (Hend _ w2); [split; [done|intros ?; done]|]);
    (etrans; [exact Hw1|exact Ho]).
Qed.
End counter.

(** C8: no increment is lost. Whatever other processes do to the counter before
    each statement, [Incr] adds its amount once, at one moment of the call, to
    the value the counter has then, and keeps its expiry, if this library wrote
    the counter and the sum has 64 bits; a live value that is not an integer is
    refused and kept. Or the driver failed before that moment
    and nothing has changed. (The value returned is read back later, and may
    include what others added meanwhile.) *)
Theorem increments_not_lost `{H : Host} `{GL : GoLib} `{CJ : !ChangeJson GL} `{SN : SqlNum} (c : Cache) (key : string)
    (amount : Z) (w w' : World) (r : result Z) :
  0 < sweepInterval c → in_int64 amount = true → Incr c key amount w = (r, w') →
  (∃ n m d1 d2, (w_step w ≤ n ≤ w_step w')%nat ∧ others (here w) (m, d1) ∧
     adds_to (namespace c) key amount (clock n) r (db_cache d1) (db_cache d2) ∧ others (m, d2) (here w')) ∨
  (r = Err ErrDatabase ∧ others (here w) (here w')).
Proof. intros Hs Ha Hrun. pose proof (Incr_moment c key amount w Hs Ha) as Hw. unfold wp in Hw. by rewrite Hrun in Hw. Qed.

(** Two processes add to a missing counter; the other one commits first. *)
Lemma increments_not_lost_witness :
  let other := λ d, (on_cache (@atomicIncrSQL toy_num "default" "n" "5" typeInt 0 [typeInt]) d).2 in
  let host := race_host 0 1 other in let lib := toy_lib in let json := toy_json in let num := toy_num in
  let c := demo_cache "default" in let w := init_world empty_db in
  let '(r, w') := Incr c "n" 1 w in
  r = Ok 6 ∧
    ((∃ n m d1 d2, (w_step w ≤ n ≤ w_step w')%nat ∧ others (here w) (m, d1) ∧
        adds_to "default" "n" 1 (clock n) r (db_cache d1) (db_cache d2) ∧ others (m, d2) (here w')) ∨
     (r = Err ErrDatabase ∧ others (here w) (here w'))).
Proof.
  intros other host lib json num c w. destruct (Incr c "n" 1 w) as [r w'] eqn:Hrun. split.
  - change r with (r, w').1. rewrite <- Hrun. vm_compute. reflexivity.
  - apply (@increments_not_lost host lib json num c "n" 1 w w' r); [reflexivity..|exact Hrun].
Defined.
