(* ===== verification/Lock.v ===== *)
(** Distributed locks: [lytecache-go/lock.go].

    A lock is a row added with [add_]; every process that shares the file runs
    the same two statements on it. The first theorems are about sequences of
    those statements, the last ones about calls of [Lock_] and [Release] among
    which other processes run theirs. [randomToken] is an argument: [None] when
    the system has no randomness. *)

From S2P Require Import Prelude GoStd Values Store Engine Channels EventLog Changes Sweep Kv.
Open Scope Z_scope.

Definition lockKeyPrefix : string := "__lock__:".
Definition lockPollInterval : Z := 50 * Millisecond.

Record Lock := MkLock { lock_ns : string; lock_name : string; lock_token : string }.

(** [DELETE FROM cache WHERE namespace = ? AND key = ? AND value = ?]. *)
Definition releaseSQL (ns key token : string) : cache_table → Z * cache_table :=
  delete_where (λ k r, bool_decide (k = (ns, key)) && String.eqb (value r) token).

Section lock.
Context {H : Host} {GL : GoLib} {CJ : ChangeJson GL}.

Fixpoint lock_loop (fuel : nat) (c : Cache) (name token : string) (timeout deadline : Z) : M Lock :=
  match fuel with
  | O => hang
  | S fuel =>
      ok ← add_ c (lockKeyPrefix +:+ name) (GString token) false [timeout];
      if ok : bool then mret (MkLock (namespace c) name token)
      else
        now ← monoNow;
        if negb (now <? deadline) then fail ErrLockTimeout
        else
          Sleep lockPollInterval ;;
          lock_loop fuel c name token timeout deadline
  end.

(** One attempt per poll interval of the timeout, and one more at each end. *)
Definition lock_fuel (timeout : Z) : nat := S (S (Z.to_nat (timeout / lockPollInterval))).

Definition Lock_ (c : Cache) (name : string) (timeout : Z) (randomToken : option string) : M Lock :=
  match randomToken with
  | None => fail (ErrOther 1)
  | Some token =>
      now ← monoNow;
      lock_loop (lock_fuel timeout) c name token timeout (now + timeout)
  end.

Definition Release (l : Lock) : M () :=
  _ ← exec (on_cache (releaseSQL (lock_ns l) (lockKeyPrefix +:+ lock_name l) (lock_token l)));
  mret tt.

(** ** Termination *)

(** An attempt on a plain cache: no limits, sweeps left to the sweeper. *)
Lemma add_lock_plain c key token timeout w :
  unlimited c = true → 0 < sweepInterval c →
  (add_ c key (GString token) false [timeout] w).1 ≠ Hang ∧
  w_mono w ≤ w_mono (add_ c key (GString token) false [timeout] w).2.
Proof using Type.
  intros Hu Hs. change (wp (add_ c key (GString token) false [timeout]) w (λ r w', r ≠ Hang ∧ w_mono w ≤ w_mono w')).
  unfold add_, precheck, maybeEvict. rewrite Hu, andb_false_r. cbn [encodeValue when].
  do 7 wp_step. apply wp_exec_any; cbn [w_mono advance with_db]; [split; [done|lia]|].
  rewrite (maybeOpportunisticSweep_off c Hs).
  wp_step. destruct (0 <? _); cbn [when]; [case_bool_decide|]; wp_go;
    cbn [w_mono advance with_db]; (split; [done|lia]).
Qed.

Lemma lock_loop_terminates c name token timeout deadline fuel w :
  unlimited c = true → 0 < sweepInterval c →
  deadline - w_mono w < lockPollInterval * Z.of_nat fuel →
  (lock_loop (S fuel) c name token timeout deadline w).1 ≠ Hang.
Proof using Type.
  intros Hu Hs. revert w. induction fuel as [|fuel IH]; intros w Hd.
  all: cbn [lock_loop]; unfold mbind at 1, M_bind at 1;
    destruct (add_lock_plain c (lockKeyPrefix +:+ name) token timeout w Hu Hs) as [Hnh Hm];
    destruct (add_ c _ _ _ _ w) as [[[|]|e|] w1]; simpl in Hnh, Hm; try done;
    unfold mbind, M_bind, monoNow; destruct (Z.ltb_spec (w_mono w1) deadline); cbn [negb]; try done.
  - lia.
  - unfold Sleep. apply IH. simpl. unfold lockPollInterval in *. lia.
Qed.

Lemma lock_returns c name timeout token w :
  unlimited c = true → 0 < sweepInterval c → (Lock_ c name timeout token w).1 ≠ Hang.
Proof using Type.
  intros Hu Hs. unfold Lock_. destruct token as [token|]; [|done].
  unfold mbind, M_bind, monoNow. apply lock_loop_terminates; [done|done|]. simpl.
  pose proof (Z.mul_succ_div_gt timeout lockPollInterval ltac:(done)) as Hdiv.
  assert (timeout / lockPollInterval ≤ Z.of_nat (Z.to_nat (timeout / lockPollInterval))) by lia.
  unfold lockPollInterval, Millisecond in *. lia.
Qed.
End lock.

(** C20: [Lock] always returns in a cache without limits: with any clock, any driver failures and any activity of
    other processes, the polling loop ends after at most one attempt per 50 ms
    of the timeout and two more, because each wait lets the monotonic clock
    advance. *)
Theorem Lock_terminates `{H : Host} `{GL : GoLib} `{!ChangeJson GL} (c : Cache) (name : string)
    (timeout : Z) (token : option string) (w : World) :
  unlimited c = true → 0 < sweepInterval c →
  (Lock_ c name timeout token w).1 ≠ Hang.
Proof. apply lock_returns. Qed.

(** ** Mutual exclusion

    The statements that processes run on the row of a lock, in any order. *)

Inductive lock_act :=
  | TryAcquire (token : string) (now ttl : Z)      (* one pass of [Lock]'s loop *)
  | DoRelease (token : string).                    (* [Release] *)

Definition act_token (a : lock_act) : string :=
  match a with TryAcquire tok _ _ => tok | DoRelease tok => tok end.
Definition act_time (a : lock_act) : option Z :=
  match a with TryAcquire _ now _ => Some now | DoRelease _ => None end.

(** The result is whether the lock was acquired, or a row was deleted. *)
Definition act_step (ns name : string) (a : lock_act) (t : cache_table) : bool * cache_table :=
  let key := lockKeyPrefix +:+ name in
  match a with
  | TryAcquire tok now ttl =>
      let '(n, t') := addSQL ns key tok typeString now (expiresAtArg (Some ttl) now) t in (0 <? n, t')
  | DoRelease tok => let '(n, t') := releaseSQL ns key tok t in (0 <? n, t')
  end.

Fixpoint act_run (ns name : string) (acts : list lock_act) (t : cache_table) : list bool * cache_table :=
  match acts with
  | [] => ([], t)
  | a :: acts =>
      let '(b, t1) := act_step ns name a t in
      let '(bs, t2) := act_run ns name acts t1 in (b :: bs, t2)
  end.

(** The row of a lock held by [token] until [until]. *)
Definition held (ns name token : string) (until : Z) (t : cache_table) : Prop :=
  ∃ r, t !! (ns, lockKeyPrefix +:+ name) = Some r ∧ value r = token ∧ expires_at r = Some until.

Lemma act_step_held ns name token until a t :
  held ns name token until t → act_token a ≠ token →
  (∀ now, act_time a = Some now → now < until) →
  (act_step ns name a t).1 = false ∧ held ns name token until (act_step ns name a t).2.
Proof.
  intros (r & Hr & Hv & He) Hne Hnow. destruct a as [tok now ttl|tok]; cbn [act_step].
  - unfold addSQL, upsert. rewrite Hr. unfold expired. rewrite He.
    specialize (Hnow now eq_refl). rewrite (proj2 (Z.leb_gt _ _)) by lia. simpl.
    split; [done|]. by exists r.
  - assert (∀ k r', t !! k = Some r' →
      bool_decide (k = (ns, lockKeyPrefix +:+ name)) && String.eqb (value r') tok = false) as Hno.
    { intros k r' Hr'. case_bool_decide as Hk; [|done]. subst k. simplify_eq.
      simpl. by apply String.eqb_neq. }
    assert ((releaseSQL ns (lockKeyPrefix +:+ name) tok t).2 = t) as Ht.
    { apply map_eq. intros k. unfold releaseSQL. rewrite delete_where_lookup.
      destruct (t !! k) as [r'|] eqn:Hk; [|done]. simpl. by rewrite (Hno k r' Hk). }
    pose proof (delete_where_count (λ k r, bool_decide (k = (ns, lockKeyPrefix +:+ name)) &&
      String.eqb (value r) tok) t) as Hc. fold (releaseSQL ns (lockKeyPrefix +:+ name) tok t) in Hc.
    rewrite Ht in Hc. destruct (releaseSQL _ _ _ t) as [n t']. simpl in *. subst.
    split; [by rewrite Z.sub_diag|]. by exists r.
Qed.

Definition rival (token : string) (until : Z) (a : lock_act) : Prop :=
  act_token a ≠ token ∧ ∀ now, act_time a = Some now → now < until.

Lemma act_run_held ns name token until acts t :
  held ns name token until t → Forall (rival token until) acts →
  Forall (λ b, b = false) (act_run ns name acts t).1 ∧ held ns name token until (act_run ns name acts t).2.
Proof.
  intros Hh Hacts. revert t Hh. induction Hacts as [|a acts [Hne Hnow] Hacts IH]; intros t Hh; [done|].
  cbn [act_run]. destruct (act_step_held ns name token _ a t Hh Hne Hnow) as [Hb Hh'].
  destruct (act_step ns name a t) as [b t']. simpl in *. subst b.
  destruct (IH t' Hh') as [Hf Hh'']. destruct (act_run ns name acts t') as [bs t'']. simpl in *.
  split; [by constructor|done].
Qed.

Lemma acquired_held ns name token now ttl t :
  (act_step ns name (TryAcquire token now ttl) t).1 = true →
  held ns name token (now + Milliseconds ttl) (act_step ns name (TryAcquire token now ttl) t).2.
Proof.
  unfold act_step, addSQL, upsert. intros Hok.
  destruct (t !! _) as [r|]; [destruct (expired now r)|]; simpl in *; try done;
    eexists; by rewrite lookup_insert_eq.
Qed.

Lemma release_frees ns name token until t : held ns name token until t →
  (releaseSQL ns (lockKeyPrefix +:+ name) token t).2 !! (ns, lockKeyPrefix +:+ name) = None.
Proof.
  intros (r & Hr & Hv & _). unfold releaseSQL. rewrite delete_where_lookup, Hr. cbn [mbind option_bind].
  rewrite bool_decide_true by done. by rewrite Hv, String.eqb_refl.
Qed.

(** A lock excludes: once a process has acquired it with a timeout of at least a
    millisecond, then in every sequence of attempts and releases by other
    token holders, in any order, made before the lock's own expiry, every
    attempt fails, every release is without effect and the lock stays held;
    the holder's own release then frees it. *)
Theorem lock_mutual_exclusion (ns name token : string) (now ttl : Z) (acts : list lock_act)
    (t : cache_table) :
  (act_step ns name (TryAcquire token now ttl) t).1 = true →
  Forall (λ a, act_token a ≠ token ∧
               ∀ n, act_time a = Some n → n < now + Milliseconds ttl) acts →
  let t1 := (act_step ns name (TryAcquire token now ttl) t).2 in
  let t2 := (act_run ns name acts t1).2 in
  Forall (λ b, b = false) (act_run ns name acts t1).1 ∧
  held ns name token (now + Milliseconds ttl) t2 ∧
  (act_step ns name (DoRelease token) t2).2 !! (ns, lockKeyPrefix +:+ name) = None.
Proof.
  intros Hok Hacts t1 t2.
  destruct (act_run_held ns name token (now + Milliseconds ttl) acts t1) as [Hf Hh];
    [by apply acquired_held|done|].
  split_and!; [done|done|]. pose proof (release_frees _ _ _ _ _ Hh) as Hn. cbn [act_step].
  by destruct (releaseSQL _ _ _ _).
Qed.

Lemma lock_mutual_exclusion_witness :
  let acts := [TryAcquire "q" 20 Second; DoRelease "q"; TryAcquire "z" 900 1] in
  let t1 := (act_step "default" "job" (TryAcquire "p" 0 Second) ∅).2 in
  let t2 := (act_run "default" "job" acts t1).2 in
  Forall (λ b, b = false) (act_run "default" "job" acts t1).1 ∧
  held "default" "job" "p" (0 + Milliseconds Second) t2 ∧
  (act_step "default" "job" (DoRelease "p") t2).2 !! ("default", lockKeyPrefix +:+ "job") = None.
Proof.
  intros acts. apply (lock_mutual_exclusion "default" "job" "p" 0 Second acts ∅);
    [vm_compute; reflexivity|].
  repeat constructor; try done; intros n [= <-]; done.
Defined.

(** ** Two processes *)

(** What others did to the row of a lock: attempts and releases with their own
    tokens, before [until]. The rest of the file is not constrained. *)
Definition rivals_only (ns name token : string) (until : Z) (t t' : cache_table) : Prop :=
  ∃ acts, Forall (rival token until) acts ∧
    t' !! (ns, lockKeyPrefix +:+ name) = (act_run ns name acts t).2 !! (ns, lockKeyPrefix +:+ name).

(** Held by [token] until [until] at least. *)
Definition locked (ns name token : string) (until : Z) (d : Database) : Prop :=
  ∃ u, until ≤ u ∧ held ns name token u (db_cache d).

Lemma rival_weaken token u u' a : u ≤ u' → rival token u a → rival token u' a.
Proof. intros Hu [Ht Hn]. split; [done|]. intros now Hnow. specialize (Hn now Hnow). lia. Qed.

Lemma rivals_locked ns name token until d d' :
  rivals_only ns name token until (db_cache d) (db_cache d') →
  locked ns name token until d → locked ns name token until d'.
Proof.
  intros (acts & Hacts & Hrow) (u & Hu & Hh). exists u. split; [done|].
  assert (Forall (rival token u) acts) as Hacts' by (eapply Forall_impl; [exact Hacts|intros a; by apply rival_weaken]).
  destruct (act_run_held ns name token u acts (db_cache d) Hh Hacts') as [_ (r & Hr & Hv)].
  exists r. by rewrite Hrow.
Qed.

Section two.
Context {H : Host} {GL : GoLib} {CJ : ChangeJson GL}.

(** One pass of the loop is one attempt on the row. *)
Lemma add_lock_act c name token timeout w :
  unlimited c = true → 0 < sweepInterval c →
  wp (add_ c (lockKeyPrefix +:+ name) (GString token) false [timeout]) w (λ r w',
    let d := refresh (advance 0 w) in
    w_step w' = S (S (w_step w)) ∧
    ((r = Err ErrDatabase ∧ w_db w' = d) ∨
     (let s := act_step (namespace c) name (TryAcquire token (clock (w_step w)) timeout) (db_cache d) in
      r = Ok s.1 ∧ db_cache (w_db w') = s.2))).
Proof using Type.
  intros Hu Hs. unfold add_, precheck, maybeEvict. rewrite Hu, andb_false_r. cbn [encodeValue when].
  do 7 wp_step. apply wp_exec_any; [split; [done|by left]|].
  rewrite (maybeOpportunisticSweep_off c Hs). cbn [act_step].
  set (d := refresh _). rewrite !on_cache_db. change (applySetOptions [timeout]) with (Some timeout).
  change (on_cache ?f d).1 with (f (db_cache d)).1.
  destruct (addSQL _ _ _ _ _ _ _) as [n t] eqn:E. cbn [fst snd].
  wp_step. destruct (0 <? n); cbn [when]; [case_bool_decide|]; wp_go; (split; [done|by right]).
Qed.

Lemma lock_loop_acquires fuel c name token timeout deadline w :
  unlimited c = true → 0 < sweepInterval c →
  wp (lock_loop fuel c name token timeout deadline) w (λ r w',
    ∀ l, r = Ok l → l = MkLock (namespace c) name token ∧
      ∃ n, (w_step w ≤ n < w_step w')%nat ∧
        held (namespace c) name token (clock n + Milliseconds timeout) (db_cache (w_db w'))).
Proof using Type.
  intros Hu Hs. revert w. induction fuel as [|fuel IH]; intros w; cbn [lock_loop]; [by intros l|].
  apply wp_bind. eapply wp_mono; [by apply add_lock_act|].
  intros r w1 [Hw1 [[-> _]|[-> Ht]]]; [by intros l|].
  destruct (act_step _ _ _ _).1 eqn:Hok.
  - wp_go. intros l [= <-]. split; [done|]. exists (w_step w). split; [lia|]. rewrite Ht. by apply acquired_held.
  - wp_go. destruct (negb _); wp_go; [by intros l|]. eapply wp_mono; [apply IH|].
    intros r w2 Hr l Hl. destruct (Hr l Hl) as (-> & n & Hn & Hh). split; [done|]. exists n. split; [|done].
    cbn [w_step advance] in Hn. lia.
Qed.

Lemma lock_loop_refused fuel c name token timeout deadline owner until w :
  unlimited c = true → 0 < sweepInterval c → token ≠ owner →
  (∀ n, (w_step w ≤ n)%nat → clock n < until) →
  (∀ n d, (w_step w ≤ n)%nat → rivals_only (namespace c) name owner until (db_cache d) (db_cache (interfere n d))) →
  locked (namespace c) name owner until (w_db w) →
  wp (lock_loop fuel c name token timeout deadline) w (λ r w',
    (r = Err ErrLockTimeout ∨ r = Err ErrDatabase ∨ r = Hang) ∧
    locked (namespace c) name owner until (w_db w')).
Proof using Type.
  intros Hu Hs Hne. revert w. induction fuel as [|fuel IH]; intros w Hclock Hriv Hl; cbn [lock_loop]; [by split; [right; right|]|].
  assert (locked (namespace c) name owner until (refresh (advance 0 w))) as Hd.
  { unfold refresh. case_match; [done|]. eapply rivals_locked; [apply Hriv; simpl; lia|done]. }
  apply wp_bind. eapply wp_mono; [by apply add_lock_act|].
  intros r w1 [Hw1 [[-> Hw]|[-> Ht]]]; [by rewrite Hw; auto|].
  destruct Hd as (u & Hun & Hh).
  destruct (act_step_held (namespace c) name owner u (TryAcquire token (clock (w_step w)) timeout) _ Hh Hne) as [Hf Hh'].
  { intros now [= <-]. specialize (Hclock (w_step w) (le_n _)). lia. }
  rewrite Hf. assert (locked (namespace c) name owner until (w_db w1)) as Hl1 by (exists u; by rewrite Ht).
  wp_go. destruct (negb _); wp_go; [by auto|]. apply IH; [..|done]; simpl; intros; [apply Hclock|apply Hriv]; lia.
Qed.

Lemma Release_frees ns name token until w :
  (∀ n d, (w_step w ≤ n)%nat → rivals_only ns name token until (db_cache d) (db_cache (interfere n d))) →
  locked ns name token until (w_db w) →
  wp (Release (MkLock ns name token)) w (λ r w',
    (r = Ok tt ∧ db_cache (w_db w') !! (ns, lockKeyPrefix +:+ name) = None) ∨
    (r = Err ErrDatabase ∧ locked ns name token until (w_db w'))).
Proof using Type.
  intros Hriv Hl.
  assert (locked ns name token until (refresh w)) as Hd.
  { unfold refresh. case_match; [done|]. eapply rivals_locked; [apply Hriv; simpl; lia|done]. }
  unfold Release. apply wp_bind, wp_exec_any; [by right|]. wp_go. left. split; [done|].
  rewrite on_cache_db. destruct Hd as (u & _ & Hh). exact (release_frees _ _ _ _ _ Hh).
Qed.
End two.

(** C7: [Lock] excludes other processes, in caches without limits. When a call of [Lock] has returned a
    lock, then as long as the clock has not reached its expiry, and whatever
    attempts and releases others make with their own tokens before and between
    the statements: every other process that calls [Lock] with that name polls
    until its timeout and gets ErrLockTimeout (or the driver's error), the lock
    stays held, and [Release] by the holder removes the row or reports the
    driver's error. *)
Theorem Lock_exclusive `{H : Host} `{GL : GoLib} `{CJ : !ChangeJson GL} (c c2 : Cache) (name token token2 : string)
    (timeout timeout2 until : Z) (w w1 w2 : World) (l : Lock) :
  unlimited c = true → 0 < sweepInterval c → unlimited c2 = true → 0 < sweepInterval c2 →
  namespace c2 = namespace c → token2 ≠ token →
  Lock_ c name timeout (Some token) w = (Ok l, w1) →
  (∀ n, (w_step w ≤ n < w_step w1)%nat → until ≤ clock n + Milliseconds timeout) →
  (∀ n, (w_step w1 ≤ n)%nat → clock n < until) →
  (∀ n d, (w_step w1 ≤ n)%nat →
     rivals_only (namespace c) name token until (db_cache d) (db_cache (interfere n d))) →
  (w_step w1 ≤ w_step w2)%nat →
  rivals_only (namespace c) name token until (db_cache (w_db w1)) (db_cache (w_db w2)) →
  (let '(r, w3) := Lock_ c2 name timeout2 (Some token2) w2 in
   (r = Err ErrLockTimeout ∨ r = Err ErrDatabase) ∧ locked (namespace c) name token until (w_db w3)) ∧
  (let '(r, w3) := Release l w2 in
   (r = Ok tt ∧ db_cache (w_db w3) !! (namespace c, lockKeyPrefix +:+ name) = None) ∨
   (r = Err ErrDatabase ∧ locked (namespace c) name token until (w_db w3))).
Proof.
  intros Hu Hs Hu2 Hs2 Hns Hne Hlock Huntil Hclock Hriv Hw2 Hriv2.
  pose proof (lock_loop_acquires (lock_fuel timeout) c name token timeout (w_mono w + timeout) (advance 0 w) Hu Hs) as Hacq.
  unfold wp in Hacq. change (lock_loop _ _ _ _ _ _ (advance 0 w)) with (Lock_ c name timeout (Some token) w) in Hacq.
  rewrite Hlock in Hacq. destruct (Hacq l eq_refl) as (-> & n & Hn & Hheld). simpl in Hn, Hheld.
  assert (locked (namespace c) name token until (w_db w2)) as Hl.
  { eapply rivals_locked; [exact Hriv2|]. eexists. split; [|exact Hheld]. apply Huntil. lia. }
  split.
  - pose proof (lock_returns c2 name timeout2 (Some token2) w2 Hu2 Hs2) as Hnh.
    pose proof (lock_loop_refused (lock_fuel timeout2) c2 name token2 timeout2 (w_mono w2 + timeout2) token until
      (advance 0 w2) Hu2 Hs2 Hne) as Href. rewrite Hns in Href. specialize (Href
      ltac:(simpl; intros; apply Hclock; lia) ltac:(simpl; intros; apply Hriv; lia) Hl).
    unfold wp in Href. change (lock_loop _ _ _ _ _ _ (advance 0 w2)) with (Lock_ c2 name timeout2 (Some token2) w2) in Href.
    destruct (Lock_ c2 _ _ _ w2) as [r w3]. simpl in *. naive_solver.
  - pose proof (Release_frees (namespace c) name token until w2 ltac:(intros; apply Hriv; lia) Hl) as Hrel.
    unfold wp in Hrel. by destruct (Release _ w2).
Qed.

(** A process takes a lock for a second; another attempts it in between, and a
    third calls [Lock] with a timeout of a tenth of a second. *)
Lemma Lock_exclusive_witness :
  let steal := λ d, (on_cache (act_step "default" "job" (TryAcquire "z" 0 Second)) d).2 in
  let host := race_host 0 9 steal in let lib := toy_lib in let json := toy_json in
  let c := demo_cache "default" in let timeout := 100 * Millisecond in
  let '(r1, w1) := Lock_ c "job" Second (Some "p") (init_world empty_db) in
  let '(r, w3) := Lock_ c "job" timeout (Some "q") w1 in
  r1 = Ok (MkLock "default" "job" "p") ∧ r = Err ErrLockTimeout ∧
  (((r = Err ErrLockTimeout ∨ r = Err ErrDatabase) ∧ locked "default" "job" "p" 1000 (w_db w3)) ∧
   (let '(r, w3) := Release (MkLock "default" "job" "p") w1 in
    (r = Ok tt ∧ db_cache (w_db w3) !! ("default", lockKeyPrefix +:+ "job") = None) ∨
    (r = Err ErrDatabase ∧ locked "default" "job" "p" 1000 (w_db w3)))).
Proof.
  intros steal host lib json c timeout.
  destruct (Lock_ c "job" Second (Some "p") (init_world empty_db)) as [r1 w1] eqn:Hlock.
  assert (r1 = Ok (MkLock "default" "job" "p")) as ->
    by (change r1 with (r1, w1).1; rewrite <- Hlock; vm_compute; reflexivity).
  pose proof (@Lock_exclusive host lib json c c "job" "p" "q" Second timeout 1000 (init_world empty_db) w1 w1
    (MkLock "default" "job" "p") eq_refl eq_refl eq_refl eq_refl eq_refl ltac:(done) Hlock) as Hx.
  assert ((Lock_ c "job" timeout (Some "q") w1).1 = Err ErrLockTimeout) as Hr.
  { change w1 with (@Ok Lock (MkLock "default" "job" "p"), w1).2. rewrite <- Hlock. vm_compute. reflexivity. }
  destruct (Lock_ c "job" timeout (Some "q") w1) as [r w3]. simpl in Hr. split; [done|]. split; [done|].
  apply Hx; [done|done| |lia|by exists []].
  intros n d _. simpl. destruct (Nat.eqb n 9); [|by exists []].
  exists [TryAcquire "z" 0 Second]. split; [repeat constructor; [done|by intros now [= <-]]|].
  unfold steal. rewrite on_cache_db. cbn [act_run]. by destruct (act_step _ _ _ _).
Defined.

Lemma Lock_terminates_witness :
  let _ := race_host 0 0 id in let _ := toy_lib in let _ := toy_json in
  (Lock_ (demo_cache "default") "job" Second (Some "p") (init_world empty_db)).1 ≠ Hang.
Proof.
  intros host lib json. by apply (@Lock_terminates host lib json (demo_cache "default")).
Defined.

(** A timeout below one millisecond rounds to a TTL of zero, so the lock has
    expired as soon as it is taken and a second process acquires it too. *)
Example Lock_zero_timeout_shared :
  let t1 := act_step "default" "job" (TryAcquire "p" 10 0) ∅ in
  t1.1 = true ∧ (act_step "default" "job" (TryAcquire "q" 10 0) t1.2).1 = true.
Proof. split; vm_compute; reflexivity. Qed.
