(* ===== verification/KvProps.v ===== *)
(** Error paths, atomicity and races of the key-value operations of [Kv]. *)

From S2P Require Import Prelude GoStd Values Store Engine Channels EventLog Changes Sweep Kv Reads.
Open Scope Z_scope.

(** ** Methods that log their errors *)

Definition no_err {A} (m : M A) : Prop := ∀ w e, (m w).1 ≠ Err e.

Section no_err.
Context {H : Host}.

Lemma no_err_returns {A} (m : M A) : returns m → no_err m.
Proof. intros Hm w e. by destruct (Hm w) as [a ->]. Qed.
Lemma no_err_attempt {A} (m : M A) : no_err (attempt m).
Proof. intros w e. unfold attempt. by destruct (m w) as [[]]. Qed.
Lemma no_err_bind {A B} (m : M A) (k : A → M B) : no_err m → (∀ a, no_err (k a)) → no_err (m ≫= k).
Proof.
  intros Hm Hk w e. unfold mbind, M_bind. specialize (Hm w).
  destruct (m w) as [[a|e'|] w']; [apply Hk|by intros [= ->]; eapply Hm|done].
Qed.
(** What follows a step logs its errors, so an error is the step's. *)
Lemma bind_err {A B} (m : M A) (k : A → M B) w e :
  (∀ a, no_err (k a)) → ((m ≫= k) w).1 = Err e →
  is_ok (m w).1 = false ∧ ((m ≫= k) w).2 = (m w).2.
Proof.
  intros Hk. unfold mbind, M_bind. destruct (m w) as [[a|e'|] w']; [|done..].
  intros He. by apply Hk in He.
Qed.
Lemma no_err_when b m : no_err m → no_err (when b m).
Proof. intros Hm. destruct b; [done|]. by intros w e. Qed.
Lemma no_err_ret {A} (a : A) : no_err (mret a).
Proof. by intros w e. Qed.
Lemma no_err_mod_proc f : no_err (mod_proc f).
Proof. by intros w e. Qed.
Lemma no_err_get_proc : no_err get_proc.
Proof. by intros w e. Qed.
Lemma no_err_nowMillis : no_err nowMillis.
Proof. by intros w e. Qed.
Lemma no_err_cache_fuel : no_err cache_fuel.
Proof. by intros w e. Qed.
End no_err.

Ltac no_err_step :=
  lazymatch goal with
  | |- forall _, _ => intros
  | |- no_err (mret _) => apply no_err_ret
  | |- no_err (mod_proc _) => apply no_err_mod_proc
  | |- no_err get_proc => apply no_err_get_proc
  | |- no_err nowMillis => apply no_err_nowMillis
  | |- no_err cache_fuel => apply no_err_cache_fuel
  | |- no_err (attempt _) => apply no_err_attempt
  | |- no_err (_ ≫= _) => apply no_err_bind
  | |- no_err (when _ _) => apply no_err_when
  | |- no_err (match ?x with _ => _ end) => destruct x eqn:?
  end.
Ltac no_err_solve := repeat no_err_step.

Section upkeep_no_err.
Context {H : Host} (c : Cache).

Lemma maybeEvict_no_err : no_err (maybeEvict c).
Proof. unfold maybeEvict, enforceCapacity, flushLRUBuffer. no_err_solve. Qed.

Lemma maybeOpportunisticSweep_no_err : no_err (maybeOpportunisticSweep c).
Proof.
  unfold maybeOpportunisticSweep, sweepOnce, flushLRUBuffer, removeExpiredBatch, enforceCapacity,
    sweepEvents, eventsExist. no_err_solve.
Qed.
End upkeep_no_err.

(** [SetMany] is all or nothing: whichever value cannot be encoded and whichever
    statement the driver fails, when it returns an error the cache table is as
    it was before. *)
Theorem SetMany_atomic `{H : Host} `{GL : GoLib} `{!ChangeJson GL} `{!Alone H} (c : Cache)
    (entries : gmap string any) (opts : list Z) (w : World) (e : error) :
  (SetMany c entries opts w).1 = Err e →
  db_cache (w_db (SetMany c entries opts w).2) = db_cache (w_db w).
Proof.
  unfold SetMany. case_bool_decide; [done|]. intros He. apply bind_err in He as [Hf ->].
  - by rewrite inTx_rollback.
  - intros ?. apply no_err_bind; [apply no_err_returns, changed_returns|]. intros _.
    apply no_err_bind; [apply maybeEvict_no_err|]. intros _. apply maybeOpportunisticSweep_no_err.
Qed.

Lemma SetMany_atomic_witness :
  let _ := toy_lib in let _ := toy_json in let _ := faulty_host 0 (λ n, Nat.eqb n 4) in
  let w := init_world empty_db in
  let entries := <["a" := GString "x"]> (<["b" := GString "y"]> ∅) : gmap string any in
  (SetMany (demo_cache "default") entries [] w).1 = Err ErrDatabase ∧
  db_cache (w_db (SetMany (demo_cache "default") entries [] w).2) = ∅.
Proof.
  intros lib json host w entries.
  assert ((SetMany (demo_cache "default") entries [] w).1 = Err ErrDatabase) as He
    by (vm_compute; reflexivity).
  split; [exact He|].
  exact (@SetMany_atomic host lib json (faulty_alone 0 _) _ entries [] w _ He).
Defined.

(** ** The NoEviction policy *)

Definition full (c : Cache) (t : cache_table) : Prop :=
  let cs := count_sum (namespace c) t in
  (∃ n, maxKeys c = Some n ∧ n ≤ cs.1) ∨ (∃ n s, maxBytes c = Some n ∧ cs.2 = Some s ∧ n ≤ s).

Section no_eviction.
Context {H : Host} {GL : GoLib} {CJ : ChangeJson GL} `{HQ : !Quiet H}.

Lemma checkCapacity_full c key w (Q : result () → World → Prop) :
  db_cache (w_db w) !! (namespace c, key) = None → full c (db_cache (w_db w)) →
  (∀ w', w_db w' = w_db w → w_proc w' = w_proc w → Q (Err ErrCacheFull) w') →
  wp (checkCapacity c key) w Q.
Proof using HQ.
  intros Hk Hfull HQ'. unfold checkCapacity. wp_go. simpl. rewrite Hk.
  rewrite bool_decide_false by (by intros []). wp_go.
  destruct Hfull as [(n & Hn & Hle)|(n & s & Hn & Hs & Hle)].
  - rewrite Hn. wp_go. simpl in *. rewrite (proj2 (Z.leb_le _ _)) by done. wp_go. by apply HQ'.
  - assert (∀ w1, w_db w1 = w_db w → w_proc w1 = w_proc w →
      wp (match maxBytes c with
          | None => mret tt
          | Some n =>
              total ← query (λ d, (count_sum (namespace c) (db_cache d)).2);
              match total with
              | Some s => if n <=? s then fail ErrCacheFull else mret tt
              | None => mret tt
              end
          end) w1 Q) as Hbytes.
    { intros w1 Hd Hp. rewrite Hn. wp_go. rewrite Hd, Hs, (proj2 (Z.leb_le _ _)) by done. wp_go.
      by apply HQ'. }
    destruct (maxKeys c) as [m|]; wp_go; [|by apply Hbytes].
    destruct (m <=? _); simpl; [by apply HQ'|by apply Hbytes].
Qed.

Lemma checkCapacity_existing c key r w (Q : result () → World → Prop) :
  db_cache (w_db w) !! (namespace c, key) = Some r → Q (Ok tt) (advance 0 w) →
  wp (checkCapacity c key) w Q.
Proof using HQ.
  intros Hk HQ'. unfold checkCapacity. wp_go. rewrite Hk, bool_decide_true by (by eexists).
  by wp_go.
Qed.
End no_eviction.

(** Under [NoEviction] a write that would add a key to a full namespace is rejected
    with [ErrCacheFull] before it has any effect: [Set] and [Add] leave the file
    and the process state as they were. *)
Theorem NoEviction_rejects `{H : Host} `{GL : GoLib} `{!ChangeJson GL} `{!Quiet H} (c : Cache)
    (key data : string) (tc : Z) (v : any) (opts : list Z) (w : World) :
  eviction c = NoEviction → full c (db_cache (w_db w)) →
  db_cache (w_db w) !! (namespace c, key) = None → encodeValue v = Ok (data, tc) →
  (∃ w', Set_ c key v opts w = (Err ErrCacheFull, w') ∧ w_db w' = w_db w ∧ w_proc w' = w_proc w) ∧
  (∃ w', Add c key v opts w = (Err ErrCacheFull, w') ∧ w_db w' = w_db w ∧ w_proc w' = w_proc w).
Proof.
  intros He Hfull Hk Henc.
  assert (unlimited c = false) as Hu.
  { unfold unlimited. by destruct Hfull as [(n & -> & _)|(n & s & -> & _)]; [|destruct (maxKeys c)]. }
  assert (∀ w', w_db w' = w_db w → w_proc w' = w_proc w → ∀ (Q : result () → World → Prop),
    (∀ w', w_db w' = w_db w → w_proc w' = w_proc w → Q (Err ErrCacheFull) w') →
    wp (precheck c key) w' Q) as Hpre.
  { intros w1 Hd Hp Q HQ'. unfold precheck. rewrite He, Hu. cbn [negb andb when bool_decide decide_rel].
    rewrite bool_decide_true by done. cbn [negb andb when].
    apply checkCapacity_full; rewrite ?Hd; [done|done|]. intros w2 Hd2 Hp2. apply HQ'; congruence. }
  split.
  - assert (wp (Set_ c key v opts) w (λ r w', r = Err ErrCacheFull ∧ w_db w' = w_db w ∧ w_proc w' = w_proc w))
      as [Hr Hrest].
    { unfold Set_. wp_go. rewrite Henc. wp_go. by apply Hpre. }
    exists (Set_ c key v opts w).2. split; [|done]. rewrite <- Hr. by destruct (Set_ c key v opts w).
  - assert (wp (Add c key v opts) w (λ r w', r = Err ErrCacheFull ∧ w_db w' = w_db w ∧ w_proc w' = w_proc w))
      as [Hr Hrest].
    { unfold Add, add_. wp_go. rewrite Henc. wp_go. by apply Hpre. }
    exists (Add c key v opts w).2. split; [|done]. rewrite <- Hr. by destruct (Add c key v opts w).
Qed.

Definition full_cache : Cache :=
  MkCache "/tmp/cache.db" "default" 1 (Some 2) None NoEviction false (60 * Second) true [] Hour 0 100.

Lemma NoEviction_rejects_witness :
  let _ := still_host 50 in let _ := toy_lib in let _ := toy_json in
  let w := init_world (set_cache two_keys empty_db) in
  (∃ w', Set_ full_cache "c" (GString "x") [] w = (Err ErrCacheFull, w') ∧
         w_db w' = w_db w ∧ w_proc w' = w_proc w) ∧
  (∃ w', Add full_cache "c" (GString "x") [] w = (Err ErrCacheFull, w') ∧
         w_db w' = w_db w ∧ w_proc w' = w_proc w).
Proof.
  intros host lib json w.
  apply (@NoEviction_rejects host lib json (still_quiet 50) full_cache "c" "x" typeString (GString "x") [] w);
    [done|left; exists 2; split; [done|vm_compute; discriminate]|done|done].
Defined.

(** ** Races and reports *)

(** Another process replaces an expired value just before a [Get] removes it:
    the removal is unconditional, so the fresh value is gone. *)
Definition fresh_row_10 : row := fresh_row "new" typeString 10 None.
Example Get_race_deletes_fresh_value :
  let stale := set_cache {[("default", "k") := Row "old" typeString 0 (Some 5) 0 0 3]} empty_db in
  let other := λ d, set_cache (<[("default", "k") := fresh_row_10]> (db_cache d)) d in
  let run := @Get (race_host 10 2 other) toy_lib (demo_cache "default") "k" DString
               (init_world stale) in
  db_cache (w_db run.2) = ∅.
Proof. vm_compute. reflexivity. Qed.

(** [GetMany] removes the expired rows it meets with [Delete], which reports
    them to listeners as deletions. *)
Example GetMany_reports_expiry :
  let stale := set_cache {[("default", "k") := Row "old" typeString 0 (Some 5) 0 0 3]} empty_db in
  let d := MkDispatcher {[0%nat := [OpDelete]]} 1 [] false 0 in
  let run := @GetMany (still_host 10) toy_lib toy_json (demo_cache "default") ["k"]
               (with_proc (set_dispatcher (Some d) init_proc) (init_world stale)) in
  (queue <$> p_dispatcher (w_proc run.2)) =
    Some [(MkChangeRecord OpDelete "default" (Some ["k"]) 1 false, 1)].
Proof. vm_compute. reflexivity. Qed.

(** A repeated key is one entry of the result and the repetition is counted as
    a miss. *)
Example GetMany_duplicate_counts_miss :
  let t := set_cache {[("default", "k") := Row "v" typeString 0 None 0 0 1]} empty_db in
  let run := @GetMany (still_host 10) toy_lib toy_json (demo_cache "default") ["k"; "k"] (init_world t) in
  (p_hits (w_proc run.2), p_misses (w_proc run.2)) = (1, 1).
Proof. vm_compute. reflexivity. Qed.

(** [Keys] starts after the empty string, so a value stored under it is never
    listed although [Exists] finds it. *)
Example Keys_skips_empty_key :
  let t := set_cache {[("default", "") := Row "v" typeString 0 None 0 0 1]} empty_db in
  (@Keys_ (still_host 10) (demo_cache "default") "*" (init_world t)).1 = Ok ([], None) ∧
  (@Exists_ (still_host 10) (demo_cache "default") "" (init_world t)).1 = Ok true.
Proof. split; vm_compute; reflexivity. Qed.
