(* ===== verification/Open.v ===== *)
(** Opening and closing a [Cache]: the options, [New], the schema and its
    version ([lytecache-go/cache.go], [schema.go]) and the default location
    ([paths.go]). *)

From S2P Require Import Prelude GoStd Values Store Engine Channels EventLog Changes Sweep Shared.
Open Scope Z_scope.

(** ** The operating system

    What [New] asks of the process environment and the file system. *)
Class Os := {
  LookupEnv : string → option string;
  UserCacheDir : option string;
  UserHomeDir : option string;
  Getwd : option string;
  EvalSymlinks : string → option string;
  Join : list string → string;                 (* filepath.Join *)
  Dir : string → string;                       (* filepath.Dir *)
  MkdirAll : string → bool;
  sha256_hex : string → string;                (* hex.EncodeToString of Sum256 *)
  has_json1 : bool;                            (* the probe of detectJSON1 *)
  is_busy : nat → bool;                        (* a failure of step n is SQLITE_BUSY *)
  Sscanf_d : string → option Z                 (* fmt.Sscanf("%d") into an int *)
}.

Definition envPathOverride : string := "LYTECACHE_PATH".
Definition forceJSONFallbackEnv : string := "LYTECACHE_FORCE_JSON_FALLBACK".
Definition schemaVersion_const : Z := 1.
Definition initMaxAttempts : nat := 25.
Definition separator : string := "/".

(** ** Paths *)

Section paths.
Context {OS : Os}.

Definition expandHome (path : string) : result string :=
  if negb (String.eqb path "~") && negb (HasPrefix path "~/") then Ok path
  else match UserHomeDir with
       | None => Err ErrInvalidArgument
       | Some home =>
           if String.eqb path "~" then Ok home else Ok (Join [home; drop_str 2 path])
       end.

Definition projectID : result string :=
  match Getwd with
  | None => Err ErrInvalidArgument
  | Some cwd =>
      let resolved := default cwd (EvalSymlinks cwd) in
      Ok (take_str 12 (sha256_hex resolved))
  end.

Definition DefaultPath : result string :=
  match LookupEnv envPathOverride with
  | Some (String _ _ as override) => expandHome override
  | _ =>
      match UserCacheDir with
      | None => Err ErrInvalidArgument
      | Some cacheDir =>
          id ← projectID;
          Ok (Join [cacheDir; "lytecache"; id +:+ ".db"])
      end
  end.
End paths.

(** ** Options *)

Record options := MkOptions {
  o_path : string;
  o_namespace : string;
  o_maxKeys : option Z;
  o_maxBytes : option Z;
  o_eviction : Eviction;
  o_sweepInterval : Z;
  o_strict : bool;
  o_publishOps : list string;
  o_eventRetention : Z;
  o_eventMaxCount : Z;
  o_changeKeyCap : Z
}.

Inductive Option_ :=
  | WithPath (p : string)
  | WithNamespace (ns : string)
  | WithMaxKeys (n : Z)
  | WithMaxBytes (n : Z)
  | WithEviction (e : Eviction)
  | WithSweepInterval (d : Z)
  | WithStrict (b : bool)
  | WithPublishChanges (ops : list string)
  | WithEventRetention (d : Z)
  | WithEventMaxCount (n : Z)
  | WithChangeKeyCap (n : Z).

Definition apply_option (o : options) (opt : Option_) : options :=
  let '(MkOptions p ns mk mb ev sw st po er em ck) := o in
  match opt with
  | WithPath x => MkOptions x ns mk mb ev sw st po er em ck
  | WithNamespace x => MkOptions p x mk mb ev sw st po er em ck
  | WithMaxKeys x => MkOptions p ns (Some x) mb ev sw st po er em ck
  | WithMaxBytes x => MkOptions p ns mk (Some x) ev sw st po er em ck
  | WithEviction x => MkOptions p ns mk mb x sw st po er em ck
  | WithSweepInterval x => MkOptions p ns mk mb ev x st po er em ck
  | WithStrict x => MkOptions p ns mk mb ev sw x po er em ck
  | WithPublishChanges x => MkOptions p ns mk mb ev sw st (po ++ x) er em ck
  | WithEventRetention x => MkOptions p ns mk mb ev sw st po x em ck
  | WithEventMaxCount x => MkOptions p ns mk mb ev sw st po er x ck
  | WithChangeKeyCap x => MkOptions p ns mk mb ev sw st po er em x
  end.

Definition default_options : options :=
  MkOptions "" "default" None None LRU (60 * Second) false [] defaultRetention 0 defaultKeyCap.

(** ** The schema *)

(** [ddl]: the tables exist from then on; an existing file is not changed. *)
Definition ddl (d : Database) : () * Database := (tt, d).

Section open.
Context {H : Host} {OS : Os}.

Definition initSchema : M Z :=
  exec ddl ;;
  versionText ← query (λ d, db_meta d !! "schema_version");
  match versionText with
  | None =>
      exec (λ d, (tt, match db_meta d !! "schema_version" with
                      | Some _ => d
                      | None => set_meta (<["schema_version" := "1"]> (db_meta d)) d
                      end)) ;;
      mret 1
  | Some text =>
      match Sscanf_d text with
      | None => fail ErrParse
      | Some version =>
          if schemaVersion_const <? version then fail ErrSchemaVersion else mret version
      end
  end.

(** [isSQLiteBusy]: a driver error at the step that failed. *)
Definition isSQLiteBusy (e : error) : M bool := λ w,
  (Ok (bool_decide (e = ErrDatabase) && is_busy (w_step w)), w).

Fixpoint init_loop (attempts : nat) : M Z :=
  match attempts with
  | O => fail ErrDatabase                       (* the last error, after 25 attempts *)
  | S attempts =>
      r ← attempt initSchema;
      match r with
      | inr version => mret version
      | inl e =>
          busy ← isSQLiteBusy e;
          if negb busy then fail e
          else Sleep (20 * Millisecond) ;; init_loop attempts
      end
  end.
Definition initSchemaWithRetry : M Z := init_loop initMaxAttempts.

Definition detectJSON1 : bool :=
  match LookupEnv forceJSONFallbackEnv with
  | Some (String _ _) => false
  | _ => has_json1
  end.

Definition New (opts : list Option_) : M Cache :=
  let o := foldl apply_option default_options opts in
  publish ← lift (validOps (o_publishOps o));
  if o_eventRetention o <=? 0 then fail ErrInvalidArgument
  else if (o_eventMaxCount o <? 0) || (o_changeKeyCap o <? 0) then fail ErrInvalidArgument
  else
    p ← lift (if String.eqb (o_path o) "" then DefaultPath else expandHome (o_path o));
    let dir := Dir p in
    if negb (String.eqb dir ".") && negb (String.eqb dir separator) && negb (MkdirAll dir)
    then fail ErrInvalidArgument
    else
      version ← initSchemaWithRetry;
      mod_proc (λ _, init_proc) ;;
      mret (MkCache p (o_namespace o) version (o_maxKeys o) (o_maxBytes o) (o_eviction o)
              (o_strict o) (o_sweepInterval o) detectJSON1 publish (o_eventRetention o)
              (o_eventMaxCount o) (o_changeKeyCap o)).

Definition Path (c : Cache) : string := path c.
Definition SchemaVersion (c : Cache) : Z := schemaVersion c.

(** [Close]: the body of [closeOnce.Do], for a Cache that is still open.
    Subscriptions end (their own [Close] is modelled in [Subscription]), the
    dispatcher is closed and dropped, and the buffered LRU updates are
    written. *)
Definition Close (c : Cache) (closed : bool) : M bool :=
  if closed then mret true
  else
    mod_proc (set_wake ∅) ;;
    close_listeners ;;
    mod_proc (set_dispatcher None) ;;
    flushLRUBuffer c ;;
    mret true.
End open.

(** ** Lemmas *)

Section open_lemmas.
Context {H : Host} {OS : Os}.

(** What opening writes: the version of a file that has none. *)
Definition records_version (d d' : Database) : Prop :=
  d' = d ∨
  db_meta d !! "schema_version" = None ∧ d' = set_meta (<["schema_version" := "1"]> (db_meta d)) d.

#[global] Instance records_version_preorder : PreOrder records_version.
Proof.
  split; [by left|]. intros d1 d2 d3 [->|[Hn ->]] [->|[Hn' ->]]; [by left|by right..|].
  simpl in Hn'. by rewrite lookup_insert_eq in Hn'.
Qed.

Section keeps_New.
Context (R : Database → Database → Prop) `{!Tolerates R} (HR : ∀ d d', records_version d d' → R d d').

Lemma initSchema_keeps : keeps R initSchema.
Proof using Type*.
  unfold initSchema. keeps_solve; apply HR; [by left|]. simpl.
  destruct (db_meta d !! "schema_version") eqn:Hv; [by left|by right].
Qed.

Lemma init_loop_keeps n : keeps R (init_loop n).
Proof using Type*.
  pose proof initSchema_keeps. pose proof tol_pre. induction n as [|n IH]; cbn [init_loop]; keeps_solve; try done.
  intros w. simpl. reflexivity.
Qed.

Lemma New_keeps opts : keeps R (New opts).
Proof using Type*. pose proof (init_loop_keeps initMaxAttempts). unfold New, initSchemaWithRetry. keeps_solve; done. Qed.
End keeps_New.

Lemma initSchema_no_hang : no_hang initSchema.
Proof. unfold initSchema. returns_solve. Qed.

Lemma init_loop_no_hang n : no_hang (init_loop n).
Proof.
  pose proof initSchema_no_hang.
  induction n as [|n IH]; cbn [init_loop]; [apply no_hang_fail|].
  apply no_hang_bind; [by apply no_hang_returns, returns_attempt|]. intros [e|v].
  - apply no_hang_bind; [by intros w|]. intros [].
    + cbn [negb]. apply no_hang_bind; [by intros w|done].
    + apply no_hang_fail.
  - apply no_hang_returns, returns_ret.
Qed.

Lemma New_no_hang opts : no_hang (New opts).
Proof.
  pose proof (init_loop_no_hang initMaxAttempts) as Hi. unfold New, initSchemaWithRetry.
  assert (∀ x, validOps x ≠ Hang) as Hv.
  { intros x. unfold validOps. by repeat case_match. }
  assert (∀ x, expandHome x ≠ Hang) as He.
  { intros x. unfold expandHome. by repeat case_match. }
  assert (DefaultPath ≠ Hang) as Hd.
  { unfold DefaultPath, projectID. destruct (LookupEnv _) as [[]|]; [|apply He|];
      destruct UserCacheDir, Getwd; done. }
  apply no_hang_bind; [intros w; simpl; apply Hv|]. intros ops.
  repeat (destruct (_ <=? _); [apply no_hang_fail|]).
  destruct (_ || _); [apply no_hang_fail|].
  apply no_hang_bind; [intros w; simpl; destruct (String.eqb _ _); auto|]. intros p.
  destruct (negb _ && _ && _); [apply no_hang_fail|].
  apply no_hang_bind; [done|]. intros v. apply no_hang_returns. returns_solve.
Qed.
(** The version that [New] finds in a file: what the file says, or the first one
    where it says nothing yet. *)
Definition finds_version (d : Database) (v : Z) : Prop :=
  match db_meta d !! "schema_version" with Some text => Sscanf_d text = Some v | None => v = 1 end ∧
  v ≤ schemaVersion_const.

#[local] Instance turns_preorder : PreOrder (by_turns records_version).
Proof. apply tol_pre. Qed.
Lemma turns_refresh w : by_turns records_version (w_db w) (refresh w).
Proof. unfold refresh. destruct (w_intx w); [reflexivity|apply tol_interfere]. Qed.

Lemma initSchema_finds w : wp initSchema w (λ r w', ∀ v, r = Ok v →
  ∃ d, by_turns records_version (w_db w) d ∧ by_turns records_version d (w_db w') ∧ finds_version d v).
Proof.
  pose proof (turns_refresh w) as H1. set (w1 := advance 0 (with_db (refresh w) w)).
  change (refresh w) with (w_db w1) in H1. pose proof (turns_refresh w1) as H2. set (d := refresh w1) in *.
  unfold initSchema. any_go; try by intros v. change (refresh (advance 0 (with_db (ddl (refresh w)).2 w))) with d.
  destruct (db_meta d !! "schema_version") as [text|] eqn:Ht; any_go; try by intros v.
  - destruct (Sscanf_d text) as [v|] eqn:Hv; any_go; try by intros ?.
    destruct (Z.ltb_spec schemaVersion_const v); any_go; try by intros ?.
    intros ? [= <-]. exists d. split; [by etrans|]. split; [reflexivity|]. unfold finds_version. by rewrite Ht.
  - intros ? [= <-]. exists d. split; [by etrans|]. split; [|unfold finds_version; by rewrite Ht].
    set (w2 := advance 0 (with_db d w1)). change (by_turns records_version (w_db w2) (w_db (advance 0 (with_db
      ((λ d, (tt, match db_meta d !! "schema_version" with Some _ => d
         | None => set_meta (<["schema_version" := "1"]> (db_meta d)) d end)) (refresh w2)).2 w2)))).
    etrans; [apply (turns_refresh w2)|]. apply by_turns_own. simpl.
    destruct (db_meta (refresh w2) !! "schema_version") eqn:Hv; [by left|by right].
Qed.

Lemma init_loop_finds n w : wp (init_loop n) w (λ r w', ∀ v, r = Ok v →
  ∃ d, by_turns records_version (w_db w) d ∧ by_turns records_version d (w_db w') ∧ finds_version d v).
Proof.
  revert w. induction n as [|n IH]; intros w; cbn [init_loop]; [by intros v|].
  pose proof (initSchema_finds w) as Hi. pose proof (initSchema_keeps (by_turns records_version) (by_turns_own _) w) as Hk.
  unfold wp, mbind, M_bind, attempt in *. destruct (initSchema w) as [[v|e|] w1]; simpl in *; [done| |done].
  destruct (_ && _); simpl; [|done]. unfold Sleep. intros v Hv.
  destruct (IH (advance (Z.max 0 (20 * Millisecond)) w1) v Hv) as (d & Hd & Hrest). exists d. split; [by etrans|done].
Qed.
End open_lemmas.

(** C18: opening never damages a file. Whatever the driver fails and whatever
    other processes do meanwhile, opening the same new file included, [New]
    returns, and all that it writes is the version of a file that has none: the
    file changes only by the commits of others and by that. On success the
    version the handle reports is the one the file had at a moment of the call
    (the first, if it then had none), and one this library understands; the
    options are valid and the process starts with empty books. (Another process
    may record a newer version after that moment.) *)
Theorem New_safe `{H : Host} `{OS : Os} (opts : list Option_) (w : World) :
  (New opts w).1 ≠ Hang ∧
  by_turns records_version (w_db w) (w_db (New opts w).2) ∧
  ∀ c, (New opts w).1 = Ok c →
    (∃ d, by_turns records_version (w_db w) d ∧ by_turns records_version d (w_db (New opts w).2) ∧
       finds_version d (SchemaVersion c)) ∧
    SchemaVersion c ≤ schemaVersion_const ∧ 0 < eventRetention c ∧ 0 ≤ eventMaxCount c ∧
    0 ≤ changeKeyCap c ∧ Forall (λ op, op ∈ [OpSet; OpDelete; OpFlush]) (publishOps c) ∧
    w_proc (New opts w).2 = init_proc.
Proof.
  split; [apply New_no_hang|]. split; [apply (New_keeps (by_turns records_version)), by_turns_own|].
  intros c. unfold New. set (o := foldl apply_option default_options opts).
  unfold mbind, M_bind, lift. destruct (validOps (o_publishOps o)) as [ops| |] eqn:Hops; try done.
  destruct (Z.leb_spec (o_eventRetention o) 0); [done|].
  destruct (Z.ltb_spec (o_eventMaxCount o) 0); [done|]. destruct (Z.ltb_spec (o_changeKeyCap o) 0); [done|].
  cbn [orb]. destruct (if String.eqb (o_path o) "" then _ else _) as [p| |]; try done.
  destruct (negb _ && negb _ && _); [done|].
  pose proof (init_loop_finds initMaxAttempts w) as Hver. unfold wp in Hver. fold initSchemaWithRetry in Hver.
  destruct (initSchemaWithRetry w) as [[v|e|] w1]; try done. simpl in *.
  destruct (Hver v eq_refl) as (d & Hd & Hd' & Hf).
  intros [= <-]. simpl. split; [by exists d|]. split_and!; try done; [apply Hf|].
  unfold validOps in Hops. destruct (forallb _ _) eqn:Hall; [|done]. injection Hops as <-.
  apply Forall_forall. intros op. rewrite elem_of_remove_dups. intros Hop. rewrite forallb_forall in Hall.
  apply list_elem_of_In, Hall in Hop. rewrite !orb_true_iff, !String.eqb_eq in Hop. set_solver.
Qed.

(** A Linux-like environment. *)
Definition toy_os (env : string → option string) (busy : nat → bool) : Os :=
  {| LookupEnv := env; UserCacheDir := Some "/home/u/.cache"; UserHomeDir := Some "/home/u";
     Getwd := Some "/srv/app"; EvalSymlinks := Some; Join := String.concat "/"; Dir := λ _, "/tmp";
     MkdirAll := λ _, true; sha256_hex := λ s, "0123456789abcdef" +:+ s; has_json1 := true;
     is_busy := busy; Sscanf_d := ParseInt |}.

(** Two processes open a new file: the first schema statement finds it busy, and
    before the second attempt records the version the other has done so and
    stored a row. *)
Definition rival_db : Database :=
  set_cache {[("default", "k") := Row "v" typeString 7 None 7 0 1]} empty_db.
Definition busy_host : Host :=
  {| clock := λ _, 7; elapse := λ _, 0%N; fault := Nat.eqb 0;
     interfere := λ n d, if Nat.eqb n 4 then rival_db else d;
     scan := id; scan_perm := λ l, reflexivity l; shuffle := id; shuffle_perm := λ l, reflexivity l;
     glob := String.eqb |}.

Lemma New_safe_witness :
  let H := busy_host in let OS := toy_os (λ _, None) (λ _, true) in
  let w := init_world (Db ∅ ∅ None) in
  is_ok (New [WithPath "/tmp/x.db"] w).1 = true ∧
  w_db (New [WithPath "/tmp/x.db"] w).2 = rival_db ∧
  (New [WithPath "/tmp/x.db"] w).1 ≠ Hang ∧
  by_turns records_version (w_db w) (w_db (New [WithPath "/tmp/x.db"] w).2).
Proof.
  intros H OS w. split; [vm_compute; reflexivity|]. split; [vm_compute; reflexivity|].
  destruct (@New_safe H OS [WithPath "/tmp/x.db"] w) as (Hh & Hs & _).
  split; [exact Hh|exact Hs].
Defined.

(** A newer library creates the file between the two statements on the version:
    the handle reports version 1, the file says 2, and [New] succeeds. *)
Example version_race :
  let H := race_host 7 2 (set_meta {["schema_version" := "2"]}) in let OS := toy_os (λ _, None) (λ _, false) in
  let '(r, w) := New [WithPath "/tmp/x.db"] (init_world (Db ∅ ∅ None)) in
  SchemaVersion <$> r = Ok 1 ∧ db_meta (w_db w) !! "schema_version" = Some "2".
Proof. vm_compute. done. Qed.

(** A file written by a newer library is refused with [ErrSchemaVersion] and left
    exactly as it is. *)
Theorem New_refuses_newer `{H : Host} `{OS : Os} `{!Quiet H} (opts : list Option_) (w : World)
    (text : string) (v : Z) (p : string) :
  let o := foldl apply_option default_options opts in
  is_ok (validOps (o_publishOps o)) = true → 0 < o_eventRetention o → 0 ≤ o_eventMaxCount o →
  0 ≤ o_changeKeyCap o → o_path o ≠ "" → expandHome (o_path o) = Ok p → MkdirAll (Dir p) = true →
  db_meta (w_db w) !! "schema_version" = Some text → Sscanf_d text = Some v → schemaVersion_const < v →
  ∃ w', New opts w = (Err ErrSchemaVersion, w') ∧ w_db w' = w_db w.
Proof.
  intros o Hops Hret Hmax Hcap Hpath Hexp Hdir Hmeta Htext Hv.
  assert (wp (New opts) w (λ r w', r = Err ErrSchemaVersion ∧ w_db w' = w_db w)) as [Hr Hd].
  { unfold New. fold o. wp_go. destruct (validOps (o_publishOps o)); try done.
    rewrite (proj2 (Z.leb_gt _ _)), !(proj2 (Z.ltb_ge _ _)) by done. cbn [orb]. wp_go.
    rewrite (proj2 (String.eqb_neq _ _)), Hexp, Hdir by done. rewrite andb_false_r.
    apply wp_bind. unfold initSchemaWithRetry, initMaxAttempts. cbn [init_loop]. unfold initSchema.
    wp_go. simpl. rewrite Hmeta, Htext, (proj2 (Z.ltb_lt _ _)) by done. wp_go.
    unfold isSQLiteBusy. rewrite bool_decide_false by done. simpl.
    wp_go. by destruct (w_db w). }
  exists (New opts w).2. split; [|done]. rewrite <- Hr. by destruct (New opts w).
Qed.

Lemma New_refuses_newer_witness :
  let H := still_host 7 in let OS := toy_os (λ _, None) (λ _, false) in
  let w := init_world (set_meta {["schema_version" := "2"]} empty_db) in
  ∃ w', New [WithPath "/tmp/x.db"] w = (Err ErrSchemaVersion, w') ∧ w_db w' = w_db w.
Proof.
  intros H OS w.
  apply (@New_refuses_newer H OS (still_quiet 7) [WithPath "/tmp/x.db"] w "2" 2 "/tmp/x.db"); done.
Defined.

(** The default location: [LYTECACHE_PATH] wins when it is set and not empty, with a
    leading [~] expanded and a relative path left alone; otherwise the file is
    named by twelve characters that depend only on the resolved working
    directory. *)
Theorem DefaultPath_location `{OS : Os} :
  (∀ p, p ≠ "" → LookupEnv envPathOverride = Some p → p ≠ "~" → HasPrefix p "~/" = false → DefaultPath = Ok p) ∧
  (∀ home rest, LookupEnv envPathOverride = Some ("~/" +:+ rest) → UserHomeDir = Some home →
     DefaultPath = Ok (Join [home; rest])) ∧
  (∀ dir cwd, LookupEnv envPathOverride = None ∨ LookupEnv envPathOverride = Some "" →
     UserCacheDir = Some dir → Getwd = Some cwd →
     DefaultPath = Ok (Join [dir; "lytecache";
       take_str 12 (sha256_hex (default cwd (EvalSymlinks cwd))) +:+ ".db"])).
Proof.
  unfold DefaultPath, expandHome, projectID. split_and!.
  - intros p Hne -> Htilde Hpre. destruct p as [|a p]; [done|].
    rewrite Hpre. by rewrite (proj2 (String.eqb_neq _ _)) by done.
  - intros home rest -> ->. rewrite !str_app_cons, str_app_nil.
    by destruct rest.
  - intros dir cwd [-> | ->] -> ->; done.
Qed.

(** The variable set to a home path, and not set at all. *)
Lemma DefaultPath_location_witness :
  @DefaultPath (toy_os (λ _, Some ("~/" +:+ "c.db")) (λ _, false)) = Ok "/home/u/c.db" ∧
  @DefaultPath (toy_os (λ _, None) (λ _, false)) = Ok "/home/u/.cache/lytecache/0123456789ab.db".
Proof.
  split.
  - apply (proj1 (proj2 (@DefaultPath_location (toy_os (λ _, Some ("~/" +:+ "c.db")) (λ _, false))))
             "/home/u" "c.db"); reflexivity.
  - apply (proj2 (proj2 (@DefaultPath_location (toy_os (λ _, None) (λ _, false))))
             "/home/u/.cache" "/srv/app"); [left|..]; reflexivity.
Defined.

(** ** Close *)

(** A read's bookkeeping on its row. *)
Definition flushed (u : Z * Z) (r : row) : row :=
  Row (value r) (value_type r) (created_at r) (expires_at r) u.1 (access_count r + u.2) (size_bytes r).

Section close.
Context {H : Host} `{HQ : !Quiet H}.

Lemma flush_all_exact ns l w (Q : result () → World → Prop) :
  (∀ w', db_cache (w_db w') = foldl (λ t p, (flush_row ns p.1 p.2 t).2) (db_cache (w_db w)) l →
     w_proc w' = w_proc w → Q (Ok tt) w') →
  wp (flush_all ns l) w Q.
Proof using HQ.
  revert w. induction l as [|[key u] l IH]; intros w HQ'; [by apply wp_ret, HQ'|].
  cbn [flush_all]. wp_go. apply IH. intros w' Hc Hp. apply HQ'; [exact Hc|exact Hp].
Qed.

Lemma flush_fold_lookup ns l t n k : NoDup l.*1 →
  foldl (λ t p, (flush_row ns p.1 p.2 t).2) t l !! (n, k) =
  if decide (n = ns) then
    match (list_to_map l : gmap string (Z * Z)) !! k with
    | Some u => flushed u <$> t !! (n, k)
    | None => t !! (n, k)
    end
  else t !! (n, k).
Proof using Type.
  revert t. induction l as [|[key u] l IH]; intros t Hnd; cbn [foldl]; [by case_decide|].
  apply NoDup_cons in Hnd as [Hni Hnd]. rewrite IH by done. unfold flush_row. cbn [fst snd].
  rewrite !update_at_lookup. cbn [list_to_map foldr fst snd uncurry].
  destruct (decide (n = ns)) as [->|Hn]; [|by rewrite decide_False by congruence].
  destruct (decide (key = k)) as [->|Hk].
  - rewrite decide_True, lookup_insert_eq by done.
    rewrite (not_elem_of_list_to_map_1 l k) by done. done.
  - rewrite decide_False, lookup_insert_ne by congruence. done.
Qed.
End close.

(** Closing loses no bookkeeping: after [Close] the last-access times and counts of
    the reads still in the buffer are on their rows, values and expiries are
    unchanged, other namespaces are untouched, every subscription and listener
    is gone, and a second [Close] does nothing. *)
Theorem Close_persists `{H : Host} `{!Quiet H} (c : Cache) (w : World) :
  ∃ w', Close c false w = (Ok true, w') ∧
    (∀ n k, db_cache (w_db w') !! (n, k) =
       if decide (n = namespace c) then
         match p_lruBuffer (w_proc w) !! k with
         | Some u => flushed u <$> db_cache (w_db w) !! (n, k)
         | None => db_cache (w_db w) !! (n, k)
         end
       else db_cache (w_db w) !! (n, k)) ∧
    p_lruBuffer (w_proc w') = ∅ ∧ p_dispatcher (w_proc w') = None ∧ p_wake (w_proc w') = ∅ ∧
    Close c true w' = (Ok true, w').
Proof.
  assert (wp (Close c false) w (λ r w', r = Ok true ∧
    (∀ n k, db_cache (w_db w') !! (n, k) =
       if decide (n = namespace c) then
         match p_lruBuffer (w_proc w) !! k with
         | Some u => flushed u <$> db_cache (w_db w) !! (n, k)
         | None => db_cache (w_db w) !! (n, k)
         end
       else db_cache (w_db w) !! (n, k)) ∧
    p_lruBuffer (w_proc w') = ∅ ∧ p_dispatcher (w_proc w') = None ∧ p_wake (w_proc w') = ∅)) as Hwp.
  { unfold Close, close_listeners, flushLRUBuffer. wp_go. simpl. case_bool_decide as He; wp_go.
    - rewrite He. split_and!; try done. intros n k. by case_decide.
    - unfold Prepare. wp_go. apply flush_all_exact. intros w' Hc Hp. wp_go. simpl in *.
      rewrite Hp. split_and!; try done. intros n k. rewrite Hc, flush_fold_lookup by apply NoDup_fst_map_to_list.
      by rewrite list_to_map_to_list. }
  destruct Hwp as (Hr & Hrest). exists (Close c false w).2.
  split; [rewrite <- Hr; by destruct (Close c false w)|]. by destruct Hrest as (? & ? & ? & ?).
Qed.

Lemma Close_persists_witness :
  let _ := still_host 7 in
  let r := Row "x" typeString 0 None 0 3 1 in
  let w := with_proc (set_lru {["k" := (50, 2)]} init_proc) (init_world (set_cache {[("default", "k") := r]} empty_db)) in
  ∃ w', Close (demo_cache "default") false w = (Ok true, w') ∧
    db_cache (w_db w') !! ("default", "k") = Some (Row "x" typeString 0 None 50 5 1).
Proof.
  intros host r w.
  destruct (@Close_persists host (still_quiet 7) (demo_cache "default") w) as (w' & Hr & Hl & _).
  exists w'. split; [exact Hr|]. rewrite Hl. vm_compute. reflexivity.
Defined.
