(* ===== verification/HashDoc.v ===== *)
(** Hash documents: the order-preserving JSON object of [lytecache-go/hash.go]
    (the fallback path), its text, and the JSON functions of the two libraries
    the program reads documents with: Go's [encoding/json] and SQLite's JSON1.

    [JsonText] and [SqliteJson] are the parts of these two that the program
    calls; [JsonTextLaws] and [SqliteJsonLaws] state what their documentation says
    about them and the theorems use. *)

From S2P Require Import Prelude GoStd Values.
Open Scope Z_scope.

(** ** The ordered object *)

Module jsonObject.
(** A field is a name and the exact JSON text of its value. *)
Definition t : Type := list (string * string).

(** The position of the first field of that name ([-1] in Go: [None]). *)
Fixpoint index (o : t) (k : string) : option nat :=
  match o with
  | [] => None
  | f :: o => if bool_decide (f.1 = k) then Some 0%nat else S <$> index o k
  end.

Definition has (o : t) (k : string) : bool := bool_decide (is_Some (index o k)).

Definition get (o : t) (k : string) : option string :=
  i ← index o k; snd <$> o !! i.

Definition set (o : t) (k v : string) : t :=
  match index o k with
  | Some i => alter (λ f, (f.1, v)) i o
  | None => o ++ [(k, v)]
  end.

Definition del (o : t) (k : string) : bool * t :=
  match index o k with
  | None => (false, o)
  | Some i => (true, delete i o)
  end.

Definition set_all (o : t) (l : list (string * string)) : t :=
  foldl (λ o p, set o p.1 p.2) o l.

(** Delete several names; how many were there. *)
Fixpoint del_all (o : t) (ks : list string) : nat * t :=
  match ks with
  | [] => (0%nat, o)
  | k :: ks =>
      let '(b, o1) := del o k in
      let '(n, o2) := del_all o1 ks in
      ((if b then S n else n), o2)
  end.

Section lemmas.
Implicit Types o : t.

Lemma index_Some o k i : index o k = Some i → ∃ v, o !! i = Some (k, v).
Proof.
  revert i. induction o as [|[k' v] o IH]; intros i; simpl; [done|].
  case_bool_decide; intros Hi; simplify_eq; [by exists v|].
  apply fmap_Some in Hi as (j & Hj & ->). by apply IH in Hj.
Qed.

Lemma index_None o k : index o k = None ↔ k ∉ o.*1.
Proof.
  induction o as [|[k' v] o IH]; cbn [index fmap list_fmap fst]; [split; [set_solver|done]|].
  case_bool_decide as Hk; [subst; split; [done|set_solver]|].
  rewrite fmap_None, IH. set_solver.
Qed.

Lemma get_cons k0 v0 o k : get ((k0, v0) :: o) k = if decide (k0 = k) then Some v0 else get o k.
Proof.
  unfold get. simpl. case_decide; [by rewrite bool_decide_true|]. rewrite bool_decide_false by done.
  by destruct (index o k).
Qed.

Lemma set_cons k0 v0 o k v :
  set ((k0, v0) :: o) k v = if decide (k0 = k) then (k0, v) :: o else (k0, v0) :: set o k v.
Proof.
  unfold set. simpl. case_decide; [by rewrite bool_decide_true|]. rewrite bool_decide_false by done.
  by destruct (index o k).
Qed.

Lemma del_cons k0 v0 o k :
  del ((k0, v0) :: o) k =
  if decide (k0 = k) then (true, o) else ((del o k).1, (k0, v0) :: (del o k).2).
Proof.
  unfold del. simpl. case_decide; [by rewrite bool_decide_true|]. rewrite bool_decide_false by done.
  by destruct (index o k).
Qed.

Lemma get_set o k v k' : get (set o k v) k' = if decide (k = k') then Some v else get o k'.
Proof.
  induction o as [|[k0 v0] o IH]; [apply get_cons|]. rewrite set_cons.
  repeat (case_decide || rewrite get_cons); subst; congruence.
Qed.

Lemma get_None o k : get o k = None ↔ k ∉ o.*1.
Proof.
  unfold get. rewrite <- index_None. destruct (index o k) as [i|] eqn:Hi; [|done].
  simpl. apply index_Some in Hi as [v ->]. done.
Qed.

Lemma get_elem o k v : get o k = Some v → (k, v) ∈ o.
Proof.
  unfold get. destruct (index o k) as [i|] eqn:Hi; simpl; [|done].
  apply index_Some in Hi as [v' Hv']. rewrite Hv'. simpl. intros [= <-].
  by apply list_elem_of_lookup_2 in Hv'.
Qed.

Lemma has_get o k : has o k = bool_decide (is_Some (get o k)).
Proof.
  unfold has, get. destruct (index o k) as [i|] eqn:Hi; [|done].
  apply index_Some in Hi as [v Hv]. simpl. by rewrite Hv.
Qed.

Lemma set_names o k v : (set o k v).*1 = if has o k then o.*1 else o.*1 ++ [k].
Proof.
  rewrite has_get. induction o as [|[k0 v0] o IH]; [done|]. rewrite set_cons, get_cons.
  case_decide; [done|]. cbn [fmap list_fmap fst] in *. rewrite IH. by case_bool_decide.
Qed.

Lemma NoDup_set o k v : NoDup o.*1 → NoDup (set o k v).*1.
Proof.
  intros Hnd. rewrite set_names. unfold has. case_bool_decide as Hk; [done|].
  apply NoDup_app. split; [done|]. split; [|apply NoDup_singleton].
  intros x Hx ->%list_elem_of_singleton. apply Hk.
  destruct (index o k) eqn:Hi; [by eexists|]. by apply index_None in Hi.
Qed.

Lemma elem_of_set o k v p : p ∈ set o k v → p ∈ o ∨ p = (k, v).
Proof.
  induction o as [|[k0 v0] o IH]; [set_solver|]. rewrite set_cons. case_decide; set_solver.
Qed.

Lemma del_sublist o k : (del o k).2 `sublist_of` o.
Proof. unfold del. destruct (index o k) as [i|]; simpl; [apply sublist_delete|done]. Qed.

Lemma get_del o k k' : NoDup o.*1 →
  get (del o k).2 k' = if decide (k = k') then None else get o k'.
Proof.
  induction o as [|[k0 v0] o IH]; [by case_decide|].
  cbn [fmap list_fmap fst]. intros [Hni Hnd]%NoDup_cons. rewrite del_cons, get_cons.
  destruct (decide (k0 = k)); cbn [snd]; [|rewrite get_cons, IH by done]; repeat case_decide; subst; try congruence.
  by apply get_None.
Qed.
End lemmas.
End jsonObject.

Abbreviation jsonObject := jsonObject.t.

(** ** JSON text in Go *)

(** What the program uses of [encoding/json] on text:
    - [Encode v]: what [Encoder.Encode] writes with HTML escaping off;
    - [Valid]: [json.Valid];
    - [Members]: for the text of an object, the names and values a [Decoder]
      returns after the opening brace until [More] is false, [None] if it fails;
    - [Compact]: what [json.Compact] appends.
    [json_text] is a complete JSON value without white space, [name_ok] a
    string that is valid UTF-8, and so survives as a JSON string, and has no
    zero byte, which would end a path of SQLite. *)
Class JsonText (GL : GoLib) := {
  Encode : any → option string;
  Valid : string → bool;
  Members : string → option (list (string * string));
  Compact : string → string;
  json_text : string → bool;
  name_ok : string → bool
}.

Section text.
Context {GL : GoLib} {JT : JsonText GL}.

Definition encodeHashValue (value : any) : result string :=
  match value with
  | GBytes _ => Err ErrSerialization
  | _ => match Encode value with
         | None => Err ErrSerialization
         | Some buf => Ok (TrimRightNewline buf)
         end
  end.

(** The name of a field as text; its encoding error is ignored. *)
Definition encode_name (k : string) : string :=
  match encodeHashValue (GString k) with Ok s => s | _ => "" end.

Definition colon : ascii := ":".

Fixpoint marshal_fields (first : bool) (o : jsonObject) : string :=
  match o with
  | [] => ""
  | f :: o =>
      (if first then "" else ",") +:+ encode_name f.1 +:+ ":" +:+ Compact f.2 +:+
      marshal_fields false o
  end.
Definition marshal (o : jsonObject) : string := "{" +:+ marshal_fields true o +:+ "}".

(** The object, or the type of a valid root that is no object. *)
Definition parseJSONObject (data : string) : result (string + jsonObject) :=
  if negb (Valid data) then Err ErrParse
  else
    match TrimSpace data with
    | String "[" _ => Ok (inl "array")
    | String "034" _ => Ok (inl "text")
    | String "t" _ => Ok (inl "true")
    | String "f" _ => Ok (inl "false")
    | String "n" _ => Ok (inl "null")
    | String "{" _ =>
        match Members (TrimSpace data) with
        | None => Err ErrParse
        | Some l => Ok (inr (jsonObject.set_all [] l))
        end
    | _ => Ok (inl "number")
    end.

Definition parseJSONInt (raw : string) : option Z :=
  let s := TrimSpace raw in
  if ContainsAny s ".eE" then None else ParseInt s.

Definition parseJSONNumber (raw : string) : option float :=
  match TrimSpace raw with
  | EmptyString => None
  | String a _ as s =>
      if negb (bool_decide (a = "-"%char)) && bool_decide (digit_val a = None) then None
      else ParseFloat s
  end.

Definition formatJSONFloat (f : float) : string :=
  let s := FormatFloat f in
  if ContainsAny s ".eE" then s else s +:+ ".0".

(** The fields of a document, in order. *)
Definition members (data : string) : option jsonObject :=
  match parseJSONObject data with
  | Ok (inr o) => Some o
  | _ => None
  end.
End text.

(** The text of an object whose names and values are given, as the JSON
    grammar builds it. *)
Definition object_text `{JsonText} (o : jsonObject) : string :=
  "{" +:+ String.concat "," ((λ p, encode_name p.1 +:+ ":" +:+ p.2) <$> o) +:+ "}".

Definition field_ok `{JsonText} (p : string * string) : Prop :=
  name_ok p.1 = true ∧ json_text p.2 = true.

Class JsonTextLaws {GL : GoLib} (JT : JsonText GL) : Prop := {
  encode_text v buf : Encode v = Some buf → json_text (TrimRightNewline buf) = true;
  text_trim t : json_text t = true → TrimSpace t = t;
  text_compact t : json_text t = true → Compact t = t;
  decode_object o : Forall field_ok o → Valid (object_text o) = true ∧ Members (object_text o) = Some o;
  decode_fields d l : Members d = Some l →
    Forall (λ p, name_ok p.1 = true ∧ json_text (Compact p.2) = true) l
}.

(** ** The JSON functions of SQLite *)

Inductive sqlval (F : Type) := SqlNull | SqlInt (n : Z) | SqlReal (f : F) | SqlText (s : string).
Arguments SqlNull {_}.
Arguments SqlInt {_} _.
Arguments SqlReal {_} _.
Arguments SqlText {_} _.

(** The SQL functions on a document [d] and the path of a field name [f]:
    - [json_root d]: [CASE WHEN json_valid(d) THEN json_type(d) END];
    - [json_each d]: the keys of [json_each(d)] with [d -> fullkey];
    - [json_set d f v]: [json_set(d, path, json(v))], and [json_remove];
    - [json_object f v]: [json_object(f, json(v))];
    - [json_arrow], [json_type_at], [json_extract]: [d -> path],
      [json_type(d, path)], [json_extract(d, path)];
    - [json_type t]: [json_type] of a value's text;
    - [json_real x]: [json()] of the text the code prints for the REAL [x];
    - [bound_real x]: how [json_object] renders a bound REAL;
    - [real_add]: IEEE addition, the same in SQLite and in Go. *)
Class SqliteJson (GL : GoLib) := {
  json_root : string → option string;
  json_each : string → list (string * string);
  json_set : string → string → string → string;
  json_remove : string → string → string;
  json_object : string → string → string;
  json_arrow : string → string → option string;
  json_type_at : string → string → option string;
  json_extract : string → string → sqlval float;
  json_type : string → string;
  json_real : float → string;
  bound_real : float → string;
  real_add : float → float → float
}.

(** SQLite and Go read the document [d] alike: both find an object with the
    same fields in the same order, or neither finds an object. It holds of the
    documents this library writes. It fails for a document with a repeated name,
    of which Go keeps the last value and SQLite's paths find the first, and for
    values with inner white space, which only Go's raw text keeps. *)
Definition agree `{GL : GoLib} `{JT : !JsonText GL} `{SJ : !SqliteJson GL} (d : string) : Prop :=
  match members d with
  | Some l => Forall field_ok l ∧ json_root d = Some "object" ∧ json_each d = l
  | None => json_root d ≠ Some "object"
  end.

(** The laws are about calls that return: a name with a zero byte is a malformed
    path, and the statement fails. *)
Class SqliteJsonLaws {GL : GoLib} (JT : JsonText GL) (SJ : SqliteJson GL) : Prop := {
  json_set_law d l f v : agree d → members d = Some l → name_ok f = true → json_text v = true →
    agree (json_set d f v) ∧ members (json_set d f v) = Some (jsonObject.set l f v);
  json_remove_law d l f : agree d → members d = Some l →
    agree (json_remove d f) ∧ members (json_remove d f) = Some (jsonObject.del l f).2;
  json_object_law f v : name_ok f = true → json_text v = true →
    agree (json_object f v) ∧ members (json_object f v) = Some [(f, v)];
  json_read_law o : Forall field_ok o → NoDup o.*1 →
    json_root (object_text o) = Some "object" ∧ json_each (object_text o) = o;
  json_arrow_law d l f : agree d → members d = Some l → json_arrow d f = jsonObject.get l f;
  json_type_law d l f : agree d → members d = Some l →
    json_type_at d f = json_type <$> jsonObject.get l f;
  json_extract_law d l f : agree d → members d = Some l →
    match jsonObject.get l f with
    | None => json_extract d f = SqlNull
    | Some t => json_type t = "integer" →
        match ParseInt t with
        | Some n => json_extract d f = SqlInt n
        | None => ∃ x, json_extract d f = SqlReal x    (* beyond 64 bits *)
        end
    end;
  json_type_int n : json_type (FormatInt n) = "integer" ∧ json_text (FormatInt n) = true;
  json_integer_text t : json_type t = "integer" → ContainsAny t ".eE" = false;
  json_other_text t : json_text t = true → json_type t ≠ "integer" →
    ContainsAny t ".eE" = true ∨ ParseInt t = None
}.

(** ** Documents *)

Lemma set_all_app l1 l2 o : jsonObject.set_all o (l1 ++ l2) = jsonObject.set_all (jsonObject.set_all o l1) l2.
Proof. apply foldl_app. Qed.

Lemma set_all_fresh (o l : jsonObject) :
  NoDup (o ++ l).*1 → jsonObject.set_all o l = o ++ l.
Proof.
  revert o. induction l as [|[k v] l IH]; intros o Hnd.
  { by rewrite app_nil_r. }
  assert (jsonObject.set o k v = o ++ [(k, v)]) as Hset.
  { unfold jsonObject.set. rewrite (proj2 (jsonObject.index_None o k)); [done|].
    rewrite fmap_app in Hnd. apply NoDup_app in Hnd as (_ & Hd & _). intros Hk.
    apply (Hd k Hk). simpl. left. }
  change (jsonObject.set_all o ((k, v) :: l)) with (jsonObject.set_all (jsonObject.set o k v) l).
  rewrite Hset, IH; by rewrite <- app_assoc.
Qed.

Lemma NoDup_set_all o l : NoDup o.*1 → NoDup (jsonObject.set_all o l).*1.
Proof.
  revert o. induction l as [|[k v] l IH]; intros o Hnd; [done|].
  by apply IH, jsonObject.NoDup_set.
Qed.

Lemma Forall_set (P : string * string → Prop) o k v :
  Forall P o → P (k, v) → Forall P (jsonObject.set o k v).
Proof.
  rewrite !Forall_forall. intros Ho Hp p [Hin| ->]%jsonObject.elem_of_set; [by apply Ho|done].
Qed.

Lemma Forall_set_all (P : string * string → Prop) o l :
  Forall P o → Forall P l → Forall P (jsonObject.set_all o l).
Proof.
  revert o. induction l as [|[k v] l IH]; intros o Ho Hl; [done|].
  apply Forall_cons in Hl as [Hp Hl]. apply IH; [by apply Forall_set|done].
Qed.

Section documents.
Context {GL : GoLib} {JT : JsonText GL}.

Definition compacted (o : jsonObject) : jsonObject := prod_map id Compact <$> o.

Lemma compacted_names o : (compacted o).*1 = o.*1.
Proof. unfold compacted. rewrite <- list_fmap_compose. by apply list_fmap_ext. Qed.

Lemma marshal_fields_text o :
  marshal_fields true o = String.concat "," ((λ p, encode_name p.1 +:+ ":" +:+ p.2) <$> compacted o).
Proof.
  assert (∀ o, marshal_fields false o =
    match o with [] => "" | _ => "," +:+ marshal_fields true o end) as Hf by (by intros []).
  induction o as [|[k v] o IH]; [done|]. cbn [marshal_fields]. rewrite Hf.
  destruct o as [|[k' v'] o]; [by rewrite str_app_nil, str_app_nil_r|].
  rewrite IH. cbn [compacted fmap list_fmap String.concat prod_map fst snd id].
  rewrite str_app_nil, !str_app_assoc. done.
Qed.

Lemma marshal_text o : marshal o = object_text (compacted o).
Proof. unfold marshal, object_text. by rewrite marshal_fields_text. Qed.

Lemma trim_right_keeps p s a : p a = false → trim_right p (s +:+ String a "") = s +:+ String a "".
Proof.
  intros Ha. induction s as [|b s IH]; [rewrite str_app_nil; simpl; by rewrite Ha|].
  rewrite str_app_cons. simpl. rewrite IH. by destruct s.
Qed.

Lemma TrimSpace_object o : TrimSpace (object_text o) = object_text o.
Proof.
  unfold TrimSpace, object_text. set (s := String.concat _ _).
  change (trim_left is_space ("{" +:+ s +:+ "}")) with ("{" +:+ s +:+ "}").
  rewrite <- str_app_assoc. by apply trim_right_keeps.
Qed.

Context {JL : JsonTextLaws JT}.

Lemma parse_object_text o :
  Forall field_ok o → NoDup o.*1 → parseJSONObject (object_text o) = Ok (inr o).
Proof using JL.
  intros Hok Hnd. destruct (decode_object o Hok) as [Hv Hm].
  unfold parseJSONObject. rewrite Hv, TrimSpace_object, Hm. simpl.
  by rewrite set_all_fresh.
Qed.

Lemma compacted_ok o : Forall field_ok o → compacted o = o.
Proof using JL.
  intros Ho. unfold compacted. rewrite <- (list_fmap_id o) at 2. apply list_fmap_ext.
  intros i [k v] Hi. rewrite Forall_lookup in Ho. destruct (Ho i _ Hi) as [_ Hv].
  unfold prod_map. simpl in *. by rewrite text_compact.
Qed.

Lemma members_object_text o : Forall field_ok o → NoDup o.*1 → members (object_text o) = Some o.
Proof using JL. intros Hok Hnd. unfold members. by rewrite parse_object_text. Qed.

(** What a parsed document contains is well-formed. *)
Lemma members_wf d o : members d = Some o →
  NoDup o.*1 ∧ Forall (λ p, name_ok p.1 = true ∧ json_text (Compact p.2) = true) o.
Proof using JL.
  unfold members. destruct (parseJSONObject d) as [[|o']| |] eqn:Hp; try done. intros [= ->].
  unfold parseJSONObject in Hp.
  assert (∃ l, Members (TrimSpace d) = Some l ∧ jsonObject.set_all [] l = o) as (l & Hl & <-).
  { repeat (case_hyp Hp; simplify_eq/=); eauto. }
  split; [by apply NoDup_set_all; constructor|].
  apply Forall_set_all; [constructor|by eapply decode_fields].
Qed.
End documents.

(** C26: the object written back by the fallback path reads as the object that
    was in memory: same fields, same order, values only losing white space. *)
Theorem parse_marshal `{GL : GoLib} `{JT : !JsonText GL} `{JL : !JsonTextLaws JT} (o : jsonObject) :
  NoDup o.*1 → Forall (λ p, name_ok p.1 = true ∧ json_text (Compact p.2) = true) o →
  parseJSONObject (marshal o) = Ok (inr (compacted o)).
Proof.
  intros Hnd Hok. rewrite marshal_text. apply parse_object_text; [|by rewrite compacted_names].
  unfold compacted. rewrite Forall_fmap. eapply Forall_impl; [exact Hok|]. by intros [k v] [].
Qed.

(** ** Instances for concrete runs

    Flat objects whose names and values have no escapes: JSON text proper, read
    by a small parser. *)

Definition value_char (a : ascii) : bool :=
  negb (is_space a || ContainsChar ",{}:" a).
Definition name_char (a : ascii) : bool :=
  value_char a && negb (bool_decide (a = "034"%char)).

Definition all_chars (p : ascii → bool) (s : string) : bool :=
  forallb p (String.list_ascii_of_string s).

Fixpoint span (p : ascii → bool) (s : string) : string * string :=
  match s with
  | EmptyString => ("", "")
  | String a t => if p a then let '(x, y) := span p t in (String a x, y) else ("", s)
  end.

Lemma span_all p s : all_chars p (span p s).1 = true.
Proof.
  induction s as [|a s IH]; [done|]. simpl. destruct (p a) eqn:Ha; [|done].
  destruct (span p s) as [x y]. unfold all_chars in *. simpl in *. by rewrite Ha, IH.
Qed.

Lemma span_app p s a t : all_chars p s = true → p a = false →
  span p (s +:+ String a t) = (s, String a t).
Proof.
  intros Hs Ha. induction s as [|b s IH]; [rewrite str_app_nil; simpl; by rewrite Ha|].
  unfold all_chars in Hs. simpl in Hs. bool_to_prop. rewrite str_app_cons. simpl.
  rewrite IH by done. match goal with H : p b = true |- _ => by rewrite H end.
Qed.

Definition toy_text (t : string) : bool := negb (String.eqb t "") && all_chars value_char t.

Fixpoint toy_fields (fuel : nat) (s : string) : option (list (string * string)) :=
  match fuel with
  | O => None
  | S fuel =>
      match s with
      | String "034" r =>
          let '(k, r1) := span name_char r in
          match r1 with
          | String "034" (String ":" r2) =>
              let '(v, r3) := span value_char r2 in
              if String.eqb v "" then None
              else match r3 with
                   | String "," r4 => l ← toy_fields fuel r4; Some ((k, v) :: l)
                   | String "}" "" => Some [(k, v)]
                   | _ => None
                   end
          | _ => None
          end
      | _ => None
      end
  end.

Definition toy_members (s : string) : option (list (string * string)) :=
  match s with
  | String "{" (String "}" "") => Some []
  | String "{" r => toy_fields (String.length r) r
  | _ => None
  end.

Definition quoted (s : string) : string := String "034" (s +:+ String "034" "").

Definition toy_encode (v : any_of Z string) : option string :=
  match v with
  | GString s => if all_chars name_char s then Some (quoted s +:+ String newline "") else None
  | GInt _ n => if toy_text (FormatInt n) then Some (FormatInt n +:+ String newline "") else None
  | GOther t => if toy_text t then Some (t +:+ String newline "") else None
  | _ => None
  end.

Definition toy_jtext : JsonText toy_lib :=
  @Build_JsonText toy_lib toy_encode (λ d, bool_decide (is_Some (toy_members d)) || toy_text d)
    toy_members id toy_text (all_chars name_char).

Lemma all_chars_app p s t : all_chars p (s +:+ t) = all_chars p s && all_chars p t.
Proof.
  induction s as [|a s IH]; [done|]. rewrite str_app_cons. unfold all_chars in *. simpl.
  by rewrite IH, andb_assoc.
Qed.

Lemma all_chars_mono p q s : (∀ a, p a = true → q a = true) → all_chars p s = true → all_chars q s = true.
Proof.
  intros Hpq. unfold all_chars. rewrite !forallb_forall. auto.
Qed.

Lemma name_value_char a : name_char a = true → value_char a = true.
Proof. unfold name_char. intros. by bool_to_prop. Qed.

Lemma value_not_space a : value_char a = true → negb (is_space a) = true.
Proof. unfold value_char. rewrite negb_orb. intros. bool_to_prop. by apply negb_true_iff. Qed.

Lemma toy_text_trim t : toy_text t = true → TrimSpace t = t.
Proof.
  unfold toy_text. intros. bool_to_prop.
  assert (forallb (λ a, negb (is_space a)) (String.list_ascii_of_string t) = true) as Hn.
  { eapply (all_chars_mono value_char (λ a, negb (is_space a)) t); [apply value_not_space|done]. }
  unfold TrimSpace. rewrite trim_left_none, trim_right_none by done. done.
Qed.

Lemma toy_trim_newline t : all_chars value_char t = true → TrimRightNewline (t +:+ String newline "") = t.
Proof.
  intros Ht. unfold TrimRightNewline. rewrite trim_right_app by done. apply trim_right_none.
  eapply (all_chars_mono value_char (λ a, negb (bool_decide (a = newline))) t); [|done].
  intros a Ha. case_bool_decide; [subst; done|done].
Qed.

Lemma quoted_chars s : all_chars name_char s = true → all_chars value_char (quoted s) = true.
Proof.
  intros Hs. unfold quoted. change (String "034" (s +:+ String "034" "")) with
    (String "034" "" +:+ (s +:+ String "034" "")). rewrite !all_chars_app.
  rewrite (all_chars_mono _ _ s name_value_char Hs). done.
Qed.

(** Decimal text has only digits and a sign. *)
Definition num_char (a : ascii) : bool :=
  bool_decide (is_Some (digit_val a)) || bool_decide (a = "-"%char) || bool_decide (a = "+"%char).

Lemma parse_digits_chars acc s n : parse_digits acc s = Some n → all_chars num_char s = true.
Proof.
  revert acc. induction s as [|a s IH]; intros acc; [done|]. simpl.
  destruct (digit_val a) as [d|] eqn:Hd; simpl; [|done]. intros Hs%IH.
  unfold all_chars in *. simpl. rewrite Hs. unfold num_char. by rewrite Hd.
Qed.

Lemma parse_nat_chars s n : parse_nat s = Some n → s ≠ "" ∧ all_chars num_char s = true.
Proof. destruct s; [done|]. intros Hs. split; [done|]. by eapply parse_digits_chars. Qed.

Lemma parse_decimal_chars s n : parse_decimal s = Some n → s ≠ "" ∧ all_chars num_char s = true.
Proof.
  destruct s as [|a s]; [done|]. unfold parse_decimal.
  destruct (bool_decide (a = "-"%char)) eqn:Hm; [|destruct (bool_decide (a = "+"%char)) eqn:Hp].
  - intros (m & [_ Hm']%parse_nat_chars & _)%fmap_Some. split; [done|].
    unfold all_chars in *. simpl. rewrite Hm'. unfold num_char. rewrite Hm. by rewrite orb_true_r.
  - intros [_ Hs]%parse_nat_chars. split; [done|].
    unfold all_chars in *. simpl. rewrite Hs. unfold num_char. rewrite Hp. by rewrite orb_true_r.
  - apply parse_nat_chars.
Qed.

Lemma num_char_props a : num_char a = true → value_char a = true ∧ ContainsChar ".eE" a = false.
Proof. destruct a as [[] [] [] [] [] [] [] []]; vm_compute; auto. Qed.

Lemma FormatInt_chars n : FormatInt n ≠ "" ∧ all_chars num_char (FormatInt n) = true.
Proof. eapply parse_decimal_chars, parse_decimal_FormatInt. Qed.

Lemma ContainsAny_false s cs : all_chars (λ a, negb (ContainsChar cs a)) s = true → ContainsAny s cs = false.
Proof.
  unfold ContainsAny, all_chars. induction (String.list_ascii_of_string s) as [|a l IH]; [done|].
  simpl. intros. bool_to_prop. rewrite IH by done. by rewrite orb_false_r.
Qed.

Lemma FormatInt_text n : toy_text (FormatInt n) = true ∧ ContainsAny (FormatInt n) ".eE" = false.
Proof.
  destruct (FormatInt_chars n) as [Hne Hc]. split.
  - unfold toy_text. apply andb_true_iff. split.
    + apply negb_true_iff. by apply String.eqb_neq.
    + eapply all_chars_mono; [|exact Hc]. intros a Ha. by apply num_char_props.
  - apply ContainsAny_false. eapply all_chars_mono; [|exact Hc].
    intros a Ha. apply negb_true_iff. by apply num_char_props.
Qed.

Lemma toy_encode_text v buf : toy_encode v = Some buf → toy_text (TrimRightNewline buf) = true.
Proof.
  destruct v; simpl; try done; intros H; case_match; simplify_eq/=.
  - rewrite toy_trim_newline by (by apply quoted_chars). unfold toy_text. simpl.
    by apply quoted_chars.
  - match goal with H : toy_text _ = true |- _ => pose proof H as Ht end.
    unfold toy_text in Ht. bool_to_prop. by rewrite toy_trim_newline.
  - match goal with H : toy_text _ = true |- _ => pose proof H as Ht end.
    unfold toy_text in Ht. bool_to_prop. by rewrite toy_trim_newline.
Qed.

Lemma toy_encode_name k : all_chars name_char k = true → @encode_name toy_lib toy_jtext k = quoted k.
Proof.
  intros Hk. unfold encode_name, encodeHashValue. cbn [Encode toy_jtext toy_encode]. rewrite Hk.
  by rewrite toy_trim_newline by (by apply quoted_chars).
Qed.

Lemma toy_fields_text (k v : string) (o : jsonObject) fuel :
  Forall (@field_ok toy_lib toy_jtext) ((k, v) :: o) →
  (length ((k, v) :: o) ≤ fuel)%nat →
  toy_fields fuel (String.concat ","
    ((λ p, @encode_name toy_lib toy_jtext p.1 +:+ ":" +:+ p.2) <$> (k, v) :: o) +:+ "}") = Some ((k, v) :: o).
Proof.
  revert k v fuel. induction o as [|[k' v'] o IH]; intros k v [|fuel] Hok Hf; simpl in Hf; try lia.
  all: apply Forall_cons in Hok as [[Hk Hv] Hok]; cbn [name_ok json_text toy_jtext fst snd] in Hk, Hv.
  all: pose proof Hv as Hv'; unfold toy_text in Hv'; apply andb_true_iff in Hv' as [Hne Hall].
  all: apply negb_true_iff in Hne.
  all: cbn [fmap list_fmap String.concat fst snd]; rewrite (toy_encode_name k) by done; unfold quoted at 1.
  all: rewrite !str_app_assoc, !str_app_cons, !str_app_assoc, !str_app_cons, !str_app_nil; cbn [toy_fields].
  all: rewrite span_app by done; rewrite span_app by done; rewrite Hne.
  { done. }
  pose proof (IH k' v' fuel Hok ltac:(simpl; lia)) as Hrec.
  cbn [fmap list_fmap String.concat fst snd] in Hrec. rewrite ?str_app_assoc, ?str_app_cons, ?str_app_assoc, ?str_app_cons, ?str_app_nil in Hrec.
  by rewrite Hrec.
Qed.

Lemma toy_members_text o : Forall (@field_ok toy_lib toy_jtext) o →
  toy_members (@object_text toy_lib toy_jtext o) = Some o.
Proof.
  intros Hok. unfold object_text. destruct o as [|[k v] o]; [done|].
  rewrite str_app_cons, str_app_nil. set (s := String.concat _ _) in *.
  assert (toy_fields (String.length (s +:+ "}")) (s +:+ "}") = Some ((k, v) :: o)) as Hp.
  { apply toy_fields_text; [done|]. subst s. rewrite str_length_app. simpl.
    enough (length ((k, v) :: o) ≤ S (String.length (String.concat ","
      ((λ p, @encode_name toy_lib toy_jtext p.1 +:+ ":" +:+ p.2) <$> (k, v) :: o))))%nat by (simpl in *; lia).
    clear Hok. revert k v. induction o as [|[k' v'] o IH]; intros k v; [simpl; lia|].
    cbn [fmap list_fmap String.concat fst snd length]. specialize (IH k' v').
    cbn [fmap list_fmap length fst snd] in IH. rewrite !str_length_app. simpl in *. lia. }
  destruct (s +:+ "}") as [|a r] eqn:Hs; [done|].
  cbn [toy_members]. destruct (String.length (String a r)) eqn:Hl; [done|].
  destruct (decide (a = "034"%char)) as [->|Ha].
  - exact Hp.
  - exfalso. clear Hl. cbn [toy_fields] in Hp. destruct a as [[] [] [] [] [] [] [] []]; done.
Qed.

Lemma toy_fields_ok fuel s l : toy_fields fuel s = Some l → Forall (@field_ok toy_lib toy_jtext) l.
Proof.
  revert s l. induction fuel as [|fuel IH]; intros s l; cbn [toy_fields]; [done|]. intros Hp.
  assert (∀ p s, all_chars p (span p s).1 = true) as Hall by (intros; apply span_all).
  repeat (case_hyp Hp; simplify_eq/=).
  all: repeat match goal with H : span ?p ?s = (?x, _) |- _ =>
    lazymatch goal with _ : all_chars p x = true |- _ => fail | _ =>
      assert (all_chars p x = true) by (pose proof (Hall p s) as Ha; rewrite H in Ha; exact Ha) end end.
  all: try (destruct (toy_fields fuel _) as [l0|] eqn:Hl0; simplify_eq/=).
  all: apply Forall_cons; split; [|first [by eapply IH|constructor]].
  all: split; [done|]; cbn; unfold toy_text.
  all: match goal with H : (?v =? "")%string = false |- _ => rewrite H end; done.
Qed.

Lemma toy_members_ok d l : toy_members d = Some l → Forall (@field_ok toy_lib toy_jtext) l.
Proof.
  unfold toy_members. intros Hm. repeat (case_hyp Hm; try discriminate).
  all: first [by eapply toy_fields_ok | injection Hm as <-; constructor].
Qed.

#[global] Instance toy_jtext_laws : JsonTextLaws toy_jtext.
Proof.
  split; cbn [Encode Valid Members Compact json_text name_ok toy_jtext].
  - apply toy_encode_text.
  - apply toy_text_trim.
  - done.
  - intros o Ho. rewrite toy_members_text by done. by rewrite bool_decide_true by eauto.
  - apply toy_members_ok.
Qed.

Definition toy_set (d : string) (f : jsonObject → jsonObject) : string :=
  match @members toy_lib toy_jtext d with
  | Some l => @object_text toy_lib toy_jtext (f l)
  | None => d
  end.

Definition toy_type (t : string) : string :=
  if ContainsAny t ".eE" then "real"
  else if bool_decide (is_Some (parse_decimal t)) then "integer" else "text".

Definition toy_extract (d f : string) : sqlval Z :=
  match l ← @members toy_lib toy_jtext d; jsonObject.get l f with
  | None => SqlNull
  | Some t =>
      if String.eqb (toy_type t) "integer"
      then match ParseInt t with Some n => SqlInt n | None => SqlReal 0 end
      else SqlText t
  end.

Definition toy_sqlite : SqliteJson toy_lib :=
  @Build_SqliteJson toy_lib
    (λ d, match @members toy_lib toy_jtext d with Some _ => Some "object" | None => Some "text" end)
    (λ d, default [] (@members toy_lib toy_jtext d))
    (λ d f v, toy_set d (λ l, jsonObject.set l f v))
    (λ d f, toy_set d (λ l, (jsonObject.del l f).2))
    (λ f v, @object_text toy_lib toy_jtext [(f, v)])
    (λ d f, l ← @members toy_lib toy_jtext d; jsonObject.get l f)
    (λ d f, toy_type <$> (l ← @members toy_lib toy_jtext d; jsonObject.get l f))
    toy_extract toy_type
    (λ x, FormatInt x +:+ ".0") (λ x, FormatInt x +:+ ".0") Z.add.

Lemma toy_agree d : @agree toy_lib toy_jtext toy_sqlite d.
Proof.
  unfold agree. cbn. destruct (members d) as [l|] eqn:Hl; [|done].
  by destruct (members_wf d l Hl) as [_ Hok].
Qed.

Lemma Forall_del (o : jsonObject) k (P : string * string → Prop) :
  Forall P o → Forall P (jsonObject.del o k).2.
Proof.
  rewrite !Forall_forall. intros Ho x Hx. apply Ho. eapply elem_of_sublist; [exact Hx|].
  apply jsonObject.del_sublist.
Qed.

Lemma NoDup_del (o : jsonObject) k : NoDup o.*1 → NoDup (jsonObject.del o k).2.*1.
Proof.
  intros Hnd. eapply sublist_NoDup; [exact Hnd|]. apply fmap_sublist, jsonObject.del_sublist.
Qed.

#[global] Instance toy_sqlite_laws : SqliteJsonLaws toy_jtext toy_sqlite.
Proof.
  split; cbn [json_root json_each json_set json_remove json_object json_arrow json_type_at
    json_extract json_type toy_sqlite].
  - intros d l f v _ Hl Hf Hv. split; [apply toy_agree|]. unfold toy_set. rewrite Hl.
    destruct (members_wf d l Hl) as [Hnd Hok].
    apply members_object_text; [by apply Forall_set|by apply jsonObject.NoDup_set].
  - intros d l f _ Hl. split; [apply toy_agree|]. unfold toy_set. rewrite Hl.
    destruct (members_wf d l Hl) as [Hnd Hok].
    apply members_object_text; [by apply Forall_del|by apply NoDup_del].
  - intros f v Hf Hv. split; [apply toy_agree|].
    apply members_object_text; [by repeat constructor|apply NoDup_singleton].
  - intros o Ho Hnd. by rewrite members_object_text.
  - intros d l f _ Hl. by rewrite Hl.
  - intros d l f _ Hl. by rewrite Hl.
  - intros d l f _ Hl. unfold toy_extract. rewrite Hl. simpl.
    destruct (jsonObject.get l f) as [t|]; [|done]. intros Ht. rewrite Ht. simpl.
    destruct (ParseInt t); [done|by eexists].
  - intros n. destruct (FormatInt_text n) as [Ht Hc]. split; [|done].
    unfold toy_type. rewrite Hc, parse_decimal_FormatInt. done.
  - intros t. unfold toy_type. by destruct (ContainsAny t ".eE").
  - intros t _. unfold toy_type, ParseInt. destruct (ContainsAny t ".eE"); [by left|].
    destruct (parse_decimal t); simpl; [done|by right].
Qed.

Lemma parse_marshal_witness :
  @parseJSONObject toy_lib toy_jtext (@marshal toy_lib toy_jtext [("name", quoted "Ada"); ("age", "36")])
  = Ok (inr [("name", quoted "Ada"); ("age", "36")]).
Proof.
  apply (@parse_marshal toy_lib toy_jtext toy_jtext_laws [("name", quoted "Ada"); ("age", "36")]).
  - apply (bool_decide_eq_true_1 _). vm_compute. reflexivity.
  - repeat constructor; vm_compute; reflexivity.
Defined.
