(* ===== verification/Hash.v ===== *)
(** Hash operations: [lytecache-go/hash.go].

    A hash is a row of type 4 whose text is a JSON object. Every operation has
    two implementations: SQL statements on SQLite's JSON functions, and the
    read-modify-write fallback on the ordered object of [HashDoc]. *)

From S2P Require Import Prelude GoStd Values HashDoc Store Engine Channels EventLog Changes Sweep Kv.
Open Scope Z_scope.

(** Bound variables and function arguments limit a statement of [HSetMany]. *)
Definition hsetManyPerStatement : nat := 500.
Definition jsonSetPairsPerCall : nat := 30.

(** Consecutive groups of [n] elements. *)
Fixpoint chunks_go {A} (fuel n : nat) (l : list A) : list (list A) :=
  match fuel, l with
  | O, _ => []
  | _, [] => []
  | S fuel, _ => take n l :: chunks_go fuel n (drop n l)
  end.
Definition chunks {A} (n : nat) (l : list A) : list (list A) := chunks_go (length l) n l.

Section sql.
Context {GL : GoLib} {SJ : SqliteJson GL}.

(** [hashIsObj] and [hashFieldType]. *)
Definition hashIsObj (r : row) : bool :=
  (value_type r =? typeJSON) && bool_decide (json_root (value r) = Some "object").
Definition hashFieldType (f : string) (r : row) : option string :=
  if hashIsObj r then json_type_at (value r) f else None.

(** [upsertHashSQL]: [freshDoc] for a missing or expired key, [liveDoc] of the
    current text for a live row where [where_] holds. *)
Definition upsertHashSQL (ns key : string) (now : Z) (exp : option Z)
    (liveDoc : string → string) (freshDoc : string) (where_ : row → bool)
    : cache_table → Z * cache_table :=
  upsert (ns, key)
    (Row freshDoc typeJSON now exp now 0 (Z.of_nat (String.length freshDoc)))
    (λ r,
      if expired now r || where_ r then
        let newDoc := if expired now r then freshDoc else liveDoc (value r) in
        Some (Row newDoc typeJSON
                (if expired now r then now else created_at r)
                (if expired now r then exp else expires_at r)
                now
                (if expired now r then 0 else access_count r + 1)
                (Z.of_nat (String.length newDoc)))
      else None).

(** The [UPDATE] statements of [HSet] and [HDel]. *)
Definition updateHashSQL (ns key : string) (now bump : Z) (newDoc : string → string)
    (where_ : row → bool) : cache_table → Z * cache_table :=
  update_at (ns, key) (λ r, live now r && where_ r)
    (λ r, let doc := newDoc (value r) in
          Row doc (value_type r) (created_at r) (expires_at r) now
            (access_count r + bump) (Z.of_nat (String.length doc))).

(** The nested [json_set] of one statement of [HSetMany]. *)
Definition set_groups (doc : string) (pairs : list (string * string)) : string :=
  foldl (λ d g, foldl (λ d p, json_set d p.1 p.2) d g) doc (chunks jsonSetPairsPerCall pairs).

(** The row a hash read selects: [WHERE namespace = .. AND key = .. AND hashLive]. *)
Definition live_row (ns key : string) (now : Z) (d : Database) : option row :=
  r ← db_cache d !! (ns, key); if live now r then Some r else None.

(** [newVal] of [hincr] where it is an INTEGER: [COALESCE(stored, 0) + @amount]
    overflows to a REAL. *)
Definition sum_int (doc f : string) (amount : Z) : option Z :=
  match json_extract doc f with
  | SqlNull => Some amount
  | SqlInt n => if in_int64 (n + amount) then Some (n + amount) else None
  | _ => None
  end.

(** [newVal] of a float increment, for the field types the guard lets through. *)
Definition sum_real (doc f : string) (amount : float) : option float :=
  match json_extract doc f with
  | SqlNull => Some (real_add (float_of_int64 0) amount)
  | SqlInt n => Some (real_add (float_of_int64 n) amount)
  | SqlReal x => Some (real_add x amount)
  | SqlText _ => None
  end.
Definition finite (x : float) : bool := negb (IsNaN x || IsInf x).
End sql.

(** The amount of an increment and its result. *)
Inductive number (F : Type) := NInt (n : Z) | NFloat (f : F).
Arguments NInt {_} _.
Arguments NFloat {_} _.

Section hash.
Context {H : Host} {GL : GoLib} {CJ : ChangeJson GL} {JT : JsonText GL} {SJ : SqliteJson GL}.

Definition capacityCheck (c : Cache) (key : string) : M () := precheck c key.

(** Nothing, for a missing key or a live object; an error otherwise. *)
Definition checkHashType (c : Cache) (key : string) (now : Z) : M () :=
  r ← query (live_row (namespace c) key now);
  match r with
  | None => mret tt
  | Some r => if hashIsObj r then mret tt else fail ErrSerialization
  end.

(** [BEGIN IMMEDIATE .. COMMIT]. *)
Definition inImmediate {A} (fn : M A) : M A := inTx fn.

Definition loadHash (c : Cache) (key : string) (now : Z) : M (option jsonObject) :=
  r ← query (live_row (namespace c) key now);
  match r with
  | None => mret None
  | Some r =>
      if negb (value_type r =? typeJSON) then fail ErrSerialization
      else match parseJSONObject (value r) with
           | Ok (inr o) => mret (Some o)
           | _ => fail ErrSerialization
           end
  end.

Definition checkCapacityIn (c : Cache) : M () :=
  '(count, total) ← query (λ d, count_sum (namespace c) (db_cache d));
  if match maxKeys c with Some n => n <=? count | None => false end then fail ErrCacheFull
  else if match maxBytes c, total with Some n, Some t => n <=? t | _, _ => false end
  then fail ErrCacheFull
  else mret tt.

Definition rmwUpdateSQL (ns key blob : string) (now : Z) : cache_table → Z * cache_table :=
  update_at (ns, key) (λ _, true)
    (λ r, Row blob (value_type r) (created_at r) (expires_at r) now (access_count r + 1)
            (Z.of_nat (String.length blob))).

Definition rmwInsertSQL (ns key blob : string) (now : Z) (exp : option Z) (t : cache_table)
    : Z * cache_table :=
  (1, <[(ns, key) := Row blob typeJSON now exp now 0 (Z.of_nat (String.length blob))]> t).

(** [mutate] returns whether it changed the object, its result and the object. *)
Definition rmwHash {A} (c : Cache) (key : string) (ttl : option Z) (create : bool)
    (mutate : jsonObject → result (bool * A * jsonObject)) : M A :=
  now ← nowMillis;
  '(wrote, r) ← inImmediate (
    o ← loadHash c key now;
    let exists_ := bool_decide (is_Some o) in
    when (negb exists_ && create && bool_decide (eviction c = NoEviction) && negb (unlimited c))
      (checkCapacityIn c) ;;
    '(ch, r, o') ← lift (mutate (default [] o));
    if negb ch || (negb exists_ && negb create) then mret (false, r)
    else
      (let blob := marshal o' in
       if exists_ then _ ← exec (on_cache (rmwUpdateSQL (namespace c) key blob now)); mret tt
       else _ ← exec (on_cache (rmwInsertSQL (namespace c) key blob now (expiresAtArg ttl now))); mret tt) ;;
      mret (true, r));
  when wrote (changed c OpSet (Some [key]) 1 ;; maybeEvict c) ;;
  mret r.

Definition recordHashRead (c : Cache) (key : string) (now : Z) (found : bool) : M () :=
  (if found
   then mod_proc (λ p, set_hits (p_hits p + 1) p) ;; bufferLRU c key now
   else mod_proc (λ p, set_misses (p_misses p + 1) p)) ;;
  maybeOpportunisticSweep c.

(** ** Writes *)

Definition HSet (c : Cache) (key field : string) (v : any) (opts : list Z) : M bool :=
  encoded ← lift (encodeHashValue v);
  let ttl := applySetOptions opts in
  if negb (json1 c) then
    rmwHash c key ttl true (λ o,
      Ok (true, negb (jsonObject.has o field), jsonObject.set o field encoded))
  else
    capacityCheck c key ;;
    now ← nowMillis;
    let setExpr := λ doc, json_set doc field encoded in
    created ← inTx (
      n ← exec (on_cache (upsertHashSQL (namespace c) key now (expiresAtArg ttl now) setExpr
             (json_object field encoded)
             (λ r, bool_decide (hashFieldType field r = None) && hashIsObj r)));
      if n =? 1 then mret true
      else
        n ← exec (on_cache (updateHashSQL (namespace c) key now 1 setExpr hashIsObj));
        (if n =? 0 then checkHashType c key now else mret tt) ;;
        mret false);
    changed c OpSet (Some [key]) 1 ;;
    maybeEvict c ;;
    maybeOpportunisticSweep c ;;
    mret created.

Definition HSetNX (c : Cache) (key field : string) (v : any) (opts : list Z) : M bool :=
  encoded ← lift (encodeHashValue v);
  let ttl := applySetOptions opts in
  if negb (json1 c) then
    rmwHash c key ttl true (λ o,
      if jsonObject.has o field then Ok (false, false, o)
      else Ok (true, true, jsonObject.set o field encoded))
  else
    capacityCheck c key ;;
    now ← nowMillis;
    won ← inTx (
      n ← exec (on_cache (upsertHashSQL (namespace c) key now (expiresAtArg ttl now)
             (λ doc, json_set doc field encoded) (json_object field encoded)
             (λ r, bool_decide (hashFieldType field r = None) && hashIsObj r)));
      if n =? 1 then mret true
      else checkHashType c key now ;; mret false);
    when won (changed c OpSet (Some [key]) 1 ;; maybeEvict c) ;;
    mret won.

Fixpoint encode_fields (l : list (string * any)) : result (list (string * string)) :=
  match l with
  | [] => Ok []
  | (f, v) :: l => e ← encodeHashValue v; es ← encode_fields l; Ok ((f, e) :: es)
  end.

(** The fields of a map by increasing name. *)
Definition sorted_fields (fields : gmap string any) : list (string * any) :=
  omap (λ f, v ← fields !! f; Some (f, v)) (sortedKeys fields).

Fixpoint hset_statements (c : Cache) (key : string) (now : Z) (exp : option Z)
    (stmts : list (list (string * string))) : M () :=
  match stmts with
  | [] => mret tt
  | pairs :: stmts =>
      n ← exec (on_cache (upsertHashSQL (namespace c) key now exp
             (λ doc, set_groups doc pairs) (set_groups "{}" pairs) hashIsObj));
      if n =? 0 then checkHashType c key now
      else hset_statements c key now exp stmts
  end.

Definition HSetMany (c : Cache) (key : string) (fields : gmap string any) (opts : list Z) : M () :=
  if bool_decide (fields = ∅) then mret tt
  else
    encoded ← lift (encode_fields (sorted_fields fields));
    let ttl := applySetOptions opts in
    if negb (json1 c) then
      rmwHash c key ttl true (λ o, Ok (true, tt, jsonObject.set_all o encoded))
    else
      capacityCheck c key ;;
      now ← nowMillis;
      inTx (hset_statements c key now (expiresAtArg ttl now) (chunks hsetManyPerStatement encoded)) ;;
      changed c OpSet (Some [key]) 1 ;;
      maybeEvict c.

Fixpoint hdel_statements (c : Cache) (key : string) (now : Z) (removed : Z) (fields : list string)
    : M Z :=
  match fields with
  | [] => mret removed
  | f :: fields =>
      n ← exec (on_cache (updateHashSQL (namespace c) key now (if removed =? 0 then 1 else 0)
             (λ doc, json_remove doc f) (λ r, bool_decide (is_Some (hashFieldType f r)))));
      hdel_statements c key now (removed + n) fields
  end.

Definition HDel (c : Cache) (key : string) (fields : list string) : M Z :=
  let unique := dedupe fields in
  match unique with
  | [] => mret 0
  | _ =>
      if negb (json1 c) then
        rmwHash c key None false (λ o,
          let '(n, o') := jsonObject.del_all o unique in
          Ok (bool_decide (0 < n)%nat, Z.of_nat n, o'))
      else
        now ← nowMillis;
        removed ← inTx (
          removed ← hdel_statements c key now 0 unique;
          (if removed =? 0 then checkHashType c key now else mret tt) ;;
          mret removed);
        when (0 <? removed) (changed c OpSet (Some [key]) 1) ;;
        mret removed
  end.

(** ** Increments *)

(** The fallback's change of the object. *)
Definition incr_object (field : string) (amount : number float) (o : jsonObject)
    : result (bool * number float * jsonObject) :=
  let raw := default "0" (jsonObject.get o field) in
  match amount with
  | NInt a =>
      match parseJSONInt raw with
      | None => Err ErrNotNumeric
      | Some cur =>
          if ((0 <? a) && (MaxInt64 - a <? cur)) || ((a <? 0) && (cur <? MinInt64 - a))
          then Err ErrOverflow
          else Ok (true, NInt (cur + a), jsonObject.set o field (FormatInt (cur + a)))
      end
  | NFloat a =>
      match parseJSONNumber raw with
      | None => Err ErrNotNumeric
      | Some cur =>
          let next := real_add cur a in
          if IsInf next then Err ErrOverflow
          else Ok (true, NFloat next, jsonObject.set o field (formatJSONFloat next))
      end
  end.

(** The statement's [guard] on a live object, and the value it stores. *)
Definition incr_guard (field : string) (amount : number float) (r : row) : bool :=
  let ft := hashFieldType field r in
  match amount with
  | NInt a =>
      bool_decide (ft = None ∨ ft = Some "integer") && bool_decide (is_Some (sum_int (value r) field a))
  | NFloat a =>
      bool_decide (ft = None ∨ ft = Some "integer" ∨ ft = Some "real") &&
      match sum_real (value r) field a with Some x => finite x | None => false end
  end.

Definition incr_doc (field : string) (amount : number float) (doc : string) : string :=
  match amount with
  | NInt a => match sum_int doc field a with Some n => json_set doc field (FormatInt n) | None => doc end
  | NFloat a => match sum_real doc field a with Some x => json_set doc field (json_real x) | None => doc end
  end.

(** [json_object(@f0, @amount)]. *)
Definition incr_fresh (field : string) (amount : number float) : string :=
  json_object field (match amount with NInt a => FormatInt a | NFloat a => bound_real a end).

Definition incrSQL (ns key field : string) (now : Z) (exp : option Z) (amount : number float)
    : cache_table → Z * cache_table :=
  upsertHashSQL ns key now exp (incr_doc field amount) (incr_fresh field amount)
    (λ r, hashIsObj r && incr_guard field amount r).

(** The [RETURNING] clause: the stored value as the driver scans it. *)
Definition returned_text (field : string) (doc : string) : string :=
  match json_extract doc field with
  | SqlInt n => FormatInt n
  | SqlReal x => FormatFloat x
  | SqlText s => s
  | SqlNull => ""
  end.

Definition parse_returned (amount : number float) (text : string) : option (number float) :=
  match amount with
  | NInt _ => NInt <$> ParseInt text
  | NFloat _ => NFloat <$> ParseFloat text
  end.

(** One statement: the change and the text of the row it returns, if any. *)
Definition incr_returning (ns key field : string) (now : Z) (exp : option Z) (amount : number float)
    (t : cache_table) : option string * cache_table :=
  let '(n, t') := incrSQL ns key field now exp amount t in
  (if n =? 0 then None else (λ r, returned_text field (value r)) <$> t' !! (ns, key), t').

Definition hincr (c : Cache) (key field : string) (amount : number float) (ttl : option Z)
    : M (number float) :=
  if negb (json1 c) then rmwHash c key ttl true (incr_object field amount)
  else
    capacityCheck c key ;;
    now ← nowMillis;
    res ← inTx (
      r ← exec (on_cache (incr_returning (namespace c) key field now (expiresAtArg ttl now) amount));
      match r with
      | Some text =>
          match parse_returned amount text with Some n => mret n | None => fail ErrParse end
      | None =>
          checkHashType c key now ;;
          ft ← query (λ d, hashFieldType field <$> db_cache d !! (namespace c, key));
          match ft with
          | None => fail ErrDatabase
          | Some ft =>
              let overflow :=
                match amount with
                | NInt _ => bool_decide (ft = Some "integer")
                | NFloat _ => bool_decide (ft = Some "integer" ∨ ft = Some "real")
                end in
              fail (if overflow then ErrOverflow else ErrNotNumeric)
          end
      end);
    changed c OpSet (Some [key]) 1 ;;
    maybeEvict c ;;
    mret res.

Definition HIncrBy (c : Cache) (key field : string) (amount : Z) (opts : list Z) : M Z :=
  r ← hincr c key field (NInt amount) (applySetOptions opts);
  match r with NInt n => mret n | NFloat _ => hang end.    (* never: [r.(int64)] *)

Definition HIncrByFloat (c : Cache) (key field : string) (amount : float) (opts : list Z) : M float :=
  if IsNaN amount || IsInf amount then fail ErrSerialization
  else
    r ← hincr c key field (NFloat amount) (applySetOptions opts);
    match r with NFloat x => mret x | NInt _ => hang end.

(** ** Reads *)

Definition hmget (c : Cache) (key : string) (fields : list string)
    : M (option (list (option string))) :=
  now ← nowMillis;
  if negb (json1 c) then
    o ← loadHash c key now;
    recordHashRead c key now (bool_decide (is_Some o)) ;;
    mret ((λ o, jsonObject.get o <$> fields) <$> o)
  else
    r ← query (live_row (namespace c) key now);
    match r with
    | None => recordHashRead c key now false ;; mret None
    | Some r =>
        if negb (hashIsObj r) then fail ErrSerialization
        else
          recordHashRead c key now true ;;
          mret (Some (json_arrow (value r) <$> fields))
    end.

Definition HGetRaw (c : Cache) (key field : string) : M (option string) :=
  vals ← hmget c key [field];
  mret (match vals with Some (v :: _) => v | _ => None end).

Definition HGet (c : Cache) (key field : string) (d : dest) : M (option any) :=
  raw ← HGetRaw c key field;
  match raw with
  | None => mret None
  | Some raw =>
      match Unmarshal raw d with
      | Some v => mret (Some v)
      | None => fail ErrSerialization
      end
  end.

Definition HGetString c key field := HGet c key field DString.
Definition HGetInt64 c key field := HGet c key field (DInt KInt64).

Definition HMGet (c : Cache) (key : string) (fields : list string) : M (list (option string)) :=
  match fields with
  | [] => mret []
  | _ =>
      vals ← hmget c key fields;
      mret (default (replicate (length fields) None) vals)
  end.

Definition HGetAll (c : Cache) (key : string) : M (gmap string string) :=
  now ← nowMillis;
  o ← loadHash c key now;
  recordHashRead c key now (bool_decide (is_Some o)) ;;
  mret (foldl (λ m f, <[f.1 := f.2]> m) ∅ (default [] o)).

Definition HExists (c : Cache) (key field : string) : M bool :=
  vals ← hmget c key [field];
  mret (match vals with Some (Some _ :: _) => true | _ => false end).

(** [withValues] false leaves the values out. *)
Definition hashEntries (c : Cache) (key : string) (withValues : bool) : M jsonObject :=
  now ← nowMillis;
  if negb (json1 c) then
    o ← loadHash c key now;
    match o with
    | None => mret []
    | Some o => bufferLRU c key now ;; mret o
    end
  else
    r ← query (live_row (namespace c) key now);
    match r with
    | None => mret []
    | Some r =>
        if negb (hashIsObj r) then fail ErrSerialization
        else
          bufferLRU c key now ;;
          mret ((λ p, (p.1, if withValues then p.2 else "")) <$> json_each (value r))
    end.

Definition HKeys (c : Cache) (key : string) : M (list string) :=
  entries ← hashEntries c key false; mret entries.*1.
Definition HVals (c : Cache) (key : string) : M (list string) :=
  entries ← hashEntries c key true; mret entries.*2.

Definition HLen (c : Cache) (key : string) : M Z :=
  now ← nowMillis;
  if negb (json1 c) then
    o ← loadHash c key now;
    match o with
    | None => mret 0
    | Some o => bufferLRU c key now ;; mret (Z.of_nat (length o))
    end
  else
    r ← query (live_row (namespace c) key now);
    match r with
    | None => mret 0
    | Some r =>
        if negb (hashIsObj r) then fail ErrSerialization
        else
          bufferLRU c key now ;;
          mret (Z.of_nat (length (json_each (value r))))
    end.
End hash.
