(* ===== verification/HashSpec.v ===== *)
(** The specification of hashes and the proof that both implementations of
    [Hash] meet it.

    The specification of one operation is a function of the object at its key:
    a reply and the object afterwards. It mentions no SQL, no text and no mode,
    except where the two implementations differ. *)

From S2P Require Import Prelude GoStd Values HashDoc Store Engine Channels EventLog Changes Sweep Kv Reads TtlMap Hash.
Open Scope Z_scope.

(** ** Specification *)

(** What a key holds, seen by hash operations. *)
Inductive hcell := Missing | Wrong | Obj (l : jsonObject).

Section spec.
Context {GL : GoLib} {JT : JsonText GL} {SJ : SqliteJson GL}.

Inductive hash_op :=
  | OSet (f : string) (v : any) (opts : list Z)
  | OSetNX (f : string) (v : any) (opts : list Z)
  | OSetMany (fs : gmap string any) (opts : list Z)
  | ODel (fs : list string)
  | OIncr (f : string) (amount : Z) (opts : list Z)
  | OGetRaw (f : string)
  | OMGet (fs : list string)
  | OGetAll
  | OExists (f : string)
  | OKeys
  | OVals
  | OLen.

Inductive hash_reply :=
  | HBool (b : bool)
  | HNum (n : Z)
  | HUnit
  | HText (o : option string)
  | HTexts (l : list (option string))
  | HMap (m : gmap string string)
  | HNames (l : list string).

Definition cell_of (o : option row) : hcell :=
  match o with
  | None => Missing
  | Some r =>
      if value_type r =? typeJSON
      then match members (value r) with Some l => Obj l | None => Wrong end
      else Wrong
  end.

(** A write, where a missing key counts as the empty object. *)
Definition on_fields (x : hcell) (f : jsonObject → result hash_reply * option jsonObject)
    : result hash_reply * option jsonObject :=
  match x with
  | Missing => f []
  | Obj l => f l
  | Wrong => (Err ErrSerialization, None)
  end.

Definition on_read (x : hcell) (missing : hash_reply) (f : jsonObject → hash_reply)
    : result hash_reply * option jsonObject :=
  match x with
  | Missing => (Ok missing, None)
  | Obj l => (Ok (f l), None)
  | Wrong => (Err ErrSerialization, None)
  end.

Definition encoded {A} (e : result A) (f : A → result hash_reply * option jsonObject)
    : result hash_reply * option jsonObject :=
  match e with Ok a => f a | Err e => (Err e, None) | Hang => (Hang, None) end.

Definition to_map (l : jsonObject) : gmap string string := foldl (λ m f, <[f.1 := f.2]> m) ∅ l.

(** The reply, and the new object where the operation writes one. [json] is
    the mode: an increment of an integer field that already exceeds 64 bits
    reports an overflow on the JSON1 path and a type error on the fallback. *)
Definition hash_spec (json : bool) (op : hash_op) (x : hcell)
    : result hash_reply * option jsonObject :=
  match op with
  | OSet f v _ => encoded (encodeHashValue v) (λ e, on_fields x (λ l,
      (Ok (HBool (negb (jsonObject.has l f))), Some (jsonObject.set l f e))))
  | OSetNX f v _ => encoded (encodeHashValue v) (λ e, on_fields x (λ l,
      if jsonObject.has l f then (Ok (HBool false), None)
      else (Ok (HBool true), Some (jsonObject.set l f e))))
  | OSetMany fs _ =>
      if bool_decide (fs = ∅) then (Ok HUnit, None)
      else encoded (encode_fields (sorted_fields fs)) (λ es, on_fields x (λ l,
        (Ok HUnit, Some (jsonObject.set_all l es))))
  | ODel fs =>
      match dedupe fs with
      | [] => (Ok (HNum 0), None)
      | ks => on_fields x (λ l,
          let '(n, l') := jsonObject.del_all l ks in
          (Ok (HNum (Z.of_nat n)), if bool_decide (0 < n)%nat then Some l' else None))
      end
  | OIncr f a _ => on_fields x (λ l,
      match jsonObject.get l f with
      | None => (Ok (HNum a), Some (jsonObject.set l f (FormatInt a)))
      | Some t =>
          if bool_decide (json_type t = "integer") then
            match ParseInt t with
            | Some n =>
                if in_int64 (n + a)
                then (Ok (HNum (n + a)), Some (jsonObject.set l f (FormatInt (n + a))))
                else (Err ErrOverflow, None)
            | None => (Err (if json then ErrOverflow else ErrNotNumeric), None)
            end
          else (Err ErrNotNumeric, None)
      end)
  | OGetRaw f => on_read x (HText None) (λ l, HText (jsonObject.get l f))
  | OMGet fs =>
      match fs with
      | [] => (Ok (HTexts []), None)
      | _ => on_read x (HTexts (replicate (length fs) None)) (λ l, HTexts (jsonObject.get l <$> fs))
      end
  | OGetAll => on_read x (HMap ∅) (λ l, HMap (to_map l))
  | OExists f => on_read x (HBool false) (λ l, HBool (jsonObject.has l f))
  | OKeys => on_read x (HNames []) (λ l, HNames l.*1)
  | OVals => on_read x (HNames []) (λ l, HNames l.*2)
  | OLen => on_read x (HNum 0) (λ l, HNum (Z.of_nat (length l)))
  end.

(** The names an operation may store, and an amount in range. *)
Definition op_ok (op : hash_op) : Prop :=
  match op with
  | OSet f _ _ | OSetNX f _ _ => name_ok f = true
  | OSetMany fs _ => ∀ f, is_Some (fs !! f) → name_ok f = true
  | OIncr f a _ => name_ok f = true ∧ in_int64 a = true
  | _ => True
  end.

Definition op_opts (op : hash_op) : list Z :=
  match op with OSet _ _ o | OSetNX _ _ o | OSetMany _ o | OIncr _ _ o => o | _ => [] end.
End spec.

Section run.
Context {H : Host} {GL : GoLib} {CJ : ChangeJson GL} {JT : JsonText GL} {SJ : SqliteJson GL}.

Definition run_hash (c : Cache) (key : string) (op : hash_op) : M hash_reply :=
  match op with
  | OSet f v opts => x ← HSet c key f v opts; mret (HBool x)
  | OSetNX f v opts => x ← HSetNX c key f v opts; mret (HBool x)
  | OSetMany fs opts => HSetMany c key fs opts ;; mret HUnit
  | ODel fs => x ← HDel c key fs; mret (HNum x)
  | OIncr f a opts => x ← HIncrBy c key f a opts; mret (HNum x)
  | OGetRaw f => x ← HGetRaw c key f; mret (HText x)
  | OMGet fs => x ← HMGet c key fs; mret (HTexts x)
  | OGetAll => x ← HGetAll c key; mret (HMap x)
  | OExists f => x ← HExists c key f; mret (HBool x)
  | OKeys => x ← HKeys c key; mret (HNames x)
  | OVals => x ← HVals c key; mret (HNames x)
  | OLen => x ← HLen c key; mret (HNum x)
  end.

(** The table now shows [e] at [key], as long as it is alive, and what it
    showed before at every other key. *)
Definition written (ns key : string) (e : entry) (w w' : World) : Prop :=
  (w_step w ≤ w_step w')%nat ∧
  ∀ T, stamp w' T → ∀ k, view T ns (db_cache (w_db w')) k =
    if decide (key = k) then (if alive T e then Some e else None)
    else view T ns (db_cache (w_db w)) k.

(** What an operation must do to a key whose live row is [o]. *)
Definition hash_post (c : Cache) (key : string) (op : hash_op) (now : Z) (o : option row) (w : World)
    (r : result hash_reply) (w' : World) : Prop :=
  let '(reply, new) := hash_spec (json1 c) op (cell_of o) in
  r = reply ∧
  match new with
  | None => upkeep (namespace c) w w'
  | Some l =>
      ∃ data, members data = Some l ∧ agree data ∧
        written (namespace c) key
          (Entry data typeJSON
             (match o with Some r => expires_at r | None => expiresAtArg (applySetOptions (op_opts op)) now end))
          w w'
  end.
End run.

(** ** Frames of the specification *)

Section written.
Context {H : Host}.
Implicit Types w : World.

Lemma written_insert ns key r e w w' :
  (w_step w ≤ w_step w')%nat → entry_of r = e →
  db_cache (w_db w') = <[(ns, key) := r]> (db_cache (w_db w)) → written ns key e w w'.
Proof.
  intros Hs <- Hc. split; [done|]. intros T _ k. rewrite Hc, view_insert. by case_decide.
Qed.

Lemma written_upkeep ns key e w w1 w2 : written ns key e w w1 → upkeep ns w1 w2 → written ns key e w w2.
Proof.
  intros [Hs1 H1] [Hs2 H2]. split; [lia|]. intros T HT k.
  rewrite H2, H1; [done|by eapply stamp_le|done].
Qed.

Lemma written_twice ns key e e' w w1 w2 :
  written ns key e w w1 → written ns key e' w1 w2 → written ns key e' w w2.
Proof.
  intros [Hs1 H1] [Hs2 H2]. split; [lia|]. intros T HT k. rewrite H2 by done.
  case_decide; [done|]. rewrite H1 by (by eapply stamp_le). by rewrite decide_False.
Qed.

(** What a dead entry holds does not matter. *)
Lemma written_dead ns key data data' exp w w' :
  (∀ T, stamp w' T → alive T (Entry data typeJSON exp) = false) →
  written ns key (Entry data typeJSON exp) w w' → written ns key (Entry data' typeJSON exp) w w'.
Proof.
  intros Hd [Hs Hv]. split; [done|]. intros T HT k. rewrite Hv by done. case_decide; [|done].
  assert (alive T (Entry data' typeJSON exp) = alive T (Entry data typeJSON exp)) as -> by done.
  by rewrite Hd.
Qed.
End written.

Section rows.
Context {GL : GoLib} {JT : JsonText GL} {SJ : SqliteJson GL}.
Implicit Types t : cache_table.

Lemma live_row_Some ns key now d r :
  live_row ns key now d = Some r → db_cache d !! (ns, key) = Some r ∧ live now r = true.
Proof using Type.
  unfold live_row. destruct (db_cache d !! (ns, key)) as [r'|]; simpl; [|done].
  by case_match; intros; simplify_eq.
Qed.

Lemma upsertHash_eq ns key now exp ld fd wh d :
  upsertHashSQL ns key now exp ld fd wh (db_cache d) =
  match live_row ns key now d with
  | None =>
      (1, <[(ns, key) := Row fd typeJSON now exp now 0 (Z.of_nat (String.length fd))]> (db_cache d))
  | Some r =>
      if wh r then
        (1, <[(ns, key) := Row (ld (value r)) typeJSON (created_at r) (expires_at r) now
               (access_count r + 1) (Z.of_nat (String.length (ld (value r))))]> (db_cache d))
      else (0, db_cache d)
  end.
Proof using Type.
  unfold upsertHashSQL, upsert, live_row. destruct (db_cache d !! (ns, key)) as [r|]; [|done].
  simpl. rewrite live_expired. destruct (expired now r); simpl; [done|]. by destruct (wh r).
Qed.

Lemma updateHash_eq ns key now bump nd wh d :
  updateHashSQL ns key now bump nd wh (db_cache d) =
  match live_row ns key now d with
  | None => (0, db_cache d)
  | Some r =>
      if wh r then
        (1, <[(ns, key) := Row (nd (value r)) (value_type r) (created_at r) (expires_at r) now
               (access_count r + bump) (Z.of_nat (String.length (nd (value r))))]> (db_cache d))
      else (0, db_cache d)
  end.
Proof using Type.
  unfold updateHashSQL, update_at, live_row. destruct (db_cache d !! (ns, key)) as [r|]; [|done].
  simpl. by destruct (live now r).
Qed.

Context {JL : JsonTextLaws JT} {SL : SqliteJsonLaws JT SJ}.

(** Documents that the two readers agree on. *)
Definition agrees (o : option row) : Prop :=
  ∀ r, o = Some r → value_type r = typeJSON → agree (value r).

(** The type tests of the two paths are the specification's. *)
Lemma cell_row r : agrees (Some r) →
  match cell_of (Some r) with
  | Missing => False
  | Wrong => hashIsObj r = false
  | Obj l => hashIsObj r = true ∧ value_type r = typeJSON ∧ members (value r) = Some l ∧ agree (value r)
  end.
Proof using Type.
  intros Hag. unfold cell_of, hashIsObj.
  destruct (Z.eqb_spec (value_type r) typeJSON) as [Ht|]; [|done].
  specialize (Hag r eq_refl Ht). unfold agree in Hag. simpl.
  destruct (members (value r)) as [l|] eqn:Hm.
  - destruct Hag as (Hok & Hroot & Heach). split_and!; [by apply bool_decide_true|done|done|].
    unfold agree. by rewrite Hm.
  - by apply bool_decide_false.
Qed.

Lemma agree_members d l : agree d → members d = Some l →
  NoDup l.*1 ∧ Forall field_ok l ∧ json_each d = l.
Proof using JL.
  intros Ha Hm. unfold agree in Ha. rewrite Hm in Ha. destruct Ha as (Hok & _ & He).
  split_and!; [|done|done]. by destruct (members_wf d l Hm).
Qed.

Lemma field_type r l f : hashIsObj r = true → agree (value r) → members (value r) = Some l →
  hashFieldType f r = json_type <$> jsonObject.get l f.
Proof using SL. intros Ho Ha Hm. unfold hashFieldType. rewrite Ho. by apply json_type_law. Qed.

Lemma field_type_wrong r f : hashIsObj r = false → hashFieldType f r = None.
Proof using Type. unfold hashFieldType. by intros ->. Qed.

(** The text the fallback writes. *)
Lemma marshal_agree o : Forall field_ok o → NoDup o.*1 →
  agree (marshal o) ∧ members (marshal o) = Some o.
Proof using JL SL.
  intros Hok Hnd. rewrite marshal_text, compacted_ok by done.
  assert (members (object_text o) = Some o) as Hm by (by apply members_object_text).
  split; [|done]. unfold agree. rewrite Hm. destruct (json_read_law o Hok Hnd). done.
Qed.

(** The empty object of [HSetMany]. *)
Lemma empty_agree : agree "{}" ∧ members "{}" = Some [].
Proof using JL SL.
  change "{}"%string with (object_text []).
  assert (members (object_text []) = Some []) as Hm
    by (apply members_object_text; [constructor|apply NoDup_nil_2]).
  split; [|done]. unfold agree. rewrite Hm.
  destruct (json_read_law [] (Forall_nil_2 _) NoDup_nil_2). by split_and!.
Qed.
End rows.

(** ** Calls that are mere upkeep *)

Ltac hash_calm tac :=
  lazymatch goal with
  | c : Cache |- _ =>
      apply calm_wp with (ns := namespace c); [tac|];
      let a := fresh "a" in let w := fresh "w" in let Hup := fresh "Hup" in
      intros a w Hup
  end.
Ltac hash_go :=
  repeat first
    [ wp_step
    | lazymatch goal with
      | Hu : unlimited ?c = true |- context [precheck ?c _] => rewrite (precheck_unlimited c Hu)
      end
    | lazymatch goal with
      | Hu : unlimited ?c = true |- wp (changed ?c _ _ _) _ _ => hash_calm ltac:(apply (calm_changed c))
      | Hu : unlimited ?c = true |- wp (maybeEvict ?c) _ _ => hash_calm ltac:(apply (calm_maybeEvict c Hu))
      | Hu : unlimited ?c = true |- wp (maybeOpportunisticSweep ?c) _ _ =>
          hash_calm ltac:(apply (calm_maybeOpportunisticSweep c Hu))
      | |- wp (bufferLRU _ _ _) _ _ => hash_calm ltac:(apply calm_bufferLRU)
      end ].
Ltac merge_upkeep :=
  repeat match goal with
  | H1 : upkeep ?ns ?w1 ?w2, H2 : upkeep ?ns ?w2 ?w3 |- _ =>
      pose proof (upkeep_trans ns w1 w2 w3 H1 H2); clear H1 H2
  end.
(** Prove [upkeep] from the steps in the context and steps that keep the table. *)
Ltac upkeep_auto :=
  first
    [ apply upkeep_cache; [simpl; lia|done]
    | match goal with
      | Hup : upkeep ?ns ?w1 ?w2 |- upkeep ?ns ?w ?w' =>
          apply (upkeep_trans ns w w1 w'); [clear Hup; upkeep_auto|];
          apply (upkeep_trans ns w1 w2 w'); [exact Hup|clear Hup; upkeep_auto]
      end ].
(** The same for [written], given a step that writes. *)
Ltac written_auto :=
  merge_upkeep;
  first
    [ eapply written_upkeep; [|by eassumption]; (eapply written_insert; [simpl; lia| |done]; done)
    | eapply written_insert; [simpl; lia| |done]; done
    | eapply written_upkeep; [eapply written_insert; [| |done]; [simpl; lia|done]|upkeep_auto] ].

(** Compute the table a statement sees, and the world after it. *)
Ltac table_step :=
  cbn [w_db w_proc w_step advance with_db with_proc with_intx on_cache fst snd set_cache db_cache].
(** The row just written is the one the specification asks for. *)
Ltac written_row :=
  merge_upkeep;
  lazymatch goal with
  | Hup : upkeep _ _ ?w' |- written _ _ _ _ ?w' => eapply written_upkeep; [|exact Hup]
  | |- _ => idtac
  end;
  eapply written_insert;
    [simpl; lia
    | |cbn [w_db w_proc w_step advance with_db with_proc with_intx on_cache fst snd set_cache db_cache];
       reflexivity];
  unfold entry_of; simpl; congruence.

Definition fields_of (x : hcell) : jsonObject := match x with Obj l => l | _ => [] end.

Section fallback.
Context {H : Host} {GL : GoLib} {CJ : ChangeJson GL} {JT : JsonText GL} {SJ : SqliteJson GL}.
Context {JL : JsonTextLaws JT} {SL : SqliteJsonLaws JT SJ} `{HQ : !Quiet H}.
Context (c : Cache) (Hu : unlimited c = true) (key : string).

Abbreviation live_at w := (live_row (namespace c) key (clock (w_step w)) (w_db w)).

Lemma wp_loadHash now w (Q : result (option jsonObject) → World → Prop) :
  Q (match cell_of (live_row (namespace c) key now (w_db w)) with
     | Missing => Ok None
     | Wrong => Err ErrSerialization
     | Obj l => Ok (Some l)
     end) (advance 0 w) →
  wp (loadHash c key now) w Q.
Proof using HQ.
  intros HQ'. unfold loadHash. wp_go. destruct (live_row _ _ _ _) as [r|]; [|by wp_go].
  cbn [cell_of] in HQ'. unfold members in HQ'.
  destruct (value_type r =? typeJSON); simpl; [|by wp_go].
  destruct (parseJSONObject (value r)) as [[|o]| |]; by wp_go.
Qed.

Definition fresh_exp (ttl : option Z) (w : World) : option Z :=
  match live_at w with Some r => expires_at r | None => expiresAtArg ttl (clock (w_step w)) end.

Lemma wp_rmwHash {A} ttl create (mutate : jsonObject → result (bool * A * jsonObject)) w
    (Q : result A → World → Prop) :
  match cell_of (live_at w) with
  | Wrong => ∀ w', upkeep (namespace c) w w' → Q (Err ErrSerialization) w'
  | x =>
      match mutate (fields_of x) with
      | Err e => ∀ w', upkeep (namespace c) w w' → Q (Err e) w'
      | Hang => ∀ w', upkeep (namespace c) w w' → Q Hang w'
      | Ok (ch, a, o) =>
          if negb ch || match x with Missing => negb create | _ => false end
          then ∀ w', upkeep (namespace c) w w' → Q (Ok a) w'
          else ∀ w', written (namespace c) key (Entry (marshal o) typeJSON (fresh_exp ttl w)) w w' →
                     Q (Ok a) w'
      end
  end →
  wp (rmwHash c key ttl create mutate) w Q.
Proof using HQ Hu.
  unfold fresh_exp. intros HQ'. unfold rmwHash, inImmediate. wp_go. apply wp_loadHash.
  cbn [w_db advance with_intx w_step] in *.
  pose proof (live_row_Some (namespace c) key (clock (w_step w)) (w_db w)) as Hrow.
  assert (∀ r, live_at w = Some r → value_type r = typeJSON ∨ cell_of (Some r) = Wrong) as Hty.
  { intros r _. unfold cell_of. destruct (Z.eqb_spec (value_type r) typeJSON); auto. }
  destruct (live_at w) as [r|] eqn:Hr.
  2:{ cbn [cell_of fields_of] in HQ'. simpl. rewrite Hu, andb_false_r. simpl. wp_go.
      destruct (mutate []) as [[[ch a] o]|e|]; [|apply HQ'; upkeep_auto..].
      destruct (negb ch || negb create) eqn:Hw; cbn [andb] in *; simpl.
      - wp_go. apply HQ'. upkeep_auto.
      - wp_go. simpl. hash_go. apply HQ'. written_auto. }
  specialize (Hty r eq_refl). specialize (Hrow r eq_refl) as [Hrow _].
  destruct (cell_of (Some r)) as [| |l] eqn:Hc.
  - exfalso. unfold cell_of in Hc. by repeat case_match.
  - wp_go. apply HQ'. upkeep_auto.
  - destruct Hty as [Hty|]; [|done]. cbn [fields_of] in HQ'. simpl. wp_go.
    destruct (mutate l) as [[[ch a] o]|e|]; [|apply HQ'; upkeep_auto..].
    simpl. rewrite !orb_false_r in *. destruct (negb ch); wp_go.
    + apply HQ'. upkeep_auto.
    + simpl. unfold rmwUpdateSQL, update_at. rewrite Hrow. simpl. hash_go. apply HQ'.
      merge_upkeep. eapply written_upkeep; [|eassumption].
      eapply written_insert; [simpl; lia| |simpl; done]. unfold entry_of. simpl. by rewrite Hty.
Qed.
End fallback.

(** ** The two implementations meet the specification *)

Section refine.
Context {H : Host} {GL : GoLib} {CJ : ChangeJson GL} {JT : JsonText GL} {SJ : SqliteJson GL}.
Context {JL : JsonTextLaws JT} {SL : SqliteJsonLaws JT SJ} `{HQ : !Quiet H}.
Context (c : Cache) (Hu : unlimited c = true) (key : string).

Abbreviation live_at w := (live_row (namespace c) key (clock (w_step w)) (w_db w)).

Definition refines_hash (op : hash_op) : Prop := ∀ w, agrees (live_at w) → op_ok op →
  wp (run_hash c key op) w (hash_post c key op (clock (w_step w)) (live_at w) w).

Lemma encodeHashValue_no_hang v : encodeHashValue v ≠ Hang.
Proof using Type. unfold encodeHashValue. by repeat case_match. Qed.

Lemma encodeHashValue_text v e : encodeHashValue v = Ok e → json_text e = true.
Proof using JL.
  unfold encodeHashValue. intros Hv.
  assert (∃ buf, Encode v = Some buf ∧ TrimRightNewline buf = e) as (buf & Hb & <-)
    by (repeat (case_hyp Hv; simplify_eq/=); eauto).
  by eapply encode_text.
Qed.

Lemma cell_wf o : agrees o → Forall field_ok (fields_of (cell_of o)) ∧ NoDup (fields_of (cell_of o)).*1.
Proof using JL.
  intros Hag. destruct o as [r|]; [|split; [constructor|apply NoDup_nil_2]].
  pose proof (cell_row r Hag) as Hc. destruct (cell_of (Some r)) as [| |l]; [done| |].
  - split; [constructor|apply NoDup_nil_2].
  - destruct Hc as (_ & _ & Hm & Ha). by destruct (agree_members _ _ Ha Hm) as (? & ? & _).
Qed.

(** Replies wrapped into [hash_reply]. *)
Lemma wp_wrap {A} (m : M A) (f : A → hash_reply) w (Q : result hash_reply → World → Prop) :
  wp m w (λ r w', Q (f <$> r) w') → wp (x ← m; mret (f x)) w Q.
Proof using Type. unfold wp, mbind, M_bind. by destruct (m w) as [[]]. Qed.

(** The new document of the fallback. *)
Lemma fallback_doc (x : hcell) op o w w' l :
  agrees o → x = cell_of o → fresh_exp c key (applySetOptions (op_opts op)) w =
    match o with Some r => expires_at r | None => expiresAtArg (applySetOptions (op_opts op)) (clock (w_step w)) end →
  Forall field_ok l → NoDup l.*1 →
  written (namespace c) key
    (Entry (marshal l) typeJSON (fresh_exp c key (applySetOptions (op_opts op)) w)) w w' →
  ∃ data, members data = Some l ∧ agree data ∧ written (namespace c) key
    (Entry data typeJSON
       (match o with Some r => expires_at r | None => expiresAtArg (applySetOptions (op_opts op)) (clock (w_step w)) end)) w w'.
Proof using JL SL.
  intros Hag -> <- Hok Hnd Hw. exists (marshal l).
  destruct (marshal_agree l Hok Hnd). by split_and!.
Qed.

Lemma live_row_cache ns k now d d' : db_cache d = db_cache d' →
  live_row ns k now d = live_row ns k now d'.
Proof using Type. unfold live_row. by intros ->. Qed.

Lemma wp_checkHashType now w (Q : result () → World → Prop) :
  Q (match live_row (namespace c) key now (w_db w) with
     | None => Ok tt
     | Some r => if hashIsObj r then Ok tt else Err ErrSerialization
     end) (advance 0 w) →
  wp (checkHashType c key now) w Q.
Proof using HQ.
  intros HQ'. unfold checkHashType. wp_go. destruct (live_row _ _ _ _) as [r|]; [|by wp_go].
  destruct (hashIsObj r); by wp_go.
Qed.

Lemma refines_OSet f v opts : refines_hash (OSet f v opts).
Proof using HQ Hu JL SL.
  intros w Hag Hok. cbn [op_ok] in Hok. cbn [run_hash]. apply wp_wrap.
  unfold HSet, hash_post. cbn [hash_spec op_opts].
  pose proof (encodeHashValue_no_hang v) as Hnh. pose proof (encodeHashValue_text v) as Htext.
  apply wp_bind, wp_lift. destruct (encodeHashValue v) as [e|er|]; [|by split|done].
  specialize (Htext e eq_refl). cbn [encoded].
  destruct (cell_wf _ Hag) as [Hwf Hnd].
  destruct (json1 c); cbn [negb].
  2:{ apply wp_rmwHash; [done..|].
      destruct (cell_of (live_at w)) eqn:Hc; cbn [on_fields fields_of negb orb fmap result_fmap] in *;
        [..|]; try (intros w' Hup; by split).
      all: intros w' Hw; split; [done|].
      all: eapply (fallback_doc _ (OSet f v opts)); [exact Hag|symmetry; exact Hc|done| |by apply jsonObject.NoDup_set|exact Hw].
      all: by apply Forall_set. }
  match goal with |- wp _ _ ?Q => set (P := Q) end.
  unfold capacityCheck. hash_go. cbn [w_db advance with_intx w_step on_cache fst snd].
  rewrite !upsertHash_eq. cbn [w_db advance with_intx w_step set_cache db_cache].
  destruct (live_at w) as [r|] eqn:Hr.
  2:{ cbn [fst snd Z.eqb Pos.eqb]. hash_go. subst P. cbn. split; [done|].
      destruct (json_object_law f e Hok Htext). exists (json_object f e).
      split_and!; [done|done|]. written_auto. }
  pose proof (cell_row r Hag) as Hcell. pose proof (live_row_Some _ _ _ _ _ Hr) as [Hrow Hlive].
  destruct (cell_of (Some r)) as [| |l]; [done| |].
  - rewrite (field_type_wrong r f), Hcell, andb_false_r by done. cbn [fst snd Z.eqb].
    hash_go. table_step. rewrite updateHash_eq, Hr, Hcell. cbn [fst snd Z.eqb]. hash_go.
    apply wp_checkHashType. rewrite (live_row_cache _ _ _ _ (w_db w)), Hr, Hcell by done.
    subst P. cbn. split; [done|]. upkeep_auto.
  - destruct Hcell as (Hobj & Hty & Hm & Ha). rewrite (field_type r l f) by done.
    destruct (json_set_law _ _ f e Ha Hm Hok Htext) as [Ha' Hm'].
    rewrite Hobj, andb_true_r. destruct (jsonObject.get l f) as [x|] eqn:Hg; cbn [fmap option_fmap option_map].
    + rewrite bool_decide_false by done. cbn [fst snd Z.eqb]. hash_go. table_step.
      rewrite updateHash_eq, Hr, Hobj. cbn [fst snd Z.eqb]. hash_go. subst P. cbn.
      rewrite jsonObject.has_get, Hg. split; [done|]. exists (json_set (value r) f e).
      split_and!; [done|done|]. written_row.
    + rewrite bool_decide_true by done. cbn [fst snd Z.eqb Pos.eqb]. hash_go. subst P. cbn.
      rewrite jsonObject.has_get, Hg. split; [done|]. exists (json_set (value r) f e).
      split_and!; [done|done|]. written_row.
Qed.

Lemma refines_OSetNX f v opts : refines_hash (OSetNX f v opts).
Proof using HQ Hu JL SL.
  intros w Hag Hok. cbn [op_ok] in Hok. cbn [run_hash]. apply wp_wrap.
  unfold HSetNX, hash_post. cbn [hash_spec op_opts].
  pose proof (encodeHashValue_no_hang v) as Hnh. pose proof (encodeHashValue_text v) as Htext.
  apply wp_bind, wp_lift. destruct (encodeHashValue v) as [e|er|]; [|by split|done].
  specialize (Htext e eq_refl). cbn [encoded].
  destruct (cell_wf _ Hag) as [Hwf Hnd].
  destruct (json1 c); cbn [negb].
  2:{ apply wp_rmwHash; [done..|].
      destruct (cell_of (live_at w)) eqn:Hc; cbn [on_fields fields_of] in *;
        [|by intros w' Hup; split|];
        (destruct (jsonObject.has _ f); [by intros w' Hup; split|]).
      all: cbn [negb orb fmap result_fmap]; intros w' Hw; split; [done|].
      all: eapply (fallback_doc _ (OSetNX f v opts)); [exact Hag|symmetry; exact Hc|done| |by apply jsonObject.NoDup_set|exact Hw].
      all: by apply Forall_set. }
  match goal with |- wp _ _ ?Q => set (P := Q) end.
  unfold capacityCheck. hash_go. table_step. rewrite !upsertHash_eq. table_step.
  destruct (live_at w) as [r|] eqn:Hr.
  2:{ cbn [fst snd Z.eqb Pos.eqb when]. hash_go. cbn [when]. hash_go. subst P. cbn. split; [done|].
      destruct (json_object_law f e Hok Htext). exists (json_object f e).
      split_and!; [done|done|]. written_auto. }
  pose proof (cell_row r Hag) as Hcell. pose proof (live_row_Some _ _ _ _ _ Hr) as [Hrow Hlive].
  destruct (cell_of (Some r)) as [| |l]; [done| |].
  - rewrite (field_type_wrong r f), Hcell, andb_false_r by done. cbn [fst snd Z.eqb].
    hash_go. apply wp_checkHashType. rewrite (live_row_cache _ _ _ _ (w_db w)), Hr, Hcell by done.
    subst P. cbn. split; [done|]. upkeep_auto.
  - destruct Hcell as (Hobj & Hty & Hm & Ha). rewrite (field_type r l f) by done.
    destruct (json_set_law _ _ f e Ha Hm Hok Htext) as [Ha' Hm'].
    rewrite Hobj, andb_true_r. destruct (jsonObject.get l f) as [x|] eqn:Hg; cbn [fmap option_fmap option_map].
    + rewrite bool_decide_false by done. cbn [fst snd Z.eqb]. hash_go. apply wp_checkHashType.
      rewrite (live_row_cache _ _ _ _ (w_db w)), Hr, Hobj by done. hash_go. cbn [when]. hash_go.
      subst P. cbn. rewrite jsonObject.has_get, Hg. split; [done|]. upkeep_auto.
    + rewrite bool_decide_true by done. cbn [fst snd Z.eqb Pos.eqb]. hash_go. cbn [when]. hash_go.
      subst P. cbn. rewrite jsonObject.has_get, Hg. split; [done|]. exists (json_set (value r) f e).
      split_and!; [done|done|]. written_row.
Qed.

(** *** Several fields *)

Lemma chunks_go_concat {A} n fuel (l : list A) :
  (0 < n)%nat → (length l ≤ fuel)%nat → mjoin (chunks_go fuel n l) = l.
Proof using Type.
  intros Hn. revert l. induction fuel as [|fuel IH]; intros l Hf.
  - by destruct l; simpl in Hf; [|lia].
  - cbn [chunks_go]. destruct l as [|x l]; [done|]. cbn [mjoin list_join].
    change (mjoin (A:=A)) with (@list_join A) in IH. rewrite IH, take_drop; [done|].
    rewrite length_drop. simpl in *. lia.
Qed.

Lemma chunks_concat {A} n (l : list A) : (0 < n)%nat → mjoin (chunks n l) = l.
Proof using Type. intros. by apply chunks_go_concat. Qed.

Lemma json_sets_law pairs d l : agree d → members d = Some l → Forall field_ok pairs →
  let d' := foldl (λ d p, json_set d p.1 p.2) d pairs in
  agree d' ∧ members d' = Some (jsonObject.set_all l pairs).
Proof using SL.
  revert d l. induction pairs as [|[k v] pairs IH]; intros d l Ha Hm Hok; [done|].
  apply Forall_cons in Hok as [[Hk Hv] Hok].
  destruct (json_set_law d l k v Ha Hm Hk Hv). by apply (IH (json_set d k v) (jsonObject.set l k v)).
Qed.

Lemma set_groups_law pairs d l : agree d → members d = Some l → Forall field_ok pairs →
  agree (set_groups d pairs) ∧ members (set_groups d pairs) = Some (jsonObject.set_all l pairs).
Proof using SL.
  intros Ha Hm Hok. unfold set_groups.
  rewrite <- (chunks_concat jsonSetPairsPerCall pairs) in Hok by (unfold jsonSetPairsPerCall; lia).
  rewrite <- (chunks_concat jsonSetPairsPerCall pairs) at 3 by (unfold jsonSetPairsPerCall; lia).
  revert d l Ha Hm. induction (chunks _ pairs) as [|g gs IH]; intros d l Ha Hm; [done|].
  cbn [mjoin list_join] in *. apply Forall_app in Hok as [Hg Hgs].
  destruct (json_sets_law g d l Ha Hm Hg) as [Ha' Hm']. cbn [foldl]. rewrite set_all_app. by apply IH.
Qed.

Definition entry_written (e : entry) (w w' : World) : Prop :=
  (w_step w ≤ w_step w')%nat ∧ ∃ r', entry_of r' = e ∧
    db_cache (w_db w') = <[(namespace c, key) := r']> (db_cache (w_db w)).

(** The statements of [HSetMany] on a live object. *)
Lemma wp_hset_live now exp stmts w r l (Q : result () → World → Prop) :
  Forall (Forall field_ok) stmts →
  live_row (namespace c) key now (w_db w) = Some r →
  hashIsObj r = true → value_type r = typeJSON → agree (value r) → members (value r) = Some l →
  (∀ w' data, agree data → members data = Some (jsonObject.set_all l (mjoin stmts)) →
     entry_written (Entry data typeJSON (expires_at r)) w w' → Q (Ok tt) w') →
  wp (hset_statements c key now exp stmts) w Q.
Proof using HQ SL.
  revert w r l. induction stmts as [|pairs stmts IH]; intros w r l Hok Hr Hobj Hty Ha Hm HQ'.
  { apply wp_ret. apply (HQ' w (value r)); [done|done|]. split; [done|]. exists r.
    apply live_row_Some in Hr as [Hr _]. split; [by rewrite <- Hty|]. by rewrite insert_id. }
  apply Forall_cons in Hok as [Hp Hok].
  destruct (set_groups_law pairs (value r) l Ha Hm Hp) as [Ha' Hm'].
  cbn [hset_statements]. hash_go. table_step. rewrite !upsertHash_eq, Hr, Hobj. cbn [fst snd Z.eqb Pos.eqb].
  apply live_row_Some in Hr as [Hr Hl].
  eapply IH; [done|..].
  - unfold live_row. table_step. rewrite lookup_insert_eq. simpl. unfold live in *. cbn [expires_at].
    rewrite Hl. reflexivity.
  - unfold hashIsObj. simpl. unfold agree in Ha'. rewrite Hm' in Ha'. destruct Ha' as (_ & Hroot & _).
    by apply bool_decide_true.
  - done.
  - exact Ha'.
  - exact Hm'.
  - intros w' data Hda Hdm [Hs (r' & Hr' & Hc)]. apply (HQ' w' data); [done| |].
    + cbn [mjoin list_join]. by rewrite set_all_app.
    + split; [simpl in Hs; lia|]. exists r'. split; [by rewrite Hr'|]. rewrite Hc. table_step.
      by rewrite insert_insert_eq.
Qed.

(** On a key without a live row, with an expiry that has already passed. *)
Lemma wp_hset_dead now exp stmts w (Q : result () → World → Prop) :
  live_row (namespace c) key now (w_db w) = None → stmts ≠ [] →
  match exp with Some x => x ≤ now | None => False end →
  (∀ w' data, entry_written (Entry data typeJSON exp) w w' → Q (Ok tt) w') →
  wp (hset_statements c key now exp stmts) w Q.
Proof using HQ.
  intros Hr Hne Hexp. destruct exp as [x|]; [|done].
  revert w Hr. induction stmts as [|pairs stmts IH]; intros w Hr HQ'; [done|].
  cbn [hset_statements]. hash_go. table_step. rewrite !upsertHash_eq, Hr. cbn [fst snd Z.eqb Pos.eqb].
  destruct (decide (stmts = [])) as [->|Hst].
  { apply wp_ret. eapply HQ'. split; [simpl; lia|]. eexists. split; [|reflexivity]. done. }
  apply IH; [done| |].
  - unfold live_row. table_step. rewrite lookup_insert_eq. simpl. unfold live. simpl.
    by rewrite (proj2 (Z.ltb_ge _ _)).
  - intros w' data [Hs (r' & Hr' & Hc)]. apply (HQ' w' data). split; [simpl in Hs; lia|].
    exists r'. split; [done|]. rewrite Hc. table_step. by rewrite insert_insert_eq.
Qed.

Lemma encode_fields_no_hang l : encode_fields l ≠ Hang.
Proof using Type.
  induction l as [|[f v] l IH]; [done|]. cbn [encode_fields]. pose proof (encodeHashValue_no_hang v).
  destruct (encodeHashValue v); [|done..]. unfold mbind, result_bind. by destruct (encode_fields l).
Qed.

Lemma encode_fields_ok l es : encode_fields l = Ok es →
  Forall (λ p, name_ok p.1 = true) l → Forall field_ok es ∧ es.*1 = l.*1.
Proof using JL.
  revert es. induction l as [|[f v] l IH]; intros es He Hok; cbn [encode_fields] in He.
  { simplify_eq. by split. }
  apply Forall_cons in Hok as [Hf Hok]. pose proof (encodeHashValue_text v) as Ht.
  destruct (encodeHashValue v) as [e| |]; try done. specialize (Ht e eq_refl).
  unfold mbind, result_bind in He. destruct (encode_fields l) as [es'| |]; try done. simplify_eq.
  destruct (IH es' eq_refl Hok) as [Hes Hn]. split; [by constructor|]. by rewrite !fmap_cons, Hn.
Qed.

Lemma elem_of_sorted_fields (fs : gmap string any) f v :
  (f, v) ∈ sorted_fields fs ↔ fs !! f = Some v.
Proof using Type.
  unfold sorted_fields. rewrite list_elem_of_omap. split.
  - intros (x & _ & Hx). destruct (fs !! x) as [v'|] eqn:E; simpl in Hx; [|done]. by simplify_eq.
  - intros Hf. exists f. rewrite Hf. split; [|done]. unfold sortedKeys, sort_strings.
    rewrite merge_sort_Permutation. apply list_elem_of_fmap. exists (f, v). split; [done|].
    by apply elem_of_map_to_list.
Qed.

Lemma sorted_fields_ok (fs : gmap string any) :
  (∀ f, is_Some (fs !! f) → name_ok f = true) → Forall (λ p, name_ok p.1 = true) (sorted_fields fs).
Proof using Type.
  intros Hok. apply Forall_forall. intros [f v] Hf%elem_of_sorted_fields. apply Hok. by exists v.
Qed.

Lemma sorted_fields_nonempty (fs : gmap string any) : fs ≠ ∅ → sorted_fields fs ≠ [].
Proof using Type.
  intros Hne Hs. apply map_choose in Hne as (f & v & Hf).
  apply elem_of_sorted_fields in Hf. rewrite Hs in Hf. by apply not_elem_of_nil in Hf.
Qed.

Lemma chunks_nonempty {A} n (l : list A) : l ≠ [] → ∃ g gs, chunks n l = g :: gs.
Proof using Type. destruct l as [|x l]; [done|]. intros _. by eexists _, _. Qed.

Lemma Forall_chunks {A} (P : A → Prop) n (l : list A) :
  (0 < n)%nat → Forall P l → Forall (Forall P) (chunks n l).
Proof using Type.
  intros Hn Hl. rewrite <- (chunks_concat n l Hn) in Hl.
  induction (chunks n l) as [|g gs IH]; [done|]. cbn [mjoin list_join] in Hl.
  apply Forall_app in Hl as []. constructor; [done|]. by apply IH.
Qed.

(** The transaction of [HSetMany]. *)
Lemma wp_hset_statements now exp es w (Q : result () → World → Prop) :
  Forall field_ok es → es ≠ [] → NoDup es.*1 →
  let o := live_row (namespace c) key now (w_db w) in agrees o →
  match cell_of o with
  | Wrong => ∀ w', (w_step w ≤ w_step w')%nat → db_cache (w_db w') = db_cache (w_db w) →
               Q (Err ErrSerialization) w'
  | x => ∀ w' data data', members data = Some (jsonObject.set_all (fields_of x) es) → agree data →
      (data' = data ∨ match exp with Some x => x ≤ now | None => False end ∧ o = None) →
      entry_written (Entry data' typeJSON (match o with Some r => expires_at r | None => exp end)) w w' →
      Q (Ok tt) w'
  end →
  wp (hset_statements c key now exp (chunks hsetManyPerStatement es)) w Q.
Proof using HQ JL SL.
  intros Hok Hne Hndes o Hag HQ'. unfold o in *. clear o.
  assert (0 < hsetManyPerStatement)%nat as Hpos by (unfold hsetManyPerStatement; lia).
  assert (0 < jsonSetPairsPerCall)%nat as Hpos' by (unfold jsonSetPairsPerCall; lia).
  pose proof (Forall_chunks _ _ _ Hpos Hok) as Hchunks.
  pose proof (chunks_concat hsetManyPerStatement es Hpos) as Hcat.
  destruct (chunks_nonempty hsetManyPerStatement es Hne) as (g & gs & Hch). rewrite Hch in *.
  destruct (live_row _ _ _ (w_db w)) as [r|] eqn:Hr.
  - pose proof (cell_row r Hag) as Hcell. destruct (cell_of (Some r)) as [| |l]; [done| |].
    + cbn [hset_statements]. hash_go. table_step. rewrite !upsertHash_eq, Hr, Hcell. cbn [fst snd Z.eqb].
      apply wp_checkHashType. rewrite (live_row_cache _ _ _ _ (w_db w)), Hr, Hcell by done.
      apply HQ'; [simpl; lia|done].
    + destruct Hcell as (Hobj & Hty & Hm & Ha). eapply wp_hset_live; try done.
      rewrite Hcat. intros w' data Hda Hdm He. apply (HQ' w' data data); auto.
  - destruct empty_agree as [Ha0 Hm0]. cbn [cell_of fields_of] in HQ'.
    assert (∃ data0, members data0 = Some (jsonObject.set_all [] es) ∧ agree data0) as (data0 & Hd0 & Hda0).
    { exists (marshal (jsonObject.set_all [] es)).
      rewrite set_all_fresh by done. by destruct (marshal_agree es Hok Hndes). }
    assert (match exp with Some x => x ≤ now | None => False end ∨
            match exp with Some x => now < x | None => True end) as [Hdead|Hlive].
    { destruct exp as [x|]; [lia|by right]. }
    { apply wp_hset_dead; [done|done|done|]. intros w' data He. apply (HQ' w' data0 data); auto. }
    apply Forall_cons in Hchunks as [Hg Hgs].
    destruct (set_groups_law g "{}" [] Ha0 Hm0 Hg) as [Ha Hm].
    cbn [hset_statements]. hash_go. table_step. rewrite !upsertHash_eq, Hr. cbn [fst snd Z.eqb Pos.eqb].
    eapply wp_hset_live; [done|..].
    + unfold live_row. table_step. rewrite lookup_insert_eq. simpl. unfold live. cbn [expires_at].
      instantiate (1 := Row _ _ _ _ _ _ _). destruct exp as [x|]; [|reflexivity].
      rewrite (proj2 (Z.ltb_lt _ _)) by lia. reflexivity.
    + unfold hashIsObj. simpl. unfold agree in Ha. rewrite Hm in Ha. destruct Ha as (_ & Hroot & _).
      by apply bool_decide_true.
    + done.
    + exact Ha.
    + exact Hm.
    + intros w' data Hda Hdm [Hs (r' & Hr' & Hc)]. cbn [mjoin list_join] in Hcat.
      apply (HQ' w' data data); [|done|by left|].
      * rewrite <- Hcat, set_all_app. exact Hdm.
      * split; [simpl in Hs; lia|]. exists r'. split; [done|]. rewrite Hc. table_step.
        by rewrite insert_insert_eq.
Qed.

Lemma NoDup_sorted_fields (fs : gmap string any) : NoDup (sorted_fields fs).*1.
Proof using Type.
  unfold sorted_fields.
  assert (NoDup (sortedKeys fs)) as Hnd.
  { unfold sortedKeys, sort_strings. rewrite merge_sort_Permutation. apply NoDup_fst_map_to_list. }
  induction (sortedKeys fs) as [|f ks IH]; [constructor|]. apply NoDup_cons in Hnd as [Hni Hnd].
  cbn [omap list_omap]. change (list_omap _ _ ?g ks) with (omap g ks).
  destruct (fs !! f) as [v|]; simpl; [|by apply IH]. constructor; [|by apply IH].
  intros ([f' v'] & Hf & Hin)%list_elem_of_fmap. simpl in Hf. subst f'.
  apply list_elem_of_omap in Hin as (x & Hx & Hv). by destruct (fs !! x); simplify_eq/=.
Qed.

Lemma written_entry e w w' : entry_written e w w' → written (namespace c) key e w w'.
Proof using Type. intros [Hs (r & Hr & Hc)]. by eapply written_insert. Qed.

Lemma written_before e w w1 w2 :
  upkeep (namespace c) w w1 → written (namespace c) key e w1 w2 → written (namespace c) key e w w2.
Proof using Type.
  intros [Hs1 H1] [Hs2 H2]. split; [lia|]. intros T HT k. rewrite H2 by done. case_decide; [done|].
  apply H1. by eapply stamp_le.
Qed.

Lemma refines_OSetMany fs opts : refines_hash (OSetMany fs opts).
Proof using HQ Hu JL SL.
  intros w Hag Hok. cbn [op_ok] in Hok. cbn [run_hash].
  unfold HSetMany, hash_post. cbn [hash_spec op_opts].
  case_bool_decide as He; [wp_go; split; [done|apply upkeep_refl]|].
  pose proof (encode_fields_no_hang (sorted_fields fs)) as Hnh.
  pose proof (encode_fields_ok (sorted_fields fs)) as Henc.
  apply wp_bind, wp_bind, wp_lift.
  destruct (encode_fields (sorted_fields fs)) as [es|er|]; [|by split|done].
  specialize (Henc es eq_refl (sorted_fields_ok fs Hok)) as [Hes Hnames]. cbn [encoded].
  assert (NoDup es.*1) as Hndes by (rewrite Hnames; apply NoDup_sorted_fields).
  assert (es ≠ []) as Hne.
  { intros ->. by apply (sorted_fields_nonempty fs He), (fmap_nil_inv fst). }
  destruct (cell_wf _ Hag) as [Hwf Hnd].
  destruct (json1 c); cbn [negb].
  2:{ apply wp_rmwHash; [done..|].
      destruct (cell_of (live_at w)) eqn:Hc; cbn [on_fields fields_of negb orb] in *;
        [|intros w' Hup; by split|].
      all: intros w' Hw; wp_go; split; [done|].
      all: eapply (fallback_doc _ (OSetMany fs opts)); [exact Hag|symmetry; exact Hc|done| |by apply NoDup_set_all|exact Hw].
      all: by apply Forall_set_all. }
  match goal with |- wp _ _ ?Q => set (P := Q) end.
  unfold capacityCheck. hash_go. table_step. apply (wp_hset_statements _ _ es); [done..|].
  table_step. destruct (cell_of (live_at w)) eqn:Hc; cbn [fields_of].
  2:{ intros w' Hs Hcache. subst P. cbn. split; [done|]. apply upkeep_cache; [simpl in *; lia|done]. }
  all: intros w' data data' Hm Ha Hdd Hw; hash_go; subst P; wp_go; cbn [on_fields]; split; [done|].
  all: apply written_entry in Hw; exists data; split_and!; [done|done|]; merge_upkeep.
  all: eapply written_upkeep; [|eassumption].
  all: apply (written_upkeep _ _ _ w w'); [|apply upkeep_cache; [|reflexivity]; simpl; lia].
  all: apply (written_before _ w (with_intx true (advance 0 (advance 0 w))));
    [apply upkeep_cache; [|reflexivity]; simpl; lia|].
  all: destruct Hdd as [->|[Hdead Ho]]; [exact Hw|].
  all: rewrite Ho in *.
  all: eapply written_dead; [|exact Hw]; intros T HT.
  all: destruct (expiresAtArg _ _) as [x|]; [|done]; unfold alive; simpl; apply Z.ltb_ge.
  all: specialize (HT (w_step w)); destruct Hw as [Hs _]; simpl in Hs; lia.
Qed.

(** *** Deleting fields *)

Lemma del_get l f : (jsonObject.del l f).1 = bool_decide (is_Some (jsonObject.get l f)).
Proof using Type.
  rewrite <- jsonObject.has_get. unfold jsonObject.del, jsonObject.has. by destruct (jsonObject.index l f).
Qed.

Lemma del_absent l f : jsonObject.get l f = None → jsonObject.del l f = (false, l).
Proof using Type.
  intros Hg. pose proof (del_get l f) as Hd. rewrite Hg in Hd.
  unfold jsonObject.del in *. by destruct (jsonObject.index l f).
Qed.

Lemma del_all_cons l f ks :
  jsonObject.del_all l (f :: ks) =
  (((if (jsonObject.del l f).1 then 1 else 0) + (jsonObject.del_all (jsonObject.del l f).2 ks).1)%nat,
   (jsonObject.del_all (jsonObject.del l f).2 ks).2).
Proof using Type.
  cbn [jsonObject.del_all]. destruct (jsonObject.del l f) as [[] l1]; cbn [fst snd];
    by destruct (jsonObject.del_all l1 ks).
Qed.

Lemma del_all_wf l ks : Forall field_ok l → NoDup l.*1 →
  Forall field_ok (jsonObject.del_all l ks).2 ∧ NoDup (jsonObject.del_all l ks).2.*1.
Proof using Type.
  revert l. induction ks as [|k ks IH]; intros l Hok Hnd; [done|]. rewrite del_all_cons.
  apply IH; [by apply Forall_del|by apply NoDup_del].
Qed.

Lemma del_all_nil ks : jsonObject.del_all [] ks = (0%nat, []).
Proof using Type. induction ks as [|k ks IH]; [done|]. rewrite del_all_cons. cbn. by rewrite IH. Qed.

Lemma wp_hdel_live now fields w r l removed (Q : result Z → World → Prop) :
  live_row (namespace c) key now (w_db w) = Some r →
  hashIsObj r = true → value_type r = typeJSON → agree (value r) → members (value r) = Some l →
  (∀ w' data, agree data → members data = Some (jsonObject.del_all l fields).2 →
     ((jsonObject.del_all l fields).1 = 0%nat → data = value r) →
     entry_written (Entry data typeJSON (expires_at r)) w w' →
     Q (Ok (removed + Z.of_nat (jsonObject.del_all l fields).1)) w') →
  wp (hdel_statements c key now removed fields) w Q.
Proof using HQ SL.
  revert w r l removed. induction fields as [|f fields IH]; intros w r l removed Hr Hobj Hty Ha Hm HQ'.
  { apply wp_ret. cbn [jsonObject.del_all fst snd] in HQ'. rewrite Z.add_0_r in HQ'.
    apply (HQ' w (value r)); [done|done|done|]. split; [done|]. exists r.
    apply live_row_Some in Hr as [Hr _]. split; [by rewrite <- Hty|]. by rewrite insert_id. }
  rewrite del_all_cons, del_get in HQ'. cbn [fst snd] in HQ'.
  cbn [hdel_statements]. hash_go. table_step. rewrite !updateHash_eq, Hr, (field_type r l f) by done.
  pose proof (live_row_Some _ _ _ _ _ Hr) as [Hrow Hl].
  destruct (jsonObject.get l f) as [x|] eqn:Hg.
  - rewrite !bool_decide_true in HQ' by eauto. rewrite bool_decide_true by (by eexists).
    cbn [fst snd]. destruct (json_remove_law (value r) l f Ha Hm) as [Ha' Hm'].
    eapply IH.
    + unfold live_row. table_step. rewrite lookup_insert_eq. simpl. unfold live in *. cbn [expires_at].
      rewrite Hl. reflexivity.
    + unfold hashIsObj. cbn [value value_type]. rewrite Hty. simpl. unfold agree in Ha'.
      rewrite Hm' in Ha'. destruct Ha' as (_ & Hroot & _). by apply bool_decide_true.
    + done.
    + exact Ha'.
    + exact Hm'.
    + intros w' data Hda Hdm _ [Hs (r' & Hr' & Hc)].
      replace (removed + 1 + _) with (removed +
        Z.of_nat (1 + (jsonObject.del_all (jsonObject.del l f).2 fields).1)) by lia.
      apply (HQ' w' data); [done|done|done|]. split; [simpl in Hs; lia|].
      exists r'. split; [by rewrite Hr'|]. rewrite Hc. table_step. by rewrite insert_insert_eq.
  - rewrite (del_absent l f Hg) in HQ'. rewrite !bool_decide_false in HQ' by (by intros []).
    rewrite bool_decide_false by (by intros []). cbn [fst snd].
    eapply (IH _ r l); [|done..|].
    { table_step. by rewrite (live_row_cache _ _ _ _ (w_db w)). }
    rewrite Z.add_0_r. intros w' data Hda Hdm Hz [Hs Hr'].
    apply (HQ' w' data); [done|done|done|]. split; [simpl in Hs; lia|done].
Qed.

(** No statement of [HDel] applies. *)
Lemma wp_hdel_none now fields w removed (Q : result Z → World → Prop) :
  match live_row (namespace c) key now (w_db w) with Some r => hashIsObj r = false | None => True end →
  (∀ w', (w_step w ≤ w_step w')%nat → db_cache (w_db w') = db_cache (w_db w) → Q (Ok removed) w') →
  wp (hdel_statements c key now removed fields) w Q.
Proof using HQ.
  revert w. induction fields as [|f fields IH]; intros w Hr HQ'; [by apply wp_ret, HQ'|].
  cbn [hdel_statements]. hash_go. table_step. rewrite !updateHash_eq.
  assert ((match live_row (namespace c) key now (w_db w) with
    | Some r => if bool_decide (is_Some (hashFieldType f r)) then _ else (0, db_cache (w_db w))
    | None => (0, db_cache (w_db w)) end) = (0, db_cache (w_db w))) as ->.
  { destruct (live_row _ _ _ _) as [r|]; [|done]. rewrite (field_type_wrong r f Hr).
    by rewrite bool_decide_false by (by intros []). }
  cbn [fst snd]. rewrite Z.add_0_r. apply IH.
  - table_step. by rewrite (live_row_cache _ _ _ _ (w_db w)).
  - intros w' Hs Hc. apply HQ'; [simpl in Hs; lia|done].
Qed.

(** Writing the entry a key already shows is upkeep. *)
Lemma written_same r w w' :
  live_at w = Some r → written (namespace c) key (entry_of r) w w' → upkeep (namespace c) w w'.
Proof using Type.
  intros [Hr Hl]%live_row_Some [Hs Hv]. split; [done|]. intros T HT k. rewrite Hv by done.
  case_decide; [subst|done]. unfold view. rewrite Hr. simpl. done.
Qed.

Lemma ODel_fallback fs : json1 c = false → refines_hash (ODel fs).
Proof using HQ Hu JL SL.
  intros Hj w Hag _. cbn [run_hash]. apply wp_wrap.
  unfold HDel, hash_post. cbn [hash_spec op_opts]. rewrite Hj. cbn [negb].
  destruct (dedupe fs) as [|k0 ks0] eqn:Hks; [apply wp_ret; split; [done|apply upkeep_refl]|].
  set (ks := k0 :: ks0). clearbody ks. clear Hks k0 ks0.
  destruct (cell_wf _ Hag) as [Hwf Hnd]. pose proof (del_all_wf _ ks Hwf Hnd) as [Hwf' Hnd'].
  apply wp_rmwHash; [done..|].
  destruct (cell_of (live_at w)) eqn:Hc; cbn [on_fields fields_of] in *.
  - rewrite del_all_nil. cbn. intros w' Hup. by split.
  - intros w' Hup. by split.
  - destruct (jsonObject.del_all l ks) as [n l'] eqn:Hd. cbn [fst snd] in *.
    case_bool_decide as Hn; cbn [negb orb fmap result_fmap]; intros w' Hw; (split; [done|]); [|done].
    by eapply (fallback_doc _ (ODel fs)).
Qed.

(** What a statement left of an object is still one. *)
Lemma entry_object now r data l e w w' :
  live_row (namespace c) key now (w_db w) = Some r → expires_at r = e → agree data → members data = Some l →
  entry_written (Entry data typeJSON e) w w' →
  ∃ r', live_row (namespace c) key now (w_db w') = Some r' ∧ hashIsObj r' = true.
Proof using Type.
  intros [_ Hl]%live_row_Some <- Hda Hdm [_ (r' & Hr' & Hc)]. injection Hr' as Hv' Ht' He'.
  exists r'. unfold live_row. rewrite Hc, lookup_insert_eq. simpl. unfold live in *. rewrite He', Hl.
  split; [done|]. unfold hashIsObj. rewrite Ht', Hv'. simpl.
  unfold agree in Hda. rewrite Hdm in Hda. destruct Hda as (_ & Hroot & _). by rewrite bool_decide_true.
Qed.

Lemma ODel_json1 fs : json1 c = true → refines_hash (ODel fs).
Proof using HQ Hu JL SL.
  intros Hj w Hag _. cbn [run_hash]. apply wp_wrap.
  unfold HDel, hash_post. cbn [hash_spec op_opts]. rewrite Hj. cbn [negb].
  destruct (dedupe fs) as [|k0 ks0] eqn:Hks; [apply wp_ret; split; [done|apply upkeep_refl]|].
  set (ks := k0 :: ks0). clearbody ks. clear Hks k0 ks0.
  match goal with |- wp _ _ ?Q => set (P := Q) end. hash_go.
  destruct (live_at w) as [r|] eqn:Hr.
  2:{ apply wp_hdel_none; [table_step; by rewrite Hr|].
      table_step. intros w' Hs Hc. cbn [Z.eqb]. hash_go. apply wp_checkHashType.
      rewrite (live_row_cache _ _ _ _ (w_db w)), Hr by done. hash_go. cbn [Z.ltb Z.compare when]. hash_go.
      subst P. cbn [cell_of on_fields]. rewrite del_all_nil. cbn. split; [done|].
      apply upkeep_cache; [simpl in *; lia|done]. }
  pose proof (cell_row r Hag) as Hcell. destruct (cell_of (Some r)) as [| |l]; [done| |].
  - apply wp_hdel_none; [table_step; by rewrite Hr|].
    table_step. intros w' Hs Hc. cbn [Z.eqb]. hash_go. apply wp_checkHashType.
    rewrite (live_row_cache _ _ _ _ (w_db w)), Hr, Hcell by done.
    subst P. cbn. split; [done|]. apply upkeep_cache; [simpl in *; lia|done].
  - destruct Hcell as (Hobj & Hty & Hm & Ha).
    apply (wp_hdel_live _ _ _ r l); [table_step; by rewrite Hr|done..|].
    table_step. intros w' data Hda Hdm Hz He. apply written_entry in He as Hw.
    rewrite Z.add_0_l. subst P. cbn [on_fields].
    destruct (jsonObject.del_all l ks) as [n l'] eqn:Hd. cbn [fst snd] in *.
    assert (∀ w2, upkeep (namespace c) w' w2 →
      written (namespace c) key (Entry data typeJSON (expires_at r)) w w2) as Hwr.
    { intros w2 Hup. eapply written_upkeep; [|exact Hup].
      eapply (written_before _ _ (with_intx true (advance 0 (advance 0 w)))); [|exact Hw].
      apply upkeep_cache; [simpl; lia|done]. }
    destruct n as [|n].
    + cbn [Z.of_nat Z.eqb]. hash_go. apply wp_checkHashType.
      destruct (entry_object (clock (w_step w)) r data l' (expires_at r) (with_intx true (advance 0 (advance 0 w))) w')
        as (r' & -> & ->); [done..|].
      hash_go. cbn [Z.ltb Z.compare when]. hash_go. cbn. split; [done|].
      apply (written_same r); [done|]. replace (entry_of r) with (Entry data typeJSON (expires_at r)).
      * apply Hwr. apply upkeep_cache; [simpl; lia|done].
      * unfold entry_of. by rewrite Hz, Hty.
    + rewrite (proj2 (Z.eqb_neq _ _)) by lia. hash_go.
      rewrite (proj2 (Z.ltb_lt _ _)) by lia. cbn [when]. hash_go. cbn. rewrite bool_decide_true by lia.
      split; [done|]. exists data. split_and!; [done|done|]. apply Hwr.
      eapply upkeep_trans; [|exact Hup]. apply upkeep_cache; [simpl; lia|done].
Qed.

Lemma refines_ODel fs : refines_hash (ODel fs).
Proof using HQ Hu JL SL. destruct (json1 c) eqn:Hj; [by apply ODel_json1|by apply ODel_fallback]. Qed.

(** *** Increments *)

Lemma parseJSONInt_text t : json_text t = true →
  parseJSONInt t = if bool_decide (json_type t = "integer") then ParseInt t else None.
Proof using JL SL.
  intros Ht. unfold parseJSONInt. rewrite text_trim by done. case_bool_decide as Hty.
  - by rewrite json_integer_text.
  - destruct (json_other_text t Ht Hty) as [->| ->]; [done|]. by destruct (ContainsAny _ _).
Qed.

Lemma overflow_test cur a : in_int64 cur = true →
  ((0 <? a) && (MaxInt64 - a <? cur)) || ((a <? 0) && (cur <? MinInt64 - a)) = negb (in_int64 (cur + a)).
Proof using Type.
  rewrite in_int64_spec. intros Hc. unfold in_int64.
  apply eq_true_iff_eq.
  rewrite orb_true_iff, !andb_true_iff, negb_true_iff, andb_false_iff, !Z.ltb_lt, !Z.leb_gt. lia.
Qed.

(** What [incr_object] does, in the terms of the specification. *)
Lemma incr_object_spec f a l : Forall field_ok l → in_int64 a = true →
  incr_object f (NInt a) l =
  match jsonObject.get l f with
  | None => Ok (true, NInt a, jsonObject.set l f (FormatInt a))
  | Some t =>
      if bool_decide (json_type t = "integer") then
        match ParseInt t with
        | Some n => if in_int64 (n + a) then Ok (true, NInt (n + a), jsonObject.set l f (FormatInt (n + a)))
                    else Err ErrOverflow
        | None => Err ErrNotNumeric
        end
      else Err ErrNotNumeric
  end.
Proof using JL SL.
  intros Hok Ha. unfold incr_object. destruct (jsonObject.get l f) as [t|] eqn:Hg; cbn [default].
  - rewrite Forall_forall in Hok. destruct (Hok _ (jsonObject.get_elem _ _ _ Hg)) as [_ Ht].
    cbn [from_option id]. rewrite parseJSONInt_text by done. case_bool_decide; [|done].
    destruct (ParseInt t) as [n|] eqn:Hn; [|done].
    rewrite overflow_test by (by eapply ParseInt_range). by destruct (in_int64 (n + a)).
  - cbn [from_option]. change (parseJSONInt "0") with (Some 0). cbn [id].
    rewrite overflow_test by done. by rewrite Z.add_0_l, Ha.
Qed.

Lemma sum_int_spec d l f a : agree d → members d = Some l →
  match jsonObject.get l f with
  | None => sum_int d f a = Some a
  | Some t => json_type t = "integer" →
      sum_int d f a = n ← ParseInt t; if in_int64 (n + a) then Some (n + a) else None
  end.
Proof using SL.
  intros Ha Hm. pose proof (json_extract_law d l f Ha Hm) as Hx. unfold sum_int.
  destruct (jsonObject.get l f) as [t|]; [|by rewrite Hx]. intros Ht. specialize (Hx Ht).
  destruct (ParseInt t) as [n|]; [by rewrite Hx|]. by destruct Hx as [x ->].
Qed.

(** The integer just stored is the integer returned. *)
Lemma returned_int d l f n a : agree d → members d = Some l → jsonObject.get l f = Some (FormatInt n) →
  in_int64 n = true → parse_returned (NInt a) (returned_text f d) = Some (NInt n).
Proof using SL.
  intros Ha Hm Hg Hn. pose proof (json_extract_law d l f Ha Hm) as Hx. rewrite Hg in Hx.
  destruct (json_type_int n) as [Hty _]. specialize (Hx Hty).
  rewrite ParseInt_FormatInt in Hx by done. unfold returned_text. rewrite Hx.
  cbn. by rewrite ParseInt_FormatInt.
Qed.

(** The statement's guard decides the case of the specification. *)
Lemma incr_guard_spec r l f a opts :
  hashIsObj r = true → agree (value r) → members (value r) = Some l → in_int64 a = true →
  if incr_guard f (NInt a) r then
    ∃ n, sum_int (value r) f a = Some n ∧ in_int64 n = true ∧
      hash_spec true (OIncr f a opts) (Obj l) =
        (Ok (HNum n), Some (jsonObject.set l f (FormatInt n)))
  else
    hash_spec true (OIncr f a opts) (Obj l) =
      (Err (if bool_decide (hashFieldType f r = Some "integer") then ErrOverflow else ErrNotNumeric), None).
Proof using SL.
  intros Hobj Ha Hm Hin. pose proof (sum_int_spec (value r) l f a Ha Hm) as Hsum.
  unfold incr_guard. rewrite (field_type r l f) by done. cbn [hash_spec on_fields].
  destruct (jsonObject.get l f) as [t|]; cbn [fmap option_fmap option_map].
  - destruct (decide (json_type t = "integer")) as [Hty|Hty].
    + rewrite Hsum, Hty, !(bool_decide_true ("integer" = "integer")) by done.
      rewrite (bool_decide_true (Some "integer" = None ∨ _)), (bool_decide_true (Some _ = _)) by auto.
      cbn [andb]. destruct (ParseInt t) as [n|]; cbn [mbind option_bind];
        [|by rewrite bool_decide_false by (by intros [])].
      destruct (in_int64 (n + a)) eqn:E; [|by rewrite bool_decide_false by (by intros [])].
      rewrite bool_decide_true by (by eexists). by exists (n + a).
    + rewrite (bool_decide_false (Some (json_type t) = None ∨ _)) by (intros []; congruence).
      cbn [andb]. by rewrite !bool_decide_false by congruence.
  - rewrite Hsum, !bool_decide_true by eauto. cbn [andb]. by exists a.
Qed.

Lemma OIncr_fallback f a opts : json1 c = false → refines_hash (OIncr f a opts).
Proof using HQ Hu JL SL.
  intros Hj w Hag [Hf Ha64]. cbn [run_hash]. apply wp_wrap.
  unfold HIncrBy, hash_post. cbn [hash_spec op_opts]. apply wp_bind. unfold hincr. rewrite Hj. cbn [negb].
  destruct (cell_wf _ Hag) as [Hwf Hnd]. apply wp_rmwHash; [done..|].
  assert (∀ n w', written (namespace c) key (Entry (marshal (jsonObject.set (fields_of (cell_of (live_at w))) f (FormatInt n)))
      typeJSON (fresh_exp c key (applySetOptions opts) w)) w w' →
    ∃ data, members data = Some (jsonObject.set (fields_of (cell_of (live_at w))) f (FormatInt n)) ∧ agree data ∧
      written (namespace c) key (Entry data typeJSON (match live_at w with
        | Some r => expires_at r | None => expiresAtArg (applySetOptions opts) (clock (w_step w)) end)) w w') as Hdoc.
  { intros n w' Hw. eapply (fallback_doc _ (OIncr f a opts)); [exact Hag|done|done| |by apply jsonObject.NoDup_set|exact Hw].
    apply Forall_set; [done|]. split; [done|]. apply json_type_int. }
  destruct (cell_of (live_at w)) eqn:Hc; cbn [on_fields fields_of] in *;
    [|intros w' Hup; by split|]; rewrite incr_object_spec by done.
  - cbn [jsonObject.get jsonObject.index mbind option_bind negb orb].
    intros w' Hw. wp_go. split; [done|]. by apply Hdoc.
  - destruct (jsonObject.get l f) as [t|] eqn:Hg.
    + case_bool_decide; [|intros w' Hup; by split].
      destruct (ParseInt t) as [n|] eqn:Hn; [|intros w' Hup; by split].
      destruct (in_int64 (n + a)) eqn:Hsum; [|intros w' Hup; by split].
      cbn [negb orb]. intros w' Hw. wp_go. split; [done|]. by apply Hdoc.
    + cbn [negb orb]. intros w' Hw. wp_go. split; [done|]. by apply Hdoc.
Qed.

Lemma OIncr_json1 f a opts : json1 c = true → refines_hash (OIncr f a opts).
Proof using HQ Hu JL SL.
  intros Hj w Hag [Hf Ha64]. cbn [run_hash]. apply wp_wrap.
  unfold HIncrBy, hash_post. cbn [hash_spec op_opts]. apply wp_bind. unfold hincr. rewrite Hj. cbn [negb].
  match goal with |- wp _ _ ?Q => set (P := Q) end.
  unfold capacityCheck. hash_go. unfold incr_returning, incrSQL. table_step. rewrite !upsertHash_eq. table_step.
  destruct (live_at w) as [r|] eqn:Hr.
  2:{ cbn [fst snd Z.eqb]. rewrite lookup_insert_eq. cbn [fmap option_fmap option_map value].
      destruct (json_type_int a) as [_ Hat]. destruct (json_object_law f (FormatInt a) Hf Hat) as [Hda Hdm].
      unfold incr_fresh. rewrite (returned_int _ _ f a a Hda Hdm) by (done || by rewrite jsonObject.get_cons, decide_True).
      hash_go. subst P. cbn. wp_go. split; [done|]. exists (json_object f (FormatInt a)).
      split_and!; [done|done|]. written_auto. }
  pose proof (cell_row r Hag) as Hcell. pose proof (live_row_Some _ _ _ _ _ Hr) as [Hrow Hlive].
  destruct (cell_of (Some r)) as [| |l]; [done| |].
  - rewrite Hcell. cbn [andb fst snd Z.eqb]. hash_go. apply wp_checkHashType.
    rewrite (live_row_cache _ _ _ _ (w_db w)), Hr, Hcell by done.
    subst P. cbn. split; [done|]. upkeep_auto.
  - destruct Hcell as (Hobj & Hty & Hm & Ha). rewrite Hobj. cbn [andb].
    pose proof (incr_guard_spec r l f a opts Hobj Ha Hm Ha64) as Hspec.
    destruct (incr_guard f (NInt a) r); cbn [fst snd Z.eqb].
    + destruct Hspec as (n & Hsum & Hn & Hspec). rewrite lookup_insert_eq.
      cbn [fmap option_fmap option_map value incr_doc]. rewrite Hsum.
      destruct (json_type_int n) as [_ Hnt].
      destruct (json_set_law (value r) l f (FormatInt n) Ha Hm Hf Hnt) as [Hda Hdm].
      rewrite (returned_int _ _ f n a Hda Hdm) by (done || by rewrite jsonObject.get_set, decide_True).
      hash_go. subst P. cbn [hash_spec on_fields] in Hspec. cbn [on_fields]. rewrite Hspec. wp_go.
      split; [done|]. exists (json_set (value r) f (FormatInt n)). split_and!; [done|done|]. written_row.
    + hash_go. apply wp_checkHashType.
      rewrite (live_row_cache _ _ _ _ (w_db w)), Hr, Hobj by done. hash_go.
      cbn [w_db advance with_db with_intx set_cache db_cache]. rewrite Hrow.
      cbn [fmap option_fmap option_map]. hash_go.
      subst P. cbn [hash_spec on_fields] in Hspec. cbn [on_fields]. rewrite Hspec.
      split; [done|]. upkeep_auto.
Qed.

Lemma refines_OIncr f a opts : refines_hash (OIncr f a opts).
Proof using HQ Hu JL SL. destruct (json1 c) eqn:Hj; [by apply OIncr_json1|by apply OIncr_fallback]. Qed.

(** *** Reads *)

Lemma calm_recordHashRead now found : calm (namespace c) (recordHashRead c key now found).
Proof using HQ Hu.
  unfold recordHashRead. apply calm_bind; [|intros; by apply calm_maybeOpportunisticSweep].
  destruct found; [apply calm_bind; [apply calm_mod_proc|intros; apply calm_bufferLRU]|apply calm_mod_proc].
Qed.

Definition read_post {A} (o : option row) (missing : A) (f : jsonObject → A)
    (w : World) (Q : result A → World → Prop) : Prop :=
  ∀ w', upkeep (namespace c) w w' →
    Q (match cell_of o with Missing => Ok missing | Wrong => Err ErrSerialization | Obj l => Ok (f l) end) w'.

Lemma wp_hmget fields w (Q : result (option (list (option string))) → World → Prop) :
  agrees (live_at w) →
  read_post (live_at w) None (λ l, Some (jsonObject.get l <$> fields)) w Q →
  wp (hmget c key fields) w Q.
Proof using HQ Hu JL SL.
  intros Hag HQ'. unfold read_post in HQ'. unfold hmget. hash_go. destruct (json1 c); cbn [negb].
  - hash_go. table_step. destruct (live_at w) as [r|] eqn:Hr.
    2:{ hash_go. hash_calm ltac:(apply calm_recordHashRead). hash_go. cbn [cell_of] in HQ'. apply HQ'. upkeep_auto. }
    pose proof (cell_row r Hag) as Hcell. destruct (cell_of (Some r)) as [| |l]; [done| |].
    + rewrite Hcell. cbn [negb]. hash_go. apply HQ'. upkeep_auto.
    + destruct Hcell as (Hobj & Hty & Hm & Ha). rewrite Hobj. cbn [negb]. hash_go.
      hash_calm ltac:(apply calm_recordHashRead). hash_go.
      rewrite (list_fmap_ext _ (jsonObject.get l) fields); [apply HQ'; upkeep_auto|].
      intros _ f _. by apply json_arrow_law.
  - hash_go. apply wp_loadHash; [done..|]. table_step. destruct (cell_of (live_at w)) as [| |l].
    + hash_go. hash_calm ltac:(apply calm_recordHashRead). hash_go. apply HQ'. upkeep_auto.
    + apply HQ'. upkeep_auto.
    + hash_go. hash_calm ltac:(apply calm_recordHashRead). hash_go. apply HQ'. upkeep_auto.
Qed.

Lemma wp_hashEntries vs w (Q : result jsonObject → World → Prop) :
  agrees (live_at w) →
  (∀ g : string * string → string * string,
     (∀ p, (g p).1 = p.1 ∧ (vs = true → g p = p)) →
     read_post (live_at w) [] (λ l, g <$> l) w Q) →
  wp (hashEntries c key vs) w Q.
Proof using HQ Hu JL SL.
  intros Hag HQ'. unfold read_post in HQ'. unfold hashEntries. hash_go. destruct (json1 c); cbn [negb].
  - hash_go. table_step. specialize (HQ' (λ p, (p.1, if vs then p.2 else ""))).
    assert (∀ p : string * string, (p.1, if vs then p.2 else "").1 = p.1 ∧
      (vs = true → (p.1, if vs then p.2 else "") = p)) as Hg by (intros []; split; [done|by intros ->]).
    specialize (HQ' Hg). destruct (live_at w) as [r|] eqn:Hr.
    2:{ hash_go. cbn [cell_of] in HQ'. apply HQ'. upkeep_auto. }
    pose proof (cell_row r Hag) as Hcell. destruct (cell_of (Some r)) as [| |l]; [done| |].
    + rewrite Hcell. cbn [negb]. hash_go. apply HQ'. upkeep_auto.
    + destruct Hcell as (Hobj & Hty & Hm & Ha). rewrite Hobj. cbn [negb]. hash_go.
      destruct (agree_members _ _ Ha Hm) as (_ & _ & ->). apply HQ'. upkeep_auto.
  - hash_go. apply wp_loadHash; [done..|]. table_step. specialize (HQ' id (λ p, conj eq_refl (λ _, eq_refl))).
    destruct (cell_of (live_at w)) as [| |l].
    + hash_go. apply HQ'. upkeep_auto.
    + apply HQ'. upkeep_auto.
    + hash_go. rewrite list_fmap_id in HQ'. apply HQ'. upkeep_auto.
Qed.

Ltac read_done :=
  intros w' Hup; unfold hash_post; cbn [hash_spec];
  destruct (cell_of (live_at _)) as [| |l]; cbn [on_read fmap result_fmap]; hash_go; split; done.

Lemma refines_OGetRaw f : refines_hash (OGetRaw f).
Proof using HQ Hu JL SL.
  intros w Hag _. cbn [run_hash]. apply wp_wrap. unfold HGetRaw. apply wp_bind, wp_hmget; [done|].
  read_done.
Qed.

Lemma refines_OMGet fs : refines_hash (OMGet fs).
Proof using HQ Hu JL SL.
  intros w Hag _. cbn [run_hash]. apply wp_wrap. unfold HMGet.
  destruct fs as [|f fs]; [apply wp_ret; split; [done|apply upkeep_refl]|].
  apply wp_bind, wp_hmget; [done|]. read_done.
Qed.

Lemma refines_OExists f : refines_hash (OExists f).
Proof using HQ Hu JL SL.
  intros w Hag _. cbn [run_hash]. apply wp_wrap. unfold HExists. apply wp_bind, wp_hmget; [done|].
  intros w' Hup. unfold hash_post. cbn [hash_spec].
  destruct (cell_of (live_at w)) as [| |l]; cbn [on_read]; [by split..|]. apply wp_ret.
  split; [|done]. rewrite jsonObject.has_get. cbn. by destruct (jsonObject.get l f).
Qed.

Lemma refines_OKeys : refines_hash OKeys.
Proof using HQ Hu JL SL.
  intros w Hag _. cbn [run_hash]. apply wp_wrap. unfold HKeys. apply wp_bind, wp_hashEntries; [done|].
  intros g Hg w' Hup. unfold hash_post. cbn [hash_spec].
  destruct (cell_of (live_at w)) as [| |l]; cbn [on_read]; [by split..|]. apply wp_ret.
  split; [|done]. cbn. do 2 f_equal. rewrite <- list_fmap_compose. apply list_fmap_ext.
  intros _ p _. by apply Hg.
Qed.

Lemma refines_OVals : refines_hash OVals.
Proof using HQ Hu JL SL.
  intros w Hag _. cbn [run_hash]. apply wp_wrap. unfold HVals. apply wp_bind, wp_hashEntries; [done|].
  intros g Hg w' Hup. unfold hash_post. cbn [hash_spec].
  destruct (cell_of (live_at w)) as [| |l]; cbn [on_read]; [by split..|]. apply wp_ret.
  split; [|done]. cbn. do 2 f_equal. rewrite <- list_fmap_compose. apply list_fmap_ext.
  intros _ p _. simpl. by rewrite (proj2 (Hg p) eq_refl).
Qed.

Lemma refines_OLen : refines_hash OLen.
Proof using HQ Hu JL SL.
  intros w Hag _. cbn [run_hash]. apply wp_wrap. unfold HLen, hash_post. cbn [hash_spec]. hash_go.
  destruct (json1 c); cbn [negb].
  - hash_go. table_step. destruct (live_at w) as [r|] eqn:Hr.
    2:{ hash_go. split; [done|]. upkeep_auto. }
    pose proof (cell_row r Hag) as Hcell. destruct (cell_of (Some r)) as [| |l]; [done| |].
    + rewrite Hcell. cbn [negb]. hash_go. split; [done|]. upkeep_auto.
    + destruct Hcell as (Hobj & Hty & Hm & Ha). rewrite Hobj. cbn [negb]. hash_go.
      destruct (agree_members _ _ Ha Hm) as (_ & _ & ->). split; [done|]. upkeep_auto.
  - hash_go. apply wp_loadHash; [done..|]. table_step. destruct (cell_of (live_at w)) as [| |l].
    + hash_go. split; [done|]. upkeep_auto.
    + split; [done|]. upkeep_auto.
    + hash_go. split; [done|]. upkeep_auto.
Qed.

Lemma refines_OGetAll : refines_hash OGetAll.
Proof using HQ Hu JL SL.
  intros w Hag _. cbn [run_hash]. apply wp_wrap. unfold HGetAll, hash_post. cbn [hash_spec]. hash_go.
  apply wp_loadHash; [done..|]. table_step. destruct (cell_of (live_at w)) as [| |l].
  - hash_go. hash_calm ltac:(apply calm_recordHashRead). hash_go. split; [done|]. upkeep_auto.
  - split; [done|]. upkeep_auto.
  - hash_go. hash_calm ltac:(apply calm_recordHashRead). hash_go. split; [done|]. upkeep_auto.
Qed.

Lemma refines_hash_op op : refines_hash op.
Proof using HQ Hu JL SL.
  destruct op; auto using refines_OSet, refines_OSetNX, refines_OSetMany, refines_ODel, refines_OIncr,
    refines_OGetRaw, refines_OMGet, refines_OGetAll, refines_OExists, refines_OKeys, refines_OVals, refines_OLen.
Qed.
End refine.
