(* ===== verification/HashProps.v ===== *)
(** Theorems on hashes: both implementations against the specification, their
    equivalence, and atomicity under driver errors. *)

From S2P Require Import Prelude GoStd Values HashDoc Store Engine Channels EventLog Changes Sweep Kv Reads TtlMap KvProps Hash HashSpec.
Open Scope Z_scope.

(** ** One operation *)

(** C2: [HSet], [HSetNX], [HSetMany], [HDel], [HIncrBy], [HGetRaw], [HMGet],
    [HGetAll], [HExists], [HKeys], [HVals] and [HLen] (not [HIncrByFloat], whose
    sums differ by path, nor [HGet], which decodes what [HGetRaw] returns), on
    the JSON1 path and on the fallback, return the reply of the specification
    for the object their key holds, and leave there an object with the fields of
    the specification and the key's own expiry (or the [TTL] option's, on a new
    key); a value that is no JSON object is refused with [ErrSerialization] and
    left alone, and every other key shows what it showed before. It holds in a
    cache without limits, of a file without driver failures or other writers,
    when the text at the key is one that Go and SQLite read alike (as all text
    this library writes), names that are stored are valid UTF-8 without zero
    bytes, and the amount is an [int64]. *)
Theorem hash_refines `{H : Host} `{GL : GoLib} `{!ChangeJson GL} `{JT : !JsonText GL}
    `{SJ : !SqliteJson GL} `{!JsonTextLaws JT} `{!SqliteJsonLaws JT SJ} `{!Quiet H}
    (c : Cache) (key : string) (op : hash_op) (w : World) :
  unlimited c = true → op_ok op →
  agrees (live_row (namespace c) key (clock (w_step w)) (w_db w)) →
  hash_post c key op (clock (w_step w)) (live_row (namespace c) key (clock (w_step w)) (w_db w)) w
    (run_hash c key op w).1 (run_hash c key op w).2.
Proof. intros Hu Hok Hag. by apply (refines_hash_op c Hu key op w). Qed.

(** A document that [Set] wrote, with an expiry. *)
Definition ada : string := @object_text toy_lib toy_jtext [("name", quoted "Ada"); ("age", "36")].
Definition doc_row : row := Row ada typeJSON 0 (Some 500) 0 2 (Z.of_nat (String.length ada)).
Definition hash_rows : cache_table :=
  <[("default", "u") := doc_row]> (<[("default", "s") := Row "x" typeString 0 None 0 0 1]> ∅).

Lemma toy_agrees (o : option row) : @agrees toy_lib toy_jtext toy_sqlite o.
Proof. intros r _ _. apply toy_agree. Qed.

Lemma hash_refines_witness :
  let host := still_host 100 in
  let w := init_world (set_cache hash_rows empty_db) in
  let run := @run_hash host toy_lib toy_json toy_jtext toy_sqlite (demo_cache "default") "u" in
  (run (@OIncr toy_lib "age" 1 []) w).1 = Ok (HNum 37) ∧
  @hash_post host toy_lib toy_jtext toy_sqlite (demo_cache "default") "u" (@OIncr toy_lib "age" 1 []) 100
    (Some doc_row) w (run (@OIncr toy_lib "age" 1 []) w).1 (run (@OIncr toy_lib "age" 1 []) w).2.
Proof.
  intros host w run. split; [vm_compute; reflexivity|].
  apply (@hash_refines host toy_lib toy_json toy_jtext toy_sqlite toy_jtext_laws toy_sqlite_laws (still_quiet 100)
    (demo_cache "default") "u" (@OIncr toy_lib "age" 1 []) w); [done|done|apply toy_agrees].
Defined.

(** ** The two paths on a sequence of operations *)

Definition with_mode (b : bool) (c : Cache) : Cache :=
  MkCache (path c) (namespace c) (schemaVersion c) (maxKeys c) (maxBytes c) (eviction c) (strict c)
    (sweepInterval c) b (publishOps c) (eventRetention c) (eventMaxCount c) (changeKeyCap c).

Fixpoint run_hashes `{Host} `{GL : GoLib} `{!ChangeJson GL} `{!JsonText GL} `{!SqliteJson GL}
    (c : Cache) (ops : list (string * hash_op)) (w : World) : list (result hash_reply) * World :=
  match ops with
  | [] => ([], w)
  | (key, op) :: ops =>
      let '(r, w1) := run_hash c key op w in
      let '(rs, w2) := run_hashes c ops w1 in
      (r :: rs, w2)
  end.

Section spec_run.
Context {GL : GoLib} {JT : JsonText GL} {SJ : SqliteJson GL}.

(** The specification at a fixed time: what every key holds. A key created
    with an expiry that is not in the future is gone at once. *)
Definition stillborn (x : hcell) (op : hash_op) : bool :=
  match x, applySetOptions (op_opts op) with
  | Missing, Some d => Milliseconds d <=? 0
  | _, _ => false
  end.

Definition hash_step (json : bool) (p : string * hash_op) (st : string → hcell)
    : result hash_reply * (string → hcell) :=
  let '(reply, new) := hash_spec json p.2 (st p.1) in
  (reply,
   match new with
   | Some l => λ k, if decide (p.1 = k) then (if stillborn (st p.1) p.2 then Missing else Obj l) else st k
   | None => st
   end).

Fixpoint hash_steps (json : bool) (ops : list (string * hash_op)) (st : string → hcell)
    : list (result hash_reply) :=
  match ops with
  | [] => []
  | p :: ops => let '(r, st') := hash_step json p st in r :: hash_steps json ops st'
  end.

(** No increment meets an integer that exceeds 64 bits already. *)
Fixpoint increments_fit (ops : list (string * hash_op)) (st : string → hcell) : bool :=
  match ops with
  | [] => true
  | p :: ops =>
      match p.2, st p.1 with
      | OIncr f _ _, Obj l =>
          match jsonObject.get l f with
          | Some t => negb (bool_decide (json_type t = "integer")) || bool_decide (is_Some (ParseInt t))
          | None => true
          end
      | _, _ => true
      end && increments_fit ops (hash_step true p st).2
  end.

Lemma hash_steps_mode ops st :
  increments_fit ops st = true → hash_steps false ops st = hash_steps true ops st.
Proof using Type.
  revert st. induction ops as [|[key op] ops IH]; intros st; [done|]. cbn [increments_fit fst snd].
  intros [Hfit Hrest]%andb_true_iff.
  assert (hash_step false (key, op) st = hash_step true (key, op) st) as Heq.
  { unfold hash_step. cbn [fst snd].
    enough (hash_spec false op (st key) = hash_spec true op (st key)) as -> by done.
    destruct op; try done. cbn [hash_spec]. destruct (st key) as [| |l]; [done..|]. cbn [on_fields].
    destruct (jsonObject.get l f) as [t|]; [|done]. case_bool_decide; [|done].
    cbn [negb orb] in Hfit. apply bool_decide_eq_true in Hfit as [n Hn]. by rewrite Hn. }
  cbn [hash_steps]. rewrite Heq. destruct (hash_step true (key, op) st) as [r st'].
  f_equal. by apply IH.
Qed.

(** What a key holds, from what the table shows. *)
Definition cell_of_entry (o : option entry) : hcell :=
  match o with
  | None => Missing
  | Some e =>
      if e_type e =? typeJSON
      then match members (e_data e) with Some l => Obj l | None => Wrong end
      else Wrong
  end.

Lemma view_live_row T ns key d : view T ns (db_cache d) key = entry_of <$> live_row ns key T d.
Proof using Type.
  unfold view, live_row. destruct (db_cache d !! (ns, key)) as [r|]; simpl; [|done].
  by destruct (live T r).
Qed.

Lemma cell_view T ns key d : cell_of (live_row ns key T d) = cell_of_entry (view T ns (db_cache d) key).
Proof using Type. rewrite view_live_row. by destruct (live_row ns key T d). Qed.

Lemma agrees_view T ns key d : agrees (live_row ns key T d) ↔
  ∀ e, view T ns (db_cache d) key = Some e → e_type e = typeJSON → agree (e_data e).
Proof using Type.
  rewrite view_live_row. unfold agrees. destruct (live_row ns key T d) as [r|]; simpl; [|naive_solver].
  split; [intros Hag e [= <-]; by apply Hag|intros Hag r' [= <-]; by apply (Hag (entry_of r))].
Qed.
End spec_run.

Class FixedClock (H : Host) (t : Z) := fixed_clock n : clock n = t.

Section sequence.
Context {H : Host} {GL : GoLib} {CJ : ChangeJson GL} {JT : JsonText GL} {SJ : SqliteJson GL}.
Context {JL : JsonTextLaws JT} {SL : SqliteJsonLaws JT SJ} `{HQ : !Quiet H} (t : Z) `{HT : !FixedClock H t}.
Context (c : Cache) (Hu : unlimited c = true).

(** The table at time [t] holds the cells [st]. *)
Definition holds (st : string → hcell) (w : World) : Prop :=
  ∀ k, cell_of (live_row (namespace c) k t (w_db w)) = st k ∧
       agrees (live_row (namespace c) k t (w_db w)).

Lemma fixed_stamp w : stamp w t.
Proof using HT. intros m _. by rewrite fixed_clock. Qed.

Lemma holds_view st w : holds st w ↔
  ∀ k, cell_of_entry (view t (namespace c) (db_cache (w_db w)) k) = st k ∧
    ∀ e, view t (namespace c) (db_cache (w_db w)) k = Some e → e_type e = typeJSON → agree (e_data e).
Proof using Type. unfold holds. by setoid_rewrite cell_view; setoid_rewrite agrees_view. Qed.

Lemma hash_step_holds key op st w : op_ok op → holds st w →
  (run_hash c key op w).1 = (hash_step (json1 c) (key, op) st).1 ∧
  holds (hash_step (json1 c) (key, op) st).2 (run_hash c key op w).2.
Proof using HQ HT Hu JL SL.
  intros Hok Hst. destruct (Hst key) as [Hcell Hag].
  pose proof (refines_hash_op c Hu key op w) as Hr. rewrite fixed_clock in Hr.
  specialize (Hr Hag Hok). unfold wp, hash_post in Hr. unfold hash_step. cbn [fst snd].
  rewrite Hcell in Hr. destruct (hash_spec (json1 c) op (st key)) as [reply new].
  destruct Hr as [-> Hpost]. split; [done|]. apply holds_view. rewrite holds_view in Hst.
  destruct new as [l|]; cbn [snd].
  - destruct Hpost as (data & Hm & Ha & [_ Hv]). intros k. rewrite Hv by apply fixed_stamp.
    case_decide as Hk; [subst|by apply Hst].
    assert (alive t (Entry data typeJSON
      (match live_row (namespace c) k t (w_db w) with
       | Some r => expires_at r
       | None => expiresAtArg (applySetOptions (op_opts op)) t
       end)) = negb (stillborn (st k) op)) as ->.
    { rewrite <- Hcell. unfold stillborn, alive. simpl.
      destruct (live_row (namespace c) k t (w_db w)) as [r|] eqn:Hr; simpl.
      - apply live_row_Some in Hr as [_ Hl]. unfold live in Hl.
        destruct (value_type r =? typeJSON); [destruct (members (value r))|]; exact Hl.
      - destruct (applySetOptions (op_opts op)) as [d|]; simpl; [|done].
        destruct (Z.leb_spec (Milliseconds d) 0); simpl; [apply Z.ltb_ge|apply Z.ltb_lt]; lia. }
    destruct (stillborn (st k) op); simpl; [done|]. rewrite Hm. split; [done|].
    intros e [= <-] _. done.
  - destruct Hpost as [_ Hv]. intros k. rewrite Hv by apply fixed_stamp. apply Hst.
Qed.

Lemma hash_steps_holds ops st w : Forall (λ p, op_ok p.2) ops → holds st w →
  (run_hashes c ops w).1 = hash_steps (json1 c) ops st.
Proof using HQ HT Hu JL SL.
  revert st w. induction ops as [|[key op] ops IH]; intros st w Hok Hst; [done|].
  apply Forall_cons in Hok as [Hop Hok]. cbn [run_hashes hash_steps].
  destruct (hash_step_holds key op st w Hop Hst) as [Hr Hst'].
  destruct (run_hash c key op w) as [r w1]. destruct (hash_step (json1 c) (key, op) st) as [r' st'].
  simpl in *. subst r'. specialize (IH st' w1 Hok Hst'). destruct (run_hashes c ops w1) as [rs w2].
  simpl in *. by subst.
Qed.
End sequence.

(** C11: the two hash implementations are interchangeable: any sequence of the
    operations of [hash_op] ([HIncrByFloat] is not one, the paths differ there),
    on the same file gives the same replies whether it runs on
    SQLite's JSON functions or on the read-modify-write fallback, as long as no
    increment meets an integer that already exceeds 64 bits. It holds while the
    clock stands still (the paths read it at different steps), in a cache
    without limits, of a file without driver failures or other writers in which
    Go and SQLite read every value alike, for names that are valid UTF-8 without
    zero bytes where they are stored and amounts that are [int64]. *)
Theorem hash_paths_equivalent `{H : Host} `{GL : GoLib} `{!ChangeJson GL} `{JT : !JsonText GL}
    `{SJ : !SqliteJson GL} `{!JsonTextLaws JT} `{!SqliteJsonLaws JT SJ} `{!Quiet H} (t : Z)
    `{!FixedClock H t} (c : Cache) (ops : list (string * hash_op)) (st : string → hcell) (w : World) :
  unlimited c = true → Forall (λ p, op_ok p.2) ops → holds t c st w → increments_fit ops st = true →
  (run_hashes (with_mode false c) ops w).1 = (run_hashes (with_mode true c) ops w).1.
Proof.
  intros Hu Hok Hst Hfit.
  rewrite (hash_steps_holds t (with_mode false c) Hu ops st w Hok Hst).
  rewrite (hash_steps_holds t (with_mode true c) Hu ops st w Hok Hst).
  by apply hash_steps_mode.
Qed.

#[global] Instance still_fixed now : FixedClock (still_host now) now.
Proof. by intros n. Qed.

Definition hash_demo : list (string * @hash_op toy_lib) :=
  [("u", @OSet toy_lib "city" (GString "Paris") []); ("u", @OIncr toy_lib "age" 1 []);
   ("v", @OSetNX toy_lib "age" (GInt KInt 5) [Second]); ("v", @OIncr toy_lib "age" 2 []);
   ("u", @ODel toy_lib ["name"; "none"]); ("u", @OKeys toy_lib); ("u", @OVals toy_lib);
   ("s", @OSet toy_lib "f" (GInt KInt 1) []); ("v", @OGetRaw toy_lib "age")].

Definition hash_cells (k : string) : hcell :=
  @cell_of toy_lib toy_jtext (hash_rows !! ("default", k)).

Lemma hash_paths_equivalent_witness :
  let host := still_host 100 in let c := demo_cache "default" in
  let w := init_world (set_cache hash_rows empty_db) in
  let run := @run_hashes host toy_lib toy_json toy_jtext toy_sqlite in
  (run (with_mode true c) hash_demo w).1 =
    [Ok (HBool true); Ok (HNum 37); Ok (HBool true); Ok (HNum 7); Ok (HNum 1);
     Ok (HNames ["age"; "city"]); Ok (HNames ["37"; quoted "Paris"]); Err ErrSerialization;
     Ok (HText (Some "7"))] ∧
  (run (with_mode false c) hash_demo w).1 = (run (with_mode true c) hash_demo w).1.
Proof.
  intros host c w run. split; [vm_compute; reflexivity|].
  apply (@hash_paths_equivalent host toy_lib toy_json toy_jtext toy_sqlite toy_jtext_laws toy_sqlite_laws
    (still_quiet 100) 100 (still_fixed 100) c hash_demo hash_cells w).
  - reflexivity.
  - repeat constructor.
  - intros k. split; [|apply toy_agrees]. unfold hash_cells, live_row. simpl.
    destruct (hash_rows !! ("default", k)) as [r|] eqn:Hr; simpl; [|done].
    assert (live 100 r = true) as ->; [|done].
    unfold hash_rows in Hr. apply lookup_insert_Some in Hr as [[_ <-]|[_ Hr]]; [done|].
    apply lookup_insert_Some in Hr as [[_ <-]|[_ Hr]]; [done|]. by rewrite lookup_empty in Hr.
  - vm_compute. reflexivity.
Defined.

(** ** Atomicity under driver errors *)

(** [m] leaves the cache table alone when it returns an error. *)
Definition err_keeps {A} (m : M A) : Prop :=
  ∀ w e, (m w).1 = Err e → db_cache (w_db (m w).2) = db_cache (w_db w).

Section atomic.
Context {H : Host} `{HA : !Alone H}.

Lemma err_keeps_no_err {A} (m : M A) : no_err m → err_keeps m.
Proof using Type. intros Hm w e He. by apply Hm in He. Qed.
Lemma err_keeps_inTx {A} (m : M A) : err_keeps (inTx m).
Proof using HA. intros w e He. rewrite inTx_rollback; [done|]. by rewrite He. Qed.
Lemma err_keeps_lift {A} (r : result A) : err_keeps (lift r).
Proof using Type. by intros w e _. Qed.

(** A step that fails cleanly and is followed by calls that log their errors. *)
Lemma err_keeps_then {A B} (m : M A) (k : A → M B) :
  err_keeps m → (∀ a, no_err (k a)) → err_keeps (m ≫= k).
Proof using Type.
  intros Hm Hk w e He. pose proof (bind_err m k w e Hk He) as [Hf ->].
  unfold mbind, M_bind in He. destruct (m w) as [[a|e'|] w'] eqn:Hw; simpl in *; [done| |done].
  pose proof (Hm w e') as Hk'. rewrite Hw in Hk'. by apply Hk'.
Qed.

(** A step that never writes, before one that fails cleanly. *)
Lemma err_keeps_after {A B} (m : M A) (k : A → M B) :
  keeps eq m → (∀ a, err_keeps (k a)) → err_keeps (m ≫= k).
Proof using Type.
  intros Hm Hk w e. unfold mbind, M_bind. specialize (Hm w).
  destruct (m w) as [[a|e'|] w']; simpl in *; [|by rewrite Hm|done].
  intros He. rewrite Hm. by eapply Hk.
Qed.

Lemma keeps_precheck c key : keeps eq (precheck c key).
Proof using HA. unfold precheck, checkCapacity. keeps_solve. Qed.

Context {GL : GoLib} {CJ : ChangeJson GL} {JT : JsonText GL} {SJ : SqliteJson GL}.

Lemma changed_no_err c op keys n : no_err (changed c op keys n).
Proof using Type. apply no_err_returns, changed_returns. Qed.

(** What follows the transaction of a write. *)
Lemma upkeep_no_err c op keys n b : no_err (when b (changed c op keys n ;; maybeEvict c)).
Proof using Type.
  apply no_err_when, no_err_bind; [apply changed_no_err|]. intros _. apply maybeEvict_no_err.
Qed.

Lemma err_keeps_rmwHash {A} c key ttl create (mutate : jsonObject → result (bool * A * jsonObject)) :
  err_keeps (rmwHash c key ttl create mutate).
Proof using HA.
  unfold rmwHash, inImmediate. apply err_keeps_after; [keeps_solve|]. intros now.
  apply err_keeps_then; [apply err_keeps_inTx|]. intros [wrote r].
  apply no_err_bind; [apply upkeep_no_err|]. intros _. apply no_err_ret.
Qed.
End atomic.

Ltac atomic_step :=
  lazymatch goal with
  | |- forall _, _ => intro
  | |- err_keeps (rmwHash _ _ _ _ _) => apply err_keeps_rmwHash
  | |- err_keeps (lift _ ≫= _) => apply err_keeps_after; [intros ?; reflexivity|]
  | |- err_keeps (nowMillis ≫= _) => apply err_keeps_after; [keeps_solve|]
  | |- err_keeps (capacityCheck _ _ ≫= _) => apply err_keeps_after; [apply keeps_precheck|]
  | |- err_keeps (inTx _ ≫= _) => apply err_keeps_then; [apply err_keeps_inTx|]
  | |- err_keeps (match ?x with _ => _ end) => destruct x
  | |- err_keeps (mret _) => apply err_keeps_no_err, no_err_ret
  | |- err_keeps (fail _) => apply err_keeps_lift
  | |- no_err (_ ≫= _) => apply no_err_bind
  | |- no_err (changed _ _ _ _) => apply changed_no_err
  | |- no_err (maybeEvict _) => apply maybeEvict_no_err
  | |- no_err (maybeOpportunisticSweep _) => apply maybeOpportunisticSweep_no_err
  | |- no_err (when _ _) => apply no_err_when
  | |- no_err (mret _) => apply no_err_ret
  end.

(** The operations that write. *)
Definition is_write `{GoLib} (op : hash_op) : bool :=
  match op with OSet _ _ _ | OSetNX _ _ _ | OSetMany _ _ | ODel _ | OIncr _ _ _ => true | _ => false end.

Section atomic_ops.
Context {H : Host} {GL : GoLib} {CJ : ChangeJson GL} {JT : JsonText GL} {SJ : SqliteJson GL}.
Context `{HA : !Alone H} (c : Cache) (key : string).

Lemma HSet_atomic f v opts : err_keeps (HSet c key f v opts).
Proof using HA. unfold HSet. repeat atomic_step. Qed.
Lemma HSetNX_atomic f v opts : err_keeps (HSetNX c key f v opts).
Proof using HA. unfold HSetNX. repeat atomic_step. Qed.
Lemma HSetMany_atomic fs opts : err_keeps (HSetMany c key fs opts).
Proof using HA. unfold HSetMany. repeat atomic_step. Qed.
Lemma HDel_atomic fs : err_keeps (HDel c key fs).
Proof using HA. unfold HDel. repeat atomic_step. Qed.
Lemma hincr_atomic f a ttl : err_keeps (hincr c key f a ttl).
Proof using HA. unfold hincr. repeat atomic_step. Qed.

(** The result of the increment is of the amount's kind. *)
Lemma HIncrBy_err f a opts w e : (HIncrBy c key f a opts w).1 = Err e →
  (hincr c key f (NInt a) (applySetOptions opts) w).1 = Err e ∧
  (HIncrBy c key f a opts w).2 = (hincr c key f (NInt a) (applySetOptions opts) w).2.
Proof using Type.
  unfold HIncrBy, mbind, M_bind.
  destruct (hincr c key f (NInt a) (applySetOptions opts) w) as [[[n|x]|e'|] w']; simpl; intros; by simplify_eq.
Qed.
End atomic_ops.

(** Every hash write is all or nothing: whatever statement the driver fails (in the
    middle of a many-field [HSetMany] or [HDel], or at the commit), and on
    every error of the operation itself (wrong type, overflow, not a number,
    unsupported value, full cache), the table is as it was before. *)
Theorem hash_write_atomic `{H : Host} `{GL : GoLib} `{!ChangeJson GL} `{!JsonText GL}
    `{!SqliteJson GL} `{!Alone H} (c : Cache) (key : string) (op : hash_op) (w : World) (e : error) :
  is_write op = true → (run_hash c key op w).1 = Err e →
  db_cache (w_db (run_hash c key op w).2) = db_cache (w_db w).
Proof.
  intros Hw. assert (∀ A (m : M A) (f : A → hash_reply), err_keeps m → err_keeps (x ← m; mret (f x))) as Hwrap.
  { intros A m f Hm. apply err_keeps_then; [done|]. intros. apply no_err_ret. }
  destruct op; try done; cbn [run_hash]; revert w e Hw.
  - intros w e _. apply (Hwrap _ _ HBool), HSet_atomic.
  - intros w e _. apply (Hwrap _ _ HBool), HSetNX_atomic.
  - intros w e _. apply (Hwrap _ _ (λ _, HUnit)), HSetMany_atomic.
  - intros w e _. apply (Hwrap _ _ HNum), HDel_atomic.
  - intros w e _. apply (Hwrap _ _ HNum). intros w' e' He.
    destruct (HIncrBy_err _ _ _ _ _ _ _ He) as [He' ->]. by eapply hincr_atomic.
Qed.

(** The third statement of [HDel] fails. *)
Lemma hash_write_atomic_witness :
  let host := faulty_host 100 (λ n, Nat.eqb n 3) in
  let w := init_world (set_cache hash_rows empty_db) in
  let r := @run_hash host toy_lib toy_json toy_jtext toy_sqlite (with_mode true (demo_cache "default")) "u"
    (@ODel toy_lib ["name"; "age"]) w in
  r.1 = Err ErrDatabase ∧ db_cache (w_db r.2) = hash_rows.
Proof.
  intros host w r. assert (r.1 = Err ErrDatabase) as Hr by (vm_compute; reflexivity).
  split; [exact Hr|].
  apply (@hash_write_atomic host toy_lib toy_json toy_jtext toy_sqlite (faulty_alone 100 _)
    (with_mode true (demo_cache "default")) "u" (@ODel toy_lib ["name"; "age"]) w ErrDatabase); [reflexivity|exact Hr].
Defined.

(** ** Where the two paths differ *)

(** An integer beyond 64 bits, which [HSet] accepts from a [uint64]: the JSON1
    path reports an overflow and the fallback a type error. *)
Example HIncrBy_modes_differ :
  let big := @object_text toy_lib toy_jtext [("n", "18446744073709551615")] in
  let w := init_world (set_cache {[ ("default", "k") := Row big typeJSON 0 None 0 0 30 ]} empty_db) in
  let run b := (@HIncrBy (still_host 100) toy_lib toy_json toy_jtext toy_sqlite
                  (with_mode b (demo_cache "default")) "k" "n" 1 [] w).1 in
  run true = Err ErrOverflow ∧ run false = Err ErrNotNumeric.
Proof. vm_compute. done. Qed.

(** A full namespace under [NoEviction] whose key has expired but not been
    swept: the JSON1 path lets the write replace it, the fallback rejects it. *)
Example HSet_capacity_differs :
  let dead := Row ada typeJSON 0 (Some 50) 0 0 (Z.of_nat (String.length ada)) in
  let w := init_world (set_cache {[ ("default", "k") := dead ]} empty_db) in
  let c b := MkCache "/tmp/cache.db" "default" 1 (Some 1) None NoEviction false (60 * Second) b [] Hour 0 100 in
  let run b := (@HSet (still_host 100) toy_lib toy_json toy_jtext toy_sqlite (c b) "k" "f"
                  (GInt KInt 1) [] w).1 in
  run true = Ok true ∧ run false = Err ErrCacheFull.
Proof. vm_compute. done. Qed.
