(* ===== verification/HashAtomic.v ===== *)
(** Hash operations of many processes on one file.

    A hash operation reads the clock, touches the file in one statement or one
    transaction, and then only keeps books. So whatever other processes commit
    and whichever statement fails, the call cannot be told from one that runs
    alone on the file of one moment: its reply and its effect are those of the
    same code on a machine of its own, about which [HashProps] says the rest. *)

From S2P Require Import Prelude GoStd Values HashDoc Store Engine Channels EventLog Changes Sweep Kv Reads TtlMap Shared KvProps Hash HashSpec HashProps.
Open Scope Z_scope.

(** ** Bookkeeping *)

Section books.
Context {H : Host}.

(** Bookkeeping that ends with [r]. *)
Definition tail {A} (r : result A) (m : M A) : Prop := ∀ w,
  (m w).1 = r ∧ others (here w) (here (m w).2).

Lemma tail_lift {A} (r : result A) : tail r (lift r).
Proof. intros w. split; [done|reflexivity]. Qed.
Lemma tail_ret {A} (a : A) : tail (Ok a) (mret a).
Proof. apply (tail_lift (Ok a)). Qed.
Lemma tail_fail {A} e : tail (Err e) (fail (A:=A) e).
Proof. apply (tail_lift (Err e)). Qed.

Lemma tail_bind {A B} (m : M A) (k : A → M B) r : background m → (∀ a, tail r (k a)) → tail r (m ≫= k).
Proof.
  intros (Hr & Hk) Htail w. unfold mbind, M_bind. specialize (Hk w). destruct (Hr w) as [a Ha].
  destruct (m w) as [x w1]. simpl in *. subst x. destruct (Htail a w1) as [? Ho]. split; [done|]. by etrans.
Qed.
End books.

(** ** Parts of a call *)

Section parts.
Context {H : Host}.
Abbreviation HQ := (alone H).

(** A whole call: it fails, or it is the quiet call on the file [d] of one
    moment, which becomes [d2]; others act before and after. *)
Definition linear {A} (m mq : M A) : Prop := ∀ w,
  ((m w).1 = Err ErrDatabase ∧ others (here w) (here (m w).2)) ∨
  ∃ n d d2, others (here w) (n, d) ∧ (mq (with_db d w)).1 = (m w).1 ∧
    same_data (db_cache (w_db (mq (with_db d w)).2)) (db_cache d2) ∧ others (n, d2) (here (m w).2).

(** *** Calls *)

Lemma linear_access {A B} (m mq : M A) (k kq : A → M B) (f : A → result B) :
  access rows_kept m mq → (∀ a, tail (f a) (k a)) → (∀ a, tail (H:=HQ) (f a) (kq a)) → linear (m ≫= k) (mq ≫= kq).
Proof.
  intros Hm Hk Hkq w. unfold mbind, M_bind. destruct (Hm w) as [Hn [[He Ho]|Hw]].
  - left. destruct (m w) as [[a|e|] w1]; simpl in *; try done. split; [congruence|done].
  - right. exists (w_step (m w).2), (refresh w), (w_db (m w).2).
    split; [by apply (others_found w w)|]. rewrite <- Hw.
    destruct (m w) as [[a|e|] w1]; [|split; [done|split; [done|reflexivity]]..].
    destruct (Hk a w1) as [-> Ho]. destruct (Hkq a w1) as [-> Hoq]. split; [done|]. split; [|exact Ho].
    apply (others_alone _ rows_kept) in Hoq. by symmetry.
Qed.

Lemma linear_now {B} (k kq : Z → M B) :
  (∀ t, linear (k t) (kq t)) → linear (nowMillis ≫= k) (nowMillis (H:=HQ) ≫= kq).
Proof.
  assert (∀ w p, others (here (advance 0 w)) p → others (here w) p) as Hadv.
  { intros w p Ho. etrans; [|exact Ho]. by apply others_books. }
  intros Hk w. destruct (Hk (clock (w_step w)) (advance 0 w)) as [[He Ho]|(n & d & d2 & Hd & Hr & Ho)].
  - left. split; [exact He|]. apply Hadv. exact Ho.
  - right. exists n, d, d2. split; [by apply Hadv|]. split; [exact Hr|exact Ho].
Qed.

(** What touches nothing at all. *)
Lemma linear_lift {A} (r : result A) : linear (lift r) (lift r).
Proof. intros w. right. by exists (w_step w), (w_db w), (w_db w). Qed.
Lemma linear_ret {A} (a : A) : linear (mret a) (mret a).
Proof. apply (linear_lift (Ok a)). Qed.

Lemma linear_lift_bind {A B} (r : result A) (k kq : A → M B) :
  (∀ a, linear (k a) (kq a)) → linear (lift r ≫= k) (lift r ≫= kq).
Proof.
  intros Hk. destruct r as [a|e|]; [apply (Hk a)|apply (linear_lift (Err e))|apply (linear_lift Hang)].
Qed.

Lemma linear_map {A B} (m mq : M A) (k kq : A → M B) (f : A → result B) :
  linear m mq → (∀ a w, k a w = (f a, w)) → (∀ a w, kq a w = (f a, w)) → linear (m ≫= k) (mq ≫= kq).
Proof.
  intros Hm Hk Hkq w. unfold mbind, M_bind. destruct (Hm w) as [[He Ho]|(n & d & d2 & Hd & Hr & Ho)].
  - left. destruct (m w) as [[a|e|] w1]; simpl in *; try done. split; [congruence|done].
  - right. exists n, d, d2. split; [done|]. destruct (m w) as [r w1], (mq _) as [rq w2]. simpl in *. subst rq.
    destruct r as [a|e|]; [|done..]. by rewrite Hk, Hkq.
Qed.
End parts.

(** What is left of a call is decided by its shape. *)
#[export] Hint Resolve tail_ret tail_fail linear_ret linear_lift : calls.

Ltac tail_go :=
  repeat lazymatch goal with
  | |- ∀ _, _ => intros
  | |- tail _ (_ ≫= _) => apply tail_bind
  | |- tail _ (match ?x with _ => _ end) => destruct x
  | |- background (match ?x with _ => _ end) => destruct x
  | |- _ => solve [eauto with calls]
  end.

Section hash.
Context {H : Host} {GL : GoLib} {CJ : ChangeJson GL} {JT : JsonText GL} {SJ : SqliteJson GL}.
Context (c : Cache) (Hu : unlimited c = true) (Hs : 0 < sweepInterval c).
Abbreviation HQ := (alone H).

(** *** The bookkeeping of hash operations *)

Lemma no_evict {H' : Host} : maybeEvict c = mret tt.
Proof using Hu. unfold maybeEvict. rewrite Hu. by case_bool_decide. Qed.

Lemma background_upkeep {H' : Host} b op keys n : background (when b (changed c op keys n ;; maybeEvict c)).
Proof using Hu. rewrite no_evict. eauto 6 with calls. Qed.

Lemma background_read {H' : Host} key now b : background (recordHashRead c key now b).
Proof using Hs.
  unfold recordHashRead. rewrite (maybeOpportunisticSweep_off c Hs).
  apply background_bind; [|auto with calls]. destruct b; eauto 6 with calls.
Qed.

(** *** Statements *)

Lemma tracks_checkHashType key now : tracks (checkHashType c key now) (checkHashType (H:=HQ) c key now).
Proof using Type. unfold checkHashType. tracks_go. Qed.
Lemma tracks_loadHash key now : tracks (loadHash c key now) (loadHash (H:=HQ) c key now).
Proof using Type. unfold loadHash. tracks_go. Qed.
Lemma tracks_checkCapacityIn : tracks (checkCapacityIn c) (checkCapacityIn (H:=HQ) c).
Proof using Type. unfold checkCapacityIn. tracks_go. Qed.
#[local] Hint Resolve tracks_checkHashType tracks_loadHash tracks_checkCapacityIn : calls.

Lemma tracks_hset key now exp stmts :
  tracks (hset_statements c key now exp stmts) (hset_statements (H:=HQ) c key now exp stmts).
Proof using Type. induction stmts as [|pairs stmts IH]; cbn [hset_statements]; tracks_go; done. Qed.
Lemma tracks_hdel key now n fields :
  tracks (hdel_statements c key now n fields) (hdel_statements (H:=HQ) c key now n fields).
Proof using Type. revert n. induction fields as [|f fields IH]; intros n; cbn [hdel_statements]; tracks_go; done. Qed.
#[local] Hint Resolve tracks_hset tracks_hdel : calls.

Lemma access_loadHash key now : access rows_kept (loadHash c key now) (loadHash (H:=HQ) c key now).
Proof using Type.
  unfold loadHash. apply (access_bind _ _ _ _ (λ r, (lift (match r with
    | None => Ok None
    | Some r => if negb (value_type r =? typeJSON) then Err ErrSerialization
                else match parseJSONObject (value r) with Ok (inr o) => Ok (Some o) | _ => Err ErrSerialization end
    end) (init_world empty_db)).1)); [apply access_query|intros r w; repeat case_match; done..].
Qed.

Lemma linear_rmwHash {A} key ttl create (mutate : jsonObject → result (bool * A * jsonObject)) :
  linear (rmwHash c key ttl create mutate) (rmwHash (H:=HQ) c key ttl create mutate).
Proof using Hu.
  apply linear_now. intros now. apply (linear_access _ _ _ _ (λ p, Ok p.2)).
  - apply access_inTx. cbv zeta. tracks_go.
  - intros [wrote r]. apply tail_bind; [apply background_upkeep|tail_go].
  - intros [wrote r]. apply tail_bind; [apply background_upkeep|tail_go].
Qed.

(** ** Operations *)

(** The choice between the two implementations, without the checks that an
    unlimited cache skips. *)
Ltac calls_go :=
  cbv zeta; destruct (json1 c); cbn [negb]; [|first [apply linear_rmwHash|idtac]];
  unfold capacityCheck; rewrite ?(precheck_unlimited c Hu), ?no_evict, ?(maybeOpportunisticSweep_off c Hs);
  try (apply linear_now; intros now).

Lemma linear_HSet key f v opts : linear (HSet c key f v opts) (HSet (H:=HQ) c key f v opts).
Proof using Hs Hu.
  unfold HSet. apply linear_lift_bind. intros e. calls_go.
  apply (linear_access _ _ _ _ Ok); [apply access_inTx; tracks_go|tail_go..].
Qed.

Lemma linear_HSetNX key f v opts : linear (HSetNX c key f v opts) (HSetNX (H:=HQ) c key f v opts).
Proof using Hs Hu.
  unfold HSetNX. apply linear_lift_bind. intros e. calls_go.
  apply (linear_access _ _ _ _ Ok); [apply access_inTx; tracks_go|tail_go..].
Qed.

Lemma linear_HSetMany key fs opts : linear (HSetMany c key fs opts) (HSetMany (H:=HQ) c key fs opts).
Proof using Hs Hu.
  unfold HSetMany. case_bool_decide; [apply linear_ret|]. apply linear_lift_bind. intros es. calls_go.
  apply (linear_access _ _ _ _ (λ _, Ok tt)); [apply access_inTx; tracks_go|tail_go..].
Qed.

Lemma linear_HDel key fs : linear (HDel c key fs) (HDel (H:=HQ) c key fs).
Proof using Hs Hu.
  unfold HDel. cbv zeta. destruct (dedupe fs) as [|k ks]; [apply linear_ret|]. calls_go.
  apply (linear_access _ _ _ _ Ok); [apply access_inTx; tracks_go|tail_go..].
Qed.

Lemma linear_hincr key f a ttl : linear (hincr c key f a ttl) (hincr (H:=HQ) c key f a ttl).
Proof using Hs Hu.
  unfold hincr. calls_go.
  apply (linear_access _ _ _ _ Ok); [apply access_inTx; tracks_go|tail_go..].
Qed.

Lemma linear_hmget key fs : linear (hmget c key fs) (hmget (H:=HQ) c key fs).
Proof using Hs Hu.
  unfold hmget. apply linear_now. intros now. destruct (json1 c); cbn [negb].
  - apply (linear_access _ _ _ _ (λ r, match r with
      | None => Ok None
      | Some r => if negb (hashIsObj r) then Err ErrSerialization else Ok (Some (json_arrow (value r) <$> fs)) end));
      [apply access_query|pose proof @background_read; tail_go..].
  - apply (linear_access _ _ _ _ (λ o, Ok ((λ o, jsonObject.get o <$> fs) <$> o)));
      [apply access_loadHash|pose proof @background_read; tail_go..].
Qed.

Lemma linear_hashEntries key vs : linear (hashEntries c key vs) (hashEntries (H:=HQ) c key vs).
Proof using Hs Hu.
  unfold hashEntries. apply linear_now. intros now. destruct (json1 c); cbn [negb].
  - apply (linear_access _ _ _ _ (λ r, match r with
      | None => Ok []
      | Some r => if negb (hashIsObj r) then Err ErrSerialization
                  else Ok ((λ p, (p.1, if vs then p.2 else "")) <$> json_each (value r)) end));
      [apply access_query|tail_go..].
  - apply (linear_access _ _ _ _ (λ o, Ok (default [] o))); [apply access_loadHash|tail_go..].
Qed.

Lemma linear_HGetAll key : linear (HGetAll c key) (HGetAll (H:=HQ) c key).
Proof using Hs Hu.
  unfold HGetAll. apply linear_now. intros now.
  apply (linear_access _ _ _ _ (λ o, Ok (foldl (λ m f, <[f.1 := f.2]> m) ∅ (default [] o))));
    [apply access_loadHash|pose proof @background_read; tail_go..].
Qed.

Lemma linear_HLen key : linear (HLen c key) (HLen (H:=HQ) c key).
Proof using Hs Hu.
  unfold HLen. apply linear_now. intros now. destruct (json1 c); cbn [negb].
  - apply (linear_access _ _ _ _ (λ r, match r with
      | None => Ok 0
      | Some r => if negb (hashIsObj r) then Err ErrSerialization
                  else Ok (Z.of_nat (length (json_each (value r)))) end)); [apply access_query|tail_go..].
  - apply (linear_access _ _ _ _ (λ o, Ok (Z.of_nat (length (default [] o))))); [apply access_loadHash|tail_go..].
Qed.

(** A reply that is computed from another one. *)
Lemma linear_fmap {A B} (m mq : M A) (f : A → B) :
  linear m mq → linear (x ← m; mret (f x)) (x ← mq; mret (f x)).
Proof using Type. intros Hm. by apply (linear_map _ _ _ _ (λ a, Ok (f a))). Qed.

Lemma linear_run_hash key op : linear (run_hash c key op) (run_hash (H:=HQ) c key op).
Proof using Hs Hu.
  destruct op; cbn [run_hash]; try apply linear_fmap.
  - apply linear_HSet.
  - apply linear_HSetNX.
  - apply linear_HSetMany.
  - apply linear_HDel.
  - apply (linear_map _ _ _ _ (λ n, match n with NInt n => Ok n | NFloat _ => Hang end));
      [apply linear_hincr|by intros []..].
  - apply linear_fmap, linear_hmget.
  - destruct fs; [apply linear_ret|apply linear_fmap, linear_hmget].
  - apply linear_HGetAll.
  - apply linear_fmap, linear_hmget.
  - apply linear_fmap, linear_hashEntries.
  - apply linear_fmap, linear_hashEntries.
  - apply linear_HLen.
Qed.
End hash.

(** C5: hash operations are atomic on a shared file, on both paths, in a cache
    without limits that leaves sweeps to the sweeper. Whatever other processes
    commit before any statement and whichever statement the driver
    fails, a call either reports the driver's error and has changed nothing, or
    there is one moment such that its reply, and what it has done to the cache,
    are those of the same call that runs alone from the file of that moment;
    and those are the ones of the specification, when the text at the key is
    one that both JSON readers read alike. Only others change rows before and
    after. *)
Theorem hash_linearizable `{H : Host} `{GL : GoLib} `{CJ : !ChangeJson GL} `{JT : !JsonText GL}
    `{SJ : !SqliteJson GL} `{JL : !JsonTextLaws JT} `{SL : !SqliteJsonLaws JT SJ}
    (c : Cache) (key : string) (op : hash_op) (w w' : World) (r : result hash_reply) :
  unlimited c = true → 0 < sweepInterval c → op_ok op → run_hash c key op w = (r, w') →
  (r = Err ErrDatabase ∧ others (here w) (here w')) ∨
  ∃ n d d2, others (here w) (n, d) ∧ others (n, d2) (here w') ∧
    let '(rq, wq) := run_hash (H:=alone H) c key op (with_db d w) in
    rq = r ∧ same_data (db_cache (w_db wq)) (db_cache d2) ∧
    let now := clock (w_step w) in let row := live_row (namespace c) key now d in
    (agrees row → hash_post (H:=alone H) c key op now row (with_db d w) r wq).
Proof.
  intros Hu Hs Hok Hrun.
  destruct (linear_run_hash c Hu Hs key op w) as [Hf|(n & d & d2 & Hd & Hr & Hsame & Ho)]; rewrite Hrun in *; [by left|].
  right. exists n, d, d2. split; [done|]. split; [done|].
  pose proof (refines_hash_op (H:=alone H) c Hu key op (with_db d w)) as Hpost. unfold wp in Hpost.
  destruct (run_hash (H:=alone H) c key op (with_db d w)) as [rq wq]. simpl in *. subst rq.
  split; [done|]. split; [done|]. intros Hag. by apply Hpost.
Qed.

(** Two processes add to one field; the other one commits just before. *)
Lemma hash_linearizable_witness :
  let other := λ d, (run_hash (H:=still_host 100) (GL:=toy_lib) (CJ:=toy_json) (JT:=toy_jtext) (SJ:=toy_sqlite)
    (demo_cache "default") "u" (OIncr (GL:=toy_lib) "age" 4 []) (init_world d)).2 in
  let host := race_host 100 1 (λ d, w_db (other d)) in
  let lib := toy_lib in let json := toy_json in let jt := toy_jtext in let sj := toy_sqlite in
  let c := demo_cache "default" in let op := OIncr "age" 1 [] in
  let w := init_world (set_cache hash_rows empty_db) in
  let '(r, w') := run_hash c "u" op w in
  r = Ok (HNum 41) ∧
    ((r = Err ErrDatabase ∧ others (here w) (here w')) ∨
     ∃ n d d2, others (here w) (n, d) ∧ others (n, d2) (here w') ∧
       let '(rq, wq) := run_hash (H:=alone host) c "u" op (with_db d w) in
       rq = r ∧ same_data (db_cache (w_db wq)) (db_cache d2) ∧
       let now := clock (w_step w) in let row := live_row (namespace c) "u" now d in
       (agrees row → hash_post (H:=alone host) c "u" op now row (with_db d w) r wq)).
Proof.
  intros other host lib json jt sj c op w. destruct (run_hash c "u" op w) as [r w'] eqn:Hrun. split.
  - assert (match (run_hash c "u" op w).1 with Ok (HNum 41) => true | _ => false end = true) as Hr
      by (vm_compute; reflexivity).
    rewrite Hrun in Hr. clear Hrun. cbn [fst] in Hr. clear -Hr. by repeat (case_match; try discriminate).
  - refine (@hash_linearizable host lib json jt sj toy_jtext_laws toy_sqlite_laws c "u" op w w' r _ _ _ Hrun);
      [reflexivity|reflexivity|by split].
Defined.
