(* ===== verification/GoBase64.v ===== *)
(** Base64 without padding ([encoding/base64]): the URL-safe alphabet of
    [RawURLEncoding], which the web UI uses for session cookies, signatures and
    random tokens, and the standard one of [RawStdEncoding], which it uses in
    password hashes. *)

From S2P Require Import Prelude GoStd.
Open Scope Z_scope.

(** ** The alphabets *)
Definition RawURL : string := "ABCDEFGHIJKLMNOPQRSTUVWXYZabcdefghijklmnopqrstuvwxyz0123456789-_".
Definition RawStd : string := "ABCDEFGHIJKLMNOPQRSTUVWXYZabcdefghijklmnopqrstuvwxyz0123456789+/".

Definition sextet : Type := bool * bool * bool * bool * bool * bool.

Fixpoint index_char (a : ascii) (s : string) : option nat :=
  match s with
  | EmptyString => None
  | String b s => if Ascii.eqb a b then Some O else S <$> index_char a s
  end.

(** The character of six bits, most significant first. *)
Definition b64_char (alphabet : string) (x : sextet) : ascii :=
  let '(b5, b4, b3, b2, b1, b0) := x in
  let n := (32 * Nat.b2n b5 + 16 * Nat.b2n b4 + 8 * Nat.b2n b3 + 4 * Nat.b2n b2 + 2 * Nat.b2n b1 + Nat.b2n b0)%nat in
  default zero (String.get n alphabet).

Definition b64_value (alphabet : string) (a : ascii) : option sextet :=
  n ← index_char a alphabet;
  Some (Nat.testbit n 5, Nat.testbit n 4, Nat.testbit n 3, Nat.testbit n 2, Nat.testbit n 1, Nat.testbit n 0).

(** ** Encoding and decoding *)
Fixpoint EncodeToString (alphabet : string) (s : string) : string :=
  match s with
  | EmptyString => ""
  | String (Ascii a0 a1 a2 a3 a4 a5 a6 a7) EmptyString =>
      String (b64_char alphabet (a7, a6, a5, a4, a3, a2)) (String (b64_char alphabet (a1, a0, false, false, false, false)) "")
  | String (Ascii a0 a1 a2 a3 a4 a5 a6 a7) (String (Ascii b0 b1 b2 b3 b4 b5 b6 b7) EmptyString) =>
      String (b64_char alphabet (a7, a6, a5, a4, a3, a2)) (String (b64_char alphabet (a1, a0, b7, b6, b5, b4))
        (String (b64_char alphabet (b3, b2, b1, b0, false, false)) ""))
  | String (Ascii a0 a1 a2 a3 a4 a5 a6 a7) (String (Ascii b0 b1 b2 b3 b4 b5 b6 b7)
      (String (Ascii c0 c1 c2 c3 c4 c5 c6 c7) s)) =>
      String (b64_char alphabet (a7, a6, a5, a4, a3, a2)) (String (b64_char alphabet (a1, a0, b7, b6, b5, b4))
        (String (b64_char alphabet (b3, b2, b1, b0, c7, c6)) (String (b64_char alphabet (c5, c4, c3, c2, c1, c0)) (EncodeToString alphabet s))))
  end.

(** Carriage returns and newlines in the input are skipped. *)
Fixpoint skip_newlines (s : string) : string :=
  match s with
  | EmptyString => ""
  | String a s => if Ascii.eqb a "010" || Ascii.eqb a "013" then skip_newlines s else String a (skip_newlines s)
  end.

(** Groups of four characters; a rest of one is an error, and the unused low
    bits of the last character of a rest of two or three are ignored. *)
Fixpoint decode_groups (alphabet : string) (s : string) : option string :=
  match s with
  | EmptyString => Some ""
  | String _ EmptyString => None
  | String p (String q EmptyString) =>
      '(a7, a6, a5, a4, a3, a2) ← b64_value alphabet p;
      '(a1, a0, _, _, _, _) ← b64_value alphabet q;
      Some (String (Ascii a0 a1 a2 a3 a4 a5 a6 a7) "")
  | String p (String q (String r EmptyString)) =>
      '(a7, a6, a5, a4, a3, a2) ← b64_value alphabet p;
      '(a1, a0, b7, b6, b5, b4) ← b64_value alphabet q;
      '(b3, b2, b1, b0, _, _) ← b64_value alphabet r;
      Some (String (Ascii a0 a1 a2 a3 a4 a5 a6 a7) (String (Ascii b0 b1 b2 b3 b4 b5 b6 b7) ""))
  | String p (String q (String r (String t s))) =>
      '(a7, a6, a5, a4, a3, a2) ← b64_value alphabet p;
      '(a1, a0, b7, b6, b5, b4) ← b64_value alphabet q;
      '(b3, b2, b1, b0, c7, c6) ← b64_value alphabet r;
      '(c5, c4, c3, c2, c1, c0) ← b64_value alphabet t;
      rest ← decode_groups alphabet s;
      Some (String (Ascii a0 a1 a2 a3 a4 a5 a6 a7) (String (Ascii b0 b1 b2 b3 b4 b5 b6 b7)
        (String (Ascii c0 c1 c2 c3 c4 c5 c6 c7) rest)))
  end.

Definition DecodeString (alphabet : string) (s : string) : option string :=
  decode_groups alphabet (skip_newlines s).

(** ** The round trip *)
(** An alphabet names each of the 64 values once, with no line break. *)
Class Alphabet (a : string) : Prop := {
  b64_value_char x : b64_value a (b64_char a x) = Some x;
  b64_no_lf : b64_value a "010" = None;
  b64_no_cr : b64_value a "013" = None
}.
#[export] Instance RawURL_alphabet : Alphabet RawURL.
Proof. split; [|done..]. intros [[[[[[] []] []] []] []] []]; reflexivity. Qed.
#[export] Instance RawStd_alphabet : Alphabet RawStd.
Proof. split; [|done..]. intros [[[[[[] []] []] []] []] []]; reflexivity. Qed.

(** Strings three characters at a time. *)
Lemma string_ind3 (P : string → Prop) :
  P "" → (∀ a, P (String a "")) → (∀ a b, P (String a (String b ""))) →
  (∀ a b c s, P s → P (String a (String b (String c s)))) → ∀ s, P s.
Proof.
  intros H0 H1 H2 H3. fix IH 1. intros [|a [|b [|c s]]]; [exact H0|apply H1|apply H2|apply H3, IH].
Qed.

Lemma string_ind4 (P : string → Prop) :
  P "" → (∀ a, P (String a "")) → (∀ a b, P (String a (String b ""))) →
  (∀ a b c, P (String a (String b (String c "")))) →
  (∀ a b c d s, P s → P (String a (String b (String c (String d s))))) → ∀ s, P s.
Proof.
  intros H0 H1 H2 H3 H4. fix IH 1. intros [|a [|b [|c [|d s]]]]; [exact H0|apply H1|apply H2|apply H3|apply H4, IH].
Qed.

Section alphabet.
Context {alpha : string} {AL : Alphabet alpha}.

Lemma b64_char_not (x : sextet) (a : ascii) : b64_value alpha a = None → bool_decide (a = b64_char alpha x) = false.
Proof using AL.
  intros Ha. apply bool_decide_eq_false_2. intros ->. by rewrite b64_value_char in Ha.
Qed.

Lemma Encode_chars (s : string) (a : ascii) : b64_value alpha a = None → ContainsChar (EncodeToString alpha s) a = false.
Proof using AL.
  intros Ha. revert s. apply string_ind3; [done|..].
  - intros []; cbn [EncodeToString ContainsChar]. by rewrite !b64_char_not.
  - intros [] []; cbn [EncodeToString ContainsChar]. by rewrite !b64_char_not.
  - intros [] [] [] s IH. cbn [EncodeToString ContainsChar]. by rewrite !b64_char_not.
Qed.

Lemma skip_newlines_id (s : string) :
  ContainsChar s "010" = false → ContainsChar s "013" = false → skip_newlines s = s.
Proof using AL.
  induction s as [|b s IH]; [done|]. simpl.
  rewrite !orb_false_iff, !bool_decide_eq_false. intros [H10 ?] [H13 ?].
  rewrite (proj2 (Ascii.eqb_neq _ _) (not_eq_sym H10)), (proj2 (Ascii.eqb_neq _ _) (not_eq_sym H13)). simpl.
  by rewrite IH.
Qed.

Lemma Decode_Encode (s : string) : DecodeString alpha (EncodeToString alpha s) = Some s.
Proof using AL.
  unfold DecodeString. rewrite skip_newlines_id by (apply Encode_chars; apply AL).
  revert s. apply string_ind3; [done|..].
  - intros []. cbn [EncodeToString decode_groups]. by rewrite !b64_value_char.
  - intros [] []. cbn [EncodeToString decode_groups]. by rewrite !b64_value_char.
  - intros [] [] [] s IH. cbn [EncodeToString decode_groups]. rewrite !b64_value_char. simpl. by rewrite IH.
Qed.

(** A character that is neither in the alphabet nor a line break makes decoding fail. *)
Lemma decode_groups_bad (s : string) (a : ascii) :
  b64_value alpha a = None → ContainsChar s a = true → decode_groups alpha s = None.
Proof using AL.
  intros Ha. induction s as [|p|p q|p q r|p q r t s IH] using string_ind4; [simpl; done|reflexivity|..]; cbn [decode_groups ContainsChar].
  - rewrite !orb_true_iff, !bool_decide_eq_true. intros [->|[->|[=]]]; rewrite Ha; simpl; [done|].
    by destruct (b64_value alpha p) as [[[[[[]]]]]|].
  - rewrite !orb_true_iff, !bool_decide_eq_true.
    destruct (b64_value alpha p) as [[[[[[]]]]]|] eqn:?, (b64_value alpha q) as [[[[[[]]]]]|] eqn:?; simpl; try done.
    intros [->|[->|[->|[=]]]]; rewrite ?Ha in *; simplify_eq; done.
  - rewrite !orb_true_iff, !bool_decide_eq_true.
    destruct (b64_value alpha p) as [[[[[[]]]]]|] eqn:?, (b64_value alpha q) as [[[[[[]]]]]|] eqn:?,
      (b64_value alpha r) as [[[[[[]]]]]|] eqn:?, (b64_value alpha t) as [[[[[[]]]]]|] eqn:?; simpl; try done.
    intros [->|[->|[->|[->|Hs]]]]; rewrite ?Ha in *; simplify_eq; try done. by rewrite IH.
Qed.

Lemma ContainsChar_skip (s : string) (a : ascii) :
  Ascii.eqb a "010" = false → Ascii.eqb a "013" = false →
  ContainsChar (skip_newlines s) a = ContainsChar s a.
Proof using AL.
  intros H1 H2. induction s as [|b s IH]; [done|]. simpl.
  destruct (Ascii.eqb b "010" || Ascii.eqb b "013") eqn:Hb; simpl; rewrite IH; [|done].
  case_bool_decide; [|done]. subst. by rewrite H1, H2 in Hb.
Qed.

Lemma Decode_bad (s : string) (a : ascii) :
  b64_value alpha a = None → Ascii.eqb a "010" = false → Ascii.eqb a "013" = false →
  ContainsChar s a = true → DecodeString alpha s = None.
Proof using AL. intros. eapply decode_groups_bad; [done|]. by rewrite ContainsChar_skip. Qed.
End alphabet.

(** ** A lossless text of any countable value

    Concrete instances of parameters that stand for encoders use it. *)
Fixpoint toy_write (p : positive) : string :=
  match p with xH => "" | xO p => String "0" (toy_write p) | xI p => String "1" (toy_write p) end.
Fixpoint toy_read (s : string) : option positive :=
  match s with
  | EmptyString => Some xH
  | String a s => p ← toy_read s; Some (if Ascii.eqb a "1" then xI p else xO p)
  end.

Lemma toy_read_write p : toy_read (toy_write p) = Some p.
Proof. induction p as [p IH|p IH|]; simpl; [by rewrite IH|by rewrite IH|done]. Qed.

Definition toy_text `{Countable A} (x : A) : string := toy_write (countable.encode x).
Definition toy_value `{Countable A} (s : string) : option A := p ← toy_read s; countable.decode p.

Lemma toy_value_text `{Countable A} (x : A) : toy_value (toy_text x) = Some x.
Proof. unfold toy_value, toy_text. rewrite toy_read_write. simpl. by rewrite decode_encode. Qed.
