(* ===== verification/GoText.v ===== *)
(** More of Go's standard library for the administration tools: white space in
    UTF-8 text, percent escapes of a URL path, and binary64 arithmetic with its
    fixed-point formatting. *)

From Stdlib Require Import SpecFloat.
From S2P Require Import Prelude GoStd Channels.
Open Scope Z_scope.

(** ** Time

    [Time.Sub] saturates. *)
Definition time_sub (a b : Z) : Z := Z.max MinInt64 (Z.min MaxInt64 (a - b)).

(** ** White space

    The length in bytes of the white-space character that [s] starts with, 0 if
    it starts with none ([unicode.IsSpace]). No encoding of another character
    contains one of these, so that a scan by bytes sees the same characters as
    a scan by runes. *)
Definition space_len (s : string) : nat :=
  match s with
  | String a t =>
      if is_space a then 1%nat
      else match byte_of a, t with
           | 194, String b _ => if bool_decide (byte_of b ∈ [133; 160]) then 2%nat else 0%nat
           | 225, String b (String c _) => if (byte_of b =? 154) && (byte_of c =? 128) then 3%nat else 0%nat
           | 226, String b (String c _) =>
               if (byte_of b =? 128) && (in_range 128 138 c || bool_decide (byte_of c ∈ [168; 169; 175])) ||
                  (byte_of b =? 129) && (byte_of c =? 159) then 3%nat else 0%nat
           | 227, String b (String c _) => if (byte_of b =? 128) && (byte_of c =? 128) then 3%nat else 0%nat
           | _, _ => 0%nat
           end
  | EmptyString => 0%nat
  end.

(** [strings.Fields]; [cur] is the field being read, [skip] the bytes left of a
    white-space character. *)
Fixpoint fields_go (skip : nat) (cur s : string) : list string :=
  let emit := if String.eqb cur "" then [] else [cur] in
  match s with
  | EmptyString => emit
  | String a t =>
      match skip with
      | S n => fields_go n cur t
      | O =>
          match space_len s with
          | O => fields_go 0 (cur +:+ String a "") t
          | S n => emit ++ fields_go n "" t
          end
      end
  end.
Definition Fields (s : string) : list string := fields_go 0 "" s.

(** [strings.TrimSpace]. *)
Fixpoint all_space (skip : nat) (s : string) : bool :=
  match s with
  | EmptyString => true
  | String _ t =>
      match skip with
      | S n => all_space n t
      | O => match space_len s with O => false | S n => all_space n t end
      end
  end.
Fixpoint trim_space_left (skip : nat) (s : string) : string :=
  match s with
  | EmptyString => ""
  | String _ t =>
      match skip with
      | S n => trim_space_left n t
      | O => match space_len s with O => s | S n => trim_space_left n t end
      end
  end.
Fixpoint trim_space_right (s : string) : string :=
  if all_space 0 s then ""
  else match s with EmptyString => "" | String a t => String a (trim_space_right t) end.
Definition TrimSpaceUnicode (s : string) : string := trim_space_right (trim_space_left 0 s).

(** [strings.Join]. *)
Fixpoint Join (l : list string) (sep : string) : string :=
  match l with
  | [] => ""
  | [x] => x
  | x :: l => x +:+ sep +:+ Join l sep
  end.

Example fields_text : Fields (String "009" "a b" +:+ String "194" (String "160" "c ")) = ["a"; "b"; "c"].
Proof. reflexivity. Qed.
Example trim_text : TrimSpaceUnicode (" a b" +:+ String "194" (String "133" " ")) = "a b".
Proof. reflexivity. Qed.

(** ** Percent escapes ([url.PathUnescape] of an escape-correct string) *)
Definition hex_val (a : ascii) : option Z :=
  let n := byte_of a in
  if in_range 48 57 a then Some (n - 48)
  else if in_range 97 102 a then Some (n - 87)
  else if in_range 65 70 a then Some (n - 55) else None.

Fixpoint PathUnescape (s : string) : string :=
  match s with
  | EmptyString => ""
  | String x rest =>
      match (if Ascii.eqb x "%" then match rest with
                                     | String a (String b t) =>
                                         match hex_val a, hex_val b with
                                         | Some m, Some n => Some (ascii_of_N (Z.to_N (16 * m + n)), PathUnescape t)
                                         | _, _ => None
                                         end
                                     | _ => None
                                     end
             else None) with
      | Some (c, t) => String c t
      | None => String x (PathUnescape rest)
      end
  end.

Example unescape_text : PathUnescape "a%2Fb%20c" = "a/b c".
Proof. reflexivity. Qed.

(** ** [filepath.Match] on a system with slashes

    [None] is [ErrBadPattern]. *)
Definition decode_rune (s : string) : Z * string :=
  match next_rune s with
  | None => (65533, drop_str 1 s)
  | Some t =>
      let b := λ i, match String.get i s with Some a => byte_of a | None => 0 end in
      (match (String.length s - String.length t)%nat with
       | 2%nat => (b 0%nat mod 32) * 64 + b 1%nat mod 64
       | 3%nat => (b 0%nat mod 16) * 4096 + (b 1%nat mod 64) * 64 + b 2%nat mod 64
       | 4%nat => (b 0%nat mod 8) * 262144 + (b 1%nat mod 64) * 4096 + (b 2%nat mod 64) * 64 + b 3%nat mod 64
       | _ => b 0%nat
       end, t)
  end.

(** The chunk up to the next star outside brackets, and the rest. *)
Fixpoint scan_chunk_end (inrange : bool) (pattern : string) : string * string :=
  match pattern with
  | EmptyString => ("", "")
  | String "\" (String a t) => let '(c, r) := scan_chunk_end inrange t in (String "\" (String a c), r)
  | String a t =>
      if Ascii.eqb a "*" && negb inrange then ("", pattern)
      else
        let '(c, r) := scan_chunk_end (Ascii.eqb a "[" || inrange && negb (Ascii.eqb a "]")) t in
        (String a c, r)
  end.
Definition scanChunk (pattern : string) : bool * string * string :=
  let rest := trim_left (Ascii.eqb "*") pattern in
  let '(chunk, rest) := scan_chunk_end false rest in
  (HasPrefix pattern "*", chunk, rest).

(** A character of a class; something must follow it. *)
Definition getEsc (chunk : string) : option (Z * string) :=
  chunk ← match chunk with
          | EmptyString => None
          | String a t =>
              if Ascii.eqb a "-" || Ascii.eqb a "]" then None
              else if Ascii.eqb a "\" then match t with EmptyString => None | _ => Some t end
              else Some chunk
          end;
  match next_rune chunk, decode_rune chunk with
  | None, _ | _, (_, EmptyString) => None
  | Some _, (r, t) => Some (r, t)
  end.

Fixpoint class_ranges (fuel : nat) (chunk : string) (r : Z) (first matched : bool) : option (bool * string) :=
  match fuel with
  | O => None
  | S fuel =>
      if HasPrefix chunk "]" && negb first then Some (matched, drop_str 1 chunk)
      else
        '(lo, chunk) ← getEsc chunk;
        '(hi, chunk) ← (if HasPrefix chunk "-" then getEsc (drop_str 1 chunk) else Some (lo, chunk));
        class_ranges fuel chunk r false (matched || (lo <=? r) && (r <=? hi))
  end.

(** Match [chunk], which has no star, at the start of [s]; after a mismatch
    the chunk is only checked. *)
Fixpoint match_chunk (fuel : nat) (failed : bool) (chunk s : string) : option (option string) :=
  match fuel with
  | O => None
  | S fuel =>
      match chunk with
      | EmptyString => Some (if failed then None else Some s)
      | String a t =>
          let failed := failed || String.eqb s "" in
          let literal := λ a t,
            if failed then match_chunk fuel true t s
            else match_chunk fuel (negb (HasPrefix s (String a ""))) t (drop_str 1 s) in
          if Ascii.eqb a "[" then
            let '(r, s) := if failed then (0, s) else decode_rune s in
            let negated := HasPrefix t "^" in
            '(matched, t) ← class_ranges fuel (if negated then drop_str 1 t else t) r true false;
            match_chunk fuel (failed || Bool.eqb matched negated) t s
          else if Ascii.eqb a "?" then
            if failed then match_chunk fuel true t s
            else match_chunk fuel (HasPrefix s "/") t (decode_rune s).2
          else if Ascii.eqb a "\" then
            match t with EmptyString => None | String a t => literal a t end
          else literal a t
      end
  end.
Definition matchChunk (chunk s : string) : option (option string) := match_chunk (S (String.length chunk)) false chunk s.

(** The first later position in the same path element where the chunk matches. *)
Fixpoint match_skipping (last_ : bool) (chunk name : string) : option (option string) :=
  match name with
  | EmptyString => Some None
  | String a t =>
      if Ascii.eqb a "/" then Some None
      else
        r ← matchChunk chunk t;
        match r with
        | Some rest => if last_ && negb (String.eqb rest "") then match_skipping last_ chunk t else Some (Some rest)
        | None => match_skipping last_ chunk t
        end
  end.

(** Whether the rest of a pattern is well formed. *)
Fixpoint check_rest (fuel : nat) (pattern : string) : option () :=
  match fuel with
  | O => Some tt
  | S fuel =>
      if String.eqb pattern "" then Some tt
      else let '(_, chunk, rest) := scanChunk pattern in _ ← matchChunk chunk ""; check_rest fuel rest
  end.

Fixpoint match_go (fuel : nat) (pattern name : string) : option bool :=
  match fuel with
  | O => None
  | S fuel =>
      if String.eqb pattern "" then Some (String.eqb name "")
      else
        let '(star, chunk, rest) := scanChunk pattern in
        if star && String.eqb chunk "" then Some (negb (ContainsChar name "/"))
        else
          r ← matchChunk chunk name;
          let final := String.eqb rest "" in
          match r with
          | Some t =>
              if negb final || String.eqb t "" then match_go fuel rest t
              else if star then
                r ← match_skipping final chunk name;
                match r with Some t => match_go fuel rest t | None => _ ← check_rest fuel rest; Some false end
              else _ ← check_rest fuel rest; Some false
          | None =>
              if star then
                r ← match_skipping final chunk name;
                match r with Some t => match_go fuel rest t | None => _ ← check_rest fuel rest; Some false end
              else _ ← check_rest fuel rest; Some false
          end
  end.
Definition Match (pattern name : string) : option bool := match_go (S (String.length pattern)) pattern name.

Example match_text :
  (λ p, Match p.1 p.2) <$> [("user:*", "user:42"); ("user:*", "user:a/b"); ("*[0-9]?", "x7é"); ("[^a-c]*\*", "d*");
     ("[", "x"); ("a[", "x"); ("*b*d", "abcd"); ("*/*", "a/b")] =
  [Some true; Some false; Some true; Some true; None; None; Some true; Some true].
Proof. vm_compute. reflexivity. Qed.

(** ** [float64] *)
Definition float64_of (n : Z) : spec_float := binary_normalize 53 1024 n 0 false.
Definition fadd : spec_float → spec_float → spec_float := SFadd 53 1024.
Definition fmul : spec_float → spec_float → spec_float := SFmul 53 1024.
Definition fdiv : spec_float → spec_float → spec_float := SFdiv 53 1024.

(** The nearest integer of [n / d], to even when it is halfway. *)
Definition round_even (n d : Z) : Z :=
  let q := n / d in
  match Z.compare (2 * (n mod d)) d with
  | Lt => q
  | Gt => q + 1
  | Eq => if Z.even q then q else q + 1
  end.

Fixpoint zeros (n : nat) : string := match n with O => "" | S n => String "0" (zeros n) end.
Definition pad_left (n : nat) (s : string) : string := zeros (n - String.length s) +:+ s.

(** The verbs [%.0f] and [%.1f], also [FormatFloat(x, 'f', digits, 64)]. *)
Definition format_fixed (digits : nat) (x : spec_float) : string :=
  let sign := λ s : bool, if s then "-" else "" in
  let text := λ n : Z,
    let p := 10 ^ Z.of_nat digits in
    FormatInt (n / p) +:+
    match digits with O => "" | _ => "." +:+ pad_left digits (FormatInt (n mod p)) end in
  match x with
  | S754_zero s => sign s +:+ text 0
  | S754_infinity s => (if s then "-" else "+") +:+ "Inf"
  | S754_nan => "NaN"
  | S754_finite s m e =>
      let n := Z.pos m * 10 ^ Z.of_nat digits in
      sign s +:+ text (if 0 <=? e then n * 2 ^ e else round_even n (2 ^ (- e)))
  end.

Example fixed_half : format_fixed 1 (fdiv (float64_of 5) (float64_of 4)) = "1.2".
Proof. reflexivity. Qed.
Example fixed_third : format_fixed 1 (fdiv (float64_of 200) (float64_of 3)) = "66.7".
Proof. reflexivity. Qed.

(** [d.Seconds()] and [d.Minutes()]: whole units and the rest in [float64]. *)
Definition Seconds (d : Z) : spec_float :=
  fadd (float64_of (Z.quot d Second)) (fdiv (float64_of (Z.rem d Second)) (float64_of 1000000000)).
Definition Minutes (d : Z) : spec_float :=
  fadd (float64_of (Z.quot d Minute)) (fdiv (float64_of (Z.rem d Minute)) (float64_of 60000000000)).
Definition Hours (d : Z) : spec_float :=
  fadd (float64_of (Z.quot d Hour)) (fdiv (float64_of (Z.rem d Hour)) (float64_of 3600000000000)).

(** [int(x)] of a float in range: towards zero. *)
Definition int_of_float (x : spec_float) : Z :=
  match x with
  | S754_finite s m e =>
      let n := if 0 <=? e then Z.pos m * 2 ^ e else Z.pos m / 2 ^ (- e) in
      if s then - n else n
  | _ => 0
  end.

(** ** [time.ParseDuration] *)
Definition max_u63 : Z := 2 ^ 63.

(** [leadingInt]: [None] past 2^63. *)
Fixpoint leadingInt (x : Z) (s : string) : option (Z * string) :=
  match s with
  | String a t =>
      match digit_val a with
      | Some d => if max_u63 / 10 <? x then None
                  else if max_u63 <? 10 * x + d then None else leadingInt (10 * x + d) t
      | None => Some (x, s)
      end
  | EmptyString => Some (x, s)
  end.

(** [leadingFraction]: the digits read, the power of ten they are over; digits
    past the range are skipped. *)
Fixpoint leadingFraction (x scale : Z) (overflow : bool) (s : string) : Z * Z * string :=
  match s with
  | String a t =>
      match digit_val a with
      | Some d =>
          if overflow || ((max_u63 - 1) / 10 <? x) || (max_u63 <? 10 * x + d) then leadingFraction x scale true t
          else leadingFraction (10 * x + d) (10 * scale) false t
      | None => (x, scale, s)
      end
  | EmptyString => (x, scale, s)
  end.

Fixpoint unit_name (s : string) : string * string :=
  match s with
  | String a t =>
      if Ascii.eqb a "." || bool_decide (is_Some (digit_val a)) then ("", s)
      else let '(u, r) := unit_name t in (String a u, r)
  | EmptyString => ("", "")
  end.

Definition unit_of (u : string) : option Z :=
  if String.eqb u "ns" then Some Nanosecond
  else if bool_decide (u ∈ ["us"; "µs"; "μs"]) then Some 1000
  else if String.eqb u "ms" then Some Millisecond
  else if String.eqb u "s" then Some Second
  else if String.eqb u "m" then Some Minute
  else if String.eqb u "h" then Some Hour
  else None.

Fixpoint duration_terms (fuel : nat) (d : Z) (s : string) : option Z :=
  match fuel with
  | O => None
  | S fuel =>
      if String.eqb s "" then Some d
      else
        '(v, s1) ← leadingInt 0 s;
        let pre := negb (String.eqb s1 s) in
        let '(f, scale, s2, post) :=
          match s1 with
          | String "." t => let '(f, scale, r) := leadingFraction 0 1 false t in (f, scale, r, negb (String.eqb r t))
          | _ => (0, 1, s1, false)
          end in
        if negb pre && negb post then None
        else
          let '(u, s3) := unit_name s2 in
          unit ← unit_of u;
          if max_u63 / unit <? v then None
          else
            let v := v * unit in
            let v := if 0 <? f then v + int_of_float (fmul (float64_of f) (fdiv (float64_of unit) (float64_of scale))) else v in
            if (max_u63 <? v) || (max_u63 <? d + v) then None else duration_terms fuel (d + v) s3
  end.

Definition ParseDuration (s : string) : option Z :=
  let '(neg, t) := match s with
                   | String "-" t => (true, t)
                   | String "+" t => (false, t)
                   | _ => (false, s)
                   end in
  if String.eqb t "0" then Some 0
  else if String.eqb t "" then None
  else
    d ← duration_terms (S (String.length t)) 0 t;
    if neg : bool then Some (- d) else if max_u63 - 1 <? d then None else Some d.

Example duration_text :
  ParseDuration <$> ["1h30m"; "1.5s"; "-2ms"; "0"; ""; "5"; "9223372036854775808ns"; "-9223372036854775808ns"; ".5us"; "1d"] =
  [Some 5400000000000; Some 1500000000; Some (-2000000); Some 0; None; None; None; Some (-9223372036854775808);
   Some 500; None].
Proof. vm_compute. reflexivity. Qed.

(** ** [Duration.String] and [Duration.Round] *)

(** The fraction [v mod 10^prec] without trailing zeros, with its point. *)
Fixpoint strip_zeros (n : nat) (v : Z) : nat * Z :=
  match n with
  | O => (O, v)
  | S k => if Z.rem v 10 =? 0 then strip_zeros k (Z.quot v 10) else (n, v)
  end.
Definition frac_text (v : Z) (prec : nat) : string :=
  let '(n, f) := strip_zeros prec (v mod 10 ^ Z.of_nat prec) in
  match n with O => "" | _ => "." +:+ pad_left n (FormatInt f) end.

Definition Duration_String (d : Z) : string :=
  let u := Z.abs d in
  let text :=
    if u =? 0 then "0s"
    else if u <? 1000 then FormatInt u +:+ "ns"
    else if u <? Millisecond then FormatInt (u / 1000) +:+ frac_text u 3 +:+ "µs"
    else if u <? Second then FormatInt (u / Millisecond) +:+ frac_text u 6 +:+ "ms"
    else
      let s := u / Second in
      (if 3600 <=? s then FormatInt (s / 3600) +:+ "h" else "") +:+
      (if 60 <=? s then FormatInt (s / 60 mod 60) +:+ "m" else "") +:+
      FormatInt (s mod 60) +:+ frac_text u 9 +:+ "s" in
  (if d <? 0 then "-" else "") +:+ text.

(** To the nearest multiple, halves away from zero, saturating. *)
Definition Round (d m : Z) : Z :=
  if m <=? 0 then d
  else
    let r := Z.rem d m in
    if d <? 0 then
      if 2 * - r <? m then d - r else Z.max MinInt64 (d - r - m)
    else
      if 2 * r <? m then d - r else Z.min MaxInt64 (d - r + m).

Example duration_strings :
  Duration_String <$> [0; 1500; 2500000; 1500000000; 5400000000000; -1; MinInt64] =
  ["0s"; "1.5µs"; "2.5ms"; "1.5s"; "1h30m0s"; "-1ns"; "-2562047h47m16.854775808s"].
Proof. vm_compute. reflexivity. Qed.
