(* ===== verification/Background.v ===== *)
(** The goroutines of a [Cache] and how [Close] ends them: the dispatcher of
    [lytecache-go/changes.go] lock by lock, and the sweeper of
    [lytecache-go/sweep.go].

    [Changes.dispatch_step] is a whole iteration of the dispatcher; here other
    goroutines run between its critical sections. *)

From S2P Require Import Prelude GoStd Values Store Engine Channels EventLog Changes Sweep GoText.
Open Scope Z_scope.

(** ** The dispatcher

    Where its goroutine is: at the head of the loop of [run]; between two calls
    of an item's targets; in [call], with a listener looked up and the mutex
    released; in the listener; or gone, with [done] closed. *)
Inductive dstage :=
  | DHead
  | DNext (rec : ChangeRecord) (ids : list nat)
  | DFound (rec : ChangeRecord) (id : nat) (ids : list nat)
  | DCall (rec : ChangeRecord) (id : nat) (ids : list nat)
  | DDone.

(** [d_calls] is the list of listener calls so far. *)
Record Dispatch := MkDispatch {
  d_disp : dispatcher;
  d_stage : dstage;
  d_calls : list (nat * ChangeRecord)
}.

Definition with_disp (f : dispatcher → dispatcher) (s : Dispatch) : Dispatch :=
  MkDispatch (f (d_disp s)) (d_stage s) (d_calls s).
Definition with_stage (st : dstage) (s : Dispatch) : Dispatch := MkDispatch (d_disp s) st (d_calls s).

(** The next step of the goroutine; [None] when it waits on the condition
    variable, and when it is gone. The listener returns, or its panic is
    recovered. *)
Definition dispatch_run (s : Dispatch) : option Dispatch :=
  let d := d_disp s in
  match d_stage s with
  | DHead =>
      if closed d then Some (with_stage DDone s)
      else match queue d with
           | [] => None
           | (rec, dep) :: q =>
               Some (MkDispatch (set_depth dep (set_queue q d)) (DNext rec (targets rec d)) (d_calls s))
           end
  | DNext rec [] => Some (with_stage DHead (with_disp (set_depth 0) s))
  | DNext rec (id :: ids) =>
      match listeners d !! id with
      | Some _ => Some (with_stage (DFound rec id ids) s)
      | None => Some (with_stage (DNext rec ids) s)
      end
  | DFound rec id ids => Some (MkDispatch d (DCall rec id ids) (d_calls s ++ [(id, rec)]))
  | DCall rec id ids => Some (with_stage (DNext rec ids) s)
  | DDone => None
  end.

(** What happens next: the goroutine goes on; a record is submitted by another
    goroutine, or by the listener that is being called; a listener is added or
    removed; the dispatcher is closed. *)
Inductive dact :=
  | ARun
  | ASubmit (rec : ChangeRecord)
  | AReenter (rec : ChangeRecord)
  | AOnChange (ops : list string)
  | AUnsubscribe (id : nat)
  | AClose.

Definition in_listener (s : Dispatch) : bool := match d_stage s with DCall _ _ _ => true | _ => false end.

Definition dispatch_act (a : dact) (s : Dispatch) : option Dispatch :=
  match a with
  | ARun => dispatch_run s
  | ASubmit rec => Some (with_disp (submit false rec) s)
  | AReenter rec => if in_listener s then Some (with_disp (submit true rec) s) else None
  | AOnChange ops => Some (with_disp (λ d, (add_listener ops d).2) s)
  | AUnsubscribe id => Some (with_disp (remove_listener id) s)
  | AClose => Some (with_disp close_dispatcher s)
  end.

Fixpoint dispatch_acts (l : list dact) (s : Dispatch) : option Dispatch :=
  match l with [] => Some s | a :: l => s ← dispatch_act a s; dispatch_acts l s end.

(** [goroutineID], on what [runtime.Stack] writes into a buffer of 64 bytes. *)
Definition goroutineID (stack : string) : Z :=
  match Fields (drop_str (String.length "goroutine ") (take_str 64 stack)) with
  | [] => -1
  | field :: _ => default (-1) (ParseInt field)
  end.

Example goroutine_seven : goroutineID "goroutine 7 [running]: main.main()" = 7.
Proof. reflexivity. Qed.

(** ** What a listener receives *)

Definition received (id : nat) (s : Dispatch) : list ChangeRecord :=
  (List.filter (λ p : nat * ChangeRecord, bool_decide (p.1 = id)) (d_calls s)).*2.

Definition wanted (ops : list string) (l : list ChangeRecord) : list ChangeRecord :=
  List.filter (λ rec, bool_decide (Op rec ∈ ops)) l.

Definition targeted (id : nat) (rec : ChangeRecord) (ids : list nat) : list ChangeRecord :=
  (λ _, rec) <$> List.filter (λ i, bool_decide (i = id)) ids.

(** The part of the current item that is still to come. *)
Definition underway (id : nat) (s : Dispatch) : list ChangeRecord :=
  match d_stage s with
  | DNext rec ids | DCall rec _ ids => targeted id rec ids
  | DFound rec i ids => targeted id rec (i :: ids)
  | DHead | DDone => []
  end.

Definition waiting (id : nat) (ops : list string) (s : Dispatch) : list ChangeRecord :=
  underway id s ++ wanted ops (queue (d_disp s)).*1.

(** The records an action puts into the queue: the ninth level is dropped. *)
Definition accepted_by (a : dact) (s : Dispatch) : list ChangeRecord :=
  match a with
  | ASubmit rec => if closed (d_disp s) then [] else [rec]
  | AReenter rec => if (maxDispatchDepth <? depth (d_disp s) + 1) || closed (d_disp s) then [] else [rec]
  | _ => []
  end.
Fixpoint accepted (l : list dact) (s : Dispatch) : list ChangeRecord :=
  match l with
  | [] => []
  | a :: l => accepted_by a s ++ match dispatch_act a s with Some s => accepted l s | None => [] end
  end.

(** Ids are handed out in order and never reused. *)
Definition stage_ids (st : dstage) : list nat :=
  match st with
  | DNext _ ids => ids
  | DFound _ id ids | DCall _ id ids => id :: ids
  | DHead | DDone => []
  end.
Definition dispatch_ok (s : Dispatch) : Prop :=
  (∀ id, is_Some (listeners (d_disp s) !! id) → (id < nextID (d_disp s))%nat) ∧
  Forall (λ id, (id < nextID (d_disp s))%nat) (stage_ids (d_stage s)) ∧
  (d_stage s = DDone → closed (d_disp s) = true).

(** A call of [id] that has been looked up and not begun. *)
Definition late (id : nat) (s : Dispatch) : nat :=
  match d_stage s with DFound _ i _ => if bool_decide (i = id) then 1 else 0 | _ => 0 end%nat.
Definition found (s : Dispatch) : nat := match d_stage s with DFound _ _ _ => 1 | _ => 0 end.

(** The steps the goroutine has left once it is closed. *)
Definition close_steps (s : Dispatch) : nat :=
  match d_stage s with
  | DHead => 1
  | DNext _ ids => length ids + 2
  | DFound _ _ ids => length ids + 4
  | DCall _ _ ids => length ids + 3
  | DDone => 0
  end.
Definition is_run (a : dact) : bool := match a with ARun => true | _ => false end.

(** ** Lemmas *)

Lemma elem_of_targets id rec d :
  id ∈ targets rec d ↔ ∃ ops, listeners d !! id = Some ops ∧ Op rec ∈ ops.
Proof.
  unfold targets. rewrite (merge_sort_Permutation le). rewrite list_elem_of_fmap. split.
  - intros ([i ops] & -> & Hin). apply elem_of_bfilter in Hin as [Hop Hin].
    apply elem_of_map_to_list in Hin. exists ops. by apply bool_decide_eq_true in Hop.
  - intros (ops & Hl & Hop). exists (id, ops). split; [done|]. apply elem_of_bfilter.
    split; [by apply bool_decide_eq_true|by apply elem_of_map_to_list].
Qed.

Lemma bfilter_eq_NoDup (x : nat) l : NoDup l →
  List.filter (λ i, bool_decide (i = x)) l = if bool_decide (x ∈ l) then [x] else [].
Proof.
  induction 1 as [|y l Hy Hl IH]; [done|]. cbn [List.filter]. rewrite IH.
  destruct (decide (y = x)) as [->|Hne].
  - rewrite (bool_decide_true (x = x)), (bool_decide_false (x ∈ l)), (bool_decide_true (x ∈ x :: l)) by set_solver. done.
  - rewrite (bool_decide_false (y = x)) by done.
    assert (x ∈ y :: l ↔ x ∈ l) as Hx by (rewrite elem_of_cons; naive_solver).
    by rewrite (bool_decide_ext _ _ Hx).
Qed.

Lemma targets_NoDup rec d : NoDup (targets rec d).
Proof.
  unfold targets. rewrite (merge_sort_Permutation le).
  pose proof (NoDup_fst_map_to_list (listeners d)) as Hnd. induction (map_to_list (listeners d)) as [|p l IH]; [constructor|].
  apply NoDup_cons in Hnd as [Hp Hnd]. cbn [List.filter]. case_bool_decide; [|by apply IH].
  apply NoDup_cons. split; [|by apply IH]. intros Hin. apply Hp. apply list_elem_of_fmap in Hin as (q & -> & Hq).
  apply elem_of_bfilter in Hq as [_ Hq]. by apply list_elem_of_fmap_2.
Qed.

(** An item goes to a registered listener once if it asked for its operation. *)
Lemma targeted_targets id ops rec d :
  listeners d !! id = Some ops → targeted id rec (targets rec d) = wanted ops [rec].
Proof.
  intros Hl. unfold targeted, wanted. rewrite bfilter_eq_NoDup by apply targets_NoDup. cbn [List.filter].
  rewrite (bool_decide_ext (id ∈ targets rec d) (Op rec ∈ ops)); [by case_bool_decide|].
  rewrite elem_of_targets. naive_solver.
Qed.

Lemma targeted_cons id rec i ids :
  targeted id rec (i :: ids) = (if bool_decide (i = id) then [rec] else []) ++ targeted id rec ids.
Proof. unfold targeted. cbn [List.filter]. by case_bool_decide. Qed.

Lemma wanted_app ops l k : wanted ops (l ++ k) = wanted ops l ++ wanted ops k.
Proof. apply List.filter_app. Qed.

Lemma received_snoc id d st l i rec :
  received id (MkDispatch d st (l ++ [(i, rec)])) = received id (MkDispatch d st l) ++ (if bool_decide (i = id) then [rec] else []).
Proof. unfold received. cbn [d_calls]. rewrite List.filter_app, fmap_app. cbn [List.filter fst]. by case_bool_decide. Qed.

(** *** Well-formedness *)

Lemma submit_cases b rec d :
  submit b rec d = d ∨ ∃ dep, submit b rec d = enqueue rec dep d.
Proof. unfold submit. repeat case_match; eauto. Qed.

Lemma targets_below rec d : (∀ id, is_Some (listeners d !! id) → (id < nextID d)%nat) →
  Forall (λ id, (id < nextID d)%nat) (targets rec d).
Proof.
  intros Hd. apply Forall_forall. intros id Hid. apply elem_of_targets in Hid as (ops & Hl & _). apply Hd. by rewrite Hl.
Qed.

Lemma dispatch_ok_step a s s' : dispatch_act a s = Some s' → dispatch_ok s → dispatch_ok s'.
Proof.
  intros Ha (Hl & Hi & Hd). destruct s as [d st calls]. unfold dispatch_ok in *. simpl in *. destruct a; simpl in Ha.
  - unfold dispatch_run in Ha. simpl in Ha. destruct st as [|rec [|id ids]|rec id ids|rec id ids|]; simpl in *.
    + destruct (closed d) eqn:Hc; [by simplify_eq/=|]. destruct (queue d) as [|[rec dep] q]; simplify_eq/=.
      split_and!; [done|by apply targets_below|done].
    + by simplify_eq/=.
    + apply Forall_cons in Hi as [Hi1 Hi]. destruct (listeners d !! id); simplify_eq/=; split_and!; auto; done.
    + by simplify_eq/=.
    + apply Forall_cons in Hi as [_ Hi]. by simplify_eq/=.
    + done.
  - injection Ha as <-. simpl. destruct (submit_cases false rec d) as [->|[dep ->]]; done.
  - unfold in_listener in Ha. simpl in Ha. destruct st; try done. injection Ha as <-. simpl.
    destruct (submit_cases true rec d) as [->|[dep ->]]; done.
  - injection Ha as <-. simpl. split_and!; [|eapply Forall_impl; [done|simpl; lia]|done].
    intros id. rewrite lookup_insert_is_Some. intros [->|[_ Hid]]; [lia|]. specialize (Hl id Hid). lia.
  - injection Ha as <-. simpl. split_and!; [|done|done]. intros i. rewrite lookup_delete_is_Some. naive_solver.
  - injection Ha as <-. simpl. split_and!; [|done|done]. intros i [? Hx]. by rewrite lookup_empty in Hx.
Qed.

Lemma dispatch_ok_acts l s s' : dispatch_acts l s = Some s' → dispatch_ok s → dispatch_ok s'.
Proof.
  revert s. induction l as [|a l IH]; intros s Hl Hok; simpl in Hl; [by simplify_eq|].
  apply bind_Some in Hl as (s1 & Ha & Hl). eauto using dispatch_ok_step.
Qed.

(** *** One step of an open dispatcher, seen by one listener *)

Lemma run_receives id ops s s' :
  listeners (d_disp s) !! id = Some ops → closed (d_disp s) = false → dispatch_run s = Some s' →
  received id s' ++ waiting id ops s' = received id s ++ waiting id ops s ∧
  listeners (d_disp s') = listeners (d_disp s) ∧ closed (d_disp s') = false.
Proof.
  intros Hl Hc Ha. destruct s as [d st calls]. unfold dispatch_run in Ha. simpl in *.
  destruct st as [|rec [|i ids]|rec i ids|rec i ids|]; simpl in *.
  - rewrite Hc in Ha. destruct (queue d) as [|[rec dep] q] eqn:Hq; simplify_eq/=. split; [|done].
    unfold waiting, underway. simpl. rewrite Hq. cbn [fmap list_fmap fst].
    by rewrite (targeted_targets _ ops), <- wanted_app.
  - simplify_eq/=. done.
  - destruct (decide (i = id)) as [->|Hi].
    + rewrite Hl in Ha. by simplify_eq/=.
    + assert (waiting id ops (MkDispatch d (DNext rec (i :: ids)) calls) = waiting id ops (MkDispatch d (DNext rec ids) calls)) as Hw.
      { unfold waiting, underway. simpl. by rewrite targeted_cons, bool_decide_false. }
      destruct (listeners d !! i); simplify_eq/=; [done|]. by rewrite Hw.
  - simplify_eq/=. split; [|done]. rewrite received_snoc. unfold waiting, underway. simpl.
    rewrite targeted_cons. by rewrite <- !app_assoc.
  - by simplify_eq/=.
  - done.
Qed.

Lemma waiting_enqueue id ops rec dep s :
  waiting id ops (with_disp (enqueue rec dep) s) = waiting id ops s ++ wanted ops [rec].
Proof. unfold waiting. simpl. by rewrite fmap_app, wanted_app, app_assoc. Qed.

Lemma submit_receives id ops (b : bool) rec s :
  let dep := if b then depth (d_disp s) + 1 else 1 in
  let kept := if (maxDispatchDepth <? dep) || closed (d_disp s) then [] else [rec] in
  waiting id ops (with_disp (submit b rec) s) = waiting id ops s ++ wanted ops kept.
Proof.
  unfold submit, with_disp. destruct (maxDispatchDepth <? _); simpl; [by rewrite app_nil_r; destruct s|].
  destruct (closed (d_disp s)); [by rewrite app_nil_r; destruct s|]. apply waiting_enqueue.
Qed.

Lemma submit_fields b rec d :
  listeners (submit b rec d) = listeners d ∧ closed (submit b rec d) = closed d ∧ nextID (submit b rec d) = nextID d.
Proof. by destruct (submit_cases b rec d) as [->|[dep ->]]. Qed.

Lemma act_receives id ops a s s' :
  listeners (d_disp s) !! id = Some ops → closed (d_disp s) = false → dispatch_ok s →
  a ≠ AClose → a ≠ AUnsubscribe id → dispatch_act a s = Some s' →
  received id s' ++ waiting id ops s' = received id s ++ waiting id ops s ++ wanted ops (accepted_by a s) ∧
  listeners (d_disp s') !! id = Some ops ∧ closed (d_disp s') = false.
Proof.
  intros Hl Hc Hok Hn1 Hn2 Ha. destruct a as [|rec|rec|o|i|]; simpl in Ha.
  - destruct (run_receives id ops s s') as (Hr & -> & ?); [done..|]. by rewrite app_nil_r.
  - injection Ha as <-. destruct (submit_fields false rec (d_disp s)) as (Hl' & Hc' & _).
    cbn [d_disp with_disp]. rewrite Hl', Hc'. split; [|done].
    rewrite submit_receives. cbn [accepted_by]. by destruct (closed (d_disp s)).
  - destruct (in_listener s); [|done]. injection Ha as <-. destruct (submit_fields true rec (d_disp s)) as (Hl' & Hc' & _).
    cbn [d_disp with_disp]. rewrite Hl', Hc'. split; [|done]. by rewrite submit_receives.
  - injection Ha as <-. simpl. rewrite app_nil_r. split_and!; [by destruct s|rewrite lookup_insert_ne; [done|]|done].
    destruct Hok as [Hok _]. specialize (Hok id ltac:(eauto)). lia.
  - injection Ha as <-. simpl. rewrite app_nil_r. split_and!; [by destruct s|rewrite lookup_delete_ne; [done|congruence]|done].
  - done.
Qed.

Lemma acts_receive id ops l s s' :
  listeners (d_disp s) !! id = Some ops → closed (d_disp s) = false → dispatch_ok s →
  AClose ∉ l → AUnsubscribe id ∉ l → dispatch_acts l s = Some s' →
  received id s' ++ waiting id ops s' = received id s ++ waiting id ops s ++ wanted ops (accepted l s) ∧
  listeners (d_disp s') !! id = Some ops ∧ closed (d_disp s') = false.
Proof.
  revert s. induction l as [|a l IH]; intros s Hl Hc Hok Hn1 Hn2 Ha; simpl in Ha.
  - injection Ha as <-. simpl. by rewrite app_nil_r.
  - apply bind_Some in Ha as (s1 & Ha & Hrest). apply not_elem_of_cons in Hn1 as [Ha1 Hn1]. apply not_elem_of_cons in Hn2 as [Ha2 Hn2].
    destruct (act_receives id ops a s s1) as (Hr & Hl1 & Hc1); [done..|].
    destruct (IH s1) as (Hr' & ?); [eauto using dispatch_ok_step..|]. split; [|done].
    rewrite Hr', app_assoc, Hr. cbn [accepted]. rewrite Ha, wanted_app. by rewrite !app_assoc.
Qed.

(** *** Progress *)

Lemma acts_app l k s : dispatch_acts (l ++ k) s = s ← dispatch_acts l s; dispatch_acts k s.
Proof. revert s. induction l as [|a l IH]; intros s; simpl; [done|]. destruct (dispatch_act a s); simpl; auto. Qed.

Definition item_steps (s : Dispatch) : nat :=
  match d_stage s with
  | DNext _ ids => 3 * length ids + 1
  | DFound _ _ ids => 3 * length ids + 3
  | DCall _ _ ids => 3 * length ids + 2
  | DHead | DDone => 0
  end.

(** The goroutine alone finishes the item it is at, then the queue. *)
Lemma item_finishes s : closed (d_disp s) = false → d_stage s ≠ DDone →
  ∃ n s', dispatch_acts (replicate n ARun) s = Some s' ∧ d_stage s' = DHead ∧
    closed (d_disp s') = false ∧ queue (d_disp s') = queue (d_disp s).
Proof.
  intros Hc Hd. remember (item_steps s) as m eqn:Hm.
  revert s Hm Hc Hd. induction m as [m IH] using lt_wf_ind. intros s -> Hc Hd.
  assert (d_stage s = DHead ∨ ∃ s1, dispatch_run s = Some s1 ∧ (item_steps s1 < item_steps s)%nat ∧
    closed (d_disp s1) = false ∧ d_stage s1 ≠ DDone ∧ queue (d_disp s1) = queue (d_disp s)) as [Hh|(s1 & Hs & Hlt & Hc1 & Hd1 & Hq1)].
  - destruct s as [d st calls]. unfold dispatch_run, item_steps. simpl in *.
    destruct st as [|rec [|i ids]|rec i ids|rec i ids|]; [by left|right..|done]; [|case_match|..];
      (eexists; split_and!; [done|simpl; lia|done..]).
  - exists 0%nat, s. done.
  - destruct (IH _ Hlt s1 eq_refl Hc1 Hd1) as (n & s' & Hn & ? & ? & Hq). exists (S n), s'. simpl. rewrite Hs.
    split_and!; [done..|congruence].
Qed.

Lemma queue_finishes s : closed (d_disp s) = false → d_stage s ≠ DDone →
  ∃ n s', dispatch_acts (replicate n ARun) s = Some s' ∧ d_stage s' = DHead ∧
    closed (d_disp s') = false ∧ queue (d_disp s') = [].
Proof.
  remember (length (queue (d_disp s))) as m eqn:Hm.
  revert s Hm. induction m as [m IH] using lt_wf_ind. intros s -> Hc Hd.
  destruct (item_finishes s Hc Hd) as (n & s1 & Hn & Hst & Hc1 & Hq).
  destruct (queue (d_disp s)) as [|[rec dep] q] eqn:Eq; [by exists n, s1|].
  set (s2 := MkDispatch (set_depth dep (set_queue q (d_disp s1))) (DNext rec (targets rec (d_disp s1))) (d_calls s1)).
  assert (dispatch_run s1 = Some s2) as Hs2.
  { unfold dispatch_run. by rewrite Hst, Hc1, Hq. }
  destruct (IH (length q) ltac:(simpl; lia) s2 eq_refl) as (k & s' & Hk & ? & ? & ?); [done..|].
  exists (n + S k)%nat, s'. rewrite replicate_add, acts_app, Hn. simpl. by rewrite Hs2.
Qed.

Lemma accepted_runs n s : accepted (replicate n ARun) s = [].
Proof. revert s. induction n as [|n IH]; intros s; simpl; [done|]. by destruct (dispatch_run s). Qed.

Lemma not_elem_of_runs n a : a ≠ ARun → a ∉ replicate n ARun.
Proof. intros Ha [? _]%elem_of_replicate. done. Qed.

(** *** One step after a listener is removed, and after the dispatcher is closed *)

Lemma act_late id a s s' :
  dispatch_act a s = Some s' → listeners (d_disp s) !! id = None → (id < nextID (d_disp s))%nat →
  (length (received id s') + late id s' ≤ length (received id s) + late id s)%nat ∧
  listeners (d_disp s') !! id = None ∧ (id < nextID (d_disp s'))%nat.
Proof.
  intros Ha Hl Hid. destruct s as [d st calls]. destruct a as [|rec|rec|o|i|]; simpl in *.
  - unfold dispatch_run in Ha. simpl in Ha. destruct st as [|rec [|i ids]|rec i ids|rec i ids|]; simpl in Ha.
    + destruct (closed d); [by simplify_eq/=|]. destruct (queue d) as [|[]]; by simplify_eq/=.
    + by simplify_eq/=.
    + destruct (listeners d !! i) eqn:Hi; simplify_eq/=; [|done]. split; [|done]. unfold late. simpl.
      rewrite bool_decide_false by congruence. done.
    + simplify_eq/=. split; [|done]. rewrite received_snoc, length_app. unfold late. simpl. unfold received. simpl.
      case_bool_decide; simpl; lia.
    + by simplify_eq/=.
    + done.
  - injection Ha as <-. simpl. destruct (submit_fields false rec d) as (-> & _ & ->). done.
  - destruct (in_listener _); [|done]. injection Ha as <-. simpl. destruct (submit_fields true rec d) as (-> & _ & ->). done.
  - injection Ha as <-. simpl. rewrite lookup_insert_ne by lia. split_and!; [done|done|lia].
  - injection Ha as <-. simpl. split_and!; [done| |done]. by apply lookup_delete_None; right.
  - injection Ha as <-. simpl. by rewrite lookup_empty.
Qed.

Lemma acts_late id l s s' :
  dispatch_acts l s = Some s' → listeners (d_disp s) !! id = None → (id < nextID (d_disp s))%nat →
  (length (received id s') + late id s' ≤ length (received id s) + late id s)%nat.
Proof.
  revert s. induction l as [|a l IH]; intros s Hl Hn Hid; simpl in Hl; [by simplify_eq|].
  apply bind_Some in Hl as (s1 & Ha & Hl). destruct (act_late id a s s1) as (Hle & ? & ?); [done..|].
  etrans; [by apply (IH s1)|done].
Qed.

(** Closed, with no listener left for the rest of the item. *)
Definition closing (s : Dispatch) : Prop :=
  closed (d_disp s) = true ∧
  Forall (λ id, listeners (d_disp s) !! id = None ∧ (id < nextID (d_disp s))%nat)
    (match d_stage s with DNext _ ids | DFound _ _ ids | DCall _ _ ids => ids | DHead | DDone => [] end).

Lemma act_closing a s s' : dispatch_act a s = Some s' → closing s →
  closing s' ∧ (length (d_calls s') + found s' ≤ length (d_calls s) + found s)%nat ∧
  ((if is_run a then 1 else 0) + close_steps s' = close_steps s)%nat.
Proof.
  intros Ha [Hc Hf]. destruct s as [d st calls]. unfold closing, found, close_steps in *.
  destruct a as [|rec|rec|o|i|]; simpl in *.
  - unfold dispatch_run in Ha. simpl in Ha. destruct st as [|rec [|i ids]|rec i ids|rec i ids|]; simpl in *.
    + rewrite Hc in Ha. by simplify_eq/=.
    + by simplify_eq/=.
    + apply Forall_cons in Hf as [[Hi _] Hf]. rewrite Hi in Ha. simplify_eq/=. split_and!; [done|done|lia|lia].
    + simplify_eq/=. rewrite length_app. simpl. split_and!; [done|done|lia|lia].
    + simplify_eq/=. split_and!; [done|done|lia|lia].
    + done.
  - injection Ha as <-. simpl. destruct (submit_fields false rec d) as (-> & -> & ->). done.
  - destruct (in_listener _); [|done]. injection Ha as <-. simpl. destruct (submit_fields true rec d) as (-> & -> & ->). done.
  - injection Ha as <-. simpl. split_and!; [done| |done..]. eapply Forall_impl; [done|].
    intros id [Hid ?]. simpl. rewrite lookup_insert_ne by lia. split; [done|lia].
  - injection Ha as <-. simpl. split_and!; [done| |done..]. eapply Forall_impl; [done|].
    intros id [Hid ?]. split; [|done]. by apply lookup_delete_None; right.
  - injection Ha as <-. simpl. split_and!; [done| |done..]. eapply Forall_impl; [done|]. simpl. by intros id [_ ?].
Qed.

Lemma acts_closing l s s' : dispatch_acts l s = Some s' → closing s →
  closing s' ∧ (length (d_calls s') + found s' ≤ length (d_calls s) + found s)%nat ∧
  (length (List.filter is_run l) + close_steps s' = close_steps s)%nat.
Proof.
  revert s. induction l as [|a l IH]; intros s Hl Hc; simpl in Hl; [by simplify_eq|].
  apply bind_Some in Hl as (s1 & Ha & Hl). destruct (act_closing a s s1) as (Hc1 & Hle & Hst); [done..|].
  destruct (IH s1) as (? & ? & ?); [done..|]. split_and!; [done|lia|]. cbn [List.filter]. destruct (is_run a); simpl; lia.
Qed.

(** ** Theorems on the dispatcher *)

(** C22: a listener receives what it asked for, once and in order. Whatever else
    happens (other goroutines write, listeners write back, other listeners come
    and go), while a listener is registered and the dispatcher open, the calls
    made to it followed by those still due are those it had, then the records
    of its operations that were queued since, in the order they were queued;
    and the goroutine, left to itself, makes all the calls that are due. *)
Theorem listener_receives (id : nat) (ops : list string) (l : list dact) (s s' : Dispatch) :
  dispatch_ok s → listeners (d_disp s) !! id = Some ops → closed (d_disp s) = false →
  dispatch_acts l s = Some s' → AClose ∉ l → AUnsubscribe id ∉ l →
  let due := received id s ++ waiting id ops s ++ wanted ops (accepted l s) in
  received id s' ++ waiting id ops s' = due ∧
  ∃ n s'', dispatch_acts (replicate n ARun) s' = Some s'' ∧ received id s'' = due.
Proof.
  intros Hok Hl Hc Ha Hn1 Hn2 due.
  destruct (acts_receive id ops l s s') as (Hr & Hl' & Hc'); [done..|]. split; [done|].
  pose proof (dispatch_ok_acts _ _ _ Ha Hok) as Hok'.
  destruct (queue_finishes s' Hc') as (n & s2 & Hn & Hst & _ & Hq).
  { intros Hd. destruct Hok' as (_ & _ & Hd'). rewrite Hd' in Hc' by done. done. }
  exists n, s2. split; [done|].
  destruct (acts_receive id ops (replicate n ARun) s' s2) as (Hr2 & _); [done..|by apply not_elem_of_runs|by apply not_elem_of_runs|done|].
  rewrite accepted_runs, app_nil_r, Hr in Hr2. unfold due. rewrite <- Hr2.
  unfold waiting, underway. by rewrite Hst, Hq, app_nil_r.
Qed.

Definition demo_record (k : string) : ChangeRecord := MkChangeRecord OpSet "default" (Some [k]) 1 false.
Definition two_listeners : Dispatch :=
  MkDispatch (MkDispatcher {[0%nat := [OpSet]; 1%nat := [OpSet; OpDelete]]} 2 [] false 0) DHead [].

Lemma two_listeners_ok : dispatch_ok two_listeners.
Proof.
  split_and!; [|by constructor|done]. intros id. simpl.
  rewrite lookup_insert_is_Some, lookup_singleton_is_Some. intros [<-|[_ <-]]; lia.
Qed.

Lemma listener_receives_witness :
  let l := [ASubmit (demo_record "a"); ARun; ASubmit (demo_record "b"); ARun; ARun; AUnsubscribe 1; AReenter (demo_record "c")] in
  ∃ s', dispatch_acts l two_listeners = Some s' ∧
    received 0 s' ++ waiting 0 [OpSet] s' = [demo_record "a"; demo_record "b"; demo_record "c"] ∧
    ∃ n s'', dispatch_acts (replicate n ARun) s' = Some s'' ∧
      received 0 s'' = [demo_record "a"; demo_record "b"; demo_record "c"].
Proof.
  intros l. destruct (dispatch_acts l two_listeners) as [s'|] eqn:Hs; [|vm_compute in Hs; discriminate Hs].
  exists s'. split; [done|].
  apply (listener_receives 0 [OpSet] l two_listeners s'); [|done|done|done|set_solver|set_solver].
  apply two_listeners_ok.
Defined.

(** After [unsubscribe] has returned, a listener is called at most once more, and
    only if the dispatcher had looked it up before and not yet begun the call;
    nothing that happens later calls it again. *)
Theorem unsubscribe_late_call (id : nat) (l : list dact) (s s' : Dispatch) :
  (id < nextID (d_disp s))%nat → dispatch_acts (AUnsubscribe id :: l) s = Some s' →
  (length (received id s') ≤ length (received id s) + late id s)%nat ∧ (late id s ≤ 1)%nat.
Proof.
  intros Hid Hl. simpl in Hl. split; [|unfold late; repeat case_match; lia].
  pose proof (acts_late id l _ _ Hl (lookup_delete_eq _ _) Hid) as Hle.
  unfold received, late in *. simpl in *. lia.
Qed.

Lemma unsubscribe_late_call_witness :
  ∃ s s', dispatch_acts [ASubmit (demo_record "a"); ARun; ARun] two_listeners = Some s ∧
    dispatch_acts [AUnsubscribe 0; ARun; ARun] s = Some s' ∧
    (length (received 0 s') ≤ length (received 0 s) + late 0 s)%nat ∧ (late 0 s ≤ 1)%nat.
Proof.
  eexists _, _. split; [reflexivity|]. split; [reflexivity|].
  apply (unsubscribe_late_call 0 [ARun; ARun]); [vm_compute; lia|reflexivity].
Defined.

(** That call can come after [unsubscribe] has returned. *)
Example called_after_unsubscribe :
  ∃ s s', dispatch_acts [ASubmit (demo_record "a"); ARun; ARun; AUnsubscribe 0] two_listeners = Some s ∧
    received 0 s = [] ∧ dispatch_run s = Some s' ∧ received 0 s' = [demo_record "a"].
Proof. eexists _, _. repeat split. Qed.

(** C23: [close] ends the dispatcher. Once it has been called, whatever the other
    goroutines do, at most the one listener call that was already looked up
    still begins, the goroutine takes exactly the steps it has left (no more
    than its current item has targets, plus four) and never waits again, so
    [done] is closed as soon as the listener that is running returns. *)
Theorem close_ends_dispatcher (l : list dact) (s s' : Dispatch) :
  dispatch_ok s → dispatch_acts (AClose :: l) s = Some s' →
  (length (d_calls s') ≤ length (d_calls s) + found s)%nat ∧
  (length (List.filter is_run l) + close_steps s' = close_steps s)%nat ∧
  (d_stage s' ≠ DDone → is_Some (dispatch_run s')).
Proof.
  intros (Hl & Hi & _) Ha. simpl in Ha.
  destruct (acts_closing l _ _ Ha) as ((Hc & _) & Hle & Hst).
  { split; [done|]. simpl. assert (∀ ids, Forall (λ id, (id < nextID (d_disp s))%nat) ids →
      Forall (λ id, (∅ : gmap nat (list string)) !! id = None ∧ (id < nextID (d_disp s))%nat) ids) as Hids.
    { intros ids Hids. eapply Forall_impl; [exact Hids|]. intros id ?. by rewrite lookup_empty. }
    apply Hids. destruct (d_stage s); simpl in *; try done; by apply Forall_cons in Hi as [_ Hi]. }
  split_and!; [|done|].
  - unfold found in *. simpl in *. lia.
  - intros Hd. unfold dispatch_run. destruct s' as [d st calls]; simpl in *.
    destruct st as [|rec [|i ids]|rec i ids|rec i ids|]; [rewrite Hc|..]; eauto; [|done]. destruct (listeners d !! i); eauto.
Qed.

Lemma close_ends_dispatcher_witness :
  ∃ s s', dispatch_acts [ASubmit (demo_record "a"); ARun; ARun] two_listeners = Some s ∧
    dispatch_acts [AClose; ARun; ARun; ARun] s = Some s' ∧
    (length (d_calls s') ≤ length (d_calls s) + found s)%nat ∧
    (3 + close_steps s' = close_steps s)%nat ∧ (d_stage s' ≠ DDone → is_Some (dispatch_run s')).
Proof.
  eexists _, _. split; [reflexivity|]. split; [reflexivity|].
  apply (close_ends_dispatcher [ARun; ARun; ARun]); [|reflexivity].
  eapply (dispatch_ok_acts [ASubmit (demo_record "a"); ARun; ARun] two_listeners); [reflexivity|].
  apply two_listeners_ok.
Defined.

(** ** The sweeper

    [sweepLoop] waits on two channels: [sweepStop], and the ticker's, which
    holds one tick (a tick that finds it full is dropped). A pass is one action
    here: it shares the process state with the other goroutines' methods and
    takes its locks for one statement at a time. *)
Section sweeper.
Context {H : Host}.

(** How far [Close] is: not there yet, waiting for [sweepDone], or past its
    last flush. *)
Inductive cstage := COpen | CWaiting | CClosed.
#[local] Instance cstage_eq_dec : EqDecision cstage.
Proof. solve_decision. Defined.

Record Sweeper := MkSweeper {
  sw_world : World;
  sw_tick : bool;      (* a tick waits in the channel *)
  sw_done : bool;      (* [sweepDone] is closed, or no sweeper was started *)
  sw_close : cstage;   (* [sweepStop] is closed unless [COpen] *)
  sw_passes : nat
}.

Definition newSweeper (c : Cache) (w : World) : Sweeper :=
  MkSweeper w false (negb (0 <? sweepInterval c)) COpen 0.

(** The ticker fires; the case that [select] takes; [Close] closes [sweepStop],
    and later finds [sweepDone] closed; another goroutine calls a method. *)
Inductive sact := STick | SPickStop | SPickTick | SClose | SFinish | SMethod (m : M ()).

Definition sweeper_act (c : Cache) (a : sact) (s : Sweeper) : option Sweeper :=
  let '(MkSweeper w tick dn cl n) := s in
  match a with
  | STick => Some (MkSweeper w (negb dn) dn cl n)
  | SPickStop => if dn || bool_decide (cl = COpen) then None else Some (MkSweeper w false true cl n)
  | SPickTick => if dn || negb tick then None else Some (MkSweeper (sweepOnce c w).2 false dn cl (S n))
  | SClose => match cl with COpen => Some (MkSweeper w tick dn CWaiting n) | _ => None end
  | SFinish => match cl with
               | CWaiting => if dn then Some (MkSweeper (flushLRUBuffer c w).2 tick dn CClosed n) else None
               | _ => None
               end
  | SMethod m => Some (MkSweeper (m w).2 tick dn cl n)
  end.

Fixpoint sweeper_acts (c : Cache) (l : list sact) (s : Sweeper) : option Sweeper :=
  match l with [] => Some s | a :: l => s ← sweeper_act c a s; sweeper_acts c l s end.

Definition is_tick (a : sact) : bool := match a with STick => true | _ => false end.
Definition is_method (a : sact) : bool := match a with SMethod _ => true | _ => false end.
Definition tick_waits (s : Sweeper) : nat := if sw_tick s then 1 else 0.

(** [Close] is past its flush only when the sweeper is gone, and a goroutine that is
    gone leaves no tick to take. *)
Definition sweeper_ok (s : Sweeper) : Prop := sw_close s = CClosed → sw_done s = true.

Lemma sweeper_act_ok c a s s' : sweeper_act c a s = Some s' → sweeper_ok s →
  sweeper_ok s' ∧
  (sw_close s ≠ COpen → sw_close s' ≠ COpen) ∧
  (sw_passes s' + tick_waits s' ≤ sw_passes s + tick_waits s + (if is_tick a then 1 else 0))%nat ∧
  (sw_close s = CClosed → is_method a = false →
     sw_close s' = CClosed ∧ sw_world s' = sw_world s ∧ sw_passes s' = sw_passes s).
Proof.
  destruct s as [w tick dn cl n]. unfold sweeper_ok, tick_waits. intros Ha Hok.
  destruct a; simpl in Ha; repeat (case_match; try discriminate); simplify_eq/=;
    repeat match goal with H : _ || _ = false |- _ => apply orb_false_iff in H as [??] end;
    split_and!; try done; try lia; try (intros; specialize (Hok ltac:(assumption)); congruence);
    destruct tick; simpl; try lia; try done; by destruct dn.
Qed.

Lemma sweeper_acts_ok c l s s' : sweeper_acts c l s = Some s' → sweeper_ok s →
  sweeper_ok s' ∧
  (sw_close s ≠ COpen → sw_close s' ≠ COpen) ∧
  (sw_passes s' + tick_waits s' ≤ sw_passes s + tick_waits s + length (List.filter is_tick l))%nat ∧
  (sw_close s = CClosed → forallb (λ a, negb (is_method a)) l = true →
     sw_close s' = CClosed ∧ sw_world s' = sw_world s ∧ sw_passes s' = sw_passes s).
Proof.
  revert s. induction l as [|a l IH]; intros s Hl Hok; simpl in Hl.
  { simplify_eq. simpl. split_and!; [done..|lia|done]. }
  apply bind_Some in Hl as (s1 & Ha & Hl). destruct (sweeper_act_ok c a s s1) as (Hok1 & Hc & Hp & Hd); [done..|].
  destruct (IH s1) as (? & Hc' & Hp' & Hd'); [done..|]. split_and!; [done|auto| |].
  - cbn [List.filter]. destruct (is_tick a); simpl; lia.
  - simpl. intros Hcl [Hm Hms]%andb_true_iff. apply negb_true_iff in Hm.
    destruct (Hd Hcl Hm) as (? & ? & ?). destruct Hd' as (? & ? & ?); [done..|]. split_and!; congruence.
Qed.

(** C24: [Close] stops the sweeper and is the last to touch the file. From the moment
    it closes [sweepStop], the sweeper begins at most one pass for the tick
    that waits and one for each that the ticker still sends, whichever ready
    case [select] prefers; it can end at once, and [Close] is never stuck; and
    after [Close] has made its last flush no pass ever runs again: the file and
    the process change only if somebody calls a method of the closed [Cache]. *)
Theorem Close_stops_sweeper (c : Cache) (before after later : list sact) (w : World) (s s' s'' : Sweeper) :
  sweeper_acts c before (newSweeper c w) = Some s →
  sweeper_acts c (SClose :: after) s = Some s' →
  sweeper_acts c later s' = Some s'' →
  (sw_passes s' ≤ sw_passes s + tick_waits s + length (List.filter is_tick after))%nat ∧
  (∃ rest fin, rest `sublist_of` [SPickStop; SFinish] ∧ sweeper_acts c rest s' = Some fin ∧ sw_close fin = CClosed) ∧
  (sw_close s' = CClosed → forallb (λ a, negb (is_method a)) later = true →
     sw_world s'' = sw_world s' ∧ sw_passes s'' = sw_passes s').
Proof.
  intros Hb Ha Hl. destruct (sweeper_acts_ok c before _ _ Hb) as (Hok & _); [done|].
  simpl in Ha. apply bind_Some in Ha as (s1 & Hc & Ha).
  destruct (sweeper_act_ok c SClose s s1 Hc Hok) as (Hok1 & _ & Hp1 & _).
  assert (sw_close s1 ≠ COpen) as Ho.
  { destruct s as [w0 t0 d0 [] n0]; simpl in Hc; [by injection Hc as <-|done..]. }
  destruct (sweeper_acts_ok c after s1 s' Ha Hok1) as (Hok' & Ho' & Hp & _). simpl in Hp1.
  split_and!; [lia| |intros; by destruct (sweeper_acts_ok c later s' s'' Hl Hok') as (_ & _ & _ & [? ?])].
  specialize (Ho' Ho). destruct s' as [w' t' d' [] n']; [done| |].
  - destruct d'.
    + exists [SFinish]. eexists. split; [|done]. by apply sublist_cons.
    + exists [SPickStop; SFinish]. eexists. split; [|done]. done.
  - exists []. eexists. split; [|done]. apply sublist_nil_l.
Qed.
End sweeper.

(** A cache that is swept: two ticks fire, one pass is made; then [Close] is
    called while a tick waits, which the sweeper takes first. *)
Lemma Close_stops_sweeper_witness :
  let _ := still_host 0 in
  let c := demo_cache "default" in
  ∃ s s' s'', sweeper_acts c [STick; STick; SPickTick; STick] (newSweeper c (init_world empty_db)) = Some s ∧
    sweeper_acts c [SClose; SPickTick; SPickStop; SFinish] s = Some s' ∧
    sweeper_acts c [STick] s' = Some s'' ∧ sw_close s' = CClosed ∧
    (sw_passes s' ≤ 1 + 1 + 0)%nat ∧ sw_world s'' = sw_world s' ∧ sw_passes s'' = sw_passes s'.
Proof.
  intros host c. eexists _, _, _. split; [reflexivity|]. split; [reflexivity|]. split; [reflexivity|]. split; [reflexivity|].
  edestruct (@Close_stops_sweeper host c [STick; STick; SPickTick; STick] [SPickTick; SPickStop; SFinish] [STick]
    (init_world empty_db)) as (Hp & _ & Hq); [reflexivity..|].
  split; [exact Hp|]. apply Hq; reflexivity.
Defined.
