(* ===== verification/Listeners.v ===== *)
(** From a write to the listeners that hear of it: what the methods of [Kv],
    [Counters] and [Hash] hand to [Cache.changed] of [lytecache-go/changes.go],
    and that the loop [run_dispatcher], whose listeners execute on the [World],
    is a run of the machine of [Background]. *)

From S2P Require Import Prelude GoStd Values Store Engine Channels EventLog Changes Sweep Kv Reads.
From S2P Require Import TtlMap Counters Shared Atomic KvProps HashDoc Hash HashSpec Background.
Open Scope Z_scope.

(** ** What a method reports

    [changed] offers a record to the dispatcher, which takes it if a listener
    wants its operation. *)

Definition offer (inside : bool) (rec : ChangeRecord) (d : dispatcher) : dispatcher :=
  if wants (Op rec) d then submit inside rec d else d.
Definition offers (inside : bool) (recs : list ChangeRecord) (d : dispatcher) : dispatcher :=
  foldl (λ d rec, offer inside rec d) d recs.

(** The part of the process that listeners are about. *)
Definition on_air (p : Proc) : option dispatcher * bool := (p_dispatcher p, p_in_dispatch p).

Definition tells (w : World) (recs : list ChangeRecord) (w' : World) : Prop :=
  on_air (w_proc w') = (offers (p_in_dispatch (w_proc w)) recs <$> p_dispatcher (w_proc w), p_in_dispatch (w_proc w)).

(** Whatever the host does, the records that [m] offers satisfy [Q]. *)
Definition reports {A} (m : M A) (Q : result A → list ChangeRecord → Prop) : Prop :=
  ∀ w, ∃ recs, tells w recs (m w).2 ∧ Q (m w).1 recs.

Lemma tells_nil w w' : on_air (w_proc w') = on_air (w_proc w) → tells w [] w'.
Proof. unfold tells, offers. intros ->. unfold on_air. by destruct (p_dispatcher (w_proc w)). Qed.

Lemma tells_app w l w' l' w'' : tells w l w' → tells w' l' w'' → tells w (l ++ l') w''.
Proof.
  unfold tells, on_air. intros [= Hd Hi] [= Hd' Hi']. rewrite Hd', Hi', Hd, Hi.
  destruct (p_dispatcher (w_proc w)); [|done]. simpl. unfold offers. by rewrite foldl_app.
Qed.

Section reports.
Context {H : Host}.

Lemma reports_mono {A} (m : M A) (P Q : result A → list ChangeRecord → Prop) :
  reports m P → (∀ r l, P r l → Q r l) → reports m Q.
Proof. intros Hm HQ w. destruct (Hm w) as (l & Ht & HP). eauto. Qed.

Lemma reports_bind {A B} (m : M A) (k : A → M B) (Q : result B → list ChangeRecord → Prop) :
  reports m (λ r l, match r with
                    | Ok a => reports (k a) (λ r' l', Q r' (l ++ l'))
                    | Err e => Q (Err e) l
                    | Hang => Q Hang l
                    end) → reports (m ≫= k) Q.
Proof.
  intros Hm w. destruct (Hm w) as (l & Ht & HQ). unfold mbind, M_bind.
  destruct (m w) as [[a|e|] w']; simpl in *; [|by exists l..].
  destruct (HQ w') as (l' & Ht' & HQ'). exists (l ++ l'). eauto using tells_app.
Qed.

Lemma reports_silent {A} (m : M A) (Q : result A → list ChangeRecord → Prop) :
  frames on_air m → (∀ r, Q r []) → reports m Q.
Proof. intros Hf HQ w. exists []. split; [apply tells_nil, Hf|done]. Qed.

(** A step that logs its errors. *)
Lemma reports_quietly {A} (m : M A) (Q : result A → list ChangeRecord → Prop) :
  frames on_air m → no_err m → (∀ a, Q (Ok a) []) → Q Hang [] → reports m Q.
Proof.
  intros Hf He HQ Hh w. exists []. split; [apply tells_nil, Hf|].
  specialize (He w). destruct (m w) as [[a|e|] w']; simpl in *; [done|by destruct (He e)|done].
Qed.

(** A step that cannot fail. *)
Lemma reports_returns {A} (m : M A) (Q : result A → list ChangeRecord → Prop) :
  frames on_air m → returns m → (∀ a, Q (Ok a) []) → reports m Q.
Proof. intros Hf Hr HQ w. exists []. split; [apply tells_nil, Hf|]. by destruct (Hr w) as [a ->]. Qed.

Lemma reports_ret {A} (a : A) (Q : result A → list ChangeRecord → Prop) : Q (Ok a) [] → reports (mret a) Q.
Proof. intros HQ w. exists []. split; [by apply tells_nil|done]. Qed.
Lemma reports_fail {A} e (Q : result A → list ChangeRecord → Prop) : Q (Err e) [] → reports (fail e) Q.
Proof. intros HQ w. exists []. split; [by apply tells_nil|done]. Qed.
Lemma reports_lift {A} (r : result A) (Q : result A → list ChangeRecord → Prop) : Q r [] → reports (lift r) Q.
Proof. intros HQ w. exists []. split; [by apply tells_nil|done]. Qed.
Lemma reports_hang {A} (Q : result A → list ChangeRecord → Prop) : Q Hang [] → reports hang Q.
Proof. intros HQ w. exists []. split; [by apply tells_nil|done]. Qed.

Lemma reports_when (b : bool) m (Q : result () → list ChangeRecord → Prop) :
  (b = true → reports m Q) → (b = false → Q (Ok tt) []) → reports (when b m) Q.
Proof. intros Hm HQ. destruct b; [by apply Hm|]. apply reports_ret. by apply HQ. Qed.

Lemma reports_attempt {A} (m : M A) (Q : result (error + A) → list ChangeRecord → Prop) :
  reports m (λ r l, match r with
                    | Ok a => Q (Ok (inr a)) l
                    | Err e => Q (Ok (inl e)) l
                    | Hang => Q Hang l
                    end) → reports (attempt m) Q.
Proof.
  intros Hm w. destruct (Hm w) as (l & Ht & HQ). exists l. unfold attempt. by destruct (m w) as [[]].
Qed.

Context {GL : GoLib} {CJ : ChangeJson GL}.

Lemma reports_changed c op keys n (Q : result () → list ChangeRecord → Prop) :
  Q (Ok tt) [newRecord c op keys n] → reports (changed c op keys n) Q.
Proof.
  intros HQ w. exists [newRecord c op keys n]. destruct (changed_returns c op keys n w) as [[] Hr].
  split; [|by rewrite Hr]. clear Hr. set (rec := newRecord c op keys n).
  assert (Op rec = op) as Hop by (unfold rec, newRecord; by repeat case_match).
  unfold tells, offers, offer. cbn [foldl]. rewrite Hop. unfold changed.
  set (pub := when (bool_decide (op ∈ publishOps c)) _).
  assert (frames on_air pub) as Hpub.
  { unfold pub. frames_solve. by apply frames_insertEvents. }
  unfold mbind, M_bind. cbn [get_proc].
  fold rec. destruct (p_dispatcher (w_proc w)) as [d|] eqn:Hd; [cbn [fmap option_fmap option_map]; destruct (wants op d)|].
  - cbn [negb andb when mod_proc]. rewrite Hpub. unfold on_air, mod_dispatcher. simpl. by rewrite Hd.
  - destruct (bool_decide _); [|by unfold on_air; simpl; rewrite Hd].
    change (on_air (w_proc (pub w).2) = (Some d, p_in_dispatch (w_proc w))). rewrite Hpub. unfold on_air. by rewrite Hd.
  - destruct (bool_decide _); [|by unfold on_air; simpl; rewrite Hd].
    change (on_air (w_proc (pub w).2) = (None, p_in_dispatch (w_proc w))). rewrite Hpub. unfold on_air. by rewrite Hd.
Qed.
End reports.

(** *** Maintenance and reads offer nothing *)

Section frames_on_air.
Context {H : Host} (c : Cache).

Lemma frames_flushLRUBuffer : frames on_air (flushLRUBuffer c).
Proof.
  assert (∀ ns l, frames on_air (flush_all ns l)) as Hall.
  { intros ns l. induction l as [|[k u] l IH]; simpl; frames_solve; done. }
  unfold flushLRUBuffer, Prepare. frames_solve; done.
Qed.

Lemma frames_removeExpiredBatch : frames on_air (removeExpiredBatch c).
Proof.
  assert (∀ fuel now, frames on_air (removeExpired_loop fuel c now)) as Hloop.
  { intros fuel now. induction fuel as [|fuel IH]; simpl; frames_solve; done. }
  unfold removeExpiredBatch, cache_fuel. frames_solve; done.
Qed.

Lemma frames_enforceCapacity : frames on_air (enforceCapacity c).
Proof.
  assert (∀ passes, frames on_air (enforce_loop passes c)) as Hloop.
  { intros passes. induction passes as [|passes IH]; simpl; frames_solve; done. }
  unfold enforceCapacity. frames_solve; done.
Qed.

Lemma frames_maybeEvict : frames on_air (maybeEvict c).
Proof.
  pose proof frames_flushLRUBuffer. pose proof frames_enforceCapacity. unfold maybeEvict. frames_solve; done.
Qed.

Lemma frames_sweepOnce : frames on_air (sweepOnce c).
Proof.
  pose proof frames_flushLRUBuffer. pose proof frames_enforceCapacity. pose proof frames_removeExpiredBatch.
  assert (frames on_air (sweepEvents c)) by by apply frames_sweepEvents. unfold sweepOnce. frames_solve; done.
Qed.

Lemma frames_maybeOpportunisticSweep : frames on_air (maybeOpportunisticSweep c).
Proof. pose proof frames_sweepOnce. unfold maybeOpportunisticSweep. frames_solve; done. Qed.

Lemma frames_bufferLRU key now : frames on_air (bufferLRU c key now).
Proof. pose proof frames_flushLRUBuffer. unfold bufferLRU. frames_solve; done. Qed.

Lemma frames_precheck key : frames on_air (precheck c key).
Proof. unfold precheck, checkCapacity. frames_solve. Qed.

Lemma frames_degradeReadError {A} e (miss : A) : frames on_air (degradeReadError c e miss).
Proof. unfold degradeReadError. frames_solve. Qed.

Lemma frames_deleteRaw key : frames on_air (deleteRaw c key).
Proof. unfold deleteRaw. frames_solve. Qed.

Lemma frames_decodeFound `{!GoLib} r d : frames on_air (decodeFound c r d).
Proof. pose proof (@frames_degradeReadError). unfold decodeFound. frames_solve; done. Qed.
End frames_on_air.

#[export] Hint Resolve frames_flushLRUBuffer frames_maybeEvict frames_sweepOnce frames_maybeOpportunisticSweep
  frames_bufferLRU frames_precheck frames_degradeReadError frames_deleteRaw frames_decodeFound
  maybeEvict_no_err maybeOpportunisticSweep_no_err : keeps.

(** Run a method up to its records. *)
Ltac reports_step :=
  lazymatch goal with
  | |- reports (mret _) _ => apply reports_ret
  | |- reports (fail _) _ => apply reports_fail
  | |- reports (lift ?r) _ => apply reports_lift; destruct r eqn:?
  | |- reports hang _ => apply reports_hang
  | |- reports (changed _ _ _ _) _ => apply reports_changed
  | |- reports (when _ _) _ => apply reports_when; intros ?
  | |- reports (_ ≫= _) _ => apply reports_bind
  | |- reports (mod_proc _) _ => apply reports_returns; [by frames_solve|apply returns_mod_proc|intros []]
  | |- reports get_proc _ => apply reports_returns; [by frames_solve|apply returns_get_proc|intros ?]
  | |- reports nowMillis _ => apply reports_returns; [by frames_solve|apply returns_nowMillis|intros ?]
  | |- reports (maybeEvict _) _ => apply reports_quietly; [auto with keeps|auto with keeps|intros []|]
  | |- reports (maybeOpportunisticSweep _) _ => apply reports_quietly; [auto with keeps|auto with keeps|intros []|]
  | |- reports (match ?x with _ => _ end) _ => destruct x eqn:?
  | |- reports (let '(_, _) := ?x in _) _ => destruct x eqn:?
  | |- reports _ _ => apply reports_silent; [solve [frames_solve; done]|intros [?|?|]]
  end; cbn beta iota.
Ltac reports_go := repeat reports_step.

(** ** The key-value operations *)

(** How many rows of a namespace, or of these keys in it, a file has. *)
Definition rows_in (ns : string) (d : Database) : Z :=
  Z.of_nat (size (filter (λ p, p.1.1 = ns) (db_cache d))).
Definition rows_of (ns : string) (keys : list string) (d : Database) : Z :=
  Z.of_nat (size (filter (λ p, p.1.1 = ns ∧ p.1.2 ∈ keys) (db_cache d))).

(** The keys of [GetMany] whose rows have expired, in the file that its query
    finds, at the clock reading that follows. *)
Definition seen_expired `{Host} (c : Cache) (keys : list string) (w : World) : list string :=
  (List.filter (λ p, expired (clock (S (w_step w))) p.2)
     (List.filter (λ p, bool_decide (p.1 ∈ keys)) (scan (ns_rows (namespace c) (db_cache (refresh w)))))).*1.

(** [n] rows of [keys] are removed by a statement of the call: it finds the file
    as others leave it, or the driver fails it. (With a sweep on every hundredth
    read, the call may itself have removed rows before.) *)
Definition removes `{Host} (c : Cache) (keys : list string) (w w' : World) (n : Z) : Prop :=
  0 < sweepInterval c →
  (∃ m d, others (here w) (m, d) ∧ (w_step w ≤ m ≤ w_step w')%nat ∧ n = rows_of (namespace c) keys d) ∨
  n = 0 ∧ ∃ k, (w_step w ≤ k < w_step w')%nat ∧ fault k = true.

(** The records of an operation from [w] to [w'] that ends with [r]. [KFlush]
    reports how many rows the namespace had; [KGetSet] has written when only the
    old value cannot be decoded; [KGetMany] deletes the expired rows it meets. *)
Definition told `{Host} `{GoLib} (c : Cache) (op : kv_op) (w : World) (r : result reply) (w' : World)
    (l : list ChangeRecord) : Prop :=
  let one key := [newRecord c OpSet (Some [key]) 1] in
  match op, r with
  | _, Hang => True
  | KSet key _ _, Ok _ => l = one key
  | (KAdd key _ _ | KReplace key _ _), Ok (RBool b) => l = if b then one key else []
  | KGetSet key _ _, Ok _ => l = one key
  | KGetSet key v _, Err e => l = if is_ok (encodeValue v) && negb (bool_decide (e = ErrDatabase)) then one key else []
  | KSetMany entries _, Ok _ =>
      l = if bool_decide (entries = ∅) then []
          else [newRecord c OpSet (Some (sortedKeys entries)) (Z.of_nat (size entries))]
  | KDelete keys, Ok (RNum n) => l = if 0 <? n then [newRecord c OpDelete (Some (dedupe keys)) n] else []
  | KFlush, Ok _ =>
      let n := rows_in (namespace c) (refresh w) in l = if 0 <? n then [newRecord c OpFlush None n] else []
  | KGetMany [], Ok _ => l = []
  | KGetMany keys, Ok _ =>
      let dead := seen_expired c keys w in
      if bool_decide (dead = []) then l = []
      else ∃ n, removes c dead w w' n ∧ l = if 0 <? n then [newRecord c OpDelete (Some (dedupe dead)) n] else []
  | _, _ => l = []
  end.

(** The records of a hash operation on [key]: a write reports the key, unless
    it finds nothing to change. *)
Definition told_hash `{GoLib} (c : Cache) (key : string) (op : hash_op) (r : result hash_reply)
    (l : list ChangeRecord) : Prop :=
  let one := [newRecord c OpSet (Some [key]) 1] in
  match op, r with
  | _, Hang => True
  | (OSet _ _ _ | OIncr _ _ _), Ok _ => l = one
  | OSetNX _ _ _, Ok (HBool b) => l = if b then one else []
  | OSetMany fs _, Ok _ => l = if bool_decide (fs = ∅) then [] else one
  | ODel _, Ok (HNum n) => l = if 0 <? n then one else []
  | _, _ => l = []
  end.

(** The same of one run. *)
Definition reports_at {A} (m : M A) (w : World) (Q : result A → World → list ChangeRecord → Prop) : Prop :=
  ∃ recs, tells w recs (m w).2 ∧ Q (m w).1 (m w).2 recs.

Ltac told_go := unfold told, told_hash; cbn [app is_ok]; rewrite ?app_nil_r;
  repeat match goal with Hb : ?b = _ |- context [if ?b then _ else _] => rewrite Hb end; try done; try by left.

Section kv_reports.
Context {H : Host} {GL : GoLib} {CJ : ChangeJson GL} (c : Cache).

Lemma frames_getRaw key : frames on_air (getRaw c key).
Proof. unfold getRaw. frames_solve; done. Qed.

Lemma frames_collect now rows acc dead : frames on_air (collect c now rows acc dead).
Proof.
  revert acc dead. induction rows as [|[key r] rows IH]; intros acc dead; simpl; [apply frames_pure|].
  destruct (expired now r); [apply IH|]. apply frames_bind; [apply frames_bufferLRU|]. intros _. apply IH.
Qed.

Lemma frames_set_all now exp entries : frames on_air (set_all c now exp entries).
Proof. induction entries as [|[key v] entries IH]; simpl; frames_solve; done. Qed.

Lemma reports_Delete keys : reports (Delete c keys) (λ r l, match r with
  | Ok n => l = if 0 <? n then [newRecord c OpDelete (Some (dedupe keys)) n] else []
  | _ => l = []
  end).
Proof.
  unfold Delete. destruct keys as [|key keys]; [by apply reports_ret|]. reports_go; told_go.
Qed.

Lemma reports_at_all {A} (m : M A) w (Q : result A → World → list ChangeRecord → Prop) :
  grows m → reports m (λ r l, ∀ w', (w_step w ≤ w_step w')%nat → Q r w' l) → reports_at m w Q.
Proof using Type. intros Hg Hm. destruct (Hm w) as (l & Ht & HQ). exists l. split; [done|]. apply HQ, Hg. Qed.
Lemma reports_at_any {A} (m : M A) w (Q : result A → World → list ChangeRecord → Prop) :
  reports m (λ r l, ∀ w', Q r w' l) → reports_at m w Q.
Proof using Type. intros Hm. destruct (Hm w) as (l & Ht & HQ). by exists l. Qed.
Lemma reports_at_wp {A} (m : M A) w (Q : result A → World → list ChangeRecord → Prop) :
  frames on_air m → wp m w (λ r w', Q r w' []) → reports_at m w Q.
Proof using Type. intros Hf Hm. exists []. split; [apply tells_nil, Hf|done]. Qed.
Lemma reports_at_bind {A B} (m : M A) (k : A → M B) w (Q : result B → World → list ChangeRecord → Prop) :
  reports_at m w (λ r w1 l, match r with
                            | Ok a => reports_at (k a) w1 (λ r' w' l', Q r' w' (l ++ l'))
                            | Err e => Q (Err e) w1 l
                            | Hang => Q Hang w1 l
                            end) → reports_at (m ≫= k) w Q.
Proof using Type.
  intros (l & Ht & HQ). unfold reports_at, mbind, M_bind. destruct (m w) as [[a|e|] w']; simpl in *; [|by exists l..].
  destruct HQ as (l' & Ht' & HQ'). exists (l ++ l'). eauto using tells_app.
Qed.
Lemma reports_at_attempt {A} (m : M A) w (Q : result (error + A) → World → list ChangeRecord → Prop) :
  reports_at m w (λ r w' l, match r with
                            | Ok a => Q (Ok (inr a)) w' l
                            | Err e => Q (Ok (inl e)) w' l
                            | Hang => Q Hang w' l
                            end) → reports_at (attempt m) w Q.
Proof using Type. intros (l & Ht & HQ). exists l. unfold attempt. by destruct (m w) as [[]]. Qed.

(** A statement, which the driver may fail. *)
Lemma wp_exec_fault {A} (stmt : Database → A * Database) w (Q : result A → World → Prop) :
  (fault (w_step w) = true → Q (Err ErrDatabase) (advance 0 (with_db (refresh w) w))) →
  Q (Ok (stmt (refresh w)).1) (advance 0 (with_db (stmt (refresh w)).2 w)) → wp (exec stmt) w Q.
Proof using Type. unfold wp, exec. intros He HQ. destruct (fault (w_step w)); [by apply He|exact HQ]. Qed.

(** No error but the driver's. *)
Definition db_only {A} (m : M A) : Prop := ∀ w e, (m w).1 = Err e → e = ErrDatabase.
Lemma db_only_bind {A B} (m : M A) (k : A → M B) : db_only m → (∀ a, db_only (k a)) → db_only (m ≫= k).
Proof using Type.
  intros Hm Hk w e. unfold mbind, M_bind. specialize (Hm w). destruct (m w) as [[a|e'|] w1]; simpl in *; [apply Hk|intros [= <-]; by apply Hm|done].
Qed.
Lemma db_only_ret {A} (a : A) : db_only (mret a).
Proof using Type. by intros w e. Qed.
Lemma db_only_exec {A} (stmt : Database → A * Database) : db_only (exec stmt).
Proof using Type. intros w e. unfold exec. destruct (fault _); [by intros [= <-]|done]. Qed.
Lemma db_only_inTx {A} (m : M A) : db_only m → db_only (inTx m).
Proof using Type.
  intros Hm w e. unfold inTx. destruct (fault _); [by intros [= <-]|].
  specialize (Hm (with_intx true (advance 0 (with_db (refresh w) w)))).
  destruct (m _) as [[a|e'|] w1]; simpl in *; [destruct (fault _); [by intros [= <-]|done]|intros [= <-]; by apply Hm|done].
Qed.
Lemma reports_db {A} (m : M A) (Q : result A → list ChangeRecord → Prop) :
  frames on_air m → db_only m → (∀ a, Q (Ok a) []) → Q (Err ErrDatabase) [] → Q Hang [] → reports m Q.
Proof using Type.
  intros Hf Hd HQ He Hh w. exists []. split; [apply tells_nil, Hf|].
  specialize (Hd w). destruct (m w) as [[a|e|] w']; simpl in *; [done|by rewrite (Hd e)|done].
Qed.

Lemma decodeInto_error data tc d e : decodeInto data tc d = Err e → e = ErrSerialization.
Proof using Type.
  unfold decodeInto, assignBytes, assignString, assignInt64, assignFloat64, decodeFloatText.
  intros Hd. repeat (case_hyp Hd; try discriminate); simplify_eq/=; try done; repeat (case_hyp Hd; try discriminate); by simplify_eq.
Qed.

Lemma delete_keys_rows keys d : (delete_keys (namespace c) keys (db_cache d)).1 = rows_of (namespace c) keys d.
Proof using Type.
  unfold rows_of, delete_keys, delete_where. cbn [fst]. do 2 f_equal. apply map_filter_ext. intros [n k] r _. simpl.
  by rewrite andb_true_iff, !bool_decide_eq_true.
Qed.
Lemma flush_rows d : (flushSQL (namespace c) (db_cache d)).1 = rows_in (namespace c) d.
Proof using Type.
  unfold rows_in, flushSQL, delete_where. cbn [fst]. do 2 f_equal. apply map_filter_ext. intros [n k] r _. simpl.
  by rewrite bool_decide_eq_true.
Qed.

Lemma told_Flush w : reports_at (run_op c KFlush) w (told c KFlush w).
Proof using Type.
  unfold run_op, Flush. apply reports_at_bind, reports_at_bind, reports_at_wp; [frames_solve; done|].
  apply wp_exec_fault; [done|]. change ((on_cache ?f ?d).1) with (f (db_cache d)).1; rewrite flush_rows. set (n := rows_in _ _).
  apply reports_at_all; [grows_solve; done|]. reports_go; intros w1 _;
    (apply reports_at_all; [grows_solve; done|]; reports_go; intros w2 _; unfold told; cbn beta iota; fold n; told_go).
Qed.

Lemma removes_later keys w w1 w2 n : (w_step w1 ≤ w_step w2)%nat → removes c keys w w1 n → removes c keys w w2 n.
Proof using Type.
  intros Hle Hr Hs. destruct (Hr Hs) as [(m & d & ? & ? & ?)|(? & k & ? & ?)]; [left; exists m, d|right; split; [done|]; exists k];
    split_and!; done || lia.
Qed.

(** The deletion at the end of [GetMany]. *)
Lemma told_dead w0 w dead : dead ≠ [] → (w_step w0 ≤ w_step w)%nat →
  (0 < sweepInterval c → others (here w0) (here w)) →
  reports_at (Delete c dead) w (λ r w' l, r ≠ Hang ∧ ∃ n, removes c dead w0 w' n ∧
    l = if 0 <? n then [newRecord c OpDelete (Some (dedupe dead)) n] else []).
Proof using Type.
  intros Hne Hle Ho. unfold Delete. destruct dead as [|k0 ks]; [done|]. set (dead := k0 :: ks).
  apply reports_at_bind, reports_at_wp; [frames_solve; done|]. apply wp_exec_fault.
  - intros Hf. split; [done|]. exists 0. split; [|done]. intros _. right. split; [done|].
    exists (w_step w). simpl. split; [lia|done].
  - change ((on_cache ?f ?d).1) with (f (db_cache d)).1; rewrite delete_keys_rows. set (n := rows_of _ _ _). set (w1 := advance 0 _).
    assert (∀ w', (w_step w1 ≤ w_step w')%nat → removes c dead w0 w' n) as Hrem.
    { intros w' Hw' Hs. left. exists (S (w_step w)), (refresh w). simpl in Hw'. split_and!; [|lia..|done].
      etrans; [by apply Ho|apply others_refresh]. }
    apply reports_at_all; [grows_solve; done|]. reports_go; intros w' Hw'; (split; [done|]); exists n;
      (split; [by apply Hrem|]); cbn [app]; by rewrite ?H0.
Qed.

Lemma grows_maybeOpportunisticSweep : grows (maybeOpportunisticSweep c).
Proof using Type.
  assert (∀ fuel now, grows (removeExpired_loop fuel c now)) as Hloop.
  { intros fuel now. induction fuel as [|fuel IH]; simpl; grows_solve; done. }
  assert (grows (removeExpiredBatch c)) as Hexp by (unfold removeExpiredBatch, cache_fuel; grows_solve; auto; apply grows_id).
  pose proof (grows_flushLRUBuffer c). pose proof (grows_enforceCapacity c). pose proof (grows_sweepEvents c).
  unfold maybeOpportunisticSweep, sweepOnce. grows_solve; done.
Qed.

Lemma told_GetMany keys w : reports_at (run_op c (KGetMany keys)) w (told c (KGetMany keys) w).
Proof using Type.
  unfold run_op, GetMany. apply reports_at_bind. destruct keys as [|k0 ks].
  { apply reports_at_all; [grows_solve; done|]. reports_go. intros w1 _. apply reports_at_all; [grows_solve; done|].
    reports_go. by intros w2 _. }
  set (keys := k0 :: ks).
  assert (Hdead : ∀ m w1 dead l, dead = seen_expired c keys w →
    (if bool_decide (dead = []) then l = [] else ∃ n, removes c dead w w1 n ∧
       l = if 0 <? n then [newRecord c OpDelete (Some (dedupe dead)) n] else []) →
    reports_at (mret (RMap m)) w1 (λ r' w' l', told c (KGetMany keys) w r' w' (l ++ l'))).
  { intros m w1 dead l -> Hl. apply reports_at_wp; [frames_solve; done|]. apply wp_ret. rewrite app_nil_r. exact Hl. }
  apply reports_at_bind, reports_at_wp; [frames_solve; done|]. apply wp_exec_fault; [done|]. cbn [fst snd].
  apply reports_at_bind, reports_at_wp; [frames_solve; done|]. apply wp_nowMillis.
  apply reports_at_bind, reports_at_wp; [apply frames_collect|]. apply collect_any. intros w1 Ho1.
  rewrite app_nil_l. set (m := foldl _ _ _). change (List.filter _ _).*1 with (seen_expired c keys w).
  set (dead := seen_expired c keys w) in *.
  assert (Ho : others (here w) (here w1)).
  { etrans; [apply others_refresh|]. etrans; [|exact Ho1]. apply others_skip. simpl. lia. }
  apply reports_at_bind, reports_at_wp; [apply frames_maybeOpportunisticSweep|].
  apply wp_grows; [apply grows_maybeOpportunisticSweep|].
  assert (Hs1 : 0 < sweepInterval c → maybeOpportunisticSweep c w1 = (Ok tt, w1)).
  { intros Hs. by rewrite maybeOpportunisticSweep_off. }
  unfold wp. destruct (maybeOpportunisticSweep c w1) as [r w2] eqn:Hsw. cbn [fst snd]. intros Hle.
  destruct (decide (r = Hang)) as [Heq|Hr]; [by subst r|].
  assert (Hs2 : 0 < sweepInterval c → others (here w) (here w2)) by (intros Hs; specialize (Hs1 Hs); by simplify_eq).
  pose proof (maybeOpportunisticSweep_no_err c w1) as He. rewrite Hsw in He. destruct r as [[]|e|]; [|by destruct (He e)|done].
  apply others_le in Ho. simpl in Ho. clear Hsw He Hs1 Ho1.
  apply reports_at_bind. case_bool_decide as Hd; cbn [negb when].
  - apply reports_at_wp; [frames_solve; done|]. apply wp_ret. apply reports_at_wp; [frames_solve; done|]. wp_go.
    apply (Hdead m _ dead); [done|by rewrite bool_decide_true].
  - apply reports_at_bind, reports_at_attempt. destruct (told_dead w w2 dead Hd ltac:(lia) Hs2) as (l & Ht & Hnh & n & Hrem & ->).
    eexists. split; [exact Ht|].
    assert (∀ w3 x, (w_step (Delete c dead w2).2 ≤ w_step w3)%nat → x = (if 0 <? n then [newRecord c OpDelete (Some (dedupe dead)) n] else []) →
      reports_at (mret (RMap m)) w3 (λ r' w' l', told c (KGetMany keys) w r' w' (x ++ l'))) as Hend.
    { intros w3 x Hw3 ->. apply (Hdead m _ dead); [done|]. rewrite bool_decide_false by done. exists n.
      split; [by eapply removes_later|done]. }
    destruct (Delete c dead w2) as [[x|e|] w3]; [| |done]; simpl in Hend;
      (apply reports_at_wp; [frames_solve; done|]; apply wp_ret; apply reports_at_wp; [frames_solve; done|]; wp_go;
       apply Hend; [simpl; lia|by rewrite !app_nil_r]).
Qed.

Lemma run_op_told op w : reports_at (run_op c op) w (told c op w).
Proof using Type.
  pose proof frames_getRaw. pose proof frames_set_all. pose proof (@frames_decodeFound).
  destruct op; [..|apply told_GetMany| | | | | |apply told_Flush|]; apply reports_at_any; simpl.
  - unfold Set_. reports_go; intros w'; told_go.
  - unfold Add, add_. reports_go; intros w'; told_go.
  - unfold Replace. reports_go; intros w'; told_go.
  - unfold GetSet. reports_step. do 2 reports_step; [|intros w'; told_go..]. reports_step. apply reports_bind.
    apply reports_db; [frames_solve; done| |intros old|intros w'; told_go|done].
    { apply db_only_inTx. repeat first [apply db_only_bind; [apply db_only_exec || (intros w0 e; done)|intros ?]|apply db_only_ret|case_match]. }
    unfold decodeFound, degradeReadError. reports_go; intros w';
      try match goal with Hd : decodeInto _ _ _ = Err _ |- _ => apply decodeInto_error in Hd; subst end; told_go.
  - unfold SetMany, Prepare. reports_go; intros w'; told_go.
  - unfold Get. reports_go; intros w'; told_go.
  - apply reports_bind. eapply reports_mono; [apply reports_Delete|]. intros [n|e|] l ->; [|intros w'; told_go..]. apply reports_ret. intros w'. told_go.
  - unfold Exists_. reports_go; intros w'; told_go.
  - unfold Expire. reports_go; intros w'; told_go.
  - unfold Persist. reports_go; intros w'; told_go.
  - unfold TTLOf. reports_go; intros w'; told_go.
  - reports_go; intros w'; told_go.
Qed.
End kv_reports.

(** ** Counters and hashes *)

Section yields.
Context {H : Host}.

Lemma reports_yields {A} (m : M A) P (Q : result A → list ChangeRecord → Prop) :
  frames on_air m → yields m P → (∀ a, P a → Q (Ok a) []) → (∀ e, Q (Err e) []) → Q Hang [] → reports m Q.
Proof.
  intros Hf Hy HQ He Hh w. exists []. split; [apply tells_nil, Hf|].
  specialize (Hy w). destruct (m w) as [[a|e|] w']; simpl in *; auto.
Qed.
End yields.

Section hash_reports.
Context {H : Host} {GL : GoLib} {CJ : ChangeJson GL} {JT : JsonText GL} {SJ : SqliteJson GL} (c : Cache).

Lemma frames_checkHashType key now : frames on_air (checkHashType c key now).
Proof. unfold checkHashType. frames_solve. Qed.
Lemma frames_loadHash key now : frames on_air (loadHash c key now).
Proof. unfold loadHash. frames_solve. Qed.
Lemma frames_checkCapacityIn : frames on_air (checkCapacityIn c).
Proof. unfold checkCapacityIn. frames_solve. Qed.
Lemma frames_recordHashRead key now found : frames on_air (recordHashRead c key now found).
Proof. unfold recordHashRead. frames_solve; done. Qed.
Lemma frames_hset_statements key now exp stmts : frames on_air (hset_statements c key now exp stmts).
Proof. pose proof frames_checkHashType. induction stmts as [|l stmts IH]; simpl; frames_solve; done. Qed.
Lemma frames_hdel_statements key now removed fields : frames on_air (hdel_statements c key now removed fields).
Proof. revert removed. induction fields as [|f fields IH]; intros removed; simpl; frames_solve; apply IH. Qed.

(** A read-modify-write reports what its change of the object says. *)
Lemma reports_rmwHash {A} key ttl create (mutate : jsonObject → result (bool * A * jsonObject)) :
  reports (rmwHash c key ttl create mutate) (λ r l, match r with
    | Ok a => ∃ o ch o', mutate o = Ok (ch, a, o') ∧
        ((create = false ∧ o = [] ∧ l = []) ∨ l = if ch : bool then [newRecord c OpSet (Some [key]) 1] else [])
    | Err _ => l = []
    | Hang => True
    end).
Proof.
  pose proof frames_loadHash. pose proof frames_checkCapacityIn.
  unfold rmwHash, inImmediate. reports_step. reports_step. reports_step.
  apply (reports_yields _ (λ p : bool * A, ∃ o ch o', mutate o = Ok (ch, p.2, o') ∧
    (create = false ∧ o = [] ∧ p.1 = false ∨ p.1 = ch))).
  - apply frames_inTx. frames_solve; done.
  - apply yields_inTx, yields_bind. intros o. apply yields_bind. intros _. apply yields_lift.
    intros [[ch r] o'] Hm. destruct (negb ch || _) eqn:Hw.
    + apply yields_ret. exists (default [] o), ch, o'. split; [done|]. simpl. destruct ch; [|by right]. simpl in Hw.
      left. destruct o; [done|]. destruct create; [done|]. done.
    + apply yields_bind; intros _. apply yields_ret. exists (default [] o), ch, o'. split; [done|]. right. by destruct ch.
  - intros [wrote x] (o & ch & o' & Hm & Hw). simpl in *. destruct wrote; reports_go; told_go; exists o, ch, o'; (split; [done|]).
    + destruct Hw as [(_ & _ & ?)|<-]; [done|by right].
    + destruct Hw as [(? & ? & _)|<-]; [by left|by right].
  - done.
  - done.
Qed.

Ltac told_rmw :=
  eapply reports_mono; [apply reports_rmwHash|];
  let Hr := fresh "Hr" in intros [?|?|] ? Hr; cbn beta iota in Hr |- *; [|by subst|done];
  let o := fresh "o" in let Hm := fresh "Hm" in
  destruct Hr as (o & ? & ? & Hm & [([=] & _ & _)| ->]); apply reports_ret; told_go.

Lemma reports_hincr key f a ttl : reports (hincr c key f (NInt a) ttl) (λ r l, match r with
  | Ok (NInt _) => l = [newRecord c OpSet (Some [key]) 1]
  | Ok (NFloat _) | Hang => True
  | Err _ => l = []
  end).
Proof.
  pose proof frames_checkHashType. unfold hincr, capacityCheck. destruct (negb (json1 c)).
  - eapply reports_mono; [apply reports_rmwHash|]. intros [[n|x]|e|] l Hr; try done.
    destruct Hr as (o & ch & o' & Hm & Hl).
    unfold incr_object in Hm. destruct (parseJSONInt _); [|done]. destruct (_ || _); [done|]. injection Hm as <- _ _.
    destruct Hl as [[[=] _]|?]; done.
  - reports_go; told_go; by repeat case_match.
Qed.

Lemma run_hash_told key op : reports (run_hash c key op) (told_hash c key op).
Proof.
  pose proof frames_checkHashType. pose proof frames_loadHash. pose proof frames_recordHashRead.
  pose proof frames_hset_statements. pose proof frames_hdel_statements.
  assert (∀ fields, frames on_air (hmget c key fields)) as Hmget by (intros; unfold hmget; frames_solve; done).
  assert (∀ b, frames on_air (hashEntries c key b)) as Hent by (intros; unfold hashEntries; frames_solve; done).
  destruct op; simpl.
  - unfold HSet, capacityCheck. do 2 reports_step. reports_step; [|told_go..]. destruct (negb (json1 c)).
    { told_rmw. by simplify_eq. }
    reports_go; told_go.
  - unfold HSetNX, capacityCheck. do 2 reports_step. reports_step; [|told_go..]. destruct (negb (json1 c)).
    { told_rmw. destruct (jsonObject.has o f); by simplify_eq. }
    reports_go; told_go.
  - unfold HSetMany, capacityCheck. reports_step. reports_step; [reports_go; told_go|].
    reports_step. reports_step; [|told_go..]. destruct (negb (json1 c)).
    { told_rmw. by simplify_eq. }
    reports_go; told_go.
  - unfold HDel. reports_step. destruct (dedupe fs) as [|g gs]; [reports_go; told_go|]. destruct (negb (json1 c)).
    { eapply reports_mono; [apply reports_rmwHash|]. intros [n|e|] l Hr; cbn beta iota in Hr |- *; [|by subst|done].
      destruct Hr as (o & ch & o' & Hm & Hl). destruct (jsonObject.del_all o (g :: gs)) as [m o2] eqn:Hd. simplify_eq.
      apply reports_ret. told_go. destruct Hl as [(_ & -> & ->)| ->].
      - by rewrite del_all_nil in Hd; injection Hd as <- _.
      - destruct m; cbn; done. }
    reports_go; told_go.
  - unfold HIncrBy. apply reports_bind, reports_bind. eapply reports_mono; [apply reports_hincr|].
    intros [[n|x]|e|] l Hr; reports_go; told_go.
  - unfold HGetRaw. reports_go; told_go.
  - unfold HMGet. reports_go; told_go.
  - unfold HGetAll. reports_go; told_go.
  - unfold HExists. reports_go; told_go.
  - unfold HKeys. reports_go; told_go.
  - unfold HVals. reports_go; told_go.
  - unfold HLen. reports_go; told_go.
Qed.
End hash_reports.

(** An increment reports the key; one whose sum leaves the 64-bit range also
    does, although it returns an error. *)
Lemma Incr_told `{H : Host} `{GL : GoLib} `{!ChangeJson GL} `{SqlNum} c key amount :
  reports (Incr c key amount) (λ r l, match r with
    | Ok _ => l = [newRecord c OpSet (Some [key]) 1]
    | Err _ => l = [] ∨ l = [newRecord c OpSet (Some [key]) 1]
    | Hang => True
    end).
Proof. unfold Incr, atomicIncr. reports_go; told_go; by right. Qed.

(** ** The dispatcher's loop is a run of the machine of [Background]

    What a listener does to the dispatcher it is called by is a list of actions
    that [P] allows. *)

Definition listener_act (a : dact) (d : dispatcher) : dispatcher :=
  match a with
  | AReenter rec => submit true rec d
  | ASubmit rec => submit false rec d
  | AOnChange ops => (add_listener ops d).2
  | AUnsubscribe id => remove_listener id d
  | AClose => close_dispatcher d
  | ARun => d
  end.

(** [ASubmit] is another goroutine's, [ARun] the dispatcher's own. *)
Definition by_listener (a : dact) : Prop :=
  match a with ARun | ASubmit _ => False | _ => True end.

Definition speaks {A} (P : dact → Prop) (m : M A) : Prop := ∀ w d,
  on_air (w_proc w) = (Some d, true) →
  ∃ l, Forall (λ a, by_listener a ∧ P a) l ∧
    on_air (w_proc (m w).2) = (Some (foldl (λ d a, listener_act a d) d l), true).

(** [heard w calls w']: from [w], the listeners are called with [calls], one after
    the other; between the calls only the dispatcher's bookkeeping changes. *)
Section heard.
Context {H : Host} (listener : nat → ChangeRecord → M ()).

Inductive heard : World → list (nat * ChangeRecord) → World → Prop :=
  | heard_nil w : heard w [] w
  | heard_quiet w f calls w' :
      (∀ p, ∃ o b, f p = set_in_dispatch b (set_dispatcher o p)) →
      heard (with_proc (f (w_proc w)) w) calls w' → heard w calls w'
  | heard_call w id rec calls w' :
      heard (listener id rec w).2 calls w' → heard w ((id, rec) :: calls) w'.

Lemma heard_app w l w' l' w'' : heard w l w' → heard w' l' w'' → heard w (l ++ l') w''.
Proof. induction 1; intros Hl'; simpl; [done|by eapply heard_quiet; eauto|by constructor; auto]. Qed.

Context (P : dact → Prop) (Hspeaks : ∀ id rec, speaks P (listener id rec)).

(** Actions of the dispatcher's goroutine and of the listeners it calls. *)
Definition inner (a : dact) : Prop := a = ARun ∨ by_listener a ∧ P a.

Lemma acts_run s s' l : dispatch_run s = Some s' → dispatch_acts (ARun :: l) s = dispatch_acts l s'.
Proof using Type. intros Hs. simpl. by rewrite Hs. Qed.

Lemma listener_acts l d rec id ids calls : Forall (λ a, by_listener a ∧ P a) l →
  dispatch_acts l (MkDispatch d (DCall rec id ids) calls) =
    Some (MkDispatch (foldl (λ d a, listener_act a d) d l) (DCall rec id ids) calls).
Proof using Type.
  intros Hl. revert d. induction Hl as [|a l [Ha _] _ IH]; intros d; [done|].
  simpl. destruct a; try done; simpl; apply IH.
Qed.

(** [call] for the targets that are left. *)
Lemma call_all_runs ids rec w d calls :
  on_air (w_proc w) = (Some d, true) → (call_all listener ids rec w).1 = Ok tt →
  ∃ l new d', Forall inner l ∧
    dispatch_acts l (MkDispatch d (DNext rec ids) calls) = Some (MkDispatch d' (DNext rec []) (calls ++ new)) ∧
    on_air (w_proc (call_all listener ids rec w).2) = (Some d', true) ∧
    heard w new (call_all listener ids rec w).2.
Proof using Hspeaks.
  revert w d calls. induction ids as [|id ids IH]; intros w d calls Hw Hok.
  { exists [], [], d. rewrite app_nil_r. split_and!; [by constructor|done|done|constructor]. }
  assert (p_dispatcher (w_proc w) = Some d) as Hd by (unfold on_air in Hw; congruence).
  cbn [call_all] in *. unfold call in *. unfold mbind, M_bind in *. cbn [get_proc] in *.
  unfold listener_of in *. rewrite Hd in *. simpl option_bind in *. cbn [mbind option_bind] in *.
  destruct (listeners d !! id) as [ops|] eqn:Hl.
  - destruct (Hspeaks id rec w d Hw) as (la & Hla & Hw1). unfold attempt in *.
    set (w1 := (listener id rec w).2) in *.
    assert (∃ r, listener id rec w = (r, w1) ∧ r ≠ Hang) as (r & Hr & Hh).
    { destruct (listener id rec w) as [[]]; [by eexists|by eexists|done]. }
    rewrite Hr in *.
    destruct (IH w1 _ (calls ++ [(id, rec)]) Hw1) as (l & new & d' & Hin & Hacts & Hw' & Hh').
    { destruct r; done. }
    exists (ARun :: ARun :: la ++ ARun :: l), ((id, rec) :: new), d'. split_and!.
    + do 2 (constructor; [by left|]). apply Forall_app. split; [|constructor; [by left|done]].
      eapply Forall_impl; [done|]. by right.
    + rewrite (acts_run _ (MkDispatch d (DFound rec id ids) calls)) by (unfold dispatch_run; simpl; by rewrite Hl).
      rewrite (acts_run _ (MkDispatch d (DCall rec id ids) (calls ++ [(id, rec)]))) by done.
      rewrite acts_app, listener_acts by done. simpl.
      unfold with_stage. simpl. rewrite Hacts. by rewrite <- app_assoc.
    + by destruct r.
    + constructor. fold w1. by destruct r.
  - destruct (IH w d calls Hw) as (l & new & d' & Hin & Hacts & Hw' & Hh'); [done|].
    exists (ARun :: l), new, d'. split_and!; [constructor; [by left|done]| |done|done].
    by rewrite (acts_run _ (MkDispatch d (DNext rec ids) calls)) by (unfold dispatch_run; simpl; by rewrite Hl).
Qed.

Lemma dispatch_step_runs w d calls b :
  on_air (w_proc w) = (Some d, false) → (dispatch_step listener w).1 = Ok b →
  ∃ l new d', Forall inner l ∧
    dispatch_acts l (MkDispatch d DHead calls) = Some (MkDispatch d' DHead (calls ++ new)) ∧
    on_air (w_proc (dispatch_step listener w).2) = (Some d', false) ∧
    heard w new (dispatch_step listener w).2 ∧
    (b = false → closed d' = true ∨ queue d' = []).
Proof using Hspeaks.
  unfold on_air. intros [= Hd Hi] Hok. unfold dispatch_step in *. unfold mbind, M_bind in *. cbn [get_proc] in *.
  rewrite Hd in *. destruct (closed d) eqn:Hc.
  { exists [], [], d. rewrite app_nil_r. split_and!; [by constructor|done|simpl; congruence|constructor|by left]. }
  destruct (queue d) as [|[rec dep] q] eqn:Hq.
  { exists [], [], d. rewrite app_nil_r. split_and!; [by constructor|done|simpl; congruence|constructor|by right]. }
  unfold mod_proc in *. cbn beta iota in *.
  set (d1 := set_depth dep (set_queue q d)) in *. set (w1 := with_proc _ w) in *.
  assert (∃ w2, call_all listener (targets rec d) rec w1 = (Ok tt, w2)) as [w2 Hall].
  { destruct (call_all _ _ _ w1) as [[[]|e|] w2]; [by eexists|done..]. }
  destruct (call_all_runs (targets rec d) rec w1 d1 calls) as (l & new & d2 & Hin & Hacts & Hw2 & Hh); [done|by rewrite Hall|].
  rewrite Hall in *. cbn [snd] in *. unfold on_air in Hw2. injection Hw2 as Hd2 Hi2. simpl in Hok. simplify_eq.
  exists (ARun :: l ++ [ARun]), new, (set_depth 0 d2). split_and!; [|..|done].
  - constructor; [by left|]. apply Forall_app. split; [done|]. by apply Forall_singleton; left.
  - rewrite (acts_run _ (MkDispatch d1 (DNext rec (targets rec d)) calls)) by (unfold dispatch_run; simpl; by rewrite Hc, Hq).
    by rewrite acts_app, Hacts.
  - unfold mod_dispatcher. simpl. by rewrite Hd2.
  - eapply (heard_quiet _ (λ p, set_in_dispatch true (set_dispatcher (Some d1) p))); [by eexists _, _|].
    rewrite <- (app_nil_r new). eapply heard_app; [exact Hh|].
    eapply (heard_quiet _ (λ p, set_in_dispatch false (set_dispatcher (set_depth 0 <$> p_dispatcher (w_proc w2)) p)));
      [by eexists _, _|constructor].
Qed.

Lemma run_dispatcher_runs fuel w d calls :
  on_air (w_proc w) = (Some d, false) → (run_dispatcher listener fuel w).1 = Ok tt →
  ∃ l new d', Forall inner l ∧
    dispatch_acts l (MkDispatch d DHead calls) = Some (MkDispatch d' DHead (calls ++ new)) ∧
    on_air (w_proc (run_dispatcher listener fuel w).2) = (Some d', false) ∧
    heard w new (run_dispatcher listener fuel w).2 ∧ (closed d' = true ∨ queue d' = []).
Proof using Hspeaks.
  revert w d calls. induction fuel as [|fuel IH]; intros w d calls Hw Hok; [done|].
  cbn [run_dispatcher] in *. unfold mbind, M_bind in *.
  destruct (dispatch_step listener w) as [[more|e|] w1] eqn:Hs; [|done..].
  destruct (dispatch_step_runs w d calls more Hw) as (l & new & d1 & Hin & Hacts & Hw1 & Hh & Hb); [by rewrite Hs|].
  rewrite Hs in *. cbn [snd] in *. destruct more; [|exists l, new, d1; simpl; split_and!; auto].
  destruct (IH w1 d1 (calls ++ new) Hw1 Hok) as (l' & new' & d' & Hin' & Hacts' & Hw' & Hh' & Hend).
  exists (l ++ l'), (new ++ new'), d'. split_and!; [by apply Forall_app| |done|by eapply heard_app|done].
  rewrite acts_app, Hacts. simpl. by rewrite app_assoc.
Qed.
End heard.

(** *** Listeners that write to the cache

    They speak through [reports]: what they write is resubmitted one level
    deeper. *)

Definition resubmits (b : nat) (a : dact) : Prop := match a with AReenter _ => (0 < b)%nat | _ => False end.

Lemma offer_fields b rec d :
  listeners (offer b rec d) = listeners d ∧ closed (offer b rec d) = closed d ∧
  nextID (offer b rec d) = nextID d ∧ depth (offer b rec d) = depth d.
Proof. unfold offer. destruct (wants (Op rec) d); [|done]. by destruct (submit_cases b rec d) as [->|[dep ->]]. Qed.

Lemma offers_fields b recs d :
  listeners (offers b recs d) = listeners d ∧ closed (offers b recs d) = closed d ∧
  nextID (offers b recs d) = nextID d ∧ depth (offers b recs d) = depth d.
Proof.
  revert d. induction recs as [|rec recs IH]; intros d; [done|].
  destruct (IH (offer b rec d)) as (Hl & Hc & Hn & Hdep), (offer_fields b rec d) as (Hl' & Hc' & Hn' & Hdep').
  split_and!; etrans; eauto.
Qed.

Lemma offers_acts b recs d : (length recs ≤ b)%nat → ∃ l, Forall (resubmits b) l ∧
  offers true recs d = foldl (λ d a, listener_act a d) d l.
Proof.
  revert d. induction recs as [|rec recs IH]; intros d Hb; [by exists []|]. simpl in Hb.
  destruct (IH (offer true rec d)) as (l & Hl & Heq); [lia|]. cbn [offers foldl]. fold (offers true recs (offer true rec d)).
  unfold offer in *. destruct (wants (Op rec) d); [exists (AReenter rec :: l)|exists l]; (split; [|done]); [constructor; [simpl; lia|done]|done].
Qed.

Lemma offers_queue (b : bool) recs d :
  let dep := if b then depth d + 1 else 1 in
  ∃ new : list (ChangeRecord * Z), offers b recs d = set_queue (queue d ++ new) d ∧ (length new ≤ length recs)%nat ∧
    Forall (λ q : ChangeRecord * Z, q.2 = dep ∧ q.2 ≤ maxDispatchDepth) new.
Proof.
  revert d. induction recs as [|rec recs IH]; intros d dep.
  { exists []. rewrite app_nil_r. split_and!; [by destruct d|done|constructor]. }
  destruct (offer_fields b rec d) as (_ & _ & _ & Hdep), (IH (offer b rec d)) as (new & Heq & Hlen & Hf).
  rewrite Hdep in Hf. cbn [offers foldl]. fold (offers b recs (offer b rec d)). rewrite Heq.
  unfold offer in *. destruct (wants (Op rec) d); [|exists new; simpl; split_and!; [done|lia|done]].
  destruct (submit_queue b rec d) as (new1 & Heq1 & Hlen1 & Hf1). rewrite Heq1. exists (new1 ++ new). simpl.
  split_and!; [unfold set_queue; simpl; by rewrite app_assoc|rewrite length_app; lia|by apply Forall_app].
Qed.

Lemma offers_submits recs d : ∃ subs, (length subs ≤ length recs)%nat ∧
  offers true recs d = foldl (λ d rec, submit true rec d) d subs.
Proof.
  revert d. induction recs as [|rec recs IH]; intros d; [by exists []|].
  cbn [offers foldl]. fold (offers true recs (offer true rec d)). unfold offer.
  destruct (wants (Op rec) d).
  - destruct (IH (submit true rec d)) as (subs & ? & Heq). exists (rec :: subs). split; [simpl; lia|done].
  - destruct (IH d) as (subs & ? & Heq). exists subs. split; [simpl; lia|done].
Qed.

Section writers.
Context {H : Host} {A : Type} (m : M A) (b : nat).
Hypothesis writes : reports m (λ _ l, (length l ≤ b)%nat).

Lemma reports_speaks : speaks (resubmits b) m.
Proof using writes.
  intros w d Hw. destruct (writes w) as (recs & Ht & Hb). unfold tells in Ht. unfold on_air in Hw. injection Hw as Hd Hi.
  rewrite Hd, Hi in Ht. destruct (offers_acts b recs d Hb) as (l & Hl & Heq). exists l. split.
  - eapply Forall_impl; [exact Hl|]. intros [] ?; split; done.
  - rewrite Ht. simpl. by rewrite Heq.
Qed.

Lemma reports_submits w : p_in_dispatch (w_proc w) = true → submits b w (m w).2.
Proof using writes.
  intros Hi. destruct (writes w) as (recs & Ht & Hlen). unfold tells, on_air in Ht. injection Ht as Hd Hi'.
  split; [done|]. intros d Hd0. destruct (offers_submits recs d) as (subs & Hn & Heq).
  exists subs. rewrite Hd, Hd0, Hi. simpl. rewrite Heq. split; [lia|done].
Qed.
End writers.

(** ** Theorems *)

(** The loop of the dispatcher, written as a sequence of whole iterations
    whose listeners execute, is a run of the machine whose critical sections
    other goroutines can separate: whenever the loop ends, the machine goes
    from the state it started in to the state it ended in by steps of the
    goroutine and by what its listeners did to the dispatcher (write back,
    subscribe, unsubscribe, close), making exactly the calls that were executed
    and in their order; and it ends with nothing left to dispatch. *)
Theorem run_dispatcher_refines `{H : Host} (listener : nat → ChangeRecord → M ()) (P : dact → Prop)
    (fuel : nat) (w : World) (d : dispatcher) (calls : list (nat * ChangeRecord)) :
  (∀ id rec, speaks P (listener id rec)) → on_air (w_proc w) = (Some d, false) →
  (run_dispatcher listener fuel w).1 = Ok tt →
  ∃ l new d', Forall (λ a, a = ARun ∨ by_listener a ∧ P a) l ∧
    dispatch_acts l (MkDispatch d DHead calls) = Some (MkDispatch d' DHead (calls ++ new)) ∧
    on_air (w_proc (run_dispatcher listener fuel w).2) = (Some d', false) ∧
    heard listener w new (run_dispatcher listener fuel w).2 ∧
    (closed d' = true ∨ queue d' = []).
Proof. intros Hsp. by apply run_dispatcher_runs. Qed.

(** A listener that unsubscribes itself and writes the key back. *)
Definition once_listener `{Host} `{ChangeJson} (id : nat) (_ : ChangeRecord) : M () :=
  unsubscribe id ;; changed (demo_cache "default") OpSet (Some ["k"]) 1.

Lemma speaks_bind {A B} P (m : M A) (k : A → M B) :
  speaks P m → (∀ a, speaks P (k a)) → speaks P (m ≫= k).
Proof.
  intros Hm Hk w d Hw. destruct (Hm w d Hw) as (l & Hl & Hw1). unfold mbind, M_bind.
  destruct (m w) as [[a|e|] w1]; simpl in *; [|by eauto..].
  destruct (Hk a w1 _ Hw1) as (l' & Hl' & Hw2). exists (l ++ l'). rewrite foldl_app. auto using Forall_app_2.
Qed.
Lemma speaks_unsubscribe (P : dact → Prop) id : P (AUnsubscribe id) → speaks P (unsubscribe id).
Proof.
  intros HP w d [= Hd Hi]. exists [AUnsubscribe id]. split; [by apply Forall_singleton|].
  unfold unsubscribe, mod_proc, on_air, mod_dispatcher. simpl. by rewrite Hd, Hi.
Qed.
Lemma speaks_mono {A} (P Q : dact → Prop) (m : M A) : (∀ a, P a → Q a) → speaks P m → speaks Q m.
Proof.
  intros HPQ Hm w d Hw. destruct (Hm w d Hw) as (l & Hl & Hw'). exists l. split; [|done].
  eapply Forall_impl; [exact Hl|]. simpl. intros a [? ?]. auto.
Qed.

Lemma once_listener_speaks `{H : Host} `{GL : GoLib} `{!ChangeJson GL} id rec :
  speaks (λ _, True) (once_listener id rec).
Proof.
  unfold once_listener. apply speaks_bind; [by apply speaks_unsubscribe|]. intros _.
  apply (speaks_mono (resubmits 1)); [done|]. apply reports_speaks, reports_changed. simpl. lia.
Qed.

Lemma run_dispatcher_refines_witness :
  let _ := still_host 0 in let _ := toy_lib in let _ := toy_json in
  let w := with_proc (set_dispatcher (Some echo_dispatcher) init_proc) (init_world empty_db) in
  ∃ l new d', Forall (λ a, a = ARun ∨ by_listener a ∧ True) l ∧
    dispatch_acts l (MkDispatch echo_dispatcher DHead []) = Some (MkDispatch d' DHead new) ∧
    on_air (w_proc (run_dispatcher once_listener 3 w).2) = (Some d', false) ∧
    heard once_listener w new (run_dispatcher once_listener 3 w).2 ∧
    (closed d' = true ∨ queue d' = []).
Proof.
  intros host lib json w.
  apply (@run_dispatcher_refines host (@once_listener host lib json) (λ _, True) 3 w echo_dispatcher []).
  - apply (@once_listener_speaks host lib json).
  - reflexivity.
  - vm_compute. reflexivity.
Defined.

(** The records one listener was called with. *)
Definition calls_to (id : nat) (calls : list (nat * ChangeRecord)) : list ChangeRecord :=
  (List.filter (λ p : nat * ChangeRecord, bool_decide (p.1 = id)) calls).*2.

(** What an open dispatcher with a listener for [ops] queues of the records offered to it. *)
Lemma offers_wanted id ops recs d :
  listeners d !! id = Some ops → closed d = false → wanted ops (queue (offers false recs d)).*1 = wanted ops (queue d).*1 ++ wanted ops recs.
Proof.
  revert d. induction recs as [|rec recs IH]; intros d Hl Hc; [by rewrite app_nil_r|].
  destruct (offer_fields false rec d) as (Hl' & Hc' & _).
  cbn [offers foldl]. fold (offers false recs (offer false rec d)). rewrite IH by congruence.
  change (rec :: recs) with ([rec] ++ recs). rewrite wanted_app, app_assoc. f_equal.
  unfold offer. destruct (wants (Op rec) d) eqn:Hw.
  - unfold submit. rewrite Hc. simpl. by rewrite fmap_app, wanted_app.
  - unfold wanted at 3. cbn [List.filter]. rewrite bool_decide_false; [by rewrite app_nil_r|].
    intros Hop. unfold wants in Hw. rewrite (proj2 (existsb_exists _ _)) in Hw; [done|].
    exists (id, ops). split; [by apply list_elem_of_In, elem_of_map_to_list|by apply bool_decide_eq_true].
Qed.

Lemma offers_depth_ok recs d : queue d = [] → Forall depth_ok (queue (offers false recs d)).
Proof.
  intros Hq. destruct (offers_queue false recs d) as (new & -> & _ & Hf). simpl. rewrite Hq. simpl.
  eapply Forall_impl; [exact Hf|]. intros q [Hdep ?]. simpl in Hdep. unfold depth_ok. lia.
Qed.

Lemma runs_accepted l s : Forall (λ a, a = ARun) l → accepted l s = [].
Proof.
  intros Hl. replace l with (replicate (length l) ARun); [apply accepted_runs|].
  induction Hl as [|a l -> _ IH]; simpl; congruence.
Qed.

(** C15: a committed write is heard. Whatever other processes do and whichever
    statement fails, a key-value operation offers the dispatcher exactly the
    record of what it changed, or none if it changed nothing: the keys written,
    the keys deleted and how many rows that removed, the rows the namespace had
    when it was flushed, and for [GetMany] the expired keys it found and how many
    of them its deletion still found there (none if the driver failed it). Then
    the dispatcher, left to itself, comes to rest, and until then it calls each
    registered listener with that record, if it asked for the operation, once
    and before anything else; what follows are the records of writes that the
    listeners made meanwhile, and nothing follows if they made none. The
    dispatcher is open and idle at the start, listeners return and write at most
    [b] records each. *)
Theorem write_is_heard `{H : Host} `{GL : GoLib} `{!ChangeJson GL} (c : Cache) (op : kv_op)
    (listener : nat → ChangeRecord → M ()) (b : nat) (w : World) (d : dispatcher) (id : nat) (ops : list string) :
  (∀ i rec, no_hang (listener i rec)) →
  (∀ i rec, reports (listener i rec) (λ _ l, (length l ≤ b)%nat)) →
  on_air (w_proc w) = (Some d, false) → closed d = false → queue d = [] →
  (∀ i, is_Some (listeners d !! i) → (i < nextID d)%nat) → listeners d !! id = Some ops →
  ∃ recs fuel w' calls echoes, told c op w (run_op c op w).1 (run_op c op w).2 recs ∧
    run_dispatcher listener fuel (run_op c op w).2 = (Ok tt, w') ∧
    heard listener (run_op c op w).2 calls w' ∧
    calls_to id calls = wanted ops recs ++ echoes ∧ (b = 0%nat → echoes = []).
Proof.
  intros Hnh Hrep Hw Hc Hq Hids Hl. unfold on_air in Hw. injection Hw as Hd Hi.
  destruct (run_op_told c op w) as (recs & Ht & Htold). exists recs. set (w1 := (run_op c op w).2) in *.
  unfold tells in Ht. rewrite Hd, Hi in Ht. simpl in Ht. set (d1 := offers false recs d) in *.
  destruct (offers_fields false recs d) as (Hl1 & Hc1 & Hn1 & _). fold d1 in Hl1, Hc1, Hn1.
  destruct (run_dispatcher_empties listener b Hnh (λ i rec, reports_submits _ b (Hrep i rec)) w1 d1) as (w' & d' & Hrun & Hd' & Hq' & Hl').
  { unfold on_air in Ht. congruence. }
  { congruence. }
  { by apply offers_depth_ok. }
  eexists _, w'.
  destruct (run_dispatcher_runs listener (resubmits b) (λ i rec, reports_speaks _ b (Hrep i rec)) _ w1 d1 [] Ht
    ltac:(by rewrite Hrun)) as (l & new & d2 & Hin & Hacts & Hw2 & Hh & _). rewrite Hrun in Hw2, Hh. simpl in Hw2, Hh.
  assert (d2 = d') as -> by (unfold on_air in Hw2; congruence).
  destruct (acts_receive id ops l (MkDispatch d1 DHead []) (MkDispatch d' DHead new)) as (Hr & _ & _); simpl.
  - congruence.
  - congruence.
  - split_and!; [|by constructor|done]. simpl. rewrite Hl1, Hn1. done.
  - intros Hx. rewrite Forall_forall in Hin. by destruct (Hin _ Hx) as [?|[_ []]].
  - intros Hx. rewrite Forall_forall in Hin. by destruct (Hin _ Hx) as [?|[_ []]].
  - exact Hacts.
  - exists new, (wanted ops (accepted l (MkDispatch d1 DHead []))). split_and!; [done|done|done| |].
    + unfold waiting, underway in Hr. simpl in Hr. rewrite Hq', app_nil_r in Hr.
      unfold d1 in Hr. rewrite (offers_wanted id ops) in Hr by done. rewrite Hq in Hr. exact Hr.
    + intros ->. rewrite (runs_accepted l); [done|]. eapply Forall_impl; [exact Hin|].
      intros a [?|[_ Ha]]; [done|]. destruct a; try done. simpl in Ha. lia.
Qed.

(** [Set] on an empty file, with a listener for sets and one for deletions. *)
Lemma write_is_heard_witness :
  let _ := still_host 7 in let _ := toy_lib in let _ := toy_json in
  let c := demo_cache "default" in
  let d := MkDispatcher {[0%nat := [OpSet]; 1%nat := [OpDelete]]} 2 [] false 0 in
  let w := with_proc (set_dispatcher (Some d) init_proc) (init_world empty_db) in
  ∃ fuel w' calls,
    run_dispatcher (λ _ _, mret tt) fuel (run_op c (KSet "k" (GString "v") []) w).2 = (Ok tt, w') ∧
    heard (λ _ _, mret tt) (run_op c (KSet "k" (GString "v") []) w).2 calls w' ∧
    calls_to 0 calls = [newRecord c OpSet (Some ["k"]) 1].
Proof.
  intros host lib json c d w.
  destruct (@write_is_heard host lib json c (KSet "k" (GString "v") []) (λ _ _, mret tt) 0 w d 0 [OpSet])
    as (recs & fuel & w' & calls & echoes & Ht & Hrun & Hh & Hc & He).
  - intros _ _ w0 [=].
  - intros _ _. apply reports_ret. done.
  - reflexivity.
  - reflexivity.
  - reflexivity.
  - intros i. simpl. rewrite lookup_insert_is_Some, lookup_singleton_is_Some. intros [<-|[_ <-]]; lia.
  - reflexivity.
  - exists fuel, w', calls. split; [exact Hrun|]. split; [exact Hh|]. rewrite Hc, (He eq_refl), app_nil_r.
    assert (is_ok (run_op c (KSet "k" (GString "v") []) w).1 = true) as Hr by (vm_compute; reflexivity).
    destruct (run_op c (KSet "k" (GString "v") []) w).1; [|discriminate Hr..].
    change (recs = [newRecord c OpSet (Some ["k"]) 1]) in Ht. rewrite Ht. reflexivity.
Defined.
