(* ===== verification/UiSafe.v ===== *)
(** What the administration tools may do to a file, as relations between the
    file before and after: [prunes] adds and alters nothing, and [tidies]
    moreover removes only rows whose expiry has passed and events older than
    the retention the tools open files with. In any host each library method the
    web UI calls only prunes, in turns with the commits of others; with nobody
    else the methods behind its pages only tidy. [PageRel] is what the pages
    need of either relation. *)

From S2P Require Import Prelude GoStd Values Store Engine Channels EventLog EventAdmin Changes Sweep Kv Reads Open.
Open Scope Z_scope.

(** [NoEventRetention] of dbmanager.go. *)
Definition NoEventRetention : Z := 100 * 365 * 24 * Hour.
Arguments NoEventRetention : simpl never.

(** Every row left has the value, type, creation time, expiry and size it had. *)
Definition rows_prune (t t' : cache_table) : Prop :=
  ∀ k r', t' !! k = Some r' → ∃ r, t !! k = Some r ∧ row_data r = row_data r'.

Definition events_prune (e e' : option event_table) : Prop :=
  match e, e' with
  | None, None => True
  | Some t, Some t' => et_rows t' `sublist_of` et_rows t ∧ et_seq t' = et_seq t
  | _, _ => False
  end.

(** At most the schema version is added to the meta table. *)
Definition meta_same (m m' : gmap string string) : Prop :=
  m' = m ∨ m !! "schema_version" = None ∧ m' = <["schema_version" := "1"]> m.

Record prunes (d d' : Database) : Prop := {
  prune_rows : rows_prune (db_cache d) (db_cache d');
  prune_events : events_prune (db_events d) (db_events d');
  prune_meta : meta_same (db_meta d) (db_meta d')
}.

#[global] Instance prunes_preorder : PreOrder prunes.
Proof.
  split.
  - intros d. split; [intros k r; by eexists| |by left]. unfold events_prune. by destruct (db_events d).
  - intros d1 d2 d3 [Hr He Hm] [Hr' He' Hm']. split.
    + intros k r3 (r2 & H2 & ?)%Hr'. apply Hr in H2 as (r1 & ? & ?). exists r1. split; [done|congruence].
    + unfold events_prune in *. destruct (db_events d1), (db_events d2), (db_events d3); try done.
      destruct He, He'. split; [by etrans|congruence].
    + unfold meta_same in *. destruct Hm as [Hm|[Hn Hm]], Hm' as [Hm'|[Hn' Hm']]; rewrite ?Hm', ?Hm in *; auto.
      by rewrite lookup_insert_eq in Hn'.
Qed.

Section tidies.
Context {H : Host}.

(** No event is as old as the retention at any time the host shows. *)
Definition recent (d : Database) : Prop :=
  ∀ t p n, db_events d = Some t → p ∈ et_rows t →
    clock n - Milliseconds NoEventRetention < ev_created_at p.2.

Record tidies (d d' : Database) : Prop := {
  tidy_prunes : prunes d d';
  tidy_rows k r : db_cache d !! k = Some r → db_cache d' !! k = None → ∃ n, expired (clock n) r = true;
  tidy_events : recent d → db_events d' = db_events d
}.

#[global] Instance tidies_preorder : PreOrder tidies.
Proof.
  split.
  - intros d. split; [reflexivity|congruence|done].
  - intros d1 d2 d3 [Hp Hr He] [Hp' Hr' He']. split; [by etrans| |].
    + intros k r1 H1 H3. destruct (db_cache d2 !! k) as [r2|] eqn:H2; [|by eapply Hr].
      destruct (Hr' k r2 H2 H3) as [n Hn]. exists n.
      destruct (prune_rows _ _ Hp k r2 H2) as (r & Hk & Hd).
      assert (r = r1) as -> by congruence. by rewrite (row_data_expired _ _ _ Hd).
    + intros Hrec. assert (recent d2) as H2 by by unfold recent; rewrite He.
      by rewrite He', He.
Qed.

Lemma tidies_version d d' : records_version d d' → tidies d d'.
Proof.
  intros [->|[Hn ->]]; [reflexivity|]. split; [split| |]; simpl.
  - intros k r. by eexists.
  - unfold events_prune. by destruct (db_events d).
  - by right.
  - congruence.
  - done.
Qed.

End tidies.

(** ** Statements *)

Section statements.
Context {H : Host}.

Lemma prunes_cache t' d : rows_prune (db_cache d) t' → prunes d (set_cache t' d).
Proof.
  intros Ht. split; simpl; [done| |by left]. unfold events_prune. by destruct (db_events d).
Qed.

Lemma flush_row_tidies ns k u d : tidies d (on_cache (flush_row ns k u) d).2.
Proof.
  rewrite on_cache_db. pose proof (flush_row_data ns k u (db_cache d)) as Hs. split; [|simpl|done].
  - apply prunes_cache. intros k' r' Hr'. pose proof (same_data_lookup _ _ k' Hs) as Hk.
    rewrite Hr' in Hk. destruct (db_cache d !! k') as [r|]; [by exists r|done].
  - intros k' r Hr Hn. pose proof (same_data_lookup _ _ k' Hs) as Hk. by rewrite Hr, Hn in Hk.
Qed.

Lemma delete_keys_prunes ns ks d : prunes d (on_cache (delete_keys ns ks) d).2.
Proof.
  rewrite on_cache_db. apply prunes_cache. intros [n k] r'. rewrite delete_keys_lookup.
  intros Hk. exists r'. case_match; simplify_eq; auto.
Qed.

Lemma delete_keys_tidies ns ks d :
  (∀ k r, k ∈ ks → db_cache d !! (ns, k) = Some r → ∃ n, expired (clock n) r = true) →
  tidies d (set_cache (delete_keys ns ks (db_cache d)).2 d).
Proof.
  intros Hks. split; [apply (delete_keys_prunes ns ks d)| |done].
  unfold set_cache. cbn [db_cache]. intros [n k] r Hr. rewrite delete_keys_lookup.
  case_decide as Hd; [|congruence]. destruct Hd as [-> Hk]. intros _. by eapply Hks.
Qed.

Lemma expired_batch_prunes ns now d : prunes d (on_cache (λ t, delete_keys ns (expired_batch ns now t) t) d).2.
Proof. exact (delete_keys_prunes ns (expired_batch ns now (db_cache d)) d). Qed.

Lemma flush_ns_prunes ns d : prunes d (on_cache (flushSQL ns) d).2.
Proof.
  rewrite on_cache_db. apply prunes_cache. intros k r'. unfold flushSQL. rewrite delete_where_lookup.
  intros Hr. exists r'. destruct (db_cache _ !! k) as [r|]; simpl in Hr; [|done]. by case_match; simplify_eq.
Qed.

Lemma expired_batch_tidies ns now d :
  (∃ n, now = clock n) →
  tidies d (on_cache (λ t, delete_keys ns (expired_batch ns now t) t) d).2.
Proof.
  intros [n ->]. rewrite on_cache_db. cbn beta. cbn [snd]. apply delete_keys_tidies.
  intros k r Hk Hr. exists n. unfold expired_batch in Hk. apply elem_of_take in Hk as (i & Hi & _).
  apply list_elem_of_lookup_2, list_elem_of_fmap in Hi as ([k' r'] & -> & Hin).
  apply elem_of_bfilter in Hin as [He Hin]. rewrite scan_perm in Hin. apply elem_of_ns_rows in Hin.
  simpl in *. by simplify_eq.
Qed.

Lemma on_events_prunes {A} (f : event_table → A * event_table) d :
  (∀ t, et_rows (f t).2 `sublist_of` et_rows t ∧ et_seq (f t).2 = et_seq t) → prunes d (on_events f d).2.
Proof.
  intros Hf. unfold on_events. destruct (db_events d) as [t|] eqn:Ht; [|simpl; reflexivity].
  specialize (Hf t). destruct (f t) as [a t']; simpl in *.
  split; [intros k r; by eexists|by rewrite Ht|by left].
Qed.

Lemma remove_first_sublist n cond l : (remove_first n cond l).2 `sublist_of` l.
Proof.
  revert n. induction l as [|x l IH]; intros n; simpl; [done|].
  destruct (cond x); simpl; [destruct n as [|n]; simpl; [done|]|].
  - specialize (IH n). destruct (remove_first n cond l); simpl in *. by apply sublist_cons.
  - specialize (IH n). destruct (remove_first n cond l); simpl in *. by apply sublist_skip.
Qed.

Lemma delete_batch_prunes cond d : prunes d (on_events (delete_batch cond) d).2.
Proof.
  apply on_events_prunes. intros t. unfold delete_batch.
  pose proof (remove_first_sublist sweepBatchSize cond (et_rows t)). by destruct (remove_first _ _ _).
Qed.

End statements.

(** ** The cache methods of admin tooling *)

(** How the tools open a file: no limit, no published change, a retention that
    deletes nothing. *)
Record admin_cache (c : Cache) : Prop := {
  admin_unlimited : unlimited c = true;
  admin_silent : publishOps c = [];
  admin_retention : eventRetention c = NoEventRetention;
  admin_no_cap : eventMaxCount c = 0
}.

(** ** Methods that only read

    They keep whatever the commits of others keep. *)

Section pure.
Context {H : Host} {GL : GoLib} {CJ : ChangeJson GL} (R : Database → Database → Prop) `{HT : !Tolerates R}.

#[local] Instance pure_preorder : PreOrder R := tol_pre.

Lemma pure_eventsExist : keeps R eventsExist.
Proof using HT. unfold eventsExist. keeps_solve. Qed.
#[local] Hint Resolve pure_eventsExist : keeps.
Lemma pure_Namespaces : keeps R Namespaces.
Proof using HT. unfold Namespaces. keeps_solve. Qed.
Lemma pure_keysPage c pattern k : keeps R (keysPage c pattern k).
Proof using HT. unfold keysPage. keeps_solve. Qed.
Lemma pure_EventStats : keeps R EventStats.
Proof using HT. unfold EventStats, or_db_error. keeps_solve. Qed.
Lemma pure_RecentEvents n after patterns : keeps R (RecentEvents n after patterns).
Proof using HT. unfold RecentEvents, or_db_error. keeps_solve. Qed.
Lemma pure_EventChannelStats : keeps R EventChannelStats.
Proof using HT. unfold EventChannelStats, or_db_error. keeps_solve. Qed.
Lemma pure_EventCountSince t0 : keeps R (EventCountSince t0).
Proof using HT. unfold EventCountSince, or_db_error. keeps_solve. Qed.
Lemma pure_Cursors c : keeps R (Cursors c).
Proof using HT. unfold Cursors, cursorRows, knownNamespaces. keeps_solve. Qed.
Lemma pure_changed c op keys count : publishOps c = [] → keeps R (changed c op keys count).
Proof using HT.
  intros Hp. unfold changed. rewrite Hp, (bool_decide_false (op ∈ [])) by apply not_elem_of_nil.
  apply keeps_bind; [done|by apply keeps_get_proc|]. intros p.
  destruct (_ && _); [keeps_solve|]. apply keeps_bind; [done|keeps_solve|]. intros a w. simpl. reflexivity.
Qed.
Lemma pure_Vacuum : keeps R Vacuum.
Proof using HT. unfold Vacuum. keeps_solve. simpl. reflexivity. Qed.
Lemma pure_cache_fuel : keeps R cache_fuel.
Proof using HT. intros w. simpl. reflexivity. Qed.
Lemma pure_event_fuel : keeps R event_fuel.
Proof using HT. intros w. simpl. reflexivity. Qed.
End pure.
#[export] Hint Resolve pure_Namespaces pure_keysPage pure_EventStats pure_RecentEvents pure_EventChannelStats
  pure_EventCountSince pure_Cursors pure_Vacuum pure_cache_fuel pure_event_fuel pure_eventsExist : keeps.

(** ** Methods that only remove

    In any host: [R] is any relation that allows the commits of others and
    pruning. *)

Section pruning.
Context {H : Host} {GL : GoLib} {CJ : ChangeJson GL} {OS : Os} (R : Database → Database → Prop)
  `{HT : !Tolerates R} (HP : ∀ d d', prunes d d' → R d d').

#[local] Instance pruning_preorder : PreOrder R := tol_pre.
#[local] Hint Resolve HP delete_keys_prunes delete_batch_prunes expired_batch_prunes flush_ns_prunes : core.

Lemma prunes_flushLRUBuffer c : keeps R (flushLRUBuffer c).
Proof using HT HP.
  assert (∀ l, keeps R (flush_all (namespace c) l)).
  { intros l. induction l as [|[k u] l IH]; cbn [flush_all]; keeps_solve; try done.
    by apply HP, tidy_prunes, flush_row_tidies. }
  unfold flushLRUBuffer, Prepare. keeps_solve; auto.
Qed.
#[local] Hint Resolve prunes_flushLRUBuffer : keeps.

Lemma prunes_removeExpiredBatch c : keeps R (removeExpiredBatch c).
Proof using HT HP.
  assert (∀ fuel n, keeps R (removeExpired_loop fuel c n)) as Hl.
  { induction fuel as [|fuel IH]; intros n; cbn [removeExpired_loop]; keeps_solve; auto. }
  unfold removeExpiredBatch. keeps_solve; auto.
Qed.

Lemma prunes_delete_loop fuel cond total : keeps R (delete_loop fuel cond total).
Proof using HT HP.
  revert total. induction fuel as [|fuel IH]; intros total; cbn [delete_loop]; unfold or_db_error; keeps_solve; auto.
Qed.
#[local] Hint Resolve prunes_removeExpiredBatch prunes_delete_loop : keeps.

Lemma prunes_sweepEvents c : keeps R (sweepEvents c).
Proof using HT HP. unfold sweepEvents, retention_bound, delete_to, or_db_error. keeps_solve. Qed.

Lemma keeps_enforceCapacity c : unlimited c = true → keeps R (enforceCapacity c).
Proof using HT. intros Hu. unfold enforceCapacity. rewrite Hu, orb_true_r. keeps_solve. Qed.
#[local] Hint Resolve prunes_sweepEvents keeps_enforceCapacity : keeps.

Lemma prunes_sweepOnce c : admin_cache c → keeps R (sweepOnce c).
Proof using HT HP. intros [Hu _ _ _]. unfold sweepOnce. keeps_solve. Qed.
#[local] Hint Resolve prunes_sweepOnce : keeps.

Lemma prunes_Maintain c : admin_cache c → keeps R (Maintain c).
Proof using HT HP. intros Hc. unfold Maintain. keeps_solve. Qed.

Lemma prunes_Inspect c key : keeps R (Inspect c key).
Proof using HT HP. unfold Inspect, deleteRaw. keeps_solve; auto. Qed.

Lemma prunes_Get c key d : admin_cache c → keeps R (Get c key d).
Proof using HT HP.
  intros Hc. unfold Get, decodeFound, getRaw, degradeReadError, bufferLRU, maybeOpportunisticSweep, deleteRaw.
  keeps_solve; auto.
Qed.

Lemma prunes_Stats c : keeps R (Stats c).
Proof using HT HP. unfold Stats. keeps_solve. Qed.

Lemma prunes_New opts : keeps R (New opts).
Proof using HT HP. apply New_keeps; [done|]. intros d d' Hd. by apply HP, tidy_prunes, tidies_version. Qed.

Lemma prunes_Delete c keys : publishOps c = [] → keeps R (Delete c keys).
Proof using HT HP. intros Hp. pose proof (λ op ks n, pure_changed R c op ks n Hp). unfold Delete. keeps_solve; auto. Qed.

Lemma prunes_Flush c : publishOps c = [] → keeps R (Flush c).
Proof using HT HP. intros Hp. pose proof (λ op ks n, pure_changed R c op ks n Hp). unfold Flush. keeps_solve; auto. Qed.

Lemma prunes_DeleteEvent seq : keeps R (DeleteEvent seq).
Proof using HT HP.
  unfold DeleteEvent, or_db_error. keeps_solve.
  apply HP, on_events_prunes. intros t. split; [apply bfilter_sublist|done].
Qed.

Lemma prunes_deleteEventsBatched cond : keeps R (deleteEventsBatched cond).
Proof using HT HP. unfold deleteEventsBatched. keeps_solve. Qed.
#[local] Hint Resolve prunes_deleteEventsBatched : keeps.

Lemma prunes_DeleteEventsBefore t0 : keeps R (DeleteEventsBefore t0).
Proof using HT HP. unfold DeleteEventsBefore, or_db_error. keeps_solve. Qed.

Lemma prunes_DeleteChannelEvents ch : keeps R (DeleteChannelEvents ch).
Proof using HT HP. unfold DeleteChannelEvents. keeps_solve. Qed.
End pruning.

(** ** Methods under a condition on the file *)

Definition keeps_on {A} (P : Database → Prop) (R : Database → Database → Prop) (m : M A) : Prop :=
  ∀ w, P (w_db w) → R (w_db w) (w_db (m w).2).

Section keeps_on.
Context {H : Host} `{HA : !Alone H} (R : Database → Database → Prop) `{HR : !PreOrder R}.

Lemma keeps_on_any {A} P (m : M A) : keeps R m → keeps_on P R m.
Proof using Type. intros Hm w _. apply Hm. Qed.

Lemma keeps_on_bind {A B} P P' (m : M A) (k : A → M B) :
  keeps_on P R m → (∀ d d', P d → R d d' → P' d') → (∀ a, keeps_on P' R (k a)) → keeps_on P R (m ≫= k).
Proof using HR.
  intros Hm HP Hk w Hw. specialize (Hm w Hw). unfold mbind, M_bind.
  destruct (m w) as [[a|e|] w']; simpl in *; [|done..]. etrans; [exact Hm|]. by eapply Hk, HP.
Qed.

Lemma keeps_on_query {A B} P (f : Database → A) (k : A → M B) :
  (∀ x, keeps_on (λ d, P d ∧ f d = x) R (k x)) → keeps_on P R (query f ≫= k).
Proof using HA HR.
  intros Hk w Hw. unfold query, mbind, M_bind, exec. rewrite refresh_alone.
  destruct (fault (w_step w)); simpl; [reflexivity|].
  change (R (w_db (advance 0 (with_db (w_db w) w))) (w_db (k (f (w_db w)) (advance 0 (with_db (w_db w) w))).2)).
  by apply Hk.
Qed.

Lemma keeps_on_attempt_query {A B} P (f : Database → A) (k : error + A → M B) :
  (∀ e, keeps_on P R (k (inl e))) → (∀ x, keeps_on (λ d, P d ∧ f d = x) R (k (inr x))) →
  keeps_on P R (attempt (query f) ≫= k).
Proof using HA HR.
  intros He Hk w Hw. unfold query, mbind, M_bind, attempt, exec. rewrite refresh_alone.
  destruct (fault (w_step w)); simpl.
  - change (R (w_db (advance 0 (with_db (w_db w) w))) (w_db (k (inl ErrDatabase) (advance 0 (with_db (w_db w) w))).2)).
    by apply He.
  - change (R (w_db (advance 0 (with_db (w_db w) w))) (w_db (k (inr (f (w_db w))) (advance 0 (with_db (w_db w) w))).2)).
    by apply Hk.
Qed.

Lemma keeps_on_now {B} P (k : Z → M B) :
  (∀ n, keeps_on P R (k (clock n))) → keeps_on P R (nowMillis ≫= k).
Proof using Type. intros Hk w Hw. apply (Hk (w_step w) (advance 0 w) Hw). Qed.
End keeps_on.

Section methods.
Context {H : Host} `{HA : !Alone H}.

Lemma tidies_flush_all ns l : keeps tidies (flush_all ns l).
Proof using HA.
  induction l as [|[k u] l IH]; cbn [flush_all]; keeps_solve; try done.
  apply flush_row_tidies.
Qed.

Lemma tidies_flushLRUBuffer c : keeps tidies (flushLRUBuffer c).
Proof using HA. pose proof tidies_flush_all. unfold flushLRUBuffer, Prepare. keeps_solve; done. Qed.

Lemma tidies_bufferLRU c key now : keeps tidies (bufferLRU c key now).
Proof using HA. pose proof (tidies_flushLRUBuffer c). unfold bufferLRU. keeps_solve; done. Qed.

Lemma tidies_removeExpiredBatch c : keeps tidies (removeExpiredBatch c).
Proof using HA.
  assert (∀ fuel n, keeps tidies (removeExpired_loop fuel c (clock n))) as Hl.
  { induction fuel as [|fuel IH]; intros n; cbn [removeExpired_loop]; keeps_solve; try done.
    apply expired_batch_tidies. by exists n. }
  intros w. unfold removeExpiredBatch.
  apply (keeps_on_now tidies (λ _, True)); [|done]. intros n. apply keeps_on_any.
  keeps_solve; try done. all: intros w'; simpl; reflexivity.
Qed.

(** Under [recent] the retention bound is empty. *)
Lemma recent_bound d n t :
  recent d → db_events d = Some t →
  max_seq_where (λ r, ev_created_at r <=? clock n - Milliseconds NoEventRetention) t = None.
Proof using Type.
  intros Hr Ht. unfold max_seq_where. rewrite bfilter_none; [done|].
  intros p Hp. apply Z.leb_gt. by eapply Hr.
Qed.

Lemma cache_sweepEvents c : keeps (λ d d', db_cache d' = db_cache d) (sweepEvents c).
Proof using HA.
  assert (PreOrder (λ d d' : Database, db_cache d' = db_cache d)).
  { split; [by intros ?|intros ???; congruence]. }
  assert (∀ fuel cond total, keeps (λ d d', db_cache d' = db_cache d) (delete_loop fuel cond total)).
  { intros fuel cond. induction fuel as [|fuel IH]; intros total; cbn [delete_loop]; unfold or_db_error;
      keeps_solve; try done. apply on_events_cache. }
  unfold sweepEvents, eventsExist, retention_bound, delete_to, or_db_error. keeps_solve; done.
Qed.

Lemma eventsExist_db w : w_db (eventsExist w).2 = w_db w.
Proof using HA.
  assert (keeps (flip eq) eventsExist) as Hk; [|by apply Hk].
  assert (PreOrder (flip (@eq Database))) by (split; [by intros ?|by intros ??? -> ->]).
  unfold eventsExist. keeps_solve.
Qed.

Lemma recent_sweepEvents c w :
  admin_cache c → recent (w_db w) → db_events (w_db (sweepEvents c w).2) = db_events (w_db w).
Proof using HA.
  intros [_ _ Hret Hcap] Hrec. unfold sweepEvents, mbind, M_bind.
  pose proof (eventsExist_db w) as He. destruct (eventsExist w) as [[[]|e|] w1]; simpl in *; try by rewrite He.
  rewrite <- He in *. clear He w. unfold attempt, retention_bound, mbind, M_bind, query, exec. simpl.
  rewrite Hret, Hcap, refresh_alone. simpl. destruct (fault _); simpl; [done|].
  unfold or_db_error, read_events. destruct (db_events (w_db w1)) as [t|] eqn:Ht; simpl; [|done].
  by rewrite (recent_bound (w_db w1)).
Qed.

Lemma tidies_sweepEvents c : admin_cache c → keeps tidies (sweepEvents c).
Proof using HA.
  intros Hc w. split; [by apply (prunes_sweepEvents prunes)| |by apply recent_sweepEvents].
  rewrite (cache_sweepEvents c w). congruence.
Qed.

Lemma tidies_sweepOnce c : admin_cache c → keeps tidies (sweepOnce c).
Proof using HA.
  intros Hc. pose proof (tidies_flushLRUBuffer c). pose proof (tidies_removeExpiredBatch c).
  pose proof (keeps_enforceCapacity tidies c (admin_unlimited c Hc)). pose proof (tidies_sweepEvents c Hc).
  unfold sweepOnce. keeps_solve; done.
Qed.

Lemma tidies_maybeOpportunisticSweep c : admin_cache c → keeps tidies (maybeOpportunisticSweep c).
Proof using HA.
  intros Hc. pose proof (tidies_sweepOnce c Hc). unfold maybeOpportunisticSweep. keeps_solve; done.
Qed.

(** The row at a key, if it is there at all, is past its expiry. *)
Definition dead_at (k : string * string) (d : Database) : Prop :=
  ∀ r, db_cache d !! k = Some r → ∃ n, expired (clock n) r = true.

Lemma tidies_deleteRaw c key : keeps_on (dead_at (namespace c, key)) tidies (deleteRaw c key).
Proof using HA.
  intros w Hw. unfold deleteRaw, mbind, M_bind, attempt, exec. rewrite refresh_alone.
  destruct (fault _); simpl; [reflexivity|].
  apply (delete_keys_tidies (namespace c) [key]). intros k r ->%list_elem_of_singleton. apply Hw.
Qed.

Lemma dead_prunes k r0 n d d' :
  db_cache d !! k = Some r0 → expired (clock n) r0 = true → prunes d d' → dead_at k d'.
Proof using Type.
  intros Hk He [Hr _ _] r Hr'. destruct (Hr k r Hr') as (r1 & H1 & Hd). exists n.
  assert (r1 = r0) as -> by congruence. by rewrite <- (row_data_expired _ _ _ Hd).
Qed.

Lemma tidies_Inspect c key : keeps tidies (Inspect c key).
Proof using HA.
  intros w. unfold Inspect. apply (keeps_on_query tidies (λ _, True)); [|done]. intros [r|].
  2:{ apply keeps_on_any. keeps_solve. }
  unfold expired. destruct (expires_at r) as [e|] eqn:He.
  - apply keeps_on_now. intros n. destruct (e <=? clock n) eqn:Hle.
    + eapply (keeps_on_bind tidies _ (λ _, True)); [|done|intros; apply keeps_on_any; keeps_solve].
      intros w' [_ Hr]. apply tidies_deleteRaw. apply (dead_prunes _ r n (w_db w')); [done| |reflexivity].
      unfold expired. by rewrite He.
    + apply keeps_on_any. keeps_solve.
  - apply keeps_on_any. keeps_solve.
Qed.

Lemma tidies_getRaw c key : admin_cache c → keeps tidies (getRaw c key).
Proof using HA.
  intros Hc w. unfold getRaw. pose proof (tidies_bufferLRU c). pose proof (tidies_maybeOpportunisticSweep c Hc).
  apply (keeps_on_attempt_query tidies (λ _, True)); [| |done].
  - intros e. apply keeps_on_any. unfold degradeReadError. keeps_solve; done.
  - intros [r|].
    2:{ apply keeps_on_any. keeps_solve; done. }
    eapply (keeps_on_bind tidies _ (λ d, ∀ n, expired (clock n) r = true → dead_at (namespace c, key) d));
      [by apply keeps_on_any| |].
    { intros d d' [_ Hr] Ht n Hn. by eapply dead_prunes, tidy_prunes. }
    intros _. apply keeps_on_now. intros n. destruct (expired (clock n) r) eqn:He.
    + eapply (keeps_on_bind tidies _ (dead_at (namespace c, key))).
      * apply keeps_on_any. keeps_solve.
      * intros d d' Hd Ht r' Hr'. destruct (prune_rows _ _ (tidy_prunes _ _ Ht) _ _ Hr') as (r1 & Hr1 & Hdat).
        destruct (Hd n He r1 Hr1) as [m Hm]. exists m. by rewrite <- (row_data_expired _ _ _ Hdat).
      * intros _. eapply (keeps_on_bind tidies _ (λ _, True)); [apply tidies_deleteRaw|done|].
        intros _. apply keeps_on_any. keeps_solve.
    + apply keeps_on_any. keeps_solve; done.
Qed.
End methods.

(** ** What the pages of the web UI need

    A relation on files that every method behind a page keeps. *)

Class PageRel {H : Host} {GL : GoLib} {OS : Os} (R : Database → Database → Prop) : Prop := {
  page_tolerates :: Tolerates R;
  page_New opts : keeps R (New opts);
  page_Inspect c key : keeps R (Inspect c key);
  page_Get c key d : admin_cache c → keeps R (Get c key d);
  page_Stats c : keeps R (Stats c)
}.
#[export] Hint Resolve page_New page_Inspect page_Get page_Stats : keeps.

Section page_relations.
Context {H : Host} {GL : GoLib} {OS : Os}.

(** In any host the file changes by the commits of others and by pruning. *)
#[global] Instance pruning_pages : PageRel (by_turns prunes).
Proof using Type.
  pose proof (by_turns_own prunes) as Hown. split; [typeclasses eauto|..].
  - exact (prunes_New _ Hown).
  - exact (prunes_Inspect _ Hown).
  - exact (prunes_Get _ Hown).
  - exact (prunes_Stats _ Hown).
Qed.

(** With nobody else it is only tidied. *)
#[global] Instance tidying_pages `{HA : !Alone H} : PageRel tidies.
Proof using Type.
  split; [typeclasses eauto|..].
  - exact (New_keeps tidies tidies_version).
  - exact tidies_Inspect.
  - intros c key d Hc. pose proof (tidies_getRaw c key Hc). unfold Get, decodeFound, degradeReadError. keeps_solve; done.
  - intros c. pose proof (tidies_flushLRUBuffer c). unfold Stats. keeps_solve; done.
Qed.
End page_relations.
