(* ===== verification/UiLimit.v ===== *)
(** The login rate limiter of the web UI ([ui/ratelimit.go] of lytecache-cli).

    Times are nanoseconds, readings of the process's monotonic clock. *)

From S2P Require Import Prelude GoStd.
Open Scope Z_scope.

(** ** The login rate limiter *)

Record loginAttempts := MkAttempts {
  la_count : Z;
  la_lockUntil : option Z;     (* [None] is the zero [time.Time] *)
  la_lastAttempt : Z
}.
Abbreviation loginRateLimiter := (gmap string loginAttempts).

Definition failuresBeforeBackoff : Z := 5.
Definition maxBackoff : Z := 30 * Second.
Definition staleAttemptTTL : Z := Hour.

(** [allow] at time [now]: [None] lets the attempt through, [Some d] asks to
    come back after [d]. *)
Definition allow (now : Z) (ip : string) (rl : loginRateLimiter) : option Z :=
  match rl !! ip with
  | None => None
  | Some a =>
      match la_lockUntil a with
      | None => None
      | Some until => if now <? until then Some (until - now) else None
      end
  end.

(** [time.Second << shift] in 64 bits, with the cap and its overflow guard. *)
Definition backoff (count : Z) : Z :=
  let d := int64 (Z.shiftl Second (count - failuresBeforeBackoff - 1)) in
  if (maxBackoff <? d) || (d <=? 0) then maxBackoff else d.

Definition gcLocked (now : Z) (rl : loginRateLimiter) : loginRateLimiter :=
  filter (λ p, ¬ la_lastAttempt p.2 < now - staleAttemptTTL) rl.

(** [recordFailure], with its three readings of the clock. *)
Definition recordFailure (t1 t2 t3 : Z) (ip : string) (rl : loginRateLimiter) : loginRateLimiter :=
  let rl := gcLocked t1 rl in
  let a := default (MkAttempts 0 None 0) (rl !! ip) in
  let count := la_count a + 1 in
  <[ip := MkAttempts count
            (if failuresBeforeBackoff <? count then Some (t3 + backoff count) else la_lockUntil a) t2]> rl.

Definition recordSuccess (ip : string) (rl : loginRateLimiter) : loginRateLimiter := delete ip rl.

(** The backoff doubles from one second and stays at thirty, whatever the
    number of failures: a shift that overflows never shortens it. *)
Lemma shiftl_wraps (s : Z) : 26 ≤ s → int64 (Z.shiftl Second s) ≤ 0 ∨ maxBackoff < int64 (Z.shiftl Second s).
Proof.
  intros Hs. rewrite Z.shiftl_mul_pow2 by lia.
  replace (Second * 2 ^ s) with (2 ^ 35 * (1953125 * 2 ^ (s - 26))).
  2:{ replace s with (26 + (s - 26)) at 2 by lia. rewrite Z.pow_add_r by lia.
      unfold Second, Millisecond. lia. }
  set (k := 1953125 * 2 ^ (s - 26)). unfold int64, wrap_signed.
  assert (∃ q, (2 ^ 35 * k + 2 ^ (64 - 1)) mod 2 ^ 64 - 2 ^ (64 - 1) = 2 ^ 35 * q) as [q Hq].
  { exists ((k + 2 ^ 28) mod 2 ^ 29 - 2 ^ 28).
    replace (2 ^ 35 * k + 2 ^ (64 - 1)) with (2 ^ 35 * (k + 2 ^ 28)) by lia.
    change (2 ^ 64) with (2 ^ 35 * 2 ^ 29). rewrite Z.mul_mod_distr_l by lia. lia. }
  rewrite Hq. unfold maxBackoff, Second, Millisecond. lia.
Qed.

Lemma backoff_eq c : failuresBeforeBackoff < c →
  backoff c = Z.min (2 ^ (c - failuresBeforeBackoff - 1) * Second) maxBackoff.
Proof.
  intros Hc. unfold backoff. set (s := c - failuresBeforeBackoff - 1).
  assert (0 ≤ s) as Hs by (unfold s; lia). clearbody s. clear c Hc.
  destruct (decide (26 ≤ s)) as [Hbig|Hsmall].
  - assert (2 ^ 26 * Second ≤ 2 ^ s * Second) as Hp.
    { apply Z.mul_le_mono_nonneg_r; [done|]. by apply Z.pow_le_mono_r. }
    rewrite Z.min_r by (change (maxBackoff ≤ 2 ^ s * Second); etrans; [|exact Hp]; done).
    destruct (shiftl_wraps s Hbig) as [H|H].
    + by rewrite (proj2 (Z.leb_le _ _) H), orb_true_r.
    + by rewrite (proj2 (Z.ltb_lt _ _) H).
  - assert (Forall (λ s, (let d := int64 (Z.shiftl Second s) in
              if (maxBackoff <? d) || (d <=? 0) then maxBackoff else d) =
              Z.min (2 ^ s * Second) maxBackoff) (seqZ 0 26)) as Hall.
    { repeat constructor. }
    rewrite Forall_forall in Hall. apply Hall, elem_of_seqZ. lia.
Qed.

Lemma backoff_range c : failuresBeforeBackoff < c → Second ≤ backoff c ≤ maxBackoff.
Proof.
  intros Hc. rewrite backoff_eq by done.
  assert (1 ≤ 2 ^ (c - failuresBeforeBackoff - 1)).
  { apply (Z.pow_le_mono_r 2 0). all: lia. }
  unfold maxBackoff, Second in *. lia.
Qed.

(** *** Guessing is slow

    What happens to the limiter over time. [allow] and the record of the
    outcome are two critical sections, with the body's parsing and the slow
    password check between them, so one client may have several requests in
    flight: [rl_flight] holds, for each of them, the time at which [allow] let
    it through. A request ends by a failure that is counted, by a success that
    clears the client, or without touching the limiter (a body that does not
    parse). [rl_guesses] counts the client's failures since its last success
    and [rl_first] is the time of the first of them: the three are not part of
    the program. Every reading of the clock is at or after the previous one,
    [recordFailure] itself takes less than a minute, and at most [k] requests
    of the client are in flight. *)
Record Guessing := MkGuessing {
  rl_state : loginRateLimiter;
  rl_clock : Z;
  rl_flight : list Z;
  rl_guesses : Z;
  rl_first : Z
}.

Inductive rl_step (k : nat) (ip : string) : Guessing → Guessing → Prop :=
  | rl_pass rl now fl n first t :
      now ≤ t → (length fl < k)%nat → allow t ip rl = None →
      rl_step k ip (MkGuessing rl now fl n first) (MkGuessing rl t (t :: fl) n first)
  | rl_fail rl now l1 p l2 n first t1 t2 t3 :
      now ≤ t1 → t1 ≤ t2 → t2 ≤ t3 → t3 ≤ t2 + Minute →
      rl_step k ip (MkGuessing rl now (l1 ++ p :: l2) n first)
        (MkGuessing (recordFailure t1 t2 t3 ip rl) t3 (l1 ++ l2) (n + 1) (if n =? 0 then t1 else first))
  | rl_success rl now l1 p l2 n first :
      rl_step k ip (MkGuessing rl now (l1 ++ p :: l2) n first)
        (MkGuessing (recordSuccess ip rl) now (l1 ++ l2) 0 first)
  | rl_bad_form rl now l1 p l2 n first :
      rl_step k ip (MkGuessing rl now (l1 ++ p :: l2) n first) (MkGuessing rl now (l1 ++ l2) n first)
  | rl_fail_other rl now fl n first other t1 t2 t3 :
      other ≠ ip → now ≤ t1 → t1 ≤ t2 → t2 ≤ t3 →
      rl_step k ip (MkGuessing rl now fl n first) (MkGuessing (recordFailure t1 t2 t3 other rl) t3 fl n first)
  | rl_success_other rl now fl n first other :
      other ≠ ip →
      rl_step k ip (MkGuessing rl now fl n first) (MkGuessing (recordSuccess other rl) now fl n first).

(** The time that the first [c] failures in a row are short of 30 seconds each. *)
Definition slack (c : Z) : Z :=
  if c <=? 5 then 30 * Second * c
  else 150 * Second + Second * (30 * (Z.min c 10 - 5) - (2 ^ (Z.min c 10 - 5) - 1)).

(** How long the [c]-th failure in a row locks the client out. *)
Definition lock_time (c : Z) : Z := if failuresBeforeBackoff <? c then backoff c else 0.

#[global] Arguments slack : simpl never.
#[global] Arguments backoff : simpl never.

Lemma slack_S c : 0 ≤ c → slack (c + 1) = slack c + maxBackoff - lock_time (c + 1).
Proof.
  intros Hc. unfold lock_time. destruct (decide (c < 16)) as [Hs|Hl].
  - assert (Forall (λ c, slack (c + 1) = slack c + maxBackoff -
              (if failuresBeforeBackoff <? c + 1 then backoff (c + 1) else 0)) (seqZ 0 16)) as Hall.
    { repeat constructor. }
    rewrite Forall_forall in Hall. apply Hall, elem_of_seqZ. lia.
  - unfold slack. rewrite !(proj2 (Z.leb_gt _ _)) by lia. rewrite !Z.min_r by lia.
    rewrite (proj2 (Z.ltb_lt _ _)) by (unfold failuresBeforeBackoff; lia).
    rewrite backoff_eq by (unfold failuresBeforeBackoff; lia).
    assert (2 ^ 10 ≤ 2 ^ (c + 1 - failuresBeforeBackoff - 1)) as Hp.
    { apply Z.pow_le_mono_r; [done|]. unfold failuresBeforeBackoff. lia. }
    rewrite Z.min_r; [lia|]. unfold maxBackoff, Second. lia.
Qed.

Lemma slack_bound c : 0 ≤ c → 0 ≤ slack c ≤ 269 * Second.
Proof.
  intros Hc. unfold slack. destruct (Z.leb_spec c 5); [unfold Second; lia|].
  assert (Forall (λ m, 0 ≤ 150 * Second + Second * (30 * (m - 5) - (2 ^ (m - 5) - 1)) ≤ 269 * Second)
            (seqZ 6 5)) as Hall by (repeat constructor; vm_compute; congruence).
  rewrite Forall_forall in Hall. apply Hall, elem_of_seqZ. lia.
Qed.

Lemma lock_time_range c : 0 ≤ lock_time c ≤ maxBackoff.
Proof.
  unfold lock_time. destruct (Z.ltb_spec failuresBeforeBackoff c) as [H|]; [|by vm_compute].
  pose proof (backoff_range c H). unfold Second in *. lia.
Qed.

Lemma lock_time_S c : lock_time c ≤ lock_time (c + 1).
Proof.
  unfold lock_time. destruct (Z.ltb_spec failuresBeforeBackoff c) as [H|];
    [|apply (lock_time_range (c + 1))].
  rewrite (proj2 (Z.ltb_lt _ _)) by lia. rewrite !backoff_eq by lia.
  apply Z.min_le_compat_r, Z.mul_le_mono_nonneg_r; [done|]. apply Z.pow_le_mono_r; lia.
Qed.

Lemma slack_mono c c' : 0 ≤ c → c ≤ c' → slack c ≤ slack c'.
Proof.
  intros Hc Hle. replace c' with (c + Z.of_nat (Z.to_nat (c' - c))) by lia.
  generalize (Z.to_nat (c' - c)). clear c' Hle. induction n as [|n IH]; [replace (c + _) with c by lia; done|].
  rewrite Nat2Z.inj_succ, <- Z.add_1_r, Z.add_assoc, slack_S by lia.
  pose proof (lock_time_range (c + Z.of_nat n + 1)). lia.
Qed.

(** The earliest time at which [allow] lets the client through again. *)
Definition ready (a : loginAttempts) : Z := default (la_lastAttempt a) (la_lockUntil a).

(** What holds of the client's record at time [now]. *)
Record record_ok (now : Z) (a : loginAttempts) : Prop := {
  rec_pos : 0 < la_count a;
  rec_free : la_count a ≤ failuresBeforeBackoff → la_lockUntil a = None;
  rec_last : la_lastAttempt a ≤ now;
  rec_ready : la_lastAttempt a ≤ ready a;
  rec_lock : ready a ≤ now + lock_time (la_count a);
  rec_gap : ready a ≤ la_lastAttempt a + Minute + maxBackoff
}.

(** Failures come in rounds: a request that was let through at [ready] or
    later, [ready] being the end of the lock that the round's first failure
    set, opens the next one when it fails; the others of a round were all in
    flight when it began, so a round has at most [k] failures. [m] rounds take
    as long as [m] failures one after the other. *)
Definition early (r : Z) (fl : list Z) : list Z := filter (λ p, p < r) fl.

(** The [m] rounds that began by now: the last one's lock ends at [r], they
    took until [e], and the last one's first failure was the [c]-th in a row. *)
Record rounds (k : nat) (ip : string) (x : Guessing) (m r e c : Z) : Prop := {
  rd_count : rl_guesses x + Z.of_nat (length (early r (rl_flight x))) ≤ Z.of_nat k * m;
  rd_m : 0 ≤ m ≤ rl_guesses x;
  rd_flight : (length (rl_flight x) ≤ k)%nat;
  rd_passed : Forall (λ p, p ≤ rl_clock x) (rl_flight x);
  rd_time : 0 < m → 30 * Second * m ≤ e - rl_first x + slack c;
  rd_e : e ≤ Z.max r (rl_clock x);
  rd_r : r ≤ rl_clock x + maxBackoff;
  rd_c : 0 ≤ c;
  rd_record :
    match rl_state x !! ip with
    | None => c = 0 ∧ r ≤ rl_clock x
    | Some a => record_ok (rl_clock x) a ∧ c ≤ la_count a ∧ r ≤ ready a ∧
        e ≤ la_lastAttempt a + Minute + maxBackoff
    end
}.

Lemma gcLocked_lookup t rl ip :
  gcLocked t rl !! ip =
  match rl !! ip with
  | Some a => if decide (la_lastAttempt a < t - staleAttemptTTL) then None else Some a
  | None => None
  end.
Proof.
  unfold gcLocked. rewrite map_lookup_filter. destruct (rl !! ip) as [a|]; simpl; [|done].
  destruct (decide (la_lastAttempt a < _)) as [Hlt|Hge].
  - by rewrite option_guard_False by naive_solver.
  - by rewrite option_guard_True.
Qed.

Lemma record_ok_later now t a : now ≤ t → record_ok now a → record_ok t a.
Proof. intros ? []. split; done || lia. Qed.

Lemma rounds_later k ip rl now fl n first m r e c t : now ≤ t →
  rounds k ip (MkGuessing rl now fl n first) m r e c → rounds k ip (MkGuessing rl t fl n first) m r e c.
Proof.
  intros Ht []; simpl in *. split; simpl; try done; [|lia|lia|].
  - by eapply Forall_impl; [eassumption|]; simpl; lia.
  - destruct (rl !! ip); [|lia]. naive_solver eauto using record_ok_later.
Qed.

(** A sweep of stale records costs the client more than it gives. *)
Lemma rounds_gc k ip rl now fl n first m r e c t : now ≤ t →
  rounds k ip (MkGuessing rl now fl n first) m r e c →
  ∃ e' c', rounds k ip (MkGuessing (gcLocked t rl) t fl n first) m r e' c'.
Proof.
  intros Ht Hr%(rounds_later _ _ _ _ _ _ _ _ _ _ _ t Ht). pose proof Hr as []; simpl in *.
  destruct (rl !! ip) as [a|] eqn:Hl.
  - destruct (decide (la_lastAttempt a < t - staleAttemptTTL)) as [Hst|Hst].
    + exists t, 0. destruct rd_record0 as ([] & ? & ? & ?). pose proof (slack_bound c rd_c0).
      change (slack 0) with 0.
      assert (Hgap : 269 * Second + Minute + maxBackoff < staleAttemptTTL) by done.
      split; simpl; try done; change (slack 0) with 0; [lia|lia|].
      rewrite gcLocked_lookup, Hl. destruct (decide _); [|done]. lia.
    + exists e, c. split; simpl; try done. rewrite gcLocked_lookup, Hl. by destruct (decide _).
  - exists e, c. split; simpl; try done. by rewrite gcLocked_lookup, Hl.
Qed.

Lemma allow_ready ip rl a t : rl !! ip = Some a → la_lastAttempt a ≤ t → allow t ip rl = None → ready a ≤ t.
Proof.
  unfold allow, ready. intros ->. destruct (la_lockUntil a); simpl; [|done].
  intros _. destruct (Z.ltb_spec t z); done.
Qed.

(** The record that a failure writes over [a]. *)
Definition failed (t2 t3 : Z) (a : loginAttempts) : loginAttempts :=
  MkAttempts (la_count a + 1)
    (if failuresBeforeBackoff <? la_count a + 1 then Some (t3 + backoff (la_count a + 1)) else la_lockUntil a) t2.

Lemma recordFailure_failed t1 t2 t3 ip rl :
  recordFailure t1 t2 t3 ip rl =
  <[ip := failed t2 t3 (default (MkAttempts 0 None 0) (gcLocked t1 rl !! ip))]> (gcLocked t1 rl).
Proof. done. Qed.

Lemma failed_ok t1 t2 t3 o :
  t1 ≤ t2 → t2 ≤ t3 → t3 ≤ t2 + Minute → from_option (record_ok t1) True o →
  let a := default (MkAttempts 0 None 0) o in
  record_ok t3 (failed t2 t3 a) ∧ t2 + lock_time (la_count a + 1) ≤ ready (failed t2 t3 a) ∧
  from_option (λ a', ready a' ≤ ready (failed t2 t3 a)) True o.
Proof.
  intros H1 H2 H3 Ho a.
  assert (Ha : 0 ≤ la_count a ∧ (la_count a ≤ failuresBeforeBackoff → la_lockUntil a = None) ∧
               from_option (λ a', ready a' ≤ t1 + lock_time (la_count a)) True o).
  { subst a. destruct o as [b|]; simpl in *; [destruct Ho; split_and!; done || lia|by vm_compute]. }
  clearbody a. destruct Ha as (Hpos & Hlock & Hr). pose proof (lock_time_S (la_count a)) as HS.
  assert (Hready : ready (failed t2 t3 a) = (if failuresBeforeBackoff <? la_count a + 1 then t3 else t2) + lock_time (la_count a + 1)).
  { unfold ready, failed, lock_time. simpl. destruct (Z.ltb_spec failuresBeforeBackoff (la_count a + 1)); simpl; [done|].
    rewrite Hlock by lia. simpl. lia. }
  pose proof (lock_time_range (la_count a + 1)).
  split; [split; simpl; rewrite ?Hready; try lia|rewrite Hready; split; [|destruct o; simpl in *]].
  all: try (destruct (Z.ltb_spec failuresBeforeBackoff (la_count a + 1)); unfold Minute, Second in *; try lia).
  intros. apply Hlock. lia.
Qed.

Lemma early_app r l1 l2 : early r (l1 ++ l2) = early r l1 ++ early r l2.
Proof. apply filter_app. Qed.
Lemma early_cons r p l : early r (p :: l) = if decide (p < r) then p :: early r l else early r l.
Proof. unfold early. rewrite filter_cons. done. Qed.
Lemma early_length r l : (length (early r l) ≤ length l)%nat.
Proof. apply length_filter. Qed.

Lemma rounds_pass k ip rl now fl n first m r e c t :
  now ≤ t → (length fl < k)%nat → allow t ip rl = None →
  rounds k ip (MkGuessing rl now fl n first) m r e c → rounds k ip (MkGuessing rl t (t :: fl) n first) m r e c.
Proof.
  intros Ht Hk Ha Hr%(rounds_later _ _ _ _ _ _ _ _ _ _ _ t Ht). destruct Hr; simpl in *.
  assert (r ≤ t).
  { destruct (rl !! ip) as [a|] eqn:Hl; [|lia]. destruct rd_record0 as ([] & _ & Hra & _).
    pose proof (allow_ready _ _ _ _ Hl rec_last0 Ha). lia. }
  split; simpl; try done; [|by constructor].
  rewrite early_cons. destruct (decide _); [lia|done].
Qed.

(** A failure of the current round. *)
Lemma rounds_fail_early k ip rl now l1 p l2 n first m r e c t1 t2 t3 :
  now ≤ t1 → t1 ≤ t2 → t2 ≤ t3 → t3 ≤ t2 + Minute → p < r → 0 < n →
  rounds k ip (MkGuessing (gcLocked t1 rl) t1 (l1 ++ p :: l2) n first) m r e c →
  rounds k ip (MkGuessing (recordFailure t1 t2 t3 ip rl) t3 (l1 ++ l2) (n + 1) first) m r e c.
Proof.
  intros H0 H1 H2 H3 Hp Hn Hr. destruct Hr; simpl in *.
  rewrite recordFailure_failed. set (rl1 := gcLocked t1 rl) in *. clearbody rl1.
  rewrite early_app, early_cons, decide_True, length_app in rd_count0 by done. simpl in *.
  rewrite length_app in rd_flight0. rewrite Forall_app, Forall_cons in rd_passed0.
  destruct (failed_ok t1 t2 t3 (rl1 !! ip) H1 H2 H3) as (Hok & Hlock & Hle);
    [destruct (rl1 !! ip); naive_solver|].
  pose proof (lock_time_range (la_count (default (MkAttempts 0 None 0) (rl1 !! ip)) + 1)).
  split; simpl; rewrite ?early_app, ?length_app; simpl in *; try lia.
  - rewrite Forall_app. destruct rd_passed0 as (F1 & _ & F2).
    split; (eapply Forall_impl; [eassumption|]; simpl; lia).
  - rewrite lookup_insert_eq. split; [done|]. destruct (rl1 !! ip) as [a|]; simpl in *.
    + destruct rd_record0 as ([] & ? & ? & ?). split_and!; lia.
    + unfold Minute, maxBackoff, Second in *. split_and!; lia.
Qed.

(** A failure that opens a round. *)
Lemma rounds_fail_late k ip rl now l1 p l2 n first m r e c t1 t2 t3 :
  now ≤ t1 → t1 ≤ t2 → t2 ≤ t3 → t3 ≤ t2 + Minute → r ≤ p →
  rounds k ip (MkGuessing (gcLocked t1 rl) t1 (l1 ++ p :: l2) n first) m r e c →
  let x := MkGuessing (recordFailure t1 t2 t3 ip rl) t3 (l1 ++ l2) (n + 1) (if n =? 0 then t1 else first) in
  ∃ r' c', rounds k ip x (m + 1) r' r' c'.
Proof.
  intros H0 H1 H2 H3 Hp Hr. destruct Hr; simpl in *.
  rewrite recordFailure_failed. set (rl1 := gcLocked t1 rl) in *. clearbody rl1.
  rewrite length_app in rd_flight0. rewrite Forall_app, Forall_cons in rd_passed0.
  destruct (failed_ok t1 t2 t3 (rl1 !! ip) H1 H2 H3) as (Hok & Hlock & Hle);
    [destruct (rl1 !! ip); naive_solver|].
  set (a := default (MkAttempts 0 None 0) (rl1 !! ip)) in *.
  assert (Hc : c ≤ la_count a) by (subst a; destruct (rl1 !! ip); simpl in *; lia).
  pose proof (slack_mono c (la_count a) rd_c0 Hc). pose proof (slack_S (la_count a) ltac:(lia)).
  pose proof (slack_bound c rd_c0). pose proof (lock_time_range (la_count a + 1)).
  clearbody a. exists (ready (failed t2 t3 a)), (la_count a + 1).
  pose proof (early_length (ready (failed t2 t3 a)) (l1 ++ l2)) as Hearly. rewrite length_app in Hearly.
  simpl in rd_flight0. assert (Hrounds : n + 1 + Z.of_nat (length l1 + length l2) ≤ Z.of_nat k * (m + 1)) by lia.
  split; simpl; rewrite ?length_app; try lia.
  - rewrite Forall_app. destruct rd_passed0 as (F1 & _ & F2).
    split; (eapply Forall_impl; [eassumption|]; simpl; lia).
  - intros _. unfold maxBackoff in *. destruct (Z.eqb_spec n 0); [replace m with 0 by lia; lia|].
    assert (m ≠ 0) by (intros ->; lia). lia.
  - destruct Hok. pose proof (lock_time_range (la_count (failed t2 t3 a))). simpl in *. lia.
  - rewrite lookup_insert_eq. destruct Hok as []. split; [by split|]. simpl in *. lia.
Qed.

(** Nothing is early for the first round. *)
Lemma early_late r l : Forall (λ p, r ≤ p) l → early r l = [].
Proof. induction 1; [done|]. rewrite early_cons. destruct (decide _); [lia|done]. Qed.

Lemma earliest_pass_le t l : foldr Z.min t l ≤ t ∧ Forall (λ p, foldr Z.min t l ≤ p) l.
Proof.
  induction l as [|p l [IH1 IH2]]; simpl; [done|]. split; [lia|]. constructor; [lia|].
  eapply Forall_impl; [exact IH2|]. simpl. lia.
Qed.

Lemma rounds_success k ip rl now fl first : 
  (length fl ≤ k)%nat → Forall (λ p, p ≤ now) fl →
  rounds k ip (MkGuessing (recordSuccess ip rl) now fl 0 first) 0 (foldr Z.min now fl) now 0.
Proof.
  intros Hk Hp. destruct (earliest_pass_le now fl) as [H1 H2]. split; simpl; try done; try lia.
  - rewrite early_late by done. simpl. lia.
  - unfold maxBackoff, Second, Millisecond. lia.
  - unfold recordSuccess. by rewrite lookup_delete_eq.
Qed.

(** A client with [other] in place of [ip] changes nothing. *)
Lemma rounds_same k ip rl rl' now fl n first m r e c :
  rl' !! ip = rl !! ip → rounds k ip (MkGuessing rl now fl n first) m r e c →
  rounds k ip (MkGuessing rl' now fl n first) m r e c.
Proof. intros He []; simpl in *. split; simpl; try done. by rewrite He. Qed.

Lemma rounds_drop k ip rl now l1 p l2 n first m r e c :
  rounds k ip (MkGuessing rl now (l1 ++ p :: l2) n first) m r e c →
  rounds k ip (MkGuessing rl now (l1 ++ l2) n first) m r e c.
Proof.
  intros []; simpl in *. rewrite early_app, early_cons, length_app in *.
  rewrite Forall_app, Forall_cons in rd_passed0. simpl in *.
  split; simpl; try done; [|rewrite length_app; lia|by rewrite Forall_app; naive_solver].
  rewrite early_app, length_app. destruct (decide (p < r)); simpl in *; lia.
Qed.

Lemma rounds_step k ip x y m r e c : rl_step k ip x y → rounds k ip x m r e c →
  ∃ m r e c, rounds k ip y m r e c.
Proof.
  intros Hs Hi. destruct Hs as [rl now fl n first t H0 Hk Ha
                               |rl now l1 p l2 n first t1 t2 t3 H0 H1 H2 H3
                               |rl now l1 p l2 n first
                               |rl now l1 p l2 n first
                               |rl now fl n first other t1 t2 t3 Hne H0 H1 H2
                               |rl now fl n first other Hne].
  - exists m, r, e, c. by eapply rounds_pass.
  - destruct (rounds_gc _ _ _ _ _ _ _ _ _ _ _ t1 H0 Hi) as (e' & c' & Hg).
    destruct (decide (p < r)) as [Hp|Hp].
    + assert (0 < n) as Hn.
      { destruct Hg. simpl in *. rewrite early_app, early_cons, decide_True, length_app in rd_count0 by done.
        simpl in *. assert (m ≠ 0) by (intros ->; lia). lia. }
      rewrite (proj2 (Z.eqb_neq n 0)) by lia. exists m, r, e', c'. by eapply rounds_fail_early.
    + apply Z.nlt_ge in Hp. destruct (rounds_fail_late _ _ _ now _ p _ _ _ _ _ _ _ t1 t2 t3 H0 H1 H2 H3 Hp Hg) as (r' & c2 & Hr).
      by exists (m + 1), r', r', c2.
  - apply rounds_drop in Hi as []. simpl in *. eexists _, _, _, _. by apply rounds_success.
  - exists m, r, e, c. by eapply rounds_drop.
  - destruct (rounds_gc _ _ _ _ _ _ _ _ _ _ _ t1 H0 Hi) as (e' & c' & Hg).
    apply (rounds_later _ _ _ _ _ _ _ _ _ _ _ t3) in Hg; [|lia].
    exists m, r, e', c'. eapply rounds_same; [|exact Hg]. rewrite recordFailure_failed. by apply lookup_insert_ne.
  - exists m, r, e, c. eapply rounds_same; [|exact Hi]. by apply lookup_delete_ne.
Qed.

(** C30: password guessing is slow. Take a client that has at most [k] login
    requests in flight at once, and times them as it likes (it may hold one for
    as long as it wants between the limiter's check and the record of the
    failure), while other clients do whatever they do. The number of failed
    guesses since its last success is at most [k] times what one guess after
    the other allows: one per thirty seconds since the first of them, and less
    than ten more. Forgetting stale records after an hour, shifts that overflow
    and locks that a late failure rewrites do not help the client. The clock is
    monotone and one record of a failure takes less than a minute. Nothing in
    the limiter bounds [k]. *)
Theorem guesses_bounded (k : nat) (ip : string) (t : Z) (x : Guessing) :
  rtc (rl_step k ip) (MkGuessing ∅ t [] 0 0) x → 0 < rl_guesses x →
  30 * rl_guesses x * Second ≤ Z.of_nat k * ((rl_clock x - rl_first x) + 299 * Second).
Proof.
  intros Hr Hpos. assert (∃ m r e c, rounds k ip x m r e c) as (m & r & e & c & []).
  { assert (∃ m r e c, rounds k ip (MkGuessing ∅ t [] 0 0) m r e c) as H0.
    { exists 0, t, t, 0. eapply (rounds_same _ _ (recordSuccess ip ∅)); [symmetry; apply lookup_delete_eq|].
      apply (rounds_success k ip ∅ t [] 0); [simpl; lia|done]. }
    revert H0. clear Hpos. induction Hr as [|x y z Hs _ IH]; [done|]. intros (m & r & e & c & Hi).
    by eapply IH, rounds_step. }
  pose proof (slack_bound c rd_c0). assert (m ≠ 0) by (intros ->; lia).
  specialize (rd_time0 ltac:(lia)). unfold maxBackoff in *. nia.
Qed.

(** Six failures at once, then two requests in flight together a second later. *)
Definition six_failures : loginRateLimiter := Nat.iter 6 (recordFailure 0 0 0 "ip") ∅.

Lemma six_failures_reach :
  rtc (rl_step 2 "ip") (MkGuessing ∅ 0 [] 0 0)
    (MkGuessing (Nat.iter 2 (recordFailure Second Second Second "ip") six_failures) Second [] 8 0).
Proof.
  do 6 (eapply rtc_l; [apply (rl_pass 2 "ip" _ _ _ _ _ 0); [by vm_compute|simpl; lia|by vm_compute]|];
        eapply rtc_l; [apply (rl_fail 2 "ip" _ _ [] _ [] _ _ 0 0 0); by vm_compute|]).
  do 2 (eapply rtc_l; [apply (rl_pass 2 "ip" _ _ _ _ _ Second); [by vm_compute|simpl; lia|by vm_compute]|]).
  do 2 (eapply rtc_l; [apply (rl_fail 2 "ip" _ _ [] _ _ _ _ Second Second Second); by vm_compute|]).
  apply rtc_refl.
Qed.

Lemma guesses_bounded_witness :
  allow 0 "ip" six_failures = Some Second ∧ 30 * 8 * Second ≤ 2 * ((Second - 0) + 299 * Second).
Proof. split; [reflexivity|]. by apply (guesses_bounded 2 "ip" 0 _ six_failures_reach). Defined.

(** Requests that arrive together are all let through, where one after the
    other all but the first are refused: a burst of a hundred makes a hundred
    guesses at one moment. *)
Example burst_not_limited :
  Forall (λ _, allow Second "ip" six_failures = None) (seq 0 100) ∧
  allow Second "ip" (recordFailure Second Second Second "ip" six_failures) = Some (2 * Second).
Proof. split; [by repeat constructor|reflexivity]. Qed.
