(* ===== verification/UiSession.v ===== *)
(** Session cookies of the web UI ([ui/session.go] of lytecache-cli): signed
    claims that carry their own expiry, and the set of revoked ids.

    Times are nanoseconds of the wall clock: they travel through JSON, which
    drops the monotonic reading. *)

From S2P Require Import Prelude GoStd Channels GoBase64 GoText.
Open Scope Z_scope.

(** ** Claims and cookies *)
Record sessionClaims := MkClaims {
  ID : string;
  Username : string;
  IssuedAt : Z;
  ExpiresAt : Z;
  LastSeen : Z
}.

(** [encoding/json] on claims and HMAC-SHA256; encoding can fail (a year past
    9999). *)
Class Cookies := {
  marshal_claims : sessionClaims → option string;
  unmarshal_claims : string → option sessionClaims;
  hmac : string → string → string
}.

(** Claims read back as they were written when their strings are valid UTF-8
    (others are written with replacement characters). *)
Class CookieLaws (C : Cookies) : Prop := {
  unmarshal_marshal c s : marshal_claims c = Some s →
    valid_utf8 (ID c) = true → valid_utf8 (Username c) = true → unmarshal_claims s = Some c
}.

Record sessionManager := MkManager {
  secret : string;
  idleTimeout : Z;
  absoluteLife : Z;
  revoked : gmap string Z
}.
Definition DefaultIdleTimeout : Z := 30 * Minute.
Definition DefaultAbsoluteLifetime : Z := 12 * Hour.
Definition newSessionManager (key : string) (idle life : Z) : sessionManager := MkManager key idle life ∅.

(** The manager of a server that starts again with the same configuration. *)
Definition restarted (m : sessionManager) : sessionManager :=
  newSessionManager (secret m) (idleTimeout m) (absoluteLife m).

Section sessions.
Context {C : Cookies}.

Definition sign (m : sessionManager) (encodedPayload : string) : string :=
  EncodeToString RawURL (hmac (secret m) encodedPayload).

Definition encode (m : sessionManager) (c : sessionClaims) : option string :=
  payload ← marshal_claims c;
  let encodedPayload := EncodeToString RawURL payload in
  Some (encodedPayload +:+ String "." (sign m encodedPayload)).

(** [issue]: the claims whose cookie a successful login sets. *)
Definition issue (m : sessionManager) (id username : string) (now : Z) : sessionClaims :=
  MkClaims id username now (now + absoluteLife m) now.

Definition verify (m : sessionManager) (now : Z) (cookieValue : string) : option sessionClaims :=
  '(encodedPayload, sig) ← Cut cookieValue ".";
  if negb (String.eqb sig (sign m encodedPayload)) then None
  else
    payload ← DecodeString RawURL encodedPayload;
    claims ← unmarshal_claims payload;
    if (ExpiresAt claims <? now) || (idleTimeout m <? time_sub now (LastSeen claims)) then None
    else match revoked m !! ID claims with
         | Some _ => None
         | None => Some claims
         end.

(** Every authenticated request re-signs the cookie with the time of the request. *)
Definition touch (now : Z) (c : sessionClaims) : sessionClaims :=
  MkClaims (ID c) (Username c) (IssuedAt c) (ExpiresAt c) now.

Definition revoke (m : sessionManager) (now : Z) (c : sessionClaims) : sessionManager :=
  MkManager (secret m) (idleTimeout m) (absoluteLife m)
    (filter (λ p, ¬ p.2 < now) (<[ID c := ExpiresAt c]> (revoked m))).

(** The token that every state-changing form carries, signed with the same key. *)
Definition csrfToken (m : sessionManager) (c : sessionClaims) : string :=
  EncodeToString RawURL (hmac (secret m) ("csrf:" +:+ ID c)).

Definition verifyCSRF (m : sessionManager) (token : string) (c : sessionClaims) : bool :=
  negb (String.eqb token "") && String.eqb token (csrfToken m c).

(** A cookie the server wrote is accepted exactly until its expiry, its idle
    timeout or its revocation, and yields the claims it was written with. *)
Lemma verify_encode `{!CookieLaws C} (m : sessionManager) (now : Z) (c : sessionClaims) (v : string) :
  valid_utf8 (ID c) = true → valid_utf8 (Username c) = true → encode m c = Some v →
  verify m now v =
  if (ExpiresAt c <? now) || (idleTimeout m <? time_sub now (LastSeen c)) then None
  else match revoked m !! ID c with Some _ => None | None => Some c end.
Proof.
  intros Hid Huser Henc. unfold encode in Henc. destruct (marshal_claims c) as [s|] eqn:Hm; simplify_eq/=.
  unfold verify. rewrite Cut_app by by apply Encode_chars. simpl.
  rewrite String.eqb_refl, Decode_Encode. simpl. by rewrite (unmarshal_marshal c s Hm Hid Huser).
Qed.

(** What an accepted cookie is: signed with the secret, in time, not revoked. *)
Lemma verify_Some (m : sessionManager) (now : Z) (v : string) (c : sessionClaims) :
  verify m now v = Some c →
  ∃ p payload, Cut v "." = Some (p, sign m p) ∧ DecodeString RawURL p = Some payload ∧
    unmarshal_claims payload = Some c ∧ now ≤ ExpiresAt c ∧
    time_sub now (LastSeen c) ≤ idleTimeout m ∧ revoked m !! ID c = None.
Proof.
  unfold verify. destruct (Cut v ".") as [[p sig]|]; simpl; [|done].
  destruct (String.eqb_spec sig (sign m p)) as [->|]; simpl; [|done].
  destruct (DecodeString RawURL p) as [payload|] eqn:Hd; simpl; [|done].
  destruct (unmarshal_claims payload) as [c'|] eqn:Hu; simpl; [|done].
  case_goal; [done|]. case_goal; [done|]. intros. simplify_eq. bool_to_prop.
  naive_solver lia.
Qed.
End sessions.

(** ** Sessions over time

    The steps of a server with its clients: a login with the right password
    issues claims with a fresh random id, an authenticated request re-signs
    them, a logout does and then revokes them, and a restart forgets what was
    revoked while the secret stays, as it is in the configuration file.
    [ss_signed] is every claims value signed with the secret, in this run of
    the server or an earlier one, [ss_logins] those that logins issued and
    [ss_ended] the ids of sessions that were logged out since the last
    restart: none of the three is kept by the program. *)
Record Sessions := MkSessions {
  ss_mgr : sessionManager;
  ss_clock : Z;
  ss_signed : list sessionClaims;
  ss_logins : list sessionClaims;
  ss_ended : list string
}.

(** Nobody without the secret can sign: the payload of a cookie with a good
    signature was signed by a server with this secret, whichever run of it.
    Servers sign two kinds of text: encoded claims, and the argument of a CSRF token. *)
Definition unforged `{Cookies} (m : sessionManager) (signed : list sessionClaims) (v : string) : Prop :=
  ∀ p, Cut v "." = Some (p, sign m p) →
    (∃ c s, c ∈ signed ∧ marshal_claims c = Some s ∧ p = EncodeToString RawURL s) ∨ ∃ id, p = "csrf:" +:+ id.

Inductive ss_step `{Cookies} : Sessions → Sessions → Prop :=
  | ss_login m now signed logins ended t id user :
      now ≤ t → id ∉ ID <$> signed → valid_utf8 id = true → valid_utf8 user = true →
      ss_step (MkSessions m now signed logins ended)
        (MkSessions m t (issue m id user t :: signed) (issue m id user t :: logins) ended)
  | ss_request m now signed logins ended t t' v c :
      now ≤ t → t ≤ t' → unforged m signed v → verify m t v = Some c →
      ss_step (MkSessions m now signed logins ended) (MkSessions m t' (touch t' c :: signed) logins ended)
  | ss_logout m now signed logins ended t t' t'' v c :
      now ≤ t → t ≤ t' → t' ≤ t'' → unforged m signed v → verify m t v = Some c →
      ss_step (MkSessions m now signed logins ended)
        (MkSessions (revoke m t'' (touch t' c)) t'' (touch t' c :: signed) logins (ID c :: ended))
  | ss_restart m now signed logins ended t :
      now ≤ t →
      ss_step (MkSessions m now signed logins ended) (MkSessions (restarted m) t signed logins []).

(** What every signed value [c] satisfies: it comes from a login, and its
    expiry is that login's. *)
Definition from_login (life clock : Z) (logins : list sessionClaims) (c : sessionClaims) : Prop :=
  valid_utf8 (ID c) = true ∧ valid_utf8 (Username c) = true ∧
  ExpiresAt c = IssuedAt c + life ∧ LastSeen c ≤ clock ∧
  ∃ l, l ∈ logins ∧ ID l = ID c ∧ Username l = Username c ∧ IssuedAt l = IssuedAt c.

Record ss_inv (x : Sessions) : Prop := {
  ss_from_login c : c ∈ ss_signed x → from_login (absoluteLife (ss_mgr x)) (ss_clock x) (ss_logins x) c;
  ss_one_expiry c c' : c ∈ ss_signed x → c' ∈ ss_signed x → ID c = ID c' → ExpiresAt c = ExpiresAt c';
  ss_ended_revoked c : c ∈ ss_signed x → ID c ∈ ss_ended x →
    revoked (ss_mgr x) !! ID c = Some (ExpiresAt c) ∨ ExpiresAt c < ss_clock x;
  ss_ended_signed id : id ∈ ss_ended x → id ∈ ID <$> ss_signed x
}.

Lemma revoke_lookup m now c id :
  revoked (revoke m now c) !! id =
  match (if decide (id = ID c) then Some (ExpiresAt c) else revoked m !! id) with
  | Some e => if decide (e < now) then None else Some e
  | None => None
  end.
Proof.
  unfold revoke. simpl. rewrite map_lookup_filter.
  destruct (decide (id = ID c)) as [->|Hne]; [rewrite lookup_insert_eq|rewrite lookup_insert_ne by done];
    [|destruct (revoked m !! id); [|done]]; simpl;
    (destruct (decide _); [by rewrite option_guard_False by naive_solver|by rewrite option_guard_True]).
Qed.

Lemma from_login_later life now t logins logins' c :
  now ≤ t → logins ⊆ logins' → from_login life now logins c → from_login life t logins' c.
Proof. unfold from_login. intros ? Hsub (? & ? & ? & ? & l & ?%Hsub & ?). naive_solver lia. Qed.

(** Re-signing a signed value at [t] keeps what is known of it. *)
Lemma from_login_touch life now t logins c :
  from_login life now logins c → from_login life t logins (touch t c).
Proof. unfold from_login. naive_solver lia. Qed.

Lemma from_login_ok life now logins (signed : list sessionClaims) :
  (∀ c, c ∈ signed → from_login life now logins c) →
  ∀ c, c ∈ signed → valid_utf8 (ID c) = true ∧ valid_utf8 (Username c) = true.
Proof. intros H c Hc. destruct (H c Hc) as (? & ? & _). done. Qed.

Lemma ss_inv_login m now signed logins ended t id user :
  now ≤ t → id ∉ ID <$> signed → valid_utf8 id = true → valid_utf8 user = true →
  ss_inv (MkSessions m now signed logins ended) →
  ss_inv (MkSessions m t (issue m id user t :: signed) (issue m id user t :: logins) ended).
Proof.
  intros Ht Hfresh Hu1 Hu2 [Hlog Hexp Hend Hids]; simpl in *.
  split; simpl; setoid_rewrite elem_of_cons.
  - intros c [->|Hc]; [|by eapply from_login_later, Hlog; [|set_solver|]].
    repeat split; simpl; try done. eexists. split; [by apply list_elem_of_here|done].
  - intros c c' [->|Hc] [->|Hc'] Hid; try done; [| |by apply Hexp];
      simpl in Hid; (exfalso; apply Hfresh; first [rewrite Hid|rewrite <- Hid]; by apply list_elem_of_fmap_2).
  - intros c [->|Hc] He; [by apply Hids in He|]. destruct (Hend c Hc He); [by left|right; lia].
  - intros id' He. right. by apply Hids.
Qed.

Lemma ss_inv_touch m now signed logins ended t c :
  now ≤ t → c ∈ signed → ss_inv (MkSessions m now signed logins ended) →
  ss_inv (MkSessions m t (touch t c :: signed) logins ended).
Proof.
  intros Ht Hc [Hlog Hexp Hend Hids]; simpl in *.
  split; simpl; setoid_rewrite elem_of_cons.
  - intros c' [->|Hc']; [by eapply from_login_touch, Hlog|].
    by eapply from_login_later, Hlog.
  - intros c1 c2 [->|H1] [->|H2] Hid; simpl in *; eauto.
  - intros c' [->|Hc'] He; simpl in *; [destruct (Hend c Hc He)|destruct (Hend c' Hc' He)]; auto with lia.
  - intros id He. right. by apply Hids.
Qed.

Lemma ss_inv_revoke m now signed logins ended t c :
  now ≤ t → c ∈ signed → ss_inv (MkSessions m now signed logins ended) →
  ss_inv (MkSessions (revoke m t c) t signed logins (ID c :: ended)).
Proof.
  intros Ht Hc [Hlog Hexp Hend Hids]; simpl in *. split; simpl.
  - intros c' Hc'. by eapply from_login_later, Hlog.
  - done.
  - intros c' Hc' He. change (_ !! ID c') with (revoked (revoke m t c) !! ID c'). rewrite revoke_lookup.
    assert (H : (if decide (ID c' = ID c) then Some (ExpiresAt c) else revoked m !! ID c') = Some (ExpiresAt c') ∨
                ExpiresAt c' < now).
    { case_decide as Hid; [left; f_equal; by apply Hexp|]. apply Hend; [done|]. set_solver. }
    destruct H as [->|]; [case_decide; auto|right; lia].
  - intros id [->|He]%elem_of_cons; [by apply list_elem_of_fmap_2|by apply Hids].
Qed.

Lemma ss_inv_restart m now signed logins ended t :
  now ≤ t → ss_inv (MkSessions m now signed logins ended) →
  ss_inv (MkSessions (restarted m) t signed logins []).
Proof.
  intros Ht [Hlog Hexp Hend Hids]; simpl in *. split; simpl; [|done|set_solver|set_solver].
  intros c Hc. by eapply from_login_later, Hlog.
Qed.

Section sessions_over_time.
Context {C : Cookies} {CL : CookieLaws C}.

(** An accepted cookie carries claims that the server signed: a CSRF token is
    no cookie, since the colon is not in the alphabet. *)
Lemma verify_signed m now signed v c :
  (∀ c, c ∈ signed → valid_utf8 (ID c) = true ∧ valid_utf8 (Username c) = true) →
  unforged m signed v → verify m now v = Some c → c ∈ signed.
Proof using CL.
  intros Hok Hu (p & payload & Hcut & Hd & Hm & _)%verify_Some.
  destruct (Hu _ Hcut) as [(c0 & s & Hin & Hs & ->)|(id & ->)].
  - rewrite Decode_Encode in Hd. simplify_eq. destruct (Hok _ Hin).
    rewrite (unmarshal_marshal c0 payload) in Hm by done. by simplify_eq.
  - by rewrite (Decode_bad _ ":") in Hd by reflexivity.
Qed.

Lemma ss_inv_step x y : ss_step x y → ss_inv x → ss_inv y.
Proof using CL.
  intros Hs Hi. pose proof (from_login_ok _ _ _ _ (ss_from_login _ Hi)) as Hok. destruct Hs; simpl in Hok.
  - by apply (ss_inv_login _ now).
  - apply (ss_inv_touch m now); [lia|by eapply verify_signed|done].
  - apply (ss_inv_revoke m t' _ _ _ t'' (touch t' c)); [done|left|].
    apply (ss_inv_touch m now); [lia|by eapply verify_signed|done].
  - by eapply ss_inv_restart.
Qed.

Lemma ss_inv_reach m clock x :
  rtc ss_step (MkSessions m clock [] [] []) x → ss_inv x.
Proof using CL.
  intros Hr. assert (Hi : ss_inv (MkSessions m clock [] [] [])) by (split; simpl; set_solver).
  induction Hr; [done|]. eauto using ss_inv_step.
Qed.

(** Session safety. Whatever logins, requests, logouts and restarts came
    before, a cookie nobody could have forged and that is accepted belongs to a
    login of the same user, within the absolute lifetime of that login and the
    idle timeout of the cookie, and to a session that was not logged out since
    the server was last started: in the same run, a copy of a cookie taken
    before a logout is useless after it, even once the revocation entry has
    been collected. *)
Lemma session_accepted key idle life clock x v t c :
  rtc ss_step (MkSessions (newSessionManager key idle life) clock [] [] []) x →
  ss_clock x ≤ t → unforged (ss_mgr x) (ss_signed x) v → verify (ss_mgr x) t v = Some c →
  (∃ l, l ∈ ss_logins x ∧ ID l = ID c ∧ Username l = Username c ∧ t ≤ IssuedAt l + life) ∧
  time_sub t (LastSeen c) ≤ idle ∧ LastSeen c ≤ t ∧ ID c ∉ ss_ended x.
Proof using CL.
  intros Hr Ht Hu Hv. apply ss_inv_reach in Hr as Hi.
  assert (Hm : idleTimeout (ss_mgr x) = idle ∧ absoluteLife (ss_mgr x) = life).
  { clear -Hr. remember (MkSessions _ _ _ _ _) as y eqn:Hy.
    assert (Hm : idleTimeout (ss_mgr y) = idle ∧ absoluteLife (ss_mgr y) = life) by by subst.
    clear Hy. induction Hr as [|??? Hs]; [done|]. apply IHHr. by destruct Hs. }
  destruct Hm as [Hm1 Hm2].
  pose proof (verify_signed _ _ _ _ _ (from_login_ok _ _ _ _ (ss_from_login _ Hi)) Hu Hv) as Hc.
  apply verify_Some in Hv as (? & ? & _ & _ & _ & Hexp & Hlast & Hrev).
  destruct (ss_from_login _ Hi _ Hc) as (_ & _ & Hlife & Hseen & l & Hl & HID & Huser & Hissued).
  split; [exists l; repeat split; congruence || lia|].
  split; [congruence|]. split; [lia|].
  intros He. destruct (ss_ended_revoked _ Hi _ Hc He); [congruence|lia].
Qed.
End sessions_over_time.

(** *** A concrete instance *)
#[local] Instance toy_cookies : Cookies := {
  marshal_claims c := Some (toy_text (ID c, Username c, (IssuedAt c, ExpiresAt c, LastSeen c)));
  unmarshal_claims s :=
    '(id, user, (i, e, l)) ← toy_value s;
    Some (MkClaims id user i e l);
  hmac k s := k +:+ s
}.
#[local] Instance toy_cookies_laws : CookieLaws toy_cookies.
Proof.
  split. intros [] s [= <-] _ _. simpl. by rewrite toy_value_text.
Qed.

Definition toy_claims : sessionClaims := MkClaims "id1" "admin" 0 Hour (10 * Minute).
Definition toy_cookie : string := default "" (encode (newSessionManager "key" (30 * Minute) Hour) toy_claims).
Definition toy_sessions : Sessions :=
  MkSessions (newSessionManager "key" (30 * Minute) Hour) (10 * Minute)
    [toy_claims; MkClaims "id1" "admin" 0 Hour 0] [MkClaims "id1" "admin" 0 Hour 0] [].


Lemma toy_sessions_reach :
  rtc ss_step (MkSessions (newSessionManager "key" (30 * Minute) Hour) 0 [] [] []) toy_sessions.
Proof.
  eapply rtc_l; [apply (ss_login _ _ _ _ _ 0 "id1" "admin"); [done|set_solver|done|done]|].
  set (v := default "" (encode (newSessionManager "key" (30 * Minute) Hour) (MkClaims "id1" "admin" 0 Hour 0))).
  eapply rtc_l; [|apply rtc_refl].
  eapply (ss_request _ _ _ _ _ (10 * Minute) (10 * Minute) v (MkClaims "id1" "admin" 0 Hour 0)); [done|done| |].
  - intros p Hcut. left. eexists _, _. split; [by left|]. split; [done|].
    vm_compute in Hcut. simplify_eq. by vm_compute.
  - by vm_compute.
Qed.

Lemma session_accepted_witness :
  (∃ l, l ∈ ss_logins toy_sessions ∧ ID l = "id1" ∧ Username l = "admin" ∧ 20 * Minute ≤ IssuedAt l + Hour) ∧
  time_sub (20 * Minute) (10 * Minute) ≤ 30 * Minute ∧ 10 * Minute ≤ 20 * Minute ∧ "id1" ∉ ss_ended toy_sessions.
Proof.
  apply (session_accepted "key" (30 * Minute) Hour 0 toy_sessions toy_cookie (20 * Minute) toy_claims).
  - exact toy_sessions_reach.
  - vm_compute. discriminate.
  - intros p Hcut. left. exists toy_claims. eexists. split; [left|]. split; [reflexivity|].
    vm_compute in Hcut. simplify_eq. by vm_compute.
  - by vm_compute.
Defined.

(** After a logout at minute 20, the cookie that was good at minute 20 is
    refused; without it, it is refused when the session is an hour old, and
    when it has been idle for half of one. *)
Example toy_cookie_ends :
  let m := newSessionManager "key" (30 * Minute) Hour in
  verify m (20 * Minute) toy_cookie = Some toy_claims ∧
  verify (revoke m (20 * Minute) toy_claims) (20 * Minute) toy_cookie = None ∧
  verify m (41 * Minute) toy_cookie = None ∧
  verify m (20 * Minute) (toy_cookie +:+ "x") = None.
Proof. by vm_compute. Qed.

(** What a logout revoked is forgotten by a restart: the copy of the cookie is
    good again, for as long as its own expiry and idle timeout allow. *)
Example restart_forgets_logout :
  let m := revoke (newSessionManager "key" (30 * Minute) Hour) (20 * Minute) toy_claims in
  verify m (21 * Minute) toy_cookie = None ∧
  verify (restarted m) (21 * Minute) toy_cookie = Some toy_claims.
Proof. by vm_compute. Qed.
