(* ===== verification/UiAccounts.v ===== *)
(** The account of the web UI ([ui/password.go], [ui/config.go] of
    lytecache-cli): password hashes, the configuration file and who may read
    it. *)

From S2P Require Import Prelude GoStd GoBase64.
Open Scope Z_scope.

(** ** Pieces of the standard library *)

(** [strings.Split] on a one-character separator. *)
Fixpoint Split (s : string) (a : ascii) : list string :=
  match s with
  | EmptyString => [""]
  | String b s =>
      if bool_decide (a = b) then "" :: Split s a
      else match Split s a with
           | [] => [String b ""]
           | x :: l => String b x :: l
           end
  end.

(** The blanks that [fmt.Sscanf] skips before a number; a line break is an error. *)
Definition is_blank (a : ascii) : bool := is_space a && negb (Ascii.eqb a "010" || Ascii.eqb a "013").

Fixpoint span_digits (s : string) : string * string :=
  match s with
  | String a t =>
      match digit_val a with
      | Some _ => let '(x, y) := span_digits t in (String a x, y)
      | None => ("", s)
      end
  | EmptyString => ("", "")
  end.

(** The [%d] verb into an unsigned variable of [w] bits: the number and the
    rest of the input. *)
Definition scan_uint (w : Z) (s : string) : option (Z * string) :=
  let '(ds, rest) := span_digits (trim_left is_blank s) in
  n ← parse_nat ds;
  if n <? 2 ^ w then Some (n, rest) else None.

(** The [%d] verb into an [int]. *)
Definition scan_int (s : string) : option (Z * string) :=
  let s := trim_left is_blank s in
  let '(neg, s) := match s with
                   | String "-" t => (true, t)
                   | String "+" t => (false, t)
                   | _ => (false, s)
                   end in
  let '(ds, rest) := span_digits s in
  n ← parse_nat ds;
  let n := if neg : bool then - n else n in
  if in_int64 n then Some (n, rest) else None.

(** ** Password hashes (password.go)

    argon2id is code of golang.org/x/crypto: the key it derives from password,
    salt, passes, memory, lanes and length, and the version it prints. *)
Class Argon2 := {
  IDKey : string → string → Z → Z → Z → Z → string;
  argon2_Version : Z
}.
Class Argon2Laws (A : Argon2) : Prop := {
  IDKey_length p s t m l n : 0 ≤ n → Z.of_nat (String.length (IDKey p s t m l n)) = n;
  Version_int64 : in_int64 argon2_Version = true
}.

Definition argon2Time : Z := 1.
Definition argon2MemoryK : Z := 64 * 1024.
Definition argon2Threads : Z := 4.
Definition argon2KeyLen : Z := 32.
Definition argon2SaltLen : nat := 16.

Section passwords.
Context {A : Argon2}.

(** [HashPassword] with the salt it drew. *)
Definition HashPassword (salt password : string) : string :=
  "$argon2id$v=" +:+ FormatInt argon2_Version +:+
  "$m=" +:+ FormatInt argon2MemoryK +:+ ",t=" +:+ FormatInt argon2Time +:+ ",p=" +:+ FormatInt argon2Threads +:+
  "$" +:+ EncodeToString RawStd salt +:+
  "$" +:+ EncodeToString RawStd (IDKey password salt argon2Time argon2MemoryK argon2Threads argon2KeyLen).

(** What [decodeArgon2Hash] reads: salt, hash, memory, passes, lanes. *)
Definition decodeArgon2Hash (encoded : string) : option (string * string * Z * Z * Z) :=
  match Split encoded "$" with
  | [p0; p1; p2; p3; p4; p5] =>
      if negb (String.eqb p0 "") || negb (String.eqb p1 "argon2id") then None
      else
        s ← CutPrefix p2 "v=";
        _ ← scan_int s;
        s ← CutPrefix p3 "m=";
        '(memory, s) ← scan_uint 32 s;
        s ← CutPrefix s ",t=";
        '(timeCost, s) ← scan_uint 32 s;
        s ← CutPrefix s ",p=";
        '(threads, s) ← scan_uint 8 s;
        salt ← DecodeString RawStd p4;
        hash ← DecodeString RawStd p5;
        Some (salt, hash, memory, timeCost, threads)
  | _ => None
  end.

Definition VerifyPassword (password encoded : string) : bool :=
  match decodeArgon2Hash encoded with
  | None => false
  | Some (salt, hash, memory, timeCost, threads) =>
      String.eqb (IDKey password salt timeCost memory threads
                    (wrap_unsigned 32 (Z.of_nat (String.length hash)))) hash
  end.
End passwords.

(** *** A hash reads back *)
Lemma Split_app (s t : string) (a : ascii) :
  ContainsChar s a = false → Split (s +:+ String a t) a = s :: Split t a.
Proof.
  induction s as [|b s IH].
  - intros _. rewrite str_app_nil. simpl. by rewrite bool_decide_true.
  - rewrite str_app_cons. simpl. intros [-> Hs]%orb_false_iff. by rewrite IH.
Qed.

Lemma Split_none (s : string) (a : ascii) : ContainsChar s a = false → Split s a = [s].
Proof. induction s as [|b s IH]; [done|]. simpl. intros [-> Hs]%orb_false_iff. by rewrite IH. Qed.

Lemma parse_digits_char (s : string) (acc n : Z) (a : ascii) :
  parse_digits acc s = Some n → digit_val a = None → ContainsChar s a = false.
Proof.
  revert acc. induction s as [|b s IH]; [done|]. intros acc. simpl.
  destruct (digit_val b) as [d|] eqn:Hb; [|done]. simpl. intros Hs Ha.
  rewrite (IH _ Hs Ha), orb_false_r. apply bool_decide_false. congruence.
Qed.

Lemma span_digits_all (s t : string) (acc n : Z) :
  parse_digits acc s = Some n → (∀ a u, t = String a u → digit_val a = None) →
  span_digits (s +:+ t) = (s, t).
Proof.
  intros Hs Ht. revert acc Hs. induction s as [|b s IH]; intros acc.
  - intros _. rewrite str_app_nil. destruct t as [|a u]; [done|]. simpl. by rewrite (Ht a u).
  - rewrite str_app_cons. simpl. destruct (digit_val b); [|done]. simpl. intros Hs. by rewrite (IH _ Hs).
Qed.

Lemma parse_nat_digits (s : string) (n : Z) : parse_nat s = Some n → parse_digits 0 s = Some n ∧ s ≠ "".
Proof. by destruct s. Qed.

Lemma FormatInt_cases (n : Z) :
  (0 ≤ n ∧ parse_nat (FormatInt n) = Some n) ∨
  (n < 0 ∧ ∃ s, FormatInt n = String "-" s ∧ parse_nat s = Some (- n)).
Proof.
  unfold FormatInt, pretty, pretty_Z. destruct n as [|p|p]; simpl.
  - by left.
  - left. split; [lia|]. apply (parse_nat_pretty (Npos p)).
  - right. split; [lia|]. eexists. split; [done|]. apply (parse_nat_pretty (Npos p)).
Qed.

Lemma FormatInt_char (n : Z) (a : ascii) :
  digit_val a = None → a ≠ "-"%char → ContainsChar (FormatInt n) a = false.
Proof.
  intros Ha Hm. destruct (FormatInt_cases n) as [[_ Hn]|(_ & s & -> & Hs)].
  - apply parse_nat_digits in Hn as [Hn _]. by eapply parse_digits_char.
  - apply parse_nat_digits in Hs as [Hs _]. simpl. rewrite bool_decide_false by done.
    by eapply parse_digits_char.
Qed.

Lemma trim_left_digit (s : string) (n : Z) (p : ascii → bool) :
  parse_nat s = Some n → (∀ a, is_Some (digit_val a) → p a = false) → trim_left p s = s.
Proof.
  intros Hs Hp. destruct s as [|a s]; [done|]. simpl in *. destruct (digit_val a) eqn:Ha; [|done].
  by rewrite (Hp a) by by eexists.
Qed.

Lemma digit_not_blank (a : ascii) : is_Some (digit_val a) → is_blank a = false.
Proof. destruct a as [[] [] [] [] [] [] [] []]; vm_compute; intros [? [=]]; done. Qed.

Lemma scan_int_FormatInt (n : Z) : in_int64 n = true → scan_int (FormatInt n) = Some (n, "").
Proof.
  intros Hn. unfold scan_int. destruct (FormatInt_cases n) as [[_ Hp]|(_ & s & -> & Hp)].
  - erewrite trim_left_digit by (eauto using digit_not_blank).
    pose proof (parse_nat_digits _ _ Hp) as [Hd Hne].
    pose proof (span_digits_all _ "" _ _ Hd ltac:(done)) as Hs. rewrite str_app_nil_r in Hs.
    destruct (FormatInt n) as [|a s] eqn:E; [done|].
    destruct (ascii_dec a "-") as [->|H1]; [done|]. destruct (ascii_dec a "+") as [->|H2]; [done|].
    assert ((match String a s with
             | String "-" t => (true, t) | String "+" t => (false, t) | _ => (false, String a s) end)
            = (false, String a s)) as ->.
    { clear -H1 H2. destruct a as [[] [] [] [] [] [] [] []]; try done. }
    rewrite Hs. rewrite Hp. simpl. by rewrite Hn.
  - simpl. pose proof (parse_nat_digits _ _ Hp) as [Hd Hne].
    pose proof (span_digits_all _ "" _ _ Hd ltac:(done)) as Hs. rewrite str_app_nil_r in Hs.
    rewrite Hs, Hp. simpl. rewrite Z.opp_involutive. by rewrite Hn.
Qed.

(** What is read back from a fresh hash is what it was made with. *)
Lemma decode_HashPassword {A : Argon2} {AL : Argon2Laws A} (salt p : string) :
  decodeArgon2Hash (HashPassword salt p) =
  Some (salt, IDKey p salt argon2Time argon2MemoryK argon2Threads argon2KeyLen,
        argon2MemoryK, argon2Time, argon2Threads).
Proof.
  unfold HashPassword. set (key := IDKey _ _ _ _ _ _).
  assert (∀ s, ContainsChar (EncodeToString RawStd s) "$" = false) as Hb by by intros s; apply Encode_chars.
  assert (ContainsChar ("v=" +:+ FormatInt argon2_Version) "$" = false) as Hv
    by by rewrite ContainsChar_app, FormatInt_char.
  set (encoded := _ +:+ _).
  assert (encoded = "" +:+ String "$" ("argon2id" +:+ String "$" (("v=" +:+ FormatInt argon2_Version) +:+
    String "$" ("m=65536,t=1,p=4" +:+ String "$" (EncodeToString RawStd salt +:+
    String "$" (EncodeToString RawStd key)))))) as ->.
  { unfold encoded. change (FormatInt argon2MemoryK) with "65536". change (FormatInt argon2Time) with "1".
    change (FormatInt argon2Threads) with "4".
    repeat (rewrite str_app_cons || rewrite str_app_nil || rewrite str_app_assoc). done. }
  unfold decodeArgon2Hash. rewrite !Split_app, Split_none by done.
  simpl. rewrite (CutPrefix_app "v="). simpl. rewrite scan_int_FormatInt by apply Version_int64. simpl. by rewrite !Decode_Encode.
Qed.

(** A password hash verifies the password it was made from, and any
    other password only if argon2id derives the same key from it. *)
Theorem HashPassword_verifies {A : Argon2} {AL : Argon2Laws A} (salt p q : string) :
  VerifyPassword p (HashPassword salt p) = true ∧
  (VerifyPassword q (HashPassword salt p) = true ↔
   IDKey q salt argon2Time argon2MemoryK argon2Threads argon2KeyLen =
   IDKey p salt argon2Time argon2MemoryK argon2Threads argon2KeyLen).
Proof.
  assert (∀ q, VerifyPassword q (HashPassword salt p) =
    String.eqb (IDKey q salt argon2Time argon2MemoryK argon2Threads argon2KeyLen)
               (IDKey p salt argon2Time argon2MemoryK argon2Threads argon2KeyLen)) as Hv.
  { intros x. unfold VerifyPassword. rewrite decode_HashPassword. by rewrite IDKey_length by done. }
  rewrite !Hv, String.eqb_refl, String.eqb_eq. done.
Qed.

(** ** The configuration file (config.go) *)

(** [DBSource] of dbmanager.go; limits and retention are declared by hand. *)
Record DBSource := MkSource {
  src_Name : string;
  src_Path : string;
  src_MaxKeys : option Z;
  src_MaxBytes : option Z;
  src_EventRetention : option Z
}.

Record AuthConfig := MkAuthConfig {
  cfg_Username : string;
  PasswordHash : string;
  SessionSecret : string;
  MetricsToken : string;
  Databases : list DBSource
}.

Definition DefaultUsername : string := "admin".
Definition DefaultPassword : string := "admin".
Definition envPasswordOverride : string := "LYTECACHE_UI_PASSWORD".
Definition configFileMode : Z := 384.   (* 0o600 *)
Definition group_or_world : Z := 63.    (* 0o077 *)

(** A file: its permission bits and its contents. *)
Record config_file := MkFile { f_mode : Z; f_data : string }.
Abbreviation files := (gmap string config_file).

(** gopkg.in/yaml.v3 on the configuration, and the file system: which calls
    fail, what a failed write leaves in the file, and the mode with which a
    new file appears. *)
Class ConfigIO := {
  yaml_Marshal : AuthConfig → option string;
  yaml_Unmarshal : string → option AuthConfig;
  mkdir_ok : string → bool;
  stat_ok : string → bool;
  read_ok : string → bool;
  write_ok : string → bool;
  chmod_ok : string → bool;
  torn : string → string;
  umask : Z;
  Getenv : string → string
}.
Class ConfigLaws (IO : ConfigIO) : Prop := {
  yaml_roundtrip c s : yaml_Marshal c = Some s → yaml_Unmarshal s = Some c
}.

Inductive config_error :=
  | EStat | EExposed (mode : Z) | ERead | EParse | EMkdir | EEncode | EWrite | EChmod | ERandom.

Section config.
Context {A : Argon2} {IO : ConfigIO}.

Definition IsDefaultPassword (c : AuthConfig) : bool := VerifyPassword DefaultPassword (PasswordHash c).

(** [checkNotGroupOrWorldAccessible] of permissions_unix.go. *)
Definition checkNotGroupOrWorldAccessible (f : config_file) : bool :=
  negb (Z.land (f_mode f) group_or_world =? 0).

Definition CheckConfigPermissions (fs : files) (path : string) : option config_error :=
  match fs !! path with
  | None => None
  | Some f =>
      if negb (stat_ok path) then Some EStat
      else if checkNotGroupOrWorldAccessible f then Some (EExposed (f_mode f)) else None
  end.

(** [os.WriteFile]: the mode applies only when the file is created. *)
Definition WriteFile (fs : files) (path data : string) : bool * files :=
  let mode := match fs !! path with
              | Some f => f_mode f
              | None => Z.ldiff configFileMode umask
              end in
  (write_ok path, <[path := MkFile mode (if write_ok path then data else torn data)]> fs).

Definition Chmod (fs : files) (path : string) : bool * files :=
  (chmod_ok path,
   if chmod_ok path then alter (λ f, MkFile configFileMode (f_data f)) path fs else fs).

Definition SaveAuthConfig (fs : files) (path : string) (cfg : AuthConfig) : option config_error * files :=
  if negb (mkdir_ok path) then (Some EMkdir, fs)
  else match yaml_Marshal cfg with
       | None => (Some EEncode, fs)
       | Some data =>
           let '(ok, fs) := WriteFile fs path data in
           if negb ok then (Some EWrite, fs)
           else let '(ok, fs) := Chmod fs path in (if ok : bool then None else Some EChmod, fs)
       end.

(** [bootstrapAuthConfig] with the secret and the salt that it drew. *)
Definition bootstrapAuthConfig (secret salt : option string) : config_error + AuthConfig :=
  match secret, salt with
  | Some secret, Some salt =>
      let v := Getenv envPasswordOverride in
      let password := if String.eqb v "" then DefaultPassword else v in
      inr (MkAuthConfig DefaultUsername (HashPassword salt password) secret "" [])
  | _, _ => inl ERandom
  end.

(** [LoadOrCreateAuthConfig]: the configuration, and whether it was created. *)
Definition LoadOrCreateAuthConfig (fs : files) (path : string) (secret salt : option string)
    : (config_error + AuthConfig * bool) * files :=
  match CheckConfigPermissions fs path with
  | Some e => (inl e, fs)
  | None =>
      match fs !! path with
      | None =>
          match bootstrapAuthConfig secret salt with
          | inl e => (inl e, fs)
          | inr cfg =>
              let '(e, fs) := SaveAuthConfig fs path cfg in
              (match e with Some e => inl e | None => inr (cfg, true) end, fs)
          end
      | Some f =>
          if negb (read_ok path) then (inl ERead, fs)
          else match yaml_Unmarshal (f_data f) with
               | None => (inl EParse, fs)
               | Some cfg => (inr (cfg, false), fs)
               end
      end
  end.
End config.

Section config_lemmas.
Context {A : Argon2} {IO : ConfigIO} {IL : ConfigLaws IO}.

(** A save that succeeds leaves the configuration, readable by its owner only. *)
Lemma SaveAuthConfig_ok fs path cfg fs' :
  SaveAuthConfig fs path cfg = (None, fs') →
  ∃ data, fs' !! path = Some (MkFile configFileMode data) ∧ yaml_Unmarshal data = Some cfg.
Proof using IL.
  unfold SaveAuthConfig. destruct (mkdir_ok path); [|done]. simpl.
  destruct (yaml_Marshal cfg) as [data|] eqn:Hm; [|done]. unfold WriteFile, Chmod.
  destruct (write_ok path); [|done]. simpl. destruct (chmod_ok path); [|done]. intros [= <-].
  exists data. rewrite lookup_alter_eq, lookup_insert_eq. split; [done|by apply yaml_roundtrip].
Qed.

Lemma SaveAuthConfig_other fs path cfg q :
  q ≠ path → (SaveAuthConfig fs path cfg).2 !! q = fs !! q.
Proof.
  intros Hq. unfold SaveAuthConfig, WriteFile, Chmod.
  destruct (mkdir_ok path), (yaml_Marshal cfg), (write_ok path), (chmod_ok path); simpl;
    by rewrite ?lookup_alter_ne, ?lookup_insert_ne by done.
Qed.

(** Whenever the configuration loads, its file is closed to group and
    others and holds exactly what was returned: a file that is open to others
    is refused, a missing one is created with mode 0600 whatever the umask,
    and an existing one and every other file are left alone. *)
Theorem LoadOrCreateAuthConfig_private fs path secret salt cfg created fs' :
  LoadOrCreateAuthConfig fs path secret salt = (inr (cfg, created), fs') →
  ∃ f, fs' !! path = Some f ∧ checkNotGroupOrWorldAccessible f = false ∧
    yaml_Unmarshal (f_data f) = Some cfg ∧ (∀ q, q ≠ path → fs' !! q = fs !! q) ∧
    if created then fs !! path = None ∧ f_mode f = configFileMode ∧ cfg_Username cfg = DefaultUsername
    else fs' = fs.
Proof using IL.
  unfold LoadOrCreateAuthConfig, CheckConfigPermissions. destruct (fs !! path) as [f|] eqn:Hf.
  - destruct (stat_ok path); [|done]. simpl.
    destruct (checkNotGroupOrWorldAccessible f) eqn:Hc; [done|].
    destruct (read_ok path); [|done]. simpl. destruct (yaml_Unmarshal (f_data f)) eqn:Hy; [|done].
    intros [= -> <- <-]. by exists f.
  - destruct (bootstrapAuthConfig secret salt) as [|c] eqn:Hb; [done|].
    pose proof (SaveAuthConfig_other fs path c) as Ho.
    destruct (SaveAuthConfig fs path c) as [[e|] fs1] eqn:Hs; [done|]. intros [= <- <- <-].
    destruct (SaveAuthConfig_ok _ _ _ _ Hs) as (data & Hd & Hy).
    exists (MkFile configFileMode data). split_and!; try done.
    unfold bootstrapAuthConfig in Hb. destruct secret, salt; by simplify_eq.
Qed.
End config_lemmas.

(** *** Concrete instances *)
Fixpoint pad (n : nat) : string := match n with O => "" | S n => String "." (pad n) end.
Lemma pad_length n : String.length (pad n) = n.
Proof. induction n; simpl; congruence. Qed.
Lemma take_str_length n s : (n ≤ String.length s)%nat → String.length (take_str n s) = n.
Proof. revert n. induction s as [|a s IH]; intros [|n]; simpl; try done; [lia|]. intros. rewrite IH; lia. Qed.

#[local] Instance toy_argon2 : Argon2 := {
  IDKey p s t m l n := take_str (Z.to_nat n) (p +:+ "/" +:+ s +:+ pad (Z.to_nat n));
  argon2_Version := 19
}.
#[local] Instance toy_argon2_laws : Argon2Laws toy_argon2.
Proof.
  split; [|done]. intros p s t m l n Hn. simpl. rewrite take_str_length; [lia|].
  rewrite !str_length_app, pad_length. lia.
Qed.

Definition config_of (x : string * string * string) : AuthConfig := MkAuthConfig x.1.1 x.1.2 x.2 "" [].
#[local] Instance toy_io : ConfigIO := {
  yaml_Marshal c :=
    match c with
    | MkAuthConfig u h s "" [] => Some (toy_text (u, h, s))
    | _ => None
    end;
  yaml_Unmarshal s := config_of <$> toy_value s;
  mkdir_ok _ := true; stat_ok _ := true; read_ok _ := true; write_ok _ := true; chmod_ok _ := true;
  torn _ := ""; umask := 18; Getenv _ := ""
}.
#[local] Instance toy_io_laws : ConfigLaws toy_io.
Proof.
  split. intros [u h s [|] [|]] t; simpl; try done. intros [= <-]. by rewrite toy_value_text.
Qed.

Lemma HashPassword_verifies_witness :
  VerifyPassword "admin" (HashPassword "salt" "admin") = true ∧
  VerifyPassword "admin" (HashPassword "salt" "hunter22") = false.
Proof.
  split; [exact (proj1 (HashPassword_verifies "salt" "admin" "admin"))|].
  destruct (VerifyPassword "admin" (HashPassword "salt" "hunter22")) eqn:E; [|done].
  apply (proj1 (proj2 (HashPassword_verifies "salt" "hunter22" "admin"))) in E. by vm_compute in E.
Defined.

Lemma LoadOrCreateAuthConfig_private_witness :
  let cfg := MkAuthConfig "admin" (HashPassword "salt" "admin") "secret" "" [] in
  let fs : files := <["ui.yaml" := MkFile 384 (toy_text ("admin", HashPassword "salt" "admin", "secret"))]> ∅ in
  ∃ f : config_file, fs !! "ui.yaml" = Some f ∧ checkNotGroupOrWorldAccessible f = false ∧
    yaml_Unmarshal (f_data f) = Some cfg ∧ (∀ q, q ≠ "ui.yaml" → fs !! q = (∅ : files) !! q) ∧
    (∅ : files) !! "ui.yaml" = None ∧ f_mode f = 384 ∧ cfg_Username cfg = "admin".
Proof.
  intros cfg fs. apply (LoadOrCreateAuthConfig_private (∅ : files) "ui.yaml" (Some "secret") (Some "salt") cfg true fs).
  vm_compute. reflexivity.
Defined.

Example open_config_refused :
  (LoadOrCreateAuthConfig {["ui.yaml" := MkFile 420 ""]} "ui.yaml" None None).1 = inl (EExposed 420).
Proof. by vm_compute. Qed.
