(* ===== verification/UiAuth.v ===== *)
(** Who may reach a route of the web UI ([ui/auth.go], [ui/auth_handlers.go]
    and the guardrails of [cmd_ui.go] in lytecache-cli): the exposure rules at
    startup, the middleware in front of every route, and login, logout and
    password change. *)

From S2P Require Import Prelude GoStd Channels GoBase64 GoText UiLimit UiSession UiAccounts.
Open Scope Z_scope.

(** ** Exposure *)

(** [net.ParseIP(host).IsLoopback()] and [net.SplitHostPort]. *)
Class Net := {
  ip_loopback : string → bool;
  SplitHostPort : string → option (string * string)
}.

Definition IsLoopbackHost `{Net} (host : string) : bool :=
  bool_decide (host ∈ ["127.0.0.1"; "localhost"; "::1"; "[::1]"]) || ip_loopback host.

Inductive guard_error := DefaultPasswordExposed | PlainHTTPExposed | MetricsExposed.

Definition CheckStartupGuardrails `{Net, Argon2} (host : string) (cfg : AuthConfig)
    (tlsConfigured insecure : bool) : option guard_error :=
  if IsLoopbackHost host then None
  else if IsDefaultPassword cfg then Some DefaultPasswordExposed
  else if negb tlsConfigured && negb insecure then Some PlainHTTPExposed
  else None.

Definition CheckMetricsGuardrail `{Net} (host : string) (noMetrics : bool) (token : string) : option guard_error :=
  if noMetrics || IsLoopbackHost host then None
  else if String.eqb token "" then Some MetricsExposed else None.

(** ** Requests and replies *)
Record Request := MkRequest {
  Method : string;
  EscapedPath : string;               (* [EscapedPath] of the URL *)
  RemoteAddr : string;
  r_query : list (string * string);
  r_form_error : option string;       (* of ParseForm *)
  r_post : list (string * string);
  r_cookie : option string;           (* the session cookie *)
  r_authorization : string
}.

(** [r.URL.Path]. *)
Definition URLPath (r : Request) : string := PathUnescape (EscapedPath r).

(** [url.Values.Get]: the first value, or the empty string. *)
Fixpoint values_get (l : list (string * string)) (k : string) : string :=
  match l with
  | [] => ""
  | (k', v) :: l => if String.eqb k' k then v else values_get l k
  end.
Definition PostForm_Get (r : Request) (k : string) : string := values_get (r_post r) k.
(** [r.FormValue]: the body's values come before those of the query. *)
Definition FormValue (r : Request) (k : string) : string := values_get (r_post r ++ r_query r) k.

(** What a handler sends, [P] being the pages. *)
Inductive reply (P : Type) :=
  | Redirect (status : Z) (location : string)
  | HTTPError (status : Z) (message : string)
  | Html (status : Z) (page : P).
Arguments Redirect {_} _ _.
Arguments HTTPError {_} _ _.
Arguments Html {_} _ _.

Inductive auth_page :=
  | LoginPage (error : string)
  | ChangePasswordPage (forced : bool) (error : string)
  | ErrorPage (title message : string).

Definition StatusFound : Z := 302.
Definition writeServerError {P} : reply P := HTTPError 500 "internal error".
Definition writeBadRequest (message : string) : reply auth_page := Html 400 (ErrorPage "Bad request" message).
Definition redirectToLogin {P} : reply P := Redirect StatusFound "/login".

(** ** The account part of a [Server] *)
Record Account := MkAccount {
  ac_config : AuthConfig;
  ac_configPath : string;
  ac_files : files;
  ac_sessions : sessionManager;
  ac_limiter : loginRateLimiter;
  ac_nonLoopback : bool
}.
Definition set_config cfg a := MkAccount cfg (ac_configPath a) (ac_files a) (ac_sessions a) (ac_limiter a) (ac_nonLoopback a).
Definition set_files fs a := MkAccount (ac_config a) (ac_configPath a) fs (ac_sessions a) (ac_limiter a) (ac_nonLoopback a).
Definition set_sessions m a := MkAccount (ac_config a) (ac_configPath a) (ac_files a) m (ac_limiter a) (ac_nonLoopback a).
Definition set_limiter rl a := MkAccount (ac_config a) (ac_configPath a) (ac_files a) (ac_sessions a) rl (ac_nonLoopback a).

Definition with_hash (hash : string) (c : AuthConfig) : AuthConfig :=
  MkAuthConfig (cfg_Username c) hash (SessionSecret c) (MetricsToken c) (Databases c).

Section auth.
Context {A : Argon2} {IO : ConfigIO} {C : Cookies} {N : Net}.

Definition clientIP (r : Request) : string :=
  match SplitHostPort (RemoteAddr r) with
  | Some (host, _) => host
  | None => RemoteAddr r
  end.

Definition forcedPasswordChangeRequired (a : Account) : bool :=
  ac_nonLoopback a && IsDefaultPassword (ac_config a).

(** ** The middleware *)
Definition authExempt (path : string) : bool :=
  bool_decide (path ∈ ["/login"; "/healthz"; "/metrics"]) || HasPrefix path "/static/".

Definition isStateChanging (method : string) : bool :=
  bool_decide (method ∈ ["POST"; "PUT"; "PATCH"; "DELETE"]).

(** What the middleware decides: it answers itself, or runs the route with
    the session it found. *)
Inductive gate :=
  | Answer (r : reply auth_page)
  | Next (session : option sessionClaims).

(** [authMiddleware], verifying at [now] and re-signing at [now']: the
    decision, and the claims whose cookie is set on the response. *)
Definition authMiddleware (a : Account) (now now' : Z) (r : Request) : gate * option sessionClaims :=
  if authExempt (URLPath r) then (Next None, None)
  else
    match r_cookie r with
    | None => (Answer redirectToLogin, None)
    | Some v =>
        match verify (ac_sessions a) now v with
        | None => (Answer redirectToLogin, None)
        | Some c =>
            let c := touch now' c in
            (if forcedPasswordChangeRequired a && negb (String.eqb (URLPath r) "/change-password")
             then Answer (Redirect StatusFound "/change-password")
             else if isStateChanging (Method r) && negb (verifyCSRF (ac_sessions a) (FormValue r "csrf_token") c)
             then Answer (HTTPError 403 "invalid or missing CSRF token")
             else Next (Some c), Some c)
        end
    end.

(** ** The account handlers

    [t] lists the readings of the clock, in order. A handler yields its reply,
    the account after it and what happened to a session: [Login] with the
    claims whose cookie it set, or [Logout]. *)
Inductive session_event := Login (c : sessionClaims) | Logout (c : sessionClaims).

Record outcome := MkOutcome {
  out_reply : reply auth_page;
  out_account : Account;
  out_event : option session_event
}.

Definition handleLoginForm (a : Account) (t : nat → Z) (r : Request) : outcome :=
  MkOutcome
    (match r_cookie r ≫= verify (ac_sessions a) (t O) with
     | Some _ => Redirect StatusFound "/dashboard"
     | None => Html 200 (LoginPage "")
     end) a None.

Definition handleLoginSubmit (a : Account) (t : nat → Z) (token : option string) (r : Request) : outcome :=
  let ip := clientIP r in
  match allow (t O) ip (ac_limiter a) with
  | Some _ => MkOutcome (Html 429 (LoginPage "too many attempts -- try again shortly")) a None
  | None =>
      match r_form_error r with
      | Some e => MkOutcome (writeBadRequest e) a None
      | None =>
          let username := PostForm_Get r "username" in
          let password := PostForm_Get r "password" in
          let cfg := ac_config a in
          let validPassword := VerifyPassword password (PasswordHash cfg) in
          let validUsername := String.eqb username (cfg_Username cfg) in
          if negb validUsername || negb validPassword then
            MkOutcome (Html 401 (LoginPage "invalid username or password"))
              (set_limiter (recordFailure (t 1%nat) (t 2%nat) (t 3%nat) ip (ac_limiter a)) a) None
          else
            let a := set_limiter (recordSuccess ip (ac_limiter a)) a in
            match token with
            | None => MkOutcome writeServerError a None
            | Some id =>
                let claims := issue (ac_sessions a) id username (t 1%nat) in
                match encode (ac_sessions a) claims with
                | None => MkOutcome writeServerError a None
                | Some _ => MkOutcome (Redirect StatusFound "/dashboard") a (Some (Login claims))
                end
            end
      end
  end.

Definition handleLogout (a : Account) (t : nat → Z) (session : option sessionClaims) : outcome :=
  MkOutcome redirectToLogin
    (match session with
     | Some c => set_sessions (revoke (ac_sessions a) (t O) c) a
     | None => a
     end) (Logout <$> session).

Definition handleChangePasswordForm (a : Account) : outcome :=
  MkOutcome (Html 200 (ChangePasswordPage (forcedPasswordChangeRequired a) "")) a None.

(** The configuration in memory changes even when it cannot be saved. *)
Definition handleChangePasswordSubmit (a : Account) (salt : option string) (r : Request) : outcome :=
  match r_form_error r with
  | Some e => MkOutcome (writeBadRequest e) a None
  | None =>
      let newPassword := PostForm_Get r "new_password" in
      let cfg := ac_config a in
      let page := λ e, MkOutcome (Html 200 (ChangePasswordPage (forcedPasswordChangeRequired a) e)) a None in
      if (String.length newPassword <? 8)%nat then page "password must be at least 8 characters"
      else if VerifyPassword newPassword (PasswordHash cfg)
      then page "new password must be different from the current one"
      else
        match salt with
        | None => MkOutcome writeServerError a None
        | Some salt =>
            let cfg := with_hash (HashPassword salt newPassword) cfg in
            let '(e, fs) := SaveAuthConfig (ac_files a) (ac_configPath a) cfg in
            let a := set_files fs (set_config cfg a) in
            match e with
            | Some _ => MkOutcome writeServerError a None
            | None => MkOutcome (Redirect StatusFound "/dashboard") a None
            end
        end
  end.

(** The account routes of [routes]; a GET pattern also serves HEAD. *)
Definition is_get (r : Request) : bool := bool_decide (Method r ∈ ["GET"; "HEAD"]).
Definition account_handler (a : Account) (t : nat → Z) (token salt : option string) (r : Request)
    (session : option sessionClaims) : option outcome :=
  if String.eqb (URLPath r) "/login" then
    if is_get r then Some (handleLoginForm a t r)
    else if String.eqb (Method r) "POST" then Some (handleLoginSubmit a t token r) else None
  else if String.eqb (URLPath r) "/logout" then
    if String.eqb (Method r) "POST" then Some (handleLogout a t session) else None
  else if String.eqb (URLPath r) "/change-password" then
    if is_get r then Some (handleChangePasswordForm a)
    else if String.eqb (Method r) "POST" then Some (handleChangePasswordSubmit a salt r) else None
  else None.

(** A request up to the account routes: what was answered, or the session with
    which the other routes run; and the claims that the middleware re-signed. *)
Definition serve_account (a : Account) (t : nat → Z) (token salt : option string) (r : Request)
    : (outcome + option sessionClaims) * option sessionClaims :=
  match authMiddleware a (t O) (t 1%nat) r with
  | (Answer rep, resigned) => (inl (MkOutcome rep a None), resigned)
  | (Next session, resigned) =>
      (match account_handler a (λ i, t (2 + i)%nat) token salt r session with
       | Some o => inl o
       | None => inr session
       end, resigned)
  end.
End auth.

(** ** The life of a server

    One step is one request up to the account routes. Besides the account,
    [Run] records what the program does not keep: the claims that were signed,
    the logins with the password and the configuration they were checked
    against, and the sessions that were logged out since the last start. *)
Record login_record := MkLogin {
  lg_claims : sessionClaims;
  lg_password : string;
  lg_config : AuthConfig
}.

Record Run := MkRun {
  ru_account : Account;
  ru_clock : Z;
  ru_signed : list sessionClaims;
  ru_logins : list login_record;
  ru_ended : list string
}.

Definition issued_by (e : option session_event) : list sessionClaims :=
  match e with Some (Login c) => [c] | _ => [] end.
Definition ended_by (e : option session_event) : list string :=
  match e with Some (Logout c) => [ID c] | _ => [] end.

Section runs.
Context {A : Argon2} {IO : ConfigIO} {C : Cookies} {N : Net}.

Definition after_request (u : Run) (t' : Z) (r : Request)
    (res : (outcome + option sessionClaims) * option sessionClaims) : Run :=
  let o := match res.1 with inl o => o | inr _ => MkOutcome redirectToLogin (ru_account u) None end in
  MkRun (out_account o) t'
    (issued_by (out_event o) ++ option_list res.2 ++ ru_signed u)
    (((λ c, MkLogin c (PostForm_Get r "password") (ac_config (ru_account u))) <$> issued_by (out_event o)) ++ ru_logins u)
    (ended_by (out_event o) ++ ru_ended u).

(** The clock does not go back, a token that is drawn is new, names are valid
    UTF-8, and nobody forges a cookie. *)
Inductive ru_step : Run → Run → Prop :=
  | ru_request u t t' token salt r :
      ru_clock u ≤ t O → (∀ i, t i ≤ t (S i)) → (∀ i, t i ≤ t') →
      (∀ id, token = Some id → id ∉ ID <$> ru_signed u ∧ valid_utf8 id = true) →
      valid_utf8 (cfg_Username (ac_config (ru_account u))) = true →
      (∀ v, r_cookie r = Some v → unforged (ac_sessions (ru_account u)) (ru_signed u) v) →
      ru_step u (after_request u t' r (serve_account (ru_account u) t token salt r)).

(** The server may also be stopped and started again, with the same secret:
    its configuration is whatever the file then holds, and what was revoked is
    forgotten. *)
Inductive ru_life : Run → Run → Prop :=
  | life_request u u' : ru_step u u' → ru_life u u'
  | life_restart u a t :
      ru_clock u ≤ t → ac_sessions a = restarted (ac_sessions (ru_account u)) →
      ru_life u (MkRun a t (ru_signed u) (ru_logins u) []).

(** *** What the pieces do to sessions *)
Lemma authMiddleware_cases a now now' r g rs :
  authMiddleware a now now' r = (g, rs) →
  (rs = None ∧ ((authExempt (URLPath r) = true ∧ g = Next None) ∨ ∃ rep, g = Answer rep)) ∨
  ∃ v c, authExempt (URLPath r) = false ∧ r_cookie r = Some v ∧ verify (ac_sessions a) now v = Some c ∧
    rs = Some (touch now' c) ∧
    ((∃ rep, g = Answer rep) ∨
     g = Next rs ∧
     (forcedPasswordChangeRequired a = true → URLPath r = "/change-password") ∧
     (isStateChanging (Method r) = true → FormValue r "csrf_token" = csrfToken (ac_sessions a) c)).
Proof.
  unfold authMiddleware. destruct (authExempt (URLPath r)); [intros [= <- <-]; auto|].
  destruct (r_cookie r) as [v|]; [|intros [= <- <-]; left; eauto].
  destruct (verify _ _ v) as [c|] eqn:Hv; [|intros [= <- <-]; left; eauto].
  intros [= <- <-]. right. exists v, c. split_and!; try done.
  destruct (_ && _) eqn:Hf; [left; eauto|]. destruct (isStateChanging (Method r) && _) eqn:Hs; [left; eauto|].
  right. split; [done|]. split.
  - intros Hforced. rewrite Hforced in Hf. simpl in Hf. by apply negb_false_iff, String.eqb_eq in Hf.
  - intros Hst. rewrite Hst in Hs. simpl in Hs. apply negb_false_iff in Hs. unfold verifyCSRF in Hs.
    apply andb_true_iff in Hs as [_ Hs]. by apply String.eqb_eq in Hs.
Qed.

Lemma handleLogin_event a t token r e :
  out_event (handleLoginSubmit a t token r) = Some e →
  ∃ id, e = Login (issue (ac_sessions a) id (cfg_Username (ac_config a)) (t 1%nat)) ∧ token = Some id ∧
    VerifyPassword (PostForm_Get r "password") (PasswordHash (ac_config a)) = true.
Proof.
  unfold handleLoginSubmit. destruct (allow _ _ _); [done|]. destruct (r_form_error r); [done|].
  destruct (String.eqb_spec (PostForm_Get r "username") (cfg_Username (ac_config a))) as [->|]; [|done].
  destruct (VerifyPassword _ _) eqn:Hv; [|done]. cbn [negb orb].
  destruct token as [id|]; [|done]. destruct (encode _ _); [|done]. intros [= <-]. eauto.
Qed.

Lemma handleLogin_sessions a t token r :
  ac_sessions (out_account (handleLoginSubmit a t token r)) = ac_sessions a.
Proof. unfold handleLoginSubmit. by repeat case_match. Qed.

(** A login request on its own does to the limiter what one request of
    [UiLimit] does: it passes the check and ends, or is refused. *)
Lemma handleLogin_limiter a t token r now n first :
  now ≤ t O → (∀ i, t i ≤ t (S i)) → t 3%nat ≤ t 2%nat + Minute →
  ∃ x, rtc (rl_step 1 (clientIP r)) (MkGuessing (ac_limiter a) now [] n first) x ∧ rl_flight x = [] ∧
    rl_state x = ac_limiter (out_account (handleLoginSubmit a t token r)).
Proof.
  intros Hnow Hmono Hmin. unfold handleLoginSubmit.
  destruct (allow (t O) (clientIP r) (ac_limiter a)) eqn:Ha; [eexists; split; [apply rtc_refl|done]|].
  assert (Hpass : rl_step 1 (clientIP r) (MkGuessing (ac_limiter a) now [] n first)
            (MkGuessing (ac_limiter a) (t O) [t O] n first)) by (apply rl_pass; simpl; done || lia).
  destruct (r_form_error r).
  { eexists. split; [eapply rtc_l; [exact Hpass|apply rtc_once, (rl_bad_form _ _ _ _ [] _ [])]|done]. }
  pose proof (Hmono O). pose proof (Hmono 1%nat). pose proof (Hmono 2%nat).
  destruct (_ || _).
  { eexists. split; [eapply rtc_l; [exact Hpass|]|].
    { apply rtc_once, (rl_fail _ _ _ _ [] (t O) [] _ _ (t 1%nat) (t 2%nat) (t 3%nat)); lia. }
    done. }
  eexists. split; [eapply rtc_l; [exact Hpass|apply rtc_once, (rl_success _ _ _ _ [] _ [])]|].
  by destruct token; [destruct (encode _ _)|].
Qed.

Lemma handleChangePassword_sessions a salt r :
  ac_sessions (out_account (handleChangePasswordSubmit a salt r)) = ac_sessions a ∧
  out_event (handleChangePasswordSubmit a salt r) = None.
Proof. unfold handleChangePasswordSubmit. by repeat case_match. Qed.

Lemma account_handler_cases a t token salt r session o :
  account_handler a t token salt r session = Some o →
  (out_event o = None ∧ ac_sessions (out_account o) = ac_sessions a) ∨
  (∃ id, URLPath r = "/login" ∧ token = Some id ∧ ac_sessions (out_account o) = ac_sessions a ∧
    out_event o = Some (Login (issue (ac_sessions a) id (cfg_Username (ac_config a)) (t 1%nat))) ∧
    VerifyPassword (PostForm_Get r "password") (PasswordHash (ac_config a)) = true) ∨
  (∃ c, session = Some c ∧ out_event o = Some (Logout c) ∧
    ac_sessions (out_account o) = revoke (ac_sessions a) (t O) c).
Proof.
  unfold account_handler. destruct (String.eqb_spec (URLPath r) "/login") as [Hp|].
  { destruct (is_get r); [intros [= <-]; by left|]. destruct (String.eqb _ _); [|done]. intros [= <-].
    pose proof (handleLogin_sessions a t token r) as Hs.
    destruct (out_event (handleLoginSubmit a t token r)) as [e|] eqn:He; [|by left].
    destruct (handleLogin_event _ _ _ _ _ He) as (id & -> & Ht & Hv). right. left. by exists id. }
  destruct (String.eqb_spec (URLPath r) "/logout").
  { destruct (String.eqb _ _); [|done]. intros [= <-]. destruct session as [c|]; [|by left].
    right. right. by exists c. }
  destruct (String.eqb _ _); [|done]. destruct (is_get r); [intros [= <-]; by left|].
  destruct (String.eqb _ _); [|done]. intros [= <-]. left.
  destruct (handleChangePassword_sessions a salt r). done.
Qed.

(** *** Sessions of a run are sessions of [UiSession] *)
Definition run_sessions (u : Run) (x : Sessions) : Prop :=
  ss_mgr x = ac_sessions (ru_account u) ∧ ss_signed x = ru_signed u ∧
  ss_logins x = lg_claims <$> ru_logins u ∧ ss_ended x = ru_ended u ∧ ss_clock x ≤ ru_clock u.

Lemma readings_le (t : nat → Z) i j : (∀ i, t i ≤ t (S i)) → (i ≤ j)%nat → t i ≤ t j.
Proof. intros Ht Hij. induction Hij as [|j _ IH]; [done|]. specialize (Ht j). lia. Qed.

Lemma ru_step_sessions u u' x :
  ru_step u u' → run_sessions u x → ∃ x', rtc ss_step x x' ∧ run_sessions u' x'.
Proof.
  intros [u0 t t' token salt r Hclk Hmono Hlast Htok Huser Hunf] (Hm & Hsig & Hlog & Hend & Hnow).
  destruct x as [m now signed logins ended]; simpl in *; subst.
  assert (Hle : ∀ i j, (i ≤ j)%nat → t i ≤ t j) by (intros; by apply readings_le).
  pose proof (Hle 0%nat 1%nat ltac:(lia)). pose proof (Hle 1%nat 2%nat ltac:(lia)).
  pose proof (Hle 2%nat 3%nat ltac:(lia)). pose proof (Hlast 1%nat). pose proof (Hlast 2%nat). pose proof (Hlast 3%nat).
  unfold after_request, serve_account.
  destruct (authMiddleware _ _ _ _) as [g rs] eqn:Hg.
  destruct (authMiddleware_cases _ _ _ _ _ _ Hg) as [(-> & [[Hex ->]|[rep ->]])|(v & c & Hex & Hck & Hver & -> & Hgate)].
  - destruct (account_handler _ _ _ _ _ _) as [o|] eqn:Ho; simpl.
    + destruct (account_handler_cases _ _ _ _ _ _ _ Ho)
        as [[He Hs]|[(id & Hp & -> & Hs & He & Hv)|(c & [=] & _)]]; rewrite He; simpl.
      * eexists. split; [apply rtc_refl|]. repeat split; simpl; try done; lia.
      * destruct (Htok id eq_refl) as [Hfresh Hid]. eexists. split.
        { apply rtc_once. apply (ss_login _ _ _ _ _ (t 3%nat) id (cfg_Username (ac_config (ru_account u0)))); done || lia. }
        repeat split; simpl; try done.
    + eexists. split; [apply rtc_refl|]. repeat split; simpl; try done; lia.
  - simpl. eexists. split; [apply rtc_refl|]. repeat split; simpl; try done; lia.
  - assert (Hreq : ss_step (MkSessions (ac_sessions (ru_account u0)) now (ru_signed u0) (lg_claims <$> ru_logins u0) (ru_ended u0))
        (MkSessions (ac_sessions (ru_account u0)) (t 1%nat) (touch (t 1%nat) c :: ru_signed u0) (lg_claims <$> ru_logins u0) (ru_ended u0))).
    { apply (ss_request _ _ _ _ _ (t O) (t 1%nat) v c); [lia|lia|by apply Hunf|done]. }
    destruct Hgate as [[rep ->]|(-> & _ & _)]; simpl.
    { eexists. split; [by apply rtc_once|]. repeat split; simpl; try done; lia. }
    destruct (account_handler _ _ _ _ _ _) as [o|] eqn:Ho; simpl;
      [|eexists; split; [by apply rtc_once|]; repeat split; simpl; try done; lia].
    destruct (account_handler_cases _ _ _ _ _ _ _ Ho)
      as [[He Hs]|[(id & Hp & _)|(c' & [= <-] & He & Hs)]].
    + rewrite He. simpl. eexists. split; [by apply rtc_once|]. repeat split; simpl; try done; lia.
    + unfold authExempt in Hex. rewrite Hp in Hex. done.
    + rewrite He. simpl. eexists. split.
      { apply rtc_once. apply (ss_logout _ _ _ _ _ (t O) (t 1%nat) (t 2%nat) v c); [lia|lia|lia|by apply Hunf|done]. }
      repeat split; simpl; try done.
Qed.

Lemma ru_life_sessions u u' x :
  ru_life u u' → run_sessions u x → ∃ x', rtc ss_step x x' ∧ run_sessions u' x'.
Proof.
  intros [u1 u2 Hs|u1 a t Ht Ha]; [by apply ru_step_sessions|].
  destruct x as [m now signed logins ended]. intros (Hm & Hsig & Hlog & Hend & Hnow). simpl in *. subst.
  eexists. split; [apply rtc_once, (ss_restart _ _ _ _ _ t); lia|]. by repeat split.
Qed.

Definition start_run (a : Account) (clock : Z) : Run := MkRun a clock [] [] [].

Lemma run_sessions_reach a clock u :
  ac_sessions a = newSessionManager (secret (ac_sessions a)) (idleTimeout (ac_sessions a)) (absoluteLife (ac_sessions a)) →
  rtc ru_life (start_run a clock) u →
  ∃ x, rtc ss_step (MkSessions (ac_sessions a) clock [] [] []) x ∧ run_sessions u x.
Proof.
  intros Hm Hr.
  assert (H : ∃ x, rtc ss_step (MkSessions (ac_sessions a) clock [] [] []) x ∧ run_sessions (start_run a clock) x).
  { eexists. split; [apply rtc_refl|]. by repeat split. }
  induction Hr as [u|u1 u2 u3 Hs _ IH]; [done|]. apply IH. destruct H as (x & Hx & Hsim).
  destruct (ru_life_sessions _ _ _ Hs Hsim) as (x' & Hx' & Hsim'). exists x'. split; [by etrans|done].
Qed.

(** Logins were checked against the configuration of their time. *)
Definition login_ok (l : login_record) : Prop :=
  VerifyPassword (lg_password l) (PasswordHash (lg_config l)) = true ∧
  Username (lg_claims l) = cfg_Username (lg_config l).

Lemma ru_step_logins u u' : ru_step u u' → Forall login_ok (ru_logins u) → Forall login_ok (ru_logins u').
Proof.
  intros [u0 t t' token salt r _ _ _ _ _ _] Hall. unfold after_request. cbn [ru_logins].
  apply Forall_app. split; [|done]. unfold serve_account.
  destruct (authMiddleware _ _ _ _) as [[rep|session] rs]; simpl; [constructor|].
  destruct (account_handler _ _ _ _ _ _) as [o|] eqn:Ho; simpl; [|constructor].
  destruct (account_handler_cases _ _ _ _ _ _ _ Ho)
    as [[-> _]|[(id & _ & _ & _ & -> & Hv)|(c & _ & -> & _)]]; simpl; repeat constructor. done.
Qed.

Lemma ru_life_logins u u' : ru_life u u' → Forall login_ok (ru_logins u) → Forall login_ok (ru_logins u').
Proof. intros [u1 u2 Hs|]; [by apply ru_step_logins|done]. Qed.

(** C28: only a logged-in user gets past the middleware. Take any sequence of
    requests to a server, one after the other, and of restarts of it with the
    same [session_secret] (its password and user name may differ after one). A
    request that then
    reaches a route other than the login page, the static files, the health
    check and the metrics carries a session that some request, in this run or
    an earlier one, opened with a password that verified against the
    configuration of that time, as the user of that configuration; that login
    is no older than the absolute lifetime of sessions (the two timeouts are
    the same in every run: the command does not set them), and the session was
    not logged out since the server was last started (revocations are kept in
    memory, so a logout is forgotten by a restart); a request that changes
    state also carries the CSRF token of that very session. Conditions:
    cookies whose signature is good were signed by a server with this secret,
    random ids do not repeat, names are valid UTF-8, and the wall clock does
    not go back. *)
Theorem access_authenticated {CL : CookieLaws C} a clock u t t' r session resigned :
  ac_sessions a = newSessionManager (secret (ac_sessions a)) (idleTimeout (ac_sessions a)) (absoluteLife (ac_sessions a)) →
  rtc ru_life (start_run a clock) u → ru_clock u ≤ t →
  (∀ v, r_cookie r = Some v → unforged (ac_sessions (ru_account u)) (ru_signed u) v) →
  authExempt (URLPath r) = false →
  authMiddleware (ru_account u) t t' r = (Next session, resigned) →
  ∃ c l, session = Some c ∧ l ∈ ru_logins u ∧
    VerifyPassword (lg_password l) (PasswordHash (lg_config l)) = true ∧
    Username c = cfg_Username (lg_config l) ∧ ID c = ID (lg_claims l) ∧
    t ≤ IssuedAt (lg_claims l) + absoluteLife (ac_sessions a) ∧ ID c ∉ ru_ended u ∧
    (isStateChanging (Method r) = true → FormValue r "csrf_token" = csrfToken (ac_sessions (ru_account u)) c).
Proof.
  intros Hm Hr Ht Hunf Hex Hg.
  destruct (run_sessions_reach _ _ _ Hm Hr) as (x & Hx & Hmgr & Hsig & Hlog & Hend & Hclk).
  assert (Hok : Forall login_ok (ru_logins u)).
  { assert (Forall login_ok (ru_logins (start_run a clock))) as H0 by constructor.
    clear -Hr H0. induction Hr; eauto using ru_life_logins. }
  destruct (authMiddleware_cases _ _ _ _ _ _ Hg)
    as [(_ & [[Hex' _]|[rep [=]]])|(v & c & _ & Hck & Hver & -> & [[rep [=]]|([= ->] & _ & Hcsrf)])]; [congruence|].
  rewrite Hm in Hx.
  destruct (session_accepted _ _ _ _ _ v t c Hx ltac:(lia) ltac:(rewrite Hmgr, Hsig; by apply Hunf)
              ltac:(by rewrite Hmgr)) as ((l & Hl & HID & Huser & Hlife) & _ & _ & Hnot).
  rewrite Hlog in Hl. apply list_elem_of_fmap in Hl as (lg & -> & Hin).
  rewrite Forall_forall in Hok. destruct (Hok _ Hin) as [Hpw Hname].
  exists (touch t' c), lg. rewrite <- Hend. split_and!; try done; simpl; congruence.
Qed.
End runs.

(** *** The forced password change

    The middleware redirects to [/change-password] while a server that is
    reachable from outside still has the default password. Such a server is
    not started, and the only handler that changes the configuration in memory
    refuses passwords shorter than eight characters, so the redirect never
    happens: a [reset-password] of another process reaches the file only. *)
Lemma forced_change_unreachable {A : Argon2} {AL : Argon2Laws A} {IO : ConfigIO} {C : Cookies} {N : Net} a clock u :
  (∀ p salt, p ≠ DefaultPassword →
    IDKey DefaultPassword salt argon2Time argon2MemoryK argon2Threads argon2KeyLen ≠
    IDKey p salt argon2Time argon2MemoryK argon2Threads argon2KeyLen) →
  forcedPasswordChangeRequired a = false →
  rtc ru_step (start_run a clock) u → forcedPasswordChangeRequired (ru_account u) = false.
Proof.
  intros Hkey H0 Hr.
  assert (Hs : ∀ b salt r, forcedPasswordChangeRequired b = false →
    forcedPasswordChangeRequired (out_account (handleChangePasswordSubmit b salt r)) = false).
  { intros b salt r Hb. unfold handleChangePasswordSubmit. destruct (r_form_error r); [done|].
    destruct (Nat.ltb_spec (String.length (PostForm_Get r "new_password")) 8) as [|Hlen]; [done|].
    destruct (VerifyPassword _ _); [done|]. destruct salt as [salt|]; [|done].
    destruct (SaveAuthConfig _ _ _) as [e fs].
    assert (IsDefaultPassword (with_hash (HashPassword salt (PostForm_Get r "new_password")) (ac_config b)) = false) as Hd.
    { unfold IsDefaultPassword. simpl. apply not_true_is_false. intros Hv.
      unfold VerifyPassword in Hv. rewrite decode_HashPassword, IDKey_length in Hv by done.
      apply String.eqb_eq in Hv. eapply Hkey; [|exact Hv]. intros He. rewrite He in Hlen. simpl in Hlen. lia. }
    unfold forcedPasswordChangeRequired. destruct e; simpl; by rewrite Hd, andb_false_r. }
  assert (H : forcedPasswordChangeRequired (ru_account (start_run a clock)) = false) by done.
  induction Hr as [|u1 u2 u3 Hstep _ IH]; [done|]. apply IH. clear IH.
  destruct Hstep as [u0 t t' token salt r _ _ _ _ _ _]. unfold after_request, serve_account.
  destruct (authMiddleware _ _ _ _) as [[rep|session] rs]; simpl; [done|].
  destruct (account_handler _ _ _ _ _ _) as [o|] eqn:Ho; simpl; [|done].
  revert Ho. unfold account_handler. repeat (case_match; try done); intros [= <-]; try done; [|by destruct session|by apply Hs].
  unfold handleLoginSubmit. by repeat case_match.
Qed.

(** A password change whose save fails takes effect in memory all the same. *)
Example failed_save_changes_password :
  let IO := {| yaml_Marshal := λ _, Some ""; yaml_Unmarshal := λ _, None; mkdir_ok := λ _, true;
               stat_ok := λ _, true; read_ok := λ _, true; write_ok := λ _, false; chmod_ok := λ _, true;
               torn := id; umask := 18; Getenv := λ _, "" |} in
  let a := MkAccount (MkAuthConfig "admin" "" "" "" []) "ui.yaml" ∅ (newSessionManager "" 1 1) ∅ false in
  let r := MkRequest "POST" "/change-password" "" [] None [("new_password", "hunter22")] None "" in
  let o := handleChangePasswordSubmit (A := toy_argon2) (IO := IO) a (Some "salt") r in
  out_reply o = writeServerError ∧
  VerifyPassword (A := toy_argon2) "hunter22" (PasswordHash (ac_config (out_account o))) = true.
Proof. by vm_compute. Qed.

(** *** A concrete run: a login, then a request *)
#[local] Instance toy_net : Net := {
  ip_loopback _ := false;
  SplitHostPort s := Cut s ":"
}.
#[local] Existing Instances toy_cookies toy_argon2 toy_io toy_cookies_laws toy_argon2_laws.

Definition toy_account : Account :=
  MkAccount (MkAuthConfig "admin" (HashPassword "salt" "hunter22") "k" "" []) "ui.yaml" ∅
    (newSessionManager "key" (30 * Minute) Hour) ∅ true.
Definition toy_login : Request :=
  MkRequest "POST" "/login" "10.0.0.7:1234" [] None [("username", "admin"); ("password", "hunter22")] None "".
Definition toy_session : sessionClaims := MkClaims "id1" "admin" 0 Hour 0.
Definition toy_view : Request :=
  MkRequest "GET" "/dashboard" "10.0.0.7:1234" [] None [] (encode (ac_sessions toy_account) toy_session) "".
Definition toy_run : Run :=
  after_request (start_run toy_account 0) 0 toy_login
    (serve_account toy_account (λ _, 0) (Some "id1") None toy_login).


(** The same server, started again half a minute later. *)
Definition toy_second_run : Run := MkRun toy_account (Minute / 2) (ru_signed toy_run) (ru_logins toy_run) [].

Lemma access_authenticated_witness :
  ∃ c l, Some (touch Minute toy_session) = Some c ∧ l ∈ ru_logins toy_second_run ∧
    VerifyPassword (lg_password l) (PasswordHash (lg_config l)) = true ∧
    Username c = cfg_Username (lg_config l) ∧ ID c = ID (lg_claims l) ∧
    Minute ≤ IssuedAt (lg_claims l) + absoluteLife (ac_sessions toy_account) ∧ ID c ∉ ru_ended toy_second_run ∧
    (isStateChanging (Method toy_view) = true →
     FormValue toy_view "csrf_token" = csrfToken (ac_sessions (ru_account toy_second_run)) c).
Proof.
  apply (access_authenticated toy_account 0 toy_second_run Minute Minute toy_view
           (Some (touch Minute toy_session)) (Some (touch Minute toy_session))).
  - reflexivity.
  - apply (rtc_l _ _ toy_run); [|eapply rtc_l; [|apply rtc_refl]].
    + apply life_request, (ru_request (start_run toy_account 0) (λ _, 0) 0); try done.
      intros id [= <-]. split; [apply not_elem_of_nil|reflexivity].
    + apply (life_restart _ toy_account (Minute / 2)); [by vm_compute|reflexivity].
  - by vm_compute.
  - intros v [= <-] p Hcut. left. exists toy_session. eexists. split; [by vm_compute; left|].
    split; [reflexivity|]. vm_compute in Hcut. simplify_eq. by vm_compute.
  - reflexivity.
  - by vm_compute.
Defined.
