(* ===== verification/UiDb.v ===== *)
(** The databases of the web UI ([ui/dbmanager.go] of lytecache-cli): which
    files are configured or discovered, the handle opened per file and
    namespace, and the monad in which the pages and handlers run. *)

From S2P Require Import Prelude GoStd Values Store Engine EventLog Sweep Changes Kv Reads Open UiSafe UiAccounts.
Open Scope Z_scope.

(** ** Pieces of the standard library *)

(** [filepath.Base] with slashes. *)
Fixpoint after_last (a : ascii) (s : string) : string :=
  match s with
  | EmptyString => ""
  | String b t => if ContainsChar t a then after_last a t else if bool_decide (a = b) then t else s
  end.
Definition Base (p : string) : string :=
  if String.eqb p "" then "."
  else let q := trim_right (λ a, bool_decide (a = "/"%char)) p in
       if String.eqb q "" then "/" else after_last "/" q.

(** [strings.TrimSuffix]. *)
Fixpoint TrimSuffix (s suffix : string) : string :=
  if String.eqb s suffix then ""
  else match s with
       | EmptyString => ""
       | String a t => String a (TrimSuffix t suffix)
       end.

(** The file system: [os.Stat] failing on a file that exists, and
    [filepath.Glob(dir/*.db)] at a given step, [None] for a bad pattern. *)
Class FileSystem := {
  stat_fails : string → bool;
  Glob_db : nat → string → option (list string)
}.

(** ** Sources *)

Definition scanned (m : string) : DBSource := MkSource (TrimSuffix (Base m) ".db") m None None None.

Definition scanDBFiles `{FileSystem} (step : nat) (dir : string) : option (list DBSource) :=
  matches ← Glob_db step dir; Some (scanned <$> sort_strings matches).

Inductive merge_error := DuplicateName (name : string) | BadPattern (dir : string).

(** The explicit sources; [seen] maps a name to its path. *)
Fixpoint merge_base (seen : gmap string string) (base : list DBSource) : merge_error + gmap string string :=
  match base with
  | [] => inr seen
  | s :: base =>
      match seen !! src_Name s with
      | Some _ => inl (DuplicateName (src_Name s))
      | None => merge_base (<[src_Name s := src_Path s]> seen) base
      end
  end.

(** The sources found in one directory; a name already taken is skipped, with
    a warning. *)
Fixpoint merge_found (seen : gmap string string) (out : list DBSource) (found : list DBSource)
    : gmap string string * list DBSource :=
  match found with
  | [] => (seen, out)
  | s :: found =>
      match seen !! src_Name s with
      | Some _ => merge_found seen out found
      | None => merge_found (<[src_Name s := src_Path s]> seen) (out ++ [s]) found
      end
  end.

Fixpoint merge_dirs `{FileSystem} (step : nat) (seen : gmap string string) (out : list DBSource)
    (dirs : list string) : merge_error + list DBSource :=
  match dirs with
  | [] => inr out
  | dir :: dirs =>
      match scanDBFiles step dir with
      | None => inl (BadPattern dir)
      | Some found => let '(seen, out) := merge_found seen out found in merge_dirs step seen out dirs
      end
  end.

Definition MergeSources `{FileSystem} (step : nat) (base : list DBSource) (scanDirs : list string)
    : merge_error + list DBSource :=
  match merge_base ∅ base with
  | inl e => inl e
  | inr seen => merge_dirs step seen base scanDirs
  end.

(** ** The manager *)

(** One configured file and the handles opened on it, by namespace: the
    configuration of the [Cache] and its process state. *)
Record dbEntry := MkEntry {
  e_Name : string;
  e_Path : string;
  DeclaredMaxKeys : option Z;
  DeclaredMaxBytes : option Z;
  DeclaredEventRetention : option Z;
  caches : gmap string (Cache * Proc)
}.

Record Manager := MkMgr { entries : list dbEntry; byName : gmap string nat }.

Definition new_entry (s : DBSource) : dbEntry :=
  MkEntry (src_Name s) (src_Path s) (src_MaxKeys s) (src_MaxBytes s) (src_EventRetention s) ∅.

Definition addLocked (m : Manager) (s : DBSource) : Manager :=
  MkMgr (entries m ++ [new_entry s]) (<[src_Name s := length (entries m)]> (byName m)).

Definition NewManager (sources : list DBSource) : Manager := foldl addLocked (MkMgr [] ∅) sources.

(** [entry]: the index stands for the pointer. *)
Definition entry (m : Manager) (name : string) : option (nat * dbEntry) :=
  i ← byName m !! name; e ← entries m !! i; Some (i, e).

Definition Names (m : Manager) : list string := e_Name <$> entries m.

Definition rescan_found (m : Manager) (found : list DBSource) : Manager :=
  foldl (λ m s, match byName m !! src_Name s with None => addLocked m s | Some _ => m end) m found.

(** [Rescan]; a bad pattern ends it, with what was added so far. *)
Fixpoint rescan_dirs `{FileSystem} (step : nat) (m : Manager) (dirs : list string) : Manager * bool :=
  match dirs with
  | [] => (m, true)
  | dir :: dirs =>
      match scanDBFiles step dir with
      | None => (m, false)
      | Some found => rescan_dirs step (rescan_found m found) dirs
      end
  end.
Definition Rescan_ `{FileSystem} (step : nat) (m : Manager) (dirs : list string) : Manager * bool :=
  match dirs with [] => (m, true) | _ => rescan_dirs step m dirs end.

Definition set_cache_at (m : Manager) (i : nat) (ns : string) (h : Cache * Proc) : Manager :=
  MkMgr (alter (λ e, MkEntry (e_Name e) (e_Path e) (DeclaredMaxKeys e) (DeclaredMaxBytes e)
                       (DeclaredEventRetention e) (<[ns := h]> (caches e))) i (entries m)) (byName m).

(** *** Names stay unique, and a rescan only adds

    [mgr_wf]: [byName] is the index of the entries by their names. *)
Definition mgr_wf (m : Manager) : Prop :=
  ∀ name i, byName m !! name = Some i ↔ e_Name <$> entries m !! i = Some name.

Lemma mgr_wf_NoDup m : mgr_wf m → NoDup (Names m).
Proof.
  intros Hwf. apply NoDup_alt. intros i j name Hi Hj. unfold Names in *.
  rewrite list_lookup_fmap in Hi, Hj. apply Hwf in Hi, Hj. congruence.
Qed.

Lemma addLocked_wf m s : mgr_wf m → byName m !! src_Name s = None → mgr_wf (addLocked m s).
Proof.
  intros Hwf Hnew name i. simpl. destruct (decide (name = src_Name s)) as [->|Hne].
  - rewrite lookup_insert_eq. split.
    + intros [= <-]. by rewrite lookup_app_r, Nat.sub_diag by done.
    + destruct (decide (i < length (entries m))%nat) as [Hi|Hi].
      * rewrite lookup_app_l by done. intros Hn%Hwf. congruence.
      * rewrite lookup_app_r by lia. destruct (i - length (entries m))%nat eqn:E; [|done].
        intros _. f_equal. lia.
  - rewrite lookup_insert_ne by done. rewrite (Hwf name i).
    destruct (decide (i < length (entries m))%nat) as [Hi|Hi].
    + by rewrite lookup_app_l.
    + rewrite lookup_app_r, lookup_ge_None_2 by lia.
      destruct (i - length (entries m))%nat as [|n]; simpl; [|done]. split; [done|]. intros [= ?]. congruence.
Qed.

Lemma rescan_found_spec m found :
  mgr_wf m → mgr_wf (rescan_found m found) ∧ entries m `prefix_of` entries (rescan_found m found) ∧
  ∀ s, s ∈ found → src_Name s ∈ Names (rescan_found m found).
Proof.
  revert m. induction found as [|s found IH]; intros m Hwf; simpl.
  { split_and!; try done. intros s Hs. by apply elem_of_nil in Hs. }
  set (m1 := match byName m !! src_Name s with None => addLocked m s | Some _ => m end).
  assert (mgr_wf m1 ∧ entries m `prefix_of` entries m1 ∧ src_Name s ∈ Names m1) as (H1 & H2 & H3).
  { unfold m1. destruct (byName m !! src_Name s) as [i|] eqn:Hs.
    - split_and!; try done. apply Hwf in Hs. unfold Names. apply list_elem_of_lookup. exists i.
      by rewrite list_lookup_fmap.
    - split_and!; [by apply addLocked_wf|by eexists|]. unfold Names. simpl. rewrite fmap_app. set_solver. }
  destruct (IH m1 H1) as (H4 & H5 & H6). split_and!; [done|by etrans|].
  intros s' [->|Hs']%elem_of_cons; [|by apply H6].
  unfold Names in *. destruct H5 as [k ->]. rewrite fmap_app. set_solver.
Qed.

(** A rescan only adds. The names of the databases stay unique, the
    entries that were there (and the handles they hold) keep their place, and
    unless a directory's pattern is bad every file found is served under its
    name afterwards. *)
Theorem Rescan_only_adds `{FileSystem} step m dirs :
  mgr_wf m →
  let '(m', ok) := Rescan_ step m dirs in
  mgr_wf m' ∧ NoDup (Names m') ∧ entries m `prefix_of` entries m' ∧
  (∀ name i e, entry m name = Some (i, e) → entry m' name = Some (i, e)) ∧
  (ok = true → ∀ dir found s, dir ∈ dirs → scanDBFiles step dir = Some found → s ∈ found →
     src_Name s ∈ Names m').
Proof.
  intros Hwf.
  assert (Hd : let '(m', ok) := rescan_dirs step m dirs in
    mgr_wf m' ∧ entries m `prefix_of` entries m' ∧
    (ok = true → ∀ dir found s, dir ∈ dirs → scanDBFiles step dir = Some found → s ∈ found →
       src_Name s ∈ Names m')).
  { revert m Hwf. induction dirs as [|dir dirs IH]; intros m Hwf; simpl; [set_solver|].
    destruct (scanDBFiles step dir) as [found|] eqn:Hscan; [|by split_and!].
    destruct (rescan_found_spec m found Hwf) as (H1 & H2 & H3). specialize (IH _ H1).
    destruct (rescan_dirs step (rescan_found m found) dirs) as [m' ok]. destruct IH as (H4 & H5 & H6).
    split_and!; [done|by etrans|]. intros Hok dir' found' s [->|Hin]%elem_of_cons Hf Hs; [|by eapply H6].
    assert (found' = found) as -> by congruence. specialize (H3 s Hs).
    unfold Names in *. destruct H5 as [k ->]. rewrite fmap_app. set_solver. }
  assert (Rescan_ step m dirs = rescan_dirs step m dirs) as -> by by destruct dirs.
  destruct (rescan_dirs step m dirs) as [m' ok]. destruct Hd as (H1 & [k Hk] & H3).
  split_and!; [done|by apply mgr_wf_NoDup|by exists k| |done].
  intros name i e. unfold entry. destruct (byName m !! name) as [j|] eqn:Hb; simpl; [|done].
  destruct (entries m !! j) as [e'|] eqn:He; simpl; [|done]. intros [= -> ->].
  apply Hwf in Hb as Hn. rewrite He in Hn. simpl in Hn.
  assert (entries m' !! i = Some e) as Hi by (rewrite Hk; by apply lookup_app_l_Some).
  assert (byName m' !! name = Some i) as -> by (apply H1; by rewrite Hi).
  simpl. by rewrite Hi.
Qed.

(** A directory that gained a file since the server started. *)
Definition toy_files : FileSystem := {|
  stat_fails := λ _, false;
  Glob_db := λ _ dir, if String.eqb dir "data" then Some ["data/b.db"; "data/a.db"] else None
|}.

Lemma Rescan_only_adds_witness :
  let m := NewManager [MkSource "a" "data/a.db" None None None] in
  let '(m', ok) := Rescan_ (H := toy_files) 0 m ["data"] in
  ok = true ∧ Names m' = ["a"; "b"] ∧ NoDup (Names m') ∧ entry m' "a" = entry m "a".
Proof.
  pose (m := NewManager [MkSource "a" "data/a.db" None None None]).
  assert (Hwf : mgr_wf m).
  { intros name i. unfold m. simpl. destruct (decide (name = "a")) as [->|Hne].
    - rewrite lookup_insert_eq. destruct i as [|[]]; naive_solver.
    - rewrite lookup_insert_ne by done. rewrite lookup_empty. destruct i as [|[]]; naive_solver. }
  pose proof (@Rescan_only_adds toy_files 0 m ["data"] Hwf) as Hr.
  assert (HR : Rescan_ (H := toy_files) 0 m ["data"] =
    (addLocked m (MkSource "b" "data/b.db" None None None), true)) by (vm_compute; reflexivity).
  fold m. rewrite HR in *. destruct Hr as (_ & Hnd & _ & He & _).
  split; [reflexivity|]. split; [reflexivity|]. split; [exact Hnd|].
  destruct (entry m "a") as [[i e]|] eqn:Hm; [|vm_compute in Hm; discriminate].
  exact (He _ _ _ Hm).
Defined.

Lemma merge_base_spec seen base seen' :
  merge_base seen base = inr seen' →
  NoDup (src_Name <$> base) ∧ (∀ n, is_Some (seen' !! n) ↔ is_Some (seen !! n) ∨ n ∈ src_Name <$> base) ∧
  (∀ n, n ∈ src_Name <$> base → seen !! n = None).
Proof.
  revert seen. induction base as [|s base IH]; intros seen; simpl.
  - intros [= <-]. split_and!; [constructor|set_solver|set_solver].
  - destruct (seen !! src_Name s) eqn:Hs; [done|]. intros (Hnd & Hseen & Hno)%IH. split_and!.
    + constructor; [|done]. intros Hin%Hno. by rewrite lookup_insert_eq in Hin.
    + intros n. rewrite Hseen, elem_of_cons. destruct (decide (n = src_Name s)) as [->|Hne].
      * rewrite lookup_insert_eq. naive_solver.
      * rewrite lookup_insert_ne by done. naive_solver.
    + intros n [->|Hin]%elem_of_cons; [done|]. apply Hno in Hin.
      destruct (decide (n = src_Name s)) as [->|Hne]; [done|]. by rewrite lookup_insert_ne in Hin.
Qed.

Lemma merge_found_spec seen out found seen' out' :
  (∀ n, is_Some (seen !! n) ↔ n ∈ src_Name <$> out) → NoDup (src_Name <$> out) →
  merge_found seen out found = (seen', out') →
  (∀ n, is_Some (seen' !! n) ↔ n ∈ src_Name <$> out') ∧ NoDup (src_Name <$> out') ∧ out `prefix_of` out'.
Proof.
  revert seen out. induction found as [|s found IH]; intros seen out Hseen Hnd; simpl.
  - intros [= <- <-]. done.
  - destruct (seen !! src_Name s) eqn:Hs; [by apply IH|]. intros Hm.
    destruct (IH (<[src_Name s:=src_Path s]> seen) (out ++ [s])) as (H1 & H2 & H3); [| |done|].
    + intros n. rewrite fmap_app, elem_of_app, <- Hseen. simpl. rewrite list_elem_of_singleton.
      destruct (decide (n = src_Name s)) as [->|Hne]; [rewrite lookup_insert_eq|rewrite lookup_insert_ne by done];
        naive_solver.
    + rewrite fmap_app. apply NoDup_app. split_and!; [done| |apply NoDup_singleton].
      intros n Hn. simpl. rewrite list_elem_of_singleton. intros ->. apply Hseen in Hn as [? ?]. congruence.
    + split_and!; [done|done|]. etrans; [|exact H3]. by eexists.
Qed.

(** The sources that are merged have distinct names, the explicit ones first. *)
Lemma MergeSources_names `{FileSystem} step base dirs out :
  MergeSources step base dirs = inr out → NoDup (src_Name <$> out) ∧ base `prefix_of` out.
Proof.
  unfold MergeSources. destruct (merge_base ∅ base) as [|seen] eqn:Hb; [done|].
  destruct (merge_base_spec _ _ _ Hb) as (Hnd & Hseen & _).
  assert (∀ n, is_Some (seen !! n) ↔ n ∈ src_Name <$> base) as Hs.
  { intros n. rewrite Hseen, lookup_empty. split; [intros [[? [=]]|?]; done|by right]. }
  clear Hb Hseen. revert seen base Hs Hnd. induction dirs as [|dir dirs IH]; intros seen base Hs Hnd; simpl.
  - intros [= <-]. done.
  - destruct (scanDBFiles step dir) as [found|]; [|done].
    destruct (merge_found seen base found) as [seen' out'] eqn:Hf.
    destruct (merge_found_spec _ _ _ _ _ Hs Hnd Hf) as (H1 & H2 & H3).
    intros Hm. destruct (IH _ _ H1 H2 Hm). split; [done|by etrans].
Qed.

Lemma NewManager_wf sources : NoDup (src_Name <$> sources) → mgr_wf (NewManager sources) ∧ Names (NewManager sources) = src_Name <$> sources.
Proof.
  unfold NewManager. intros Hnd.
  assert (∀ m, mgr_wf m → NoDup (Names m ++ (src_Name <$> sources)) →
    mgr_wf (foldl addLocked m sources) ∧ Names (foldl addLocked m sources) = Names m ++ (src_Name <$> sources)) as Hm.
  { clear. induction sources as [|s sources IH]; intros m Hwf Hnd; simpl; [by rewrite app_nil_r|].
    destruct (IH (addLocked m s)) as [H1 H2].
    - apply addLocked_wf; [done|]. destruct (byName m !! src_Name s) as [i|] eqn:Hi; [|done].
      apply Hwf in Hi. apply NoDup_app in Hnd as (_ & Hd & _). exfalso. apply (Hd (src_Name s)); [|left].
      unfold Names. apply list_elem_of_lookup. exists i. by rewrite list_lookup_fmap.
    - unfold Names in *. simpl. rewrite fmap_app, <- app_assoc. done.
    - split; [done|]. rewrite H2. unfold Names. simpl. by rewrite fmap_app, <- app_assoc. }
  destruct (Hm (MkMgr [] ∅)) as [H1 H2]; [|done|done].
  intros name i. simpl. rewrite lookup_empty. by destruct i.
Qed.

(** ** Handlers over several files

    [ui_files] are the database files, by path. A handler runs library methods
    on handles; each method sees the file of its handle and the handle's own
    process state, and other connections interfere as the host says. *)
Record UiState := MkUi {
  ui_mgr : Manager;
  ui_files : gmap string Database;
  ui_step : nat;
  ui_mono : Z
}.

Definition U (A : Type) : Type := UiState → result A * UiState.
#[global] Instance U_ret : MRet U := λ _ a u, (Ok a, u).
#[global] Instance U_bind : MBind U := λ _ _ k m u,
  match m u with
  | (Ok a, u') => k a u'
  | (Err e, u') => (Err e, u')
  | (Hang, u') => (Hang, u')
  end.
Definition u_hang {A} : U A := λ u, (Hang, u).
Definition get_mgr : U Manager := λ u, (Ok (ui_mgr u), u).
Definition set_mgr (m : Manager) : U () := λ u, (Ok tt, MkUi m (ui_files u) (ui_step u) (ui_mono u)).

Inductive open_error := FileMissing | StatFailed | OpenFailed (e : error).

Section ui.
Context {H : Host} {OS : Os} {FS : FileSystem}.

(** [time.Now()] in a handler, in milliseconds. *)
Definition u_now : U Z := λ u,
  (Ok (clock (ui_step u)), MkUi (ui_mgr u) (ui_files u) (S (ui_step u)) (ui_mono u)).

(** Run a library method on the file at [p] with a process state. *)
Definition run_on {A} (m : M A) (p : string) (d : Database) (proc : Proc) (mgr : Manager) (u : UiState)
    : result A * Proc * UiState :=
  let '(r, w) := m (MkWorld d proc (ui_step u) (ui_mono u) false) in
  (r, w_proc w, MkUi mgr (<[p := w_db w]> (ui_files u)) (w_step w) (w_mono w)).

(** [dbEntry.Cache]: the handle of a namespace, opened on first use; a file
    that is not there is an error every time, never created. *)
Definition ui_options (path ns : string) : list Option_ :=
  [WithPath path; WithNamespace ns; WithSweepInterval 0; WithEventRetention NoEventRetention].

Definition entry_Cache (i : nat) (ns : string) : U (open_error + Cache) := λ u,
  match entries (ui_mgr u) !! i with
  | None => (Hang, u)                              (* a nil pointer *)
  | Some e =>
      match caches e !! ns with
      | Some (c, _) => (Ok (inr c), u)
      | None =>
          match ui_files u !! e_Path e with
          | None => (Ok (inl FileMissing), u)
          | Some _ =>
              if stat_fails (e_Path e) then (Ok (inl StatFailed), u)
              else
                let p := match expandHome (e_Path e) with Ok p => p | _ => e_Path e end in
                let d := default (Db ∅ ∅ None) (ui_files u !! p) in
                match run_on (New (ui_options (e_Path e) ns)) p d init_proc (ui_mgr u) u with
                | (Ok c, proc, u') =>
                    (Ok (inr c), MkUi (set_cache_at (ui_mgr u') i ns (c, proc)) (ui_files u') (ui_step u') (ui_mono u'))
                | (Err e, _, u') => (Ok (inl (OpenFailed e)), u')
                | (Hang, _, u') => (Hang, u')
                end
          end
      end
  end.

(** Run a method on an open handle; its error is a value for the caller. *)
Definition on_handle {A} (i : nat) (ns : string) (m : Cache → M A) : U (error + A) := λ u,
  match entries (ui_mgr u) !! i ≫= λ e, caches e !! ns with
  | None => (Hang, u)
  | Some (c, proc) =>
      match ui_files u !! path c with
      | None => (Ok (inl ErrDatabase), u)
      | Some d =>
          let '(r, proc', u') := run_on (m c) (path c) d proc (ui_mgr u) u in
          let u' := MkUi (set_cache_at (ui_mgr u') i ns (c, proc')) (ui_files u') (ui_step u') (ui_mono u') in
          match r with
          | Ok a => (Ok (inr a), u')
          | Err e => (Ok (inl e), u')
          | Hang => (Hang, u')
          end
      end
  end.
End ui.

(** *** What a handler may do to the files *)

Definition files_rel (R : Database → Database → Prop) (f f' : gmap string Database) : Prop :=
  ∀ p, match f !! p, f' !! p with
       | Some d, Some d' => R d d'
       | None, None => True
       | _, _ => False
       end.

#[global] Instance files_rel_preorder R : PreOrder R → PreOrder (files_rel R).
Proof.
  intros HR. split.
  - intros f p. destruct (f !! p); [reflexivity|done].
  - intros f1 f2 f3 H12 H23 p. specialize (H12 p). specialize (H23 p).
    destruct (f1 !! p), (f2 !! p), (f3 !! p); try done. by etrans.
Qed.

Lemma files_rel_mono (R R' : Database → Database → Prop) f f' :
  (∀ d d', R d d' → R' d d') → files_rel R f f' → files_rel R' f f'.
Proof. intros HR Hf p. specialize (Hf p). destruct (f !! p), (f' !! p); auto. Qed.

Lemma files_rel_insert R `{!PreOrder R} f p d d' :
  f !! p = Some d → R d d' → files_rel R f (<[p := d']> f).
Proof.
  intros Hp HR q. destruct (decide (q = p)) as [->|Hne].
  - by rewrite Hp, lookup_insert_eq.
  - rewrite lookup_insert_ne by done. destruct (f !! q); [reflexivity|done].
Qed.

Section ukeeps.
Context {H : Host} {OS : Os} {FS : FileSystem}.

(** A path that [New] opens as it is written. *)
Definition plain_path (p : string) : Prop := p ≠ "" ∧ expandHome p = Ok p.

Record ui_inv (u : UiState) : Prop := {
  inv_mgr : mgr_wf (ui_mgr u);
  inv_plain : Forall (λ e, plain_path (e_Path e)) (entries (ui_mgr u));
  inv_handles i e ns c p : entries (ui_mgr u) !! i = Some e → caches e !! ns = Some (c, p) →
    admin_cache c ∧ namespace c = ns ∧ path c = e_Path e ∧ is_Some (ui_files u !! path c)
}.

(** Whatever the handler returns, the state stays well formed and the files
    are related; no file appears or disappears. *)
Definition ukeeps {A} (R : Database → Database → Prop) (m : U A) : Prop :=
  ∀ u, ui_inv u → ui_inv (m u).2 ∧ files_rel R (ui_files u) (ui_files (m u).2).

Lemma set_cache_at_wf m i ns h : mgr_wf m → mgr_wf (set_cache_at m i ns h).
Proof.
  intros Hwf name j. simpl. rewrite (Hwf name j).
  destruct (decide (j = i)) as [->|Hne]; [|by rewrite list_lookup_alter_ne].
  rewrite list_lookup_alter_eq. by destruct (entries m !! i).
Qed.

(** A handle of the entry [i] is stored while the files move on. *)
Lemma ui_inv_store u i e ns c proc f step mono :
  ui_inv u → entries (ui_mgr u) !! i = Some e → admin_cache c → namespace c = ns → path c = e_Path e →
  is_Some (f !! e_Path e) → (∀ p, is_Some (ui_files u !! p) → is_Some (f !! p)) →
  ui_inv (MkUi (set_cache_at (ui_mgr u) i ns (c, proc)) f step mono).
Proof.
  intros [Hwf Hplain Hh] He Hc Hns Hp Hf Hmono. split; simpl.
  - by apply set_cache_at_wf.
  - apply Forall_lookup. intros j e' Hj. destruct (decide (j = i)) as [->|Hne].
    + rewrite list_lookup_alter_eq, He in Hj. simplify_eq/=.
      rewrite Forall_lookup in Hplain. by eapply Hplain.
    + rewrite list_lookup_alter_ne in Hj by done. rewrite Forall_lookup in Hplain. by eapply Hplain.
  - intros j e' ns' c' p' Hj Hc'. destruct (decide (j = i)) as [->|Hne].
    + rewrite list_lookup_alter_eq, He in Hj. simplify_eq/=.
      destruct (decide (ns' = namespace c)) as [->|Hn].
      * rewrite lookup_insert_eq in Hc'. simplify_eq/=. by rewrite Hp.
      * rewrite lookup_insert_ne in Hc' by done. destruct (Hh _ _ _ _ _ He Hc') as (? & ? & ? & ?). auto.
    + rewrite list_lookup_alter_ne in Hj by done. destruct (Hh _ _ _ _ _ Hj Hc') as (? & ? & ? & ?). auto.
Qed.

Lemma ui_inv_files u f step mono :
  ui_inv u → (∀ p, is_Some (ui_files u !! p) → is_Some (f !! p)) → ui_inv (MkUi (ui_mgr u) f step mono).
Proof.
  intros [Hwf Hplain Hh] Hmono. split; simpl; [done|done|].
  intros j e ns c p Hj Hc. destruct (Hh _ _ _ _ _ Hj Hc) as (? & ? & ? & ?). auto.
Qed.

Lemma files_rel_some R f f' p : files_rel R f f' → is_Some (f !! p) → is_Some (f' !! p).
Proof. intros Hf [d Hd]. specialize (Hf p). rewrite Hd in Hf. destruct (f' !! p); [by eexists|done]. Qed.
End ukeeps.

Section ukeeps_rules.
Context {H : Host} {OS : Os} {FS : FileSystem} (R : Database → Database → Prop) `{HR : !PreOrder R}.

Lemma ukeeps_ret {A} (a : A) : ukeeps R (mret a).
Proof using HR. intros u Hu. simpl. split; [done|reflexivity]. Qed.
Lemma ukeeps_hang {A} : ukeeps R (u_hang (A:=A)).
Proof using HR. intros u Hu. simpl. split; [done|reflexivity]. Qed.
Lemma ukeeps_get_mgr : ukeeps R get_mgr.
Proof using HR. intros u Hu. simpl. split; [done|reflexivity]. Qed.
Lemma ukeeps_now : ukeeps R u_now.
Proof using HR. intros u Hu. simpl. split; [by apply (ui_inv_files u)|reflexivity]. Qed.

Lemma ukeeps_bind {A B} (m : U A) (k : A → U B) :
  ukeeps R m → (∀ a, ukeeps R (k a)) → ukeeps R (m ≫= k).
Proof using HR.
  intros Hm Hk u Hu. unfold mbind, U_bind. destruct (Hm u Hu) as [Hi Hf].
  destruct (m u) as [[a|e|] u']; simpl in *; [|done..].
  destruct (Hk a u' Hi) as [Hi' Hf']. split; [done|by etrans].
Qed.

Lemma ukeeps_on_handle {A} i ns (m : Cache → M A) :
  (∀ c, admin_cache c → keeps R (m c)) → ukeeps R (on_handle i ns m).
Proof using HR.
  intros Hm u Hu. unfold on_handle. destruct (entries (ui_mgr u) !! i) as [e|] eqn:He; simpl; [|split; [done|reflexivity]].
  destruct (caches e !! ns) as [[c proc]|] eqn:Hc; [|split; [done|reflexivity]].
  destruct (inv_handles u Hu _ _ _ _ _ He Hc) as (Hadm & Hns & Hp & [d Hd]). rewrite Hd. unfold run_on.
  pose proof (Hm c Hadm (MkWorld d proc (ui_step u) (ui_mono u) false)) as Hk. simpl in Hk.
  destruct (m c _) as [r w]; simpl in *.
  assert (Hf : files_rel R (ui_files u) (<[path c := w_db w]> (ui_files u))) by by eapply files_rel_insert.
  assert (Hi : ui_inv (MkUi (set_cache_at (ui_mgr u) i ns (c, w_proc w)) (<[path c := w_db w]> (ui_files u)) (w_step w) (w_mono w))).
  { eapply ui_inv_store; try done.
    - rewrite <- Hp. rewrite lookup_insert_eq. by eexists.
    - intros p. by eapply files_rel_some. }
  by destruct r.
Qed.

Lemma New_admin p ns w c w' :
  plain_path p → New (ui_options p ns) w = (Ok c, w') → admin_cache c ∧ namespace c = ns ∧ path c = p.
Proof using Type.
  intros [Hne Hp]. unfold New.
  assert (foldl apply_option default_options (ui_options p ns) =
    MkOptions p ns None None LRU 0 false [] NoEventRetention 0 defaultKeyCap) as -> by done.
  cbn [o_path o_namespace o_publishOps o_eventRetention o_eventMaxCount o_changeKeyCap
       o_maxKeys o_maxBytes o_eviction o_sweepInterval o_strict].
  change (NoEventRetention <=? 0) with false. change ((0 <? 0) || (defaultKeyCap <? 0)) with false.
  rewrite (proj2 (String.eqb_neq p "")), Hp by done.
  unfold mbind, M_bind, lift. change (validOps []) with (Ok (A := list string) []). cbn iota.
  destruct (negb _ && _ && _); [done|]. destruct (initSchemaWithRetry w) as [[v|e|] w1]; [|done..].
  simpl. intros [= <- <-]. by split_and!.
Qed.

Lemma ukeeps_entry_Cache i ns : (∀ opts, keeps R (New opts)) → ukeeps R (entry_Cache i ns).
Proof using HR.
  intros HNew u Hu. unfold entry_Cache. destruct (entries (ui_mgr u) !! i) as [e|] eqn:He; [|split; [done|reflexivity]].
  destruct (caches e !! ns) as [[c proc]|]; [split; [done|reflexivity]|].
  destruct (ui_files u !! e_Path e) as [d|] eqn:Hd; [|split; [done|reflexivity]].
  destruct (stat_fails _); [split; [done|reflexivity]|].
  pose proof (inv_plain u Hu) as Hplain. rewrite Forall_lookup in Hplain.
  specialize (Hplain i e He). destruct Hplain as [Hne Hexp] eqn:E. rewrite Hexp, Hd. unfold run_on. simpl.
  pose proof (HNew (ui_options (e_Path e) ns) (MkWorld d init_proc (ui_step u) (ui_mono u) false)) as Hk.
  destruct (New _ _) as [r w] eqn:Hnew; simpl in *.
  assert (Hf : files_rel R (ui_files u) (<[e_Path e := w_db w]> (ui_files u))) by (eapply files_rel_insert; eauto).
  assert (Hsome : ∀ p, is_Some (ui_files u !! p) → is_Some (<[e_Path e := w_db w]> (ui_files u) !! p))
    by (intros p; by eapply files_rel_some).
  destruct r as [c|err|]; simpl; (split; [|done]); [|by apply ui_inv_files..].
  destruct (New_admin _ _ _ _ _ (conj Hne Hexp) Hnew) as (Hadm & Hns & Hp).
  eapply ui_inv_store; try done. rewrite lookup_insert_eq. by eexists.
Qed.
End ukeeps_rules.

(** Decompose a handler; what is left are the library methods it runs. *)
Ltac ukeeps_step :=
  lazymatch goal with
  | |- forall _, _ => intros
  | |- PreOrder _ => typeclasses eauto
  | |- ukeeps _ (mret _) => apply ukeeps_ret
  | |- ukeeps _ u_hang => apply ukeeps_hang
  | |- ukeeps _ get_mgr => apply ukeeps_get_mgr
  | |- ukeeps _ u_now => apply ukeeps_now
  | |- ukeeps _ (on_handle _ _ _) => apply ukeeps_on_handle
  | |- ukeeps _ (entry_Cache _ _) => apply ukeeps_entry_Cache
  | |- ukeeps _ (_ ≫= _) => apply ukeeps_bind
  | |- ukeeps _ (match ?x with _ => _ end) => destruct x eqn:?
  | |- ukeeps _ (let '(_, _) := ?x in _) => destruct x eqn:?
  | |- ukeeps _ _ => solve [eauto with keeps typeclass_instances]
  end.
Ltac ukeeps_solve := repeat ukeeps_step.
