(* ===== verification/UiView.v ===== *)
(** The pages of one database in the web UI ([ui/viewmodel.go],
    [ui/valuecodes.go], [ui/masking.go] of lytecache-cli): the key browser with
    its sorting and paging, and the value viewer with its masking. *)

From Stdlib Require Import SpecFloat.
From S2P Require Import Prelude GoStd Values Store Engine Channels EventLog Sweep Changes Kv Reads Shared Listing GoBase64 GoText UiSafe.
Open Scope Z_scope.

(** ** Parameters

    [json.MarshalIndent] of a decoded value, and [json.Unmarshal] into [any] as
    far as the masker looks at it. *)
Inductive jtree :=
  | JString (s : string)
  | JArray (l : list jtree)
  | JObject (l : list (string * jtree))
  | JOther.

Class ViewLib (GL : GoLib) := {
  MarshalIndent : any_of float jval → option string;
  json_tree : string → option jtree
}.

(** ** Value type codes (valuecodes.go) *)
Definition typePython : Z := 5.
Definition typeJava : Z := 6.

Definition typeCodeName (code : Z) : string :=
  if code =? typeBytes then "bytes"
  else if code =? typeString then "string"
  else if code =? typeInt then "int"
  else if code =? typeFloat then "float"
  else if code =? typeJSON then "json"
  else if code =? typePython then "python-pickle"
  else if code =? typeJava then "java-serialized"
  else "unknown(" +:+ FormatInt code +:+ ")".

Definition isNonPortable (code : Z) : bool := (code =? typePython) || (code =? typeJava).

Definition nonPortableMessage (code sizeBytes : Z) : string :=
  "written by another language's native serializer (" +:+ typeCodeName code +:+ ", " +:+
  FormatInt sizeBytes +:+ " bytes) -- not viewable here".

(** [base64.StdEncoding], with padding. *)
Definition StdEncode (s : string) : string :=
  EncodeToString RawStd s +:+
  match (String.length s mod 3)%nat with 1%nat => "==" | 2%nat => "=" | _ => "" end.

Section values.
Context {H : Host} {GL : GoLib} {CJ : ChangeJson GL} {VL : ViewLib GL}.

Definition getDecodedValue (c : Cache) (key : string) (code : Z) : M (option (any_of float jval)) :=
  if code =? typeBytes then GetBytes c key
  else if code =? typeString then GetString c key
  else if code =? typeInt then GetInt64 c key
  else if code =? typeFloat then GetFloat64 c key
  else if code =? typeJSON then Get c key DAny
  else fail ErrInvalidArgument.

(** A value of another Go type than its code promises is an error. *)
Definition renderValue (code : Z) (v : any_of float jval) : result string :=
  if code =? typeBytes then
    match v with
    | GBytes b => Ok (StdEncode b +:+ String newline "(" +:+ FormatInt (Z.of_nat (String.length b)) +:+ " bytes, base64)")
    | _ => Err ErrInvalidArgument
    end
  else if code =? typeString then
    match v with GString s => Ok s | _ => Err ErrInvalidArgument end
  else if code =? typeInt then
    match v with GInt KInt64 n => Ok (FormatInt n) | _ => Err ErrInvalidArgument end
  else if code =? typeFloat then
    match v with GFloat64 f => Ok (FormatFloat f) | _ => Err ErrInvalidArgument end
  else if code =? typeJSON then
    match MarshalIndent v with Some s => Ok s | None => Err ErrSerialization end
  else Err ErrInvalidArgument.

(** ** Masking (masking.go) *)
Definition MatchesMaskPattern (key : string) (patterns : list string) : bool :=
  existsb (λ p, match Match p key with Some b => b | None => false end) patterns.

(** [time.Until] of an expiry. *)
Definition Until (e : Z) : M Z := now ← nowMillis; mret (time_sub (e * Millisecond) (now * Millisecond)).
Definition Until_opt (e : option Z) : M (option Z) :=
  match e with Some e => d ← Until e; mret (Some d) | None => mret None end.

(** ** The value viewer *)
Record ValueView := MkValueView {
  vv_DB : string;
  vv_Namespace : string;
  vv_Key : string;
  vv_Found : bool;
  vv_TypeName : string;
  vv_NonPortable : bool;
  vv_Masked : bool;
  vv_Message : string;
  vv_Rendered : string;
  vv_IsJSON : bool;
  vv_SizeBytes : Z;
  vv_AccessCount : Z;
  vv_CreatedAt : Z;
  vv_LastAccessed : Z;
  vv_TTLRemaining : option Z;
  vv_ExpiresAt : option Z
}.

Definition BuildValueView (c : Cache) (db ns key : string) (maskPatterns : list string) : M ValueView :=
  info ← Inspect c key;
  match info with
  | None => mret (MkValueView db ns key false "" false false "" "" false 0 0 0 0 None None)
  | Some info =>
      ttl ← Until_opt (RI_ExpiresAt info);
      let view found nonPortable masked message rendered isJSON :=
        MkValueView db ns key found (typeCodeName (RI_ValueType info)) nonPortable masked message rendered isJSON
          (RI_SizeBytes info) (RI_AccessCount info) (RI_CreatedAt info) (RI_LastAccessed info) ttl (RI_ExpiresAt info) in
      if MatchesMaskPattern key maskPatterns then
        mret (view true false true "value redacted (matches a --mask-keys pattern)" "" false)
      else if isNonPortable (RI_ValueType info) then
        mret (view true true false (nonPortableMessage (RI_ValueType info) (RI_SizeBytes info)) "" false)
      else
        decoded ← getDecodedValue c key (RI_ValueType info);
        match decoded with
        | None => mret (view false false false "" "" false)
        | Some v =>
            rendered ← lift (renderValue (RI_ValueType info) v);
            mret (view true false false "" rendered (RI_ValueType info =? typeJSON))
        end
  end.
End values.

(** ** Sorting

    [sort.SliceStable]: the stable order of a strict weak order. *)
Section stable.
Context {A : Type} (less : A → A → bool).

Fixpoint insert_stable (x : A) (l : list A) : list A :=
  match l with
  | [] => [x]
  | y :: l => if less y x then y :: insert_stable x l else x :: y :: l
  end.
Definition SliceStable (l : list A) : list A := foldr insert_stable [] l.

Lemma insert_stable_perm x l : insert_stable x l ≡ₚ x :: l.
Proof.
  induction l as [|y l IH]; simpl; [done|]. destruct (less y x); [|done].
  rewrite IH. apply Permutation_swap.
Qed.
Lemma SliceStable_perm l : SliceStable l ≡ₚ l.
Proof. induction l as [|x l IH]; simpl; [done|]. by rewrite insert_stable_perm, IH. Qed.

(** In a weak order, no element is less than an earlier one, and elements
    of which neither is less stay as they were. *)
Hypothesis less_asym : ∀ x y, less x y = true → less y x = false.
Hypothesis not_less_trans : ∀ x y z, less y x = false → less z y = false → less z x = false.
Variable before : A → A → Prop.

Definition in_stable_order (a b : A) : Prop := less b a = false ∧ (less a b = false → before a b).

Lemma insert_stable_sorted x l :
  Forall (before x) l → StronglySorted in_stable_order l → StronglySorted in_stable_order (insert_stable x l).
Proof using less_asym not_less_trans.
  induction l as [|y l IH]; simpl; [intros _ _; by repeat constructor|].
  rewrite Forall_cons. intros [Hxy Hxl]. inversion 1 as [|? ? Hl Hy]; subst. destruct (less y x) eqn:Hyx.
  - constructor; [by apply IH|]. apply Forall_forall. intros z.
    rewrite insert_stable_perm. intros [->|Hz]%elem_of_cons; [split; [by apply less_asym|congruence]|].
    rewrite Forall_forall in Hy. by apply Hy.
  - constructor; [by constructor|]. constructor; [by split|]. rewrite !Forall_forall in *.
    intros z Hz. split; [by eapply not_less_trans, Hy|by intros _; apply Hxl].
Qed.

Lemma SliceStable_sorted l : StronglySorted before l → StronglySorted in_stable_order (SliceStable l).
Proof using less_asym not_less_trans.
  induction 1 as [|x l _ IH Hx]; simpl; [constructor|]. apply insert_stable_sorted; [|done].
  rewrite Forall_forall in *. intros y. rewrite SliceStable_perm. apply Hx.
Qed.
End stable.

(** ** The key browser *)
Record KeyRow := MkKeyRow {
  kr_Key : string;
  kr_TypeName : string;
  kr_NonPortable : bool;
  kr_TTLRemaining : option Z;
  kr_ExpiresAt : option Z;
  kr_SizeBytes : Z;
  kr_AccessCount : Z;
  kr_CreatedAt : Z;
  kr_LastAccessed : Z
}.

Record KeyBrowserView := MkKeyBrowser {
  kb_DB : string;
  kb_Namespace : string;
  kb_Glob : string;
  kb_Sort : string;
  kb_PageNum : Z;
  kb_PageSize : Z;
  kb_TotalCount : Z;
  kb_Truncated : bool;
  kb_Rows : list KeyRow
}.

Definition maxKeysScanned : nat := N.to_nat 20000.
Definition defaultPageSize : Z := 50.
Arguments maxKeysScanned : simpl never.

(** The fields of [sortKeyRows]; an unknown one is the key. *)
Definition less_by (field : string) (a b : KeyRow) : bool :=
  if String.eqb field "size" then kr_SizeBytes a <? kr_SizeBytes b
  else if String.eqb field "access_count" then kr_AccessCount a <? kr_AccessCount b
  else if String.eqb field "created" then kr_CreatedAt a <? kr_CreatedAt b
  else if String.eqb field "last_accessed" then kr_LastAccessed a <? kr_LastAccessed b
  else if String.eqb field "ttl" then
    match kr_TTLRemaining a, kr_TTLRemaining b with
    | None, _ => false
    | Some _, None => true
    | Some x, Some y => x <? y
    end
  else str_lt (kr_Key a) (kr_Key b).

Definition sort_less (sortBy : string) : KeyRow → KeyRow → bool :=
  if HasPrefix sortBy "-" then λ a b, less_by (TrimPrefix sortBy "-") b a
  else less_by sortBy.

Definition sortKeyRows (rows : list KeyRow) (sortBy : string) : list KeyRow := SliceStable (sort_less sortBy) rows.

(** The slice [rows[start:end]] of a page, with the arithmetic of [int]; [None]
    where slicing panics. *)
Definition page_rows {A} (page pageSize : Z) (rows : list A) : option (list A) :=
  let total := Z.of_nat (length rows) in
  let start := int64 ((page - 1) * pageSize) in
  let start := if total <? start then total else start in
  let end_ := int64 (start + pageSize) in
  let end_ := if total <? end_ then total else end_ in
  if (0 <=? start) && (start <=? end_)
  then Some (take (Z.to_nat (end_ - start)) (drop (Z.to_nat start) rows)) else None.

Section browser.
Context {H : Host} {GL : GoLib} {CJ : ChangeJson GL} {VL : ViewLib GL}.

(** The first [limit] keys of an iteration over [Keys]: the keys, whether the
    loop was left at the limit, and the error that ended it. *)
Fixpoint keys_upto (fuel limit : nat) (c : Cache) (pattern lastKey : string) (acc : list string)
    : M (list string * bool * option error) :=
  match fuel with
  | O => hang
  | S fuel =>
      r ← attempt (keysPage c pattern lastKey);
      match r with
      | inl e => mret (acc, false, Some e)
      | inr batch =>
          let acc := acc ++ batch in
          if (limit <=? length acc)%nat then mret (take limit acc, true, None)
          else match last batch with
               | None => mret (acc, false, None)
               | Some k =>
                   if (length batch <? keysBatchSize)%nat then mret (acc, false, None)
                   else keys_upto fuel limit c pattern k acc
               end
      end
  end.

Definition keys_first (limit : nat) (c : Cache) (pattern : string) : M (list string * bool * option error) :=
  let pattern := if String.eqb pattern "" then "*" else pattern in
  fuel ← cache_fuel;
  keys_upto fuel limit c pattern "" [].

Fixpoint key_rows (c : Cache) (keys : list string) : M (list KeyRow) :=
  match keys with
  | [] => mret []
  | k :: keys =>
      info ← Inspect c k;
      match info with
      | None => key_rows c keys
      | Some info =>
          ttl ← Until_opt (RI_ExpiresAt info);
          rows ← key_rows c keys;
          mret (MkKeyRow k (typeCodeName (RI_ValueType info)) (isNonPortable (RI_ValueType info)) ttl
                  (RI_ExpiresAt info) (RI_SizeBytes info) (RI_AccessCount info) (RI_CreatedAt info)
                  (RI_LastAccessed info) :: rows)
      end
  end.

(** [BuildKeyBrowser]; the panic of the page slice is an error here, as the
    HTTP server makes one of it. *)
Definition BuildKeyBrowser (c : Cache) (db ns globPattern sortBy : string) (page pageSize : Z) : M KeyBrowserView :=
  let globPattern := if String.eqb globPattern "" then "*" else globPattern in
  let pageSize := if pageSize <=? 0 then defaultPageSize else pageSize in
  let page := if page <=? 0 then 1 else page in
  '(keys, truncated, err) ← keys_first maxKeysScanned c globPattern;
  match err with
  | Some e => fail e
  | None =>
      rows ← key_rows c keys;
      let rows := sortKeyRows rows sortBy in
      match page_rows page pageSize rows with
      | None => fail ErrInvalidArgument
      | Some shown =>
          mret (MkKeyBrowser db ns globPattern sortBy page pageSize (Z.of_nat (length rows)) truncated shown)
      end
  end.
End browser.

(** [TTLDisplay] of a row and of the viewer. *)
Definition TTLDisplay (ttl : option Z) : string :=
  match ttl with
  | None => "-"
  | Some d => if d <=? 0 then "expired" else Duration_String (Round d Second)
  end.

(** An arrow on the column that is sorted by. *)
Definition SortIndicator (v : KeyBrowserView) (field : string) : string :=
  if String.eqb (kb_Sort v) field then "▲"
  else if String.eqb (kb_Sort v) ("-" +:+ field) then "▼" else "".
(** The order that a click on a column asks for. *)
Definition SortNext (v : KeyBrowserView) (field : string) : string :=
  if String.eqb (kb_Sort v) field then "-" +:+ field else field.

(** ** What the key browser shows *)
Section browser_spec.
Context {H : Host} {GL : GoLib} {CJ : ChangeJson GL} {VL : ViewLib GL}.

Lemma keys_loop_prefix fuel c pattern k acc w ks e w' :
  keys_loop fuel c pattern k acc w = (Ok (ks, e), w') → acc `prefix_of` ks.
Proof using Type.
  revert k acc w. induction fuel as [|fuel IH]; intros k acc w; cbn [keys_loop]; [done|].
  unfold mbind, M_bind. destruct (attempt (keysPage c pattern k) w) as [[[e'|batch]|e'|] w1]; [|..|done|done].
  - intros [= <- <- <-]. done.
  - destruct (last batch) as [x|]; [|intros [= <- <- <-]; done].
    destruct (Nat.ltb _ _); [intros [= <- <- <-]; by eexists|].
    intros Hr%IH. etrans; [|exact Hr]. by eexists.
Qed.

(** Below the limit, the bounded iteration is the whole one. *)
Lemma keys_upto_all fuel limit c pattern k acc w ks w' :
  keys_loop fuel c pattern k acc w = (Ok (ks, None), w') → (length ks < limit)%nat →
  keys_upto fuel limit c pattern k acc w = (Ok (ks, false, None), w').
Proof using Type.
  revert k acc w. induction fuel as [|fuel IH]; intros k acc w; cbn [keys_loop keys_upto]; [done|].
  unfold mbind, M_bind. destruct (attempt (keysPage c pattern k) w) as [[[e'|batch]|e'|] w1]; [done| |done|done].
  intros Hr Hlen.
  assert (acc ++ batch `prefix_of` ks) as Hpre.
  { destruct (last batch) as [x|] eqn:Hlast.
    - destruct (Nat.ltb _ _); [by revert Hr; intros [= <- <-]|]. by eapply keys_loop_prefix.
    - apply last_None in Hlast as ->. revert Hr. intros [= <- <-]. by rewrite app_nil_r. }
  apply prefix_length in Hpre. rewrite (proj2 (Nat.leb_gt _ _)) by lia.
  destruct (last batch) as [x|] eqn:Hlast.
  - destruct (Nat.ltb _ _); [by revert Hr; intros [= <- <-]|]. by apply IH.
  - apply last_None in Hlast as ->. revert Hr. intros [= <- <-]. by rewrite app_nil_r.
Qed.

(** The rows of the page, from the cache table. *)
Definition key_row (k : string) (r : row) : KeyRow :=
  MkKeyRow k (typeCodeName (value_type r)) (isNonPortable (value_type r)) None None
    (size_bytes r) (access_count r) (created_at r) (last_accessed r).

Definition listed_rows (ns pattern : string) (t : cache_table) : list KeyRow :=
  omap (λ k, key_row k <$> t !! (ns, k)) (Reads.page ns pattern "" 0 t).

Definition row_info (r : row) : RowInfo :=
  MkRowInfo (value_type r) (size_bytes r) (created_at r) (expires_at r) (last_accessed r) (access_count r).

Lemma wp_Inspect_lasting `{!Quiet H} c k r w (Q : result (option RowInfo) → World → Prop) :
  db_cache (w_db w) !! (namespace c, k) = Some r → expires_at r = None →
  Q (Ok (Some (row_info r))) (advance 0 w) → wp (Inspect c k) w Q.
Proof using Type.
  intros Hr He HQ. unfold Inspect. apply wp_bind, wp_query. rewrite Hr, He.
  apply wp_bind, wp_ret. unfold expired. rewrite He. apply wp_ret. by rewrite <- He.
Qed.

Lemma key_rows_spec `{!Quiet H} c keys w (Q : result (list KeyRow) → World → Prop) :
  (∀ k, k ∈ keys → ∃ r, db_cache (w_db w) !! (namespace c, k) = Some r ∧ expires_at r = None) →
  (∀ w', w_db w' = w_db w →
     Q (Ok (omap (λ k, key_row k <$> db_cache (w_db w) !! (namespace c, k)) keys)) w') →
  wp (key_rows c keys) w Q.
Proof using Type.
  revert w Q. induction keys as [|k keys IH]; intros w Q Hk HQ; cbn [key_rows]; [wp_go; by apply HQ|].
  destruct (Hk k ltac:(left)) as (r & Hr & He). apply wp_bind, (wp_Inspect_lasting c k r); [done|done|].
  cbn [row_info RI_ExpiresAt]. rewrite He. cbn [Until_opt]. wp_go. apply IH; simpl; [set_solver|].
  intros w' Hd. wp_go. specialize (HQ w' Hd). simpl in HQ. rewrite Hr in HQ. exact HQ.
Qed.
End browser_spec.

(** ** The order of the table is a weak order *)
Lemma less_by_asym f a b : less_by f a b = true → less_by f b a = false.
Proof.
  unfold less_by. repeat (destruct (String.eqb _ _); [intros; bool_to_prop; lia|]).
  destruct (String.eqb _ _).
  - destruct (kr_TTLRemaining a), (kr_TTLRemaining b); intros; bool_to_prop; try done; lia.
  - intros [H1 H2]%str_lt_spec. apply not_true_is_false. intros [H3 H4]%str_lt_spec.
    by apply H2, (anti_symm str_le).
Qed.

Lemma less_by_weak f a b c : less_by f b a = false → less_by f c b = false → less_by f c a = false.
Proof.
  unfold less_by. repeat (destruct (String.eqb _ _); [intros; bool_to_prop; lia|]).
  destruct (String.eqb _ _).
  - destruct (kr_TTLRemaining a), (kr_TTLRemaining b), (kr_TTLRemaining c); intros; bool_to_prop; try done; lia.
  - intros H1 H2. apply not_true_is_false. intros [H3 H4]%str_lt_spec.
    assert (∀ x y, str_lt x y = false → str_le y x) as Hle.
    { intros x y Hf. destruct (total str_le x y) as [Hxy|]; [|done].
      destruct (decide (x = y)) as [->|Hne]; [reflexivity|].
      exfalso. apply not_true_iff_false in Hf. apply Hf, str_lt_spec. done. }
    apply Hle in H1, H2. apply H4, (anti_symm str_le); [done|]. by etrans.
Qed.

Lemma sort_less_asym s a b : sort_less s a b = true → sort_less s b a = false.
Proof. unfold sort_less. destruct (HasPrefix s "-"); apply less_by_asym. Qed.
Lemma sort_less_weak s a b c : sort_less s b a = false → sort_less s c b = false → sort_less s c a = false.
Proof. unfold sort_less. destruct (HasPrefix s "-"); [intros; by eapply less_by_weak|apply less_by_weak]. Qed.

(** What a value of [sort] asks for: the values it documents, ascending or,
    with a leading [-], descending, and rows that agree in the order of their
    keys. Rows without expiry come after all others for [ttl], and so before
    them for [-ttl]. *)
Definition key_before (a b : KeyRow) : Prop := str_lt (kr_Key a) (kr_Key b) = true.

Definition numeric_fields : list (string * (KeyRow → Z)) :=
  [("size", kr_SizeBytes); ("access_count", kr_AccessCount);
   ("created", kr_CreatedAt); ("last_accessed", kr_LastAccessed)].

Definition ttl_before (x y : option Z) : Prop :=
  match x, y with
  | Some x, Some y => x < y
  | Some _, None => True
  | None, _ => False
  end.

Record asked_order (sortBy : string) (a b : KeyRow) : Prop := {
  asked_numeric name f : (name, f) ∈ numeric_fields → sortBy = name →
    f a < f b ∨ f a = f b ∧ key_before a b;
  asked_numeric_desc name f : (name, f) ∈ numeric_fields → sortBy = "-" +:+ name →
    f b < f a ∨ f a = f b ∧ key_before a b;
  asked_ttl : sortBy = "ttl" →
    ttl_before (kr_TTLRemaining a) (kr_TTLRemaining b) ∨ kr_TTLRemaining a = kr_TTLRemaining b ∧ key_before a b;
  asked_ttl_desc : sortBy = "-ttl" →
    ttl_before (kr_TTLRemaining b) (kr_TTLRemaining a) ∨ kr_TTLRemaining a = kr_TTLRemaining b ∧ key_before a b;
  asked_key : sortBy = "" ∨ sortBy = "key" → key_before a b;
  asked_key_desc : sortBy = "-key" → key_before b a
}.

Lemma str_lt_trichotomy a b : str_lt a b = false → str_lt b a = false → a = b.
Proof.
  intros H1 H2. destruct (decide (a = b)) as [|Hne]; [done|]. exfalso.
  destruct (total str_le a b); [apply not_true_iff_false in H1; apply H1|apply not_true_iff_false in H2; apply H2];
    by apply str_lt_spec.
Qed.

Lemma sort_less_numeric name f a b : (name, f) ∈ numeric_fields →
  sort_less name a b = (f a <? f b) ∧ sort_less ("-" +:+ name) a b = (f b <? f a).
Proof.
  unfold numeric_fields. rewrite !elem_of_cons, elem_of_nil. intros Hin. by destruct_or! Hin; simplify_eq.
Qed.

Lemma numeric_order (x y : Z) (P : Prop) : (y <? x) = false → ((x <? y) = false → P) → x < y ∨ x = y ∧ P.
Proof. rewrite !Z.ltb_ge. intros. destruct (decide (x < y)); [by left|right; split; [lia|naive_solver lia]]. Qed.

Lemma ttl_order (x y : option Z) (P : Prop) :
  let less a b := match a, b with None, _ => false | Some _, None => true | Some m, Some n => m <? n end in
  less y x = false → (less x y = false → P) → ttl_before x y ∨ x = y ∧ P.
Proof.
  intros less. unfold less, ttl_before. destruct x as [x|], y as [y|]; [|auto|done|auto].
  intros Hle Htie. destruct (numeric_order _ _ _ Hle Htie) as [|[-> ?]]; auto.
Qed.

Lemma asked_order_spec s a b : in_stable_order (sort_less s) key_before a b → asked_order s a b.
Proof.
  intros [Hle Htie]. split.
  - intros name f Hin ->. rewrite !(proj1 (sort_less_numeric _ _ _ _ Hin)) in *. by apply numeric_order.
  - intros name f Hin ->. rewrite !(proj2 (sort_less_numeric _ _ _ _ Hin)) in *.
    destruct (numeric_order _ _ _ Hle Htie) as [|[-> ?]]; auto.
  - intros ->. by apply ttl_order.
  - intros ->. destruct (ttl_order (kr_TTLRemaining b) (kr_TTLRemaining a) (key_before a b)) as [|[-> ?]]; auto.
  - intros [->| ->]; unfold key_before in *; (destruct (str_lt (kr_Key a) (kr_Key b)) eqn:E; [done|]); by apply Htie.
  - intros ->. unfold key_before in *. destruct (str_lt (kr_Key b) (kr_Key a)) eqn:E; [done|].
    assert (str_lt (kr_Key a) (kr_Key b) = true) as H by by apply Htie.
    assert (str_lt (kr_Key a) (kr_Key b) = false) as H' by exact Hle. congruence.
Qed.

Lemma sortKeyRows_spec rows s :
  StronglySorted key_before rows →
  sortKeyRows rows s ≡ₚ rows ∧ StronglySorted (asked_order s) (sortKeyRows rows s).
Proof.
  intros Hs. split; [apply SliceStable_perm|].
  assert (StronglySorted (in_stable_order (sort_less s) key_before) (sortKeyRows rows s)) as Hst
    by (apply SliceStable_sorted; [apply sort_less_asym|apply sort_less_weak|done]).
  induction Hst; constructor; [done|]. eapply Forall_impl; [eassumption|]. apply asked_order_spec.
Qed.

(** ** Paging *)
Lemma page_rows_slice {A} (p size : Z) (rows : list A) :
  1 ≤ p → 0 < size → p * size ≤ MaxInt64 → Z.of_nat (length rows) + size ≤ MaxInt64 →
  page_rows p size rows = Some (take (Z.to_nat size) (drop (Z.to_nat ((p - 1) * size)) rows)).
Proof.
  intros Hp Hs Hps Hlen. unfold page_rows. set (total := Z.of_nat (length rows)) in *.
  assert (0 ≤ (p - 1) * size ≤ MaxInt64) as Hstart by nia.
  rewrite (int64_id ((p - 1) * size)) by (apply in_int64_spec; unfold MinInt64, MaxInt64 in *; lia).
  destruct (Z.ltb_spec total ((p - 1) * size)) as [Hlt|Hge].
  - rewrite (int64_id (total + size)) by (apply in_int64_spec; unfold MinInt64, MaxInt64 in *; lia).
    rewrite (proj2 (Z.ltb_lt total (total + size))) by lia.
    rewrite (proj2 (Z.leb_le 0 total)), Z.leb_refl by lia. simpl. f_equal.
    rewrite Z.sub_diag, take_0, (drop_ge rows (Z.to_nat ((p - 1) * size))) by lia. by rewrite take_nil.
  - rewrite (int64_id ((p - 1) * size + size)) by (apply in_int64_spec; unfold MinInt64, MaxInt64 in *; lia).
    destruct (Z.ltb_spec total ((p - 1) * size + size)) as [Hlt|Hge'].
    + rewrite !(proj2 (Z.leb_le _ _)) by lia. simpl. f_equal.
      rewrite !take_ge; [done| |]; rewrite length_drop; lia.
    + rewrite !(proj2 (Z.leb_le _ _)) by lia. simpl. f_equal. f_equal. lia.
Qed.

(** The pages one after the other are the list. *)
Lemma slices_concat {A} (n k : nat) (l : list A) :
  concat ((λ i, take k (drop (i * k) l)) <$> seq 0 n) = take (n * k) l.
Proof.
  induction n as [|n IH]; [by rewrite take_0|].
  rewrite seq_S, fmap_app, concat_app, IH. simpl. rewrite app_nil_r.
  replace (k + n * k)%nat with (n * k + k)%nat by lia. by rewrite take_take_drop.
Qed.

Section browser_pages.
Context {H : Host} {GL : GoLib} {CJ : ChangeJson GL} {VL : ViewLib GL}.

#[local] Instance str_lt_antisymm : AntiSymm (=) (λ a b, str_lt a b = true).
Proof. intros a b [H1 _]%str_lt_spec [H2 _]%str_lt_spec. by apply (anti_symm str_le). Qed.

Lemma clock_bounded (n : nat) : ∃ T, ∀ m, (m < n)%nat → clock m ≤ T.
Proof using Type.
  induction n as [|n [T IH]]; [exists 0; lia|]. exists (Z.max T (clock n)). intros m Hm.
  destruct (decide (m = n)) as [->|]; [lia|]. specialize (IH m). lia.
Qed.

Lemma increasing_NoDup (l : list string) : increasing l → NoDup l.
Proof using Type.
  induction 1 as [|x l Hs IH Hx]; constructor; [|done]. intros Hin.
  rewrite Forall_forall in Hx. by apply Hx, str_lt_spec in Hin as [_ ?].
Qed.

Lemma listed_rows_sorted ns pattern t : StronglySorted key_before (listed_rows ns pattern t).
Proof using Type.
  unfold listed_rows. pose proof (increasing_page ns pattern "" 0 t) as Hs.
  induction Hs as [|k l _ IH Hk]; simpl; [constructor|].
  destruct (t !! (ns, k)) as [r|]; simpl; [|done]. constructor; [done|].
  apply Forall_forall. intros x (k' & Hin & Hx)%list_elem_of_omap.
  destruct (t !! (ns, k')); simplify_eq/=. exact (proj1 (Forall_forall _ _) Hk _ Hin).
Qed.

(** The keys that the browser collects, when no row of the namespace expires. *)
Lemma keys_first_spec `{!Quiet H} c pattern w :
  let pat := if String.eqb pattern "" then "*" else pattern in
  let l := Reads.page (namespace c) pat "" 0 (db_cache (w_db w)) in
  (∀ k r, db_cache (w_db w) !! (namespace c, k) = Some r → expires_at r = None) →
  (length l < maxKeysScanned)%nat →
  ∃ w', keys_first maxKeysScanned c pattern w = (Ok (l, false, None), w') ∧ w_db w' = w_db w.
Proof using Type.
  intros pat l Hlast Hlen. set (t := db_cache (w_db w)) in *.
  assert (∀ T r k, t !! (namespace c, k) = Some r → live T r = true) as Hlive.
  { intros T r k Hr. unfold live. by rewrite (Hlast _ _ Hr). }
  assert (wp (keys_loop (S (size t)) c pat "" []) w (λ r w', r = Ok (l, None) ∧ w_db w' = w_db w)) as [Hr Hd].
  { apply (keys_all_spec c pat w). intros w' ks Hd Hs Hin Hall. split; [|done]. do 2 f_equal.
    apply (StronglySorted_unique _); [done|apply increasing_page|].
    apply NoDup_Permutation; [by apply increasing_NoDup|apply increasing_NoDup, increasing_page|].
    intros k. unfold l. rewrite elem_of_page. split.
    - intros (Hne & Hg & r & m & Hr & _)%Hin. split_and!; [done|by apply str_lt_nil|]. eauto.
    - intros (Hg & Hne%str_lt_nil & r & Hr & _). destruct (clock_bounded (w_step w')) as [T HT].
      eapply (Hall k r T); eauto. intros m Hm. apply HT. lia. }
  exists (keys_loop (S (size t)) c pat "" [] w).2. split; [|done].
  unfold keys_first, mbind, M_bind, cache_fuel. fold pat. fold t.
  apply keys_upto_all; [|done]. rewrite <- Hr. by destruct (keys_loop _ _ _ _ _ _).
Qed.

Lemma BuildKeyBrowser_page `{!Quiet H} c db ns pattern sortBy p size w :
  let pat := if String.eqb pattern "" then "*" else pattern in
  let rows := sortKeyRows (listed_rows (namespace c) pat (db_cache (w_db w))) sortBy in
  (∀ k r, db_cache (w_db w) !! (namespace c, k) = Some r → expires_at r = None) →
  (length (Reads.page (namespace c) pat "" 0 (db_cache (w_db w))) < maxKeysScanned)%nat →
  1 ≤ p → 0 < size → p * size ≤ MaxInt64 → Z.of_nat (length rows) + size ≤ MaxInt64 →
  ∃ w', w_db w' = w_db w ∧
    BuildKeyBrowser c db ns pattern sortBy p size w =
    (Ok (MkKeyBrowser db ns pat sortBy p size (Z.of_nat (length rows)) false
           (take (Z.to_nat size) (drop (Z.to_nat ((p - 1) * size)) rows))), w').
Proof using Type.
  intros pat rows Hlast Hlen Hp Hsize Hps Htot.
  assert (String.eqb pat "" = false) as Hpat.
  { unfold pat. destruct (String.eqb_spec pattern ""); [done|]. by apply String.eqb_neq. }
  destruct (keys_first_spec c pat w) as (w1 & Hk & Hd); rewrite ?Hpat; [done|done|].
  rewrite Hpat in Hk.
  unfold BuildKeyBrowser. fold pat. rewrite (proj2 (Z.leb_gt size 0)), (proj2 (Z.leb_gt p 0)) by lia.
  unfold mbind at 1, M_bind at 1. rewrite Hk. cbn iota beta.
  assert (wp (key_rows c (Reads.page (namespace c) pat "" 0 (db_cache (w_db w)))) w1
    (λ r w', r = Ok (listed_rows (namespace c) pat (db_cache (w_db w))) ∧ w_db w' = w_db w)) as [Hr Hdb].
  { apply key_rows_spec; rewrite Hd; [|by intros w' ->].
    intros k (_ & _ & r & Hr & _)%elem_of_page. eauto. }
  unfold mbind at 1, M_bind at 1. destruct (key_rows c _ w1) as [r w2]. simpl in Hr, Hdb. subst r.
  cbn iota beta. fold rows. rewrite page_rows_slice by done. by exists w2.
Qed.

End browser_pages.

(** Three keys, largest first, two to a page. *)
Definition toy_view : ViewLib toy_lib :=
  @Build_ViewLib toy_lib (λ _, Some "json") (λ s, if String.eqb s "" then None else Some (JString s)).

Definition browser_rows : cache_table :=
  <[("default", "a") := Row "x" typeString 0 None 0 1 5]>
  (<[("default", "b") := Row "y" typeInt 0 None 0 0 9]>
  (<[("default", "c") := Row "z" typeJava 0 None 0 0 2]> ∅)).

