(* ===== verification/UiEvents.v ===== *)
(** The events tab, the dashboard and the search of the web UI
    ([ui/events.go] and [ui/viewmodel.go] of lytecache-cli). Instants and
    durations that only a template formats are kept as numbers. *)

From Stdlib Require Import SpecFloat.
From S2P Require Import Prelude GoStd Values Store Engine Channels EventLog EventAdmin Sweep Changes Kv Reads Open GoBase64 GoText UiSafe UiAccounts UiDb UiView.
Open Scope Z_scope.

Definition eventsTailLimit : Z := 100.
Definition eventPayloadPreviewMax : nat := 200.
Definition publishRateWindow : Z := 5 * Minute.
Definition defaultEventRetention : Z := Hour.

(** ** Masking of payloads *)
Record eventMasker := MkMasker { m_keys : list string; m_channels : list string }.

(** Every string and every field name, at any depth. *)
Fixpoint jsonMentionsMasked (patterns : list string) (v : jtree) : bool :=
  match v with
  | JString s => MatchesMaskPattern s patterns
  | JArray l => existsb (jsonMentionsMasked patterns) l
  | JObject l => existsb (λ '(k, x), MatchesMaskPattern k patterns || jsonMentionsMasked patterns x) l
  | JOther => false
  end.

Definition humanDuration (d : Z) : string :=
  if d <? 0 then "0s"
  else if d <? Second then FormatInt (Milliseconds d) +:+ "ms"
  else if d <? Minute then format_fixed 1 (Seconds d) +:+ "s"
  else if d <? Hour then
    FormatInt (int_of_float (Minutes d)) +:+ "m" +:+
    pad_left 2 (FormatInt (Z.rem (int_of_float (Seconds d)) 60)) +:+ "s"
  else if d <? 48 * Hour then
    FormatInt (int_of_float (Hours d)) +:+ "h" +:+
    pad_left 2 (FormatInt (Z.rem (int_of_float (Minutes d)) 60)) +:+ "m"
  else
    FormatInt (Z.quot (int_of_float (Hours d)) 24) +:+ "d" +:+
    pad_left 2 (FormatInt (Z.rem (int_of_float (Hours d)) 24)) +:+ "h".

(** [now.Sub] of two instants in milliseconds. *)
Definition sub_ms (now t : Z) : Z := time_sub (now * Millisecond) (t * Millisecond).

(** ** One line of the live tail *)
Record EventRow_ := MkTailRow {
  er_Seq : Z;
  er_Channel : string;
  er_Namespace : string;
  er_Time : Z;
  er_Age : string;
  er_SizeBytes : Z;
  er_TypeName : string;
  er_Preview : string;
  er_PreviewNote : string;
  er_Masked : bool
}.

(** The last start of a rune at or before byte [n]. *)
Fixpoint rune_cut (s : string) (n : nat) : nat :=
  match n with
  | O => O
  | S k => match String.get n s with
           | Some a => if is_cont a then rune_cut s k else n
           | None => n
           end
  end.

(** A preview that is too long is cut at a rune. *)
Definition cut_preview (preview note : string) : string * string :=
  if (eventPayloadPreviewMax <? String.length preview)%nat
  then (take_str (rune_cut preview eventPayloadPreviewMax) preview +:+ "…", "truncated")
  else (preview, note).

Record EventDetailView := MkDetail {
  ed_DB : string;
  ed_Found : bool;
  ed_Row : option EventRow_;
  ed_NonPortable : bool;
  ed_Message : string;
  ed_Rendered : string;
  ed_IsJSON : bool
}.

Section masked.
Context {GL : GoLib} {VL : ViewLib GL}.

(** Why the payload is redacted, or the empty string. *)
Definition reason (m : eventMasker) (e : Event) : string :=
  if existsb (λ p, match Match p (Channel e) with Some b => b | None => false end) (m_channels m)
  then "payload redacted (channel matches a --mask-channels pattern)"
  else if bool_decide (m_keys m = []) || Null e then ""
  else
    let mentioned := "payload redacted (references a key matching a --mask-keys pattern)" in
    if PayloadType e =? typeString then
      if MatchesMaskPattern (Payload e) (m_keys m) then mentioned else ""
    else if PayloadType e =? typeJSON then
      match json_tree (Payload e) with
      | None => "payload redacted (unparseable JSON cannot be checked against --mask-keys)"
      | Some v => if jsonMentionsMasked (m_keys m) v then mentioned else ""
      end
    else "".

Definition eventRow (e : Event) (mask : eventMasker) (now : Z) : EventRow_ :=
  let code := PayloadType e in
  let size := Z.of_nat (String.length (Payload e)) in
  let why := reason mask e in
  let row := MkTailRow (Seq e) (Channel e) (EvNamespace e) (CreatedAt e) (humanDuration (sub_ms now (CreatedAt e)))
               size (typeCodeName code) in
  if negb (String.eqb why "") then row "" why true
  else
    let '(preview, note) :=
      if Null e then ("null", "")
      else if isNonPortable code then ("", nonPortableMessage code size)
      else if code =? typeBytes then (StdEncode (Payload e), "base64")
      else (Join (Fields (Payload e)) " ", "") in
    let '(preview, note) := cut_preview preview note in
    row preview note false.

Definition decodeEventPayload (e : Event) : result (any_of float jval) :=
  let code := PayloadType e in
  RawValue_Decode (MkRawValue (Payload e) code)
    (if code =? typeBytes then DBytes
     else if code =? typeString then DString
     else if code =? typeInt then DInt KInt64
     else if code =? typeFloat then DFloat64
     else DAny).

(** What the detail page shows of a found event. *)
Definition event_detail (db : string) (e : Event) (mask : eventMasker) (now : Z) : result EventDetailView :=
  let row := eventRow e mask now in
  let code := PayloadType e in
  let view := MkDetail db true (Some row) in
  if er_Masked row then Ok (view false (er_PreviewNote row) "" false)
  else if isNonPortable code then
    Ok (view true (nonPortableMessage code (Z.of_nat (String.length (Payload e)))) "" false)
  else if Null e then Ok (view false "" "null" false)
  else
    match decodeEventPayload e with
    | Ok v =>
        match renderValue code v with
        | Ok s => Ok (view false "" s (code =? typeJSON))
        | Err e => Err e
        | Hang => Hang
        end
    | Err e => Err e
    | Hang => Hang
    end.
End masked.

(** ** The events tab *)
Record CursorRow := MkCursorRow {
  cr_Namespace : string;
  cr_Name : string;
  cr_Seq : Z;
  cr_LagEvents : Z;
  cr_LagSeconds : spec_float;
  cr_LagKnown : bool;
  cr_Lost : bool;
  cr_Ahead : bool
}.

(** [LagDisplay]. *)
Definition LagDisplay (r : CursorRow) : string :=
  if negb (cr_LagKnown r) then "–"
  else if SFeqb (cr_LagSeconds r) (S754_zero false) then "0s"
  else humanDuration (int_of_float (fmul (cr_LagSeconds r) (float64_of Second))).

Record ChannelRow := MkChannelRow {
  ch_Channel : string;
  ch_Count : Z;
  ch_OldestAge : string;
  ch_NewestAge : string;
  ch_Bytes : Z
}.

Record EventsView := MkEventsView {
  ev_DB : string;
  ev_Enabled : bool;
  ev_Filter : string;
  ev_Count : Z;
  ev_OldestSeq : Z;
  ev_NewestSeq : Z;
  ev_OldestAge : string;
  ev_NewestAge : string;
  ev_PayloadBytes : Z;
  ev_Retention : string;
  ev_RetentionDeclared : bool;
  ev_PublishRate : spec_float;
  ev_Channels : list ChannelRow;
  ev_Cursors : list CursorRow;
  ev_LostCursors : Z;
  ev_Rows : list EventRow_
}.

Definition retentionFor (e : dbEntry) : string * bool :=
  match DeclaredEventRetention e with
  | Some d => (Duration_String d, true)
  | None => (Duration_String defaultEventRetention, false)
  end.

(** [max(0, x)]. *)
Definition max0 (x : spec_float) : spec_float := if SFltb (S754_zero false) x then x else S754_zero false.

Definition lost_cursors (rows : list CursorRow) : Z :=
  Z.of_nat (count_if (λ r, cr_Lost r || cr_Ahead r) rows).

Section events_view.
Context {H : Host} {GL : GoLib} {VL : ViewLib GL}.

(** Events per minute over the trailing window. *)
Definition publishRate (now : Z) : M spec_float :=
  n ← EventCountSince (now - Milliseconds publishRateWindow);
  mret (fdiv (float64_of n) (Minutes publishRateWindow)).

Definition cursor_row (newest oldest now : Z) (cur : CursorInfo) : M CursorRow :=
  let seq := CU_Seq cur in
  let row := MkCursorRow (CU_Namespace cur) (CU_Name cur) seq in
  if newest <? seq then mret (row 0 (S754_zero false) false false true)
  else if seq =? newest then mret (row 0 (S754_zero false) true false false)
  else
    next ← RecentEvents 1 seq [];
    let lost := seq <? oldest - 1 in
    mret match next with
         | [e] => row (int64 (newest - seq)) (max0 (Seconds (sub_ms now (CreatedAt e)))) true lost false
         | _ => row (int64 (newest - seq)) (S754_zero false) false lost false
         end.

Fixpoint cursor_rows (newest oldest now : Z) (cursors : list CursorInfo) : M (list CursorRow) :=
  match cursors with
  | [] => mret []
  | cur :: cursors =>
      r ← cursor_row newest oldest now cur;
      rows ← cursor_rows newest oldest now cursors;
      mret (r :: rows)
  end.

Definition BuildCursorRows (c : Cache) (info : EventInfo) (now : Z) : M (list CursorRow) :=
  cursors ← Cursors c;
  let oldest := if 0 <? EI_Count info then EI_OldestSeq info else int64 (EI_NewestSeq info + 1) in
  cursor_rows (EI_NewestSeq info) oldest now cursors.

(** The age of an instant; a zero [time.Time] does not occur with events. *)
Definition age (now : Z) (t : option Z) : string := humanDuration (sub_ms now (default 0 t)).

Definition channel_row (now : Z) (ch : ChannelInfo) : ChannelRow :=
  MkChannelRow (CI_Channel ch) (CI_Count ch) (age now (CI_OldestAt ch)) (age now (CI_NewestAt ch)) (CI_PayloadBytes ch).

Definition BuildEventsView (c : Cache) (e : dbEntry) (filter : string) (mask : eventMasker) (now : Z) : M EventsView :=
  let filter := TrimSpaceUnicode filter in
  let '(retention, declared) := retentionFor e in
  info ← EventStats;
  if negb (EI_Enabled info) then
    mret (MkEventsView (e_Name e) false filter 0 0 0 "" "" 0 retention declared (S754_zero false) [] [] 0 [])
  else
    rate ← publishRate now;
    channels ← EventChannelStats;
    cursors ← BuildCursorRows c info now;
    events ← RecentEvents eventsTailLimit (-1) (Fields filter);
    let some := 0 <? EI_Count info in
    mret (MkEventsView (e_Name e) true filter (EI_Count info) (EI_OldestSeq info) (EI_NewestSeq info)
            (if some then age now (EI_OldestAt info) else "") (if some then age now (EI_NewestAt info) else "")
            (EI_PayloadBytes info) retention declared rate (channel_row now <$> channels) cursors
            (lost_cursors cursors) ((λ ev, eventRow ev mask now) <$> reverse events)).

Definition BuildEventDetail (db : string) (seq : Z) (mask : eventMasker) (now : Z) : M EventDetailView :=
  events ← RecentEvents 1 (int64 (seq - 1)) [];
  match events with
  | e :: _ =>
      if Seq e =? seq then lift (event_detail db e mask now)
      else mret (MkDetail db false None false "" "" false)
  | [] => mret (MkDetail db false None false "" "" false)
  end.
End events_view.

(** ** The dashboard *)

(** What a page reports instead of data. *)
Inductive page_error := POpen (e : open_error) | PFailed (e : error).

Record DashboardRow := MkDashRow {
  d_Name : string;
  d_Path : string;
  d_Err : option page_error;
  d_NamespaceCount : Z;
  d_KeyCount : Z;
  d_SizeBytes : Z;
  d_MaxBytes : option Z;
  d_MaxKeys : option Z;
  d_HitRate : spec_float;
  d_Evictions : Z;
  d_ExpiredRemoved : Z;
  d_ExpiredPresent : Z;
  d_SchemaVersion : Z;
  d_EventsEnabled : bool;
  d_RetainedEvents : Z;
  d_PublishRate : spec_float;
  d_LostCursors : Z;
  d_Why : list string
}.

Definition MaxDisplay (limit : option Z) : string :=
  match limit with Some n => FormatInt n | None => "unlimited" end.
Definition PublishRateDisplay (enabled : bool) (rate : spec_float) : string :=
  if negb enabled then "–" else format_fixed 1 rate +:+ "/min".
Definition HitRatePercent (rate : spec_float) : string := format_fixed 1 (fmul rate (float64_of 100)) +:+ "%".

(** The binary64 number 0.85. *)
Definition unhealthyThreshold : spec_float := S754_finite false 7656119366529843 (-53).

Definition firstNonNil (a b : option Z) : option Z := match a with Some _ => a | None => b end.

(** [S_HitRate]: the fraction of [stats.go]. *)
Definition hit_rate (r : option (Z * Z)) : spec_float :=
  match r with Some (hits, total) => fdiv (float64_of hits) (float64_of total) | None => S754_zero false end.

Definition usage_warning (used : Z) (cap : option Z) (what limit : string) : list string :=
  match cap with
  | Some n =>
      let pct := fdiv (float64_of used) (float64_of n) in
      if (0 <? n) && SFleb unhealthyThreshold pct
      then [what +:+ " at " +:+ format_fixed 0 (fmul pct (float64_of 100)) +:+ "% of " +:+ limit] else []
  | None => []
  end.

(** The reasons why a database is unhealthy; none if it is healthy. *)
Definition evaluateHealth (row : DashboardRow) : list string :=
  usage_warning (d_SizeBytes row) (d_MaxBytes row) "size" "max_bytes" ++
  usage_warning (d_KeyCount row) (d_MaxKeys row) "keys" "max_keys" ++
  (if 0 <? d_ExpiredPresent row then [FormatInt (d_ExpiredPresent row) +:+ " expired key(s) not yet swept"] else []) ++
  (if 0 <? d_LostCursors row
   then [FormatInt (d_LostCursors row) +:+ " subscriber cursor(s) lost events (outside retention)"] else []).

Definition error_row (name path : string) (e : page_error) : DashboardRow :=
  MkDashRow name path (Some e) 0 0 0 None None (S754_zero false) 0 0 0 0 false 0 (S754_zero false) 0 [].

(** [int64] sums over the namespaces. *)
Definition sum_ns (f : NamespaceInfo → Z) (infos : list NamespaceInfo) : Z := foldl (λ a i, int64 (a + f i)) 0 infos.

(** ** The search *)
Definition maxSearchPerNamespace : nat := 200.
Definition maxSearchTotal : nat := 500.

Record SearchResultRow := MkSearchRow { sr_DB : string; sr_Namespace : string; sr_Key : string }.
Record SearchView := MkSearchView {
  sv_Pattern : string;
  sv_Rows : list SearchResultRow;
  sv_Truncated : bool;
  sv_Errors : list (string * option string * page_error)
}.
Definition add_error (e : string * option string * page_error) (v : SearchView) : SearchView :=
  MkSearchView (sv_Pattern v) (sv_Rows v) (sv_Truncated v) (sv_Errors v ++ [e]).
Definition add_rows (db ns : string) (keys : list string) (cut : bool) (v : SearchView) : SearchView :=
  MkSearchView (sv_Pattern v) (sv_Rows v ++ (MkSearchRow db ns <$> keys)) (sv_Truncated v || cut) (sv_Errors v).

(** The number of keys after which the loop over one namespace is left: the
    cap per namespace or what is left of the total, but never before the first
    key. *)
Definition search_limit (found : nat) : nat := Nat.max 1 (Nat.min maxSearchPerNamespace (maxSearchTotal - found)).

Section pages.
Context {H : Host} {OS : Os} {FS : FileSystem} {GL : GoLib} {CJ : ChangeJson GL} {VL : ViewLib GL}.

Definition lift_m {A} (m : M A) : Cache → M A := λ _, m.

(** The event columns; what fails is left out. *)
Definition dashboard_events (i : nat) (row : DashboardRow) : U DashboardRow :=
  r ← on_handle i "default" (lift_m EventStats);
  match r with
  | inr info =>
      if negb (EI_Enabled info) then mret row
      else
        now ← u_now;
        rate ← on_handle i "default" (lift_m (publishRate now));
        cursors ← on_handle i "default" (λ c, BuildCursorRows c info now);
        mret (MkDashRow (d_Name row) (d_Path row) None (d_NamespaceCount row) (d_KeyCount row) (d_SizeBytes row)
                (d_MaxBytes row) (d_MaxKeys row) (d_HitRate row) (d_Evictions row) (d_ExpiredRemoved row)
                (d_ExpiredPresent row) (d_SchemaVersion row) true (EI_Count info)
                (match rate with inr x => x | inl _ => S754_zero false end)
                (match cursors with inr rows => lost_cursors rows | inl _ => 0 end) [])
  | inl _ => mret row
  end.

Definition with_health (row : DashboardRow) : DashboardRow :=
  MkDashRow (d_Name row) (d_Path row) (d_Err row) (d_NamespaceCount row) (d_KeyCount row) (d_SizeBytes row)
    (d_MaxBytes row) (d_MaxKeys row) (d_HitRate row) (d_Evictions row) (d_ExpiredRemoved row) (d_ExpiredPresent row)
    (d_SchemaVersion row) (d_EventsEnabled row) (d_RetainedEvents row) (d_PublishRate row) (d_LostCursors row)
    (evaluateHealth row).

Definition buildDashboardRow (name : string) : U DashboardRow :=
  mgr ← get_mgr;
  match entry mgr name with
  | None => u_hang                                   (* a nil pointer *)
  | Some (i, e) =>
      c ← entry_Cache i "default";
      match c with
      | inl err => mret (error_row name (e_Path e) (POpen err))
      | inr c =>
          infos ← on_handle i "default" (lift_m Namespaces);
          match infos with
          | inl err => mret (error_row name (e_Path e) (PFailed err))
          | inr infos =>
              stats ← on_handle i "default" Stats;
              let '(hits, evictions, removed) :=
                match stats with
                | inr s => (hit_rate (S_HitRate s), S_Evictions s, S_ExpiredRemoved s)
                | inl _ => (S754_zero false, 0, 0)
                end in
              row ← dashboard_events i
                (MkDashRow name (e_Path e) None (Z.of_nat (length infos)) (sum_ns NI_KeyCount infos)
                   (sum_ns NI_SizeBytes infos) (firstNonNil (DeclaredMaxBytes e) (Limits c).2)
                   (firstNonNil (DeclaredMaxKeys e) (Limits c).1) hits evictions removed
                   (sum_ns NI_ExpiredPresent infos) (SchemaVersion c) false 0 (S754_zero false) 0 []);
              mret (with_health row)
          end
      end
  end.

Fixpoint dashboard_rows (names : list string) : U (list DashboardRow) :=
  match names with
  | [] => mret []
  | name :: names => row ← buildDashboardRow name; rows ← dashboard_rows names; mret (row :: rows)
  end.
Definition BuildDashboard : U (list DashboardRow) := mgr ← get_mgr; dashboard_rows (Names mgr).

(** [searchNamespace], and whether the search of this database stops. *)
Definition searchNamespace (i : nat) (dbName ns pattern : string) (view : SearchView) : U (bool * SearchView) :=
  c ← entry_Cache i ns;
  match c with
  | inl err => mret (false, add_error (dbName, Some ns, POpen err) view)
  | inr _ =>
      let limit := search_limit (length (sv_Rows view)) in
      r ← on_handle i ns (λ c, keys_first limit c pattern);
      match r with
      | inl err => mret (false, add_error (dbName, Some ns, PFailed err) view)
      | inr (keys, cut, err) =>
          let view := add_rows dbName ns keys cut view in
          match err with
          | Some e => mret (false, add_error (dbName, Some ns, PFailed e) view)
          | None => mret (cut && (limit <? maxSearchPerNamespace)%nat, view)
          end
      end
  end.

Fixpoint search_namespaces (i : nat) (dbName pattern : string) (nss : list string) (view : SearchView) : U SearchView :=
  match nss with
  | [] => mret view
  | ns :: nss =>
      '(stop, view) ← searchNamespace i dbName ns pattern view;
      if stop : bool then mret view else search_namespaces i dbName pattern nss view
  end.

Fixpoint search_databases (pattern : string) (names : list string) (view : SearchView) : U SearchView :=
  match names with
  | [] => mret view
  | name :: names =>
      if sv_Truncated view then mret view
      else
        mgr ← get_mgr;
        match entry mgr name with
        | None => u_hang
        | Some (i, _) =>
            c ← entry_Cache i "default";
            view ← match c with
                   | inl err => mret (add_error (name, None, POpen err) view)
                   | inr _ =>
                       infos ← on_handle i "default" (lift_m Namespaces);
                       match infos with
                       | inl err => mret (add_error (name, None, PFailed err) view)
                       | inr infos => search_namespaces i name pattern (NI_Namespace <$> infos) view
                       end
                   end;
            search_databases pattern names view
        end
  end.

Definition BuildSearch (pattern : string) : U SearchView :=
  let pattern := if String.eqb pattern "" then "*" else pattern in
  mgr ← get_mgr;
  search_databases pattern (Names mgr) (MkSearchView pattern [] false []).
End pages.

(** ** What the search returns *)
Section search_spec.
Context {H : Host} {OS : Os} {FS : FileSystem}.

Lemma bind_Ok {A B} (m : U A) (k : A → U B) u b u' :
  (m ≫= k) u = (Ok b, u') → ∃ a u1, m u = (Ok a, u1) ∧ k a u1 = (Ok b, u').
Proof using Type. unfold mbind, U_bind. destruct (m u) as [[a|e|] u1]; naive_solver. Qed.

Lemma on_handle_Ok {A} i ns (m : Cache → M A) u a u' :
  on_handle i ns m u = (Ok (inr a), u') → ∃ c w w', m c w = (Ok a, w').
Proof using Type.
  unfold on_handle, run_on. destruct (_ ≫= _) as [[c proc]|]; [|done]. destruct (ui_files u !! path c); [|done].
  destruct (m c _) as [[x|e|] w] eqn:Hm; [|done..]. intros [= -> _]. eauto.
Qed.

Lemma keys_upto_length fuel limit c pattern k acc w ks cut e w' :
  (length acc < limit)%nat → keys_upto fuel limit c pattern k acc w = (Ok (ks, cut, e), w') →
  if cut : bool then length ks = limit ∧ e = None else (length ks < limit)%nat.
Proof using Type.
  revert k acc w. induction fuel as [|fuel IH]; intros k acc w Hacc; cbn [keys_upto]; [done|].
  unfold mbind, M_bind. destruct (attempt (keysPage c pattern k) w) as [[[e'|batch]|e'|] w1]; [|..|done|done].
  - intros [= <- <- <- <-]. done.
  - destruct (Nat.leb_spec limit (length (acc ++ batch))) as [Hle|Hlt].
    { intros [= <- <- <- <-]. rewrite length_take. split; [lia|done]. }
    destruct (last batch) as [x|]; [|intros [= <- <- <- <-]; done].
    destruct (Nat.ltb _ _); [intros [= <- <- <- <-]; done|]. by apply IH.
Qed.

Lemma keys_first_length limit c pattern w ks cut e w' :
  (0 < limit)%nat → keys_first limit c pattern w = (Ok (ks, cut, e), w') →
  if cut : bool then length ks = limit ∧ e = None else (length ks < limit)%nat.
Proof using Type. intros Hl. unfold keys_first, mbind, M_bind, cache_fuel. by apply keys_upto_length. Qed.

(** Within the cap, or one row more; below the cap unless truncated. *)
Definition search_ok (stop : bool) (v : SearchView) : Prop :=
  (length (sv_Rows v) ≤ maxSearchTotal + if stop then 1 else 0)%nat ∧
  (sv_Truncated v = false → (length (sv_Rows v) < maxSearchTotal)%nat).

Lemma search_ok_add db ns keys cut v :
  let limit := search_limit (length (sv_Rows v)) in
  search_ok false v → (if cut : bool then length keys = limit else (length keys < limit)%nat) →
  search_ok (cut && (limit <? maxSearchPerNamespace)%nat) (add_rows db ns keys cut v).
Proof using Type.
  intros limit [Hlen Htr] Hk. unfold search_ok, add_rows. cbn [sv_Rows sv_Truncated].
  rewrite length_app, length_fmap. unfold search_limit, maxSearchPerNamespace, maxSearchTotal in *.
  destruct cut; cbn [andb].
  - rewrite orb_true_r. split; [|done]. destruct (Nat.ltb_spec limit 200); lia.
  - rewrite orb_false_r. split; [lia|]. intros Ht%Htr. lia.
Qed.

Lemma searchNamespace_ok i db ns pattern v u stop v' u' :
  search_ok false v → searchNamespace i db ns pattern v u = (Ok (stop, v'), u') → search_ok stop v'.
Proof using Type.
  intros Hv (c & u1 & _ & Hk)%bind_Ok. destruct c as [err|c]; [by revert Hk; intros [= <- <- <-]|].
  apply bind_Ok in Hk as (r & u2 & Hr & Hk). destruct r as [err|[[keys cut] err]]; [by revert Hk; intros [= <- <- <-]|].
  apply on_handle_Ok in Hr as (c' & w & w' & Hks).
  apply keys_first_length in Hks; [|unfold search_limit; lia].
  pose proof (search_ok_add db ns keys cut v Hv) as Hadd. cbv zeta in Hadd.
  destruct cut; [destruct Hks as [Hks ->]; specialize (Hadd Hks); by revert Hk; intros [= <- <- <-]|].
  specialize (Hadd Hks). destruct err; by revert Hk; intros [= <- <- <-].
Qed.

Lemma search_namespaces_ok i db pattern nss v u v' u' :
  search_ok false v → search_namespaces i db pattern nss v u = (Ok v', u') →
  search_ok true v' ∧ (sv_Truncated v' = false → search_ok false v').
Proof using Type.
  assert (∀ v, search_ok true v → sv_Truncated v = false → search_ok false v) as Htr.
  { intros v0 [_ Hl] Ht. split; [specialize (Hl Ht); lia|done]. }
  assert (∀ v, search_ok false v → search_ok true v) as Hmono by (intros v0 [? ?]; split; [lia|done]).
  revert v u. induction nss as [|ns nss IH]; intros v u Hv; simpl.
  - intros [= <- <-]. auto.
  - intros ([stop v1] & u1 & Hs & Hk)%bind_Ok. apply searchNamespace_ok in Hs; [|done].
    destruct stop; [revert Hk; intros [= <- <-]; auto|]. by eapply IH.
Qed.

Lemma search_databases_ok pattern names v u v' u' :
  search_ok true v → search_databases pattern names v u = (Ok v', u') → search_ok true v'.
Proof using Type.
  revert v u. induction names as [|name names IH]; intros v u Hv; simpl; [by intros [= <- <-]|].
  destruct (sv_Truncated v) eqn:Ht; [by intros [= <- <-]|].
  assert (search_ok false v) as Hv' by (destruct Hv as [_ Hl]; split; [specialize (Hl Ht); lia|done]).
  intros (mgr & u1 & _ & Hk)%bind_Ok. destruct (entry mgr name) as [[i e]|]; [|done].
  apply bind_Ok in Hk as (c & u2 & _ & Hk). apply bind_Ok in Hk as (v1 & u3 & H1 & Hk).
  apply IH in Hk; [done|]. destruct c as [err|c]; [by revert H1; intros [= <- <-]|].
  apply bind_Ok in H1 as (infos & u4 & _ & H1). destruct infos as [err|infos]; [by revert H1; intros [= <- <-]|].
  by apply search_namespaces_ok in H1 as [H1 _].
Qed.

(** A search is bounded. However many databases, namespaces and keys
    there are and whatever other processes do, it returns at most one row more
    than the total cap of 500, and fewer than 500 unless it says that it was
    truncated. *)
Theorem search_bounded pattern u v u' :
  BuildSearch pattern u = (Ok v, u') →
  (length (sv_Rows v) ≤ maxSearchTotal + 1)%nat ∧
  (sv_Truncated v = false → (length (sv_Rows v) < maxSearchTotal)%nat).
Proof using Type.
  intros (mgr & u1 & _ & Hk)%bind_Ok. apply search_databases_ok in Hk as [H1 H2]; [done|].
  split; simpl; unfold maxSearchTotal; lia.
Qed.
End search_spec.

(** A server on two files, the first with [n] keys in one namespace. *)
Definition toy_table (n : Z) : cache_table :=
  list_to_map ((λ k, (("default", "k" +:+ FormatInt k), Row "v" typeString 0 None 0 0 1)) <$> seqZ 0 n).
Definition toy_ui (n : Z) : UiState :=
  MkUi (NewManager [MkSource "a" "/a.db" None None None; MkSource "b" "/b.db" None None None])
    {[ "/a.db" := set_cache (toy_table n) empty_db; "/b.db" := set_cache (toy_table 1) empty_db ]} 0 0.

Lemma search_bounded_witness :
  let _ := still_host 100 in let _ := toy_os (λ _, None) (λ _, false) in let _ := toy_files in
  ∃ v u', BuildSearch "*" (toy_ui 3) = (Ok v, u') ∧ (length (sv_Rows v) ≤ 501)%nat ∧
    sr_DB <$> sv_Rows v = ["a"; "a"; "a"; "b"].
Proof.
  intros host os fs.
  assert (sr_DB <$> match (BuildSearch "*" (toy_ui 3)).1 with Ok v => sv_Rows v | _ => [] end = ["a"; "a"; "a"; "b"])
    as HE by (vm_compute; reflexivity).
  destruct (BuildSearch "*" (toy_ui 3)) as [[v|e|] u'] eqn:Hs; [|discriminate HE|discriminate HE].
  exists v, u'. split; [reflexivity|]. split; [|exact HE].
  exact (proj1 (@search_bounded host os fs "*" (toy_ui 3) v u' Hs)).
Defined.

(** A namespace of 200 keys uses up its own cap, not the total; the second
    database is not searched all the same. *)
Example search_skips_databases :
  let _ := still_host 100 in let _ := toy_os (λ _, None) (λ _, false) in let _ := toy_files in
  match (BuildSearch "*" (toy_ui 200)).1 with
  | Ok v => length (sv_Rows v) = 200%nat ∧ sv_Truncated v = true ∧ "b" ∉ sr_DB <$> sv_Rows v
  | _ => False
  end.
Proof.
  intros host os fs.
  assert (match (BuildSearch "*" (toy_ui 200)).1 with
    | Ok v => Nat.eqb (length (sv_Rows v)) 200 && sv_Truncated v && negb (bool_decide ("b" ∈ sr_DB <$> sv_Rows v))
    | _ => false end = true) as HE by (vm_compute; reflexivity).
  destruct (BuildSearch "*" (toy_ui 200)).1 as [v|e|]; [|discriminate..].
  apply andb_true_iff in HE as [[H1 H2]%andb_true_iff H3]. apply Nat.eqb_eq in H1.
  apply negb_true_iff, bool_decide_eq_false in H3. done.
Qed.

(** ** Lag of the subscribers *)
Lemma foldr_min_le s (k : list Z) : (∀ x, x ∈ k → s ≤ x) → foldr Z.min s k = s.
Proof.
  induction k as [|x k IH]; intros Hle; simpl; [done|]. rewrite IH by set_solver.
  specialize (Hle x ltac:(left)). lia.
Qed.

Lemma list_min_sorted {A} (l : list (Z * A)) : sorted_keys l → list_min l.*1 = head l.*1.
Proof.
  destruct l as [|[s a] l]; [done|]. intros [Hh _]%StronglySorted_cons. unfold list_min. simpl. f_equal.
  apply foldr_min_le. intros x Hx. rewrite Forall_forall in Hh. specialize (Hh x Hx). simpl in Hh. lia.
Qed.

Section cursors_spec.
Context {H : Host}.

(** The flags of a cursor depend on the statistics only. *)
Definition flags_of (newest oldest : Z) (cur : CursorInfo) (r : CursorRow) : Prop :=
  MkCursorInfo (cr_Namespace r) (cr_Name r) (cr_Seq r) = cur ∧
  cr_Ahead r = (newest <? CU_Seq cur) ∧
  cr_Lost r = (CU_Seq cur <? newest) && (CU_Seq cur <? oldest - 1).

Lemma cursor_row_flags newest oldest now cur w r w' :
  cursor_row newest oldest now cur w = (Ok r, w') → flags_of newest oldest cur r.
Proof using Type.
  unfold cursor_row, flags_of. destruct cur as [ns name seq]; simpl. destruct (Z.ltb_spec newest seq) as [Hlt|Hge].
  { intros [= <- _]. simpl. rewrite (proj2 (Z.ltb_ge seq newest)) by lia. done. }
  destruct (Z.eqb_spec seq newest) as [->|Hne].
  { intros [= <- _]. simpl. by rewrite Z.ltb_irrefl. }
  unfold mbind, M_bind. destruct (RecentEvents 1 seq [] w) as [[next|e|] w1]; [|done..].
  rewrite (proj2 (Z.ltb_lt seq newest)) by lia. destruct next as [|e [|]]; by intros [= <- _].
Qed.

Lemma cursor_rows_flags newest oldest now cursors w rows w' :
  cursor_rows newest oldest now cursors w = (Ok rows, w') → Forall2 (flags_of newest oldest) cursors rows.
Proof using Type.
  revert w rows w'. induction cursors as [|cur cursors IH]; intros w rows w'; simpl; [by intros [= <- _]|].
  unfold mbind, M_bind. destruct (cursor_row _ _ _ _ w) as [[r|e|] w1] eqn:Hr; [|done..].
  destruct (cursor_rows _ _ _ _ w1) as [[rs|e|] w2] eqn:Hrs; [|done..]. intros [= <- _].
  constructor; [by eapply cursor_row_flags|by eapply IH].
Qed.

(** What [EventStats] says about the retained range. *)
Lemma EventStats_range `{!Quiet H} w t info w1 :
  ready_ok w → db_events (w_db w) = Some t → EventStats w = (Ok info, w1) →
  EI_NewestSeq info = lastAssignedSeq t ∧ EI_Count info = Z.of_nat (length (et_rows t)) ∧
  EI_OldestSeq info = default 0 (list_min (seqs_of t)).
Proof using Type.
  intros Hr Ht Hs.
  assert (wp EventStats w (λ r _, ∀ info, r = Ok info →
    EI_NewestSeq info = lastAssignedSeq t ∧ EI_Count info = Z.of_nat (length (et_rows t)) ∧
    EI_OldestSeq info = default 0 (list_min (seqs_of t)))) as Hwp.
  { unfold EventStats. apply wp_bind. apply eventsExist_spec; [done|]. intros w' Hd _ _.
    rewrite bool_decide_true by (rewrite Ht; by eexists). cbn [negb]. wp_go. unfold read_events.
    do 2 (rewrite !Hd, !Ht; cbn [fmap option_fmap option_map or_db_error]; wp_go; simpl). by intros i [= <-]. }
  unfold wp in Hwp. rewrite Hs in Hwp. by apply Hwp.
Qed.

(** The subscriber table of the events tab tells the truth: whatever
    happens after the statistics were read, every cursor is listed, and it is
    marked as lost or ahead exactly when the gap rule of [Watch] would report a
    gap for it on the log the statistics describe, with the kind that the gap
    has. *)
Theorem cursor_rows_gap `{!Quiet H} c now w t info w1 w2 rows w3 :
  ready_ok w → db_events (w_db w) = Some t → log_wf t → lastAssignedSeq t < MaxInt64 →
  EventStats w = (Ok info, w1) → BuildCursorRows c info now w2 = (Ok rows, w3) →
  (∃ cursors w', Cursors c w2 = (Ok cursors, w') ∧
     cursors = (λ r, MkCursorInfo (cr_Namespace r) (cr_Name r) (cr_Seq r)) <$> rows) ∧
  ∀ r, r ∈ rows →
    match gapCheck t (cr_Seq r) with
    | Some g => cr_Ahead r = Ahead g ∧ cr_Lost r = negb (Ahead g)
    | None => cr_Ahead r = false ∧ cr_Lost r = false
    end.
Proof using Type.
  intros Hr Ht (Hsort & Hrange & Hlast) Hmax Hs Hb.
  destruct (EventStats_range w t info w1 Hr Ht Hs) as (Hnew & Hcount & Hold).
  set (oldest := if 0 <? EI_Count info then EI_OldestSeq info else int64 (EI_NewestSeq info + 1)) in Hb.
  assert (oldest = default (lastAssignedSeq t + 1) (min_seq t) ∧ oldest ≤ lastAssignedSeq t + 1) as [Ho Hle].
  { unfold oldest, min_seq. rewrite Hcount, Hold, Hnew. unfold seqs_of. rewrite list_min_sorted by done.
    destruct (et_rows t) as [|[s r] l]; simpl.
    - rewrite int64_id; [done|]. apply in_int64_spec. unfold MinInt64, MaxInt64 in *. lia.
    - split; [done|]. apply Forall_cons in Hrange as [Hs0 _]. simpl in Hs0. lia. }
  unfold BuildCursorRows, mbind, M_bind in Hb. fold oldest in Hb.
  destruct (Cursors c w2) as [[cursors|e|] w'] eqn:Hc; [|done..].
  apply cursor_rows_flags in Hb as Hf. rewrite Hnew, Ho in Hf. split.
  - exists cursors, w'. split; [done|]. clear -Hf. induction Hf as [|cur r cs rs [<- _] _ IH]; simpl; [done|].
    by rewrite IH at 1.
  - intros r (i & Hi)%list_elem_of_lookup. eapply Forall2_lookup_r in Hf as (cur & _ & <- & Ha & Hlost); [|exact Hi].
    simpl in *. rewrite Ha, Hlost. unfold gapCheck. rewrite <- Ho in *.
    destruct (Z.ltb_spec (lastAssignedSeq t) (cr_Seq r)); simpl.
    + by rewrite (proj2 (Z.ltb_ge _ _)) by lia.
    + destruct (Z.ltb_spec (cr_Seq r) (oldest - 1)); simpl.
      * rewrite (proj2 (Z.ltb_lt (cr_Seq r) (lastAssignedSeq t))) by lia. done.
      * by rewrite andb_false_r.
Qed.
End cursors_spec.

(** Three subscribers of a log that retains the events 5 and 6: one has lost
    events, one is up to date, one is ahead of the file. *)
Definition lag_log : event_table :=
  EventTable [(5, EventRow "orders" "default" (Some "a") typeString 50);
              (6, EventRow "orders" "default" (Some "b") typeString 60)] (Some 6).
Definition lag_db : Database :=
  Db ∅ (<["cursor:default:late" := "2"]> (<["cursor:default:new" := "6"]> {["cursor:default:wild" := "9"]})) (Some lag_log).

Lemma cursor_rows_gap_witness :
  let _ := still_host 100 in
  let w := init_world lag_db in
  ∃ info w1 rows w3, EventStats w = (Ok info, w1) ∧
    BuildCursorRows (demo_cache "default") info 100 w1 = (Ok rows, w3) ∧
    (λ r, (cr_Name r, cr_Lost r, cr_Ahead r)) <$> rows =
      [("late", true, false); ("new", false, false); ("wild", false, true)] ∧
    ∀ r, r ∈ rows → gapCheck lag_log (cr_Seq r) = None → cr_Lost r = false.
Proof.
  intros host w.
  assert (match EventStats w with
    | (Ok info, w1) =>
        match BuildCursorRows (demo_cache "default") info 100 w1 with
        | (Ok rows, _) => Some ((λ r, (cr_Name r, cr_Lost r, cr_Ahead r)) <$> rows)
        | _ => None
        end
    | _ => None
    end = Some [("late", true, false); ("new", false, false); ("wild", false, true)]) as HE by (vm_compute; reflexivity).
  destruct (EventStats w) as [[info|e|] w1] eqn:Hs; [|discriminate HE..].
  destruct (BuildCursorRows (demo_cache "default") info 100 w1) as [[rows|e|] w3] eqn:Hb; [|discriminate HE..].
  injection HE as HE. exists info, w1, rows, w3. split; [reflexivity|]. split; [exact Hb|]. split; [exact HE|].
  intros r Hin Hg.
  destruct (@cursor_rows_gap host (still_quiet 100) (demo_cache "default") 100 w lag_log info w1 w1 rows w3) as [_ Hall];
    [discriminate|reflexivity| |reflexivity|exact Hs|exact Hb|].
  - split; [repeat constructor|]. split; [repeat constructor; done|done].
  - specialize (Hall r Hin). rewrite Hg in Hall. exact (proj2 Hall).
Defined.

(** ** Masked data does not reach a page *)

Definition redact (v : string) (r : row) : row :=
  Row v (value_type r) (created_at r) (expires_at r) (last_accessed r) (access_count r) (size_bytes r).
Definition redact_at (k : string * string) (v : string) (w : World) : World :=
  with_db (set_cache (alter (redact v) k (db_cache (w_db w))) (w_db w)) w.
Definition with_payload (p : string) (e : Event) : Event :=
  MkEvent (Seq e) (Channel e) (EvNamespace e) (CreatedAt e) p (PayloadType e) (Null e).

Section hidden.
Context {H : Host} {GL : GoLib} {CJ : ChangeJson GL} {VL : ViewLib GL}.

(** The page of a masked key, from the row's metadata and the clock. *)
Definition masked_view (db ns key : string) (o : option row) (n : nat) : ValueView :=
  let absent := MkValueView db ns key false "" false false "" "" false 0 0 0 0 None None in
  match o with
  | None => absent
  | Some r =>
      let view := λ ttl, MkValueView db ns key true (typeCodeName (value_type r)) false true
        "value redacted (matches a --mask-keys pattern)" "" false (size_bytes r) (access_count r) (created_at r)
        (last_accessed r) ttl (expires_at r) in
      match expires_at r with
      | None => view None
      | Some e => if e <=? clock (S n) then absent else view (Some (sub_ms e (clock (S (S n)))))
      end
  end.

Lemma BuildValueView_masked `{!Quiet H} c db ns key patterns w :
  MatchesMaskPattern key patterns = true →
  wp (BuildValueView c db ns key patterns) w (λ r _,
    r = Ok (masked_view db ns key (db_cache (w_db w) !! (namespace c, key)) (w_step w))).
Proof using Type.
  intros Hm. unfold BuildValueView, Inspect. wp_go. destruct (db_cache (w_db w) !! (namespace c, key)) as [r|]; wp_go; [|done].
  unfold expired. simpl. destruct (expires_at r) as [e|] eqn:He; wp_go; simpl.
  - destruct (e <=? clock (S (w_step w))); [unfold deleteRaw; by wp_go|]. wp_go. rewrite Hm. simpl. by wp_go.
  - rewrite Hm. simpl. by wp_go.
Qed.

(** C38: masked data never reaches a page. The viewer of a key that matches
    --mask-keys shows the same page whatever the value is; an event whose
    payload is redacted has the same line in the tail and the same detail page
    for every payload of that length that is redacted for the same reason, and
    neither of them holds a preview or a rendering. *)
Theorem masked_hidden `{!Quiet H} c db ns key patterns v w mask e p now :
  MatchesMaskPattern key patterns = true →
  reason mask e ≠ "" → reason mask (with_payload p e) = reason mask e → String.length p = String.length (Payload e) →
  (BuildValueView c db ns key patterns (redact_at (namespace c, key) v w)).1 =
    (BuildValueView c db ns key patterns w).1 ∧
  (∀ view, (BuildValueView c db ns key patterns w).1 = Ok view → vv_Rendered view = "") ∧
  eventRow (with_payload p e) mask now = eventRow e mask now ∧ er_Preview (eventRow e mask now) = "" ∧
  event_detail db (with_payload p e) mask now = event_detail db e mask now ∧
  ∀ d, event_detail db e mask now = Ok d → ed_Rendered d = "".
Proof using Type.
  intros Hm Hr Hsame Hlen.
  pose proof (BuildValueView_masked c db ns key patterns w Hm) as H1. unfold wp in H1.
  pose proof (BuildValueView_masked c db ns key patterns (redact_at (namespace c, key) v w) Hm) as H2. unfold wp in H2.
  assert (eventRow (with_payload p e) mask now = eventRow e mask now) as Hrow.
  { unfold eventRow. rewrite Hsame. simpl. rewrite Hlen. by rewrite (proj2 (String.eqb_neq _ _) Hr). }
  assert (er_Masked (eventRow e mask now) = true ∧ er_Preview (eventRow e mask now) = "") as [Hmask Hprev].
  { unfold eventRow. by rewrite (proj2 (String.eqb_neq _ _) Hr). }
  assert (∀ e', eventRow e' mask now = eventRow e mask now → event_detail db e' mask now =
    Ok (MkDetail db true (Some (eventRow e mask now)) false (er_PreviewNote (eventRow e mask now)) "" false)) as Hd.
  { intros e' He'. unfold event_detail. by rewrite He', Hmask. }
  split_and!; [| |done|done|by rewrite !Hd|].
  - rewrite H1, H2. unfold redact_at. simpl. rewrite lookup_alter_eq.
    by destruct (db_cache (w_db w) !! (namespace c, key)) as [[]|].
  - rewrite H1. intros view [= <-]. unfold masked_view. by repeat case_match.
  - rewrite Hd by done. by intros d [= <-].
Qed.
End hidden.

Lemma masked_hidden_witness :
  let _ := still_host 100 in let _ := toy_lib in let _ := toy_view in
  let row := λ v, set_cache {[ ("default", "otp:7") := Row v typeString 0 (Some 500) 0 0 6 ]} empty_db in
  let e := MkEvent 3 "private" "default" 50 "abc" typeString false in
  let mask := MkMasker [] ["priv*"] in
  (BuildValueView (demo_cache "default") "main" "default" "otp:7" ["otp:*"] (init_world (row "999999"))).1 =
    (BuildValueView (demo_cache "default") "main" "default" "otp:7" ["otp:*"] (init_world (row "123456"))).1 ∧
  eventRow (with_payload "xyz" e) mask 100 = eventRow e mask 100.
Proof.
  intros host lib view row e mask.
  destruct (masked_hidden (demo_cache "default") "main" "default" "otp:7" ["otp:*"] "999999"
    (init_world (row "123456")) mask e "xyz" 100) as (H1 & _ & H3 & _).
  - vm_compute. reflexivity.
  - vm_compute. discriminate.
  - vm_compute. reflexivity.
  - reflexivity.
  - split; [exact H1|exact H3].
Defined.

(** A star does not match a slash: a key with one is not masked. *)
Example slash_evades_mask :
  MatchesMaskPattern "otp:user/7" ["otp:*"] = false ∧ MatchesMaskPattern "otp:7" ["otp:*"] = true ∧
  MatchesMaskPattern "otp:7" ["[otp:*"] = false.
Proof. vm_compute. done. Qed.
