(* ===== verification/UiPages.v ===== *)
(** The handlers of the web UI ([ui/handlers.go], [ui/pages.go],
    [ui/mutations.go], [ui/events.go], [ui/metrics.go] of lytecache-cli): each
    route as a computation over the open files, with the page it renders and
    the line it adds to the audit log. *)

From Stdlib Require Import SpecFloat.
From S2P Require Import Prelude GoStd Values Store Engine Channels EventLog EventAdmin Sweep Changes Kv Reads Open GoBase64 GoText UiSafe UiLimit UiSession UiAccounts UiAuth UiDb UiView UiEvents.
Open Scope Z_scope.

(** ** Configuration and pages *)
Record Config := MkConfig {
  cf_scanDirs : list string;
  cf_allowDelete : bool;
  cf_maskKeys : list string;
  cf_maskChannels : list string;
  cf_noMetrics : bool;
  cf_metricsToken : string;
  cf_metricsTTL : Z
}.

(** The chrome around a page. *)
Record Page := MkPage {
  pg_Username : string;
  pg_CSRFToken : string;
  pg_AllowDelete : bool;
  pg_Databases : list string;
  pg_CurrentDB : string;
  pg_CurrentNS : string;
  pg_CurrentView : string;
  pg_Namespaces : list (string * Z);
  pg_EventsEnabled : bool;
  pg_RefreshSeconds : Z;
  pg_AdaptiveRefresh : bool
}.
Definition set_db_page (db ns : string) (p : Page) : Page :=
  MkPage (pg_Username p) (pg_CSRFToken p) (pg_AllowDelete p) (pg_Databases p) db ns "" [] false 0 false.
Definition set_sidebar (enabled : bool) (nss : list (string * Z)) (p : Page) : Page :=
  MkPage (pg_Username p) (pg_CSRFToken p) (pg_AllowDelete p) (pg_Databases p) (pg_CurrentDB p) (pg_CurrentNS p)
    (pg_CurrentView p) nss enabled (pg_RefreshSeconds p) (pg_AdaptiveRefresh p).
Definition set_refresh (view : string) (seconds : Z) (adaptive : bool) (p : Page) : Page :=
  MkPage (pg_Username p) (pg_CSRFToken p) (pg_AllowDelete p) (pg_Databases p) (pg_CurrentDB p) (pg_CurrentNS p)
    view (pg_Namespaces p) (pg_EventsEnabled p) seconds adaptive.

(** One line of a scrape. *)
Record metric := MkMetric { mt_name : string; mt_value : spec_float; mt_labels : list string }.

Inductive ui_page :=
  | PDashboard (p : Page) (rows : list DashboardRow)
  | PKeys (p : Page) (v : KeyBrowserView)
  | PValue (p : Page) (v : ValueView)
  | PSearch (p : Page) (v : SearchView)
  | PEvents (p : Page) (v : EventsView)
  | PEvent (p : Page) (v : EventDetailView)
  | PError (p : Page) (title message : string)
  | PUnreachable (p : Page) (db : string) (e : open_error)
  | PAccount (page : auth_page)
  | PText (s : string)
  | PMetrics (l : list metric)
  | PStatic.

(** [logMutation]: never a value. *)
Record audit_entry := MkAudit {
  au_user : string;
  au_remote : string;
  au_action : string;
  au_db : string;
  au_ns : string;
  au_key : string
}.
Record answer := MkAnswer { an_reply : reply ui_page; an_audit : option audit_entry }.
Definition say (r : reply ui_page) : U answer := mret (MkAnswer r None).

Definition StatusSeeOther : Z := 303.
Definition defaultDashboardRefreshSeconds : Z := 2.
Definition DefaultMetricsCacheTTL : Z := 5 * Second.

(** [strconv.Atoi] where the error is ignored: 0 for a syntax error, the
    nearest bound out of range. *)
Definition Atoi (s : string) : Z :=
  match parse_decimal s with Some n => Z.max MinInt64 (Z.min MaxInt64 n) | None => 0 end.

(** [r.PathValue] and [r.URL.Query().Get]. *)
Definition PathValue (vals : list (string * string)) (name : string) : string := values_get vals name.
Definition Query_Get (r : Request) (name : string) : string := values_get (r_query r) name.
(** All values of a form field. *)
Definition PostForm_all (r : Request) (name : string) : list string :=
  snd <$> List.filter (λ p, String.eqb p.1 name) (r_post r).

Section handlers.
Context {H : Host} {OS : Os} {FS : FileSystem} {GL : GoLib} {CJ : ChangeJson GL} {VL : ViewLib GL}
  {C : Cookies} {N : Net}.
Context (cfg : Config) (sessions : sessionManager) (session : option sessionClaims) (r : Request)
  (vals : list (string * string)).

Definition eventMasker_ : eventMasker := MkMasker (cf_maskKeys cfg) (cf_maskChannels cfg).

(** ** Chrome *)
Definition basePage : U Page :=
  mgr ← get_mgr;
  let claims := default (MkClaims "" "" 0 0 0) session in
  mret (MkPage (Username claims) (csrfToken sessions claims) (cf_allowDelete cfg) (Names mgr) "" "" "" [] false 0 false).

Definition dbPage (db ns : string) : U Page :=
  p ← basePage;
  let p := set_db_page db ns p in
  mgr ← get_mgr;
  match entry mgr db with
  | None => mret p
  | Some (i, _) =>
      c ← entry_Cache i "default";
      match c with
      | inl _ => mret p
      | inr _ =>
          stats ← on_handle i "default" (lift_m EventStats);
          let enabled := match stats with inr info => EI_Enabled info | inl _ => false end in
          infos ← on_handle i "default" (lift_m Namespaces);
          mret (set_sidebar enabled
                  (match infos with inr l => (λ n, (NI_Namespace n, NI_KeyCount n)) <$> l | inl _ => [] end) p)
      end
  end.

Definition writeNotFound (message : string) : U answer :=
  p ← basePage; say (Html 404 (PError p "Not found" message)).
Definition writeBadRequest_ (message : string) : U answer :=
  p ← basePage; say (Html 400 (PError p "Bad request" message)).
(** An unreachable database is a page of its own, not a server error. *)
Definition writeEntryError (db : string) (e : open_error) : U answer :=
  p ← basePage; say (Html 200 (PUnreachable p db e)).

(** The start of a database handler: [resolveEntry], what the handler checks
    before it opens the file, then the handle of the namespace. *)
Definition with_entry (ns : string) (refusal : option (U answer)) (k : nat → dbEntry → U answer) : U answer :=
  let db := PathValue vals "db" in
  mgr ← get_mgr;
  match entry mgr db, refusal with
  | None, _ => writeNotFound ("unknown database " +:+ db)
  | Some _, Some refuse => refuse
  | Some (i, e), None =>
      c ← entry_Cache i ns;
      match c with inl err => writeEntryError db err | inr _ => k i e end
  end.

(** A failed [ParseForm], then the checks on the fields. *)
Definition form_check (checks : option string) : option (U answer) :=
  match r_form_error r, checks with
  | Some e, _ => Some (writeBadRequest_ e)
  | None, Some message => Some (writeBadRequest_ message)
  | None, None => None
  end.

(** ** Pages *)
Definition handleIndex : U answer := say (Redirect StatusFound "/dashboard").

(** [Rescan] reads the file system; its error is only logged. *)
Definition u_rescan : U () := λ u,
  (Ok tt, MkUi (Rescan_ (ui_step u) (ui_mgr u) (cf_scanDirs cfg)).1 (ui_files u) (S (ui_step u)) (ui_mono u)).

Definition handleDashboard : U answer :=
  u_rescan ;;
  rows ← BuildDashboard;
  p ← basePage;
  say (Html 200 (PDashboard (set_refresh "" defaultDashboardRefreshSeconds false p) rows)).

Definition handleDBRedirect : U answer :=
  let db := PathValue vals "db" in
  mgr ← get_mgr;
  match entry mgr db with
  | None => writeNotFound ("unknown database " +:+ db)
  | Some _ => say (Redirect StatusFound ("/db/" +:+ db +:+ "/namespaces/default/keys"))
  end.

Definition handleKeys : U answer :=
  let db := PathValue vals "db" in
  let ns := PathValue vals "ns" in
  with_entry ns None (λ i _,
    view ← on_handle i ns (λ c, BuildKeyBrowser c db ns (Query_Get r "glob") (Query_Get r "sort")
                                  (Atoi (Query_Get r "page")) (Atoi (Query_Get r "size")));
    match view with
    | inl _ => say writeServerError
    | inr view => p ← dbPage db ns; say (Html 200 (PKeys p view))
    end).

Definition handleKeyDetail : U answer :=
  let db := PathValue vals "db" in
  let ns := PathValue vals "ns" in
  let key := PathValue vals "key" in
  with_entry ns (if String.eqb key "" then Some (writeNotFound "missing key") else None) (λ i _,
    view ← on_handle i ns (λ c, BuildValueView c db ns key (cf_maskKeys cfg));
    match view with
    | inl _ => say writeServerError
    | inr view => p ← dbPage db ns; say (Html 200 (PValue p view))
    end).

Definition handleSearch : U answer :=
  view ← BuildSearch (Query_Get r "q");
  p ← basePage;
  say (Html 200 (PSearch p view)).

Definition handleHealthz : U answer := say (Html 200 (PText "ok")).

Definition handleEvents : U answer :=
  let db := PathValue vals "db" in
  with_entry "default" None (λ i e,
    now ← u_now;
    view ← on_handle i "default" (λ c, BuildEventsView c e (Query_Get r "channel") eventMasker_ now);
    match view with
    | inl _ => say writeServerError
    | inr view => p ← dbPage db ""; say (Html 200 (PEvents (set_refresh "events" 0 (ev_Enabled view) p) view))
    end).

Definition handleEventDetail : U answer :=
  let db := PathValue vals "db" in
  let seq := ParseInt (PathValue vals "seq") in
  let refusal := match seq with
                 | Some n => if n <=? 0 then Some (writeNotFound "no such event") else None
                 | None => Some (writeNotFound "no such event")
                 end in
  with_entry "default" refusal (λ i _,
    now ← u_now;
    view ← on_handle i "default" (lift_m (BuildEventDetail db (default 0 seq) eventMasker_ now));
    match view with
    | inl _ => say writeServerError
    | inr view => p ← dbPage db ""; say (Html 200 (PEvent (set_refresh "events" 0 false p) view))
    end).

(** ** Mutations: deletion only *)
Definition requireAllowDelete (next : U answer) : U answer :=
  if cf_allowDelete cfg then next
  else say (HTTPError 403 "deletion is disabled -- start lytecache ui with --allow-delete to enable it").

Definition logMutation (action db ns key : string) : audit_entry :=
  MkAudit (match session with Some c => Username c | None => "-" end) (clientIP r) action db ns key.

Definition redirectToKeys (db ns : string) (log : audit_entry) : U answer :=
  mret (MkAnswer (Redirect StatusSeeOther ("/db/" +:+ db +:+ "/namespaces/" +:+ ns +:+ "/keys")) (Some log)).
Definition redirectToEvents (db : string) (log : audit_entry) : U answer :=
  mret (MkAnswer (Redirect StatusSeeOther ("/db/" +:+ db +:+ "/events")) (Some log)).

(** Run one method and answer with the redirect, or with an error. *)
Definition mutate {A} (i : nat) (ns : string) (m : Cache → M A) (done : A → U answer) : U answer :=
  x ← on_handle i ns m;
  match x with inl _ => say writeServerError | inr a => done a end.

Definition handleDeleteKey : U answer :=
  let db := PathValue vals "db" in
  let ns := PathValue vals "ns" in
  let key := PostForm_Get r "key" in
  with_entry ns (form_check (if String.eqb key "" then Some "missing key" else None)) (λ i _,
    mutate i ns (λ c, Delete c [key]) (λ _, redirectToKeys db ns (logMutation "delete" db ns key))).

Definition handleDeleteKeys : U answer :=
  let db := PathValue vals "db" in
  let ns := PathValue vals "ns" in
  let keys := PostForm_all r "key" in
  with_entry ns (form_check (if bool_decide (keys = []) then Some "no keys selected" else None)) (λ i _,
    mutate i ns (λ c, Delete c keys) (λ _, redirectToKeys db ns (logMutation "delete-bulk" db ns (Join keys ",")))).

Definition handleFlush : U answer :=
  let db := PathValue vals "db" in
  let ns := PathValue vals "ns" in
  let typed := PostForm_Get r "confirm_namespace" in
  with_entry ns
    (form_check (if String.eqb typed ns then None else Some "confirmation text did not match the namespace name")) (λ i _,
    mutate i ns Flush (λ _, redirectToKeys db ns (logMutation "flush" db ns ""))).

Definition handleMaintain : U answer :=
  let db := PathValue vals "db" in
  let ns := PathValue vals "ns" in
  with_entry ns None (λ i _,
    mutate i ns Maintain (λ _, redirectToKeys db ns (logMutation "maintain" db ns ""))).

Definition handleVacuum : U answer :=
  let db := PathValue vals "db" in
  let ns := PathValue vals "ns" in
  with_entry ns None (λ i _,
    mutate i ns (lift_m Vacuum) (λ _, redirectToKeys db ns (logMutation "vacuum" db ns ""))).

(** The checks of the event handlers follow the opening of the file. *)
Definition events_entry (k : nat → U answer) : U answer :=
  with_entry "default" (form_check None) (λ i _, k i).

Definition handleDeleteEvent : U answer :=
  let db := PathValue vals "db" in
  events_entry (λ i,
    match ParseInt (PostForm_Get r "seq") with
    | None => writeBadRequest_ "missing or invalid seq"
    | Some seq =>
        mutate i "default" (lift_m (DeleteEvent seq))
          (λ _, redirectToEvents db (logMutation "event-delete" db "" ("seq=" +:+ FormatInt seq)))
    end).

(** A purge that fails half-way is an error for the handler. *)
Definition batched (m : M (Z * option error)) : M Z :=
  '(n, err) ← m;
  match err with Some e => fail e | None => mret n end.

Definition handlePurgeEvents : U answer :=
  let db := PathValue vals "db" in
  events_entry (λ i,
    match ParseDuration (PostForm_Get r "older_than") with
    | None => writeBadRequest_ "older_than must be a positive duration such as 30m or 24h"
    | Some age =>
        if age <=? 0 then writeBadRequest_ "older_than must be a positive duration such as 30m or 24h"
        else
          now ← u_now;
          mutate i "default" (lift_m (batched (DeleteEventsBefore ((now * Millisecond - age) / Millisecond))))
            (λ _, redirectToEvents db (logMutation "event-purge" db "" ("older_than=" +:+ Duration_String age)))
    end).

Definition handleClearChannel : U answer :=
  let db := PathValue vals "db" in
  events_entry (λ i,
    let channel := PostForm_Get r "channel" in
    if String.eqb channel "" || negb (String.eqb (PostForm_Get r "confirm_channel") channel)
    then writeBadRequest_ "confirmation text did not match the channel name"
    else
      mutate i "default" (lift_m (batched (DeleteChannelEvents channel)))
        (λ _, redirectToEvents db (logMutation "event-clear-channel" db "" ("channel=" +:+ channel)))).
End handlers.

(** ** Metrics

    The descriptors: the name of a metric and its variable labels. *)
Definition metric_descs : list (string * list string) :=
  [("lytecache_keys_total", ["database"; "namespace"]);
   ("lytecache_size_bytes", ["database"; "namespace"]);
   ("lytecache_expired_present_total", ["database"; "namespace"]);
   ("lytecache_max_bytes", ["database"]);
   ("lytecache_max_keys", ["database"]);
   ("lytecache_schema_version", ["database"]);
   ("lytecache_file_readable", ["database"]);
   ("lytecache_hits_total", ["database"]);
   ("lytecache_misses_total", ["database"]);
   ("lytecache_evictions_total", ["database"]);
   ("lytecache_expired_removed_total", ["database"]);
   ("lytecache_events_retained", ["database"; "channel"]);
   ("lytecache_events_published_total", ["database"]);
   ("lytecache_event_oldest_age_seconds", ["database"]);
   ("lytecache_subscriber_lag_events", ["database"; "namespace"; "cursor"]);
   ("lytecache_subscriber_lag_seconds", ["database"; "namespace"; "cursor"]);
   ("lytecache_subscriber_gap", ["database"; "namespace"; "cursor"]);
   ("lytecache_ui_scrape_duration_seconds", [])].
Definition variable_labels (name : string) : option (list string) :=
  snd <$> List.find (λ p, String.eqb p.1 name) metric_descs.

(** [prometheus.NewConstMetric]: does it accept these values for the variable
    labels of a descriptor? *)
Class Prometheus := { label_values_ok : list string → list string → bool }.

(** Its documentation: a value for each label, and values that are text. *)
Class PrometheusLaws (PM : Prometheus) : Prop :=
  values_accepted labels values :
    length values = length labels → forallb valid_utf8 values = true → label_values_ok labels values = true.

(** A registry that accepts nothing else. *)
Definition toy_prometheus : Prometheus :=
  {| label_values_ok labels values := Nat.eqb (length values) (length labels) && forallb valid_utf8 values |}.

(** [MustNewConstMetric] of each in turn: a metric that is not accepted is a
    panic, in a goroutine of the registry, that ends the scrape. *)
Definition const_metric_ok `{Prometheus} (m : metric) : bool :=
  match variable_labels (mt_name m) with
  | Some labels => label_values_ok labels (mt_labels m)
  | None => false
  end.
Definition MustNewConstMetrics `{Prometheus} (l : list metric) : U (list metric) :=
  if forallb const_metric_ok l then mret l else u_hang.

Definition gauge (name : string) (n : Z) (labels : list string) : metric := MkMetric name (float64_of n) labels.
Definition gauge_opt (name : string) (n : option Z) (labels : list string) : list metric :=
  match n with Some n => [gauge name n labels] | None => [] end.

Definition namespace_metrics (db : string) (i : NamespaceInfo) : list metric :=
  let labels := [db; NI_Namespace i] in
  [gauge "lytecache_keys_total" (NI_KeyCount i) labels; gauge "lytecache_size_bytes" (NI_SizeBytes i) labels;
   gauge "lytecache_expired_present_total" (NI_ExpiredPresent i) labels].

Definition stats_metrics (db : string) (s : Stats_) : list metric :=
  [gauge "lytecache_hits_total" (S_Hits s) [db]; gauge "lytecache_misses_total" (S_Misses s) [db];
   gauge "lytecache_evictions_total" (S_Evictions s) [db];
   gauge "lytecache_expired_removed_total" (S_ExpiredRemoved s) [db]].

Definition channel_metric (db : string) (ch : ChannelInfo) : metric :=
  gauge "lytecache_events_retained" (CI_Count ch) [db; CI_Channel ch].

Definition cursor_metrics (db : string) (r : CursorRow) : list metric :=
  let labels := [db; cr_Namespace r; cr_Name r] in
  [gauge "lytecache_subscriber_lag_events" (cr_LagEvents r) labels;
   gauge "lytecache_subscriber_gap" (if cr_Lost r || cr_Ahead r then 1 else 0) labels] ++
  (if cr_LagKnown r then [MkMetric "lytecache_subscriber_lag_seconds" (cr_LagSeconds r) labels] else []).

(** What a read that failed contributes. *)
Definition or_none {A} (f : A → list metric) (r : error + A) : list metric :=
  match r with inr a => f a | inl _ => [] end.

Section metrics.
Context {H : Host} {OS : Os} {FS : FileSystem} {PM : Prometheus}.

Definition event_metrics (db : string) (info : EventInfo) (now : Z) : list metric :=
  gauge "lytecache_events_published_total" (EI_NewestSeq info) [db] ::
  (if 0 <? EI_Count info
   then [MkMetric "lytecache_event_oldest_age_seconds" (max0 (Seconds (sub_ms now (default 0 (EI_OldestAt info))))) [db]]
   else []).

Definition collectEvents (db : string) (i : nat) : U (list metric) :=
  info ← on_handle i "default" (lift_m EventStats);
  match info with
  | inl _ => mret []
  | inr info =>
      if negb (EI_Enabled info) then mret []
      else
        now ← u_now;
        published ← MustNewConstMetrics (event_metrics db info now);
        channels ← on_handle i "default" (lift_m EventChannelStats);
        retained ← MustNewConstMetrics (or_none (fmap (channel_metric db)) channels);
        cursors ← on_handle i "default" (λ c, BuildCursorRows c info now);
        lags ← MustNewConstMetrics (or_none (λ l, concat (cursor_metrics db <$> l)) cursors);
        mret (published ++ retained ++ lags)
  end.

Definition file_metrics (db : string) (e : dbEntry) (c : Cache) : list metric :=
  [gauge "lytecache_file_readable" 1 [db]; gauge "lytecache_schema_version" (SchemaVersion c) [db]] ++
  gauge_opt "lytecache_max_bytes" (firstNonNil (DeclaredMaxBytes e) (Limits c).2) [db] ++
  gauge_opt "lytecache_max_keys" (firstNonNil (DeclaredMaxKeys e) (Limits c).1) [db].

Definition collectDatabase (db : string) : U (list metric) :=
  mgr ← get_mgr;
  match entry mgr db with
  | None => mret []
  | Some (i, e) =>
      c ← entry_Cache i "default";
      match c with
      | inl _ => MustNewConstMetrics [gauge "lytecache_file_readable" 0 [db]]
      | inr c =>
          file ← MustNewConstMetrics (file_metrics db e c);
          infos ← on_handle i "default" (lift_m Namespaces);
          sizes ← MustNewConstMetrics (or_none (λ l, concat (namespace_metrics db <$> l)) infos);
          stats ← on_handle i "default" Stats;
          counts ← MustNewConstMetrics (or_none (stats_metrics db) stats);
          events ← collectEvents db i;
          mret (file ++ sizes ++ counts ++ events)
      end
  end.

Fixpoint collect_all (names : list string) : U (list metric) :=
  match names with
  | [] => mret []
  | name :: names => l ← collectDatabase name; rest ← collect_all names; mret (l ++ rest)
  end.

Definition duration_metric (start stop : Z) : metric :=
  MkMetric "lytecache_ui_scrape_duration_seconds" (Seconds (sub_ms stop start)) [].

(** [metrics]: the last scrape is kept for the cache's TTL, with the time it
    was computed at. *)
Definition metrics_ (ttl : Z) (cached : option (Z * list metric)) : U (list metric * option (Z * list metric)) :=
  let ttl := if ttl <=? 0 then DefaultMetricsCacheTTL else ttl in
  let compute :=
    start ← u_now;
    mgr ← get_mgr;
    out ← collect_all (Names mgr);
    stop ← u_now;
    took ← MustNewConstMetrics [duration_metric start stop];
    at_ ← u_now;
    let out := out ++ took in
    mret (out, Some (at_, out)) in
  match cached with
  | Some (at_, out) =>
      now ← u_now;
      if sub_ms now at_ <? ttl then mret (out, cached) else compute
  | None => compute
  end.

Definition requireMetricsAuth (cfg : Config) (r : Request) : bool :=
  String.eqb (cf_metricsToken cfg) "" || String.eqb (r_authorization r) ("Bearer " +:+ cf_metricsToken cfg).
End metrics.
