(* ===== verification/UiMetrics.v ===== *)
(** What a scrape of [/metrics] contains ([ui/metrics.go] of lytecache-cli): a
    registry answers a scrape with an error when one series, a metric with its
    label values, occurs twice in it, and the collector panics when the values
    do not fit the descriptor. *)

From Stdlib Require Import SpecFloat.
From S2P Require Import Prelude GoStd Values Store Engine Channels EventLog EventAdmin Sweep Changes Kv Reads Open.
From S2P Require Import GoBase64 GoText UiSafe UiLimit UiSession UiAccounts UiAuth UiDb UiView UiEvents UiPages.
Open Scope Z_scope.

(** ** What a handler returns when it succeeds *)

Definition uyields {A} (m : U A) (P : A → Prop) : Prop := ∀ u a, (m u).1 = Ok a → P a.

Section uyields.
Context {H : Host}.

Lemma uyields_bind_with {A B} (m : U A) (P : A → Prop) (k : A → U B) (Q : B → Prop) :
  uyields m P → (∀ a, P a → uyields (k a) Q) → uyields (m ≫= k) Q.
Proof.
  intros Hm Hk u b. unfold mbind, U_bind. specialize (Hm u). destruct (m u) as [[a|e|] u']; [|done..].
  by apply Hk, Hm.
Qed.
Lemma uyields_bind {A B} (m : U A) (k : A → U B) Q : (∀ a, uyields (k a) Q) → uyields (m ≫= k) Q.
Proof. intros Hk. apply (uyields_bind_with m (λ _, True)); [done|auto]. Qed.
Lemma uyields_ret {A} (a : A) (P : A → Prop) : P a → uyields (mret a) P.
Proof. by intros HP u ? [= <-]. Qed.
Lemma uyields_hang {A} (P : A → Prop) : uyields u_hang P.
Proof. by intros u a. Qed.
Lemma uyields_on_handle {A} i ns (m : Cache → M A) (P : A → Prop) :
  (∀ c, yields (m c) P) → uyields (on_handle i ns m) (λ r, ∀ a, r = inr a → P a).
Proof.
  intros Hm u r Hr a ->. destruct (on_handle i ns m u) as [r' u'] eqn:Hu. simpl in Hr. subst r'.
  apply on_handle_Ok in Hu as (c & w & w' & Hc). by apply (Hm c w a); rewrite Hc.
Qed.
End uyields.

(** ** Series *)

Definition series (m : metric) : string * list string := (mt_name m, mt_labels m).

(** A cursor without a name shares its series with another only when the meta
    table holds a key of a foreign form, [cursor:] without a second colon. *)
Definition named (m : metric) : bool :=
  match mt_labels m with [_; _; name] => negb (String.eqb name "") | _ => true end.

Abbreviation distinct l := (NoDup (series <$> List.filter named l)).

Lemma distinct_app l1 l2 :
  distinct l1 → distinct l2 →
  (∀ m1 m2, m1 ∈ l1 → m2 ∈ l2 → series m1 ≠ series m2) → distinct (l1 ++ l2).
Proof.
  intros H1 H2 Hd. rewrite List.filter_app, fmap_app. apply NoDup_app. split_and!; [done| |done].
  intros x (m1 & -> & [_ Hm1]%elem_of_bfilter)%list_elem_of_fmap (m2 & He & [_ Hm2]%elem_of_bfilter)%list_elem_of_fmap.
  by apply (Hd m1 m2).
Qed.

(** Families of metrics with names of their own. *)
Definition family (names : list string) (l : list metric) : Prop := ∀ m, m ∈ l → mt_name m ∈ names.
Lemma distinct_families n1 n2 l1 l2 :
  family n1 l1 → family n2 l2 → forallb (λ n, negb (bool_decide (n ∈ n2))) n1 = true →
  distinct l1 → distinct l2 → distinct (l1 ++ l2).
Proof.
  intros Hf1 Hf2 Hn H1 H2. apply distinct_app; [done..|]. intros m1 m2 Hm1 Hm2 [= He _].
  apply Hf1 in Hm1. apply Hf2 in Hm2. rewrite forallb_forall in Hn. apply list_elem_of_In, Hn in Hm1.
  apply negb_true_iff, bool_decide_eq_false in Hm1. by rewrite He in Hm1.
Qed.
Lemma family_app n1 n2 l1 l2 : family n1 l1 → family n2 l2 → family (n1 ++ n2) (l1 ++ l2).
Proof. intros H1 H2 m [Hm|Hm]%elem_of_app; apply elem_of_app; [left; by apply H1|right; by apply H2]. Qed.
Lemma family_concat {A} names (f : A → list metric) l : (∀ a, family names (f a)) → family names (concat (f <$> l)).
Proof.
  intros Hf m. induction l as [|a l IH]; cbn [fmap list_fmap concat]; [by intros ?%elem_of_nil|].
  intros [Hm|Hm]%elem_of_app; [by apply (Hf a)|by apply IH].
Qed.

(** One group of metrics per item, whose labels are those of the item. *)
Lemma distinct_concat {A} (f : A → list metric) (key : A → list string) (keep : A → bool) l :
  (∀ a m, m ∈ f a → mt_labels m = key a ∧ named m = keep a) → (∀ a, distinct (f a)) →
  NoDup (key <$> List.filter keep l) → distinct (concat (f <$> l)).
Proof.
  intros Hkey Hf. induction l as [|a l IH]; cbn [fmap list_fmap concat List.filter]; intros Hnd; [constructor|].
  destruct (keep a) eqn:Hk; cbn [fmap list_fmap] in Hnd.
  - apply NoDup_cons in Hnd as [Hni Hnd]. rewrite List.filter_app, fmap_app. apply NoDup_app. split_and!; [done| |by apply IH].
    intros x (m1 & -> & [_ Hm1]%elem_of_bfilter)%list_elem_of_fmap (m2 & He & [Hn Hm2]%elem_of_bfilter)%list_elem_of_fmap.
    apply Hni. assert (∃ b, b ∈ l ∧ m2 ∈ f b) as (b & Hb & Hmb).
    { clear -Hm2. induction l as [|b l IH]; cbn [fmap list_fmap concat] in Hm2; [by apply elem_of_nil in Hm2|].
      apply elem_of_app in Hm2 as [Hm|Hm]; [exists b; split; [by left|done]|].
      destruct (IH Hm) as (b' & ? & ?). exists b'. split; [by right|done]. }
    destruct (Hkey a m1 Hm1) as [<- _], (Hkey b m2 Hmb) as [Hl Hkb]. apply list_elem_of_fmap. exists b.
    split; [injection He as _ ->; exact Hl|]. apply elem_of_bfilter. by rewrite <- Hkb.
  - rewrite List.filter_app. rewrite (bfilter_none named (f a)); [by apply IH|].
    intros m Hm. destruct (Hkey a m Hm) as [_ ->]. exact Hk.
Qed.

(** ** What the library reports is distinct *)
Section library.
Context {H : Host} {GL : GoLib}.

Lemma yields_Namespaces : yields Namespaces (λ l, NoDup (NI_Namespace <$> l)).
Proof.
  unfold Namespaces. apply yields_bind. intros now. apply yields_query. intros d.
  rewrite <- list_fmap_compose. change (NI_Namespace ∘ namespace_info now (db_cache d)) with (@id string).
  rewrite list_fmap_id. unfold sort_strings. rewrite merge_sort_Permutation. apply NoDup_remove_dups.
Qed.

Lemma yields_EventChannelStats : yields EventChannelStats (λ l, NoDup (CI_Channel <$> l)).
Proof.
  unfold EventChannelStats. apply yields_bind. intros [|]; [|apply yields_ret; constructor].
  eapply (yields_bind_with _ (λ o, ∀ l, o = Some l → NoDup (CI_Channel <$> l))).
  - apply yields_query. intros d l. unfold read_events. destruct (db_events d) as [t|]; [|done]. intros [= <-].
    rewrite <- list_fmap_compose. change (CI_Channel ∘ channel_info t) with (@id string).
    rewrite list_fmap_id. unfold sort_strings. rewrite merge_sort_Permutation. apply NoDup_remove_dups.
  - intros [l|] Hl; [apply yields_ret; by apply Hl|apply yields_fail].
Qed.

(** The names of the cursors that have one. *)
Definition named_row (r : CursorRow) : bool := negb (String.eqb (cr_Name r) "").

Lemma yields_Cursors c :
  yields (Cursors c) (λ l, NoDup ((λ ci, (CU_Namespace ci, CU_Name ci)) <$> List.filter named_cursor l)).
Proof.
  unfold Cursors. eapply (yields_bind_with _ (λ raw, NoDup raw.*1 ∧ Forall (λ e, substr1 e.1 7 = "cursor:") raw)).
  - apply yields_query. intros d. split.
    + rewrite merge_sort_Permutation. eapply sublist_NoDup; [apply (NoDup_fst_map_to_list (db_meta d))|].
      apply bfilter_fmap_sublist.
    + apply Forall_forall. intros e. rewrite merge_sort_Permutation. intros [He _]%elem_of_bfilter. by apply String.eqb_eq.
  - intros raw [Hnd Hp]. destruct raw as [|e raw]; [apply yields_ret; constructor|]. apply yields_bind. intros known.
    apply yields_ret. set (l := omap _ _).
    assert (List.filter named_cursor (merge_sort cursor_le l) ≡ₚ List.filter named_cursor l) as ->.
    { generalize (merge_sort_Permutation cursor_le l). induction 1; simpl; repeat case_match; eauto using Permutation. }
    by apply cursors_distinct.
Qed.

Lemma yields_cursor_rows newest oldest now l :
  yields (cursor_rows newest oldest now l)
    (λ rows, (λ r, (cr_Namespace r, cr_Name r)) <$> rows = (λ ci, (CU_Namespace ci, CU_Name ci)) <$> l).
Proof.
  induction l as [|ci l IH]; cbn [cursor_rows]; [by apply yields_ret|].
  eapply (yields_bind_with _ (λ r, (cr_Namespace r, cr_Name r) = (CU_Namespace ci, CU_Name ci))).
  - unfold cursor_row. repeat case_match; try by apply yields_ret. apply yields_bind. intros next.
    apply yields_ret. by repeat case_match.
  - intros r Hr. eapply yields_bind_with; [exact IH|]. intros rows Hrows. apply yields_ret. simpl. by f_equal.
Qed.

Lemma yields_BuildCursorRows c info now :
  yields (BuildCursorRows c info now) (λ rows, NoDup ((λ r, (cr_Namespace r, cr_Name r)) <$> List.filter named_row rows)).
Proof.
  unfold BuildCursorRows. eapply yields_bind_with; [apply yields_Cursors|]. intros l Hl.
  eapply yields_mono; [|apply yields_cursor_rows]. intros rows Hrows. simpl in Hrows.
  assert ((λ r, (cr_Namespace r, cr_Name r)) <$> List.filter named_row rows =
          (λ ci, (CU_Namespace ci, CU_Name ci)) <$> List.filter named_cursor l) as ->; [|done].
  revert l Hl Hrows. induction rows as [|r rows IH]; intros [|ci l] Hl Hrows; try done.
  cbn [fmap list_fmap] in Hrows. injection Hrows as Hns Hn Hrows. cbn [List.filter] in *.
  unfold named_row at 1, named_cursor at 1. rewrite Hn. unfold named_cursor at 1 in Hl.
  destruct (negb (String.eqb (CU_Name ci) "")); cbn [fmap list_fmap] in *; [|by apply IH].
  apply NoDup_cons in Hl as [_ Hl]. rewrite (IH l Hl Hrows). by rewrite Hns, Hn.
Qed.
End library.

(** ** A scrape *)
Section scrape.
Context {H : Host} {OS : Os} {FS : FileSystem} {GL : GoLib} {PM : Prometheus}.

Definition n_file : list string :=
  ["lytecache_file_readable"; "lytecache_schema_version"; "lytecache_max_bytes"; "lytecache_max_keys"].
Definition n_sizes : list string := ["lytecache_keys_total"; "lytecache_size_bytes"; "lytecache_expired_present_total"].
Definition n_counts : list string :=
  ["lytecache_hits_total"; "lytecache_misses_total"; "lytecache_evictions_total"; "lytecache_expired_removed_total"].
Definition n_published : list string := ["lytecache_events_published_total"; "lytecache_event_oldest_age_seconds"].
Definition n_retained : list string := ["lytecache_events_retained"].
Definition n_lags : list string :=
  ["lytecache_subscriber_lag_events"; "lytecache_subscriber_gap"; "lytecache_subscriber_lag_seconds"].

(** A group of families: distinct, under the database's name, accepted. *)
Record group (names : list string) (db : string) (l : list metric) : Prop := {
  group_family : family names l;
  group_distinct : distinct l;
  group_db m : m ∈ l → head (mt_labels m) = Some db
}.

Lemma group_nil names db : group names db [].
Proof. split; [by intros m ?%elem_of_nil|constructor|by intros m ?%elem_of_nil]. Qed.
Lemma group_app n1 n2 db l1 l2 :
  forallb (λ n, negb (bool_decide (n ∈ n2))) n1 = true → group n1 db l1 → group n2 db l2 → group (n1 ++ n2) db (l1 ++ l2).
Proof.
  intros Hn [Hf1 Hd1 Hh1] [Hf2 Hd2 Hh2]. split; [by apply family_app|by eapply distinct_families|].
  intros m [Hm|Hm]%elem_of_app; auto.
Qed.

(** Go through the metrics of an explicit list. *)
Ltac each_metric :=
  let m := fresh "m" in let Hm := fresh "Hm" in intros m Hm;
  repeat (apply elem_of_cons in Hm as [->|Hm]; [by vm_compute; repeat constructor|]); by apply elem_of_nil in Hm.
(** Decide that the metrics of an explicit list are distinct. *)
Ltac distinct_metrics := by apply (bool_decide_unpack _); vm_compute.

Lemma group_concat {A} names db (f : A → list metric) (key : A → list string) (keep : A → bool) l :
  (∀ a m, m ∈ f a → mt_name m ∈ names) → (∀ a, distinct (f a)) →
  (∀ a m, m ∈ f a → mt_labels m = db :: key a ∧ named m = keep a) →
  NoDup (key <$> List.filter keep l) → group names db (concat (f <$> l)).
Proof.
  intros Hf Hd Hkey Hnd. split.
  - by apply family_concat.
  - apply (distinct_concat f (λ a, db :: key a) keep); [done..|].
    change (λ a, db :: key a) with ((cons db) ∘ key). rewrite list_fmap_compose. by apply (NoDup_fmap_2 _).
  - intros m. clear Hnd. induction l as [|a l IH]; cbn [fmap list_fmap concat]; [by intros ?%elem_of_nil|].
    intros [Hm|Hm]%elem_of_app; [|by apply IH]. by destruct (Hkey a m Hm) as [-> _].
Qed.

Lemma group_file db e c : group n_file db (file_metrics db e c).
Proof.
  unfold file_metrics. destruct (firstNonNil (DeclaredMaxBytes e) _), (firstNonNil (DeclaredMaxKeys e) _);
    (split; [each_metric|distinct_metrics|each_metric]).
Qed.

Lemma group_counts db s : group n_counts db (stats_metrics db s).
Proof. split; [each_metric|distinct_metrics|each_metric]. Qed.

Lemma group_published db info now : group n_published db (event_metrics db info now).
Proof. unfold event_metrics. destruct (0 <? _); (split; [each_metric|distinct_metrics|each_metric]). Qed.

Lemma NoDup_key {A B} (f : A → B) (keep : A → bool) l :
  NoDup (f <$> List.filter keep l) → NoDup ((λ a, [f a]) <$> List.filter keep l).
Proof.
  change (λ a, [f a]) with ((λ x, [x]) ∘ f). rewrite list_fmap_compose. apply (NoDup_fmap_2 _).
Qed.

Lemma group_sizes db l : NoDup (NI_Namespace <$> l) → group n_sizes db (concat (namespace_metrics db <$> l)).
Proof.
  intros Hnd. apply (group_concat _ _ _ (λ i, [NI_Namespace i]) (λ _, true)).
  - intros a. each_metric.
  - intros a. distinct_metrics.
  - intros a. each_metric.
  - apply NoDup_key. by rewrite bfilter_all.
Qed.

Lemma group_retained db l : NoDup (CI_Channel <$> l) → group n_retained db (channel_metric db <$> l).
Proof.
  intros Hnd. assert (channel_metric db <$> l = concat ((λ ch, [channel_metric db ch]) <$> l)) as ->.
  { clear Hnd. induction l as [|ch l IH]; [done|]. cbn [fmap list_fmap concat app]. by rewrite IH. }
  apply (group_concat _ _ _ (λ ch, [CI_Channel ch]) (λ _, true)).
  - intros a. each_metric.
  - intros a. distinct_metrics.
  - intros a. each_metric.
  - apply NoDup_key. by rewrite bfilter_all.
Qed.

Lemma group_lags db l :
  NoDup ((λ r, (cr_Namespace r, cr_Name r)) <$> List.filter named_row l) →
  group n_lags db (concat (cursor_metrics db <$> l)).
Proof.
  intros Hnd. apply (group_concat _ _ _ (λ r, [cr_Namespace r; cr_Name r]) named_row).
  - intros a. unfold cursor_metrics. destruct (cr_LagKnown a); each_metric.
  - intros a. unfold cursor_metrics. unfold named. simpl.
    destruct (cr_LagKnown a), (negb (String.eqb (cr_Name a) "")) eqn:Hn; simpl; rewrite ?Hn; distinct_metrics.
  - intros a. unfold cursor_metrics. destruct (cr_LagKnown a); each_metric.
  - change (λ r, [cr_Namespace r; cr_Name r]) with ((λ p : string * string, [p.1; p.2]) ∘ λ r, (cr_Namespace r, cr_Name r)).
    rewrite list_fmap_compose. apply (NoDup_fmap_2_strong _); [|done]. intros [x y] [x' y'] _ _. simpl. congruence.
Qed.

(** *** From the handlers *)

Abbreviation accepted l := (forallb const_metric_ok l = true).

Lemma uyields_metrics l (P : list metric → Prop) :
  P l → uyields (MustNewConstMetrics l) (λ l', P l' ∧ accepted l').
Proof.
  intros HP. unfold MustNewConstMetrics. destruct (forallb const_metric_ok l) eqn:Hok; [|apply uyields_hang].
  by apply uyields_ret.
Qed.

Lemma or_none_group {A} names db (f : A → list metric) (P : A → Prop) (r : error + A) :
  (∀ a, P a → group names db (f a)) → (∀ a, r = inr a → P a) → group names db (or_none f r).
Proof. intros Hf Hr. destruct r as [e|a]; [apply group_nil|by apply Hf, Hr]. Qed.

Lemma uyields_collectEvents db i :
  uyields (collectEvents db i) (λ l, group (n_published ++ n_retained ++ n_lags) db l ∧ accepted l).
Proof.
  unfold collectEvents. apply uyields_bind. intros [e|info].
  { apply uyields_ret. split; [|done]. split; [by intros m ?%elem_of_nil|constructor|by intros m ?%elem_of_nil]. }
  destruct (negb _).
  { apply uyields_ret. split; [|done]. split; [by intros m ?%elem_of_nil|constructor|by intros m ?%elem_of_nil]. }
  apply uyields_bind. intros now.
  eapply uyields_bind_with; [apply (uyields_metrics _ (group n_published db)), group_published|]. intros published [Hp Hpa].
  eapply uyields_bind_with; [apply uyields_on_handle; intros c; apply yields_EventChannelStats|]. intros channels Hch.
  eapply uyields_bind_with.
  { apply (uyields_metrics _ (group n_retained db)). eapply or_none_group; [|exact Hch]. apply group_retained. }
  intros retained [Hr Hra].
  eapply uyields_bind_with; [apply uyields_on_handle; intros c; apply yields_BuildCursorRows|]. intros cursors Hcu.
  eapply uyields_bind_with.
  { apply (uyields_metrics _ (group n_lags db)). eapply or_none_group; [|exact Hcu]. apply group_lags. }
  intros lags [Hl Hla]. apply uyields_ret. split; [|by rewrite !forallb_app, Hpa, Hra, Hla].
  by repeat apply group_app.
Qed.

(** The metrics of one database. *)
Definition database_ok (db : string) (l : list metric) : Prop :=
  distinct l ∧ accepted l ∧ ∀ m, m ∈ l → head (mt_labels m) = Some db.

Lemma uyields_collectDatabase db : uyields (collectDatabase db) (database_ok db).
Proof.
  unfold collectDatabase. apply uyields_bind. intros mgr.
  destruct (entry mgr db) as [[i e]|]; [|by apply uyields_ret; split_and!; [constructor| |by intros m ?%elem_of_nil]].
  apply uyields_bind. intros [err|c].
  { intros u l Hl. apply (uyields_metrics _ (λ l, l = [gauge "lytecache_file_readable" 0 [db]])) in Hl as [-> Ha]; [|done].
    split_and!; [distinct_metrics|done|each_metric]. }
  eapply uyields_bind_with; [apply (uyields_metrics _ (group n_file db)), group_file|]. intros file [Hf Hfa].
  eapply uyields_bind_with; [apply uyields_on_handle; intros c'; apply yields_Namespaces|]. intros infos Hi.
  eapply uyields_bind_with.
  { apply (uyields_metrics _ (group n_sizes db)). eapply or_none_group; [|exact Hi]. apply group_sizes. }
  intros sizes [Hs Hsa]. apply uyields_bind. intros stats.
  eapply uyields_bind_with.
  { apply (uyields_metrics _ (group n_counts db)). apply (or_none_group _ _ _ (λ _, True)); [|done]. intros s _. apply group_counts. }
  intros counts [Hc Hca]. eapply uyields_bind_with; [apply uyields_collectEvents|]. intros events [He Hea].
  apply uyields_ret.
  assert (group (n_file ++ n_sizes ++ n_counts ++ n_published ++ n_retained ++ n_lags) db (file ++ sizes ++ counts ++ events))
    as [_ Hd Hdb] by by repeat apply group_app.
  split_and!; [done|by rewrite !forallb_app, Hfa, Hsa, Hca, Hea|done].
Qed.

Lemma uyields_collect_all names :
  NoDup names →
  uyields (collect_all names) (λ l, distinct l ∧ accepted l ∧ ∀ m, m ∈ l → ∃ db, db ∈ names ∧ head (mt_labels m) = Some db).
Proof.
  induction names as [|db names IH]; cbn [collect_all]; intros Hnd.
  { apply uyields_ret. split_and!; [constructor|done|by intros m ?%elem_of_nil]. }
  apply NoDup_cons in Hnd as [Hni Hnd].
  eapply uyields_bind_with; [apply uyields_collectDatabase|]. intros l (Hd & Ha & Hdb).
  eapply uyields_bind_with; [by apply IH|]. intros rest (Hdr & Har & Hdbr). apply uyields_ret. split_and!.
  - apply distinct_app; [done..|]. intros m1 m2 Hm1 Hm2 [= _ Hl]. destruct (Hdbr m2 Hm2) as (db' & Hin & Hh).
    rewrite <- Hl, (Hdb m1 Hm1) in Hh. injection Hh as ->. done.
  - by rewrite forallb_app, Ha, Har.
  - intros m [Hm|Hm]%elem_of_app; [exists db; split; [left|by apply Hdb]|].
    destruct (Hdbr m Hm) as (db' & ? & ?). exists db'. split; [by right|done].
Qed.

(** What a registry can answer a scrape with. *)
Definition scrape_ok (l : list metric) : Prop := distinct l ∧ accepted l.

(** C39: a scrape of /metrics never repeats a series. Whatever is in
    the files, whatever other processes write to them meanwhile and whichever
    read fails: when the collector ends, no series (a name with its label
    values) appears twice among its metrics, those of cursors with an empty
    name aside, and every metric fits its descriptor; and when the answer is
    served again from the collector's cache, that still holds. The databases are
    served under distinct names. *)
Theorem scrape_distinct ttl cached u l cached' u' :
  mgr_wf (ui_mgr u) → (∀ t l0, cached = Some (t, l0) → scrape_ok l0) →
  metrics_ ttl cached u = (Ok (l, cached'), u') →
  scrape_ok l ∧ ∀ t l0, cached' = Some (t, l0) → scrape_ok l0.
Proof.
  intros Hwf Hcached. unfold metrics_. set (t := if ttl <=? 0 then _ else _). set (compute := u_now ≫= _).
  assert (∀ u, mgr_wf (ui_mgr u) → ∀ l cached', (compute u).1 = Ok (l, cached') →
    scrape_ok l ∧ ∀ t l0, cached' = Some (t, l0) → scrape_ok l0) as Hcompute.
  { clear. intros u Hwf l cached'. unfold compute, u_now at 1, get_mgr at 1, mbind at 1 2, U_bind at 1 2. cbn [ui_mgr].
    set (u1 := MkUi (ui_mgr u) (ui_files u) (S (ui_step u)) (ui_mono u)).
    assert (uyields (out ← collect_all (Names (ui_mgr u)); stop ← u_now;
      took ← MustNewConstMetrics [duration_metric (clock (ui_step u)) stop];
      at_ ← u_now; mret (out ++ took, Some (at_, out ++ took)))
      (λ r, scrape_ok r.1 ∧ ∀ t l0, r.2 = Some (t, l0) → scrape_ok l0)) as Hy.
    { eapply uyields_bind_with; [apply uyields_collect_all, mgr_wf_NoDup, Hwf|]. intros out (Hd & Ha & Hdb).
      apply uyields_bind. intros stop.
      eapply uyields_bind_with; [by apply (uyields_metrics _ (λ l, l = [duration_metric (clock (ui_step u)) stop]))|]. intros took [-> Ht].
      apply uyields_bind. intros at_. apply uyields_ret.
      assert (scrape_ok (out ++ [duration_metric (clock (ui_step u)) stop]))
        as Hok.
      { split; [|by rewrite forallb_app, Ha, Ht]. apply distinct_app; [done|distinct_metrics|].
        intros m1 m2 Hm1 ->%list_elem_of_singleton [= _ Hl]. destruct (Hdb m1 Hm1) as (db & _ & Hh). by rewrite Hl in Hh. }
      split; [done|]. simpl. by intros t' l0 [= _ <-]. }
    intros Hr. apply (Hy u1 (l, cached') Hr). }
  destruct cached as [[at_ out]|].
  - unfold mbind at 1, U_bind at 1, u_now at 1. destruct (_ <? t).
    + intros [= <- <- <-]. split; [by eapply Hcached|]. intros t' l0 [= <- <-]. by eapply Hcached.
    + intros Hr. eapply (Hcompute (MkUi (ui_mgr u) (ui_files u) (S (ui_step u)) (ui_mono u))); [done|]. by rewrite Hr.
  - intros Hr. eapply (Hcompute u); [done|]. by rewrite Hr.
Qed.

(** *** The values fit the labels *)

(** As many values as the descriptor has labels. *)
Definition described (m : metric) : Prop :=
  length (mt_labels m) = length (default [] (variable_labels (mt_name m))) ∧ is_Some (variable_labels (mt_name m)).

Lemma described_accepted `{!PrometheusLaws PM} m :
  described m → forallb valid_utf8 (mt_labels m) = true → const_metric_ok m = true.
Proof.
  intros [Hl [labels Hd]] Hv. unfold const_metric_ok. rewrite Hd in *. by apply values_accepted.
Qed.

(** Every metric that the collector builds has a value for each label of its
    descriptor: only text that is not UTF-8 can make it panic. *)
Theorem metrics_described db e c infos stats info now channels rows start stop m :
  m ∈ gauge "lytecache_file_readable" 0 [db] :: file_metrics db e c ++ concat (namespace_metrics db <$> infos) ++
      stats_metrics db stats ++ event_metrics db info now ++ (channel_metric db <$> channels) ++
      concat (cursor_metrics db <$> rows) ++ [duration_metric start stop] →
  described m.
Proof using Type.
  assert (∀ {X} (f : X → list metric) l, (∀ x m, m ∈ f x → described m) → m ∈ concat (f <$> l) → described m) as Hconcat.
  { intros X f l Hf. induction l as [|x l IH]; cbn [fmap list_fmap concat]; [by intros ?%elem_of_nil|].
    intros [Hm|Hm]%elem_of_app; [by eapply Hf|by apply IH]. }
  intros [->|[Hm|[Hm|[Hm|[Hm|[Hm|[Hm|Hm]%elem_of_app]%elem_of_app]%elem_of_app]%elem_of_app]%elem_of_app]%elem_of_app]%elem_of_cons.
  - by split; [|eexists].
  - unfold file_metrics in Hm. destruct (firstNonNil (DeclaredMaxBytes e) _), (firstNonNil (DeclaredMaxKeys e) _); simpl in Hm;
      repeat (apply elem_of_cons in Hm as [->|Hm]; [by split; [|eexists]|]); by apply elem_of_nil in Hm.
  - revert Hm. apply Hconcat. intros i m' Hm. unfold namespace_metrics in Hm.
    repeat (apply elem_of_cons in Hm as [->|Hm]; [by split; [|eexists]|]). by apply elem_of_nil in Hm.
  - unfold stats_metrics in Hm. repeat (apply elem_of_cons in Hm as [->|Hm]; [by split; [|eexists]|]). by apply elem_of_nil in Hm.
  - unfold event_metrics in Hm. destruct (0 <? _);
      repeat (apply elem_of_cons in Hm as [->|Hm]; [by split; [|eexists]|]); by apply elem_of_nil in Hm.
  - apply list_elem_of_fmap in Hm as (ch & -> & _). by split; [|eexists].
  - revert Hm. apply Hconcat. intros r m' Hm. unfold cursor_metrics in Hm. destruct (cr_LagKnown r);
      repeat (apply elem_of_cons in Hm as [->|Hm]; [by split; [|eexists]|]); by apply elem_of_nil in Hm.
  - apply list_elem_of_singleton in Hm as ->. by split; [|eexists].
Qed.
End scrape.

(** ** Concrete scrapes *)
#[local] Existing Instances toy_prometheus toy_lib toy_files.

#[global] Instance toy_prometheus_laws : PrometheusLaws toy_prometheus.
Proof. intros labels values Hl Hv. simpl. by rewrite Hl, Nat.eqb_refl, Hv. Qed.

Lemma toy_mgr_wf n : mgr_wf (ui_mgr (toy_ui n)).
Proof. apply NewManager_wf. simpl. apply NoDup_cons. split; [set_solver|apply NoDup_singleton]. Qed.

Lemma scrape_distinct_witness :
  let _ := still_host 100 in let _ := toy_os (λ _, None) (λ _, false) in
  ∃ l cached u', metrics_ 0 None (toy_ui 3) = (Ok (l, cached), u') ∧ length l = 19%nat ∧ scrape_ok l.
Proof.
  intros host os.
  assert (Hl : match (metrics_ 0 None (toy_ui 3)).1 with Ok (l, _) => length l | _ => O end = 19%nat) by (vm_compute; reflexivity).
  destruct (metrics_ 0 None (toy_ui 3)) as [[[l cached]|e|] u'] eqn:Hm; [|discriminate Hl|discriminate Hl].
  exists l, cached, u'. split; [reflexivity|]. split; [exact Hl|].
  refine (proj1 (scrape_distinct 0 None (toy_ui 3) l cached u' _ _ Hm)).
  - exact (toy_mgr_wf 3).
  - intros t l0 Hc. discriminate Hc.
Defined.

(** A namespace whose name is not UTF-8, which [New] accepts, ends every scrape
    of a server that serves its file. *)
Definition latin1_ui : UiState :=
  MkUi (NewManager [MkSource "a" "/a.db" None None None])
    {[ "/a.db" := set_cache {[ (String "255" "", "k") := Row "v" typeString 0 None 0 0 1 ]} empty_db ]} 0 0.

Example scrape_panics :
  let _ := still_host 100 in let _ := toy_os (λ _, None) (λ _, false) in
  (metrics_ 0 None latin1_ui).1 = Hang.
Proof. vm_compute. reflexivity. Qed.
