(* ===== verification/UiServer.v ===== *)
(** The web UI as one program ([ui/routes.go], [ui/server.go] of lytecache-cli):
    the router, a request from the middleware to its handler, the start of a
    server, and what no request can do. *)

From S2P Require Import Prelude GoStd Values Store Engine Channels EventLog EventAdmin Sweep Changes Kv Reads Open GoBase64 GoText UiSafe UiLimit UiSession UiAccounts UiAuth UiDb UiView UiEvents UiPages.
Open Scope Z_scope.

(** ** The router

    Patterns are matched segment by segment on the escaped path, after
    decoding each segment, as [http.ServeMux] does. *)
Inductive segment := Lit (s : string) | Wild (name : string) | Rest (name : string).

Inductive route :=
  | RIndex | RDashboard | RDBRedirect | RKeys | RKeyDetail | REvents | REventDetail | RSearch | RHealthz
  | RAccount
  | RDeleteKey | RDeleteKeys | RFlush | RMaintain | RVacuum | RDeleteEvent | RPurgeEvents | RClearChannel
  | RStatic | RMetrics.
#[global] Instance route_eq_dec : EqDecision route.
Proof. solve_decision. Defined.

Definition db_ns_path (tail : list segment) : list segment :=
  [Lit "db"; Wild "db"; Lit "namespaces"; Wild "ns"] ++ tail.
Definition db_event_path (tail : list segment) : list segment := [Lit "db"; Wild "db"; Lit "events"] ++ tail.

Definition registerMutationRoutes : list (string * list segment * route) :=
  [("POST", db_ns_path [Lit "delete-key"], RDeleteKey);
   ("POST", db_ns_path [Lit "delete-keys"], RDeleteKeys);
   ("POST", db_ns_path [Lit "flush"], RFlush);
   ("POST", db_ns_path [Lit "maintain"], RMaintain);
   ("POST", db_ns_path [Lit "vacuum"], RVacuum);
   ("POST", db_event_path [Lit "delete-event"], RDeleteEvent);
   ("POST", db_event_path [Lit "purge"], RPurgeEvents);
   ("POST", db_event_path [Lit "clear-channel"], RClearChannel)].

Definition registerStaticRoutes : list (string * list segment * route) := [("GET", [Lit "static"; Rest "path"], RStatic)].
Definition registerMetricsRoute (noMetrics : bool) : list (string * list segment * route) :=
  if noMetrics then [] else [("GET", [Lit "metrics"], RMetrics)].

Definition routes (noMetrics : bool) : list (string * list segment * route) :=
  [("GET", [Lit ""], RIndex);
   ("GET", [Lit "dashboard"], RDashboard);
   ("GET", [Lit "db"; Wild "db"], RDBRedirect);
   ("GET", db_ns_path [Lit "keys"], RKeys);
   ("GET", db_ns_path [Lit "keys"; Rest "key"], RKeyDetail);
   ("GET", db_event_path [], REvents);
   ("GET", db_event_path [Wild "seq"], REventDetail);
   ("GET", [Lit "search"], RSearch);
   ("GET", [Lit "healthz"], RHealthz);
   ("GET", [Lit "login"], RAccount);
   ("POST", [Lit "login"], RAccount);
   ("POST", [Lit "logout"], RAccount);
   ("GET", [Lit "change-password"], RAccount);
   ("POST", [Lit "change-password"], RAccount)] ++
  registerMutationRoutes ++ registerStaticRoutes ++ registerMetricsRoute noMetrics.

(** The path after its leading slash, cut at the slashes; a path that ends in a
    slash has an empty last segment, which only a literal end or a rest matches. *)
Fixpoint match_segments (pat : list segment) (segs : list string) : option (list (string * string)) :=
  match pat, segs with
  | [], [] => Some []
  | Lit s :: pat, x :: segs => if String.eqb (PathUnescape x) s then match_segments pat segs else None
  | Wild n :: pat, x :: segs =>
      if String.eqb x "" then None else vals ← match_segments pat segs; Some ((n, PathUnescape x) :: vals)
  | [Rest n], _ :: _ => Some [(n, PathUnescape (Join segs "/"))]
  | _, _ => None
  end.

Definition method_matches (pattern method : string) : bool :=
  String.eqb pattern method || String.eqb pattern "GET" && String.eqb method "HEAD".

Definition segments (path : string) : list string := Split (drop_str 1 path) "/".

(** [cleanPath]: rooted, no empty or dot segment inside, a final slash kept. *)
Definition clean_segment (out : list string) (x : string) : list string :=
  if bool_decide (x ∈ [""; "."]) then out
  else if String.eqb x ".." then removelast out else out ++ [x].
Definition cleanPath (path : string) : string :=
  let p := if HasPrefix path "/" then path else "/" +:+ path in
  let np := "/" +:+ Join (foldl clean_segment [] (segments p)) "/" in
  if String.eqb np "/" then np
  else if bool_decide (last (segments p) = Some "") then np +:+ "/" else np.

Inductive routed :=
  | Moved (path : string)
  | NotAllowed
  | NoRoute
  | Handler (rt : route) (vals : list (string * string)).

Definition find_route (noMetrics : bool) (ok : string → bool) (segs : list string) : option (route * list (string * string)) :=
  head (omap (λ p, let '(m, pat, rt) := p in
                   if ok m then vals ← match_segments pat segs; Some (rt, vals) else None) (routes noMetrics)).

Definition mux (noMetrics : bool) (method path : string) : routed :=
  if negb (String.eqb (cleanPath path) path) then Moved (cleanPath path)
  else
    match find_route noMetrics (λ m, method_matches m method) (segments path) with
    | Some (rt, vals) => Handler rt vals
    | None =>
        if bool_decide (is_Some (find_route noMetrics (λ m, method_matches m method) (segments (path +:+ "/")))) then Moved (path +:+ "/")
        else if bool_decide (is_Some (find_route noMetrics (λ _, true) (segments path))) then NotAllowed
        else NoRoute
    end.

Example mux_examples :
  (λ p, mux false p.1 p.2) <$>
    [("GET", "/db/main/namespaces/default/keys/a%2Fb/c"); ("GET", "/db/main/events/delete-event");
     ("POST", "/db/main/events/purge"); ("PUT", "/db/main"); ("GET", "/static"); ("GET", "/a//b"); ("GET", "/static/../login"); ("HEAD", "/healthz")] =
  [Handler RKeyDetail [("db", "main"); ("ns", "default"); ("key", "a/b/c")];
   Handler REventDetail [("db", "main"); ("seq", "delete-event")]; Handler RPurgeEvents [("db", "main")];
   NotAllowed; Moved "/static/"; Moved "/a/b"; Moved "/login"; Handler RHealthz []].
Proof. vm_compute. reflexivity. Qed.

(** ** The server *)
Record Server := MkServer {
  sv_account : Account;
  sv_ui : UiState;
  sv_metrics : option (Z * list metric);
  sv_audit : list audit_entry
}.

Section server.
Context {H : Host} {OS : Os} {FS : FileSystem} {GL : GoLib} {CJ : ChangeJson GL} {VL : ViewLib GL}.
Context {A : Argon2} {IO : ConfigIO} {C : Cookies} {N : Net} {PM : Prometheus}.

(** The handler of a route, [/metrics] apart. *)
Definition handler (cfg : Config) (sessions : sessionManager) (session : option sessionClaims) (r : Request)
    (rt : route) (vals : list (string * string)) : U answer :=
  match rt with
  | RIndex => handleIndex
  | RDashboard => handleDashboard cfg sessions session
  | RDBRedirect => handleDBRedirect cfg sessions session vals
  | RKeys => handleKeys cfg sessions session r vals
  | RKeyDetail => handleKeyDetail cfg sessions session vals
  | REvents => handleEvents cfg sessions session r vals
  | REventDetail => handleEventDetail cfg sessions session vals
  | RSearch => handleSearch cfg sessions session r
  | RHealthz => handleHealthz
  | RDeleteKey => requireAllowDelete cfg (handleDeleteKey cfg sessions session r vals)
  | RDeleteKeys => requireAllowDelete cfg (handleDeleteKeys cfg sessions session r vals)
  | RFlush => requireAllowDelete cfg (handleFlush cfg sessions session r vals)
  | RMaintain => requireAllowDelete cfg (handleMaintain cfg sessions session r vals)
  | RVacuum => handleVacuum cfg sessions session r vals
  | RDeleteEvent => requireAllowDelete cfg (handleDeleteEvent cfg sessions session r vals)
  | RPurgeEvents => requireAllowDelete cfg (handlePurgeEvents cfg sessions session r vals)
  | RClearChannel => requireAllowDelete cfg (handleClearChannel cfg sessions session r vals)
  | RStatic => say (Html 200 PStatic)
  | RAccount | RMetrics => say (HTTPError 404 "404 page not found")
  end.

Definition lift_reply (rep : reply auth_page) : reply ui_page :=
  match rep with
  | Redirect s l => Redirect s l
  | HTTPError s m => HTTPError s m
  | Html s p => Html s (PAccount p)
  end.

(** A request past the middleware and the account routes. [http.Server]
    recovers from a panic by closing the connection: no reply. *)
Definition serve_mux (cfg : Config) (s : Server) (session : option sessionClaims) (r : Request)
    : option (reply ui_page) * Server :=
  match mux (cf_noMetrics cfg) (Method r) (EscapedPath r) with
  | Moved path => (Some (Redirect 301 path), s)
  | NotAllowed => (Some (HTTPError 405 "Method Not Allowed"), s)
  | NoRoute => (Some (HTTPError 404 "404 page not found"), s)
  | Handler RMetrics _ =>
      if requireMetricsAuth cfg r then
        match metrics_ (cf_metricsTTL cfg) (sv_metrics s) (sv_ui s) with
        | (Ok (l, cached), ui) => (Some (Html 200 (PMetrics l)), MkServer (sv_account s) ui cached (sv_audit s))
        | (_, ui) => (None, MkServer (sv_account s) ui (sv_metrics s) (sv_audit s))
        end
      else (Some (HTTPError 401 "unauthorized"), s)
  | Handler rt vals =>
      match handler cfg (ac_sessions (sv_account s)) session r rt vals (sv_ui s) with
      | (Ok a, ui) =>
          (Some (an_reply a), MkServer (sv_account s) ui (sv_metrics s) (sv_audit s ++ option_list (an_audit a)))
      | (_, ui) => (None, MkServer (sv_account s) ui (sv_metrics s) (sv_audit s))
      end
  end.

Definition set_account (a : Account) (s : Server) : Server := MkServer a (sv_ui s) (sv_metrics s) (sv_audit s).

(** [Handler]: the middleware around the route table. [t] are the readings of
    the clock up to the account handlers, [token] and [salt] the random values
    they draw, if any. *)
Definition serve (cfg : Config) (s : Server) (t : nat → Z) (token salt : option string) (r : Request)
    : option (reply ui_page) * Server :=
  match (serve_account (sv_account s) t token salt r).1 with
  | inl o => (Some (lift_reply (out_reply o)), set_account (out_account o) s)
  | inr session => serve_mux cfg s session r
  end.
End server.

(** ** What the methods behind a page do to the file *)
Section page_methods.
Context {H : Host} {GL : GoLib} {CJ : ChangeJson GL} {VL : ViewLib GL} {OS : Os}
  (R : Database → Database → Prop) `{HR : !PageRel R}.

#[local] Instance page_preorder : PreOrder R := tol_pre.

Lemma keeps_keys_first limit c pattern : keeps R (keys_first limit c pattern).
Proof using HR.
  assert (∀ fuel pat k acc, keeps R (keys_upto fuel limit c pat k acc)) as Hk.
  { intros fuel pat. induction fuel as [|fuel IH]; intros k acc; cbn [keys_upto]; keeps_solve; auto. }
  unfold keys_first. keeps_solve; auto.
Qed.

Lemma keeps_Until e : keeps R (Until_opt e).
Proof using HR. unfold Until_opt, Until. keeps_solve. Qed.
#[local] Hint Resolve keeps_keys_first keeps_Until : keeps.

Lemma keeps_BuildKeyBrowser c db ns glob sortBy page size : keeps R (BuildKeyBrowser c db ns glob sortBy page size).
Proof using HR.
  assert (∀ l, keeps R (key_rows c l)) as Hr by (intros l; induction l; cbn [key_rows]; keeps_solve; auto).
  unfold BuildKeyBrowser. keeps_solve; auto.
Qed.

Lemma keeps_BuildValueView c db ns key patterns : admin_cache c → keeps R (BuildValueView c db ns key patterns).
Proof using HR.
  intros Hc. unfold BuildValueView, getDecodedValue, GetBytes, GetString, GetInt64, GetFloat64. keeps_solve; auto.
Qed.

Lemma keeps_publishRate now : keeps R (publishRate now).
Proof using HR. unfold publishRate. keeps_solve. Qed.

Lemma keeps_BuildCursorRows c info now : keeps R (BuildCursorRows c info now).
Proof using HR.
  assert (∀ n o l, keeps R (cursor_rows n o now l)) as Hr.
  { intros n o l. induction l; cbn [cursor_rows]; unfold cursor_row; keeps_solve; auto. }
  unfold BuildCursorRows. keeps_solve; auto.
Qed.
#[local] Hint Resolve keeps_publishRate keeps_BuildCursorRows : keeps.

Lemma keeps_BuildEventsView c e filter mask now : keeps R (BuildEventsView c e filter mask now).
Proof using HR. unfold BuildEventsView. keeps_solve. Qed.

Lemma keeps_BuildEventDetail db seq mask now : keeps R (BuildEventDetail db seq mask now).
Proof using HR. unfold BuildEventDetail. keeps_solve. Qed.
End page_methods.
#[export] Hint Resolve keeps_keys_first keeps_BuildKeyBrowser keeps_BuildValueView keeps_publishRate
  keeps_BuildCursorRows keeps_BuildEventsView keeps_BuildEventDetail : keeps.

(** ** What the pages do to the files *)

(** Files found in a scanned directory are opened under the name found. *)
Class PlainFiles {OS : Os} (FS : FileSystem) : Prop :=
  glob_plain step dir l p : Glob_db step dir = Some l → p ∈ l → plain_path p.

Lemma rescan_found_Forall (P : dbEntry → Prop) found m :
  Forall P (entries m) → Forall (λ s, P (new_entry s)) found → Forall P (entries (rescan_found m found)).
Proof.
  unfold rescan_found. intros Hm Hf. revert m Hm. induction Hf as [|s found Hs _ IH]; intros m Hm; simpl; [done|].
  apply IH. destruct (byName m !! src_Name s); [done|]. simpl. apply Forall_app. by split; [|constructor].
Qed.

Lemma rescan_dirs_Forall `{FS : FileSystem} (P : dbEntry → Prop) step dirs m :
  (∀ dir l p, Glob_db step dir = Some l → p ∈ l → P (new_entry (scanned p))) →
  mgr_wf m → Forall P (entries m) → mgr_wf (rescan_dirs step m dirs).1 ∧ Forall P (entries (rescan_dirs step m dirs).1).
Proof.
  intros HP. revert m. induction dirs as [|dir dirs IH]; intros m Hwf Hm; simpl; [done|].
  unfold scanDBFiles. destruct (Glob_db step dir) as [l|] eqn:Hl; simpl; [|done].
  apply IH; [by apply rescan_found_spec|]. apply rescan_found_Forall; [done|].
  apply Forall_fmap, Forall_forall. intros p. unfold sort_strings. rewrite merge_sort_Permutation.
  intros Hp. simpl. by eapply HP.
Qed.

Section pages.
Context {H : Host} {OS : Os} {FS : FileSystem} `{HP : !PlainFiles FS}
  {GL : GoLib} {CJ : ChangeJson GL} {VL : ViewLib GL} {C : Cookies} {N : Net} {PM : Prometheus}.
Context (R : Database → Database → Prop) `{HR : !PageRel R}.
Context (cfg : Config) (sessions : sessionManager) (session : option sessionClaims) (r : Request)
  (vals : list (string * string)).

#[local] Instance pages_preorder : PreOrder R := tol_pre.

Lemma ukeeps_rescan : ukeeps R (u_rescan cfg).
Proof using HP HR.
  intros u [Hwf Hplain Hh]. unfold u_rescan. simpl. split; [|reflexivity].
  set (P := λ e, plain_path (e_Path e) ∧ ∀ ns c p, caches e !! ns = Some (c, p) →
    admin_cache c ∧ namespace c = ns ∧ path c = e_Path e ∧ is_Some (ui_files u !! path c)).
  assert (Forall P (entries (ui_mgr u))) as HPu.
  { apply Forall_lookup. intros i e He. split; [by eapply (Forall_lookup_1 _ _ _ _ Hplain)|]. eauto. }
  assert (mgr_wf (Rescan_ (ui_step u) (ui_mgr u) (cf_scanDirs cfg)).1 ∧
    Forall P (entries (Rescan_ (ui_step u) (ui_mgr u) (cf_scanDirs cfg)).1)) as [Hwf' HP'].
  { assert (Rescan_ (ui_step u) (ui_mgr u) (cf_scanDirs cfg) = rescan_dirs (ui_step u) (ui_mgr u) (cf_scanDirs cfg))
      as -> by by destruct (cf_scanDirs cfg).
    apply rescan_dirs_Forall; [|done|done]. intros dir l p Hl Hp. split; simpl; [by eapply glob_plain|].
    intros ns c q. by rewrite lookup_empty. }
  split; simpl; [done| |].
  - eapply Forall_impl; [exact HP'|]. by intros e [? _].
  - intros i e ns c p He Hc. eapply (Forall_lookup_1 _ _ _ _ HP') in He as [_ He]. by eapply He.
Qed.

Lemma ukeeps_open i ns : ukeeps R (entry_Cache i ns).
Proof using HR. apply ukeeps_entry_Cache; [typeclasses eauto|apply page_New]. Qed.
#[local] Hint Resolve ukeeps_open ukeeps_rescan : keeps.

(** What is left of a page are the library methods it runs. *)
Ltac pages_solve := unfold lift_m; ukeeps_solve; try solve [eauto with keeps typeclass_instances]; auto.

Lemma ukeeps_dashboard_events i row : ukeeps R (dashboard_events i row).
Proof using HR. unfold dashboard_events. pages_solve. Qed.
#[local] Hint Resolve ukeeps_dashboard_events : keeps.
Lemma ukeeps_buildDashboardRow name : ukeeps R (buildDashboardRow name).
Proof using HR. unfold buildDashboardRow. pages_solve. Qed.
#[local] Hint Resolve ukeeps_buildDashboardRow : keeps.
Lemma ukeeps_BuildDashboard : ukeeps R BuildDashboard.
Proof using HR.
  assert (∀ l, ukeeps R (dashboard_rows l)) by (intros l; induction l; cbn [dashboard_rows]; pages_solve).
  unfold BuildDashboard. pages_solve.
Qed.

Lemma ukeeps_BuildSearch pattern : ukeeps R (BuildSearch pattern).
Proof using HR.
  assert (∀ i db ns pat v, ukeeps R (searchNamespace i db ns pat v)) as H1
    by (intros; unfold searchNamespace; pages_solve).
  assert (∀ i db pat nss v, ukeeps R (search_namespaces i db pat nss v)) as H2.
  { intros i db pat nss. induction nss as [|ns nss IH]; intros v; cbn [search_namespaces]; pages_solve. }
  assert (∀ pat names v, ukeeps R (search_databases pat names v)) as H3.
  { intros pat names. induction names as [|n names IH]; intros v; cbn [search_databases]; pages_solve. }
  unfold BuildSearch. pages_solve.
Qed.

Lemma ukeeps_basePage : ukeeps R (basePage cfg sessions session).
Proof using HR. unfold basePage. pages_solve. Qed.
Lemma ukeeps_say rep : ukeeps R (say rep).
Proof using HR. unfold say. pages_solve. Qed.
#[local] Hint Resolve ukeeps_BuildDashboard ukeeps_BuildSearch ukeeps_basePage ukeeps_say : keeps.
Lemma ukeeps_dbPage db ns : ukeeps R (dbPage cfg sessions session db ns).
Proof using HR. unfold dbPage. pages_solve. Qed.
Lemma ukeeps_writeNotFound m : ukeeps R (writeNotFound cfg sessions session m).
Proof using HR. unfold writeNotFound. pages_solve. Qed.
Lemma ukeeps_writeBadRequest m : ukeeps R (writeBadRequest_ cfg sessions session m).
Proof using HR. unfold writeBadRequest_. pages_solve. Qed.
Lemma ukeeps_writeEntryError db e : ukeeps R (writeEntryError cfg sessions session db e).
Proof using HR. unfold writeEntryError. pages_solve. Qed.
#[local] Hint Resolve ukeeps_dbPage ukeeps_writeNotFound ukeeps_writeBadRequest ukeeps_writeEntryError : keeps.

(** [with_entry] keeps what its continuation keeps. *)
Lemma ukeeps_with_entry ns refusal k :
  (∀ a, refusal = Some a → ukeeps R a) → (∀ i e, ukeeps R (k i e)) →
  ukeeps R (with_entry cfg sessions session vals ns refusal k).
Proof using HR. intros Hrefuse Hk. unfold with_entry. pages_solve. Qed.

Lemma ukeeps_form_check checks a : form_check cfg sessions session r checks = Some a → ukeeps R a.
Proof using HR.
  unfold form_check. destruct (r_form_error r), checks; intros [= <-]; auto with keeps.
Qed.

(** The routes that delete. *)
Definition deletes (rt : route) : bool :=
  bool_decide (rt ∈ [RDeleteKey; RDeleteKeys; RFlush; RMaintain; RDeleteEvent; RPurgeEvents; RClearChannel]).

(** Every other route keeps what the pages keep. *)
Lemma ukeeps_handler_reads rt :
  deletes rt = false ∨ cf_allowDelete cfg = false → ukeeps R (handler cfg sessions session r rt vals).
Proof using HR HP.
  intros Hd. destruct rt; simpl;
    try (destruct Hd as [Hd|Hd]; [by vm_compute in Hd|unfold requireAllowDelete; rewrite Hd; apply ukeeps_say]);
    try apply ukeeps_say.
  - unfold handleDashboard. pages_solve.
  - unfold handleDBRedirect. pages_solve.
  - unfold handleKeys. apply ukeeps_with_entry; [done|]. pages_solve.
  - unfold handleKeyDetail. apply ukeeps_with_entry; [intros a; case_match; intros [= <-]; auto with keeps|]. pages_solve.
  - unfold handleEvents. apply ukeeps_with_entry; [done|]. pages_solve.
  - unfold handleEventDetail. apply ukeeps_with_entry; [intros a; repeat case_match; intros [= <-]; auto with keeps|]. pages_solve.
  - unfold handleSearch. pages_solve.
  - unfold handleVacuum. apply ukeeps_with_entry; [done|]. unfold mutate, redirectToKeys. pages_solve.
Qed.

Lemma ukeeps_mutate {A} i ns (m : Cache → M A) k :
  (∀ c, admin_cache c → keeps R (m c)) → (∀ a, ukeeps R (k a)) → ukeeps R (mutate i ns m k).
Proof using HR. intros Hm Hk. unfold mutate. pages_solve. Qed.

Lemma keeps_batched m : keeps R m → keeps R (batched m).
Proof using HR. intros Hm. unfold batched. keeps_solve; auto. Qed.

Lemma ukeeps_redirects :
  (∀ db ns log, ukeeps R (redirectToKeys db ns log)) ∧ ∀ db log, ukeeps R (redirectToEvents db log).
Proof using HR. split; intros; unfold redirectToKeys, redirectToEvents; pages_solve. Qed.

(** No route does more than prune. *)
Lemma ukeeps_handler rt :
  (∀ d d', prunes d d' → R d d') → ukeeps R (handler cfg sessions session r rt vals).
Proof using HR HP.
  intros Hpr. destruct (decide (deletes rt = false ∨ cf_allowDelete cfg = false)) as [Hd|Hd]; [by apply ukeeps_handler_reads|].
  assert (cf_allowDelete cfg = true) as Hallow by (destruct (cf_allowDelete cfg); tauto).
  destruct ukeeps_redirects as [Hkeys Hevents].
  destruct rt; try (exfalso; apply Hd; left; by vm_compute); simpl; unfold requireAllowDelete; rewrite Hallow;
    (apply ukeeps_with_entry; [solve [done|intros a; apply ukeeps_form_check]|]); intros i e; cbv zeta.
  - apply ukeeps_mutate; auto. intros c Hc. apply (prunes_Delete R Hpr), Hc.
  - apply ukeeps_mutate; auto. intros c Hc. apply (prunes_Delete R Hpr), Hc.
  - apply ukeeps_mutate; auto. intros c Hc. apply (prunes_Flush R Hpr), Hc.
  - apply ukeeps_mutate; auto. intros c Hc. by apply (prunes_Maintain R Hpr).
  - case_match; [|auto with keeps]. apply ukeeps_mutate; auto. intros c _. by apply (prunes_DeleteEvent R Hpr).
  - repeat (case_match; auto with keeps).
    apply ukeeps_bind; [typeclasses eauto|apply ukeeps_now; typeclasses eauto|]. intros now. apply ukeeps_mutate; auto.
    intros c _. by apply keeps_batched, (prunes_DeleteEventsBefore R Hpr).
  - case_match; auto with keeps. apply ukeeps_mutate; auto.
    intros c _. by apply keeps_batched, (prunes_DeleteChannelEvents R Hpr).
Qed.

Lemma ukeeps_MustNewConstMetrics l : ukeeps R (MustNewConstMetrics l).
Proof using HR. unfold MustNewConstMetrics. pages_solve. Qed.
#[local] Hint Resolve ukeeps_MustNewConstMetrics : keeps.

(** A scrape only reads, but for the LRU buffer that [Stats] flushes. *)
Lemma ukeeps_metrics ttl cached : ukeeps R (metrics_ ttl cached).
Proof using HR.
  assert (∀ db i, ukeeps R (collectEvents db i)) as H1 by (intros; unfold collectEvents; pages_solve).
  assert (∀ db, ukeeps R (collectDatabase db)) as H2 by (intros; unfold collectDatabase; pages_solve).
  assert (∀ l, ukeeps R (collect_all l)) as H3 by (intros l; induction l; cbn [collect_all]; pages_solve).
  unfold metrics_. pages_solve.
Qed.
End pages.

(** ** Routes that need no session *)

Lemma PathUnescape_slash a b : PathUnescape (a +:+ "/" +:+ b) = PathUnescape a +:+ "/" +:+ PathUnescape b.
Proof.
  remember (String.length a) as n eqn:Hn. revert a Hn.
  induction n as [n IH] using lt_wf_ind. intros a Hn. destruct a as [|x a]; [done|]. simpl in Hn.
  assert (PathUnescape (a +:+ "/" +:+ b) = PathUnescape a +:+ "/" +:+ PathUnescape b) as Ha by (eapply IH; [|done]; lia).
  rewrite str_app_cons. cbn [PathUnescape]. destruct (Ascii.eqb x "%"); [|by rewrite Ha].
  assert (hex_val "/" = None) as Hslash by reflexivity. assert (∀ t, "" +:+ t = t) as Hnil by done.
  destruct a as [|y [|z a]]; rewrite ?str_app_cons, ?Hnil in *.
  - destruct b as [|c b]; [done|]. by rewrite Hslash, Ha.
  - rewrite Hslash. destruct (hex_val y); by rewrite Ha.
  - destruct (hex_val y), (hex_val z); try by rewrite Ha.
    change (String "/" b) with ("/" +:+ b). rewrite (IH (String.length a)); [done| |done]. simpl in Hn. lia.
Qed.

Lemma Join_Split s : Join (Split s "/") "/" = s.
Proof.
  assert (∀ s, Split s "/" ≠ []) as Hne.
  { clear s. intros s. destruct s as [|b s]; simpl; [done|]. case_bool_decide; [done|]. by case_match. }
  induction s as [|b s IH]; [done|]. cbn [Split]. pose proof (Hne s). case_bool_decide as Hb.
  - subst b. destruct (Split s "/") as [|x l]; [done|]. change (Join ("" :: x :: l) "/") with ("" +:+ "/" +:+ Join (x :: l) "/").
    by rewrite IH.
  - destruct (Split s "/") as [|x [|y l]]; [done|by simpl in *; subst|].
    cbn [Join] in *. by rewrite str_app_cons, IH.
Qed.

(** The decoded path of a clean path starts with its decoded first segment. *)
Lemma URLPath_first path x rest :
  cleanPath path = path → segments path = x :: rest →
  ∃ tail, PathUnescape path = "/" +:+ PathUnescape x +:+ tail ∧ (rest = [] → tail = "") ∧
    (tail = "" ∨ HasPrefix tail "/" = true).
Proof.
  intros Hc Hs. assert (∃ p, path = String "/" p) as [p ->].
  { rewrite <- Hc. unfold cleanPath. cbv zeta. generalize (Join (foldl clean_segment [] (segments
      (if HasPrefix path "/" then path else "/" +:+ path))) "/"). intros j.
    destruct (String.eqb _ "/"); [by eexists|]. destruct (bool_decide _); by eexists. }
  unfold segments in Hs. cbn [drop_str] in Hs.
  assert (p = Join (x :: rest) "/") as -> by by rewrite <- Hs, Join_Split.
  destruct rest as [|y rest].
  - exists "". rewrite str_app_nil_r. split; [done|]. auto.
  - exists ("/" +:+ PathUnescape (Join (y :: rest) "/")). split; [|split; [done|right; by destruct (PathUnescape _)]].
    change (Join (x :: y :: rest) "/") with (x +:+ "/" +:+ Join (y :: rest) "/").
    change (String "/" (x +:+ "/" +:+ Join (y :: rest) "/")) with ("" +:+ "/" +:+ (x +:+ "/" +:+ Join (y :: rest) "/")).
    by rewrite !PathUnescape_slash.
Qed.

Definition public (rt : route) : bool := bool_decide (rt ∈ [RAccount; RHealthz; RStatic; RMetrics]).

(** How the patterns of the other routes begin. *)
Definition private_start (pat : list segment) : bool :=
  match pat with
  | [Lit ""] => true
  | Lit s :: _ => bool_decide (s ∈ ["dashboard"; "db"; "search"])
  | _ => false
  end.

Lemma private_patterns noMetrics :
  Forall (λ p, public p.2 = true ∨ private_start p.1.2 = true) (routes noMetrics).
Proof.
  apply Forall_forall. intros p Hp.
  assert (forallb (λ p, public p.2 || private_start p.1.2) (routes noMetrics) = true) as Hall by by destruct noMetrics.
  rewrite forallb_forall in Hall. by apply orb_true_iff, Hall, list_elem_of_In.
Qed.

Lemma private_not_exempt s tail :
  s ∈ ["dashboard"; "db"; "search"] → (tail = "" ∨ HasPrefix tail "/" = true) → authExempt ("/" +:+ s +:+ tail) = false.
Proof.
  rewrite !elem_of_cons, elem_of_nil. intros Hs Ht. unfold authExempt. apply orb_false_iff.
  destruct Ht as [->|Ht]; [|destruct tail as [|c tail]; [done|]];
    destruct Hs as [->|[->|[->|[]]]];
    (split; [apply bool_decide_eq_false; intros Hin; repeat (apply elem_of_cons in Hin as [Hin|Hin]; [discriminate|]);
             by apply elem_of_nil in Hin|done]).
Qed.

Lemma find_route_some noMetrics ok segs rt vals :
  find_route noMetrics ok segs = Some (rt, vals) →
  ∃ m pat, (m, pat, rt) ∈ routes noMetrics ∧ ok m = true ∧ match_segments pat segs = Some vals.
Proof.
  unfold find_route. intros Hh. apply head_Some_elem_of, list_elem_of_omap in Hh as ([[m pat] rt'] & Hin & Hm).
  destruct (ok m) eqn:Hok; [|done]. destruct (match_segments pat segs) as [v|] eqn:Hseg; simplify_eq/=. eauto.
Qed.

(** What the middleware lets through without a session reaches only routes
    that need none, although it looks at the decoded path and the router at
    the escaped one. *)
Lemma exempt_public noMetrics method path rt vals :
  mux noMetrics method path = Handler rt vals → authExempt (PathUnescape path) = true → public rt = true.
Proof.
  unfold mux. destruct (String.eqb_spec (cleanPath path) path) as [Hclean|]; [|done]. simpl.
  destruct (find_route _ _ (segments path)) as [[rt' vals']|] eqn:Hf; [|by repeat case_match].
  intros [= -> ->] Hex. apply find_route_some in Hf as (m & pat & Hin & _ & Hseg).
  pose proof (private_patterns noMetrics) as Hall. rewrite Forall_forall in Hall.
  destruct (Hall _ Hin) as [|Hpriv]; [done|]. simpl in Hpriv. exfalso.
  destruct pat as [|[s|n|n] pat]; try done. destruct (segments path) as [|x rest] eqn:Hs; [by destruct pat|].
  cbn [match_segments] in Hseg. destruct (String.eqb_spec (PathUnescape x) s) as [Hx|]; [|by destruct pat].
  destruct (URLPath_first _ _ _ Hclean Hs) as (tail & Hp & Hrest & Ht). rewrite Hx in Hp.
  destruct (decide (s = "")) as [->|Hne].
  - destruct pat; [|done]. destruct rest; [|done]. rewrite Hp, Hrest in Hex by done. done.
  - rewrite Hp, private_not_exempt in Hex; [done| |done].
    destruct s; [done|]. simpl in Hpriv. destruct pat; by apply bool_decide_eq_true in Hpriv.
Qed.

Lemma deletes_POST noMetrics method path rt vals :
  mux noMetrics method path = Handler rt vals → deletes rt = true → method = "POST".
Proof.
  unfold mux. destruct (negb _); [done|].
  destruct (find_route _ _ (segments path)) as [[rt' vals']|] eqn:Hf; [|by repeat case_match].
  intros [= -> ->] Hd. apply find_route_some in Hf as (m & pat & Hin & Hm & _).
  assert (forallb (λ p, negb (deletes p.2) || String.eqb p.1.1 "POST") (routes noMetrics) = true) as Hall
    by by destruct noMetrics.
  rewrite forallb_forall in Hall. specialize (Hall _ (proj1 (list_elem_of_In _ _) Hin)). simpl in Hall.
  rewrite Hd in Hall. simpl in Hall. apply String.eqb_eq in Hall as ->.
  apply orb_true_iff in Hm as [Hm|[Hm _]%andb_true_iff]; [|discriminate]. by apply String.eqb_eq in Hm.
Qed.

Lemma metrics_path noMetrics method path vals :
  mux noMetrics method path = Handler RMetrics vals → noMetrics = false ∧ PathUnescape path = "/metrics".
Proof.
  unfold mux. destruct (String.eqb_spec (cleanPath path) path) as [Hclean|]; [|done]. simpl.
  destruct (find_route _ _ (segments path)) as [[rt' vals']|] eqn:Hf; [|by repeat case_match].
  intros [= -> ->]. apply find_route_some in Hf as (m & pat & Hin & _ & Hseg).
  assert (noMetrics = false ∧ pat = [Lit "metrics"]) as [-> ->].
  { destruct noMetrics; cbn in Hin; repeat (apply elem_of_cons in Hin as [Hin|Hin]; [by simplify_eq|]);
      by apply elem_of_nil in Hin. }
  split; [done|]. destruct (segments path) as [|x rest] eqn:Hs; [done|]. cbn [match_segments] in Hseg.
  destruct (String.eqb_spec (PathUnescape x) "metrics") as [Hx|]; [|done]. destruct rest; [|done].
  destruct (URLPath_first _ _ _ Hclean Hs) as (tail & -> & Hrest & _). by rewrite Hx, Hrest.
Qed.

(** ** What no request can do *)
Section claims.
Context {H : Host} {OS : Os} {FS : FileSystem} `{HP : !PlainFiles FS}
  {GL : GoLib} {CJ : ChangeJson GL} {VL : ViewLib GL} {A : Argon2} {IO : ConfigIO} {C : Cookies} {N : Net} {PM : Prometheus}.

(** Past the middleware. *)
Lemma serve_mux_keeps R `{HR : !PageRel R} cfg s session r :
  (∀ rt vals, mux (cf_noMetrics cfg) (Method r) (EscapedPath r) = Handler rt vals →
     ukeeps R (handler cfg (ac_sessions (sv_account s)) session r rt vals)) →
  ui_inv (sv_ui s) →
  ui_inv (sv_ui (serve_mux cfg s session r).2) ∧
  files_rel R (ui_files (sv_ui s)) (ui_files (sv_ui (serve_mux cfg s session r).2)).
Proof using Type.
  intros Hh Hu. unfold serve_mux. pose proof (files_rel_preorder R tol_pre) as [Hrefl _].
  destruct (mux _ _ _) as [path| | |rt vals] eqn:Hm; [by split..|].
  specialize (Hh rt vals eq_refl).
  assert (∀ {X} (m : U X), ukeeps R m → ui_inv (m (sv_ui s)).2 ∧ files_rel R (ui_files (sv_ui s)) (ui_files (m (sv_ui s)).2))
    as Hk by (intros X m Hm'; by apply Hm').
  destruct rt; try (apply Hk in Hh; by destruct (handler _ _ _ _ _ _ (sv_ui s)) as [[a|e|] ui]).
  destruct (requireMetricsAuth cfg r); [|by split].
  pose proof (Hk _ _ (ukeeps_metrics R (cf_metricsTTL cfg) (sv_metrics s))) as Hmt.
  by destruct (metrics_ _ _ (sv_ui s)) as [[[l c]|e|] ui].
Qed.

Lemma serve_cases cfg s t token salt r :
  sv_ui (serve cfg s t token salt r).2 = sv_ui s ∨
  ∃ session, authMiddleware (sv_account s) (t 0%nat) (t 1%nat) r = (Next session, (authMiddleware (sv_account s) (t 0%nat) (t 1%nat) r).2) ∧
    serve cfg s t token salt r = serve_mux cfg s session r.
Proof using Type.
  unfold serve, serve_account. destruct (authMiddleware _ _ _ r) as [[rep|session] rs]; simpl; [by left|].
  destruct (account_handler _ _ _ _ _ _); simpl; [by left|]. right. by exists session.
Qed.

(** C31: the web UI alters no data, it only deletes. Whatever a request is, and
    whatever other processes commit to the files meanwhile, no file appears or
    disappears, and every file is changed only by those commits and, between
    them, by steps of the server that remove rows and events, write the
    bookkeeping of accesses (the number of them and the time of the last), and
    record the schema version in a file opened without one: the server creates
    no row and no event, alters no event, and alters no row's value, type,
    expiry, creation time or size; and it keeps its handles in order. When no
    other process writes during a request that is not a POST, or any request
    while --allow-delete is off, the rows it removes are past their expiry at
    some time that the host's clock shows, and it removes no event from a file
    whose events are all younger than the hundred years the UI opens files
    with. (That second half needs the absence of other writers: the lazy delete
    of an expired row is unconditional, so viewing a key while another process
    sets it anew can remove the new row.) *)
Theorem serve_only_deletes cfg s t token salt r :
  ui_inv (sv_ui s) →
  let s' := (serve cfg s t token salt r).2 in
  ui_inv (sv_ui s') ∧ files_rel (by_turns prunes) (ui_files (sv_ui s)) (ui_files (sv_ui s')) ∧
  (Alone H → cf_allowDelete cfg = false ∨ Method r ≠ "POST" →
     files_rel tidies (ui_files (sv_ui s)) (ui_files (sv_ui s'))).
Proof using HP.
  intros Hu s'. destruct (serve_cases cfg s t token salt r) as [He|(session & _ & He)].
  { unfold s'. rewrite He. split_and!; [done|apply (files_rel_preorder _ tol_pre)|reflexivity]. }
  unfold s'. rewrite He.
  destruct (serve_mux_keeps (by_turns prunes) cfg s session r) as [Hi Hp]; [|done|].
  { intros rt vals _. apply ukeeps_handler; [typeclasses eauto..|apply by_turns_own]. }
  split_and!; [done|done|]. intros HA Hno. apply (serve_mux_keeps tidies); [|done].
  intros rt vals Hm. apply ukeeps_handler_reads; [typeclasses eauto..|]. destruct Hno as [|Hno]; [by right|left].
  apply not_true_is_false. intros Hd. by apply Hno, (deletes_POST _ _ _ _ _ Hm).
Qed.

(** C32: nothing happens without a session. When a request changes a file or
    the databases that are served, it carried a cookie that verifies, and a
    POST moreover the CSRF token of that session; the one exception is a scrape
    of /metrics, which carries the bearer token if one is configured. *)
Theorem serve_needs_session cfg s t token salt r :
  sv_ui (serve cfg s t token salt r).2 ≠ sv_ui s →
  (cf_noMetrics cfg = false ∧ requireMetricsAuth cfg r = true ∧ URLPath r = "/metrics") ∨
  ∃ v c, r_cookie r = Some v ∧ verify (ac_sessions (sv_account s)) (t 0%nat) v = Some c ∧
    (isStateChanging (Method r) = true → FormValue r "csrf_token" = csrfToken (ac_sessions (sv_account s)) c).
Proof using Type.
  clear HP. intros Hne. destruct (serve_cases cfg s t token salt r) as [He|(session & Hmw & He)]; [done|].
  rewrite He in Hne. apply authMiddleware_cases in Hmw as [[_ [[Hex [= ->]]|[rep [=]]]]|(v & c & _ & Hc & Hv & _ & [[rep [=]]|(_ & _ & Hcsrf)])];
    [|right; eauto 10].
  left. unfold serve_mux in Hne. destruct (mux _ _ _) as [path| | |rt vals] eqn:Hm; try done.
  pose proof (exempt_public _ _ _ _ _ Hm Hex) as Hpub. unfold public in Hpub. apply bool_decide_eq_true in Hpub.
  destruct rt; try (exfalso; set_solver); try done.
  destruct (requireMetricsAuth cfg r) eqn:Hauth; [|done].
  by destruct (metrics_path _ _ _ _ Hm).
Qed.
End claims.

(** ** Starting and stopping a server *)
Inductive server_error := MergeFailed (e : merge_error) | BadSecret | AuditFailed.

Section lifecycle.
Context {H : Host} {OS : Os} {FS : FileSystem} {C : Cookies}.

(** [WarmUp] opens the default namespace of every database; failures are only
    logged. *)
Fixpoint warm_up (l : list nat) : U () :=
  match l with
  | [] => mret tt
  | i :: l => _ ← entry_Cache i "default"; warm_up l
  end.
Definition WarmUp : U () := mgr ← get_mgr; warm_up (seq 0 (length (entries mgr))).

(** [NewServer], with [audit_ok] telling whether the audit log opens; [None] if
    a call does not return. *)
Definition NewServer (cfg : Config) (databases : list DBSource) (auth : AuthConfig) (authPath : string)
    (authFiles : files) (nonLoopback : bool) (idle absolute : Z) (audit_ok : bool)
    (fs : gmap string Database) (step : nat) (mono : Z) : option (server_error + Server) :=
  match MergeSources step databases (cf_scanDirs cfg) with
  | inl e => Some (inl (MergeFailed e))
  | inr sources =>
      match WarmUp (MkUi (NewManager sources) fs (S step) mono) with
      | (Ok _, ui) =>
          match DecodeString RawURL (SessionSecret auth) with
          | None => Some (inl BadSecret)
          | Some secret =>
              let idle := if idle =? 0 then DefaultIdleTimeout else idle in
              let absolute := if absolute =? 0 then DefaultAbsoluteLifetime else absolute in
              if audit_ok then
                Some (inr (MkServer (MkAccount auth authPath authFiles (newSessionManager secret idle absolute) ∅ nonLoopback)
                             ui None []))
              else Some (inl AuditFailed)
          end
      | _ => None
      end
  end.

(** [Manager.Close]: every open handle once; the errors are collected. *)
Fixpoint close_handles (l : list (nat * string)) : U (list error) :=
  match l with
  | [] => mret []
  | (i, ns) :: l =>
      r ← on_handle i ns (λ c, Close c false);
      errs ← close_handles l;
      mret (match r with inl e => e :: errs | inr _ => errs end)
  end.
Definition open_handles (m : Manager) : list (nat * string) :=
  concat (imap (λ i e, (λ p, (i, p.1)) <$> map_to_list (caches e)) (entries m)).
Definition Close_manager : U (list error) := mgr ← get_mgr; close_handles (open_handles mgr).

(** A server starts in order, on sources whose paths are opened as written,
    and has only recorded the versions of the files. *)
Lemma NewServer_inv cfg dbs auth p afs nl idle abs ok fs step mono s :
  (∀ sources, MergeSources step dbs (cf_scanDirs cfg) = inr sources → Forall (λ s, plain_path (src_Path s)) sources) →
  NewServer cfg dbs auth p afs nl idle abs ok fs step mono = Some (inr s) →
  ui_inv (sv_ui s) ∧ files_rel (by_turns records_version) fs (ui_files (sv_ui s)).
Proof using Type.
  unfold NewServer. intros Hplain. destruct (MergeSources _ _ _) as [|sources] eqn:Hm; [done|].
  specialize (Hplain sources eq_refl). apply MergeSources_names in Hm as [Hnd _].
  assert (ui_inv (MkUi (NewManager sources) fs (S step) mono)) as Hi.
  { assert (Forall (λ e, plain_path (e_Path e) ∧ caches e = ∅) (entries (NewManager sources))) as Hall.
    { unfold NewManager. assert (Forall (λ e, plain_path (e_Path e) ∧ caches e = ∅) (entries (MkMgr [] ∅))) as H0 by constructor.
      revert H0. generalize (MkMgr [] ∅). clear Hnd. induction Hplain as [|x l Hx _ IH]; intros m Hm; simpl; [done|].
      apply IH. simpl. apply Forall_app. split; [done|]. by constructor. }
    split; simpl; [by apply NewManager_wf|eapply Forall_impl; [exact Hall|]; by intros ? []|].
    intros i e ns c q He Hc. eapply (Forall_lookup_1 _ _ _ _ Hall) in He as [_ He]. by rewrite He, lookup_empty in Hc. }
  assert (ukeeps (by_turns records_version) WarmUp) as Hw.
  { pose proof (tol_pre (R := by_turns records_version)) as Hpre.
    assert (∀ l, ukeeps (by_turns records_version) (warm_up l)) as Hl.
    { intros l. induction l as [|i l IH]; cbn [warm_up]; ukeeps_solve; try done.
      apply New_keeps; [typeclasses eauto|apply by_turns_own]. }
    unfold WarmUp. ukeeps_solve; auto. }
  destruct (Hw _ Hi) as [Hi' Hf]. destruct (WarmUp _) as [[[]|e|] ui]; simpl in *; [|done..].
  destruct (DecodeString _ _); [|done]. destruct ok; [|done]. intros [= <-]. done.
Qed.
End lifecycle.

(** ** A concrete deletion *)
#[local] Existing Instances toy_prometheus toy_cookies toy_argon2 toy_io toy_net UiView.toy_view toy_json toy_lib toy_files.
#[local] Instance plain_os : Os := toy_os (λ _, None) (λ _, false).
#[local] Instance quiet_host : Host := still_host 100.

#[local] Instance toy_plain_files : PlainFiles toy_files.
Proof.
  intros step dir l p. simpl. destruct (String.eqb dir "data"); [|done]. intros [= <-].
  rewrite !elem_of_cons, elem_of_nil. intros [->|[->|[]]]; by split.
Qed.

Lemma toy_ui_inv n : ui_inv (toy_ui n).
Proof.
  split.
  - apply NewManager_wf. simpl. apply NoDup_cons. split; [set_solver|apply NoDup_singleton].
  - simpl. repeat (apply Forall_cons; split; [by split|]). apply Forall_nil. done.
  - intros i e ns c p He Hc. unfold toy_ui in He. simpl in He.
    assert (caches e = ∅) as Hnone by (destruct i as [|[|]]; by simplify_eq/=).
    by rewrite Hnone, lookup_empty in Hc.
Qed.

Definition toy_config (allow : bool) : Config := MkConfig [] allow [] [] false "" 0.
Definition toy_server : Server := MkServer toy_account (toy_ui 2) None [].
Definition toy_delete : Request :=
  MkRequest "POST" "/db/a/namespaces/default/delete-key" "10.0.0.7:1" [] None
    [("csrf_token", csrfToken (ac_sessions toy_account) toy_session); ("key", "k0")]
    (encode (ac_sessions toy_account) toy_session) "".
Definition after_delete (allow : bool) : Server :=
  (serve (toy_config allow) toy_server (λ _, Minute) None None toy_delete).2.
Definition keys_left (s : Server) : option (list string) :=
  (λ d, (map_to_list (db_cache d)).*1.*2) <$> ui_files (sv_ui s) !! "/a.db".

(** Another process stores a key between two statements of the request. *)
Definition toy_race : Host :=
  race_host 100 2 (λ d, set_cache (<[("default", "k2") := Row "v" typeString 0 None 0 0 1]> (db_cache d)) d).
Definition raced_delete : Server :=
  (serve (H := toy_race) (toy_config true) toy_server (λ _, Minute) None None toy_delete).2.

Lemma serve_only_deletes_witness :
  keys_left toy_server = Some ["k1"; "k0"] ∧ keys_left (after_delete true) = Some ["k1"] ∧
  keys_left raced_delete = Some ["k1"; "k2"] ∧
  files_rel (by_turns (H := toy_race) prunes) (ui_files (sv_ui toy_server)) (ui_files (sv_ui raced_delete)) ∧
  keys_left (after_delete false) = keys_left toy_server ∧
  files_rel tidies (ui_files (sv_ui toy_server)) (ui_files (sv_ui (after_delete false))).
Proof.
  split; [vm_compute; reflexivity|]. split; [vm_compute; reflexivity|]. split; [vm_compute; reflexivity|].
  split; [exact (proj1 (proj2 (serve_only_deletes (H := toy_race) (toy_config true) toy_server (λ _, Minute) None None toy_delete (toy_ui_inv 2))))|].
  split; [vm_compute; reflexivity|].
  exact (proj2 (proj2 (serve_only_deletes (toy_config false) toy_server (λ _, Minute) None None toy_delete (toy_ui_inv 2)))
    (quiet_alone quiet_host _) (or_introl eq_refl)).
Defined.

Lemma serve_needs_session_witness :
  sv_ui (after_delete true) ≠ sv_ui toy_server ∧
  ∃ v c, r_cookie toy_delete = Some v ∧ verify (ac_sessions toy_account) Minute v = Some c ∧
    FormValue toy_delete "csrf_token" = csrfToken (ac_sessions toy_account) c.
Proof.
  assert (Hne : sv_ui (after_delete true) ≠ sv_ui toy_server).
  { intros He. assert (Hk : keys_left (after_delete true) = keys_left toy_server) by (unfold keys_left; rewrite He; reflexivity).
    vm_compute in Hk. discriminate. }
  split; [exact Hne|].
  destruct (serve_needs_session (toy_config true) toy_server (λ _, Minute) None None toy_delete Hne)
    as [(_ & _ & Hp)|(v & c & Hc & Hv & Hcsrf)]; [vm_compute in Hp; discriminate|].
  exists v, c. split; [exact Hc|]. split; [exact Hv|]. apply Hcsrf. reflexivity.
Defined.
