(* ===== verification/CliText.v ===== *)
(** The text side of the command line ([parse.go], [output.go], [exitcode.go],
    [repl.go] and the formatting helpers of [cmd_events.go] in lytecache-cli):
    how an argument becomes a value, how a value becomes output, and how a line
    of the interactive session becomes arguments. *)

From Stdlib Require Import SpecFloat.
From S2P Require Import Prelude GoStd Values Store Engine EventLog GoBase64 GoText UiView.
Open Scope Z_scope.

(** ** Exit codes (exitcode.go) *)
Definition exitSuccess : Z := 0.
Definition exitFalseOrMiss : Z := 1.
Definition exitUsage : Z := 2.
Definition exitDatabase : Z := 3.

(** The text of an error is kept as the fixed start of its format; the
    library's errors keep their sentinel. *)
Inductive message := Text (s : string) | Lib (e : error).
#[global] Instance message_eq_dec : EqDecision message.
Proof. solve_decision. Defined.

(** The error of a command: an [*exitError], or any other one. *)
Inductive cli_error :=
  | ExitError (Code : Z) (Err : option message)
  | PlainError (m : message).

Definition silentExit (code : Z) : cli_error := ExitError code None.
Definition usageErrorf (format : string) : cli_error := ExitError exitUsage (Some (Text format)).
Definition databaseError (err : option message) : option cli_error :=
  match err with None => None | Some m => Some (ExitError exitDatabase (Some m)) end.

(** [exitError.Error]. *)
Definition Error_ (e : cli_error) : option message :=
  match e with ExitError _ err => err | PlainError m => Some m end.

(** ** Base64 with padding

    [base64.StdEncoding.DecodeString]: line breaks are skipped, the padding
    must be exact, and nothing may follow it. *)
Fixpoint std_groups (s : string) : option string :=
  match s with
  | EmptyString => Some ""
  | String p (String q (String "=" (String "=" EmptyString))) =>
      '(a7, a6, a5, a4, a3, a2) ← b64_value RawStd p;
      '(a1, a0, _, _, _, _) ← b64_value RawStd q;
      Some (String (Ascii a0 a1 a2 a3 a4 a5 a6 a7) "")
  | String p (String q (String r (String "=" EmptyString))) =>
      '(a7, a6, a5, a4, a3, a2) ← b64_value RawStd p;
      '(a1, a0, b7, b6, b5, b4) ← b64_value RawStd q;
      '(b3, b2, b1, b0, _, _) ← b64_value RawStd r;
      Some (String (Ascii a0 a1 a2 a3 a4 a5 a6 a7) (String (Ascii b0 b1 b2 b3 b4 b5 b6 b7) ""))
  | String p (String q (String r (String t s))) =>
      '(a7, a6, a5, a4, a3, a2) ← b64_value RawStd p;
      '(a1, a0, b7, b6, b5, b4) ← b64_value RawStd q;
      '(b3, b2, b1, b0, c7, c6) ← b64_value RawStd r;
      '(c5, c4, c3, c2, c1, c0) ← b64_value RawStd t;
      rest ← std_groups s;
      Some (String (Ascii a0 a1 a2 a3 a4 a5 a6 a7) (String (Ascii b0 b1 b2 b3 b4 b5 b6 b7)
        (String (Ascii c0 c1 c2 c3 c4 c5 c6 c7) rest)))
  | _ => None
  end.
Definition StdDecode (s : string) : option string := std_groups (skip_newlines s).

Example std_decode_padded :
  StdDecode <$> ["aGk="; "aGkh"; "aA=="; ""; "aGk"; "aGk=x"; "a+k"] =
  [Some "hi"; Some "hi!"; Some "h"; Some ""; None; None; None].
Proof. reflexivity. Qed.

(** ** Values from arguments (parse.go) *)

(** What [io.ReadAll] and [ReadString] find on standard input: its bytes, and
    whether reading them ends in an error. *)
Record input := MkInput { in_data : string; in_fails : bool }.

Section parse.
Context {GL : GoLib}.

Definition inferredValue (raw : string) : any :=
  match ParseInt raw with
  | Some n => GInt KInt64 n
  | None =>
      match ParseFloat raw with
      | Some f => GFloat64 f
      | None => match Unmarshal raw DAny with Some v => v | None => GString raw end
      end
  end.

Definition parseTypedValue (raw typeFlag : string) : string + any :=
  if String.eqb typeFlag "int" then
    match ParseInt raw with Some n => inr (GInt KInt64 n) | None => inl "invalid --type int value" end
  else if String.eqb typeFlag "float" then
    match ParseFloat raw with Some f => inr (GFloat64 f) | None => inl "invalid --type float value" end
  else if String.eqb typeFlag "json" then
    match Unmarshal raw DAny with Some v => inr v | None => inl "invalid --type json value" end
  else if String.eqb typeFlag "string" then inr (GString raw)
  else inl "unknown --type".

(** [os.ReadFile]: the file's bytes, if it can be read. *)
Context (ReadFile : string → option string).

Definition parseBytesValue (rawValue : option string) (fileFlag : string) (stdin : input) : string + any :=
  if negb (String.eqb fileFlag "") then
    match ReadFile fileFlag with Some data => inr (GBytes data) | None => inl "reading --file" end
  else
    match rawValue with
    | Some raw =>
        if String.eqb raw "-" then
          if in_fails stdin then inl "reading stdin" else inr (GBytes (in_data stdin))
        else match StdDecode raw with Some data => inr (GBytes data) | None => inl "invalid base64 value" end
    | None => inl "--type bytes requires"
    end.

(** [hasValue] is whether [rawValue] is there. *)
Definition parseSetValue (rawValue : option string) (typeFlag fileFlag : string) (stdin : input) : string + any :=
  if String.eqb typeFlag "bytes" then parseBytesValue rawValue fileFlag stdin
  else match rawValue with
       | None => inl "a value is required"
       | Some raw => if String.eqb typeFlag "" then inr (inferredValue raw) else parseTypedValue raw typeFlag
       end.
End parse.

(** [parseCounterAmount]. *)
Definition parseCounterAmount (amount : option string) : string + Z :=
  match amount with
  | None => inr 1
  | Some a => match ParseInt a with Some n => inr n | None => inl "invalid amount" end
  end.

(** ** Values as output (output.go) *)
Definition nonPortableMessage (code sizeBytes : Z) : string :=
  "(non-portable value: " +:+ typeCodeName code +:+ ", " +:+ FormatInt sizeBytes +:+ " bytes)".

(** ** Lines of the interactive session (repl.go)

    [splitArgs] byte by byte: inside single quotes, inside double quotes,
    whether a word has begun, and its bytes so far. *)
Definition backslash : ascii := "092".
Definition quote1 : ascii := "039".
Definition quote2 : ascii := "034".
Definition is_blank (a : ascii) : bool := Ascii.eqb a " " || Ascii.eqb a "009".

Fixpoint split_go (inSingle inDouble hasCur : bool) (cur line : string) : option (list string) :=
  match line with
  | EmptyString =>
      if inSingle || inDouble then None else Some (if hasCur then [cur] else [])
  | String ch t =>
      if inSingle then
        if Ascii.eqb ch quote1 then split_go false inDouble hasCur cur t
        else split_go true inDouble hasCur (cur +:+ String ch "") t
      else if inDouble then
        if Ascii.eqb ch quote2 then split_go inSingle false hasCur cur t
        else match t with
             | String next t' =>
                 if Ascii.eqb ch backslash && (Ascii.eqb next quote2 || Ascii.eqb next backslash)
                 then split_go inSingle true hasCur (cur +:+ String next "") t'
                 else split_go inSingle true hasCur (cur +:+ String ch "") t
             | EmptyString => split_go inSingle true hasCur (cur +:+ String ch "") t
             end
      else if Ascii.eqb ch quote1 then split_go true inDouble true cur t
      else if Ascii.eqb ch quote2 then split_go inSingle true true cur t
      else if is_blank ch then
        if hasCur then cons cur <$> split_go inSingle inDouble false "" t
        else split_go inSingle inDouble false cur t
      else split_go inSingle inDouble true (cur +:+ String ch "") t
  end.
Definition splitArgs (line : string) : option (list string) := split_go false false false "" line.

(** ** Ages (cmd_events.go) *)
Definition two_digits (n : Z) : string := pad_left 2 (FormatInt n).
Definition humanAge (d : Z) : string :=
  if d <? Second then FormatInt (Milliseconds d) +:+ "ms"
  else if d <? Minute then format_fixed 1 (Seconds d) +:+ "s"
  else if d <? Hour then
    FormatInt (int_of_float (Minutes d)) +:+ "m" +:+ two_digits (Z.rem (int_of_float (Seconds d)) 60) +:+ "s"
  else
    FormatInt (int_of_float (Hours d)) +:+ "h" +:+ two_digits (Z.rem (int_of_float (Minutes d)) 60) +:+ "m".

Example human_ages :
  humanAge <$> [850 * Millisecond; 2500 * Millisecond; 61 * Second; 2 * Hour + 5 * Minute; 59999 * Millisecond] =
  ["850ms"; "2.5s"; "1m01s"; "2h05m"; "60.0s"].
Proof. vm_compute. reflexivity. Qed.
