(* ===== verification/Cli.v ===== *)
(** The process of a command ([db.go], [output.go] of lytecache-cli): the
    files, the handle it opens and closes, what it prints and how it ends; and
    the commands on one key ([cmd_kv.go], [cmd_ttl.go]). *)

From Stdlib Require Import SpecFloat.
From S2P Require Import Prelude GoStd Values Store Engine Channels EventLog EventAdmin Subscription Changes Sweep Kv Reads Counters Open HashDoc Hash GoBase64 GoText UiSafe UiDb UiView CliText.
Open Scope Z_scope.

(** ** The process

    What has been printed: text, and tables that [text/tabwriter] aligns. *)
Inductive printed :=
  | Line (s : string)
  | Write (s : string)
  | Table (rows : list (list string)).

Record Session := MkSession {
  ss_files : gmap string Database;
  ss_step : nat;
  ss_mono : Z;
  ss_handle : option (Cache * Proc);      (* the open [Cache] *)
  ss_shared : bool;                       (* it is [flags.sharedCache] *)
  ss_out : list printed;
  ss_err : list message
}.

Definition set_handle (h : option (Cache * Proc)) (shared : bool) (s : Session) : Session :=
  MkSession (ss_files s) (ss_step s) (ss_mono s) h shared (ss_out s) (ss_err s).
Definition set_world (f : gmap string Database) (w : World) (h : option (Cache * Proc)) (s : Session) : Session :=
  MkSession f (w_step w) (w_mono w) h (ss_shared s) (ss_out s) (ss_err s).
Definition put_out (p : printed) (s : Session) : Session :=
  MkSession (ss_files s) (ss_step s) (ss_mono s) (ss_handle s) (ss_shared s) (ss_out s ++ [p]) (ss_err s).
Definition put_err (m : message) (s : Session) : Session :=
  MkSession (ss_files s) (ss_step s) (ss_mono s) (ss_handle s) (ss_shared s) (ss_out s) (ss_err s ++ [m]).

(** How a command ends: normally, with an error, with a panic, or not at all. *)
Inductive outcome (A : Type) :=
  | Done (a : A)
  | Exit (e : cli_error)
  | Panic
  | Stuck.
Arguments Done {_} _.
Arguments Exit {_} _.
Arguments Panic {_}.
Arguments Stuck {_}.

Definition C (A : Type) : Type := Session → outcome A * Session.
#[global] Instance C_ret : MRet C := λ _ a s, (Done a, s).
#[global] Instance C_bind : MBind C := λ _ _ k m s,
  match m s with
  | (Done a, s') => k a s'
  | (Exit e, s') => (Exit e, s')
  | (Panic, s') => (Panic, s')
  | (Stuck, s') => (Stuck, s')
  end.

Definition exit_with {A} (e : cli_error) : C A := λ s, (Exit e, s).
Definition panic {A} : C A := λ s, (Panic, s).
Definition stuck {A} : C A := λ s, (Stuck, s).
Definition usage {A} (format : string) : C A := exit_with (usageErrorf format).
Definition database {A} (m : message) : C A := exit_with (ExitError exitDatabase (Some m)).
Definition miss {A} : C A := exit_with (silentExit exitFalseOrMiss).

(** [fmt.Fprintln], [fmt.Fprint] and a flushed table. *)
Definition Fprintln (s : string) : C () := λ st, (Done tt, put_out (Line s) st).
Definition Fprint (s : string) : C () := λ st, (Done tt, put_out (Write s) st).
Definition Flush_table (rows : list (list string)) : C () := λ st, (Done tt, put_out (Table rows) st).
Definition Stderr (m : message) : C () := λ st, (Done tt, put_err m st).

(** The persistent flags ([sharedCache] is in the session). *)
Record globalFlags := MkFlags { g_db : string; g_namespace : string; g_quiet : bool }.

(** What [os.Stat] says of a path. *)
Inductive stat_result := StatOk | StatNotExist | StatError.

(** One [watch]/[events --json] line; a [nil] payload is [None]. *)
Record eventLine := MkEventLine {
  el_Seq : Z;
  el_Channel : string;
  el_Namespace : string;
  el_CreatedAt : string;
  el_Payload : option string;
  el_PayloadType : string;
  el_SizeBytes : Z
}.

Definition currentSchemaVersion : Z := 1.
Record statsView := MkStatsView {
  sv_Hits : Z;
  sv_Misses : Z;
  sv_HitRate : spec_float;
  sv_KeyCount : Z;
  sv_SizeBytes : Z;
  sv_Evictions : Z;
  sv_ExpiredRemoved : Z;
  sv_Path : string;
  sv_SchemaVersion : Z
}.

(** Parts of the standard library: the bits of a [float64], the conversion to
    [int64] of one that is out of its range (left to the implementation),
    [FormatFloat(x, 'f', -1, 64)], reading a file, the size of a database file, times as text,
    [json.Marshal] of any value, [json.Indent], and [encoding/json] on the
    records above. *)
Class CliLib (GL : GoLib) := {
  binary64 : float → spec_float;
  conv_out : spec_float → Z;
  FormatF : spec_float → string;
  ReadFile : string → option string;
  file_size : nat → Database → option Z;
  LocalTime : Z → string;
  RFC3339Nano : Z → string;
  MarshalAny : any → option string;
  Indent : string → option string;
  Encode_stats : statsView → option string;
  Encode_event : eventLine → option string
}.

Section cli.
Context {H : Host} {OS : Os} {FS : FileSystem} {GL : GoLib} {CJ : ChangeJson GL} {VL : ViewLib GL}
  {JT : JsonText GL} {SJ : SqliteJson GL} {SN : SqlNum} {CL : CliLib GL}.

(** ** The database (db.go) *)

Definition expandHome (path : string) : result string :=
  if negb (String.eqb path "~") && negb (HasPrefix path "~/") then Ok path
  else match UserHomeDir with
       | None => Err ErrInvalidArgument
       | Some home => if String.eqb path "~" then Ok home else Ok (Open.Join [home; drop_str 2 path])
       end.

Definition resolveDBPath (dbFlag : string) : result string :=
  if negb (String.eqb dbFlag "") then expandHome dbFlag else DefaultPath.

Definition Stat (path : string) : C stat_result := λ s,
  (Done (if stat_fails path then StatError
         else match ss_files s !! path with Some _ => StatOk | None => StatNotExist end), s).

Definition open_options (flags : globalFlags) (path : string) : list Option_ :=
  [WithPath path; WithEventRetention NoEventRetention] ++
  (if negb (String.eqb (g_namespace flags) "") then [WithNamespace (g_namespace flags)] else []).

(** [lytecache.New]: a file that is not there is made by the first statement. *)
Definition New_ (opts : list Option_) : C Cache := λ s,
  let o := foldl apply_option default_options opts in
  let p := match (if String.eqb (o_path o) "" then DefaultPath else Open.expandHome (o_path o)) with
           | Ok p => p | _ => o_path o end in
  let '(r, w) := New opts (MkWorld (default (Db ∅ ∅ None) (ss_files s !! p)) init_proc (ss_step s) (ss_mono s) false) in
  let files := if bool_decide (w_step w = ss_step s) then ss_files s else <[p := w_db w]> (ss_files s) in
  match r with
  | Ok c => (Done c, set_world files w (Some (c, w_proc w)) s)
  | Err e => (Exit (ExitError exitDatabase (Some (Lib e))), set_world files w (ss_handle s) s)
  | Hang => (Stuck, s)
  end.

Definition openCache (flags : globalFlags) (readOnly : bool) : C Cache := λ s,
  match ss_shared s, ss_handle s with
  | true, Some (c, _) => (Done c, s)
  | _, _ =>
      match resolveDBPath (g_db flags) with
      | Ok path =>
          (stat ← (if readOnly then Stat path else mret StatOk);
           match stat with
           | StatNotExist => database (Text "database file does not exist")
           | StatError => database (Text "checking database file")
           | StatOk => New_ (open_options flags path)
           end) s
      | _ => (Exit (ExitError exitDatabase (Some (Text "resolving database path"))), s)
      end
  end.

(** A library method on the open handle, its error as a value. *)
Definition lib {A} (m : M A) : C (error + A) := λ s,
  match ss_handle s with
  | None => (Panic, s)                       (* a nil *Cache *)
  | Some (c, proc) =>
      let '(r, w) := m (MkWorld (default (Db ∅ ∅ None) (ss_files s !! path c)) proc (ss_step s) (ss_mono s) false) in
      let s' := set_world (<[path c := w_db w]> (ss_files s)) w (Some (c, w_proc w)) s in
      match r with
      | Ok a => (Done (inr a), s')
      | Err e => (Done (inl e), s')
      | Hang => (Stuck, s')
      end
  end.
(** The same where the error is wrapped by [databaseError]. *)
Definition call {A} (m : M A) : C A :=
  r ← lib m;
  match r with inl e => database (Lib e) | inr a => mret a end.

(** The deferred [closeFn]: it also runs on an error and on a panic. *)
Definition closeFn (c : Cache) (s : Session) : Session :=
  set_handle None false (lib (Close c false) s).2.

(** [openCache], the rest of the command, and the deferred close; the shared
    handle stays open. *)
Definition with_cache {A} (flags : globalFlags) (readOnly : bool) (body : Cache → C A) : C A := λ s,
  match openCache flags readOnly s with
  | (Done c, s') =>
      let '(r, s'') := body c s' in
      (r, match r with Stuck => s'' | _ => if ss_shared s then s'' else closeFn c s'' end)
  | (Exit e, s') => (Exit e, s')
  | (Panic, s') => (Panic, s')
  | (Stuck, s') => (Stuck, s')
  end.

(** [time.Duration(x * float64(time.Second))]. *)
Definition in_range (x : spec_float) : bool :=
  match x with
  | S754_zero _ => true
  | S754_finite _ _ _ => in_int64 (int_of_float x)
  | _ => false
  end.
Definition DurationOf (x : float) : Z :=
  let d := fmul (binary64 x) (float64_of Second) in
  if in_range d then int_of_float d else conv_out d.

(** The number of arguments is checked by cobra before the command runs. *)
Definition wrong_args {A} : C A := exit_with (PlainError (Text "accepts another number of args")).

(** ** Values (output.go) *)

Definition formatDecodedValue (code : Z) (v : any) (raw : bool) : message + string :=
  let wrong := inl (Text "expected another type") in
  if code =? typeBytes then
    match v with
    | GBytes b =>
        if raw then inr b
        else inr (StdEncode b +:+ String newline "(bytes, " +:+ FormatInt (Z.of_nat (String.length b)) +:+ " B)")
    | _ => wrong
    end
  else if code =? typeString then match v with GString s => inr s | _ => wrong end
  else if code =? typeInt then match v with GInt KInt64 n => inr (FormatInt n) | _ => wrong end
  else if code =? typeFloat then match v with GFloat64 f => inr (FormatFloat f) | _ => wrong end
  else if code =? typeJSON then
    match (if raw then MarshalAny v else MarshalIndent v) with
    | Some b => inr b
    | None => inl (Lib ErrSerialization)
    end
  else inl (Text "unsupported value_type").

Definition getDecoded (c : Cache) (key : string) (code : Z) : C (option any) :=
  if code =? typeBytes then call (GetBytes c key)
  else if code =? typeString then call (GetString c key)
  else if code =? typeInt then call (GetInt64 c key)
  else if code =? typeFloat then call (GetFloat64 c key)
  else if code =? typeJSON then call (Get c key DAny)
  else database (Text "unsupported value_type").

(** ** get, set, del, exists (cmd_kv.go) *)

Definition runGet (c : Cache) (key : string) (raw : bool) : C () :=
  info ← call (Inspect c key);
  match info with
  | None => Fprintln "(nil)" ;; miss
  | Some info =>
      let code := RI_ValueType info in
      if isNonPortable code then Fprintln (nonPortableMessage code (RI_SizeBytes info))
      else
        value ← getDecoded c key code;
        match value with
        | None => Fprintln "(nil)" ;; miss
        | Some v =>
            if (code =? typeBytes) && raw then
              match v with GBytes b => Fprint b | _ => panic end
            else
              match formatDecodedValue code v raw with
              | inl m => database m
              | inr formatted => Fprintln formatted
              end
        end
  end.

Definition newGetCmd (flags : globalFlags) (raw : bool) (args : list string) : C () :=
  match args with
  | [key] => with_cache flags true (λ c, runGet c key raw)
  | _ => wrong_args
  end.

Definition ttl_opts (ttl : option float) : list Z :=
  match ttl with Some x => [DurationOf x] | None => [] end.

(** [ttl] is the flag when it was given. *)
Definition newSetCmd (flags : globalFlags) (ttl : option float) (typeFlag fileFlag : string) (stdin : input)
    (args : list string) : C () :=
  match args with
  | key :: ([] | [_]) =>
      if bool_decide (typeFlag ∉ [""; "string"; "int"; "float"; "json"; "bytes"]) then usage "unknown --type"
      else
        match parseSetValue ReadFile (args !! 1%nat) typeFlag fileFlag stdin with
        | inl m => usage m
        | inr value => with_cache flags false (λ c, call (Set_ c key value (ttl_opts ttl)))
        end
  | _ => wrong_args
  end.

Definition newDelCmd (flags : globalFlags) (args : list string) : C () :=
  match args with
  | [] => wrong_args
  | _ => with_cache flags true (λ c, n ← call (Delete c args); Fprintln (FormatInt n))
  end.

(** [printBool]: exists, expire, persist and touch end with it. *)
Definition printBool (ok : bool) : C () :=
  if ok then Fprintln "1" else Fprintln "0" ;; miss.

Definition newExistsCmd (flags : globalFlags) (args : list string) : C () :=
  match args with
  | [key] => with_cache flags true (λ c, ok ← call (Exists_ c key); printBool ok)
  | _ => wrong_args
  end.

(** ** ttl, expire, persist, touch (cmd_ttl.go) *)

Definition newTTLCmd (flags : globalFlags) (args : list string) : C () :=
  match args with
  | [key] =>
      with_cache flags true (λ c,
        ttl ← call (TTLOf c key);
        match ttl with
        | None => Fprintln "(nil)" ;; miss
        | Some None => Fprintln "-1"
        | Some (Some d) => Fprintln (FormatF (Seconds d))
        end)
  | _ => wrong_args
  end.

Definition newExpireCmd (flags : globalFlags) (args : list string) : C () :=
  match args with
  | [key; arg] =>
      match ParseFloat arg with
      | None => usage "invalid seconds"
      | Some seconds =>
          with_cache flags true (λ c, ok ← call (Expire c key (DurationOf seconds)); printBool ok)
      end
  | _ => wrong_args
  end.

Definition newPersistCmd (flags : globalFlags) (args : list string) : C () :=
  match args with
  | [key] => with_cache flags true (λ c, ok ← call (Persist c key); printBool ok)
  | _ => wrong_args
  end.

Definition newTouchCmd (flags : globalFlags) (args : list string) : C () :=
  match args with
  | [key; arg] =>
      match ParseFloat arg with
      | None => usage "invalid seconds"
      | Some seconds =>
          with_cache flags true (λ c, ok ← call (Touch c key (DurationOf seconds)); printBool ok)
      end
  | _ => wrong_args
  end.
End cli.
