(* ===== verification/CliCmds.v ===== *)
(** The remaining commands of the command line: [cmd_keys.go], [cmd_counters.go], [cmd_hash.go],
    [cmd_admin.go], [cmd_dump.go], [cmd_watch.go] and [cmd_events.go] of
    lytecache-cli. *)

From Stdlib Require Import SpecFloat.
From S2P Require Import Prelude GoStd Values Store Engine Channels EventLog EventAdmin Subscription Changes Sweep Kv Reads Counters Open HashDoc Hash GoBase64 GoText UiSafe UiDb UiView CliText Cli.
Open Scope Z_scope.

(** What [sub.Next] returns while [watch] runs: an event, the cancelled
    context after Ctrl-C, or the end of the subscription; and the number of
    ticks of [stats --watch] before Ctrl-C. *)
Inductive next_result := NextEvent (e : Event) | NextCanceled | NextEnd (e : error).
Class Waiting := {
  next_results : Subscription → list next_result;
  ticks : nat
}.

(** The payload [nil]. *)
Class NilValue (GL : GoLib) := nil_value : any.

Section cmds.
Context {H : Host} {OS : Os} {FS : FileSystem} {GL : GoLib} {CJ : ChangeJson GL} {VL : ViewLib GL}
  {JT : JsonText GL} {SJ : SqliteJson GL} {SN : SqlNum} {CL : CliLib GL} {WT : Waiting} {NV : NilValue GL}.

Fixpoint print_lines (l : list string) : C () :=
  match l with [] => mret tt | s :: l => Fprintln s ;; print_lines l end.

(** ** keys (cmd_keys.go) *)

(** The rows of one page of keys; an error flushes the table so far. *)
Fixpoint inspect_keys (c : Cache) (keys : list string) (rows : list (list string)) : C (list (list string)) :=
  match keys with
  | [] => mret rows
  | key :: keys =>
      r ← lib (Inspect c key);
      match r with
      | inl e => Flush_table rows ;; database (Lib e)
      | inr None => inspect_keys c keys rows
      | inr (Some info) =>
          ttl ← call (Until_opt (RI_ExpiresAt info));
          let ttlStr := match ttl with None => "-" | Some d => format_fixed 1 (Seconds d) end in
          inspect_keys c keys (rows ++ [[key; typeCodeName (RI_ValueType info); ttlStr; FormatInt (RI_SizeBytes info)]])
      end
  end.

(** The iteration over [Keys], whose pages are read as it goes. *)
Fixpoint keys_long (fuel : nat) (c : Cache) (pattern lastKey : string) (rows : list (list string)) : C () :=
  match fuel with
  | O => stuck
  | S fuel =>
      r ← lib (keysPage c pattern lastKey);
      match r with
      | inl e => Flush_table rows ;; database (Lib e)
      | inr batch =>
          rows ← inspect_keys c batch rows;
          match last batch with
          | None => Flush_table rows
          | Some k =>
              if Nat.ltb (length batch) keysBatchSize then Flush_table rows
              else keys_long fuel c pattern k rows
          end
      end
  end.

Definition runKeys (c : Cache) (pattern : string) (long : bool) : C () :=
  if negb long then
    '(keys, err) ← call (Keys_ c pattern);
    print_lines keys ;;
    match err with Some e => database (Lib e) | None => mret tt end
  else
    fuel ← call cache_fuel;
    keys_long fuel c (if String.eqb pattern "" then "*" else pattern) "" [["KEY"; "TYPE"; "TTL"; "SIZE"]].

Definition newKeysCmd (flags : globalFlags) (long : bool) (args : list string) : C () :=
  match args with
  | [] => with_cache flags true (λ c, runKeys c "*" long)
  | [pattern] => with_cache flags true (λ c, runKeys c pattern long)
  | _ => wrong_args
  end.

(** ** incr, decr (cmd_counters.go) *)

Definition counter_cmd (op : Cache → string → Z → M Z) (flags : globalFlags) (args : list string) : C () :=
  match args with
  | key :: ([] | [_]) =>
      match parseCounterAmount (args !! 1%nat) with
      | inl m => usage m
      | inr amount => with_cache flags false (λ c, n ← call (op c key amount); Fprintln (FormatInt n))
      end
  | _ => wrong_args
  end.
Definition newIncrCmd : globalFlags → list string → C () := counter_cmd Incr.
Definition newDecrCmd : globalFlags → list string → C () := counter_cmd Decr.

(** ** hget, hgetall, hset (cmd_hash.go) *)

(** The note added to a serialization error is not kept. *)
Definition hashError {A} (e : error) : C A := database (Lib e).

Definition prettyJSON (b : string) (compact : bool) : string :=
  if compact then (if Valid b then Compact b else b) else default b (Indent b).

Definition newHGetCmd (flags : globalFlags) (raw : bool) (args : list string) : C () :=
  match args with
  | [key; field] =>
      with_cache flags true (λ c,
        r ← lib (HGetRaw c key field);
        match r with
        | inl e => hashError e
        | inr None => Fprintln "(nil)" ;; miss
        | inr (Some v) =>
            match (if raw then None else Unmarshal v DString) with
            | Some (GString s) => Fprintln s
            | _ => Fprintln (prettyJSON v raw)
            end
        end)
  | _ => wrong_args
  end.

(** The members written one by one: [vals[i]] panics past the end. *)
Fixpoint members (first : bool) (keys vals : list string) : option string :=
  match keys with
  | [] => Some ""
  | k :: keys =>
      match vals with
      | [] => None
      | v :: vals =>
          rest ← members false keys vals;
          Some ((if first then "" else ",") +:+ default "" (MarshalAny (GString k)) +:+ ":" +:+ v +:+ rest)
      end
  end.

Definition newHGetAllCmd (flags : globalFlags) (raw : bool) (args : list string) : C () :=
  match args with
  | [key] =>
      with_cache flags true (λ c,
        r ← lib (HKeys c key);
        match r with
        | inl e => hashError e
        | inr keys =>
            r ← lib (HVals c key);
            match r with
            | inl e => hashError e
            | inr vals =>
                ok ← (if bool_decide (keys = []) then r ← lib (Exists_ c key); mret (match r with inr b => b | inl _ => false end)
                      else mret true);
                if negb ok then Fprintln "(nil)" ;; miss
                else match members true keys vals with
                     | None => panic
                     | Some doc => Fprintln (prettyJSON ("{" +:+ doc +:+ "}") raw)
                     end
            end
        end)
  | _ => wrong_args
  end.

Definition newHSetCmd (flags : globalFlags) (ttl : option float) (typeFlag : string) (args : list string) : C () :=
  match args with
  | [key; field; arg] =>
      match (if negb (String.eqb typeFlag "") then parseTypedValue arg typeFlag else inr (inferredValue arg)) with
      | inl m => usage m
      | inr value =>
          with_cache flags false (λ c,
            r ← lib (HSet c key field value (ttl_opts ttl));
            match r with
            | inl e => hashError e
            | inr created => Fprintln (if created : bool then "1" else "0")
            end)
      end
  | _ => wrong_args
  end.

(** ** stats, flush, maintain, vacuum, which (cmd_admin.go) *)

Definition stats_view (s : Stats_) : statsView :=
  MkStatsView (S_Hits s) (S_Misses s)
    (match S_HitRate s with Some (h, t) => fdiv (float64_of h) (float64_of t) | None => S754_zero false end)
    (S_KeyCount s) (S_SizeBytes s) (S_Evictions s) (S_ExpiredRemoved s) (S_Path s) currentSchemaVersion.

Definition runStats (c : Cache) (asJSON : bool) : C () :=
  s ← call (Stats c);
  let v := stats_view s in
  if asJSON then
    match Encode_stats v with
    | Some text => Fprintln text
    | None => exit_with (PlainError (Lib ErrSerialization))
    end
  else
    print_lines
      ["keys:            " +:+ FormatInt (sv_KeyCount v);
       "size:            " +:+ FormatInt (sv_SizeBytes v) +:+ " bytes";
       "hits:            " +:+ FormatInt (sv_Hits v);
       "misses:          " +:+ FormatInt (sv_Misses v);
       "hit rate:        " +:+ format_fixed 2 (fmul (sv_HitRate v) (float64_of 100)) +:+ "%";
       "evictions:       " +:+ FormatInt (sv_Evictions v);
       "expired removed: " +:+ FormatInt (sv_ExpiredRemoved v);
       "schema version:  " +:+ FormatInt (sv_SchemaVersion v);
       "path:            " +:+ sv_Path v].

(** [runStatsWatch]: a redraw, then another after each tick until Ctrl-C;
    [time.NewTicker] panics on an interval that is not positive. *)
Fixpoint redraw (n : nat) (flags : globalFlags) (interval : Z) : C () :=
  with_cache flags true (λ c,
    Fprint (String "027" ("[H" +:+ String "027" "[2J")) ;;
    Fprintln ("lytecache stats --watch -- every " +:+ Duration_String interval +:+ " -- Ctrl-C to quit") ;;
    Fprintln "" ;;
    runStats c false) ;;
  match n with O => mret tt | S n => redraw n flags interval end.
Definition runStatsWatch (flags : globalFlags) (interval : Z) : C () :=
  if interval <=? 0 then panic else redraw ticks flags interval.

Definition newStatsCmd (flags : globalFlags) (asJSON : bool) (watch : option float) (args : list string) : C () :=
  match args with
  | [] =>
      match watch with
      | Some x =>
          if SFleb (binary64 x) (float64_of 0) then usage "--watch interval must be positive"
          else runStatsWatch flags (DurationOf x)
      | None => with_cache flags true (λ c, runStats c asJSON)
      end
  | _ => wrong_args
  end.

(** [bufio.Reader.ReadString]: up to the first newline, or all there is. *)
Definition read_line (r : input) : option string :=
  match Cut (in_data r) newline with
  | Some (line, _) => Some (line +:+ String newline "")
  | None => if in_fails r then None else Some (in_data r)
  end.

(** The prompt is kept without the quotes of [%q]. *)
Definition confirm (r : input) (prompt : string) : C bool :=
  Fprint prompt ;;
  match read_line r with
  | None => database (Text "read error")
  | Some line =>
      let answer := ToLower (TrimSpaceUnicode line) in
      mret (String.eqb answer "y" || String.eqb answer "yes")
  end.

Definition newFlushCmd (flags : globalFlags) (yes : bool) (stdin : input) (args : list string) : C () :=
  match args with
  | [] =>
      ok ← (if yes then mret true
            else confirm stdin ("Delete all keys in namespace " +:+ g_namespace flags +:+ "? [y/N] "));
      if negb ok then miss
      else with_cache flags true (λ c, call (Flush c))
  | _ => wrong_args
  end.

Definition newMaintainCmd (flags : globalFlags) (args : list string) : C () :=
  match args with
  | [] =>
      with_cache flags true (λ c,
        result ← call (Maintain c);
        Fprintln ("removed " +:+ FormatInt (ExpiredRemoved result) +:+ " expired key(s), evicted " +:+
                  FormatInt (Evicted result) +:+ " key(s)"))
  | _ => wrong_args
  end.

Definition fileSize (path : string) : C Z := λ s,
  match ss_files s !! path ≫= file_size (ss_step s) with
  | Some n => (Done n, s)
  | None => (Exit (ExitError exitDatabase (Some (Text "stat"))), s)
  end.

Definition newVacuumCmd (flags : globalFlags) (args : list string) : C () :=
  match args with
  | [] =>
      with_cache flags true (λ c,
        before ← fileSize (Path c);
        call Vacuum ;;
        after ← fileSize (Path c);
        Fprintln (FormatInt before +:+ " bytes -> " +:+ FormatInt after +:+ " bytes"))
  | _ => wrong_args
  end.

Definition newWhichCmd (flags : globalFlags) (args : list string) : C () :=
  match args with
  | [] =>
      match resolveDBPath (g_db flags) with
      | Ok path =>
          stat ← Stat path;
          Fprintln path ;;
          match stat with
          | StatOk => Fprintln "(exists)"
          | _ => Fprintln "(does not exist yet)" ;; miss
          end
      | _ => database (Text "expanding ~")
      end
  | _ => wrong_args
  end.

(** ** dump (cmd_dump.go) *)
Definition newDumpCmd (flags : globalFlags) (args : list string) : C () :=
  match args with
  | [key] =>
      with_cache flags true (λ c,
        info ← call (Inspect c key);
        match info with
        | None => Fprintln "(nil)" ;; miss
        | Some i =>
            print_lines
              (["key:            " +:+ key;
                "value_type:     " +:+ FormatInt (RI_ValueType i) +:+ " (" +:+ typeCodeName (RI_ValueType i) +:+ ")";
                "size_bytes:     " +:+ FormatInt (RI_SizeBytes i);
                "created_at:     " +:+ LocalTime (RI_CreatedAt i);
                "last_accessed:  " +:+ LocalTime (RI_LastAccessed i);
                "access_count:   " +:+ FormatInt (RI_AccessCount i);
                "expires_at:     " +:+ match RI_ExpiresAt i with Some t => LocalTime t | None => "(none)" end] ++
               (if isNonPortable (RI_ValueType i)
                then ["value:          " +:+ nonPortableMessage (RI_ValueType i) (RI_SizeBytes i)] else []))
        end)
  | _ => wrong_args
  end.

(** ** notify, watch, events (cmd_events.go) *)

Definition newNotifyCmd (flags : globalFlags) (typeFlag : string) (args : list string) : C () :=
  match args with
  | channel :: ([] | [_]) =>
      match (match args !! 1%nat with
             | None => inr nil_value
             | Some arg => if negb (String.eqb typeFlag "") then parseTypedValue arg typeFlag else inr (inferredValue arg)
             end) with
      | inl m => usage m
      | inr payload =>
          with_cache flags false (λ c,
            r ← lib (Notify c channel payload);
            match r with
            | inl e => if bool_decide (e = ErrInvalidArgument) then exit_with (ExitError exitUsage (Some (Lib e)))
                       else database (Lib e)
            | inr seq => Fprintln (FormatInt seq)
            end)
      end
  | _ => wrong_args
  end.

Definition toEventLine (e : Event) : eventLine :=
  let line payload payloadType :=
    MkEventLine (Seq e) (Channel e) (EvNamespace e) (RFC3339Nano (CreatedAt e)) payload payloadType
      (Z.of_nat (String.length (Payload e))) in
  if Null e then line (Some "null") ""
  else
    let code := PayloadType e in
    if code =? typeJSON then line (Some (Payload e)) ""
    else if code =? typeBytes then line (MarshalAny (GString (StdEncode (Payload e)))) "bytes"
    else if code =? typeString then line (MarshalAny (GString (Payload e))) ""
    else if (code =? typeInt) || (code =? typeFloat) then
      line (match Decode e DAny with
            | Ok (Some v) => MarshalAny v
            | _ => Some "null"
            end) ""
    else line (Some "null") (typeCodeName code).

(** An encoding error ends the command as a plain error. *)
Definition encode_line (e : Event) : C () :=
  match Encode_event (toEventLine e) with
  | Some text => Fprintln text
  | None => exit_with (PlainError (Lib ErrSerialization))
  end.
Fixpoint encode_lines (l : list Event) : C () :=
  match l with [] => mret tt | e :: l => encode_line e ;; encode_lines l end.

(** The loop of [watch]: [left] events still to be seen, 0 from the start for
    no bound. *)
Fixpoint tail_events (left : option nat) (nexts : list next_result) : C () :=
  match left with
  | Some O => mret tt
  | _ =>
      match nexts with
      | [] => stuck
      | NextCanceled :: _ => mret tt
      | NextEnd e :: _ => database (Lib e)
      | NextEvent e :: nexts => encode_line e ;; tail_events (pred <$> left) nexts
      end
  end.

(** [legacyWatchArgs]: [None] for a channel pattern. *)
Definition legacyWatchArgs (event_flags : bool) (args : list string) : option (cli_error + Z) :=
  if event_flags then None
  else match args with
       | [] => Some (inr (2 * Second))
       | [arg] =>
           match ParseFloat arg with
           | None => None
           | Some seconds =>
               if SFleb (binary64 seconds) (float64_of 0) then Some (inl (usageErrorf "interval must be positive"))
               else Some (inr (DurationOf seconds))
           end
       | _ => None
       end.

(** [fromSeq] and [count] are the flags when they were given; with a negative
    count the loop is not entered. *)
Definition newEventsWatchCmd (flags : globalFlags) (fromSeq : option Z) (poll : Z) (count : option Z)
    (args : list string) : C () :=
  let event_flags := match fromSeq, count with None, None => false | _, _ => true end in
  match legacyWatchArgs event_flags args with
  | Some (inl e) => exit_with e
  | Some (inr interval) =>
      Stderr (Text "note: `lytecache watch [interval]` is deprecated") ;;
      runStatsWatch flags interval
  | None =>
      with_cache flags true (λ c,
        let opts := PollInterval poll :: match fromSeq with Some n => [FromSeq n] | None => [] end in
        if match fromSeq with Some n => n <? 0 | None => false end then usage "--from-seq must be >= 0"
        else
          r ← lib (Watch c args opts);
          match r with
          | inl e => if bool_decide (e = ErrInvalidArgument) then exit_with (ExitError exitUsage (Some (Lib e)))
                     else database (Lib e)
          | inr (_, sub) =>
              let n := default 0 count in
              if n <? 0 then mret tt
              else tail_events (if n =? 0 then None else Some (Z.to_nat n)) (next_results sub)
          end)
  end.

Definition event_cells (now : Z) (e : Event) : list string :=
  [FormatInt (Seq e); Channel e; EvNamespace e; humanAge (time_sub (now * Millisecond) (CreatedAt e * Millisecond));
   FormatInt (Z.of_nat (String.length (Payload e))) +:+ " B"].

Definition runEvents (c : Cache) (limit : Z) (asJSON : bool) : C () :=
  info ← call EventStats;
  if negb (EI_Enabled info) then
    (if negb asJSON then Fprintln "(no events table: notify/watch has never been used on this file)" else mret tt)
  else
    events ← call (RecentEvents limit (-1) []);
    if asJSON then encode_lines events
    else
      now ← call nowMillis;
      Flush_table (["SEQ"; "CHANNEL"; "NAMESPACE"; "AGE"; "SIZE"] :: (event_cells now <$> events)) ;;
      Fprint (String newline "retained: " +:+ FormatInt (EI_Count info) +:+ " events (seq " +:+
              FormatInt (EI_OldestSeq info) +:+ ".." +:+ FormatInt (EI_NewestSeq info) +:+ "), " +:+
              FormatInt (EI_PayloadBytes info) +:+ " payload bytes") ;;
      (if 0 <? EI_Count info then
         Fprint (", oldest " +:+ humanAge (time_sub (now * Millisecond) (default 0 (EI_OldestAt info) * Millisecond)) +:+ " old")
       else mret tt) ;;
      Fprintln "".

Definition newEventsCmd (flags : globalFlags) (limit : Z) (asJSON : bool) (args : list string) : C () :=
  match args with
  | [] =>
      if limit <=? 0 then usage "--limit must be positive"
      else with_cache flags true (λ c, runEvents c limit asJSON)
  | _ => wrong_args
  end.
End cmds.
