(* ===== verification/CliMain.v ===== *)
(** The entry point of the command line and the interactive session
    ([main.go], [root.go], [repl.go] of lytecache-cli). Cobra parses the
    arguments; its answer is which command runs with which flags. *)

From Stdlib Require Import SpecFloat.
From S2P Require Import Prelude GoStd Values Store Engine Channels EventLog EventAdmin Subscription Changes Sweep Kv Reads Counters Open HashDoc Hash GoBase64 GoText UiSafe UiDb UiView CliText Cli CliCmds.
Open Scope Z_scope.

(** A line of the session with what its command finds on standard input, or
    Ctrl-C, Ctrl-D, or a failure of the terminal. *)
Inductive readline := RLine (line : string) (stdin : input) | RInterrupt | REOF | RFailed.

Section main.
Context {H : Host} {OS : Os} {FS : FileSystem} {GL : GoLib} {CJ : ChangeJson GL} {VL : ViewLib GL}
  {JT : JsonText GL} {SJ : SqliteJson GL} {SN : SqlNum} {CL : CliLib GL} {WT : Waiting} {NV : NilValue GL}.

(** A parsed command line. [POther] is a command modelled elsewhere ([ui],
    [service]), [PRoot] the bare invocation. *)
Inductive parsed :=
  | PError (m : string)
  | PHelp (text : string)
  | PRoot (args : list string)
  | PGet (raw : bool) (args : list string)
  | PSet (ttl : option float) (typeFlag fileFlag : string) (args : list string)
  | PDel (args : list string)
  | PExists (args : list string)
  | PTTL (args : list string)
  | PExpire (args : list string)
  | PPersist (args : list string)
  | PTouch (args : list string)
  | PIncr (args : list string)
  | PDecr (args : list string)
  | PKeys (long : bool) (args : list string)
  | PStats (asJSON : bool) (watch : option float) (args : list string)
  | PFlush (yes : bool) (args : list string)
  | PMaintain (args : list string)
  | PVacuum (args : list string)
  | PWhich (args : list string)
  | PDump (args : list string)
  | PWatch (fromSeq : option Z) (poll : Z) (count : option Z) (args : list string)
  | PNotify (typeFlag : string) (args : list string)
  | PEvents (limit : Z) (asJSON : bool) (args : list string)
  | PHGet (raw : bool) (args : list string)
  | PHGetAll (raw : bool) (args : list string)
  | PHSet (ttl : option float) (typeFlag : string) (args : list string)
  | POther (run : C ()).

(** Cobra on the whole command line, and on a line of the session, whose tree
    has no persistent flags. *)
Context (ParseRoot : list string → globalFlags * parsed) (ParseRepl : list string → parsed).

(** [buildCommandTree]; [bare] is what the root itself runs. *)
Definition buildCommandTree (bare : list string → C ()) (flags : globalFlags) (stdin : input) (p : parsed) : C () :=
  match p with
  | PError m => exit_with (PlainError (Text m))
  | PHelp text => Fprintln text
  | PRoot args => bare args
  | PGet raw args => newGetCmd flags raw args
  | PSet ttl typeFlag fileFlag args => newSetCmd flags ttl typeFlag fileFlag stdin args
  | PDel args => newDelCmd flags args
  | PExists args => newExistsCmd flags args
  | PTTL args => newTTLCmd flags args
  | PExpire args => newExpireCmd flags args
  | PPersist args => newPersistCmd flags args
  | PTouch args => newTouchCmd flags args
  | PIncr args => newIncrCmd flags args
  | PDecr args => newDecrCmd flags args
  | PKeys long args => newKeysCmd flags long args
  | PStats asJSON watch args => newStatsCmd flags asJSON watch args
  | PFlush yes args => newFlushCmd flags yes stdin args
  | PMaintain args => newMaintainCmd flags args
  | PVacuum args => newVacuumCmd flags args
  | PWhich args => newWhichCmd flags args
  | PDump args => newDumpCmd flags args
  | PWatch fromSeq poll count args => newEventsWatchCmd flags fromSeq poll count args
  | PNotify typeFlag args => newNotifyCmd flags typeFlag args
  | PEvents limit asJSON args => newEventsCmd flags limit asJSON args
  | PHGet raw args => newHGetCmd flags raw args
  | PHGetAll raw args => newHGetAllCmd flags raw args
  | PHSet ttl typeFlag args => newHSetCmd flags ttl typeFlag args
  | POther run => run
  end.

(** ** The interactive session *)

Definition printREPLError (e : cli_error) : C () :=
  match e with
  | ExitError _ None => mret tt
  | ExitError _ (Some m) => Stderr m
  | PlainError m => Stderr m
  end.

Definition runREPLCommand (flags : globalFlags) (stdin : input) (args : list string) : C () := λ s,
  match buildCommandTree (λ _, mret tt) flags stdin (ParseRepl args) s with
  | (Exit e, s') => printREPLError e s'
  | r => r
  end.

(** [strings.ToLower] as far as it can make the name of a command: ASCII
    letters, and the two others whose lower case is one (the Kelvin sign and
    the dotted capital I). *)
Fixpoint lower_name (s : string) : string :=
  match s with
  | String "226" (String "132" (String "170" t)) => String "k" (lower_name t)
  | String "196" (String "176" t) => String "i" (lower_name t)
  | String a t => String (lower_char a) (lower_name t)
  | EmptyString => EmptyString
  end.

Fixpoint repl_loop (flags : globalFlags) (events : list readline) : C () :=
  match events with
  | [] => stuck                                  (* still at the prompt *)
  | RInterrupt :: events => repl_loop flags events
  | REOF :: _ => mret tt
  | RFailed :: _ => database (Text "readline")
  | RLine line stdin :: events =>
      let line := TrimSpaceUnicode line in
      if String.eqb line "" then repl_loop flags events
      else match splitArgs line with
           | None => Stderr (Text "unterminated quote") ;; repl_loop flags events
           | Some [] => repl_loop flags events
           | Some (name :: rest) =>
               let name := lower_name name in
               if String.eqb name "quit" || String.eqb name "exit" then mret tt
               else runREPLCommand flags stdin (name :: rest) ;; repl_loop flags events
           end
  end.

(** What the terminal is given: the prompt and the history file, none if the
    home directory is unknown. *)
Definition replPrompt (dbPath namespace : string) : string :=
  "lytecache (" +:+ Base dbPath +:+ " | ns: " +:+ namespace +:+ ")> ".
Definition historyFilePath : string :=
  match UserHomeDir with None => "" | Some home => Open.Join [home; ".lytecache_history"] end.

Definition share : C () := λ s, (Done tt, set_handle (ss_handle s) true s).

Definition runREPL (flags : globalFlags) (events : list readline) : C () :=
  with_cache flags false (λ c,
    share ;;
    (if g_quiet flags then mret tt else Stderr (Text ("Using database: " +:+ Path c))) ;;
    repl_loop flags events).

(** ** main *)

Definition newRootCmd (stdin : input) (events : list readline) (args : list string) : C () :=
  let '(flags, p) := ParseRoot args in
  buildCommandTree (λ args, match args with [] => runREPL flags events | _ => usage "unknown command" end) flags stdin p.

(** The exit code, [None] while the process runs. A Go program that panics
    exits with 2. *)
Definition runWithIO (args : list string) (stdin : input) (events : list readline) (s : Session) : option Z * Session :=
  match newRootCmd stdin events args s with
  | (Done _, s') => (Some exitSuccess, s')
  | (Exit (ExitError code (Some m)), s') => (Some code, put_err m s')
  | (Exit (ExitError code None), s') => (Some code, s')
  | (Exit (PlainError m), s') => (Some exitUsage, put_err m s')
  | (Panic, s') => (Some 2, s')
  | (Stuck, s') => (None, s')
  end.
End main.

(** A process that has just started on some files. *)
Definition start (files : gmap string Database) (step : nat) : Session := MkSession files step 0 None false [] [].
