(* ===== verification/CliProps.v ===== *)
(** What the command line guarantees: quoting in the interactive session, the
    type a value is stored with, what [get] shows after [set], and that the
    commands that only read never create a file. *)

From Stdlib Require Import SpecFloat.
From S2P Require Import Prelude GoStd Values Store Engine Channels EventLog EventAdmin Subscription Changes Sweep Kv Reads Counters Open HashDoc Hash GoBase64 GoText UiSafe UiDb UiView CliText Cli CliCmds CliMain.
Open Scope Z_scope.

(** ** Quoting *)

(** The three ways to write an argument, and when each is exact. *)
Inductive style := Bare | Single | Double.

Fixpoint escape (s : string) : string :=
  match s with
  | EmptyString => ""
  | String a t =>
      if Ascii.eqb a quote2 || Ascii.eqb a backslash then String backslash (String a (escape t))
      else String a (escape t)
  end.
Definition plain_char (a : ascii) : bool :=
  negb (is_blank a) && negb (Ascii.eqb a quote1) && negb (Ascii.eqb a quote2).
Definition spell (st : style) (s : string) : string :=
  match st with
  | Bare => s
  | Single => String quote1 (s +:+ String quote1 "")
  | Double => String quote2 (escape s +:+ String quote2 "")
  end.
Definition spells (st : style) (s : string) : bool :=
  match st with
  | Bare => negb (String.eqb s "") && forallb plain_char (String.list_ascii_of_string s)
  | Single => negb (ContainsChar s quote1)
  | Double => true
  end.
Definition blanks (s : string) : bool := forallb is_blank (String.list_ascii_of_string s).

Fixpoint write_line (words : list (string * style * string)) : string :=
  match words with
  | [] => ""
  | (sep, st, s) :: words => sep +:+ spell st s +:+ write_line words
  end.

Lemma str_app_char cur a t : (cur +:+ String a "") +:+ t = cur +:+ String a t.
Proof. by rewrite str_app_assoc, str_app_cons, str_app_nil. Qed.

Lemma split_blanks b cur sep rest :
  blanks sep = true → sep ≠ "" →
  split_go false false b cur (sep +:+ rest) =
  (if b then cons cur <$> split_go false false false "" rest else split_go false false false cur rest).
Proof.
  intros Hb Hne. destruct sep as [|a sep]; [done|]. clear Hne. revert b cur a Hb.
  induction sep as [|a' sep IH]; intros b cur a Hb; unfold blanks in *; simpl in Hb; bool_to_prop.
  - rewrite str_app_cons, str_app_nil. cbn [split_go].
    assert (Ascii.eqb a quote1 = false ∧ Ascii.eqb a quote2 = false) as [-> ->].
    { unfold is_blank in *. bool_to_prop. destruct_or!; apply Ascii.eqb_eq in H as ->; done. }
    by rewrite H.
  - rewrite str_app_cons. cbn [split_go].
    assert (Ascii.eqb a quote1 = false ∧ Ascii.eqb a quote2 = false) as [-> ->].
    { unfold is_blank in H. bool_to_prop. destruct_or!; apply Ascii.eqb_eq in H as ->; done. }
    rewrite H. destruct b; [f_equal|]; rewrite IH by (simpl; auto with bool); done.
Qed.

Lemma split_single cur s rest :
  ContainsChar s quote1 = false →
  split_go true false true cur (s +:+ String quote1 rest) = split_go false false true (cur +:+ s) rest.
Proof.
  revert cur. induction s as [|a s IH]; intros cur; cbn [ContainsChar].
  - intros _. rewrite str_app_nil. cbn [split_go]. rewrite Ascii.eqb_refl. by rewrite str_app_nil_r.
  - rewrite orb_false_iff, bool_decide_eq_false. intros [Hne Hs]. rewrite str_app_cons. cbn [split_go].
    rewrite (proj2 (Ascii.eqb_neq _ _)) by congruence. rewrite IH by done. by rewrite str_app_char.
Qed.

Lemma split_double cur s rest :
  split_go false true true cur (escape s +:+ String quote2 rest) = split_go false false true (cur +:+ s) rest.
Proof.
  revert cur. induction s as [|a s IH]; intros cur; cbn [escape].
  - rewrite str_app_nil. cbn [split_go]. rewrite Ascii.eqb_refl. by rewrite str_app_nil_r.
  - destruct (Ascii.eqb a quote2 || Ascii.eqb a backslash) eqn:Ha.
    + rewrite !str_app_cons. cbn [split_go]. rewrite Ha. cbn. rewrite IH. by rewrite str_app_char.
    + rewrite str_app_cons. cbn [split_go]. bool_to_prop.
      match goal with H : Ascii.eqb a quote2 = false |- _ => rewrite H end.
      destruct (escape s +:+ String quote2 rest) as [|b t] eqn:E.
      { destruct (escape s); by str_simpl. }
      match goal with H : Ascii.eqb a backslash = false |- _ => rewrite H end. cbn [andb].
      rewrite IH. by rewrite str_app_char.
Qed.

Lemma split_bare b cur s rest :
  forallb plain_char (String.list_ascii_of_string s) = true →
  split_go false false b cur (s +:+ rest) =
  split_go false false (b || negb (String.eqb s "")) (cur +:+ s) rest.
Proof.
  revert b cur. induction s as [|a s IH]; intros b cur Hs; simpl in Hs.
  { by rewrite str_app_nil, str_app_nil_r, orb_false_r. }
  bool_to_prop. unfold plain_char in *. bool_to_prop. rewrite str_app_cons. cbn [split_go].
  repeat match goal with H : _ = false |- _ => rewrite H; clear H end.
  rewrite IH by done. rewrite str_app_char. cbn. by rewrite orb_true_r.
Qed.

Lemma split_word st s rest :
  spells st s = true →
  split_go false false false "" (spell st s +:+ rest) = split_go false false true s rest.
Proof.
  destruct st; unfold spells, spell; intros Hs; bool_to_prop.
  - rewrite split_bare by done. rewrite (proj2 (String.eqb_neq _ _)) by done. done.
  - rewrite str_app_cons, str_app_assoc, str_app_cons, str_app_nil. cbn [split_go]. by rewrite split_single.
  - rewrite str_app_cons, str_app_assoc, str_app_cons, str_app_nil. cbn [split_go]. by rewrite split_double.
Qed.

(** C36: what is quoted is what a command receives. A line made of words
    separated by blanks, each written bare, in single quotes or in double
    quotes with backslashes, is split into exactly those words, whatever bytes
    they hold, empty words included. *)
Theorem splitArgs_quotes (words : list (string * style * string)) :
  Forall (λ '(_, st, s), spells st s = true) words →
  Forall (λ '(sep, _, _), blanks sep = true) words →
  Forall (λ '(sep, _, _), sep ≠ "") (tail words) →
  splitArgs (write_line words) = Some (snd <$> words).
Proof.
  intros Hw Hb Hne. unfold splitArgs. destruct words as [|[[sep st] s] words]; [done|].
  cbn [write_line tail] in *. inversion Hw as [|?? Hs Hws]; inversion Hb as [|?? Hsep Hbs]; subst.
  assert (split_go false false false "" (sep +:+ spell st s +:+ write_line words) =
          split_go false false true s (write_line words)) as ->.
  { destruct (decide (sep = "")) as [->|Hn].
    - rewrite str_app_nil. by apply split_word.
    - rewrite split_blanks by done. by apply split_word. }
  clear Hw Hb Hs. cbn [fmap list_fmap snd]. clear sep st Hsep. revert s Hws Hbs Hne.
  induction words as [|[[sep st] s'] words IH]; intros s Hws Hbs Hne; [done|].
  cbn [write_line]. inversion Hws as [|?? Hs' Hws']; inversion Hbs as [|?? Hsep' Hbs'];
    inversion Hne as [|?? Hn Hne']; subst.
  rewrite split_blanks, split_word, IH by done. done.
Qed.

Lemma splitArgs_quotes_witness :
  splitArgs ("set k '{" +:+ String quote2 "a" +:+ String quote2 ": 1}'  " +:+
             String quote2 (String backslash (String quote2 (String quote2 "")))) =
  Some ["set"; "k"; "{" +:+ String quote2 "a" +:+ String quote2 ": 1}"; String quote2 ""].
Proof.
  apply (splitArgs_quotes [("", Bare, "set"); (" ", Bare, "k");
    (" ", Single, "{" +:+ String quote2 "a" +:+ String quote2 ": 1}"); ("  ", Double, String quote2 "")]);
    repeat constructor; done.
Defined.

(** ** Running a command *)

Section cwp.
Context {H : Host} {OS : Os} {FS : FileSystem} {GL : GoLib} {CJ : ChangeJson GL} {VL : ViewLib GL}
  {JT : JsonText GL} {SJ : SqliteJson GL} {SN : SqlNum} {CL : CliLib GL}.

Definition cwp {A} (m : C A) (s : Session) (Q : outcome A → Session → Prop) : Prop := Q (m s).1 (m s).2.

Lemma cwp_mono {A} (m : C A) s (P Q : outcome A → Session → Prop) :
  cwp m s P → (∀ r s', P r s' → Q r s') → cwp m s Q.
Proof using Type. unfold cwp. auto. Qed.
Lemma cwp_ret {A} (a : A) s (Q : outcome A → Session → Prop) : Q (Done a) s → cwp (mret a) s Q.
Proof using Type. done. Qed.
Lemma cwp_bind {A B} (m : C A) (k : A → C B) s (Q : outcome B → Session → Prop) :
  cwp m s (λ r s', match r with
                   | Done a => cwp (k a) s' Q
                   | Exit e => Q (Exit e) s'
                   | Panic => Q Panic s'
                   | Stuck => Q Stuck s'
                   end) →
  cwp (m ≫= k) s Q.
Proof using Type. unfold cwp, mbind, C_bind. destruct (m s) as [[]]; done. Qed.

(** The library's world for the open handle. *)
Definition world_of (c : Cache) (proc : Proc) (s : Session) : World :=
  MkWorld (default (Db ∅ ∅ None) (ss_files s !! path c)) proc (ss_step s) (ss_mono s) false.
Definition after (c : Cache) (w : World) (s : Session) : Session :=
  set_world (<[path c := w_db w]> (ss_files s)) w (Some (c, w_proc w)) s.

Lemma cwp_lib {A} (m : M A) c proc s (Q : outcome (error + A) → Session → Prop) :
  ss_handle s = Some (c, proc) →
  wp m (world_of c proc s) (λ r w, match r with
    | Ok a => Q (Done (inr a)) (after c w s)
    | Err e => Q (Done (inl e)) (after c w s)
    | Hang => Q Stuck (after c w s)
    end) →
  cwp (lib m) s Q.
Proof using Type.
  intros Hh. unfold cwp, lib, wp, world_of, after. rewrite Hh.
  destruct (m _) as [[a|e|] w]; done.
Qed.

Lemma cwp_call {A} (m : M A) c proc s (Q : outcome A → Session → Prop) :
  ss_handle s = Some (c, proc) →
  wp m (world_of c proc s) (λ r w, match r with
    | Ok a => Q (Done a) (after c w s)
    | Err e => Q (Exit (ExitError exitDatabase (Some (Lib e)))) (after c w s)
    | Hang => Q Stuck (after c w s)
    end) →
  cwp (call m) s Q.
Proof using Type.
  intros Hh Hm. apply cwp_bind, (cwp_lib _ c proc); [done|].
  eapply wp_mono; [exact Hm|]. by intros [a|e|] w.
Qed.

(** The deferred close prints nothing. *)
Lemma closeFn_out c s : ss_out (closeFn c s) = ss_out s ∧ ss_err (closeFn c s) = ss_err s.
Proof using Type.
  unfold closeFn, lib. destruct (ss_handle s) as [[c' p]|]; [|done].
  by destruct (Close c false _) as [[]].
Qed.

(** *** Opening a file *)

Definition cli_cache (flags : globalFlags) (p : string) (v : Z) : Cache :=
  MkCache p (if String.eqb (g_namespace flags) "" then "default" else g_namespace flags) v None None LRU false
    (60 * Second) detectJSON1 [] NoEventRetention 0 defaultKeyCap.

Definition versioned (d : Database) : Database :=
  match db_meta d !! "schema_version" with
  | Some _ => d
  | None => set_meta (<["schema_version" := "1"]> (db_meta d)) d
  end.

(** A path that [--db] names, in a directory that can be made, and a version
    this library understands, if the file has one. *)
Record openable (flags : globalFlags) (p : string) (files : gmap string Database) : Prop := {
  open_db : g_db flags = p;
  open_ne : p ≠ "";
  open_plain : Open.expandHome p = Ok p;
  open_stat : stat_fails p = false;
  open_dir : negb (String.eqb (Dir p) ".") && negb (String.eqb (Dir p) separator) && negb (MkdirAll (Dir p)) = false;
  open_version d t : files !! p = Some d → db_meta d !! "schema_version" = Some t →
    ∃ v, Sscanf_d t = Some v ∧ v ≤ 1
}.

Lemma expandHome_same p : expandHome p = Open.expandHome p.
Proof using Type. done. Qed.

Lemma openable_options flags p files :
  openable flags p files →
  foldl apply_option default_options (open_options flags p) =
  MkOptions p (if String.eqb (g_namespace flags) "" then "default" else g_namespace flags) None None LRU
    (60 * Second) false [] NoEventRetention 0 defaultKeyCap.
Proof using Type. intros _. unfold open_options. by destruct (String.eqb (g_namespace flags) ""). Qed.

Context `{HQ : !Quiet H}.

Lemma wp_New flags p files w (Q : result Cache → World → Prop) :
  openable flags p files →
  w_db w = default (Db ∅ ∅ None) (files !! p) →
  (∀ v w', w_db w' = versioned (w_db w) → w_proc w' = init_proc → (w_step w < w_step w')%nat →
     Q (Ok (cli_cache flags p v)) w') →
  wp (New (open_options flags p)) w Q.
Proof using HQ.
  intros Hopen Hdb HQ'. unfold New. rewrite (openable_options _ _ _ Hopen).
  cbn [o_path o_namespace o_publishOps o_eventRetention o_eventMaxCount o_changeKeyCap
       o_maxKeys o_maxBytes o_eviction o_sweepInterval o_strict].
  change (NoEventRetention <=? 0) with false. change ((0 <? 0) || (defaultKeyCap <? 0)) with false.
  change (validOps []) with (Ok (A := list string) []).
  destruct Hopen as [_ Hne Hp _ Hdir Hv]. rewrite (proj2 (String.eqb_neq p "")), Hp by done. wp_go. rewrite Hdir.
  apply wp_bind. unfold initSchemaWithRetry, initMaxAttempts. cbn [init_loop]. unfold initSchema, ddl. wp_go. cbn [fst snd].
  destruct (db_meta (w_db (advance 0 (with_db (w_db w) w))) !! "schema_version") as [t|] eqn:Ht; simpl in Ht.
  - destruct (files !! p) as [d|] eqn:Hd; simpl in Hdb; [|rewrite Hdb in Ht; simpl in Ht; by rewrite lookup_empty in Ht].
    destruct (Hv d t eq_refl ltac:(congruence)) as (v & -> & Hle).
    unfold schemaVersion_const. rewrite (proj2 (Z.ltb_ge _ _)) by done. wp_go.
    apply HQ'; [|done|simpl; lia]. unfold versioned. rewrite Ht. simpl. by destruct w as [[]].
  - wp_go. cbn [fst snd]. simpl. rewrite Ht. apply HQ'; [|done|simpl; lia].
    simpl. unfold versioned. by rewrite Ht.
Qed.

Lemma cwp_with_cache {A} flags ro (body : Cache → C A) p s (Q : outcome A → Session → Prop) :
  openable flags p (ss_files s) → ss_shared s = false → (ro = true → is_Some (ss_files s !! p)) →
  (∀ v s', ss_handle s' = Some (cli_cache flags p v, init_proc) →
     ss_files s' = <[p := versioned (default (Db ∅ ∅ None) (ss_files s !! p))]> (ss_files s) →
     ss_out s' = ss_out s → ss_err s' = ss_err s → (ss_step s < ss_step s')%nat →
     cwp (body (cli_cache flags p v)) s' (λ r s'', r ≠ Stuck ∧ Q r (closeFn (cli_cache flags p v) s''))) →
  cwp (with_cache flags ro body) s Q.
Proof using HQ.
  intros Hopen Hsh Hro Hbody. unfold cwp, with_cache, openCache. rewrite Hsh.
  assert (resolveDBPath (g_db flags) = Ok p) as Hres.
  { unfold resolveDBPath. destruct Hopen as [-> Hne Hp _ _ _].
    rewrite (proj2 (String.eqb_neq p "")) by done. exact Hp. }
  rewrite Hres.
  assert (((stat ← (if ro then Stat p else mret StatOk);
           match stat with
           | StatNotExist => database (Text "database file does not exist")
           | StatError => database (Text "checking database file")
           | StatOk => New_ (open_options flags p)
           end) s) = New_ (open_options flags p) s) as ->.
  { destruct ro; [|done]. unfold mbind, C_bind, Stat. rewrite (open_stat _ _ _ Hopen).
    destruct (Hro eq_refl) as [d ->]. done. }
  unfold New_. rewrite (openable_options _ _ _ Hopen). cbn [o_path].
  rewrite (proj2 (String.eqb_neq p "")) by apply Hopen. rewrite (open_plain _ _ _ Hopen).
  set (d := default (Db ∅ ∅ None) (ss_files s !! p)).
  assert (wp (New (open_options flags p)) (MkWorld d init_proc (ss_step s) (ss_mono s) false)
    (λ r w', ∃ v, r = Ok (cli_cache flags p v) ∧ w_db w' = versioned d ∧ w_proc w' = init_proc ∧ (ss_step s < w_step w')%nat)) as Hnew.
  { apply (wp_New flags p (ss_files s)); [done|done|]. intros v w' Hd Hp Hs. by exists v. }
  unfold wp in Hnew. destruct (New _ _) as [r w]. destruct Hnew as (v & Hr & Hd & Hp & Hs). simpl in *. subst r.
  rewrite bool_decide_false by lia. rewrite Hp, Hd.
  set (s' := set_world _ _ _ _).
  specialize (Hbody v s' eq_refl eq_refl eq_refl eq_refl Hs). unfold cwp in Hbody.
  destruct (body (cli_cache flags p v) s') as [r s'']. destruct Hbody as [Hns HQ']. destruct r; try done.
Qed.

(** Closing an untouched handle leaves the file as it is. *)
Lemma closeFn_files c proc s d :
  ss_handle s = Some (c, proc) → p_lruBuffer proc = ∅ → ss_files s !! path c = Some d →
  ss_files (closeFn c s) !! path c = Some d ∧ ss_step s = ss_step (closeFn c s).
Proof using HQ.
  intros Hh Hl Hd. unfold closeFn, lib. rewrite Hh.
  assert (wp (Close c false) (MkWorld (default (Db ∅ ∅ None) (ss_files s !! path c)) proc (ss_step s) (ss_mono s) false)
    (λ r w, r = Ok true ∧ w_db w = d ∧ w_step w = ss_step s)) as Hc.
  { unfold Close, close_listeners, flushLRUBuffer. wp_go. simpl. rewrite Hl, bool_decide_true by done. wp_go.
    simpl. by rewrite Hd. }
  unfold wp in Hc. destruct (Close c false _) as [r w]. destruct Hc as (Hr & Hw & Hs). simpl in *. subst r.
  split; [|done]. simpl. rewrite Hw. apply lookup_insert_eq.
Qed.

Lemma wp_Set_cli flags p v key (x : any) data tc opts w (Q : result () → World → Prop) :
  encodeValue x = Ok (data, tc) → p_dispatcher (w_proc w) = None →
  (∀ w', db_cache (w_db w') = <[((namespace (cli_cache flags p v)), key) :=
       fresh_row data tc (clock (w_step w)) (expiresAtArg (applySetOptions opts) (clock (w_step w)))]> (db_cache (w_db w)) →
     db_meta (w_db w') = db_meta (w_db w) → w_proc w' = w_proc w → Q (Ok tt) w') →
  wp (Set_ (cli_cache flags p v) key x opts) w Q.
Proof using HQ.
  intros He Hdisp HQ'. unfold Set_, precheck, changed, maybeEvict. rewrite He. wp_go.
  rewrite bool_decide_false by done. cbn [andb when]. wp_go. cbn [w_proc]. simpl. rewrite Hdisp. cbn [negb andb]. simpl.
  wp_go. rewrite maybeOpportunisticSweep_off by done. wp_go. apply HQ'; [|done|done].
  simpl. unfold upsertSQL, upsert. by destruct (_ !! _).
Qed.

Lemma wp_Get_cli flags p v key r d y w (Q : result (option any) → World → Prop) :
  db_cache (w_db w) !! (namespace (cli_cache flags p v), key) = Some r → expires_at r = None →
  decodeInto (value r) (value_type r) d = Ok y → p_lruBuffer (w_proc w) = ∅ →
  (∀ w', Q (Ok (Some y)) w') → wp (Get (cli_cache flags p v) key d) w Q.
Proof using HQ.
  intros Hr He Hd Hl HQ'. unfold Get, getRaw. wp_go. rewrite maybeOpportunisticSweep_off by done. wp_go.
  rewrite Hr. wp_go. unfold expired. rewrite He. wp_go. unfold bufferLRU. wp_go. simpl. rewrite Hl.
  rewrite insert_empty, map_size_singleton. cbn [Nat.leb lruFlushEvery when]. wp_go.
  unfold decodeFound. rewrite Hd. wp_go. apply HQ'.
Qed.

(** *** What is stored *)

(** The cell that [set] writes for a value. *)
Lemma run_set flags p files n ttl typeFlag fileFlag stdin key arg (x : any) data tc :
  openable flags p files → typeFlag ∈ [""; "string"; "int"; "float"; "json"; "bytes"] →
  parseSetValue ReadFile arg typeFlag fileFlag stdin = inr x → encodeValue x = Ok (data, tc) →
  ∃ s d t, newSetCmd flags ttl typeFlag fileFlag stdin (key :: option_list arg) (start files n) = (Done tt, s) ∧
    ss_files s !! p = Some d ∧ ss_out s = [] ∧ ss_err s = [] ∧
    (∃ w, db_cache d = <[(namespace (cli_cache flags p 0), key) :=
       fresh_row data tc t (expiresAtArg (applySetOptions (ttl_opts ttl)) t)]> w) ∧
    db_meta d = db_meta (versioned (default (Db ∅ ∅ None) (files !! p))).
Proof using HQ.
  intros Hopen Hflag Hparse Henc.
  assert (cwp (newSetCmd flags ttl typeFlag fileFlag stdin (key :: option_list arg)) (start files n)
    (λ r s, r = Done tt ∧ ∃ d t, ss_files s !! p = Some d ∧ ss_out s = [] ∧ ss_err s = [] ∧
       (∃ w, db_cache d = <[(namespace (cli_cache flags p 0), key) :=
          fresh_row data tc t (expiresAtArg (applySetOptions (ttl_opts ttl)) t)]> w) ∧
       db_meta d = db_meta (versioned (default (Db ∅ ∅ None) (files !! p))))) as Hw.
  { assert (newSetCmd flags ttl typeFlag fileFlag stdin (key :: option_list arg) =
      with_cache flags false (λ c, call (Set_ c key x (ttl_opts ttl)))) as ->.
    { unfold newSetCmd. rewrite bool_decide_false by (by intros []).
      assert ((key :: option_list arg) !! 1%nat = arg) as -> by by destruct arg.
      destruct arg as [a|]; cbn [option_list]; by rewrite Hparse. }
    eapply cwp_with_cache; [exact Hopen|done|done|].
    intros v s' Hh Hf Hout Herr Hs. apply (cwp_call _ _ _ _ _ Hh).
    apply (wp_Set_cli flags p v key x data tc); [done|done|]. intros w' Hc Hm Hproc. split; [done|].
    split; [done|].
    destruct (closeFn_files (cli_cache flags p v) (w_proc w')
      (after (cli_cache flags p v) w' s') (w_db w')) as [Hfile _]; [done|by rewrite Hproc|apply lookup_insert_eq|].
    destruct (closeFn_out (cli_cache flags p v) (after (cli_cache flags p v) w' s')) as [Ho He].
    exists (w_db w'), (clock (ss_step s')). split_and!; [exact Hfile|by rewrite Ho|by rewrite He| |].
    - eexists. exact Hc.
    - rewrite Hm. unfold world_of. cbn [w_db path cli_cache]. rewrite Hf, lookup_insert_eq. done. }
  unfold cwp in Hw. destruct (newSetCmd _ _ _ _ _ _ _) as [r s]. destruct Hw as (Hr & d & t & Hw).
  simpl in *. subst r. by exists s, d, t.
Qed.
End cwp.

(** *** The type of a stored value

    [json.Unmarshal] into an [any] makes a string, a [float64], or a value of
    another type ([nil], [bool], a map or a slice). *)
Class AnyLaws (GL : GoLib) : Prop :=
  any_kinds s (v : any) : Unmarshal s DAny = Some v →
    match v with GString _ | GFloat64 _ | GOther _ => True | _ => False end.

(** The type code of a JSON document: a string is stored as text and a number
    as a float, only the others as JSON. Text that is no JSON is a string. *)
Definition document_type `{GoLib} (text : string) : Z :=
  match Unmarshal text DAny with
  | None | Some (GString _) => typeString
  | Some (GFloat64 _) => typeFloat
  | Some _ => typeJSON
  end.

(** The type code that a value is stored with, by the [--type] flag; without
    one, what the text looks like decides. *)
Definition stored_type `{GoLib} (typeFlag : string) (arg : option string) : Z :=
  let text := default "" arg in
  if String.eqb typeFlag "bytes" then typeBytes
  else if String.eqb typeFlag "int" then typeInt
  else if String.eqb typeFlag "float" then typeFloat
  else if String.eqb typeFlag "string" then typeString
  else if String.eqb typeFlag "json" then document_type text
  else match ParseInt text, ParseFloat text with
       | Some _, _ => typeInt
       | None, Some _ => typeFloat
       | None, None => document_type text
       end.

Section types.
Context {GL : GoLib} `{HL : !AnyLaws GL}.

Lemma document_code raw (v : any) data tc :
  Unmarshal raw DAny = Some v → encodeValue v = Ok (data, tc) → tc = document_type raw.
Proof using HL.
  unfold document_type. intros Hv. rewrite Hv. apply any_kinds in Hv. destruct v; try done; cbn [encodeValue].
  - by intros [= _ <-].
  - by intros (Hp & _)%encodeFloatBytes_Ok; injection Hp as _ ->.
  - destruct (Marshal v); [|done]. by intros [= _ <-].
Qed.

Lemma inferred_code raw (x : any) data tc :
  inferredValue raw = x → encodeValue x = Ok (data, tc) → tc = stored_type "" (Some raw).
Proof using HL.
  unfold inferredValue, stored_type. cbn -[document_type ParseInt ParseFloat]. change (id raw) with raw. intros <-.
  destruct (ParseInt raw); [by intros [= _ <-]|].
  destruct (ParseFloat raw) as [f|]; [by intros (Hp & _)%encodeFloatBytes_Ok; injection Hp as _ ->|].
  destruct (Unmarshal raw DAny) as [v|] eqn:Hv; [by apply document_code|].
  unfold document_type. rewrite Hv. by intros [= _ <-].
Qed.

Lemma parsed_code ReadFile typeFlag fileFlag stdin arg (x : any) data tc :
  typeFlag ∈ [""; "string"; "int"; "float"; "json"; "bytes"] →
  parseSetValue ReadFile arg typeFlag fileFlag stdin = inr x → encodeValue x = Ok (data, tc) →
  tc = stored_type typeFlag arg.
Proof using HL.
  intros Hflag. unfold parseSetValue, parseTypedValue.
  repeat (apply elem_of_cons in Hflag as [->|Hflag]); [..|by apply elem_of_nil in Hflag];
    try (destruct arg as [raw|]; [|done]); cbn [mbind option_bind].
  - intros [= Hx]. by apply inferred_code.
  - by intros [= <-] [= _ <-].
  - cbn. destruct (ParseInt raw); [|done]. by intros [= <-] [= _ <-].
  - cbn. destruct (ParseFloat raw); [|done]. by intros [= <-] (Hp & _)%encodeFloatBytes_Ok; injection Hp as _ ->.
  - cbn -[document_type stored_type]. destruct (Unmarshal raw DAny) as [v|] eqn:Hv; [|done]. intros [= <-].
    by apply document_code.
  - change (String.eqb "bytes" "bytes") with true. cbn iota. unfold parseBytesValue.
    assert (∀ b, inr (GBytes b) = inr (A := string) x → encodeValue x = Ok (data, tc) → tc = typeBytes) as Hb
      by by intros b [= <-] [= _ <-].
    repeat case_match; try done; apply Hb.
Qed.
End types.

(** C35: the type that [set] stores a value with is determined by the flag and
    the text. [--type string], [int], [float] and [bytes] name the type. Without
    a flag the type is [int] (2) for an integer of 64 bits, [float] (3) for any
    other number, and otherwise that of the text as a JSON document: text (1)
    for a string or for what is not JSON, a float for a number, JSON (4) for the
    rest. [--type json] does not force the JSON type: it stores the document
    with that same type of its own, a string as text and a number as a float.
    When the value parses and encodes, and with no driver failures and no other
    processes, the command succeeds on every file it can open, and writes it
    under the key with the expiry asked for. *)
Theorem set_stores_type `{H : Host} `{OS : Os} `{FS : FileSystem} `{GL : GoLib} `{CJ : !ChangeJson GL} `{CL : !CliLib GL}
    `{HQ : !Quiet H} `{HL : !AnyLaws GL} flags p files n ttl typeFlag fileFlag stdin key arg (x : any) data tc :
  openable flags p files → typeFlag ∈ [""; "string"; "int"; "float"; "json"; "bytes"] →
  parseSetValue ReadFile arg typeFlag fileFlag stdin = inr x → encodeValue x = Ok (data, tc) →
  tc = stored_type typeFlag arg ∧
  ∃ s d r, newSetCmd flags ttl typeFlag fileFlag stdin (key :: option_list arg) (start files n) = (Done tt, s) ∧
    ss_files s !! p = Some d ∧ db_cache d !! (namespace (cli_cache flags p 0), key) = Some r ∧
    value r = data ∧ value_type r = tc ∧
    (expires_at r = None ↔ ttl = None) ∧
    ∀ x, ttl = Some x → expires_at r = Some (created_at r + Milliseconds (DurationOf x)).
Proof.
  intros Hopen Hflag Hparse Henc. split; [by eapply parsed_code|].
  destruct (run_set flags p files n ttl typeFlag fileFlag stdin key arg x data tc)
    as (s & d & t & Hs & Hd & _ & _ & (w & Hw) & _); [done..|].
  eexists s, d, _. split; [exact Hs|]. split; [exact Hd|]. rewrite Hw. split; [apply lookup_insert_eq|].
  cbn [value value_type expires_at created_at fresh_row]. destruct ttl; cbn; naive_solver.
Qed.

(** What [get] prints for a value that was set. *)
Definition shown `{GL : GoLib} `{VL : !ViewLib GL} `{CL : !CliLib GL} (raw : bool) (x : any) : option printed :=
  match x with
  | GBytes b =>
      Some (if raw then Write b
            else Line (StdEncode b +:+ String newline "(bytes, " +:+ FormatInt (Z.of_nat (String.length b)) +:+ " B)"))
  | GString s => Some (Line s)
  | GInt KInt64 n => Some (Line (FormatInt n))
  | GFloat64 f => Some (Line (FormatFloat f))
  | GOther v =>
      data ← Marshal v; y ← Unmarshal data DAny;
      Line <$> (if raw then MarshalAny y else MarshalIndent y)
  | _ => None
  end.

(** The cell of such a value is read back for display. *)
Lemma shown_decoded `{GL : GoLib} `{VL : !ViewLib GL} `{CL : !CliLib GL} raw (x : any) data tc pr :
  any_wf x = true → encodeValue x = Ok (data, tc) → shown raw x = Some pr →
  ∃ (d : dest) (y : any) text, decodeInto data tc d = Ok y ∧ isNonPortable tc = false ∧
    (tc = typeBytes ∧ d = DBytes ∧ y = GBytes data ∧ (raw = true → pr = Write data) ∨
     tc = typeString ∧ d = DString ∨ tc = typeInt ∧ d = DInt KInt64 ∨ tc = typeFloat ∧ d = DFloat64 ∨
     tc = typeJSON ∧ d = DAny) ∧
    formatDecodedValue tc y raw = inr text ∧ (tc = typeBytes → raw = true → text = data) ∧
    ((tc =? typeBytes) && raw = false → pr = Line text).
Proof.
  destruct x as [b|s|k i|k i|f|f|v]; try done; cbn [shown encodeValue any_wf].
  - intros _ [= <- <-] [= <-]. exists DBytes, (GBytes b). destruct raw; (eexists; split_and!; [done|done|by left|done|done|done]).
  - intros _ [= <- <-] [= <-]. exists DString, (GString s), s. split_and!; try done. by right; left.
  - destruct k; try done. intros Hf [= <- <-] [= <-]. exists (DInt KInt64), (GInt KInt64 i), (FormatInt i).
    split_and!; try done; [by apply decode_int|by right; right; left].
  - intros _ (Hp & Hn & Hi)%encodeFloatBytes_Ok. injection Hp as -> ->. intros [= <-].
    exists DFloat64, (GFloat64 f), (FormatFloat f). split_and!; try done; [|by do 3 right; left].
    unfold decodeInto. cbn -[decodeFloatText]. by rewrite decodeFloatText_FormatFloat.
  - intros _. destruct (Marshal v) as [m|]; [|done]. intros [= <- <-]. cbn [mbind option_bind].
    destruct (Unmarshal m DAny) as [y|] eqn:Hu; [|done]. cbn [mbind option_bind].
    destruct (if raw then MarshalAny y else MarshalIndent y) as [t|] eqn:Ht; [|done]. intros [= <-].
    exists DAny, y, t. split_and!; try done; [|by do 4 right|].
    + unfold decodeInto. cbn. by rewrite Hu.
    + unfold formatDecodedValue. cbn. by rewrite Ht.
Qed.

(** Reading a lasting row of the open file prints it. *)
Lemma cwp_runGet `{H : Host} `{GL : GoLib} `{CJ : !ChangeJson GL} `{VL : !ViewLib GL} `{CL : !CliLib GL} `{HQ : !Quiet H}
    `{OS : Os} flags p v key raw r (x : any) pr d s (Q : outcome () → Session → Prop) :
  let c := cli_cache flags p v in
  ss_handle s = Some (c, init_proc) → ss_files s !! p = Some d →
  db_cache d !! (namespace c, key) = Some r → expires_at r = None →
  any_wf x = true → encodeValue x = Ok (value r, value_type r) → shown raw x = Some pr →
  (∀ s', ss_out s' = ss_out s ++ [pr] → ss_err s' = ss_err s → Q (Done tt) s') →
  cwp (runGet c key raw) s Q.
Proof.
  intros c Hh Hd Hr He Hwf Henc Hsh HQ'.
  destruct (shown_decoded _ _ _ _ _ Hwf Henc Hsh) as (dst & y & text & Hdec & Hport & Hkind & Hfmt & Hraw & Hline).
  unfold runGet. apply cwp_bind, (cwp_call _ _ _ _ _ Hh).
  assert (w_db (world_of c init_proc s) = d) as Hwd by (unfold world_of; cbn [w_db path c cli_cache]; by rewrite Hd).
  apply (wp_Inspect_lasting c key r); [by rewrite Hwd|done|].
  unfold row_info. cbn [RI_ValueType RI_SizeBytes]. rewrite Hport. apply cwp_bind.
  set (s1 := after c (advance 0 (world_of c init_proc s)) s).
  assert (wp (Get c key dst) (world_of c init_proc s1) (λ r _, r = Ok (Some y))) as Hget.
  { apply (wp_Get_cli flags p v key r dst y); [|done|done|done|done].
    unfold world_of, s1, after. cbn [w_db ss_files set_world path c cli_cache]. rewrite lookup_insert_eq.
    cbn [default advance w_db]. unfold world_of. cbn [w_db path c cli_cache]. by rewrite Hd. }
  assert (cwp (getDecoded c key (value_type r)) s1 (λ o s', o = Done (Some y) ∧ ss_out s' = ss_out s ∧ ss_err s' = ss_err s)) as Hgd.
  { assert (getDecoded c key (value_type r) = call (Get c key dst)) as ->.
    { destruct Hkind as [(-> & -> & _)|[[-> ->]|[[-> ->]|[[-> ->]|[-> ->]]]]]; done. }
    apply (cwp_call _ c init_proc); [done|]. eapply wp_mono; [exact Hget|]. by intros ? w' ->. }
  eapply cwp_mono; [exact Hgd|]. intros o s' (-> & Ho & He'). cbn iota.
  destruct ((value_type r =? typeBytes) && raw) eqn:Hb.
  - apply andb_true_iff in Hb as [Htc ->]. apply Z.eqb_eq in Htc.
    destruct Hkind as [(_ & _ & -> & Hpr)|Hk].
    + apply HQ'; simpl; [|done]. by rewrite Hpr, Ho.
    + rewrite Htc in Hk. destruct Hk as [[[=] _]|[[[=] _]|[[[=] _]|[[=] _]]]].
  - rewrite Hfmt. apply HQ'; simpl; [|done]. by rewrite Ho, (Hline eq_refl).
Qed.

(** C33: a value set by one command is what the next one prints. [set], in its own
    process, exits with 0 and prints nothing; [get] on the same file, in
    another process started at any later time, exits with 0 and prints exactly
    the value: an integer as its digits, a float in its shortest form, text as
    it is, bytes in base64 (or as they are with [--raw]), JSON indented (or
    compact with [--raw]). *)
Theorem set_then_get `{H : Host} `{OS : Os} `{FS : FileSystem} `{GL : GoLib} `{CJ : !ChangeJson GL} `{VL : !ViewLib GL}
    `{CL : !CliLib GL} `{HQ : !Quiet H} flags p files n m typeFlag fileFlag stdin key arg raw
    (x : any) data tc pr vs :
  openable flags p files → Sscanf_d "1" = Some vs → vs ≤ 1 →
  typeFlag ∈ [""; "string"; "int"; "float"; "json"; "bytes"] →
  parseSetValue ReadFile arg typeFlag fileFlag stdin = inr x → any_wf x = true →
  encodeValue x = Ok (data, tc) → shown raw x = Some pr →
  ∃ s s', newSetCmd flags None typeFlag fileFlag stdin (key :: option_list arg) (start files n) = (Done tt, s) ∧
    ss_out s = [] ∧
    newGetCmd flags raw [key] (start (ss_files s) m) = (Done tt, s') ∧
    ss_out s' = [pr] ∧ ss_err s' = [].
Proof.
  intros Hopen Hone Hvs Hflag Hparse Hwf Henc Hsh.
  destruct (run_set flags p files n None typeFlag fileFlag stdin key arg x data tc)
    as (s & d & t & Hs & Hd & Ho & _ & (w & Hw) & Hm); [done..|].
  exists s. assert (openable flags p (ss_files s)) as Hopen'.
  { destruct Hopen as [? ? ? ? ? Hv]. split; try done. intros d' t'. rewrite Hd. intros [= <-]. rewrite Hm.
    unfold versioned. destruct (files !! p) as [d0|] eqn:Hf; simpl.
    - destruct (db_meta d0 !! "schema_version") as [t0|] eqn:Ht0; [intros Ht'; eapply Hv; [done|congruence]|].
      simpl. rewrite lookup_insert_eq. intros [= <-]. by exists vs.
    - rewrite lookup_empty. simpl. rewrite lookup_insert_eq. intros [= <-]. by exists vs. }
  assert (cwp (newGetCmd flags raw [key]) (start (ss_files s) m)
    (λ r s', r = Done tt ∧ ss_out s' = [pr] ∧ ss_err s' = [])) as Hg.
  { eapply cwp_with_cache; [exact Hopen'|done|intros _; simpl; rewrite Hd; by eexists|]. intros v s' Hh Hf Hout Herr _.
    eapply (cwp_runGet flags p v key raw (fresh_row data tc t None)); [exact Hh|by rewrite Hf, lookup_insert_eq| |reflexivity|exact Hwf| |exact Hsh|].
    - simpl. rewrite Hd. unfold versioned. simpl.
      destruct (db_meta d !! _); simpl; rewrite Hw; apply lookup_insert_eq.
    - exact Henc.
    - intros s'' Ho'' He''. destruct (closeFn_out (cli_cache flags p v) s'') as [-> ->]. by rewrite Ho'', He'', Hout, Herr. }
  unfold cwp in Hg. destruct (newGetCmd _ _ _ _) as [r s']. exists s'. destruct Hg as (Hr & Ho' & He'). simpl in *. by subst r.
Qed.

(** ** Commands that only read or remove

    Everything but [set], [incr], [decr], [hset], [notify], the interactive
    session, [ui], [service] and help. *)
Definition read_only `{GoLib} (p : parsed) : bool :=
  match p with
  | PGet _ _ | PDel _ | PExists _ | PTTL _ | PExpire _ | PPersist _ | PTouch _ | PKeys _ _ | PStats _ _ _
  | PFlush _ _ | PMaintain _ | PVacuum _ | PWhich _ | PDump _ | PWatch _ _ _ _ | PEvents _ _ _
  | PHGet _ _ | PHGetAll _ _ => true
  | _ => false
  end.

Section missing.
Context {H : Host} {OS : Os} {FS : FileSystem} {GL : GoLib} {CJ : ChangeJson GL} {VL : ViewLib GL}
  {JT : JsonText GL} {SJ : SqliteJson GL} {SN : SqlNum} {CL : CliLib GL} {WT : Waiting} {NV : NilValue GL}.
Context (files : gmap string Database) (flags : globalFlags) (path : string)
  (Hres : resolveDBPath (g_db flags) = Ok path) (Hmiss : files !! path = None).

(** The command ends with a code that is not 0 and leaves the files alone. *)
Definition refused {A} (m : C A) : Prop := ∀ s, ss_files s = files → ss_shared s = false →
  ss_files (m s).2 = files ∧
  match (m s).1 with
  | Exit (ExitError code _) => code ≠ exitSuccess
  | Exit (PlainError _) | Panic => True
  | _ => False
  end.

Lemma refused_usage {A} f : refused (A := A) (usage f).
Proof using Type. by intros s Hf. Qed.
Lemma refused_args {A} : refused (A := A) wrong_args.
Proof using Type. by intros s Hf. Qed.
Lemma refused_panic {A} : refused (A := A) panic.
Proof using Type. by intros s Hf. Qed.
Lemma refused_miss {A} : refused (A := A) miss.
Proof using Type. by intros s Hf. Qed.
Lemma refused_exit {A} f : refused (A := A) (exit_with (usageErrorf f)).
Proof using Type. by intros s Hf. Qed.
Lemma refused_database {A} m : refused (A := A) (database m).
Proof using Type. by intros s Hf. Qed.

Lemma refused_with_cache {A} (body : Cache → C A) : refused (with_cache flags true body).
Proof using Hres Hmiss.
  intros s Hf Hs. unfold with_cache, openCache. rewrite Hs, Hres. unfold mbind, C_bind, Stat.
  rewrite Hf, Hmiss. destruct (stat_fails path); simpl; done.
Qed.

(** A step that only prints, then a refusal. *)
Lemma refused_bind {A B} (m : C A) (k : A → C B) : refused m → refused (m ≫= k).
Proof using Type.
  intros Hm s Hf Hs. destruct (Hm s Hf Hs) as [H1 H2]. unfold mbind, C_bind.
  destruct (m s) as [[]]; simpl in *; done.
Qed.
Lemma refused_after {A B} (m : C A) (k : A → C B) :
  (∀ s, ss_files (m s).2 = ss_files s ∧ ss_shared (m s).2 = ss_shared s ∧
        match (m s).1 with Done a => refused (k a) | Exit (ExitError code _) => code ≠ exitSuccess | Exit (PlainError _) | Panic => True | Stuck => False end) →
  refused (m ≫= k).
Proof using Type.
  intros Hm s Hf Hs. destruct (Hm s) as (H1 & H2 & H3). unfold mbind, C_bind.
  destruct (m s) as [[a|[]| |] s']; simpl in *; try (split; [congruence|done]).
  apply H3; congruence.
Qed.

Lemma refused_confirm stdin prompt (k : bool → C ()) :
  refused (k true) → refused (k false) → refused (confirm stdin prompt ≫= k).
Proof using Type.
  intros Ht Hf. apply refused_after. intros s. unfold confirm, mbind, C_bind, Fprint.
  destruct (read_line stdin); simpl; [|done]. split_and!; [done|done|]. by destruct (_ || _).
Qed.

Lemma refused_watch interval : refused (runStatsWatch flags interval).
Proof using Hres Hmiss.
  unfold runStatsWatch. destruct (interval <=? 0); [apply refused_panic|].
  destruct ticks; apply refused_bind, refused_with_cache.
Qed.

Lemma refused_read_only bare stdin p : read_only p = true → refused (buildCommandTree bare flags stdin p).
Proof using Hres Hmiss.
  pose proof @refused_with_cache as Hw. pose proof refused_watch as Hs.
  destruct p; try done; intros _; cbn [buildCommandTree].
  - destruct args as [|? []]; try apply refused_args. apply Hw.
  - destruct args; [apply refused_args|apply Hw].
  - destruct args as [|? []]; try apply refused_args. apply Hw.
  - destruct args as [|? []]; try apply refused_args. apply Hw.
  - destruct args as [|? [|? []]]; try apply refused_args. simpl. destruct (ParseFloat _); [apply Hw|apply refused_usage].
  - destruct args as [|? []]; try apply refused_args. apply Hw.
  - destruct args as [|? [|? []]]; try apply refused_args. simpl. destruct (ParseFloat _); [apply Hw|apply refused_usage].
  - destruct args as [|? []]; try apply refused_args; apply Hw.
  - destruct args; [|apply refused_args]. simpl. destruct watch; [|apply Hw].
    destruct (SFleb _ _); [apply refused_usage|apply Hs].
  - destruct args; [|apply refused_args]. unfold newFlushCmd. destruct yes.
    + apply (refused_after (mret true)). intros s. split_and!; [done|done|]. apply Hw.
    + apply refused_confirm; [apply Hw|apply refused_miss].
  - destruct args; [apply Hw|apply refused_args].
  - destruct args; [apply Hw|apply refused_args].
  - destruct args; [|apply refused_args]. intros s Hf Hsh. unfold newWhichCmd. rewrite Hres.
    unfold mbind, C_bind, Stat. rewrite Hf, Hmiss. by destruct (stat_fails path).
  - destruct args as [|? []]; try apply refused_args. apply Hw.
  - unfold newEventsWatchCmd. destruct (legacyWatchArgs _ args) as [[e|interval]|] eqn:Hl; [| |apply Hw].
    + unfold legacyWatchArgs in Hl. repeat (case_match; simplify_eq; try apply refused_exit; try done).
    + apply refused_after. intros s. split_and!; [done|done|]. apply Hs.
  - destruct args; [|apply refused_args]. simpl. destruct (limit <=? 0); [apply refused_usage|apply Hw].
  - destruct args as [|? [|? []]]; try apply refused_args. apply Hw.
  - destruct args as [|? []]; try apply refused_args. apply Hw.
Qed.
End missing.

(** C37: a command that only reads, or only removes, never creates a database.
    When the file is not there it exits with a code that is not 0, whatever
    its flags and arguments, and the files are exactly those there were. *)
Theorem read_only_never_creates `{H : Host} `{OS : Os} `{FS : FileSystem} `{GL : GoLib} `{CJ : !ChangeJson GL}
    `{VL : !ViewLib GL} `{JT : !JsonText GL} `{SJ : !SqliteJson GL} `{SN : SqlNum} `{CL : !CliLib GL} `{WT : Waiting}
    `{NV : !NilValue GL} ParseRoot ParseRepl args stdin events files n flags p path :
  ParseRoot args = (flags, p) → read_only p = true →
  resolveDBPath (g_db flags) = Ok path → files !! path = None →
  ∃ code s', runWithIO ParseRoot ParseRepl args stdin events (start files n) = (Some code, s') ∧
    code ≠ exitSuccess ∧ ss_files s' = files.
Proof.
  intros Hparse Hro Hres Hmiss. unfold runWithIO, newRootCmd. rewrite Hparse.
  set (bare := λ args, match args with [] => runREPL ParseRepl flags events | _ => usage "unknown command" end).
  destruct (refused_read_only files flags path Hres Hmiss bare stdin p Hro (start files n)) as [Hf Hout]; [done|done|].
  destruct (buildCommandTree bare flags stdin p (start files n)) as [[|[code [m|]|m]| |] s']; simpl in *; try done;
    eexists _, _; (split; [done|]); done.
Qed.

(** ** Runs *)

Definition toy_cli : CliLib toy_lib :=
  Build_CliLib toy_lib float64_of (λ _, MinInt64) (format_fixed 3) (λ _, None) (λ _ _, Some 4096) FormatInt FormatInt
    (λ v, TrimRightNewline <$> toy_encode v) Some (λ v, Some (FormatInt (sv_KeyCount v))) (λ l, el_Payload l).
Lemma toy_any_laws : AnyLaws toy_lib.
Proof. intros s v. cbn. by intros [= <-]. Qed.
Definition toy_waiting : Waiting := {| next_results := λ _, [NextCanceled]; ticks := 1 |}.
Definition toy_flags : globalFlags := MkFlags "/tmp/c.db" "default" false.
Definition no_input : input := MkInput "" false.

Lemma toy_openable files :
  files !! "/tmp/c.db" = None → @openable (toy_os (λ _, None) (λ _, false)) toy_files toy_flags "/tmp/c.db" files.
Proof. intros Hf. split; try done. intros d t Hd. congruence. Qed.

(** [set k 42 --ttl 1.5] on a file that does not exist yet: an [int] that expires. *)
Lemma set_stores_type_witness :
  let _ := still_host 7 in let _ := toy_os (λ _, None) (λ _, false) in let _ := toy_files in
  let _ := toy_lib in let _ := toy_json in let _ := toy_cli in
  typeInt = stored_type "" (Some "42") ∧
  ∃ s d r, newSetCmd toy_flags (Some 2) "" "" no_input ["k"; "42"] (start ∅ 0) = (Done tt, s) ∧
    ss_files s !! "/tmp/c.db" = Some d ∧ db_cache d !! ("default", "k") = Some r ∧ value r = "42" ∧
    value_type r = typeInt ∧ expires_at r = Some (created_at r + 2000).
Proof.
  intros host os fs gl cj cl.
  destruct (@set_stores_type host os fs gl cj cl (still_quiet 7) toy_any_laws toy_flags "/tmp/c.db" ∅ 0
    (Some 2) "" "" no_input "k" (Some "42") (GInt KInt64 42) "42" typeInt)
    as (Ht & s & d & r & Hs & Hd & Hr & Hv & Hc & _ & He); [by apply toy_openable|by left|reflexivity|reflexivity|].
  split; [exact Ht|]. exists s, d, r. split_and!; [exact Hs|exact Hd|exact Hr|exact Hv|exact Hc|].
  rewrite (He 2 eq_refl). f_equal.
Defined.

(** [set k 42], then [get k]. *)
Lemma set_then_get_witness :
  let _ := still_host 7 in let _ := toy_os (λ _, None) (λ _, false) in let _ := toy_files in
  let _ := toy_lib in let _ := toy_json in let _ := toy_view in let _ := toy_cli in
  ∃ s s', newSetCmd toy_flags None "" "" no_input ["k"; "42"] (start ∅ 0) = (Done tt, s) ∧ ss_out s = [] ∧
    newGetCmd toy_flags false ["k"] (start (ss_files s) 100) = (Done tt, s') ∧
    ss_out s' = [Line "42"] ∧ ss_err s' = [].
Proof.
  intros host os fs gl cj vl cl.
  apply (@set_then_get host os fs gl cj vl cl (still_quiet 7) toy_flags "/tmp/c.db" ∅ 0 100 "" "" no_input "k"
    (Some "42") false (GInt KInt64 42) "42" typeInt (Line "42") 1);
    [by apply toy_openable|reflexivity|lia|by left|reflexivity|reflexivity|reflexivity|reflexivity].
Defined.

(** [del a b] where there is no file. *)
Lemma read_only_never_creates_witness :
  let _ := still_host 7 in let _ := toy_os (λ _, None) (λ _, false) in let _ := toy_files in
  let _ := toy_lib in let _ := toy_json in let _ := toy_view in let _ := toy_jtext in let _ := toy_sqlite in
  let _ := toy_num in let _ := toy_cli in let _ := toy_waiting in let _ : NilValue toy_lib := GOther (F := float) "null" in
  ∃ code s', runWithIO (λ args, (toy_flags, PDel args)) PDel ["a"; "b"] no_input [] (start ∅ 0) = (Some code, s') ∧
    code ≠ exitSuccess ∧ ss_files s' = ∅.
Proof.
  intros host os fs gl cj vl jt sj sn cl wt nv.
  apply (@read_only_never_creates host os fs gl cj vl jt sj sn cl wt nv (λ args, (toy_flags, PDel args)) PDel
    ["a"; "b"] no_input [] ∅ 0 toy_flags (PDel ["a"; "b"]) "/tmp/c.db"); reflexivity.
Defined.

(** [hgetall] reads the names and the values in two queries: if the fields are
    removed in between, [vals[i]] panics. *)
Definition hash_db : Database :=
  set_cache {[("default", "h") := Row ("{" +:+ quoted "a" +:+ ":1}") typeJSON 0 None 0 0 7]} empty_db.
Example hgetall_race :
  let _ := race_host 7 5 (set_cache ∅) in let _ := toy_os (λ _, None) (λ _, false) in let _ := toy_files in
  let _ := toy_lib in let _ := toy_json in let _ := toy_view in let _ := toy_jtext in let _ := toy_sqlite in
  let _ := toy_cli in
  (newHGetAllCmd toy_flags true ["h"] (start {["/tmp/c.db" := hash_db]} 0)).1 = Panic.
Proof. vm_compute. reflexivity. Qed.

(** [stats --watch] accepts an interval that rounds to no time at all. *)
Example watch_too_short :
  let _ := still_host 7 in let _ := toy_os (λ _, None) (λ _, false) in let _ := toy_files in
  let _ := toy_lib in let _ := toy_json in let _ := toy_view in let _ := toy_jtext in let _ := toy_cli in
  let _ := toy_waiting in
  (runStatsWatch toy_flags 0 (start {["/tmp/c.db" := hash_db]} 0)).1 = Panic.
Proof. reflexivity. Qed.

(** Two lines of a session: the second still runs after the first has failed. *)
Example session_goes_on :
  let _ := still_host 7 in let _ := toy_os (λ _, None) (λ _, false) in let _ := toy_files in
  let _ := toy_lib in let _ := toy_json in let _ := toy_view in let _ := toy_jtext in let _ := toy_sqlite in
  let _ := toy_num in let _ := toy_cli in let _ := toy_waiting in let _ : NilValue toy_lib := GOther (F := float) "null" in
  let parse := λ args, match args with "incr" :: args => PIncr args | _ => PError "unknown command" end in
  let '(code, s) := runWithIO (λ _, (toy_flags, PRoot [])) parse [] no_input
                      [RLine "bogus" no_input; RLine "INCR n" no_input; RLine "incr n" no_input; REOF] (start ∅ 0) in
  code = Some exitSuccess ∧ ss_out s = [Line "1"; Line "2"] ∧
  ss_err s = [Text "Using database: /tmp/c.db"; Text "unknown command"].
Proof. vm_compute. done. Qed.
