(* ===== verification/CliUi.v ===== *)
(** [lytecache ui] up to the moment it serves ([cmd_ui.go], [ui_flags.go] of
    lytecache-cli): the flags, the configuration file, the exposure rules, the
    databases and the listener; and the commands that change the password. *)

From S2P Require Import Prelude GoStd Values Store Engine Channels EventLog Sweep Changes Kv Reads Open GoBase64 GoText UiSafe UiLimit UiSession UiAccounts UiAuth UiDb UiView UiEvents UiPages UiServer CliText.
Open Scope Z_scope.

(** ** Flags *)
Record uiRunOptions := MkUiRun {
  u_port : Z;
  u_host : string;
  u_dbs : list DBSource;
  u_scanDirs : list string;
  u_allowDelete : bool;
  u_configPath : string;
  u_tlsCert : string;
  u_tlsKey : string;
  u_insecure : bool;
  u_maskKeys : list string;
  u_maskChannels : list string;
  u_metricsToken : string;
  u_noMetrics : bool;
  u_metricsCacheTTL : Z
}.

(** What is left of the platform: [os.UserConfigDir], the address a listener
    is bound to, and whether the address was taken. *)
Inductive listening := Listening (addr : string) | InUse | ListenFailed.
Class Platform := {
  UserConfigDir : option string;
  Listen : string → listening
}.

Section ui_cmd.
Context {H : Host} {OS : Os} {FS : FileSystem} {A : Argon2} {IO : ConfigIO} {CK : Cookies} {N : Net} {P : Platform}.

(** [dbSourceFlagValue.Set]: one occurrence of [--db name=path]. *)
Definition db_flag_Set (dbs : list DBSource) (s : string) : option (list DBSource) :=
  '(name, path) ← Cut s "=";
  if String.eqb name "" || String.eqb path "" then None
  else match expandHome path with
       | Ok expanded => Some (dbs ++ [MkSource name expanded None None None])
       | _ => None
       end.

Definition DefaultConfigDir : option string := dir ← UserConfigDir; Some (Open.Join [dir; "lytecache"]).
Definition DefaultConfigPath : option string := dir ← DefaultConfigDir; Some (Open.Join [dir; "ui.yaml"]).

Definition resolveUIConfigPath (override : string) : option string :=
  if negb (String.eqb override "") then match expandHome override with Ok p => Some p | _ => None end
  else DefaultConfigPath.

Definition dockerSharedCacheDir : string := "/var/cache/lytecache".
Definition defaultScanDirsIfUnconfigured (databases : list DBSource) (scanDirs : list string) (cacheDir : string)
    : list string :=
  match databases, scanDirs with
  | [], [] => [Open.Join [cacheDir; "lytecache"]; dockerSharedCacheDir]
  | _, _ => scanDirs
  end.

(** ** Building the server *)
Record builtUIServer := MkBuilt {
  bu_server : Server;
  bu_config : Config;
  bu_auth : AuthConfig;
  bu_addr : string;
  bu_configPath : string;
  bu_secureCookie : bool;
  bu_auditPath : string;
  bu_tlsCert : string;
  bu_tlsKey : string
}.

(** A failed [Listen] closes the server that was built. *)
Inductive build_error :=
  | BConfigPath
  | BAuth (e : config_error)
  | BGuard (e : guard_error)
  | BServer (e : server_error)
  | BPort (in_use : bool) (closed : UiState).

(** What a start writes: the configuration files, the lines of the log and
    those of its error stream. *)
Record built := MkBuild {
  bl_result : option (build_error + builtUIServer);     (* [None]: a call does not return *)
  bl_files : files;
  bl_out : list string;
  bl_err : list string
}.

Definition first_run (configPath : string) (cfg : AuthConfig) : list string :=
  ["first run: created " +:+ configPath;
   "generated admin credentials -- username: " +:+ cfg_Username cfg +:+ "  password: " +:+ DefaultPassword;
   "change this with 'lytecache ui passwd', especially before ever binding beyond 127.0.0.1"].

Definition insecure_warning : string := "WARNING: --insecure -- serving the admin UI over plain HTTP on a non-loopback address.".

Definition is_some_str (s : string) : bool := negb (String.eqb s "").

(** [secret] and [salt] are the random bytes of a first run, [audit_ok] tells
    whether the audit log opens. *)
Definition buildUIServer (opts : uiRunOptions) (secret salt : option string) (audit_ok : bool)
    (cfs : files) (fs : gmap string Database) (step : nat) (mono : Z) : built :=
  let refuse e cfs out err := MkBuild (Some (inl e)) cfs out err in
  match resolveUIConfigPath (u_configPath opts) with
  | None => refuse BConfigPath cfs [] []
  | Some configPath =>
      match LoadOrCreateAuthConfig cfs configPath secret salt with
      | (inl e, cfs) => refuse (BAuth e) cfs [] []
      | (inr (authCfg, created), cfs) =>
          let out := if created : bool then first_run configPath authCfg else [] in
          let tlsConfigured := is_some_str (u_tlsCert opts) && is_some_str (u_tlsKey opts) in
          match CheckStartupGuardrails (u_host opts) authCfg tlsConfigured (u_insecure opts) with
          | Some e => refuse (BGuard e) cfs out []
          | None =>
              let nonLoopback := negb (IsLoopbackHost (u_host opts)) in
              let err := if nonLoopback && u_insecure opts && negb tlsConfigured then [insecure_warning] else [] in
              match CheckMetricsGuardrail (u_host opts) (u_noMetrics opts) (u_metricsToken opts) with
              | Some e => refuse (BGuard e) cfs out err
              | None =>
                  let databases := Databases authCfg ++ u_dbs opts in
                  let scanDirs := match UserCacheDir with
                                  | Some cacheDir => defaultScanDirsIfUnconfigured databases (u_scanDirs opts) cacheDir
                                  | None => u_scanDirs opts
                                  end in
                  let cfg := MkConfig scanDirs (u_allowDelete opts) (u_maskKeys opts) (u_maskChannels opts)
                               (u_noMetrics opts) (u_metricsToken opts) (u_metricsCacheTTL opts) in
                  match NewServer cfg databases authCfg configPath cfs nonLoopback 0 0 audit_ok fs step mono with
                  | None => MkBuild None cfs out err
                  | Some (inl e) => refuse (BServer e) cfs out err
                  | Some (inr srv) =>
                      match Listen (u_host opts +:+ ":" +:+ FormatInt (u_port opts)) with
                      | Listening addr =>
                          MkBuild (Some (inr (MkBuilt srv cfg authCfg addr configPath tlsConfigured
                                     (Open.Join [Dir configPath; "audit.log"]) (u_tlsCert opts) (u_tlsKey opts)))) cfs
                            (out ++ ["lytecache ui listening on " +:+ (if tlsConfigured then "https" else "http") +:+ "://" +:+ addr] ++
                             (if u_allowDelete opts then [] else ["read-only (pass --allow-delete to enable delete/flush/maintain)"]))
                            err
                      | l =>
                          match Close_manager (sv_ui srv) with
                          | (Hang, _) => MkBuild None cfs out err
                          | (_, ui) => refuse (BPort (match l with InUse => true | _ => false end) ui) cfs out err
                          end
                      end
                  end
              end
          end
      end
  end.

(** [Serve]: the certificate alone decides on TLS, and a closed server is no
    error. *)
Inductive serve_end := ServerClosed | ServeFailed.
Definition serves_tls (b : builtUIServer) : bool := is_some_str (bu_tlsCert b).
Definition Serve (e : serve_end) : bool := match e with ServerClosed => true | ServeFailed => false end.

(** [Shutdown] after a signal, or the end of [Serve]; [None] where closing a
    database does not return. *)
Inductive ui_stop := Interrupted (drained : bool) | Stopped (e : serve_end).
Definition runUI (b : built) (stop : ui_stop) : option (option cli_error) :=
  let failed := Some (databaseError (Some (Text "lytecache ui"))) in
  match bl_result b with
  | None => None
  | Some (inl _) => failed
  | Some (inr s) =>
      match Close_manager (sv_ui (bu_server s)) with
      | (Hang, _) => None
      | (closed, _) =>
          match stop with
          | Interrupted drained => if drained && bool_decide (closed = Ok []) then Some None else failed
          | Stopped e => if Serve e then Some None else failed
          end
      end
  end.

(** [newUICmd]: not from inside the interactive session; [under_manager] is
    what runs with the hidden [--as-service]. *)
Definition newUICmd (in_repl asService : bool) (under_manager : option (option cli_error)) (b : built) (stop : ui_stop)
    : option (option cli_error) :=
  if in_repl then Some (Some (usageErrorf "ui cannot be run from inside the REPL"))
  else if asService then under_manager else runUI b stop.

(** ** The password commands *)

(** Passwords come from the terminal one by one ([None]: reading fails), or,
    when the input is not a terminal, from the chunks that its reads return.
    Each prompt has a buffered reader of its own: what the last chunk holds
    after the line is lost. *)
Inductive password_input := Terminal (typed : list (option string)) | Piped (chunks : list string) (fails : bool).

Fixpoint read_chunks (line : string) (chunks : list string) (fails : bool) : option string * list string :=
  match chunks with
  | [] => (if fails then None else Some line, [])
  | c :: chunks =>
      match Cut c newline with
      | Some (x, _) => (Some (line +:+ x), chunks)
      | None => read_chunks (line +:+ c) chunks fails
      end
  end.

Definition readPassword (i : password_input) : option string * password_input :=
  match i with
  | Terminal [] => (None, i)
  | Terminal (p :: typed) => (p, Terminal typed)
  | Piped chunks fails =>
      let '(line, rest) := read_chunks "" chunks fails in (TrimSpaceUnicode <$> line, Piped rest fails)
  end.

Inductive passwd_error := PDatabase | PTooShort | PMismatch.

Definition newUIPasswdCmd (configPath : string) (i : password_input) (secret salt salt' : option string) (cfs : files)
    : (passwd_error + ()) * files :=
  match resolveUIConfigPath configPath with
  | None => (inl PDatabase, cfs)
  | Some path =>
      match LoadOrCreateAuthConfig cfs path secret salt with
      | (inl _, cfs) => (inl PDatabase, cfs)
      | (inr (cfg, _), cfs) =>
          match readPassword i with
          | (None, _) => (inl PDatabase, cfs)
          | (Some password, i) =>
              if Z.of_nat (String.length password) <? 8 then (inl PTooShort, cfs)
              else match readPassword i with
                   | (None, _) => (inl PDatabase, cfs)
                   | (Some confirmed, _) =>
                       if negb (String.eqb password confirmed) then (inl PMismatch, cfs)
                       else match salt' with
                            | None => (inl PDatabase, cfs)
                            | Some salt' =>
                                let cfg' := MkAuthConfig (cfg_Username cfg) (HashPassword salt' password)
                                              (SessionSecret cfg) (MetricsToken cfg) (Databases cfg) in
                                match SaveAuthConfig cfs path cfg' with
                                | (Some _, cfs) => (inl PDatabase, cfs)
                                | (None, cfs) => (inr tt, cfs)
                                end
                            end
                   end
          end
      end
  end.

Definition newUIResetPasswordCmd (configPath : string) (secret salt salt' : option string) (cfs : files)
    : (passwd_error + ()) * files :=
  match resolveUIConfigPath configPath with
  | None => (inl PDatabase, cfs)
  | Some path =>
      match LoadOrCreateAuthConfig cfs path secret salt with
      | (inl _, cfs) => (inl PDatabase, cfs)
      | (inr (cfg, _), cfs) =>
          match salt' with
          | None => (inl PDatabase, cfs)
          | Some salt' =>
              let cfg' := MkAuthConfig DefaultUsername (HashPassword salt' DefaultPassword)
                            (SessionSecret cfg) (MetricsToken cfg) (Databases cfg) in
              match SaveAuthConfig cfs path cfg' with
              | (Some _, cfs) => (inl PDatabase, cfs)
              | (None, cfs) => (inr tt, cfs)
              end
          end
      end
  end.
End ui_cmd.

(** ** What a start guarantees *)
Section start.
Context {H : Host} {OS : Os} {FS : FileSystem} {A : Argon2} {IO : ConfigIO} {IL : ConfigLaws IO}
  {CK : Cookies} {N : Net} {P : Platform}.

(** Both lines of a script in one chunk: the confirmation reads nothing. *)
Lemma piped_passwd_fails configPath secret salt salt' cfs password :
  (newUIPasswdCmd configPath (Piped [password +:+ String newline (password +:+ String newline "")] false)
     secret salt salt' cfs).1 ≠ inr tt.
Proof using Type.
  unfold newUIPasswdCmd. destruct (resolveUIConfigPath configPath); [|done].
  destruct (LoadOrCreateAuthConfig _ _ _ _) as [[e|[cfg created]] fs]; [done|]. unfold readPassword. cbn [read_chunks].
  destruct (Cut _ newline) as [[x y]|]; cbn [fmap option_fmap option_map read_chunks].
  - destruct (_ <? 8) eqn:Hlen; [done|].
    change (TrimSpaceUnicode "") with "". rewrite (proj2 (String.eqb_neq _ _)); [done|]. intros Hp.
    change (TrimSpaceUnicode ("" +:+ x)) with (TrimSpaceUnicode x) in *. by rewrite Hp in Hlen.
  - destruct (_ <? 8) eqn:Hlen; [done|]. change (TrimSpaceUnicode "") with "".
    rewrite (proj2 (String.eqb_neq _ _)); [done|]. intros Hp. by rewrite Hp in Hlen.
Qed.
End start.

(** C34: a server that starts is safe to leave on. Its configuration file is
    closed to group and others and is the one it runs with; beyond the loopback
    address the password is not the default one, TLS is configured or
    [--insecure] was given, and the metrics are off or need a token; deletes
    are allowed only by the flag; and whatever other processes commit
    meanwhile, opening the databases has itself written nothing to them but the
    version of a file that has none. *)
Theorem ui_start_guarded `{H : Host} `{OS : Os} `{FS : FileSystem} `{A : Argon2} `{IO : ConfigIO}
    `{IL : !ConfigLaws IO} `{CK : Cookies} `{N : Net} `{P : Platform}
    opts secret salt audit_ok cfs fs step mono cfs' out err b :
  buildUIServer opts secret salt audit_ok cfs fs step mono = MkBuild (Some (inr b)) cfs' out err →
  (∀ sources, MergeSources step (Databases (bu_auth b) ++ u_dbs opts) (cf_scanDirs (bu_config b)) = inr sources →
     Forall (λ s, plain_path (src_Path s)) sources) →
  (∃ f, cfs' !! bu_configPath b = Some f ∧ checkNotGroupOrWorldAccessible f = false ∧
     yaml_Unmarshal (f_data f) = Some (bu_auth b)) ∧
  (IsLoopbackHost (u_host opts) = true ∨
   IsDefaultPassword (bu_auth b) = false ∧
   (bu_tlsCert b ≠ "" ∧ bu_tlsKey b ≠ "" ∨ u_insecure opts = true ∧ (bu_tlsCert b = "" ∨ bu_tlsKey b = "" → err = [insecure_warning])) ∧
   (cf_noMetrics (bu_config b) = true ∨ cf_metricsToken (bu_config b) ≠ "")) ∧
  cf_allowDelete (bu_config b) = u_allowDelete opts ∧
  ac_nonLoopback (sv_account (bu_server b)) = negb (IsLoopbackHost (u_host opts)) ∧
  ui_inv (sv_ui (bu_server b)) ∧ files_rel (by_turns records_version) fs (ui_files (sv_ui (bu_server b))).
Proof.
  unfold buildUIServer. destruct (resolveUIConfigPath _) as [path|]; [|done].
  destruct (LoadOrCreateAuthConfig cfs path secret salt) as [[e|[auth created]] cfs1] eqn:Hload; [done|].
  destruct (CheckStartupGuardrails _ _ _ _) eqn:Hg; [done|].
  destruct (CheckMetricsGuardrail _ _ _) eqn:Hm; [done|].
  destruct (NewServer _ _ _ _ _ _ _ _ _ _ _ _) as [[e|srv]|] eqn:Hsrv; [done| |done].
  destruct (Listen _) as [addr| |]; [|by destruct (Close_manager _) as [[] ?]..].
  intros [= <- <- <- <-] Hplain. cbn [bu_configPath bu_auth bu_config bu_server bu_tlsCert bu_tlsKey cf_noMetrics cf_metricsToken cf_allowDelete].
  pose proof Hsrv as Hsrv'. apply NewServer_inv in Hsrv as [Hi Hf]; [|exact Hplain].
  destruct (LoadOrCreateAuthConfig_private _ _ _ _ _ _ _ Hload) as (f & H1 & H2 & H3 & _).
  split; [by exists f|]. split.
  { unfold CheckStartupGuardrails in Hg. unfold CheckMetricsGuardrail in Hm.
    destruct (IsLoopbackHost (u_host opts)); [by left|right].
    destruct (IsDefaultPassword auth); [done|]. split; [done|].
    rewrite orb_false_r in Hm. unfold is_some_str in *. split.
    - destruct (String.eqb_spec (u_tlsCert opts) ""), (String.eqb_spec (u_tlsKey opts) ""); simpl in *;
        destruct (u_insecure opts); simpl in *; try done; (by right) || by left.
    - destruct (u_noMetrics opts); [by left|right]. by destruct (String.eqb_spec (u_metricsToken opts) ""). }
  split; [done|]. split; [|done].
  unfold NewServer in Hsrv'. destruct (MergeSources _ _ _); [done|]. destruct (WarmUp _) as [[] ?]; try done.
  destruct (DecodeString _ _); [|done]. destruct audit_ok; [|done]. by injection Hsrv' as <-.
Qed.

(** The first run on the loopback address, with one database of its own. *)
#[local] Existing Instances toy_cookies toy_argon2 toy_io toy_net toy_files.
#[local] Existing Instance toy_io_laws.
Definition toy_platform : Platform := {| UserConfigDir := Some "/home/u/.config"; Listen := Listening |}.
Definition toy_ui_run : uiRunOptions :=
  MkUiRun 7070 "127.0.0.1" [MkSource "app" "/srv/app.db" None None None] [] false "" "" "" false [] [] "" false 0.

Lemma ui_start_guarded_witness :
  let _ := still_host 7 in let _ := toy_os (λ _, None) (λ _, false) in let _ := toy_platform in
  ∃ b cfs' out err,
    buildUIServer toy_ui_run (Some "c2VjcmV0") (Some "salt") true ∅ {["/srv/app.db" := empty_db]} 0 0 =
      MkBuild (Some (inr b)) cfs' out err ∧
    bu_addr b = "127.0.0.1:7070" ∧ length out = 5%nat ∧
    (∃ f, cfs' !! bu_configPath b = Some f ∧ checkNotGroupOrWorldAccessible f = false ∧
       yaml_Unmarshal (f_data f) = Some (bu_auth b)) ∧
    ui_inv (sv_ui (bu_server b)).
Proof.
  intros host os pl.
  destruct (buildUIServer toy_ui_run (Some "c2VjcmV0") (Some "salt") true ∅ {["/srv/app.db" := empty_db]} 0 0)
    as [[[e|b]|] cfs' out err] eqn:Hb; [exfalso; by vm_compute in Hb| |exfalso; by vm_compute in Hb].
  assert (bu_addr b = "127.0.0.1:7070" ∧ length out = 5%nat ∧ Databases (bu_auth b) = [] ∧
          cf_scanDirs (bu_config b) = []) as (Ha & Ho & Hd & Hs).
  { vm_compute in Hb. injection Hb as <- <- <- <-. vm_compute. done. }
  exists b, cfs', out, err. split; [reflexivity|]. split; [exact Ha|]. split; [exact Ho|].
  destruct (@ui_start_guarded host os toy_files toy_argon2 toy_io toy_io_laws toy_cookies toy_net pl
    toy_ui_run (Some "c2VjcmV0") (Some "salt") true ∅ {["/srv/app.db" := empty_db]} 0 0 cfs' out err b Hb)
    as (Hf & _ & _ & _ & Hi & _).
  { rewrite Hd, Hs. intros sources. vm_compute. intros [= <-]. repeat constructor. done. }
  split; [exact Hf|exact Hi].
Defined.
