(* ===== verification/Service.v ===== *)
(** [lytecache service] ([cmd_service.go] and the package [service] of
    lytecache-cli): what is persisted for the operating system's service
    manager, the record of how the service was installed, its state file and
    its rotated log. *)

From S2P Require Import Prelude GoStd Values Store Engine Open GoText UiAccounts CliText CliUi.
Open Scope Z_scope.

(** ** Configuration of the service (config.go) *)
Definition Name : string := "lytecache-ui".
Definition DisplayName : string := "lytecache UI".
Definition Description : string := "Local web administration UI for lytecache database files (not a cache server).".

Inductive option_value := OBool (b : bool) | OText (s : string).
#[global] Instance option_value_eq_dec : EqDecision option_value.
Proof. solve_decision. Defined.
Record service_config := MkServiceConfig {
  sc_Name : string;
  sc_DisplayName : string;
  sc_Description : string;
  sc_Arguments : list string;
  sc_Option : gmap string option_value
}.

Definition buildConfigForGOOS (args : list string) (systemWide : bool) (goos : string) : service_config :=
  MkServiceConfig Name DisplayName Description args
    (if String.eqb goos "darwin" then
       <["RunAtLoad" := OBool true]> (<["KeepAlive" := OBool true]> {["UserService" := OBool true]})
     else if String.eqb goos "linux" then
       <["Restart" := OText "on-failure"]> {["UserService" := OBool (negb systemWide)]}
     else ∅).

Definition checkNotRootOnGOOS (goos : string) (euid : Z) : bool :=
  negb (String.eqb goos "darwin") || negb (euid =? 0).

(** Only flags that were given are persisted; [changed] is [Flags().Changed]. *)
Definition buildPersistedUIArgs (changed : string → bool) (v : uiRunOptions) : list string :=
  let if_changed flag value := if changed flag : bool then ["--" +:+ flag; value] else [] in
  ["ui"] ++
  concat ((λ d, ["--db"; src_Name d +:+ "=" +:+ src_Path d]) <$> u_dbs v) ++
  concat ((λ d, ["--scan"; d]) <$> u_scanDirs v) ++
  if_changed "port" (FormatInt (u_port v)) ++
  if_changed "host" (u_host v) ++
  (if u_allowDelete v then ["--allow-delete"] else []) ++
  if_changed "config" (u_configPath v) ++
  if_changed "tls-cert" (u_tlsCert v) ++
  if_changed "tls-key" (u_tlsKey v) ++
  (if u_insecure v then ["--insecure"] else []) ++
  concat ((λ p, ["--mask-keys"; p]) <$> u_maskKeys v) ++
  concat ((λ p, ["--mask-channels"; p]) <$> u_maskChannels v) ++
  if_changed "metrics-token" (u_metricsToken v) ++
  (if u_noMetrics v then ["--no-metrics"] else []) ++
  if_changed "metrics-cache-ttl" (Duration_String (u_metricsCacheTTL v)) ++
  ["--as-service"].

(** ** The machine

    Calls of the service manager and of schtasks.exe, in order; [call_fails]
    tells which of them fail. Files that cannot be written, read or removed. *)
Inductive task_call := TaskInstall (args : list string) | TaskUninstall | TaskStart | TaskStop | TaskStatus.
Inductive svc_call :=
  | SvcNew (cfg : service_config) | SvcInstall | SvcUninstall | SvcStart | SvcStop | SvcRestart | SvcStatus
  | Task (t : task_call).

Record State := MkState { st_PID : Z; st_StartedAt : Z; st_Addr : string; st_ConfigPath : string }.

Class Machine := {
  goos : string;
  Geteuid : Z;
  IsElevated : bool;
  processAlive : Z → bool;
  call_fails : list svc_call → svc_call → bool;
  svc_running : list svc_call → bool;
  can_write : string → bool;
  can_read : string → bool;
  can_remove : string → bool;
  can_mkdir : string → bool;
  state_text : State → string;                   (* json.MarshalIndent *)
  text_state : string → option State             (* json.Unmarshal *)
}.

Record Station := MkStation {
  sn_files : gmap string string;
  sn_calls : list svc_call;
  sn_out : list string
}.

(** Commands end with an error for the exit code, or not. *)
Definition SM (A : Type) : Type := Station → (cli_error + A) * Station.
#[global] Instance SM_ret : MRet SM := λ _ a s, (inr a, s).
#[global] Instance SM_bind : MBind SM := λ _ _ k m s,
  match m s with (inr a, s') => k a s' | (inl e, s') => (inl e, s') end.
Definition say (line : string) : SM () := λ s, (inr tt, MkStation (sn_files s) (sn_calls s) (sn_out s ++ [line])).
Definition give_back {A} (e : option cli_error) : SM A := λ s,
  (inl (default (PlainError (Text "")) e), s).
Definition db_error {A} (text : string) : SM A := give_back (databaseError (Some (Text text))).

Section service.
Context {OS : Os} {MC : Machine}.

Definition LogDir : option string :=
  if String.eqb goos "darwin" then home ← UserHomeDir; Some (Open.Join [home; "Library"; "Logs"; "lytecache"])
  else if String.eqb goos "windows" then
    match default "" (LookupEnv "LOCALAPPDATA") with
    | EmptyString => home ← UserHomeDir; Some (Open.Join [Open.Join [home; "AppData"; "Local"]; "lytecache"; "logs"])
    | base => Some (Open.Join [base; "lytecache"; "logs"])
    end
  else
    match default "" (LookupEnv "XDG_STATE_HOME") with
    | EmptyString => home ← UserHomeDir; Some (Open.Join [home; ".local"; "state"; "lytecache"])
    | xdg => Some (Open.Join [xdg; "lytecache"])
    end.
Definition in_LogDir (file : string) : option string := dir ← LogDir; Some (Open.Join [dir; file]).
Definition LogPath : option string := in_LogDir "lytecache-ui.log".
Definition StatePath : option string := in_LogDir "lytecache-ui.state.json".
Definition installRecordPath : option string := in_LogDir "lytecache-ui.install-method".

(** ** Files

    Each operation returns whether it succeeded. *)
Definition write_file (path : option string) (data : string) : SM bool := λ s,
  match path with
  | None => (inr false, s)
  | Some p =>
      if negb (can_mkdir (Dir p)) || negb (can_write p) then (inr false, s)
      else (inr true, MkStation (<[p := data]> (sn_files s)) (sn_calls s) (sn_out s))
  end.
Definition remove_file (path : option string) : SM bool := λ s,
  match path with
  | None => (inr false, s)
  | Some p =>
      match sn_files s !! p with
      | None => (inr true, s)
      | Some _ => if can_remove p then (inr true, MkStation (delete p (sn_files s)) (sn_calls s) (sn_out s))
                  else (inr false, s)
      end
  end.

(** *** How the service was installed (install_record.go) *)
Definition MethodOSService : string := "os-service".
Definition MethodScheduledTask : string := "scheduled-task".

Definition WriteInstallRecord (m : string) : SM bool := write_file installRecordPath m.
Definition RemoveInstallRecord : SM bool := remove_file installRecordPath.
Definition ReadInstallRecord : SM (option string) := λ s,
  match installRecordPath with
  | None => (inr None, s)
  | Some p =>
      match sn_files s !! p with
      | None => (inr (Some MethodOSService), s)
      | Some data => (inr (if can_read p then Some data else None), s)
      end
  end.

(** *** The running instance (status.go) *)
Definition WriteState (st : State) : SM bool := write_file StatePath (state_text st).
Definition RemoveState : SM bool := remove_file StatePath.
Definition ReadState : SM (option State) := λ s,
  (inr (p ← StatePath; data ← sn_files s !! p; if can_read p then text_state data else None), s).
Definition IsStale (st : State) : bool := (st_PID st <=? 0) || negb (processAlive (st_PID st)).

(** ** Calls *)
Definition do_call (c : svc_call) : SM bool := λ s,
  (inr (negb (call_fails (sn_calls s) c)), MkStation (sn_files s) (sn_calls s ++ [c]) (sn_out s)).

(** The scheduled tasks exist only on Windows; elsewhere each is
    [ErrNotWindows], with no call made. *)
Definition do_task (t : task_call) : SM bool :=
  if String.eqb goos "windows" then do_call (Task t) else mret false.

Definition running_now : SM bool := λ s, (inr (svc_running (sn_calls s)), s).

Definition BuildConfig (args : list string) (systemWide : bool) : service_config :=
  buildConfigForGOOS args systemWide goos.

(** ** Commands (cmd_service.go) *)
Definition describeInstallScope (systemWide : bool) : string :=
  if String.eqb goos "darwin" then "user LaunchAgent, ~/Library/LaunchAgents"
  else if String.eqb goos "windows" then "Service Control Manager"
  else if systemWide then "system systemd unit, /etc/systemd/system"
  else "user systemd unit, ~/.config/systemd/user".

(** The check that runs before every subcommand: a plain error. *)
Definition newServiceCmd {X} (sub : SM X) : SM X :=
  if checkNotRootOnGOOS goos Geteuid then sub
  else give_back (Some (PlainError (Text "must not be run with sudo/as root on macOS"))).

Definition newServiceInstallCmd (changed : string → bool) (v : uiRunOptions) (systemWide : bool) : SM () :=
  let args := buildPersistedUIArgs changed v in
  if String.eqb goos "windows" && negb IsElevated then
    ok ← do_task (TaskInstall args);
    if negb ok then db_error "not running elevated, and the Scheduled Task fallback failed"
    else
      ok ← WriteInstallRecord MethodScheduledTask;
      if negb ok then db_error "install record"
      else say "installed as a Scheduled Task (not elevated -- run as Administrator to use the Service Control Manager instead)"
  else
    ok ← do_call (SvcNew (BuildConfig args systemWide));
    if negb ok then db_error "service"
    else
      ok ← do_call SvcInstall;
      if negb ok then db_error "installing service"
      else
        ok ← WriteInstallRecord MethodOSService;
        if negb ok then db_error "install record"
        else
          say ("installed " +:+ Name +:+ " (" +:+ describeInstallScope systemWide +:+ ")") ;;
          say "start it with: lytecache service start".

Definition newServiceUninstallCmd : SM () :=
  method ← ReadInstallRecord;
  match method with
  | None => db_error "install record"
  | Some method =>
      ok ← (if String.eqb method MethodScheduledTask then do_task TaskUninstall
            else ok ← do_call (SvcNew (BuildConfig [] false)); if ok : bool then do_call SvcUninstall else mret false);
      if negb ok then db_error "uninstalling service"
      else
        ok ← RemoveInstallRecord;
        if negb ok then db_error "install record" else say "uninstalled"
  end.

(** A task that succeeds prints nothing. *)
Definition withInstalledService (viaOS : svc_call) (viaTask : SM bool) : SM () :=
  method ← ReadInstallRecord;
  match method with
  | None => db_error "install record"
  | Some method =>
      if String.eqb method MethodScheduledTask then
        ok ← viaTask; if negb ok then db_error "scheduled task" else mret tt
      else
        ok ← do_call (SvcNew (BuildConfig [] false));
        if negb ok then db_error "service"
        else
          ok ← do_call SvcStatus;
          if negb ok then db_error "lytecache-ui is not installed"
          else
            ok ← do_call viaOS;
            if negb ok then db_error "service" else say "ok"
  end.

Definition newServiceStartCmd : SM () := withInstalledService SvcStart (do_task TaskStart).
Definition newServiceStopCmd : SM () := withInstalledService SvcStop (do_task TaskStop).
Definition newServiceRestartCmd : SM () :=
  withInstalledService SvcRestart (ok ← do_task TaskStop; if ok : bool then do_task TaskStart else mret false).

Definition runtime_lines (now : Z) (st : option State) : list string :=
  match st with
  | None => ["runtime info:   unavailable (no state file -- has it ever been started?)"]
  | Some st =>
      if IsStale st then
        ["runtime info:   stale (recorded PID " +:+ FormatInt (st_PID st) +:+ " is not running -- an unclean previous exit)"]
      else
        ["pid:            " +:+ FormatInt (st_PID st);
         "uptime:         " +:+ Duration_String (Round (time_sub now (st_StartedAt st)) Second);
         "bound address:  " +:+ st_Addr st;
         "config:         " +:+ st_ConfigPath st]
  end.
Fixpoint say_all (l : list string) : SM () := match l with [] => mret tt | x :: l => say x ;; say_all l end.

(** [now] is [time.Now()] in nanoseconds. *)
Definition newServiceStatusCmd (now : Z) : SM () :=
  method ← ReadInstallRecord;
  match method with
  | None => db_error "install record"
  | Some method =>
      running ← (if String.eqb method MethodScheduledTask then
                   ok ← do_task TaskStatus;
                   if ok : bool then r ← running_now; mret (Some r)
                   else say "install method: scheduled task" ;; say "status:         unknown" ;; mret (Some false)
                 else
                   ok ← do_call (SvcNew (BuildConfig [] false));
                   if negb ok then db_error "service"
                   else
                     ok ← do_call SvcStatus;
                     if negb ok then
                       say "install method: os service" ;; say "status:         not installed" ;; mret None
                     else r ← running_now; mret (Some r));
      match running with
      | None => mret tt
      | Some running =>
          say ("install method: " +:+ method) ;;
          say ("status:         " +:+ if running : bool then "running" else "stopped") ;;
          st ← ReadState;
          say_all (runtime_lines now st) ;;
          match LogPath with Some p => say ("log:            " +:+ p) | None => mret tt end
      end
  end.

(** ** Under the service manager (program.go and runUIUnderServiceManager)

    A failure to write the state file is only logged. *)
Definition program_start (b : built) (pid now : Z) : SM bool :=
  match bl_result b with
  | Some (inr s) => _ ← WriteState (MkState pid now (bu_addr s) (bu_configPath s)); mret true
  | _ => mret false
  end.
(** [Stop] before [Start] does nothing; [shutdown] is whether [Shutdown] worked. *)
Definition program_stop (started shutdown : bool) : SM bool :=
  if started then _ ← RemoveState; mret shutdown else mret true.
Definition DefaultShutdownTimeout : Z := 10 * Second.
Definition shutdown_timeout (t : Z) : Z := if t <=? 0 then DefaultShutdownTimeout else t.
End service.

(** A system-wide unit is installed under another scope than the one every
    other subcommand addresses. *)
Example system_unit_unmanaged :
  sc_Option (buildConfigForGOOS [] true "linux") ≠ sc_Option (buildConfigForGOOS [] false "linux").
Proof. intros H. by apply (f_equal (lookup "UserService")) in H. Qed.

(** ** The tail of the log

    [tailLines] scans backwards for the newline before the last [n] lines. *)
Fixpoint tail_back (n : Z) (count : Z) (back : list ascii) (acc : list ascii) : list ascii :=
  match back with
  | [] => acc
  | a :: back =>
      if bool_decide (a = newline) then
        if n <? count + 1 then acc else tail_back n (count + 1) back (a :: acc)
      else tail_back n count back (a :: acc)
  end.
Definition tailLines (data : string) (n : Z) : string :=
  if n <=? 0 then data
  else String.string_of_list_ascii (tail_back n 0 (reverse (String.list_ascii_of_string data)) []).

(** [service logs]; what it writes is not a line of its own. *)
Definition newServiceLogsCmd `{Os} `{Machine} (lines : Z) : SM () := λ s,
  match LogPath with
  | None => db_error "log path" s
  | Some p =>
      match sn_files s !! p with
      | Some data => if can_read p then say (tailLines data lines) s else db_error "reading log" s
      | None => db_error "reading log" s
      end
  end.

Definition lines3 : string := "one" +:+ String newline ("two" +:+ String newline ("three" +:+ String newline "")).
Example tail_two : tailLines lines3 2 = "two" +:+ String newline ("three" +:+ String newline "").
Proof. reflexivity. Qed.

(** ** The rotated log (logs.go)

    The files by name, and how many calls of the file system were made: any of
    them may fail, by [disk_fault], and a write that fails has written some
    bytes of its text, [written_before] at most. A rename that fails leaves the
    files as they were. *)
Inductive disk_call := DMkdirAll | DOpenFile | DFstat | DClose | DStat | DRename | DWrite.
Class DiskFaults := {
  disk_fault : disk_call → nat → bool;
  written_before : nat → nat
}.
Record Disk := MkDisk { dk_files : gmap string string; dk_calls : nat }.

Definition DefaultMaxLogBytes : Z := 10 * 1024 * 1024.
Definition DefaultMaxLogBackups : Z := 5.

(** [rw_open] is whether the file [f] has not been closed. *)
Record RotatingWriter := MkWriter {
  rw_path : string;
  rw_maxBytes : Z;
  rw_maxBackups : Z;
  rw_size : Z;
  rw_open : bool
}.
Definition set_size (n : Z) (w : RotatingWriter) : RotatingWriter :=
  MkWriter (rw_path w) (rw_maxBytes w) (rw_maxBackups w) n (rw_open w).
Definition set_open (b : bool) (w : RotatingWriter) : RotatingWriter :=
  MkWriter (rw_path w) (rw_maxBytes w) (rw_maxBackups w) (rw_size w) b.

Definition backup (path : string) (i : Z) : string := path +:+ "." +:+ FormatInt i.
(** [OpenFile] with [O_APPEND|O_CREATE]. *)
Definition open_append (path : string) (fs : gmap string string) : gmap string string :=
  match fs !! path with Some _ => fs | None => <[path := ""]> fs end.

Section rotating.
Context {DF : DiskFaults}.

(** One call: whether it succeeded, and the disk after it. *)
Definition call (c : disk_call) (f : gmap string string → option (gmap string string)) (d : Disk) : bool * Disk :=
  match (if disk_fault c (dk_calls d) then None else f (dk_files d)) with
  | Some fs => (true, MkDisk fs (S (dk_calls d)))
  | None => (false, MkDisk (dk_files d) (S (dk_calls d)))
  end.
Definition os_MkdirAll : Disk → bool * Disk := call DMkdirAll Some.
Definition os_OpenFile (path : string) : Disk → bool * Disk := call DOpenFile (λ fs, Some (open_append path fs)).
Definition os_Fstat : Disk → bool * Disk := call DFstat Some.
Definition os_Stat (path : string) : Disk → bool * Disk := call DStat (λ fs, _ ← fs !! path; Some fs).
Definition os_Rename (src dst : string) : Disk → bool * Disk :=
  call DRename (λ fs, data ← fs !! src; Some (<[dst := data]> (delete src fs))).

(** [f.Close]: a file is closed even when that fails, and only once. *)
Definition file_Close (w : RotatingWriter) (d : Disk) : bool * RotatingWriter * Disk :=
  if rw_open w then let '(ok, d) := call DClose Some d in (ok, set_open false w, d) else (false, w, d).

(** [f.Write]: how many bytes were appended, and whether that is all. *)
Definition file_Write (w : RotatingWriter) (p : string) (d : Disk) : Z * bool * Disk :=
  if negb (rw_open w) then (0, false, d)
  else
    let failed := disk_fault DWrite (dk_calls d) in
    let q := if failed then String.substring 0 (written_before (dk_calls d)) p else p in
    (Z.of_nat (String.length q), negb failed,
     MkDisk (alter (λ data, data +:+ q) (rw_path w) (dk_files d)) (S (dk_calls d))).

(** [None] is an error. *)
Definition NewRotatingWriter (path : string) (maxBytes maxBackups : Z) (d : Disk) : option RotatingWriter * Disk :=
  let '(ok, d) := os_MkdirAll d in
  if negb ok then (None, d)
  else
    let '(ok, d) := os_OpenFile path d in
    if negb ok then (None, d)
    else
      let size := Z.of_nat (String.length (default "" (dk_files d !! path))) in
      let '(ok, d) := os_Fstat d in
      let w := MkWriter path maxBytes maxBackups size true in
      if negb ok then (None, (file_Close w d).2) else (Some w, d).

(** [i = maxBackups - 1, ..., 1]. *)
Fixpoint shift_backups (path : string) (i : nat) (d : Disk) : Disk :=
  match i with
  | O => d
  | S j =>
      let src := backup path (Z.of_nat i) in
      let dst := backup path (Z.of_nat i + 1) in
      let '(found, d) := os_Stat src d in
      let d := if found : bool then (os_Rename src dst d).2 else d in
      shift_backups path j d
  end.

(** Failing renames are ignored. *)
Definition rotateLocked (w : RotatingWriter) (d : Disk) : bool * RotatingWriter * Disk :=
  let '(ok, w, d) := file_Close w d in
  if negb ok then (false, w, d)
  else
    let d := shift_backups (rw_path w) (Z.to_nat (rw_maxBackups w - 1)) d in
    let d := if 0 <? rw_maxBackups w then (os_Rename (rw_path w) (rw_path w +:+ ".1") d).2 else d in
    let '(ok, d) := os_OpenFile (rw_path w) d in
    if negb ok then (false, w, d) else (true, set_size 0 (set_open true w), d).

(** The number of bytes written and whether there was no error. *)
Definition Write (w : RotatingWriter) (p : string) (d : Disk) : Z * bool * RotatingWriter * Disk :=
  let n := Z.of_nat (String.length p) in
  let '(ok, w, d) := if (0 <? rw_maxBytes w) && (rw_maxBytes w <? rw_size w + n) then rotateLocked w d else (true, w, d) in
  if negb ok then (0, false, w, d)
  else
    let '(n, ok, d) := file_Write w p d in
    (n, ok, set_size (rw_size w + n) w, d).

(** [Close]. *)
Definition rw_Close (w : RotatingWriter) (d : Disk) : bool * RotatingWriter * Disk := file_Close w d.

(** A run of writes: for each, what it reports. *)
Fixpoint write_all (w : RotatingWriter) (l : list string) (d : Disk) : list (Z * bool) * Disk :=
  match l with
  | [] => ([], d)
  | p :: l =>
      let '(n, ok, w, d) := Write w p d in
      let '(rs, d) := write_all w l d in ((n, ok) :: rs, d)
  end.
End rotating.
