(* ===== verification/ServiceProps.v ===== *)
(** The rotated log of the service ([service/logs.go]): what a run of writes
    leaves on the disk. *)

From S2P Require Import Prelude GoStd GoText Service.
Open Scope Z_scope.

(** The current file is generation 0, its backups are 1, 2, ... *)
Definition generation (path : string) (i : nat) : string :=
  match i with O => path | S _ => backup path (Z.of_nat i) end.
Definition content (path : string) (fs : gmap string string) (i : nat) : string :=
  default "" (fs !! generation path i).

(** Everything that is kept, oldest first. *)
Fixpoint history (path : string) (k : nat) (fs : gmap string string) : string :=
  match k with
  | O => content path fs 0
  | S j => content path fs k +:+ history path j fs
  end.
Definition written (l : list string) : string := foldr (λ p s, p +:+ s) "" l.
(** The text of the backups alone. *)
Fixpoint backups (path : string) (k : nat) (fs : gmap string string) : string :=
  match k with
  | O => ""
  | S j => content path fs k +:+ backups path j fs
  end.
(** What the reports [rs] of the writes [l] say was written. *)
Definition accepted (l : list string) (rs : list (Z * bool)) : string :=
  written (zip_with (λ p r, String.substring 0 (Z.to_nat r.1) p) l rs).

Lemma substring_all p : String.substring 0 (String.length p) p = p.
Proof. induction p as [|a p IH]; simpl; [done|by rewrite IH]. Qed.
Lemma substring_length n p : (String.length (String.substring 0 n p) ≤ String.length p)%nat.
Proof. revert n. induction p as [|a p IH]; intros [|n]; simpl; [lia..|]. specialize (IH n). lia. Qed.
Lemma substring_prefix n p : String.substring 0 (String.length (String.substring 0 n p)) p = String.substring 0 n p.
Proof. revert n. induction p as [|a p IH]; intros [|n]; simpl; [done..|by rewrite IH]. Qed.

(** ** File names *)

Lemma str_app_inj (s t u : string) : s +:+ t = s +:+ u → t = u.
Proof. induction s as [|a s IH]; [done|]. rewrite !str_app_cons. intros [= Heq]. by apply IH. Qed.

Lemma str_app_inj_r (s t u : string) : s +:+ u = t +:+ u → s = t.
Proof.
  revert t. induction s as [|a s IH]; intros [|b t] Heq; [done|..|rewrite !str_app_cons in Heq; injection Heq as -> Heq; f_equal; by apply IH];
    apply (f_equal String.length) in Heq; rewrite !str_length_app in Heq; simpl in Heq; lia.
Qed.

#[global] Instance generation_inj path : Inj (=) (=) (generation path).
Proof.
  assert (∀ n, path ≠ backup path n) as Hne.
  { intros n Hp. apply (f_equal String.length) in Hp. unfold backup in Hp. rewrite !str_length_app in Hp. simpl in Hp. lia. }
  intros [|i] [|j] Hij; simpl in Hij; [done|by destruct (Hne _ Hij)|by destruct (Hne _ (eq_sym Hij))|].
  unfold backup in Hij. apply str_app_inj, str_app_inj in Hij.
  apply (f_equal parse_decimal) in Hij. rewrite !parse_decimal_FormatInt in Hij. injection Hij as Hij. lia.
Qed.

(** ** Rotation

    What the calls do to the files when none of them fails. *)
Definition rename (src dst : string) (fs : gmap string string) : gmap string string :=
  match fs !! src with Some data => <[dst := data]> (delete src fs) | None => fs end.
Fixpoint shifted (path : string) (i : nat) (fs : gmap string string) : gmap string string :=
  match i with
  | O => fs
  | S j => shifted path j (rename (backup path (Z.of_nat i)) (backup path (Z.of_nat i + 1)) fs)
  end.

Lemma rename_lookup (src dst x : string) (fs : gmap string string) : src ≠ dst →
  rename src dst fs !! x =
    if decide (x = dst) then (if fs !! src then fs !! src else fs !! dst)
    else if decide (x = src) then None else fs !! x.
Proof.
  intros Hne. unfold rename. destruct (fs !! src) as [data|] eqn:Hs.
  - rewrite lookup_insert. case_decide as Hx; [subst; by rewrite decide_True|].
    rewrite (decide_False (P:=x = dst)) by done. rewrite lookup_delete.
    case_decide; [by rewrite decide_True|by rewrite decide_False].
  - case_decide; [by subst|]. case_decide; [by subst|done].
Qed.

Lemma shift_S path j fs :
  shifted path (S j) fs =
  shifted path j (rename (generation path (S j)) (generation path (S (S j))) fs).
Proof. cbn [shifted generation]. by replace (Z.of_nat (S j) + 1) with (Z.of_nat (S (S j))) by lia. Qed.

(** Each backup takes the place of the next one; the last is replaced only if
    there is one to replace it. *)
Lemma shifted_spec path n fs :
  let fs' := shifted path n fs in
  ((0 < n)%nat → fs' !! generation path 1 = None) ∧
  (∀ i, (1 ≤ i < n)%nat → fs' !! generation path (S i) = fs !! generation path i) ∧
  ((0 < n)%nat → fs' !! generation path (S n) =
     if fs !! generation path n then fs !! generation path n else fs !! generation path (S n)) ∧
  (∀ x, n = 0%nat ∨ (∀ i, (1 ≤ i ≤ S n)%nat → x ≠ generation path i) → fs' !! x = fs !! x).
Proof.
  revert fs. induction n as [|n IH]; intros fs; [by split_and!; [intros; lia..|]|].
  cbv zeta. rewrite shift_S. set (fs1 := rename _ _ fs).
  assert (∀ x, fs1 !! x = if decide (x = generation path (S (S n)))
    then (if fs !! generation path (S n) then fs !! generation path (S n) else fs !! generation path (S (S n)))
    else if decide (x = generation path (S n)) then None else fs !! x) as Hfs1.
  { intros x. apply rename_lookup. intros Heq%(inj (generation path)). lia. }
  assert (∀ i, (i ≤ n)%nat → fs1 !! generation path i = fs !! generation path i) as Hlow.
  { intros i Hi. rewrite Hfs1, !decide_False; [done|intros Heq%(inj (generation path)); lia..]. }
  assert (fs1 !! generation path (S n) = None) as Hmid.
  { rewrite Hfs1, decide_False, decide_True; [done|done|intros Heq%(inj (generation path)); lia]. }
  destruct (IH fs1) as (H1 & H2 & H3 & H4).
  assert (∀ x, (∀ i, (1 ≤ i ≤ S n)%nat → x ≠ generation path i) → shifted path n fs1 !! x = fs1 !! x) as Hrest
    by (intros x Hx; apply H4; auto).
  split_and!.
  - intros _. destruct n as [|n]; [by rewrite H4 by auto|apply H1; lia].
  - intros i Hi. destruct (decide (i = n)) as [->|Hne]; [|rewrite H2 by lia; apply Hlow; lia].
    rewrite H3, Hmid, Hlow by lia. by destruct (fs !! generation path n).
  - intros _. rewrite Hrest by (intros i Hi Heq%(inj (generation path)); lia). by rewrite Hfs1, decide_True.
  - intros x [|Hx]; [done|]. rewrite Hrest by (intros i Hi; apply Hx; lia).
    rewrite Hfs1, !decide_False; [done|apply Hx; lia..].
Qed.

(** Renaming works; any other call may fail. *)
Definition renames_work `{DiskFaults} : Prop := ∀ n, disk_fault DRename n = false ∧ disk_fault DStat n = false.

Lemma os_Rename_files `{DiskFaults} src dst d : renames_work →
  dk_files (os_Rename src dst d).2 = rename src dst (dk_files d).
Proof.
  intros Hr. unfold os_Rename, call, rename. destruct (Hr (dk_calls d)) as [-> _].
  by destruct (dk_files d !! src).
Qed.

Lemma shift_backups_files `{DiskFaults} path n d : renames_work →
  dk_files (shift_backups path n d) = shifted path n (dk_files d).
Proof.
  intros Hr. revert d. induction n as [|n IH]; intros d; cbn [shift_backups shifted]; [done|].
  set (src := backup path _). set (dst := backup path _).
  assert (Hs : os_Stat src d = (bool_decide (is_Some (dk_files d !! src)), MkDisk (dk_files d) (S (dk_calls d)))).
  { unfold os_Stat, call. destruct (Hr (dk_calls d)) as [_ ->]. by destruct (dk_files d !! src). }
  rewrite Hs. case_bool_decide as Hsrc; rewrite IH; [by rewrite os_Rename_files|].
  f_equal. unfold rename. destruct (dk_files d !! src); [by destruct Hsrc|done].
Qed.

Lemma open_append_lookup path x fs :
  open_append path fs !! x = if decide (x = path) then Some (default "" (fs !! path)) else fs !! x.
Proof.
  unfold open_append. case_decide as Hx; [subst x|]; destruct (fs !! path) eqn:Hp; try done;
    [by rewrite lookup_insert_eq|by rewrite lookup_insert_ne].
Qed.

Section rotation.
Context {DF : DiskFaults} (Hworks : renames_work).
Context (path : string) (k : nat) (Hk : (1 ≤ k)%nat).
Implicit Types fs : gmap string string.

(** A writer with [k] backups on [path]; while its file is open, the size it
    believes in is that of the file. *)
Definition writer_ok (w : RotatingWriter) fs : Prop :=
  rw_path w = path ∧ rw_maxBackups w = Z.of_nat k ∧
  (rw_open w = true → is_Some (fs !! path) ∧ rw_size w = Z.of_nat (String.length (content path fs 0))).

(** Each file takes the place of the next one; the oldest is replaced if there
    is one to replace it, and the log starts again. *)
Record moved fs fs1 : Prop := {
  mv_log : content path fs1 0 = "";
  mv_mid i : (1 ≤ i < k)%nat → fs1 !! generation path i = fs !! generation path (i - 1);
  mv_top : fs1 !! generation path k =
    match fs !! generation path (k - 1) with Some c => Some c | None => fs !! generation path k end;
  mv_frame x : (∀ i, (i ≤ k)%nat → x ≠ generation path i) → fs1 !! x = fs !! x
}.

Definition renamed fs : gmap string string := rename path (path +:+ ".1") (shifted path (k - 1) fs).

Lemma renamed_moved fs : is_Some (fs !! path) → renamed fs !! path = None ∧ moved fs (renamed fs).
Proof using Hk.
  intros [cur Hcur]. unfold renamed. change (path +:+ ".1") with (generation path 1).
  destruct (shifted_spec path (k - 1) fs) as (_ & H2 & H3 & H4). set (fs1 := shifted path (k - 1) fs) in *.
  assert (fs1 !! path = Some cur) as Hcur1.
  { rewrite H4; [done|]. right. intros i Hi Heq%(inj (generation path) 0%nat). lia. }
  assert (∀ x, rename path (generation path 1) fs1 !! x =
    if decide (x = generation path 1) then Some cur else if decide (x = path) then None else fs1 !! x) as Hfs2.
  { intros x. rewrite rename_lookup by (by intros Heq%(inj (generation path) 0%nat 1%nat)). by rewrite Hcur1. }
  assert (∀ i, (1 ≤ i)%nat → generation path i ≠ path) as Hne by (intros i Hi Heq%(inj (generation path) i 0%nat); lia).
  assert (∀ i, (2 ≤ i)%nat → rename path (generation path 1) fs1 !! generation path i = fs1 !! generation path i) as Hgen.
  { intros i Hi. rewrite Hfs2, !decide_False; [done|apply Hne; lia|intros Heq%(inj (generation path)); lia]. }
  assert (rename path (generation path 1) fs1 !! path = None) as Hnone.
  { rewrite Hfs2, decide_False, decide_True; [done|done|]. intros Heq. by apply (Hne 1%nat); [lia|]. }
  split; [done|]. split.
  - unfold content. change (generation path 0) with path. by rewrite Hnone.
  - intros i Hi. destruct (decide (i = 1%nat)) as [->|Hi1]; [by rewrite Hfs2, decide_True by done|].
    rewrite Hgen by lia. replace i with (S (i - 1)) at 1 by lia. apply H2. lia.
  - destruct (decide (k = 1%nat)) as [Hk1|Hk1]; [by rewrite Hk1, Hfs2, decide_True by done; simpl; rewrite Hcur|].
    rewrite Hgen by lia. replace k with (S (k - 1)) at 1 by lia. rewrite H3 by lia.
    replace (S (k - 1)) with k by lia. by destruct (fs !! generation path (k - 1)).
  - intros x Hx. rewrite Hfs2, !decide_False; [|apply (Hx 0%nat); lia|apply (Hx 1%nat); lia].
    apply H4. right. intros i Hi. apply Hx. lia.
Qed.

Lemma open_append_content fs i : content path (open_append path fs) i = content path fs i.
Proof using Type. unfold content. rewrite open_append_lookup. case_decide as He; [by rewrite He|done]. Qed.

Lemma moved_open fs fs1 : fs1 !! path = None → moved fs fs1 → moved fs (open_append path fs1).
Proof using Hk.
  intros Hn []. assert (∀ i, (1 ≤ i)%nat → open_append path fs1 !! generation path i = fs1 !! generation path i) as Hgen.
  { intros i Hi. rewrite open_append_lookup, decide_False; [done|]. intros Heq%(inj (generation path) i 0%nat). lia. }
  split.
  - by rewrite open_append_content.
  - intros i Hi. rewrite Hgen by lia. by apply mv_mid0.
  - by rewrite Hgen by lia.
  - intros x Hx. rewrite open_append_lookup, decide_False by (apply (Hx 0%nat); lia). by apply mv_frame0.
Qed.

(** What a rotation does: nothing, or the files move; and the writer that
    reports success is open on an empty log. *)
Lemma rotateLocked_spec w d : writer_ok w (dk_files d) →
  let '(ok, w', d') := rotateLocked w d in
  rw_path w' = path ∧ rw_maxBackups w' = Z.of_nat k ∧ rw_maxBytes w' = rw_maxBytes w ∧ rw_open w' = ok ∧
  (dk_files d' = dk_files d ∧ ok = false ∨ is_Some (dk_files d !! path) ∧ rw_open w = true ∧ moved (dk_files d) (dk_files d')) ∧
  (ok = true → rw_size w' = 0 ∧ dk_files d' !! path = Some "") ∧
  ((∀ c n, disk_fault c n = false) → rw_open w = true → ok = true).
Proof using Hk Hworks.
  intros (Hp & Hb & Hopen). unfold rotateLocked, file_Close. destruct (rw_open w) eqn:Ho; [|simpl; rewrite Ho; split_and!; try done; by left].
  destruct Hopen as [Hcur _]; [done|]. unfold call at 1.
  destruct (disk_fault DClose (dk_calls d)) eqn:Hclose; simpl.
  { split_and!; try done; [by left|]. intros Hno. by rewrite Hno in Hclose. }
  rewrite Hp, Hb. replace (Z.to_nat (Z.of_nat k - 1)) with (k - 1)%nat by lia.
  rewrite (proj2 (Z.ltb_lt 0 _)) by lia.
  destruct (renamed_moved _ Hcur) as [Hgone Hmv].
  set (d1 := (os_Rename _ _ _).2).
  assert (Hd1 : dk_files d1 = renamed (dk_files d)).
  { subst d1. rewrite os_Rename_files, shift_backups_files by done. done. }
  clearbody d1. unfold os_OpenFile, call. destruct (disk_fault DOpenFile (dk_calls d1)) eqn:Hof; simpl.
  - split_and!; try done; [right; by rewrite Hd1|]. intros Hno. by rewrite Hno in Hof.
  - split_and!; try done; [right; rewrite Hd1; split_and!; [done|done|by apply moved_open]|].
    intros _. split; [done|]. by rewrite Hd1, open_append_lookup, decide_True, Hgone by done.
Qed.

(** [q] is added to the log. *)
Record appended (q : string) fs fs' : Prop := {
  ap_content i : content path fs' i = content path fs i +:+ (if decide (i = 0%nat) then q else "");
  ap_frame x : x ≠ path → fs' !! x = fs !! x;
  ap_some : is_Some (fs !! path) → is_Some (fs' !! path)
}.

Lemma appended_nothing fs : appended "" fs fs.
Proof using Type. split; [|done..]. intros i. by case_decide; rewrite str_app_nil_r. Qed.

Lemma appended_alter q fs : is_Some (fs !! path) → appended q fs (alter (λ d, d +:+ q) path fs).
Proof using Type.
  intros [cur Hcur]. split.
  - intros i. unfold content. case_decide as Hi.
    + subst. simpl. by rewrite lookup_alter_eq, Hcur.
    + rewrite str_app_nil_r, lookup_alter_ne; [done|]. by intros Heq%(inj (generation path) 0%nat i).
  - intros x Hx. by rewrite lookup_alter_ne by done.
  - intros _. rewrite lookup_alter_eq, Hcur. by eexists.
Qed.

Lemma content_length fs fs' q : appended q fs fs' →
  String.length (content path fs' 0) = (String.length (content path fs 0) + String.length q)%nat.
Proof using Type. intros []. rewrite ap_content0, decide_True by done. apply str_length_app. Qed.

Lemma file_Write_spec w p d : writer_ok w (dk_files d) →
  let '(n, ok, d') := file_Write w p d in
  let q := String.substring 0 (Z.to_nat n) p in
  0 ≤ n ≤ Z.of_nat (String.length p) ∧ (ok = true → n = Z.of_nat (String.length p)) ∧
  appended q (dk_files d) (dk_files d') ∧ (rw_open w = true ∨ q = "") ∧
  writer_ok (set_size (rw_size w + n) w) (dk_files d') ∧
  ((∀ c n, disk_fault c n = false) → rw_open w = true → ok = true).
Proof using Hk.
  intros (Hp & Hb & Ho). unfold file_Write. destruct (rw_open w) eqn:Hopen; simpl.
  - destruct Ho as [Hsome Hsize]; [done|].
    set (q := if disk_fault DWrite (dk_calls d) then _ else p).
    assert (Hq : String.substring 0 (String.length q) p = q ∧ (String.length q ≤ String.length p)%nat).
    { subst q. destruct (disk_fault _ _); [split; [apply substring_prefix|apply substring_length]|].
      split; [apply substring_all|lia]. }
    destruct Hq as [Hq Hlen]. rewrite Nat2Z.id, Hq, Hp. pose proof (appended_alter q _ Hsome) as Ha.
    split; [lia|]. split; [subst q; by destruct (disk_fault _ _)|]. split; [exact Ha|]. split; [by left|].
    split; [|by intros Hno; rewrite Hno]. split; [done|]. split; [done|]. intros _.
    split; [by apply (ap_some q (dk_files d))|]. simpl. rewrite (content_length _ _ _ Ha). lia.
  - assert (Hq : String.substring 0 0 p = "") by by destruct p. cbn [negb]. cbv zeta. change (Z.to_nat 0) with 0%nat. rewrite Hq.
    split; [lia|]. split; [done|]. split; [apply appended_nothing|]. split; [by right|]. split; [|done].
    split; [done|]. split; [done|]. simpl. by rewrite Hopen.
Qed.

(** One call of [Write]: maybe a rotation, then maybe an addition to the log. *)
Lemma Write_spec w p d : writer_ok w (dk_files d) → 0 < rw_maxBytes w →
  let '(n, ok, w', d') := Write w p d in
  let q := String.substring 0 (Z.to_nat n) p in
  let full := rw_maxBytes w < Z.of_nat (String.length (content path (dk_files d) 0)) + Z.of_nat (String.length p) in
  writer_ok w' (dk_files d') ∧ rw_maxBytes w' = rw_maxBytes w ∧
  0 ≤ n ≤ Z.of_nat (String.length p) ∧ (ok = true → n = Z.of_nat (String.length p)) ∧
  (∃ fs1, (fs1 = dk_files d ∧ (q = "" ∨ ¬ full) ∨ moved (dk_files d) fs1 ∧ is_Some (dk_files d !! path) ∧ full) ∧
    appended q fs1 (dk_files d')) ∧
  ((∀ c n, disk_fault c n = false) → rw_open w = true → ok = true ∧ rw_open w' = true ∧ is_Some (dk_files d' !! path)).
Proof using Hk Hworks.
  intros Hw Hmax. unfold Write. rewrite (proj2 (Z.ltb_lt 0 _)) by done. cbn [andb].
  set (full := rw_maxBytes w <? _).
  assert (Hsize : rw_open w = true → full = true ↔
    rw_maxBytes w < Z.of_nat (String.length (content path (dk_files d) 0)) + Z.of_nat (String.length p)).
  { intros Ho. destruct Hw as (_ & _ & Hs). destruct (Hs Ho) as [_ Hsz]. subst full. rewrite Z.ltb_lt. lia. }
  clearbody full. destruct full.
  - pose proof (rotateLocked_spec w d Hw) as Hrot. destruct (rotateLocked w d) as [[ok w1] d1].
    destruct Hrot as (Hp & Hb & Hm & Ho & Hmv & Hok & Hno).
    destruct ok; simpl.
    + destruct (Hok eq_refl) as [Hz He]. destruct Hmv as [[_ [=]]|(Hsome & Hopen & Hmv)].
      assert (Hw1 : writer_ok w1 (dk_files d1)).
      { split_and!; [done|done|]. intros _. split; [by rewrite He|]. unfold content. simpl. by rewrite He. }
      pose proof (file_Write_spec w1 p d1 Hw1) as Hf. destruct (file_Write w1 p d1) as [[n ok] d2].
      destruct Hf as (Hn & Hall & Ha & _ & Hw2 & Hno2). split; [exact Hw2|]. split; [done|]. split; [lia|]. split; [done|]. split.
      * exists (dk_files d1). split; [|done]. right. split; [done|]. split; [done|]. by apply Hsize.
      * intros Hf _. split; [by apply Hno2|]. split; [done|]. apply (ap_some _ _ _ Ha). by rewrite He.
    + assert (Hq : String.substring 0 0 p = "") by by destruct p. change (Z.to_nat 0) with 0%nat. rewrite Hq.
      split; [split; [done|]; split; [done|congruence]|]. split; [done|]. split; [lia|]. split; [done|].
      split; [|intros Hf Hopen; by specialize (Hno Hf Hopen)].
      exists (dk_files d1). split; [|apply appended_nothing].
      destruct Hmv as [[-> _]|(Hsome & Hopen & Hmv)]; [left; split; [done|by left]|right].
      split; [done|]. split; [done|]. by apply Hsize.
  - pose proof (file_Write_spec w p d Hw) as Hf. simpl. destruct (file_Write w p d) as [[n ok] d2].
    destruct Hf as (Hn & Hall & Ha & Hq & Hw2 & Hno2). split; [exact Hw2|]. split; [done|]. split; [lia|]. split; [done|]. split.
    + exists (dk_files d). split; [|done]. left. split; [done|].
      destruct Hq as [Ho|]; [right|by left]. by rewrite <- Hsize.
    + intros Hf Ho. split; [by apply Hno2|]. split; [done|]. apply (ap_some _ _ _ Ha). by apply Hw.
Qed.

(** *** What is kept *)

(** A rotation forgets the oldest file at most. *)
Lemma moved_low fs fs1 j : moved fs fs1 → (j < k)%nat →
  history path j fs1 = match j with O => "" | S i => history path i fs end.
Proof using Hk.
  intros Hmv. induction j as [|j IH]; intros Hj; cbn [history]; [apply Hmv|]. rewrite IH by lia.
  unfold content. rewrite (mv_mid _ _ Hmv) by lia. replace (S j - 1)%nat with j by lia.
  destruct j; [apply str_app_nil_r|done].
Qed.

Lemma history_k fs : history path k fs = content path fs k +:+ history path (k - 1) fs.
Proof using Hk. destruct k as [|m]; [lia|]. cbn [history]. by replace (S m - 1)%nat with m by lia. Qed.

Lemma moved_history fs fs1 : moved fs fs1 →
  (∃ d, history path k fs = d +:+ history path k fs1) ∧
  (is_Some (fs !! generation path (k - 1)) → history path k fs1 = history path (k - 1) fs).
Proof using Hk.
  intros Hmv. rewrite !history_k. rewrite (moved_low fs fs1 (k - 1)) by done || lia.
  unfold content at 2 3. rewrite (mv_top _ _ Hmv).
  assert (Hpred : history path (k - 1) fs =
    content path fs (k - 1) +:+ match (k - 1)%nat with O => "" | S i => history path i fs end).
  { destruct (k - 1)%nat; cbn [history]; [by rewrite str_app_nil_r|done]. }
  rewrite Hpred. change (content path fs (k - 1)) with (default "" (fs !! generation path (k - 1))). destruct (fs !! generation path (k - 1)) as [c|] eqn:Hm; cbn [default].
  - split; [by exists (content path fs k)|done].
  - split; [|by intros []]. exists "". by rewrite !str_app_nil.
Qed.

Lemma appended_history q fs fs' j : appended q fs fs' → history path j fs' = history path j fs +:+ q.
Proof using Type.
  intros [Hc _ _]. induction j as [|j IH]; cbn [history]; rewrite Hc; [by rewrite decide_True|].
  by rewrite IH, decide_False, str_app_nil_r, str_app_assoc by done.
Qed.

Definition bounded (bound : Z) fs : Prop :=
  ∀ i, (i ≤ k)%nat → Z.of_nat (String.length (content path fs i)) ≤ bound.

(** What one write, and then a run of writes, does to the log. *)
Definition logged (bound : Z) (text : string) fs fs' : Prop :=
  (∃ d, history path k fs +:+ text = d +:+ history path k fs') ∧ bounded bound fs' ∧
  (∀ x, (∀ i, (i ≤ k)%nat → x ≠ generation path i) → fs' !! x = fs !! x).

Lemma moved_bounded bound fs fs1 : 0 ≤ bound → moved fs fs1 → bounded bound fs → bounded bound fs1.
Proof using Hk.
  intros H0 Hmv Hb i Hi. destruct (decide (i = 0%nat)) as [->|Hi0]; [by rewrite (mv_log _ _ Hmv)|].
  destruct (decide (i = k)) as [->|Hik].
  - unfold content. rewrite (mv_top _ _ Hmv).
    destruct (fs !! generation path (k - 1)) eqn:Hm; [|by apply Hb].
    specialize (Hb (k - 1)%nat ltac:(lia)). unfold content in Hb. by rewrite Hm in Hb.
  - unfold content. rewrite (mv_mid _ _ Hmv) by lia. apply (Hb (i - 1)%nat). lia.
Qed.

Lemma Write_logged w p d bound : writer_ok w (dk_files d) → 0 < rw_maxBytes w ≤ bound →
  Z.of_nat (String.length p) ≤ bound → bounded bound (dk_files d) →
  let '(n, ok, w', d') := Write w p d in
  logged bound (String.substring 0 (Z.to_nat n) p) (dk_files d) (dk_files d').
Proof using Hk Hworks.
  intros Hw Hmax Hp Hb. pose proof (Write_spec w p d Hw ltac:(lia)) as Hs.
  destruct (Write w p d) as [[[n ok] w'] d']. destruct Hs as (_ & _ & Hn & _ & (fs1 & Hfs1 & Ha) & _).
  pose proof (substring_length (Z.to_nat n) p) as Hlen. set (q := String.substring 0 (Z.to_nat n) p) in *.
  assert (Hone : (∃ d0, history path k (dk_files d) = d0 +:+ history path k fs1) ∧ bounded bound fs1 ∧
    Z.of_nat (String.length (content path fs1 0)) + Z.of_nat (String.length q) ≤ bound ∧
    (∀ x, (∀ i, (i ≤ k)%nat → x ≠ generation path i) → fs1 !! x = dk_files d !! x)).
  { destruct Hfs1 as [[-> Hq]|(Hmv & _ & Hfull)].
    - split; [by exists ""|]. split; [done|]. split; [|done]. specialize (Hb 0%nat ltac:(lia)).
      destruct Hq as [->|]; simpl; lia.
    - split; [by apply moved_history|]. split; [apply (moved_bounded _ (dk_files d)); [lia|done..]|].
      split; [rewrite (mv_log _ _ Hmv); simpl; lia|apply Hmv]. }
  destruct Hone as ((d0 & Hd0) & Hb1 & Hq & Hframe). split; [|split].
  - exists d0. rewrite (appended_history q fs1 _ k Ha), Hd0. by rewrite str_app_assoc.
  - intros i Hi. destruct (decide (i = 0%nat)) as [->|Hi0]; [rewrite (content_length _ _ _ Ha); lia|].
    rewrite (ap_content _ _ _ Ha), decide_False, str_app_nil_r by done. by apply Hb1.
  - intros x Hx. rewrite (ap_frame _ _ _ Ha) by (apply (Hx 0%nat); lia). by apply Hframe.
Qed.

(** What a call may report. *)
Definition report_ok (p : string) (r : Z * bool) : Prop :=
  0 ≤ r.1 ≤ Z.of_nat (String.length p) ∧ (r.2 = true → r.1 = Z.of_nat (String.length p)).

Lemma write_all_logged w l d bound : writer_ok w (dk_files d) → 0 < rw_maxBytes w ≤ bound →
  Forall (λ p, Z.of_nat (String.length p) ≤ bound) l → bounded bound (dk_files d) →
  let '(rs, d') := write_all w l d in
  logged bound (accepted l rs) (dk_files d) (dk_files d') ∧ Forall2 report_ok l rs.
Proof using Hk Hworks.
  intros Hw Hmax Hl. revert w d Hw Hmax. induction Hl as [|p l Hp _ IH]; intros w d Hw Hmax Hb; cbn [write_all].
  { split; [|constructor]. split; [exists ""; exact (str_app_nil_r _)|by split]. }
  pose proof (Write_logged w p d bound Hw Hmax Hp Hb) as Hone.
  pose proof (Write_spec w p d Hw ltac:(lia)) as Hs.
  destruct (Write w p d) as [[[n ok] w1] d1]. destruct Hs as (Hw1 & Hm1 & Hn & Hok & _).
  destruct Hone as ((e1 & He1) & Hb1 & Hf1). specialize (IH w1 d1 Hw1 ltac:(by rewrite Hm1) Hb1).
  destruct (write_all w1 l d1) as [rs d2]. destruct IH as [((e2 & He2) & Hb2 & Hf2) Hrs].
  split; [|by constructor]. split; [|split; [done|]].
  - exists (e1 +:+ e2). unfold accepted in *. cbn [zip_with written foldr fst].
    fold (written (zip_with (λ p r, String.substring 0 (Z.to_nat r.1) p) l rs)).
    by rewrite <- str_app_assoc, He1, str_app_assoc, He2, str_app_assoc.
  - intros x Hx. by rewrite Hf2, Hf1.
Qed.

Lemma history_length bound fs : bounded bound fs →
  Z.of_nat (String.length (history path k fs)) ≤ (Z.of_nat k + 1) * bound.
Proof using Hk.
  intros Hb. assert (∀ j, (j ≤ k)%nat → Z.of_nat (String.length (history path j fs)) ≤ (Z.of_nat j + 1) * bound) as Hj; [|by apply Hj].
  induction j as [|j IH]; intros Hle; cbn [history].
  - specialize (Hb 0%nat Hle). lia.
  - rewrite str_length_app. specialize (Hb (S j) Hle). specialize (IH ltac:(lia)). lia.
Qed.

(** *** What is dropped

    After [m] rotations of a run without failures: the [m] newest backups are
    of the run, each with the file after it would not have fitted into one, and
    with the log they are what the log held at first and what was written. *)
Record packed (m : nat) (maxBytes : Z) (acc total : string) fs : Prop := {
  pk_some i : (i ≤ m)%nat → (i ≤ k)%nat → is_Some (fs !! generation path i);
  pk_full i : (1 ≤ i)%nat → (i ≤ m)%nat → (i ≤ k)%nat →
    maxBytes < Z.of_nat (String.length (content path fs i)) + Z.of_nat (String.length (content path fs (i - 1)));
  pk_kept : (m ≤ k)%nat → history path m fs = acc;
  pk_none : m = 0%nat → history path k fs = total;
  pk_used : (0 < m)%nat → maxBytes < Z.of_nat (String.length acc)
}.

Lemma moved_content fs fs1 i : moved fs fs1 → (1 ≤ i ≤ k)%nat → is_Some (fs !! generation path (i - 1)) →
  is_Some (fs1 !! generation path i) ∧ content path fs1 i = content path fs (i - 1).
Proof using Hk.
  intros Hmv Hi [c Hc]. unfold content. destruct (decide (i = k)) as [->|Hne].
  - rewrite (mv_top _ _ Hmv), Hc. by split; [eexists|].
  - rewrite (mv_mid _ _ Hmv), Hc by lia. by split; [eexists|].
Qed.

Lemma generation_path i : (1 ≤ i)%nat → generation path i ≠ path.
Proof using Type. intros Hi Heq%(inj (generation path) i 0%nat). by rewrite Heq in Hi; inversion Hi. Qed.

Lemma packed_appended m maxBytes acc total q fs fs' :
  appended q fs fs' → packed m maxBytes acc total fs → packed m maxBytes (acc +:+ q) (total +:+ q) fs'.
Proof using Hk.
  intros Ha []. split.
  - intros i H1 H2. destruct (decide (i = 0%nat)) as [->|Hi].
    + apply (ap_some _ _ _ Ha). by apply (pk_some0 0%nat); lia.
    + rewrite (ap_frame _ _ _ Ha) by (apply generation_path; lia). by apply pk_some0.
  - intros i H1 H2 H3. specialize (pk_full0 i H1 H2 H3).
    rewrite !(ap_content _ _ _ Ha), (decide_False (P := i = 0%nat)), str_app_nil_r, str_length_app by lia. lia.
  - intros Hm. rewrite (appended_history q fs) by done. by rewrite pk_kept0.
  - intros Hm. rewrite (appended_history q fs) by done. by rewrite pk_none0.
  - intros Hm. rewrite str_length_app. specialize (pk_used0 Hm). lia.
Qed.

(** The write of [p] that rotates begins a new file. *)
Lemma packed_moved m maxBytes acc total p fs fs1 fs' :
  moved fs fs1 → appended p fs1 fs' → is_Some (fs' !! path) →
  maxBytes < Z.of_nat (String.length (content path fs 0)) + Z.of_nat (String.length p) →
  packed m maxBytes acc total fs → packed (S m) maxBytes (acc +:+ p) (total +:+ p) fs'.
Proof using Hk.
  intros Hmv Ha Hsome Hfull [].
  assert (Hc : ∀ i, (1 ≤ i ≤ k)%nat → (i ≤ S m)%nat →
    is_Some (fs1 !! generation path i) ∧ content path fs' i = content path fs (i - 1)).
  { intros i H1 H2. destruct (moved_content fs fs1 i Hmv H1) as [Hi He]; [apply pk_some0; lia|]. split; [done|].
    by rewrite (ap_content _ _ _ Ha), decide_False, str_app_nil_r by lia. }
  assert (H0 : content path fs' 0 = p).
  { rewrite (ap_content _ _ _ Ha), decide_True, (mv_log _ _ Hmv) by done. apply str_app_nil. }
  split.
  - intros i H1 H2. destruct (decide (i = 0%nat)) as [->|Hi]; [done|].
    rewrite (ap_frame _ _ _ Ha) by (apply generation_path; lia). apply Hc; lia.
  - intros i H1 H2 H3. rewrite (proj2 (Hc i ltac:(lia) H2)). destruct (decide (i = 1%nat)) as [->|Hi].
    + change (1 - 1)%nat with 0%nat. by rewrite H0.
    + rewrite (proj2 (Hc (i - 1)%nat ltac:(lia) ltac:(lia))). apply pk_full0; lia.
  - intros Hm. rewrite (appended_history p fs1) by done. f_equal. destruct (decide (S m = k)) as [He|Hne].
    + rewrite He, (proj2 (moved_history fs fs1 Hmv)); [replace (k - 1)%nat with m by lia; apply pk_kept0; lia|].
      apply pk_some0; lia.
    + rewrite (moved_low fs fs1) by done || lia. apply pk_kept0. lia.
  - done.
  - intros _. rewrite str_length_app. destruct m as [|m].
    + rewrite <- pk_kept0 by lia. cbn [history]. lia.
    + specialize (pk_used0 ltac:(lia)). lia.
Qed.

Lemma write_all_packed w l d m acc total : (∀ c n, disk_fault c n = false) → rw_open w = true →
  writer_ok w (dk_files d) → 0 < rw_maxBytes w → packed m (rw_maxBytes w) acc total (dk_files d) →
  let '(rs, d') := write_all w l d in
  rs = (λ p, (Z.of_nat (String.length p), true)) <$> l ∧
  ∃ m, packed m (rw_maxBytes w) (acc +:+ written l) (total +:+ written l) (dk_files d').
Proof using Hk Hworks.
  intros Hno. revert w d m acc total. induction l as [|p l IH]; intros w d m acc total Ho Hw Hmax Hpk; cbn [write_all].
  { split; [done|]. exists m. cbn [written foldr]. by rewrite !str_app_nil_r. }
  pose proof (Write_spec w p d Hw Hmax) as Hs. destruct (Write w p d) as [[[n ok] w1] d1].
  destruct Hs as (Hw1 & Hm1 & _ & Hok & (fs1 & Hfs1 & Ha) & Hgood).
  destruct (Hgood Hno Ho) as (-> & Ho1 & Hsome). rewrite (Hok eq_refl), Nat2Z.id, substring_all in *.
  assert (∃ m, packed m (rw_maxBytes w) (acc +:+ p) (total +:+ p) (dk_files d1)) as [m1 Hpk1].
  { destruct Hfs1 as [[-> _]|(Hmv & _ & Hfull)]; [exists m; by eapply packed_appended|exists (S m); by eapply packed_moved]. }
  rewrite <- Hm1 in Hpk1, Hmax. specialize (IH w1 d1 m1 _ _ Ho1 Hw1 Hmax Hpk1).
  destruct (write_all w1 l d1) as [rs d2]. destruct IH as [-> [m2 Hpk2]]. split; [done|]. exists m2.
  rewrite Hm1, !str_app_assoc in Hpk2. done.
Qed.

Lemma history_backups j fs : history path j fs = backups path j fs +:+ content path fs 0.
Proof using Type. induction j as [|j IH]; cbn [history backups]; [done|]. by rewrite IH, str_app_assoc. Qed.

Lemma history_suffix fs m j : (m ≤ j)%nat → ∃ u, history path j fs = u +:+ history path m fs.
Proof using Type.
  induction 1 as [|j _ [u IH]]; [by exists ""|]. cbn [history]. exists (content path fs (S j) +:+ u).
  by rewrite IH, str_app_assoc.
Qed.

(** Every two neighbours among the files exceed the limit together. *)
Definition pairs_full (maxBytes : Z) fs : Prop :=
  ∀ i, (1 ≤ i ≤ k)%nat →
    maxBytes < Z.of_nat (String.length (content path fs i)) + Z.of_nat (String.length (content path fs (i - 1))).

Lemma packed_dropped m maxBytes b acc dropped fs :
  packed m maxBytes acc (b +:+ acc) fs → b +:+ acc = dropped +:+ history path k fs →
  dropped = "" ∨ maxBytes < Z.of_nat (String.length acc) ∧ (pairs_full maxBytes fs ∨ ∃ kept, b = dropped +:+ kept).
Proof using Hk.
  intros [] Hd. destruct (decide (m = 0%nat)) as [Hm|Hm].
  { left. rewrite pk_none0 in Hd by done. apply (f_equal String.length) in Hd. rewrite !str_length_app in Hd.
    destruct dropped; [done|]. simpl in Hd. lia. }
  right. split; [apply pk_used0; lia|]. destruct (decide (m ≤ k)%nat) as [Hle|Hgt].
  - right. destruct (history_suffix fs m k Hle) as [u Hu]. rewrite Hu, pk_kept0, <- str_app_assoc in Hd by done.
    exists u. by apply str_app_inj_r in Hd.
  - left. intros i Hi. apply pk_full0; lia.
Qed.
End rotation.


(** ** Runs *)
Definition no_faults : DiskFaults := {| disk_fault _ _ := false; written_before _ := 0%nat |}.
(** The files after the writes [l] to a log opened on [fs]. *)
Definition log_run `{DF : DiskFaults} (maxBytes maxBackups : Z) (l : list string) (fs : gmap string string)
    : option (list (Z * bool) * gmap string string) :=
  match NewRotatingWriter "log" maxBytes maxBackups (MkDisk fs 0) with
  | (Some w, d) => let '(rs, d) := write_all w l d in Some (rs, dk_files d)
  | (None, _) => None
  end.

(** Five writes of four bytes into files of six, with two backups. *)
Example rotation :
  log_run (DF := no_faults) 6 2 ["aaaa"; "bbbb"; "cccc"; "dddd"; "ee"] ∅ =
  Some ([(4, true); (4, true); (4, true); (4, true); (2, true)],
    <["log" := "ddddee"]> (<["log.1" := "cccc"]> {["log.2" := "bbbb"]})).
Proof. vm_compute. reflexivity. Qed.

(** Without backups nothing is dropped, and the file grows past its bound. *)
Example rotation_unbounded :
  log_run (DF := no_faults) 6 0 ["aaaa"; "bbbb"; "cccc"] ∅ =
  Some ([(4, true); (4, true); (4, true)], {["log" := "aaaabbbbcccc"]}).
Proof. vm_compute. reflexivity. Qed.

(** So it does when the log cannot be renamed: its size starts again at zero. *)
Example failed_rename_unbounded :
  let DF := {| disk_fault c _ := match c with DRename => true | _ => false end; written_before _ := 0%nat |} in
  log_run 6 2 ["aaaa"; "bbbb"; "cccc"] ∅ = Some ([(4, true); (4, true); (4, true)], {["log" := "aaaabbbbcccc"]}).
Proof. vm_compute. reflexivity. Qed.

(** A rotation whose reopening fails ends the log: the file stays closed, and
    every later write fails, although the disk is well again. *)
Example failed_reopen_ends_log :
  let DF := {| disk_fault c n := match c with DOpenFile => (n =? 7)%nat | _ => false end; written_before _ := 0%nat |} in
  log_run 6 2 ["aaaa"; "bbbb"; "cccc"; "d"] ∅ =
  Some ([(4, true); (0, false); (0, false); (0, false)], {["log.1" := "aaaa"]}).
Proof. vm_compute. reflexivity. Qed.

(** A run in which a write to a full disk fails half way. *)
Definition toy_disk : DiskFaults :=
  {| disk_fault c n := match c with DWrite => (n =? 9)%nat | _ => false end; written_before _ := 2%nat |}.

